(* ===== verification/_CoqProject ===== *)
-Q . S2P
Prelude.v
GoStd.v
GoVal.v
GoDuration.v
Effects.v
Sanitize.v
SanitizeSpec.v
SanitizeSafety.v
Values.v
Logger.v
PgConn.v
World.v
Toy.v
Rows.v
Config.v
Conn.v
RowsRead.v
QueryRead.v
ConnSpec.v
Listening.v
Batch.v
BatchRead.v
CopyFrom.v
CopyPipe.v
Tx.v
Nested.v
LargeObjects.v
LargeFiles.v
Pool.v
PoolSpec.v
PoolStart.v
PoolTx.v
PoolHealth.v
SqlDriver.v
SqlSpec.v
SqlTx.v
Examples.v
