(* ===== verification/Prelude.v ===== *)
(** * A PostgreSQL driver and its layers

    The program is a PostgreSQL driver for Go.  An application opens a
    connection, or a pool of connections, or goes through database/sql; it
    prepares, executes and queries statements, sends batches, copies rows,
    opens transactions and works with large objects.

<<
                       examples (task list, chat, URL shortener)
                      /                  \
      stdlib/sql.go (database/sql)      pgxpool (pool of connections)
                      \                  /
         tx.go   batch.go   copy_from.go   large_objects.go
                            |
                 conn.go, rows.go   (one connection)
                 /          |           \
    sanitize.go    values.go, extended_query_builder.go    logger.go
                            |
        pgconn, pgtype, stmtcache, puddle   (outside the repository)
>>

    ** The files

    - [Prelude]: strings as lists of bytes, integers at their width with their
      wrap-around, return or panic ([outcome]), checked indexing and slicing,
      and the tactics and lemmas every file uses.
    - [GoStd], [GoVal], [GoDuration]: what the source uses of Go's standard
      library (utf8, strings, hex, strconv, time), Go's dynamic values and
      errors, and durations with [time.ParseDuration].
    - [Effects]: results that may panic or run out of fuel ([comp]), the state
      monad [M] with panics and deferred calls, total correctness [wp], frames
      [keeps] with their hint database, and [safe].
    - [Sanitize]: package sanitize (sanitize/sanitize.go), each state function
      of the lexer as one round, [NewQuery], [Sanitize], [SanitizeSQL].
      [SanitizeSpec] has a reference automaton over runes and the proof that the
      lexer refines it; [SanitizeSafety] the quoting and the absence of
      injection.
    - [Values]: values.go, go_stdlib.go, messages.go and
      extended_query_builder.go: conversion of arguments for the simple
      protocol, encoding for the extended protocol and for COPY.  The encoders
      of pgtype are the class [PgTypes].
    - [Logger]: logger.go and the log adapters (log/): what each level hands to
      the logging library, and the options of the zerolog adapter.
    - [PgConn]: the classes for pgconn, stmtcache and the scan plans of pgtype:
      an abstract state, getters on it, and requests that [serve] answers.
      [PgConnLaws] states what is documented of them: closing closes, closed
      stays closed, ranging over a map visits every key once.
    - [World]: the state of one connection.  Objects shared by reference
      (transactions, savepoints, result sets, batches and their results) live in
      heaps and are referred to by index, so aliasing is explicit; [trace] is
      the sequence of the requests and log entries so far.
    - [Toy]: a small server, an instance of the classes, for the examples.
    - [Rows], [Config], [Conn], [Batch], [CopyFrom], [Tx], [LargeObjects]:
      rows.go, conn.go, batch.go, copy_from.go, tx.go and large_objects.go, one
      definition per method, with their theorems; those of [Conn] are in
      [ConnSpec], and in [Listening] for the notifications.
    - [RowsRead], [QueryRead], [BatchRead], [LargeFiles]: these operations against
      what a server does.  [RowsRead] reads a result set to its end over any
      reader that gives rows in order ([ReaderLaws]); [QueryRead] is a query in
      the extended protocol on a server whose session has data and prepared
      statements, which their names stand for ([PgQueries]); [BatchRead] a batch on one that sends a result per statement
      ([PgResults]); [LargeFiles] a large object on one with PostgreSQL's large
      object functions ([LargeFns], [PgLargeObjects]) and pgtype's types for
      them ([PgLargeTypes]).  Each file ends with a server of its class.
    - [CopyPipe]: the goroutine of [CopyFrom] and the reader of its pipe as
      interleaved steps, against the sequence of writes of [CopyFrom].
    - [Nested]: what PostgreSQL documents of transactions and savepoints, the
      class [PgTransactions] of the connections that behave so, programs of
      nested [BeginFunc]s in a [BeginTxFunc], and their effect.  [PoolTx] lifts
      it to the pool; [SqlTx] has the transactions of database/sql.
    - [Pool]: pgxpool.  puddle is the class [Puddle]; its constructor and
      destructor callbacks are definitions, goroutines are tasks that any
      schedule may run ([run_goroutine]), and a connection's state is
      the [world] of its resource; the statistics are puddle's snapshot.
      [PoolSpec] has the theorems.  [PoolStart] has the goroutines of
      [createIdleResources] interleaved, of which [Pool] runs one schedule,
      [PoolHealth] what a round of the health check does ([PuddleClock]).
    - [SqlDriver]: stdlib/sql.go, on the [world] of its pgx connection, and
      [AcquireConn] and [ReleaseConn] over an abstract [sql.DB].  [SqlSpec] has
      the theorems.
    - [Examples]: the programs under examples, over [Conn] and [Pool]: commands
      and handlers as functions, what is printed and the exit code as values,
      the two goroutines of the chat as interleaved steps.

    ** What is shown

    - Sanitizing: the lexer returns on every input the parts of the automaton,
      loses no text, and writes each argument as one literal that reads back as
      the argument and leaves the rest of the query as it was.  Exec and Query
      send arguments in the simple protocol only in this way.
    - Encoding: arguments that are accepted are appended as one framed value
      each, the builder's lists agree in length, and the recursion through
      pointers and valuers ends when the registry's values have an encoder for
      the format, and does not end when they have none.
    - Result sets: closed once, with the first of their errors and those of
      their readers kept; [QueryFunc] and the
      scan of a single row leave them closed; what [Query] returns agrees with
      its error.  In the extended protocol the text of the query, or the one
      prepared under its name, runs with the encoded arguments, and reading gives
      its rows in order, its tag and its error.
    - Notifications: handed out in the order in which the server delivered them,
      none dropped.
    - Batches and COPY: one entry per query in order, with its text or statement
      name, its encoded values and its result formats; every unread query logged
      once at close; the results come back in the order of the queries, read by
      [Exec] or [Query] in any mixture; the stream is the header and the rows whatever the chunks.
      However the goroutine of COPY and its reader interleave, the reader gets
      this stream and its end, and a reader that goes away ends the goroutine.
    - Transactions: they end once, [BeginTxFunc] commits or rolls back on every
      path including a panic, failures close the connection, savepoint names
      are distinct at every reachable state.  On a server with PostgreSQL's
      savepoints, transactions nested to any depth have the effect of nested
      transactions, with any options but read only, also when the server refuses
      the commit, and leave a connection that can be used again, also through the
      pool, which then keeps it.
    - Large objects: reads, writes, seeks and truncations of a new object
      return what they return on a file, and the object then has its content.
    - Logging: level names read back, the adapters agree on the common levels,
      and zerolog entries name the module once.
    - Configuration: options are read and removed, identifiers read back.
    - Pool: over all interleavings of operations and goroutines every resource
      taken from puddle is given back exactly once, held, or waiting for
      [AfterRelease]; [Release] destroys the connections that are closed, busy,
      in a transaction or too old; borrowing operations release on all paths; closing the
      rows of a query returns and gives the connection back; the number of
      acquired connections in the statistics is the number of those held.
      Starting a pool ends under every schedule, with the first error received.
      A round of the health check destroys the idle connections that are too
      old or idle for too long and no others, and makes up for [MinConns].
    - database/sql: reading a query through the driver is equivalent to a plain
      loop over pgx's rows, the statements of a transaction take effect together
      or not at all, a closed connection is always reported as bad, acquired connections are released
      once, registered configurations are found, hosts are permuted.
      [CheckSetSchemaCtx] does not terminate on the statements it acts on.
    - Examples: the URL shortener answers with one status and holds no
      connection afterwards, the chat holds the one it listens on and no other,
      the task list closes its result set and refuses numbers out of range.

    ** Fuel

    The rounds of the lexer and the encoding of arguments have bounds that are
    proved to be enough.  A chunk of COPY takes at most 32769 rows, since a row
    has at least two bytes; reading the result of a single statement takes three
    rounds.  The other fueled loops wait for the outside (reading
    results, acquiring a connection that [BeforeAcquire] accepts) and have no
    bound of their own; their theorems hold for every fuel, and say that a
    deferred call runs or an object is closed whenever the loop ends.  Where the
    server says how many rows a result has, one more is enough to read it.  The
    recursion of [ExecContext] has a depth; 1 is enough for every statement that
    [CheckSetSchemaCtx] leaves alone, and none is for the others.

    ** Not modelled

    - pgconn, pgtype, pgio, stmtcache, puddle, the logging libraries and
      [sql.DB] are outside the repository: parameters with named laws.
    - Goroutines that run at the same time as other code of the same
      connection: a connection is not safe for concurrent use.  Those of the
      pool are tasks that run between operations, that of COPY interleaves with
      the reader of its pipe.  Mutexes and channels are not states of the model:
      what they protect is changed in one step.
    - A panic that the application recovers in the middle of an operation of the
      pool: the reachable states of [PoolSpec] are those after operations that
      return.  That the operations which borrow a connection release it when they
      panic is shown of each.
    - Waiting and time: whether a context ends a call is the answer of the
      outside, the clock is read from it.
    - The capacity of slices, hence which of them share memory after an append.
    - Methods that return a field (PgConn, ConnInfo, Conn, ConnString) are the
      field, RegisterConnConfig and UnregisterConnConfig are the methods of the
      default driver; copying a configuration is the identity on its value, so that what
      two copies share is not represented.
    - Package comments (doc.go, pgxpool/doc.go), which hold no code; package
      http's server and the scanner of the standard input, of which [Examples]
      has the requests and the lines. *)

From Stdlib Require Export ZArith Lia Ascii String.
From stdpp Require Export base numbers list gmap strings.
#[global] Open Scope list_scope.

Declare Scope go_scope.
Delimit Scope go_scope with go.

(** ** Bytes and strings

    A Go [string] and a Go [[]byte] are both a sequence of bytes. *)

Abbreviation gostring := (list ascii).

Definition str (s : string) : gostring := String.list_ascii_of_string s.
Arguments str s%_string.

(** The value of a byte, as the code compares it. *)
Definition code (c : ascii) : Z := Z.of_N (N_of_ascii c).

Definition byte_of (z : Z) : ascii := ascii_of_N (Z.to_N (z mod 256)%Z).

(** ** Integers at their width *)

Definition wrap_u (w z : Z) : Z := (z mod 2 ^ w)%Z.
Definition wrap_s (w z : Z) : Z := ((z + 2 ^ (w - 1)) mod 2 ^ w - 2 ^ (w - 1))%Z.

(** The code is compiled for 64-bit targets: [int] and [uint] have 64 bits. *)
Definition int64 (z : Z) : Z := wrap_s 64 z.
Definition int32 (z : Z) : Z := wrap_s 32 z.
Definition int16 (z : Z) : Z := wrap_s 16 z.

Definition in_s (w z : Z) : Prop := (- 2 ^ (w - 1) <= z < 2 ^ (w - 1))%Z.
Definition in_u (w z : Z) : Prop := (0 <= z < 2 ^ w)%Z.

(** ** Outcomes

    A Go function either returns or panics. *)

Inductive outcome (A : Type) : Type :=
| Ret (a : A)
| Panic (msg : gostring).
Arguments Ret {A} a.
Arguments Panic {A} msg.

Definition obind {A B} (m : outcome A) (k : A -> outcome B) : outcome B :=
  match m with
  | Ret a => k a
  | Panic msg => Panic msg
  end.

Notation "'let!' x ':=' m 'in' k" := (obind m (fun x => k))
  (at level 10, x binder, m at level 100, k at level 200) : go_scope.

Definition index_out_of_range : gostring := str "runtime error: index out of range".
Definition slice_out_of_range : gostring := str "runtime error: slice bounds out of range".
Definition nil_dereference : gostring :=
  str "runtime error: invalid memory address or nil pointer dereference".

(** [l[i]] and [l[i:j]] of the language, with their bounds checks. *)
Definition go_index {A} (l : list A) (i : Z) : outcome A :=
  if (i <? 0)%Z then Panic index_out_of_range
  else match l !! Z.to_nat i with
       | Some a => Ret a
       | None => Panic index_out_of_range
       end.

Definition go_slice {A} (l : list A) (i j : Z) : outcome (list A) :=
  if ((0 <=? i) && (i <=? j) && (j <=? Z.of_nat (length l)))%Z
  then Ret (take (Z.to_nat j - Z.to_nat i) (drop (Z.to_nat i) l))
  else Panic slice_out_of_range.

(** A [for] loop: [body] either goes on with a new state, or leaves the loop
    with a result.  [None] is the exhaustion of the fuel. *)
Fixpoint go_loop {S R} (fuel : nat) (body : S -> outcome (S + R)) (s : S)
  : option (outcome R) :=
  match fuel with
  | O => None
  | Datatypes.S f =>
      match body s with
      | Panic msg => Some (Panic msg)
      | Ret (inl s') => go_loop f body s'
      | Ret (inr r) => Some (Ret r)
      end
  end.

(** ** Generic lemmas *)

Create HintDb go.

Lemma code_bound c : (0 <= code c < 256)%Z.
Proof.
  unfold code. pose proof (N_ascii_bounded c). lia.
Qed.

Lemma code_inj c d : code c = code d -> c = d.
Proof.
  unfold code. intros H%N2Z.inj.
  rewrite <- (ascii_N_embedding c), <- (ascii_N_embedding d). by f_equal.
Qed.

Lemma code_byte_of z : code (byte_of z) = (z mod 256)%Z.
Proof.
  unfold code, byte_of. rewrite N_ascii_embedding.
  - rewrite Z2N.id; [done|]. apply Z.mod_pos_bound. lia.
  - pose proof (Z.mod_pos_bound z 256 ltac:(lia)). lia.
Qed.

Lemma byte_of_code c : byte_of (code c) = c.
Proof.
  apply code_inj. rewrite code_byte_of. apply Z.mod_small, code_bound.
Qed.

Lemma wrap_s_id w z : (0 < w)%Z -> in_s w z -> wrap_s w z = z.
Proof.
  unfold wrap_s, in_s. intros Hw Hz.
  assert (2 ^ w = 2 * 2 ^ (w - 1))%Z as E.
  { rewrite <- Z.pow_succ_r by lia. f_equal. lia. }
  rewrite Z.mod_small; lia.
Qed.

Lemma wrap_s_range w z : (0 < w)%Z -> in_s w (wrap_s w z).
Proof.
  unfold wrap_s, in_s. intros Hw.
  assert (2 ^ w = 2 * 2 ^ (w - 1))%Z as E.
  { rewrite <- Z.pow_succ_r by lia. f_equal. lia. }
  pose proof (Z.mod_pos_bound (z + 2 ^ (w - 1)) (2 ^ w) ltac:(lia)). lia.
Qed.

Lemma go_index_Ret {A} (l : list A) i a :
  go_index l i = Ret a <-> (0 <= i)%Z /\ l !! Z.to_nat i = Some a.
Proof.
  unfold go_index. destruct (Z.ltb_spec i 0).
  - split; [done|]. intros [? _]. lia.
  - destruct (l !! Z.to_nat i) eqn:E; (split; [intros [=]|intros [_ [=]]]); by subst.
Qed.

Lemma go_slice_Ret {A} (l : list A) i j :
  (0 <= i)%Z -> (i <= j)%Z -> (j <= Z.of_nat (length l))%Z ->
  go_slice l i j = Ret (take (Z.to_nat j - Z.to_nat i) (drop (Z.to_nat i) l)).
Proof.
  intros. unfold go_slice.
  rewrite (proj2 (Z.leb_le 0 i)), (proj2 (Z.leb_le i j)), (proj2 (Z.leb_le j _)) by lia.
  done.
Qed.

(** A loop whose body decreases a measure at every further round ends, with
    any fuel above the measure, and its result satisfies what the body
    establishes on leaving it. *)
Lemma go_loop_ends {S R} (body : S -> outcome (S + R)) (m : S -> nat)
    (Inv : S -> Prop) (Post : S -> R -> Prop) :
  (forall s, Inv s ->
     match body s with
     | Panic _ => False
     | Ret (inl s') => Inv s' /\ m s' < m s /\ (forall r, Post s' r -> Post s r)
     | Ret (inr r) => Post s r
     end) ->
  forall fuel s, Inv s -> m s < fuel ->
    exists r, go_loop fuel body s = Some (Ret r) /\ Post s r.
Proof.
  intros Hb fuel. induction fuel as [|f IH]; intros s Hs Hm; [lia|].
  simpl. specialize (Hb s Hs).
  destruct (body s) as [[s'|r]|msg]; [| by eauto | done].
  destruct Hb as (Hs' & Hlt & HP).
  destruct (IH s' Hs' ltac:(lia)) as (r & -> & Hr). eauto.
Qed.

(** More fuel does not change the result of a loop. *)
Lemma go_loop_mono {S R} (body : S -> outcome (S + R)) n m s r :
  n <= m -> go_loop n body s = Some r -> go_loop m body s = Some r.
Proof.
  revert m s. induction n as [|n IH]; intros [|m] s Hle H; simpl in *; try lia; try done.
  destruct (body s) as [[s'|r']|msg]; [| done | done].
  apply IH; [lia | done].
Qed.

(** The elements related by [Forall2] may be taken from the list. *)
Lemma Forall2_impl_in {A B} (P Q : A -> B -> Prop) l k :
  Forall2 P l k -> (forall x y, x ∈ l -> P x y -> Q x y) -> Forall2 Q l k.
Proof.
  induction 1 as [|x y l k Hxy _ IH]; intros HQ; constructor; [apply HQ; [by left|done]|].
  apply IH. intros x' y' Hin. apply HQ. by right.
Qed.

(** [case_Z] decides the boolean comparisons of integers of the goal. *)
Ltac case_Z :=
  repeat match goal with
  | |- context [Z.eqb ?a ?b] => destruct (Z.eqb_spec a b)
  | |- context [Z.ltb ?a ?b] => destruct (Z.ltb_spec a b)
  | |- context [Z.leb ?a ?b] => destruct (Z.leb_spec a b)
  end.

#[export] Hint Resolve code_bound wrap_s_range : go.
