(* ===== verification/GoStd.v ===== *)
(** The parts of the Go standard library the driver calls, as executable
    definitions: [unicode/utf8], [strings], [encoding/hex], [strconv] and the
    formatting of [time].  Only what the source uses is here. *)

From S2P Require Import Prelude.
From Stdlib Require Import SpecFloat.

Local Open Scope Z_scope.

(** ** unicode/utf8 *)

Definition RuneError : Z := 65533.

Definition in_range (lo hi z : Z) : bool := (lo <=? z) && (z <=? hi).

(** The leading byte's class: the size of the sequence and the accepted range
    of the second byte, [None] for a byte that starts no sequence. *)
Definition utf8_first (b : Z) : option (nat * Z * Z) :=
  if b <? 128 then Some (1%nat, 0, 0)
  else if b <? 194 then None
  else if b <? 224 then Some (2%nat, 128, 191)
  else if b =? 224 then Some (3%nat, 160, 191)
  else if b =? 237 then Some (3%nat, 128, 159)
  else if b <? 240 then Some (3%nat, 128, 191)
  else if b =? 240 then Some (4%nat, 144, 191)
  else if b <? 244 then Some (4%nat, 128, 191)
  else if b =? 244 then Some (4%nat, 128, 143)
  else None.

Definition DecodeRuneInString (s : gostring) : Z * nat :=
  match s with
  | [] => (RuneError, 0%nat)
  | c0 :: s1 =>
      let b0 := code c0 in
      match utf8_first b0 with
      | None => (RuneError, 1%nat)
      | Some (sz, lo, hi) =>
          match sz, s1 with
          | 1%nat, _ => (b0, 1%nat)
          | 2%nat, c1 :: _ =>
              if in_range lo hi (code c1)
              then ((b0 - 192) * 64 + (code c1 - 128), 2%nat)
              else (RuneError, 1%nat)
          | 3%nat, c1 :: c2 :: _ =>
              if in_range lo hi (code c1) && in_range 128 191 (code c2)
              then ((b0 - 224) * 4096 + (code c1 - 128) * 64 + (code c2 - 128), 3%nat)
              else (RuneError, 1%nat)
          | 4%nat, c1 :: c2 :: c3 :: _ =>
              if in_range lo hi (code c1) && in_range 128 191 (code c2)
                 && in_range 128 191 (code c3)
              then ((b0 - 240) * 262144 + (code c1 - 128) * 4096
                    + (code c2 - 128) * 64 + (code c3 - 128), 4%nat)
              else (RuneError, 1%nat)
          | _, _ => (RuneError, 1%nat)
          end
      end
  end.

(** ** strings *)

Fixpoint HasPrefix (s prefix : gostring) : bool :=
  match prefix, s with
  | [], _ => true
  | p :: ps, c :: cs => bool_decide (p = c) && HasPrefix cs ps
  | _ :: _, [] => false
  end.

(** [strings.ReplaceAll] for a non-empty [old], the only use of the source:
    [skip] counts the bytes of an occurrence still to be passed over. *)
Fixpoint replace_from (old new s : gostring) (skip : nat) : gostring :=
  match s with
  | [] => []
  | c :: s' =>
      match skip with
      | S k => replace_from old new s' k
      | O => if HasPrefix s old then new ++ replace_from old new s' (length old - 1)
             else c :: replace_from old new s' 0
      end
  end.

Definition ReplaceAll (s old new : gostring) : gostring := replace_from old new s 0.

Fixpoint Join (l : list gostring) (sep : gostring) : gostring :=
  match l with
  | [] => []
  | [a] => a
  | a :: l' => a ++ sep ++ Join l' sep
  end.

(** ** encoding/hex *)

Definition hex_digit (z : Z) : ascii :=
  if z <? 10 then byte_of (48 + z) else byte_of (87 + z).

Definition EncodeToString (b : gostring) : gostring :=
  flat_map (fun c => [hex_digit (code c / 16); hex_digit (code c mod 16)]) b.

(** ** strconv *)

Definition is_digit (r : Z) : bool := in_range 48 57 r.

(** The decimal digits of a natural number, most significant first; the fuel
    [log2 n + 1] is above the number of decimal digits. *)
Fixpoint dec_digits (fuel : nat) (n : Z) (acc : gostring) : gostring :=
  match fuel with
  | O => acc
  | S f =>
      let acc' := byte_of (48 + n mod 10) :: acc in
      if n / 10 =? 0 then acc' else dec_digits f (n / 10) acc'
  end.

Definition FormatUint (n : Z) : gostring := dec_digits (S (Z.to_nat (Z.log2 n))) n [].

Definition FormatInt (z : Z) : gostring :=
  if z <? 0 then str "-" ++ FormatUint (- z) else FormatUint z.

Definition FormatBool (b : bool) : gostring := if b then str "true" else str "false".

Inductive NumError := ErrSyntax | ErrRange.

(** The digit loop of [strconv.ParseUint] in base 10; [max] is the largest
    value of the width. *)
Fixpoint parse_uint_go (max n : Z) (s : gostring) : NumError + Z :=
  match s with
  | [] => inr n
  | c :: s' =>
      if is_digit (code c) then
        let n1 := n * 10 + (code c - 48) in
        if max <? n1 then inl ErrRange else parse_uint_go max n1 s'
      else inl ErrSyntax
  end.

Definition ParseUint (s : gostring) (w : Z) : NumError + Z :=
  match s with
  | [] => inl ErrSyntax
  | _ => parse_uint_go (2 ^ w - 1) 0 s
  end.

Definition ParseInt (s : gostring) (w : Z) : NumError + Z :=
  let '(neg, s1) :=
    match s with
    | c :: s' => if code c =? 43 then (false, s')
                 else if code c =? 45 then (true, s') else (false, s)
    | [] => (false, s)
    end in
  match ParseUint s1 w with
  | inl e => inl e
  | inr un =>
      if neg then (if 2 ^ (w - 1) <? un then inl ErrRange else inr (- un))
      else (if 2 ^ (w - 1) <=? un then inl ErrRange else inr un)
  end.

Definition ParseBool (s : gostring) : option bool :=
  if bool_decide (s ∈ [str "1"; str "t"; str "T"; str "true"; str "TRUE"; str "True"])
  then Some true
  else if bool_decide (s ∈ [str "0"; str "f"; str "F"; str "false"; str "FALSE"; str "False"])
  then Some false
  else None.

(** [appendInt] of package [time]: decimal with a minimal width. *)
Definition append_int (z : Z) (width : nat) : gostring :=
  let ds := FormatUint (Z.abs z) in
  (if z <? 0 then str "-" else [])
  ++ replicate (width - length ds) (byte_of 48) ++ ds.

(** A [float64] is an IEEE 754 binary64 datum; a finite one is [m * 2^e] with
    [m < 2^53].  The decimal search of [FormatFloat(f, 'f', -1, 64)] walks the
    powers of ten downwards and stops at the first one for which truncating or
    rounding up stays between the midpoints to the neighbouring floats, the
    midpoints included for an even mantissa. *)
Definition shortest_at (m e p : Z) : option Z :=
  let lo := if (2 ^ 52 <? m) || (e =? -1074) then 4 * m - 2 else 4 * m - 1 in
  let hi := 4 * m + 2 in
  let num x := (if 2 <=? e then x * 2 ^ (e - 2) else x) * 10 ^ Z.max 0 (- p) in
  let den := (if 2 <=? e then 1 else 2 ^ (2 - e)) * 10 ^ Z.max 0 p in
  let a := num (4 * m) in
  let d := a / den in
  let le x y := if Z.even m then x <=? y else x <? y in
  let okdown := le (num lo) (d * den) in
  let okup := le ((d + 1) * den) (num hi) in
  let nearest_up :=
    (den <? 2 * (a mod den)) || ((2 * (a mod den) =? den) && Z.odd d) in
  match okdown, okup with
  | true, true => Some (if nearest_up then d + 1 else d)
  | true, false => Some d
  | false, true => Some (d + 1)
  | false, false => None
  end.

Fixpoint shortest_from (fuel : nat) (m e p : Z) : Z * Z :=
  match fuel with
  | O => (0, 0)
  | S f => match shortest_at m e p with
           | Some d => (d, p)
           | None => shortest_from f m e (p - 1)
           end
  end.

(** The largest float is below [10^309] and every finite one is a multiple of
    [10^-1074], where the search has the exact value. *)
Definition shortest_decimal (m e : Z) : Z * Z := shortest_from 1385 m e 309.

Definition FormatFloat (f : spec_float) : gostring :=
  match f with
  | S754_nan => str "NaN"
  | S754_infinity false => str "+Inf"
  | S754_infinity true => str "-Inf"
  | S754_zero sgn => (if sgn then str "-" else []) ++ str "0"
  | S754_finite sgn m e =>
      let '(d, p) := shortest_decimal (Zpos m) e in
      (if sgn then str "-" else [])
      ++ (if 0 <=? p then FormatUint (d * 10 ^ p)
          else FormatUint (d / 10 ^ (- p)) ++ str "."
               ++ append_int (d mod 10 ^ (- p)) (Z.to_nat (- p)))
  end.

(** ** time

    An instant, as seconds since the Unix epoch and nanoseconds, with the
    offset of its location in seconds east of UTC. *)
Record Time := mkTime { unixSec : Z; nanosec : Z; zoneOffset : Z }.

(** [t.Truncate(time.Microsecond)]. *)
Definition TruncateMicro (t : Time) : Time :=
  mkTime (unixSec t) (nanosec t - nanosec t mod 1000) (zoneOffset t).

(** Year, month and day of a day count since 1970-01-01, in the proleptic
    Gregorian calendar. *)
Definition civil_of_days (days : Z) : Z * Z * Z :=
  let z := days + 719468 in
  let era := z / 146097 in
  let doe := z mod 146097 in
  let yoe := (doe - doe / 1460 + doe / 36524 - doe / 146096) / 365 in
  let doy := doe - (365 * yoe + yoe / 4 - yoe / 100) in
  let mp := (5 * doy + 2) / 153 in
  let d := doy - (153 * mp + 2) / 5 + 1 in
  let m := if mp <? 10 then mp + 3 else mp - 9 in
  (yoe + era * 400 + (if m <=? 2 then 1 else 0), m, d).

(** The digits of a fraction of a second without their trailing zeros. *)
Fixpoint trim_zeros_rev (l : gostring) : gostring :=
  match l with
  | c :: l' => if code c =? 48 then trim_zeros_rev l' else l
  | [] => []
  end.

Definition format_nano (ns : Z) : gostring :=
  match reverse (trim_zeros_rev (reverse (append_int ns 9))) with
  | [] => []
  | ds => str "." ++ ds
  end.

(** The zone of the layout element [Z07:00:00]. *)
Definition format_zone (off : Z) : gostring :=
  if off =? 0 then str "Z"
  else
    let zone := Z.quot off 60 in
    let '(sign, zone', abs) :=
      if zone <? 0 then (str "-", - zone, - off) else (str "+", zone, off) in
    sign ++ append_int (Z.quot zone' 60) 2 ++ str ":" ++ append_int (Z.rem zone' 60) 2
    ++ str ":" ++ append_int (Z.rem abs 60) 2.

(** [t.Format] with the layout ['2006-01-02 15:04:05.999999999Z07:00:00']
    between single quotes. *)
Definition FormatTimestamp (t : Time) : gostring :=
  let loc := unixSec t + zoneOffset t in
  let '(y, mo, d) := civil_of_days (loc / 86400) in
  let s := loc mod 86400 in
  str "'" ++ append_int y 4 ++ str "-" ++ append_int mo 2 ++ str "-" ++ append_int d 2
  ++ str " " ++ append_int (s / 3600) 2 ++ str ":" ++ append_int (s / 60 mod 60) 2
  ++ str ":" ++ append_int (s mod 60) 2
  ++ format_nano (nanosec t) ++ format_zone (zoneOffset t) ++ str "'".

(** ** Facts *)

(** A decoding consumes at least one byte of a non-empty string and never runs
    past its end. *)
Lemma HasPrefix_app s t : HasPrefix (s ++ t) s = true.
Proof.
  induction s as [|c s IH]; [by destruct t|]. simpl. rewrite IH. by rewrite bool_decide_eq_true_2.
Qed.

Lemma decode_width s :
  s <> [] -> (1 <= snd (DecodeRuneInString s) <= length s)%nat.
Proof.
  destruct s as [|c0 [|c1 [|c2 [|c3 s]]]]; [done|..]; intros _; simpl;
    destruct (utf8_first (code c0)) as [[[[|[|[|[|[|?]]]]] ?] ?]|]; simpl; try lia;
    repeat case_match; simpl; lia.
Qed.

(** A decoded rune below 128 is the one byte read. *)
Lemma decode_ascii s r w :
  DecodeRuneInString s = (r, w) -> r < 128 ->
  w = 1%nat /\ exists c s', s = c :: s' /\ code c = r.
Proof.
  unfold DecodeRuneInString, utf8_first, RuneError, in_range.
  destruct s as [|c0 s]; [intros [= <- <-]; lia|].
  pose proof (code_bound c0).
  repeat case_match; intros [= <- <-] Hr; simplify_eq;
    repeat match goal with
      | H : (_ && _) = true |- _ => apply andb_true_iff in H as [? ?]
      | H : (_ <=? _) = true |- _ => apply Z.leb_le in H
      | H : (_ <? _) = true |- _ => apply Z.ltb_lt in H
      | H : (_ <? _) = false |- _ => apply Z.ltb_ge in H
      | H : (_ =? _) = true |- _ => apply Z.eqb_eq in H
      | H : (_ =? _) = false |- _ => apply Z.eqb_neq in H
      end; try lia; eauto.
Qed.

Lemma decode_ascii_cons c s :
  code c < 128 -> DecodeRuneInString (c :: s) = (code c, 1%nat).
Proof.
  intros H. unfold DecodeRuneInString, utf8_first.
  by rewrite (proj2 (Z.ltb_lt _ _) H).
Qed.

#[global] Arguments DecodeRuneInString : simpl never.

(** *** Decimal numerals *)

Definition digit_char (c : ascii) : Prop := is_digit (code c) = true.

Definition value_from (n : Z) (s : gostring) : Z :=
  fold_left (fun n c => n * 10 + (code c - 48)) s n.

Lemma digit_range c : digit_char c <-> 48 <= code c <= 57.
Proof. unfold digit_char, is_digit, in_range. rewrite andb_true_iff, !Z.leb_le. done. Qed.

Lemma code_digit d : 0 <= d < 10 -> code (byte_of (48 + d)) = 48 + d.
Proof. intros. rewrite code_byte_of. apply Z.mod_small. lia. Qed.

Lemma dec_digits_digits fuel n acc :
  Forall digit_char acc -> Forall digit_char (dec_digits fuel n acc).
Proof.
  revert n acc. induction fuel as [|f IH]; intros n acc Hacc; simpl; [done|].
  pose proof (Z.mod_pos_bound n 10 ltac:(lia)).
  assert (Forall digit_char (byte_of (48 + n mod 10) :: acc)).
  { constructor; [|done]. apply digit_range. rewrite code_digit; lia. }
  destruct (n / 10 =? 0); auto.
Qed.

Lemma dec_digits_value fuel n acc :
  0 <= n < 2 ^ Z.of_nat fuel -> value_from 0 (dec_digits fuel n acc) = value_from n acc.
Proof.
  revert n acc. induction fuel as [|f IH]; intros n acc Hn.
  - simpl in *. by replace n with 0 by lia.
  - cbn [dec_digits]. pose proof (Z.mod_pos_bound n 10 ltac:(lia)).
    pose proof (Z.div_mod n 10 ltac:(lia)).
    assert (value_from (n / 10) (byte_of (48 + n mod 10) :: acc) = value_from n acc) as E.
    { unfold value_from; simpl. rewrite code_digit by lia. f_equal. lia. }
    destruct (Z.eqb_spec (n / 10) 0) as [E0|E0]; [by rewrite <- E, E0|].
    rewrite IH; [done|]. rewrite Nat2Z.inj_succ, Z.pow_succ_r in Hn by lia.
    split; [apply Z.div_pos; lia|]. apply Z.div_lt_upper_bound; lia.
Qed.

Lemma dec_digits_nonempty fuel n acc : dec_digits (S fuel) n acc <> [].
Proof.
  revert n acc. induction fuel as [|f IH]; intros n acc; cbn [dec_digits];
    destruct (n / 10 =? 0); try done. apply IH.
Qed.

Lemma FormatUint_value n : 0 <= n -> value_from 0 (FormatUint n) = n.
Proof.
  intros Hn. unfold FormatUint. rewrite dec_digits_value; [done|].
  split; [done|]. rewrite Nat2Z.inj_succ, Z2Nat.id by apply Z.log2_nonneg.
  destruct (decide (n = 0)) as [->|Hne]; [done|]. apply Z.log2_spec. lia.
Qed.

Lemma FormatUint_digits n : Forall digit_char (FormatUint n).
Proof. by apply dec_digits_digits. Qed.

Lemma FormatUint_nonempty n : FormatUint n <> [].
Proof. apply dec_digits_nonempty. Qed.

Lemma value_from_le n s : Forall digit_char s -> 0 <= n -> n <= value_from n s.
Proof.
  intros Hs. revert n. induction Hs as [|c s Hc Hs IH]; intros n Hn; [done|].
  apply digit_range in Hc. cbn [value_from fold_left].
  etrans; [|apply IH; lia]. lia.
Qed.

Lemma parse_uint_digits max n s :
  Forall digit_char s -> 0 <= n -> value_from n s <= max ->
  parse_uint_go max n s = inr (value_from n s).
Proof.
  intros Hs. revert n. induction Hs as [|c s Hc Hs IH]; intros n Hn Hmax; [done|].
  simpl. rewrite Hc. apply digit_range in Hc.
  pose proof (value_from_le (n * 10 + (code c - 48)) s Hs ltac:(lia)).
  change (value_from n (c :: s)) with (value_from (n * 10 + (code c - 48)) s) in *.
  rewrite (proj2 (Z.ltb_ge max _)) by lia. apply IH; lia.
Qed.

(** [ParseInt] reads back what [FormatInt] prints, within the width. *)
Lemma ParseInt_FormatInt w z : 1 < w -> in_s w z -> ParseInt (FormatInt z) w = inr z.
Proof.
  intros Hw Hz. unfold in_s in Hz.
  assert (2 ^ w = 2 * 2 ^ (w - 1)) as E by (rewrite <- Z.pow_succ_r by lia; f_equal; lia).
  assert (1 < 2 ^ (w - 1)) as Hpos by (apply Z.pow_gt_1; lia).
  assert (forall n, 0 <= n <= 2 ^ (w - 1) -> ParseUint (FormatUint n) w = inr n) as HU.
  { intros n Hn. unfold ParseUint. destruct (FormatUint n) eqn:EF.
    - by apply FormatUint_nonempty in EF.
    - rewrite <- EF, parse_uint_digits; rewrite ?FormatUint_value; try lia; try done.
      apply FormatUint_digits. }
  unfold ParseInt, FormatInt. destruct (Z.ltb_spec z 0) as [Hneg|Hpos'].
  - change (str "-" ++ FormatUint (- z)) with ("-"%char :: FormatUint (- z)).
    cbv beta iota zeta. change (code "-" =? 43) with false. change (code "-" =? 45) with true.
    cbv beta iota zeta.
    rewrite HU by lia. rewrite (proj2 (Z.ltb_ge _ _)) by lia. f_equal. lia.
  - pose proof (FormatUint_digits z) as Hd. destruct (FormatUint z) as [|c s] eqn:EF.
    + by apply FormatUint_nonempty in EF.
    + inversion_clear Hd as [|? ? Hc _]. apply digit_range in Hc.
      rewrite (proj2 (Z.eqb_neq (code c) 43)), (proj2 (Z.eqb_neq (code c) 45)) by lia.
      rewrite <- EF, HU by lia. rewrite (proj2 (Z.leb_gt _ _)) by lia. done.
Qed.

Lemma FormatInt_inj a b : FormatInt a = FormatInt b -> a = b.
Proof.
  intros H.
  assert (exists w, 1 < w /\ in_s w a /\ in_s w b) as (w & Hw & Ha & Hb).
  { set (k := Z.log2_up (Z.max (Z.abs a) (Z.abs b) + 2)).
    pose proof (Z.log2_up_spec (Z.max (Z.abs a) (Z.abs b) + 2) ltac:(lia)) as H1.
    pose proof (Z.log2_up_pos (Z.max (Z.abs a) (Z.abs b) + 2) ltac:(lia)) as H2.
    fold k in H1, H2. clearbody k.
    exists (k + 1). unfold in_s. replace (k + 1 - 1) with k by lia. lia. }
  pose proof (ParseInt_FormatInt w a Hw Ha) as H1. rewrite H, (ParseInt_FormatInt w b Hw Hb) in H1.
  by injection H1.
Qed.

(** Replacing a single byte works on each byte alone. *)
Lemma ReplaceAll_byte s q new :
  ReplaceAll s [q] new = flat_map (fun c => if decide (q = c) then new else [c]) s.
Proof.
  unfold ReplaceAll. induction s as [|c s IH]; [done|].
  cbn [replace_from HasPrefix flat_map length].
  replace (HasPrefix s []) with true by (by destruct s). rewrite andb_true_r.
  destruct (decide (q = c)) as [->|Hne].
  - rewrite bool_decide_true by done. by rewrite <- IH.
  - rewrite bool_decide_false by done. simpl. by rewrite <- IH.
Qed.
