(* ===== verification/GoVal.v ===== *)
(** Go's dynamic values ([interface{}]) and errors, as far as the driver looks
    at them with type switches and reflection. *)

From S2P Require Import Prelude GoStd.
From Stdlib Require Import SpecFloat.

Local Open Scope Z_scope.

(** ** Errors

    The sentinel values of the packages are constructors of their own, since
    the code compares them by identity; [ForeignError] stands for a value that
    comes from code outside the repository (pgconn, pgtype, puddle, a user's
    callback).  [WrapError] is [fmt.Errorf] with the verb for wrapping,
    [FormatError] with the inner error only printed. *)
Inductive error :=
| ErrorString (msg : gostring)
| WrapError (msg : gostring) (inner : error)
| FormatError (msg : gostring) (inner : error)
| SerializationError (msg : gostring)
| ScanArgError (ColumnIndex : Z) (Err : error)
| ErrTxClosed
| ErrTxCommitRollback
| ErrNoRows
| ErrBadConn
| ErrNotPgx
| EOF
| NumErr (Func Num : gostring) (reason : NumError)
| ForeignError (id : Z).

#[export] Instance NumError_eq_dec : EqDecision NumError.
Proof. solve_decision. Defined.

#[export] Instance error_eq_dec : EqDecision error.
Proof. solve_decision. Defined.

Definition errors_New (s : string) : error := ErrorString (str s).
Arguments errors_New s%_string.

(** [errors.Is(err, target)] for a comparable sentinel [target]. *)
Fixpoint errors_Is (e target : error) : bool :=
  bool_decide (e = target)
  || match e with
     | WrapError _ inner => errors_Is inner target
     | ScanArgError _ inner => errors_Is inner target
     | _ => false
     end.

(** ** Values *)

Inductive ikind :=
| KInt | KInt8 | KInt16 | KInt32 | KInt64
| KUint | KUint8 | KUint16 | KUint32 | KUint64.

#[export] Instance ikind_eq_dec : EqDecision ikind.
Proof. solve_decision. Defined.

(** A non-nil interface value carries its dynamic type: [named] is [None] for
    the predeclared type of the kind and the type's name for a defined type.
    A pointer carries the name of its element type; [VExt] is a value of any
    other type (structs, slices, maps of other packages).  A nil slice or map
    of result formats is [None]. *)
Inductive goval :=
| VNil
| VInt (k : ikind) (named : option gostring) (z : Z)
| VFloat64 (named : option gostring) (f : spec_float)
| VFloat32 (named : option gostring) (f : spec_float)
| VBool (named : option gostring) (b : bool)
| VString (named : option gostring) (s : gostring)
| VBytes (named : option gostring) (b : gostring)
| VTime (t : Time)
| VNilPtr (elem : gostring)
| VPtr (elem : gostring) (target : goval)
| VResultFormats (f : option (list Z))
| VResultFormatsByOID (m : option (gmap Z Z))
| VExt (ty : gostring) (payload : Z).

Definition ikind_name (k : ikind) : gostring :=
  match k with
  | KInt => str "int" | KInt8 => str "int8" | KInt16 => str "int16"
  | KInt32 => str "int32" | KInt64 => str "int64"
  | KUint => str "uint" | KUint8 => str "uint8" | KUint16 => str "uint16"
  | KUint32 => str "uint32" | KUint64 => str "uint64"
  end.

(** The name of the dynamic type, as [%T] prints it. *)
Definition type_name (v : goval) : gostring :=
  match v with
  | VNil => str "<nil>"
  | VInt k n _ => default (ikind_name k) n
  | VFloat64 n _ => default (str "float64") n
  | VFloat32 n _ => default (str "float32") n
  | VBool n _ => default (str "bool") n
  | VString n _ => default (str "string") n
  | VBytes n _ => default (str "[]uint8") n
  | VTime _ => str "time.Time"
  | VNilPtr ty => str "*" ++ ty
  | VPtr ty _ => str "*" ++ ty
  | VResultFormats _ => str "pgx.QueryResultFormats"
  | VResultFormatsByOID _ => str "pgx.QueryResultFormatsByOID"
  | VExt ty _ => ty
  end.
