(* ===== verification/GoDuration.v ===== *)
(** Durations of Go's package time: [time.ParseDuration] and [Time.Sub].  A
    duration is a number of nanoseconds. *)

From S2P Require Import Prelude GoStd GoVal.
From Stdlib Require Import SpecFloat.

Local Open Scope Z_scope.

Definition Second : Z := 1000000000.
Definition Minute : Z := 60 * Second.
Definition Hour : Z := 60 * Minute.

Definition minDuration : Z := - 2 ^ 63.
Definition maxDuration : Z := 2 ^ 63 - 1.

(** [t.Sub(u)] saturates. *)
Definition time_Sub (t u : Z) : Z := Z.max minDuration (Z.min maxDuration (t - u)).

(** ** Reading numbers *)

(** [leadingInt]: the digits at the head, [None] on an overflow. *)
Fixpoint leadingInt (x : Z) (s : gostring) : option (Z * gostring) :=
  match s with
  | c :: s' =>
      if is_digit (code c) then
        if 2 ^ 63 / 10 <? x then None
        else
          let x' := x * 10 + (code c - 48) in
          if 2 ^ 63 <? x' then None else leadingInt x' s'
      else Some (x, s)
  | [] => Some (x, [])
  end.

(** [leadingFraction]: the digits that fit, and the power of ten that scales
    them.  The powers that occur are exact as a [float64]. *)
Fixpoint leadingFraction (x scale : Z) (overflow : bool) (s : gostring) : Z * Z * gostring :=
  match s with
  | c :: s' =>
      if is_digit (code c) then
        if overflow then leadingFraction x scale true s'
        else if (2 ^ 63 - 1) / 10 <? x then leadingFraction x scale true s'
        else
          let y := x * 10 + (code c - 48) in
          if 2 ^ 63 <? y then leadingFraction x scale true s'
          else leadingFraction y (scale * 10) false s'
      else (x, scale, s)
  | [] => (x, scale, [])
  end.

(** [float64(n)], and [uint64(f)] of a float that is not negative. *)
Definition float64_of_uint (n : Z) : spec_float := binary_normalize 53 1024 n 0 false.
Definition uint_of_float64 (f : spec_float) : Z :=
  match f with
  | S754_finite false m e => Z.shiftl (Zpos m) e
  | _ => 0
  end.

(** [uint64(float64(f) * (float64(unit) / scale))] *)
Definition fraction_of (f unit scale : Z) : Z :=
  uint_of_float64 (SFmul 53 1024 (float64_of_uint f)
    (SFdiv 53 1024 (float64_of_uint unit) (float64_of_uint scale))).

(** ** Units *)

Definition is_unit_char (c : ascii) : bool := negb ((code c =? 46) || is_digit (code c)).

Fixpoint unit_prefix (s : gostring) : gostring * gostring :=
  match s with
  | c :: s' => if is_unit_char c then let '(u, r) := unit_prefix s' in (c :: u, r) else ([], s)
  | [] => ([], [])
  end.

Definition micro_sign : gostring := map byte_of [194; 181; 115].
Definition greek_mu : gostring := map byte_of [206; 188; 115].

Definition unitMap (u : gostring) : option Z :=
  if bool_decide (u = str "ns") then Some 1
  else if bool_decide (u = str "us") then Some 1000
  else if bool_decide (u = micro_sign) then Some 1000
  else if bool_decide (u = greek_mu) then Some 1000
  else if bool_decide (u = str "ms") then Some 1000000
  else if bool_decide (u = str "s") then Some Second
  else if bool_decide (u = str "m") then Some Minute
  else if bool_decide (u = str "h") then Some Hour
  else None.

(** ** Errors *)

(** [quote]: bytes outside printable ASCII are written in hexadecimal. *)
Definition quote_byte (c : ascii) : gostring :=
  if (128 <=? code c) || (code c <? 32) then
    str "\x" ++ [hex_digit (code c / 16); hex_digit (code c mod 16)]
  else if (code c =? 34) || (code c =? 92) then [byte_of 92; c]
  else [c].

Definition quote (s : gostring) : gostring := byte_of 34 :: concat (map quote_byte s) ++ [byte_of 34].

Definition invalid_duration (orig : gostring) : error :=
  ErrorString (str "time: invalid duration " ++ quote orig).
Definition missing_unit (orig : gostring) : error :=
  ErrorString (str "time: missing unit in duration " ++ quote orig).
Definition unknown_unit (u orig : gostring) : error :=
  ErrorString (str "time: unknown unit " ++ quote u ++ str " in duration " ++ quote orig).

(** ** ParseDuration *)

(** A number with its unit: what it adds, and the rest of the text. *)
Definition duration_term (orig s : gostring) : error + (Z * gostring) :=
  match s with
  | [] => inl (invalid_duration orig)
  | c :: _ =>
      if is_unit_char c then inl (invalid_duration orig)
      else
        match leadingInt 0 s with
        | None => inl (invalid_duration orig)
        | Some (v, s1) =>
            let pre := negb (length s1 =? length s)%nat in
            let '(f, scale, s2, post) :=
              match s1 with
              | d :: s1' =>
                  if code d =? 46 then
                    let '(f, scale, s2) := leadingFraction 0 1 false s1' in
                    (f, scale, s2, negb (length s2 =? length s1')%nat)
                  else (0, 1, s1, false)
              | [] => (0, 1, s1, false)
              end in
            if negb pre && negb post then inl (invalid_duration orig)
            else
              let '(u, rest) := unit_prefix s2 in
              if (length u =? 0)%nat then inl (missing_unit orig)
              else
                match unitMap u with
                | None => inl (unknown_unit u orig)
                | Some unit =>
                    if 2 ^ 63 / unit <? v then inl (invalid_duration orig)
                    else
                      let v' := if 0 <? f then v * unit + fraction_of f unit scale else v * unit in
                      if 2 ^ 63 <? v' then inl (invalid_duration orig) else inr (v', rest)
                end
        end
  end.

(** Every round consumes a byte, so that the length of the text is fuel
    enough. *)
Fixpoint duration_terms (fuel : nat) (orig s : gostring) (d : Z) : error + Z :=
  match s, fuel with
  | [], _ => inr d
  | _ :: _, O => inl (invalid_duration orig)
  | _ :: _, S k =>
      match duration_term orig s with
      | inl e => inl e
      | inr (v, rest) =>
          if 2 ^ 63 <? d + v then inl (invalid_duration orig)
          else duration_terms k orig rest (d + v)
      end
  end.

Definition ParseDuration (orig : gostring) : error + Z :=
  let '(neg, s) :=
    match orig with
    | c :: s' => if (code c =? 45) || (code c =? 43) then (code c =? 45, s') else (false, orig)
    | [] => (false, [])
    end in
  if bool_decide (s = str "0") then inr 0
  else if (length s =? 0)%nat then inl (invalid_duration orig)
  else
    match duration_terms (length s) orig s 0 with
    | inl e => inl e
    | inr d =>
        if neg then inr (- d)
        else if maxDuration <? d then inl (invalid_duration orig)
        else inr d
    end.

(** ** Facts *)

Lemma leadingInt_bound s x v r : 0 <= x -> leadingInt x s = Some (v, r) -> 0 <= v.
Proof.
  revert x. induction s as [|c s IH]; simpl; intros x Hx E; [by simplify_eq|].
  destruct (is_digit (code c)) eqn:D; [|by simplify_eq].
  unfold is_digit, in_range in D. repeat case_match; try done. eapply IH; [|done]. lia.
Qed.

Lemma uint_of_float64_nonneg f : 0 <= uint_of_float64 f.
Proof. destruct f as [| | |[] m e]; simpl; try lia. by apply Z.shiftl_nonneg. Qed.

Lemma unitMap_pos u n : unitMap u = Some n -> 0 < n.
Proof. unfold unitMap. repeat case_bool_decide; intros; simplify_eq; done. Qed.

Lemma duration_term_bound orig s v r : duration_term orig s = inr (v, r) -> 0 <= v <= 2 ^ 63.
Proof.
  unfold duration_term. destruct s as [|c s]; [done|]. destruct (is_unit_char c); [done|].
  destruct (leadingInt 0 _) as [[n s1]|] eqn:L; [|done].
  apply leadingInt_bound in L; [|done].
  destruct (match s1 with [] => _ | _ => _ end) as [[[f scale] s2] post].
  destruct (_ && _); [done|]. destruct (unit_prefix s2) as [u rest]. destruct (_ =? 0)%nat; [done|].
  destruct (unitMap u) as [unit|] eqn:U; [|done]. apply unitMap_pos in U. destruct (_ <? n); [done|].
  pose proof (uint_of_float64_nonneg (SFmul 53 1024 (float64_of_uint f)
    (SFdiv 53 1024 (float64_of_uint unit) (float64_of_uint scale)))) as F.
  fold (fraction_of f unit scale) in F. intros E.
  destruct (0 <? f), (2 ^ 63 <? _) eqn:B; simplify_eq; apply Z.ltb_ge in B; split; try done; nia.
Qed.

Lemma duration_terms_bound fuel orig s d v :
  0 <= d <= 2 ^ 63 -> duration_terms fuel orig s d = inr v -> 0 <= v <= 2 ^ 63.
Proof.
  revert s d. induction fuel as [|k IH]; intros [|c s] d Hd; cbn [duration_terms];
    intros E; simplify_eq; try lia.
  destruct (duration_term orig (c :: s)) as [|[v' rest]] eqn:T; [done|].
  apply duration_term_bound in T. destruct (2 ^ 63 <? d + v') eqn:B; [done|].
  apply Z.ltb_ge in B. eapply IH; [|done]. lia.
Qed.

(** A parsed duration fits its type. *)
Lemma ParseDuration_range s d : ParseDuration s = inr d -> minDuration <= d <= maxDuration.
Proof.
  unfold ParseDuration, minDuration, maxDuration.
  destruct (match s with [] => _ | _ => _ end) as [neg t].
  case_bool_decide; [intros; simplify_eq; lia|]. destruct (_ =? 0)%nat; [done|].
  destruct (duration_terms _ _ _ _) as [|v] eqn:T; [done|]. apply duration_terms_bound in T; [|lia].
  destruct neg; [intros; simplify_eq; lia|]. destruct (_ <? v) eqn:B; [done|].
  apply Z.ltb_ge in B. intros; simplify_eq; lia.
Qed.

(** The decimal point and the hours. *)
Example ParseDuration_examples :
  ParseDuration (str "1h30m") = inr 5400000000000
  /\ ParseDuration (str "-1.5h") = inr (-5400000000000)
  /\ ParseDuration (str ".5s") = inr 500000000
  /\ ParseDuration (str "5") = inl (missing_unit (str "5"))
  /\ ParseDuration (str "9223372036854775808ns") = inl (invalid_duration (str "9223372036854775808ns"))
  /\ ParseDuration (str "0") = inr 0.
Proof. repeat split; vm_compute; reflexivity. Qed.
