(* ===== verification/Effects.v ===== *)
(** Computations of the driver.

    [comp] is a result that may also be a panic, or the exhaustion of the fuel
    of a loop or a recursion that is not structural.  [M] adds a state, which a
    panic leaves as it is: deferred calls run on it.  Go's second return value
    of type [error] is part of the returned value. *)

From S2P Require Import Prelude GoStd GoVal.

Declare Scope eff_scope.
Delimit Scope eff_scope with eff.

(** ** Pure computations *)

Inductive comp (A : Type) : Type :=
| Done (a : A)
| Crash (msg : gostring)
| NoFuel.
Arguments Done {A} a.
Arguments Crash {A} msg.
Arguments NoFuel {A}.

Definition comp_bind {A B} (m : comp A) (k : A -> comp B) : comp B :=
  match m with
  | Done a => k a
  | Crash msg => Crash msg
  | NoFuel => NoFuel
  end.

Notation "'let?' x ':=' m 'in' k" := (comp_bind m (fun x => k))
  (at level 10, x binder, m at level 100, k at level 200) : eff_scope.

Definition of_outcome {A} (o : outcome A) : comp A :=
  match o with Ret a => Done a | Panic msg => Crash msg end.

Definition of_fueled {A} (o : option (outcome A)) : comp A :=
  match o with None => NoFuel | Some o => of_outcome o end.

(** ** Computations with a state *)

Inductive result (S A : Type) : Type :=
| Ok (a : A) (s : S)
| Panicked (msg : gostring) (s : S)
| OutOfFuel.
Arguments Ok {S A} a s.
Arguments Panicked {S A} msg s.
Arguments OutOfFuel {S A}.

Definition M (S A : Type) : Type := S -> result S A.

Definition ret {S A} (a : A) : M S A := fun s => Ok a s.
Definition bind {S A B} (m : M S A) (k : A -> M S B) : M S B :=
  fun s => match m s with
           | Ok a s' => k a s'
           | Panicked msg s' => Panicked msg s'
           | OutOfFuel => OutOfFuel
           end.
Definition gets {S A} (f : S -> A) : M S A := fun s => Ok (f s) s.
Definition modify {S} (f : S -> S) : M S unit := fun s => Ok tt (f s).
Definition panic {S A} (msg : gostring) : M S A := fun s => Panicked msg s.
Definition out_of_fuel {S A} : M S A := fun _ => OutOfFuel.
Definition lift {S A} (c : comp A) : M S A :=
  fun s => match c with
           | Done a => Ok a s
           | Crash msg => Panicked msg s
           | NoFuel => OutOfFuel
           end.

Notation "'let*' x ':=' m 'in' k" := (bind m (fun x => k))
  (at level 10, x binder, m at level 100, k at level 200) : eff_scope.
Notation "m ;;; k" := (bind m (fun _ => k))
  (at level 100, k at level 200, right associativity) : eff_scope.

Open Scope eff_scope.

Definition when {S} (b : bool) (m : M S unit) : M S unit := if b then m else ret tt.

(** [defer]: the deferred call runs when the body returns and when it panics;
    it may change the named result, of which [zero] is the value a panic
    leaves. *)
Definition defer {S A} (zero : A) (deferred : A -> M S A) (body : M S A) : M S A :=
  fun s => match body s with
           | Ok a s' => deferred a s'
           | Panicked msg s' =>
               match deferred zero s' with
               | Ok _ s'' => Panicked msg s''
               | Panicked msg' s'' => Panicked msg' s''
               | OutOfFuel => OutOfFuel
               end
           | OutOfFuel => OutOfFuel
           end.

(** A [for] loop: the body goes on with a new value of the loop's variables or
    leaves the loop with a result. *)
Fixpoint loop {S A B} (fuel : nat) (body : A -> M S (A + B)) (a : A) : M S B :=
  match fuel with
  | O => out_of_fuel
  | Datatypes.S f =>
      let* r := body a in
      match r with
      | inl a' => loop f body a'
      | inr b => ret b
      end
  end.

(** [for i, x := range l] with an early return. *)
Fixpoint range {S A R} (i : nat) (l : list A) (body : nat -> A -> M S (option R)) : M S (option R) :=
  match l with
  | [] => ret None
  | x :: l' =>
      let* r := body i x in
      match r with
      | Some _ => ret r
      | None => range (Datatypes.S i) l' body
      end
  end.

(** ** Equations *)

Lemma bind_assoc {S A B C} (m : M S A) (f : A -> M S B) (g : B -> M S C) s :
  bind (bind m f) g s = bind m (fun a => bind (f a) g) s.
Proof. unfold bind. by destruct (m s). Qed.

Lemma bind_Ok {S A B} (m : M S A) (k : A -> M S B) s b s2 :
  bind m k s = Ok b s2 <-> exists a s1, m s = Ok a s1 /\ k a s1 = Ok b s2.
Proof.
  unfold bind. destruct (m s) as [a s1| |].
  - split; [by eauto|]. by intros (? & ? & [= <- <-] & ?).
  - split; [done|]. by intros (? & ? & [=] & _).
  - split; [done|]. by intros (? & ? & [=] & _).
Qed.

Lemma bind_eq {S A B} (m : M S A) (k : A -> M S B) s a s' :
  m s = Ok a s' -> bind m k s = k a s'.
Proof. unfold bind. by intros ->. Qed.

Lemma bind_ret_l {S A B} (a : A) (k : A -> M S B) s : bind (ret a) k s = k a s.
Proof. done. Qed.

Lemma bind_ext {S A B} (m : M S A) (k k' : A -> M S B) s :
  (forall a s', k a s' = k' a s') -> bind m k s = bind m k' s.
Proof. intros H. unfold bind. destruct (m s); auto. Qed.

(** [inv_ok H] splits a finished computation at its first call. *)
Ltac inv_ok H :=
  apply bind_Ok in H; let a := fresh "a" in let s := fresh "s" in
  let Hm := fresh "Hm" in destruct H as (a & s & Hm & H).

(** ** Total correctness

    [wp m s Q]: [m] returns from [s], without a panic, and [Q] holds of the
    value and the state. *)
Definition wp {S A} (m : M S A) (s : S) (Q : A -> S -> Prop) : Prop :=
  match m s with
  | Ok a s' => Q a s'
  | _ => False
  end.

Lemma wp_bind {S A B} (m : M S A) (k : A -> M S B) s Q :
  wp m s (fun a s' => wp (k a) s' Q) -> wp (bind m k) s Q.
Proof. unfold wp, bind. by destruct (m s). Qed.

Lemma wp_mono {S A} (m : M S A) s (P Q : A -> S -> Prop) :
  wp m s P -> (forall a s', P a s' -> Q a s') -> wp m s Q.
Proof. unfold wp. destruct (m s); auto. Qed.

Lemma wp_Ok {S A} (m : M S A) s Q : wp m s Q <-> exists a s', m s = Ok a s' /\ Q a s'.
Proof.
  unfold wp. split; [destruct (m s); [by eauto|done..]|]. by intros (a & s' & -> & HQ).
Qed.

Lemma wp_eq {S A} (m : M S A) s a s' (Q : A -> S -> Prop) : m s = Ok a s' -> Q a s' -> wp m s Q.
Proof. unfold wp. by intros ->. Qed.

Lemma wp_same {S A} (m m' : M S A) s Q : m s = m' s -> wp m' s Q -> wp m s Q.
Proof. unfold wp. by intros ->. Qed.

(** ** Running programs

    The state a program ends in and the value it returns, and the tactic that
    runs a closed program. *)
Definition final {S A} (m : M S A) (s : S) : S :=
  match m s with
  | Ok _ s' | Panicked _ s' => s'
  | OutOfFuel => s
  end.

Definition value {S A} (m : M S A) (s : S) : option A :=
  match m s with
  | Ok a _ => Some a
  | _ => None
  end.

Lemma final_run {S A} (m : M S A) s a : value m s = Some a -> m s = Ok a (final m s).
Proof. unfold value, final. destruct (m s); congruence. Qed.

(** That a closed term has a value, by evaluating a test. *)
Lemma some_by_test {A} (o : option A) : match o with Some _ => true | None => false end = true -> exists a, o = Some a.
Proof. destruct o; [eauto|done]. Qed.
Lemma inr_by_test {A B} (o : A + B) : match o with inr _ => true | inl _ => false end = true -> exists b, o = inr b.
Proof. destruct o; [done|eauto]. Qed.

Ltac evaluates := vm_compute; reflexivity.
Ltac runs :=
  subst; match goal with |- ?m ?s = Ok ?a _ => exact (final_run m s a ltac:(evaluates)) end.

(** ** Frames

    [keeps R m]: however [m] ends, its final state is related to the initial
    one by [R].  For a preorder the relation composes along a program. *)
Definition keeps {S A} (R : S -> S -> Prop) (m : M S A) : Prop :=
  forall s, match m s with
            | Ok _ s' => R s s'
            | Panicked _ s' => R s s'
            | OutOfFuel => True
            end.

(** What a program keeps may be used in what it establishes. *)
Lemma wp_keeps {S A} R (m : M S A) s Q :
  keeps R m -> wp m s (fun a s' => R s s' -> Q a s') -> wp m s Q.
Proof. intros Hk. specialize (Hk s). unfold wp. destruct (m s); auto. Qed.

Lemma keeps_Ok {S A} R (m : M S A) s a s' : keeps R m -> m s = Ok a s' -> R s s'.
Proof. intros Hk E. specialize (Hk s). by rewrite E in Hk. Qed.

Lemma keeps_and {S A} (R R' : S -> S -> Prop) (m : M S A) :
  keeps R m -> keeps R' m -> keeps (fun s s' => R s s' /\ R' s s') m.
Proof. intros K K' s. specialize (K s). specialize (K' s). by destruct (m s). Qed.

Create HintDb keeps.

Section Keeps.
Context {S : Type} (R : S -> S -> Prop) `{!PreOrder R}.

Lemma keeps_ret {A} (a : A) : keeps R (ret a).
Proof. intros s. simpl. reflexivity. Qed.

Lemma keeps_gets {A} (f : S -> A) : keeps R (gets f).
Proof. intros s. simpl. reflexivity. Qed.

Lemma keeps_panic {A} msg : keeps R (@panic S A msg).
Proof. intros s. simpl. reflexivity. Qed.

Lemma keeps_out_of_fuel {A} : keeps R (@out_of_fuel S A).
Proof. by intros s. Qed.

Lemma keeps_lift {A} (c : comp A) : keeps R (lift c).
Proof. intros s. unfold lift. destruct c; simpl; by try reflexivity. Qed.

Lemma keeps_modify f : (forall s, R s (f s)) -> keeps R (modify f).
Proof. intros H s. apply H. Qed.

Lemma keeps_bind {A B} (m : M S A) (k : A -> M S B) :
  keeps R m -> (forall a, keeps R (k a)) -> keeps R (bind m k).
Proof.
  intros Hm Hk s. specialize (Hm s). unfold bind.
  destruct (m s) as [a s1|msg s1|]; [|done|done].
  specialize (Hk a s1). destruct (k a s1); [by etrans|by etrans|done].
Qed.

Lemma keeps_when b (m : M S unit) : keeps R m -> keeps R (when b m).
Proof. intros H. destruct b; [done|]. apply keeps_ret. Qed.

Lemma keeps_defer {A} zero (deferred : A -> M S A) (m : M S A) :
  (forall a, keeps R (deferred a)) -> keeps R m -> keeps R (defer zero deferred m).
Proof.
  intros Hd Hm s. specialize (Hm s). unfold defer. destruct (m s) as [a s1|msg s1|]; [| |done].
  - specialize (Hd a s1). destruct (deferred a s1); [by etrans|by etrans|done].
  - specialize (Hd zero s1). destruct (deferred zero s1); [by etrans|by etrans|done].
Qed.

Lemma keeps_loop {A B} fuel (body : A -> M S (A + B)) a :
  (forall a, keeps R (body a)) -> keeps R (loop fuel body a).
Proof.
  intros Hb. revert a. induction fuel as [|f IH]; intros a; [by intros s|].
  cbn [loop]. apply keeps_bind; [done|]. intros [a'|b]; [apply IH|apply keeps_ret].
Qed.

Lemma keeps_range {A B} i (l : list A) (body : nat -> A -> M S (option B)) :
  (forall i a, keeps R (body i a)) -> keeps R (range i l body).
Proof.
  intros Hb. revert i. induction l as [|x l IH]; intros i; cbn [range]; [apply keeps_ret|].
  apply keeps_bind; [done|]. intros []; [apply keeps_ret|apply IH].
Qed.
End Keeps.

#[export] Hint Resolve keeps_ret keeps_gets keeps_panic keeps_out_of_fuel keeps_lift keeps_bind
  keeps_when keeps_defer keeps_loop keeps_range : keeps.

(** [keeps_tac] walks through the branches of a program. *)
Ltac keeps_tac :=
  repeat (intros; cbv zeta; first
    [ assumption
    | typeclasses eauto
    | solve [eauto 2 with keeps typeclass_instances]
    | apply keeps_bind
    | apply keeps_when
    | apply keeps_defer
    | apply keeps_loop
    | apply keeps_range
    | case_match ]).

(** ** Programs that do not panic *)

Definition safe {S A} (m : M S A) : Prop :=
  forall s, match m s with Panicked _ _ => False | _ => True end.

Create HintDb safe.

Lemma safe_ret {S A} (a : A) : safe (@ret S A a).
Proof. by intros s. Qed.
Lemma safe_gets {S A} (f : S -> A) : safe (gets f).
Proof. by intros s. Qed.
Lemma safe_modify {S} (f : S -> S) : safe (modify f).
Proof. by intros s. Qed.
Lemma safe_bind {S A B} (m : M S A) (k : A -> M S B) :
  safe m -> (forall a, safe (k a)) -> safe (bind m k).
Proof.
  intros Hm Hk s. specialize (Hm s). unfold bind. destruct (m s) as [a s1| |]; [apply Hk|done..].
Qed.
Lemma safe_when {S} b (m : M S unit) : safe m -> safe (when b m).
Proof. intros H. destruct b; [done|apply safe_ret]. Qed.
Lemma safe_loop {S A B} fuel (body : A -> M S (A + B)) a :
  (forall a, safe (body a)) -> safe (loop fuel body a).
Proof.
  intros Hb. revert a. induction fuel as [|f IH]; intros a; [by intros s|].
  cbn [loop]. apply safe_bind; [done|]. intros []; [apply IH|apply safe_ret].
Qed.
Lemma safe_lift_Done {S A} (a : A) : safe (@lift S A (Done a)).
Proof. by intros s. Qed.

#[export] Hint Resolve safe_ret safe_gets safe_modify safe_lift_Done : safe.

Ltac safe_tac :=
  repeat (intros; cbv zeta; first
    [ assumption
    | solve [eauto 2 with safe]
    | apply safe_bind
    | apply safe_when
    | apply safe_loop
    | case_match ]).
