(* ===== verification/Sanitize.v ===== *)
(** Package [sanitize] (sanitize/sanitize.go): the lexer that splits a query
    into raw SQL and argument placeholders, and the interpolation of the
    arguments as SQL literals.  This file holds the translation; the theorems
    are in [SanitizeSpec] and [SanitizeSafety]. *)

From S2P Require Import Prelude GoStd GoVal.

Local Open Scope Z_scope.
Local Open Scope go_scope.

(** ** Literals *)

Definition QuoteString (s : gostring) : gostring :=
  str "'" ++ ReplaceAll s (str "'") (str "''") ++ str "'".

Definition QuoteBytes (buf : gostring) : gostring :=
  str "'\x" ++ EncodeToString buf ++ str "'".

(** ** Query.Sanitize *)

Definition insufficient_arguments : error := errors_New "insufficient arguments".
Definition invalid_arg_type (v : goval) : error :=
  ErrorString (str "invalid arg type: " ++ type_name v).
Definition invalid_part_type (v : goval) : error :=
  ErrorString (str "invalid Part type: " ++ type_name v).
Definition unused_argument (i : Z) : error :=
  ErrorString (str "unused argument: " ++ FormatInt i).

(** The inner type switch: the SQL text of an argument. *)
Definition arg_text (arg : goval) : error + gostring :=
  match arg with
  | VNil => inr (str "null")
  | VInt KInt64 None z => inr (FormatInt z)
  | VFloat64 None f => inr (FormatFloat f)
  | VBool None b => inr (FormatBool b)
  | VBytes None b => inr (QuoteBytes b)
  | VString None s => inr (QuoteString s)
  | VTime t => inr (FormatTimestamp (TruncateMicro t))
  | _ => inl (invalid_arg_type arg)
  end.

(** The loop over the parts, with the flags of the used arguments and the
    buffer. *)
Fixpoint sanitize_parts (args : list goval) (parts : list goval)
    (argUse : list bool) (buf : gostring) : outcome (error + list bool * gostring) :=
  match parts with
  | [] => Ret (inr (argUse, buf))
  | VString None s :: parts' => sanitize_parts args parts' argUse (buf ++ s)
  | VInt KInt None n :: parts' =>
      let argIdx := int64 (n - 1) in
      if Z.of_nat (length args) <=? argIdx then Ret (inl insufficient_arguments)
      else
        let! arg := go_index args argIdx in
        match arg_text arg with
        | inl e => Ret (inl e)
        | inr s => sanitize_parts args parts' (<[Z.to_nat argIdx := true]> argUse) (buf ++ s)
        end
  | part :: _ => Ret (inl (invalid_part_type part))
  end.

(** The loop that looks for an argument no placeholder used. *)
Fixpoint first_unused (i : Z) (argUse : list bool) : option Z :=
  match argUse with
  | [] => None
  | used :: l => if used then first_unused (i + 1) l else Some i
  end.

Definition Sanitize (parts args : list goval) : outcome (error + gostring) :=
  let! r := sanitize_parts args parts (replicate (length args) false) [] in
  Ret match r with
      | inl e => inl e
      | inr (argUse, buf) =>
          match first_unused 0 argUse with
          | Some i => inl (unused_argument i)
          | None => inr buf
          end
      end.

(** ** The lexer *)

Inductive stateFn :=
| rawState | singleQuoteState | doubleQuoteState | placeholderState
| escapeStringState | oneLineCommentState | multilineCommentState.

Record sqlLexer := mkLexer {
  src : gostring;
  start : Z;
  pos : Z;
  nested : Z;
  parts : list goval
}.

Definition set_start (l : sqlLexer) (v : Z) : sqlLexer :=
  mkLexer (src l) v (pos l) (nested l) (parts l).
Definition advance (l : sqlLexer) (width : nat) : sqlLexer :=
  mkLexer (src l) (start l) (pos l + Z.of_nat width) (nested l) (parts l).
Definition retreat (l : sqlLexer) (width : nat) : sqlLexer :=
  mkLexer (src l) (start l) (pos l - Z.of_nat width) (nested l) (parts l).
Definition set_nested (l : sqlLexer) (v : Z) : sqlLexer :=
  mkLexer (src l) (start l) (pos l) v (parts l).
Definition append_part (l : sqlLexer) (p : goval) : sqlLexer :=
  mkLexer (src l) (start l) (pos l) (nested l) (parts l ++ [p]).

(** [utf8.DecodeRuneInString(l.src[l.pos:])] *)
Definition decode_here (l : sqlLexer) : outcome (Z * nat) :=
  let! rest := go_slice (src l) (pos l) (Z.of_nat (length (src l))) in
  Ret (DecodeRuneInString rest).

(** A round of a state's [for] loop: another round, or the next state. *)
Definition round : Type := outcome (sqlLexer + sqlLexer * option stateFn).

Definition next_round (l : sqlLexer) : round := Ret (inl l).
Definition goto (st : stateFn) (l : sqlLexer) : round := Ret (inr (l, Some st)).

(** The [case utf8.RuneError] all states but one share. *)
Definition finish (l : sqlLexer) : round :=
  if 0 <? pos l - start l then
    let! part := go_slice (src l) (start l) (pos l) in
    Ret (inr (set_start (append_part l (VString None part)) (pos l), None))
  else Ret (inr (l, None)).

(** Runes the lexer looks for. *)
Definition r_squote : Z := 39.
Definition r_dquote : Z := 34.
Definition r_dollar : Z := 36.
Definition r_dash : Z := 45.
Definition r_slash : Z := 47.
Definition r_star : Z := 42.
Definition r_backslash : Z := 92.
Definition r_newline : Z := 10.
Definition r_e : Z := 101.
Definition r_E : Z := 69.

Definition raw_round (l0 : sqlLexer) : round :=
  let! d := decode_here l0 in
  let '(r, width) := d in
  let l := advance l0 width in
  if (r =? r_e) || (r =? r_E) then
    let! d2 := decode_here l in
    if fst d2 =? r_squote then goto escapeStringState (advance l (snd d2)) else next_round l
  else if r =? r_squote then goto singleQuoteState l
  else if r =? r_dquote then goto doubleQuoteState l
  else if r =? r_dollar then
    let! d2 := decode_here l in
    if is_digit (fst d2) then
      let! l' := (if 0 <? pos l - start l then
                    let! part := go_slice (src l) (start l) (pos l - Z.of_nat width) in
                    Ret (append_part l (VString None part))
                  else Ret l) in
      goto placeholderState (set_start l' (pos l'))
    else next_round l
  else if r =? r_dash then
    let! d2 := decode_here l in
    if fst d2 =? r_dash then goto oneLineCommentState (advance l (snd d2)) else next_round l
  else if r =? r_slash then
    let! d2 := decode_here l in
    if fst d2 =? r_star then goto multilineCommentState (advance l (snd d2)) else next_round l
  else if r =? RuneError then finish l
  else next_round l.

Definition single_quote_round (l0 : sqlLexer) : round :=
  let! d := decode_here l0 in
  let '(r, width) := d in
  let l := advance l0 width in
  if r =? r_squote then
    let! d2 := decode_here l in
    if negb (fst d2 =? r_squote) then goto rawState l else next_round (advance l (snd d2))
  else if r =? RuneError then finish l
  else next_round l.

Definition double_quote_round (l0 : sqlLexer) : round :=
  let! d := decode_here l0 in
  let '(r, width) := d in
  let l := advance l0 width in
  if r =? r_dquote then
    let! d2 := decode_here l in
    if negb (fst d2 =? r_dquote) then goto rawState l else next_round (advance l (snd d2))
  else if r =? RuneError then finish l
  else next_round l.

(** [placeholderState] carries [num] through its rounds. *)
Definition placeholder_round (s : Z * sqlLexer)
  : outcome (Z * sqlLexer + sqlLexer * option stateFn) :=
  let '(num, l0) := s in
  let! d := decode_here l0 in
  let '(r, width) := d in
  let l := advance l0 width in
  if is_digit r then
    Ret (inl (int64 (int64 (num * 10) + (r - 48)), l))
  else
    let l1 := retreat (append_part l (VInt KInt None num)) width in
    Ret (inr (set_start l1 (pos l1), Some rawState)).

Definition escape_string_round (l0 : sqlLexer) : round :=
  let! d := decode_here l0 in
  let '(r, width) := d in
  let l := advance l0 width in
  if r =? r_backslash then
    let! d2 := decode_here l in
    next_round (advance l (snd d2))
  else if r =? r_squote then
    let! d2 := decode_here l in
    if negb (fst d2 =? r_squote) then goto rawState l else next_round (advance l (snd d2))
  else if r =? RuneError then finish l
  else next_round l.

Definition one_line_comment_round (l0 : sqlLexer) : round :=
  let! d := decode_here l0 in
  let '(r, width) := d in
  let l := advance l0 width in
  if r =? r_backslash then
    let! d2 := decode_here l in
    next_round (advance l (snd d2))
  else if r =? r_newline then goto rawState l
  else if r =? RuneError then finish l
  else next_round l.

Definition multiline_comment_round (l0 : sqlLexer) : round :=
  let! d := decode_here l0 in
  let '(r, width) := d in
  let l := advance l0 width in
  if r =? r_slash then
    let! d2 := decode_here l in
    if fst d2 =? r_star then next_round (set_nested (advance l (snd d2)) (nested l + 1))
    else next_round l
  else if r =? r_star then
    let! d2 := decode_here l in
    if negb (fst d2 =? r_slash) then next_round l
    else
      let l1 := advance l (snd d2) in
      if nested l1 =? 0 then goto rawState l1
      else next_round (set_nested l1 (nested l1 - 1))
  else if r =? RuneError then finish l
  else next_round l.

(** A state function: its [for] loop run to its return. *)
Definition run_state (fuel : nat) (st : stateFn) (l : sqlLexer)
  : option (outcome (sqlLexer * option stateFn)) :=
  match st with
  | rawState => go_loop fuel raw_round l
  | singleQuoteState => go_loop fuel single_quote_round l
  | doubleQuoteState => go_loop fuel double_quote_round l
  | placeholderState => go_loop fuel placeholder_round (0, l)
  | escapeStringState => go_loop fuel escape_string_round l
  | oneLineCommentState => go_loop fuel one_line_comment_round l
  | multilineCommentState => go_loop fuel multiline_comment_round l
  end.

(** The loop of [NewQuery] over the states. *)
Fixpoint run_lexer (fuel : nat) (st : stateFn) (l : sqlLexer) : option (outcome sqlLexer) :=
  match fuel with
  | O => None
  | S f =>
      match run_state (S (S (length (src l)))) st l with
      | None => None
      | Some (Panic msg) => Some (Panic msg)
      | Some (Ret (l', None)) => Some (Ret l')
      | Some (Ret (l', Some st')) => run_lexer f st' l'
      end
  end.

Definition NewQuery (sql : gostring) : option (outcome (list goval)) :=
  match run_lexer (S (S (2 * length sql))) rawState (mkLexer sql 0 0 0 []) with
  | None => None
  | Some (Panic msg) => Some (Panic msg)
  | Some (Ret l) => Some (Ret (parts l))
  end.

Definition SanitizeSQL (sql : gostring) (args : list goval) : option (outcome (error + gostring)) :=
  match NewQuery sql with
  | None => None
  | Some (Panic msg) => Some (Panic msg)
  | Some (Ret ps) => Some (Sanitize ps args)
  end.
