(* ===== verification/SanitizeSpec.v ===== *)
(** What the lexer of package [sanitize] computes: a reference automaton over
    the decoded runes, and the proof that [NewQuery], with its positions,
    look-ahead and nested loops, returns exactly the automaton's parts on every
    input, without ever panicking. *)

From S2P Require Import Prelude GoStd GoVal Sanitize.

Local Open Scope Z_scope.

(** ** The reference automaton

    A mode is what the lexer knows after a prefix of the query.  The modes with
    a suffix are pending on the next rune: [MRawE] is raw SQL after an [e],
    [MSQq] a single-quoted literal after a quote that may close it. *)
Inductive mode :=
| MRaw | MRawE | MRawDash | MRawSlash | MRawDollar | MPh
| MSQ | MSQq | MDQ | MDQq
| MEsc | MEscB | MEscq
| MLine | MLineB
| MMulti (n : Z) | MMultiSlash (n : Z) | MMultiStar (n : Z).

#[export] Instance mode_eq_dec : EqDecision mode.
Proof. solve_decision. Defined.

Definition raw_step (r : Z) : mode :=
  if (r =? r_e) || (r =? r_E) then MRawE
  else if r =? r_squote then MSQ
  else if r =? r_dquote then MDQ
  else if r =? r_dollar then MRawDollar
  else if r =? r_dash then MRawDash
  else if r =? r_slash then MRawSlash
  else MRaw.

Definition multi_step (n r : Z) : mode :=
  if r =? r_slash then MMultiSlash n
  else if r =? r_star then MMultiStar n
  else MMulti n.

Definition mode_step (m : mode) (r : Z) : mode :=
  match m with
  | MRaw => raw_step r
  | MRawE => if r =? r_squote then MEsc else raw_step r
  | MRawDash => if r =? r_dash then MLine else raw_step r
  | MRawSlash => if r =? r_star then MMulti 0 else raw_step r
  | MRawDollar => if is_digit r then MPh else raw_step r
  | MPh => if is_digit r then MPh else raw_step r
  | MSQ => if r =? r_squote then MSQq else MSQ
  | MSQq => if r =? r_squote then MSQ else raw_step r
  | MDQ => if r =? r_dquote then MDQq else MDQ
  | MDQq => if r =? r_dquote then MDQ else raw_step r
  | MEsc => if r =? r_backslash then MEscB else if r =? r_squote then MEscq else MEsc
  | MEscB => MEsc
  | MEscq => if r =? r_squote then MEsc else raw_step r
  | MLine => if r =? r_backslash then MLineB else if r =? r_newline then MRaw else MLine
  | MLineB => MLine
  | MMulti n => multi_step n r
  | MMultiSlash n => if r =? r_star then MMulti (n + 1) else multi_step n r
  | MMultiStar n =>
      if r =? r_slash then (if n =? 0 then MRaw else MMulti (n - 1)) else multi_step n r
  end.

(** The runes of a string with their bytes. *)
Fixpoint decode_runes (fuel : nat) (s : gostring) : list (Z * gostring) :=
  match fuel, s with
  | S f, _ :: _ =>
      let '(r, w) := DecodeRuneInString s in
      (r, take w s) :: decode_runes f (drop w s)
  | _, _ => []
  end.

Definition decode_all (s : gostring) : list (Z * gostring) := decode_runes (length s) s.

(** A segment of raw SQL becomes a part unless it is empty. *)
Definition segment (s : gostring) : list goval :=
  match s with [] => [] | _ => [VString None s] end.

(** The rune after a backslash is passed over whatever it is; any other
    [RuneError] ends the query. *)
Definition skips (m : mode) : bool :=
  match m with MEscB | MLineB => true | _ => false end.

(** The parts of a query: [acc] is the raw SQL since the last placeholder,
    [num] the number of the placeholder being read. *)
Fixpoint ref_run (m : mode) (acc : gostring) (num : Z) (rs : list (Z * gostring)) : list goval :=
  match rs with
  | [] => match m with MPh => [VInt KInt None num] | _ => segment acc end
  | (r, bs) :: rs' =>
      if (r =? RuneError) && negb (skips m) then
        match m with
        | MPh => VInt KInt None num :: segment bs
        | _ => segment (acc ++ bs)
        end
      else
        match m with
        | MRawDollar =>
            if is_digit r
            then VString None (removelast acc)
                 :: ref_run MPh [] (int64 (int64 (0 * 10) + (r - 48))) rs'
            else ref_run (raw_step r) (acc ++ bs) 0 rs'
        | MPh =>
            if is_digit r
            then ref_run MPh [] (int64 (int64 (num * 10) + (r - 48))) rs'
            else VInt KInt None num :: ref_run (raw_step r) bs 0 rs'
        | _ => ref_run (mode_step m r) (acc ++ bs) 0 rs'
        end
  end.

Definition ref_parts (sql : gostring) : list goval := ref_run MRaw [] 0 (decode_all sql).

(** ** The configurations of the lexer *)

Definition rest (l : sqlLexer) : gostring := drop (Z.to_nat (pos l)) (src l).
Definition pending (l : sqlLexer) : gostring :=
  take (Z.to_nat (pos l) - Z.to_nat (start l)) (drop (Z.to_nat (start l)) (src l)).

Definition lexer_wf (l : sqlLexer) : Prop :=
  0 <= start l <= pos l /\ pos l <= Z.of_nat (length (src l)).

(** The mode a state function is in at the head of its loop. *)
Definition mode_of (st : stateFn) (n : Z) : mode :=
  match st with
  | rawState => MRaw
  | singleQuoteState => MSQ
  | doubleQuoteState => MDQ
  | placeholderState => MPh
  | escapeStringState => MEsc
  | oneLineCommentState => MLine
  | multilineCommentState => MMulti n
  end.

(** The comment depth is only in use inside a comment. *)
Definition nested_ok (st : stateFn) (l : sqlLexer) : Prop :=
  match st with multilineCommentState => True | _ => nested l = 0 end.

Definition cfg_wf (st : stateFn) (l : sqlLexer) : Prop := lexer_wf l /\ nested_ok st l.

(** The parts a configuration will end with. *)
Definition den (st : stateFn) (num : Z) (l : sqlLexer) : list goval :=
  parts l ++ ref_run (mode_of st (nested l)) (pending l) num (decode_all (rest l)).

(** ** Decoding *)

Lemma decode_runes_fuel n m s :
  (length s <= n)%nat -> (length s <= m)%nat -> decode_runes n s = decode_runes m s.
Proof.
  revert m s. induction n as [|n IH]; intros [|m] [|c s] Hn Hm; simpl in *; try lia; try done.
  pose proof (decode_width (c :: s) ltac:(done)) as Hw.
  destruct (DecodeRuneInString (c :: s)) as [r w]; simpl in *.
  f_equal. apply IH; rewrite length_drop; simpl; lia.
Qed.

Lemma decode_all_cons s r w :
  s <> [] -> DecodeRuneInString s = (r, w) ->
  decode_all s = (r, take w s) :: decode_all (drop w s).
Proof.
  intros Hs Hd. pose proof (decode_width s Hs) as Hw. rewrite Hd in Hw. simpl in Hw.
  unfold decode_all. destruct s as [|c s]; [done|].
  cbn [length decode_runes]. rewrite Hd. f_equal.
  apply decode_runes_fuel; rewrite ?length_drop; simpl in *; lia.
Qed.

Lemma decode_all_nil : decode_all [] = [].
Proof. done. Qed.

(** ** Settling a pending mode

    When the next rune is not the one a mode waits for, the mode behaves as
    the mode it came from. *)
Definition next_rune (s : gostring) : Z := fst (DecodeRuneInString s).

(** [settles m m0 s]: on the runes of [s] the pending mode [m] behaves as the
    mode [m0] of the state's loop head. *)
Lemma ref_run_settle m m0 acc num s :
  skips m = false -> skips m0 = false -> m <> MPh -> m0 <> MPh -> m0 <> MRawDollar ->
  (m = MRawDollar -> m0 = MRaw /\ is_digit (next_rune s) = false) ->
  (m <> MRawDollar -> mode_step m (next_rune s) = mode_step m0 (next_rune s)) ->
  ref_run m acc num (decode_all s) = ref_run m0 acc num (decode_all s).
Proof.
  intros Hs Hs0 Hm Hm0 Hd0 Hd Hstep. unfold next_rune in *.
  destruct (decide (s = [])) as [->|Hne].
  { rewrite decode_all_nil. destruct m, m0; done. }
  destruct (DecodeRuneInString s) as [r w] eqn:E; simpl in *.
  rewrite (decode_all_cons s r w Hne E). simpl. rewrite Hs, Hs0.
  destruct ((r =? RuneError) && negb false).
  { destruct m, m0; done. }
  destruct (decide (m = MRawDollar)) as [->|Hm1].
  - destruct (Hd eq_refl) as [-> Hdig]. by rewrite Hdig.
  - specialize (Hstep Hm1). destruct m, m0; simpl in *; congruence.
Qed.

(** ** Moving over the source *)

Lemma decode_here_Ret l :
  lexer_wf l -> decode_here l = Ret (DecodeRuneInString (rest l)).
Proof.
  intros [? ?]. unfold decode_here. rewrite go_slice_Ret by lia. simpl. unfold rest.
  do 2 f_equal. apply take_ge. rewrite length_drop. lia.
Qed.

Lemma length_rest l : lexer_wf l -> Z.of_nat (length (rest l)) = Z.of_nat (length (src l)) - pos l.
Proof. intros [? ?]. unfold rest. rewrite length_drop. lia. Qed.

Lemma rest_advance l w : lexer_wf l -> rest (advance l w) = drop w (rest l).
Proof.
  intros [? ?]. unfold rest, advance; simpl. rewrite drop_drop. f_equal. lia.
Qed.

Lemma pending_advance l w :
  lexer_wf l -> (w <= length (rest l))%nat ->
  pending (advance l w) = pending l ++ take w (rest l).
Proof.
  intros [? ?] Hw. unfold pending, rest in *; simpl. rewrite length_drop in Hw.
  replace (Z.to_nat (pos l + Z.of_nat w) - Z.to_nat (start l))%nat
    with ((Z.to_nat (pos l) - Z.to_nat (start l)) + w)%nat by lia.
  rewrite <- take_take_drop, drop_drop. do 3 f_equal. lia.
Qed.

Lemma advance_wf l w :
  lexer_wf l -> (w <= length (rest l))%nat -> lexer_wf (advance l w).
Proof.
  intros Hl Hw. pose proof (length_rest l Hl). destruct Hl as [? ?].
  unfold lexer_wf, advance; simpl. lia.
Qed.

Lemma decode_width_le s r w : DecodeRuneInString s = (r, w) -> (w <= length s)%nat.
Proof.
  intros E. destruct s as [|c s]; [by injection E as <- <-|].
  pose proof (decode_width (c :: s) ltac:(done)) as H. rewrite E in H. simpl in *. lia.
Qed.

Lemma decode_not_nil s r w :
  DecodeRuneInString s = (r, w) -> r <> RuneError -> s <> [] /\ (1 <= w)%nat.
Proof.
  intros E Hr. destruct s as [|c s]; [by injection E as <- <-|]. split; [done|].
  pose proof (decode_width (c :: s) ltac:(done)) as H. rewrite E in H. simpl in *. lia.
Qed.

(** One rune read: everything the rounds need about the new position. *)
Lemma advance_spec l r w :
  lexer_wf l -> DecodeRuneInString (rest l) = (r, w) ->
  lexer_wf (advance l w)
  /\ rest (advance l w) = drop w (rest l)
  /\ pending (advance l w) = pending l ++ take w (rest l)
  /\ (length (rest (advance l w)) <= length (rest l))%nat
  /\ (r <> RuneError -> (length (rest (advance l w)) < length (rest l))%nat).
Proof.
  intros Hl E. pose proof (decode_width_le _ _ _ E) as Hw.
  rewrite rest_advance by done. rewrite length_drop.
  repeat split; try (by apply advance_wf || by apply pending_advance); try lia.
  intros Hr. destruct (decode_not_nil _ _ _ E Hr). lia.
Qed.

(** The automaton's step for the rune just read. *)
Lemma ref_advance m l r w :
  lexer_wf l -> DecodeRuneInString (rest l) = (r, w) ->
  m <> MPh -> m <> MRawDollar -> r <> RuneError \/ skips m = true ->
  ref_run m (pending l) 0 (decode_all (rest l))
  = ref_run (mode_step m r) (pending (advance l w)) 0 (decode_all (rest (advance l w))).
Proof.
  intros Hl E Hm1 Hm2 Hr.
  destruct (advance_spec l r w Hl E) as (_ & Hrest & Hpend & _).
  rewrite Hrest, Hpend.
  destruct (decide (rest l = [])) as [Hnil|Hne].
  - rewrite Hnil in E |- *. injection E as <- <-. rewrite drop_nil, take_nil, app_nil_r.
    destruct Hr as [Hr|Hr]; [done|]. rewrite decode_all_nil. by destruct m.
  - rewrite (decode_all_cons _ _ _ Hne E). cbn [ref_run].
    replace ((r =? RuneError) && negb (skips m)) with false.
    + by destruct m.
    + symmetry. destruct Hr as [Hr%Z.eqb_neq| ->]; [by rewrite Hr | apply andb_false_r].
Qed.

Definition not_placeholder (st : stateFn) : Prop :=
  match st with placeholderState => False | _ => True end.

Lemma mode_of_not_ph st n :
  not_placeholder st ->
  mode_of st n <> MPh /\ mode_of st n <> MRawDollar /\ skips (mode_of st n) = false.
Proof. by destruct st. Qed.

(** What a round owes: it does not panic, it makes progress, and it keeps the
    parts the configuration will end with. *)
Definition round_ok (st : stateFn) (l : sqlLexer) (o : round) : Prop :=
  match o with
  | Panic _ => False
  | Ret (inl l') =>
      cfg_wf st l' /\ src l' = src l /\ (length (rest l') < length (rest l))%nat
      /\ den st 0 l' = den st 0 l
  | Ret (inr (l', Some st')) =>
      cfg_wf st' l' /\ src l' = src l /\ (length (rest l') < length (rest l))%nat
      /\ den st' 0 l' = den st 0 l
  | Ret (inr (l', None)) => parts l' = den st 0 l
  end.

Lemma finish_ok st l w :
  cfg_wf st l -> not_placeholder st -> DecodeRuneInString (rest l) = (RuneError, w) ->
  round_ok st l (finish (advance l w)).
Proof.
  intros [Hl Hn] Hst E.
  destruct (advance_spec l _ w Hl E) as (Hl' & Hrest & Hpend & _).
  assert (den st 0 l = parts l ++ segment (pending (advance l w))) as Hden.
  { unfold den. f_equal. destruct (mode_of_not_ph st (nested l) Hst) as (H1 & H2 & H3).
    rewrite Hpend. destruct (decide (rest l = [])) as [Hnil|Hne].
    - rewrite Hnil. rewrite take_nil, app_nil_r, decode_all_nil. by destruct (mode_of st _).
    - rewrite (decode_all_cons _ _ _ Hne E). cbn [ref_run]. rewrite Z.eqb_refl, H3. simpl.
      by destruct (mode_of st _). }
  unfold finish. destruct Hl' as [? ?]. destruct (Z.ltb_spec 0 (pos (advance l w) - start (advance l w))).
  - rewrite go_slice_Ret by lia. simpl. rewrite Hden. f_equal.
    fold (pending (advance l w)).
    change (take (Z.to_nat (pos l + Z.of_nat w) - Z.to_nat (start l))
              (drop (Z.to_nat (start l)) (src l))) with (pending (advance l w)).
    destruct (pending (advance l w)) eqn:Ep; [|done].
    apply (f_equal length) in Ep. unfold pending in Ep.
    rewrite length_take, length_drop in Ep. simpl in *. lia.
  - simpl. rewrite Hden. replace (pending (advance l w)) with (@nil ascii); [by rewrite app_nil_r|].
    unfold pending. replace (_ - _)%nat with 0%nat; [done|]. simpl in *. lia.
Qed.

(** A rune that keeps the state in its mode. *)
Lemma next_round_ok st l r w :
  cfg_wf st l -> not_placeholder st -> DecodeRuneInString (rest l) = (r, w) ->
  r <> RuneError -> mode_step (mode_of st (nested l)) r = mode_of st (nested l) ->
  round_ok st l (next_round (advance l w)).
Proof.
  intros [Hl Hn] Hst E Hr Hstep.
  destruct (advance_spec l r w Hl E) as (Hl' & _ & _ & _ & Hlt).
  destruct (mode_of_not_ph st (nested l) Hst) as (H1 & H2 & H3).
  simpl. split; [by split|]. split; [done|]. split; [by apply Hlt|].
  unfold den; simpl. f_equal.
  rewrite (ref_advance (mode_of st (nested l)) l r w) by auto. by rewrite Hstep.
Qed.

(** Two runes decide the next state. *)
Lemma goto_pending_ok st st' l r w m :
  cfg_wf st l -> not_placeholder st -> not_placeholder st' ->
  nested_ok st' l ->
  DecodeRuneInString (rest l) = (r, w) -> r <> RuneError ->
  mode_step (mode_of st (nested l)) r = m -> m <> MPh -> m <> MRawDollar -> skips m = false ->
  mode_step m (next_rune (rest (advance l w)))
    = mode_step (mode_of st' (nested l)) (next_rune (rest (advance l w))) ->
  cfg_wf st' (advance l w) /\ src (advance l w) = src l
  /\ (length (rest (advance l w)) < length (rest l))%nat
  /\ den st' 0 (advance l w) = den st 0 l.
Proof.
  intros [Hl Hn] Hst Hst' Hn' E Hr Hm Hm1 Hm2 Hm3 Hset.
  destruct (advance_spec l r w Hl E) as (Hl' & _ & _ & _ & Hlt).
  destruct (mode_of_not_ph st (nested l) Hst) as (H1 & H2 & H3).
  destruct (mode_of_not_ph st' (nested l) Hst') as (H1' & H2' & H3').
  split; [by split|]. split; [done|]. split; [by apply Hlt|].
  unfold den; simpl. f_equal.
  rewrite (ref_advance (mode_of st (nested l)) l r w) by auto. rewrite Hm.
  symmetry. by apply ref_run_settle.
Qed.

Lemma goto_two_ok st st' l r w r2 w2 m n' :
  cfg_wf st l -> not_placeholder st -> not_placeholder st' ->
  nested_ok st' (set_nested l n') ->
  DecodeRuneInString (rest l) = (r, w) -> r <> RuneError ->
  mode_step (mode_of st (nested l)) r = m -> m <> MPh -> m <> MRawDollar ->
  DecodeRuneInString (rest (advance l w)) = (r2, w2) ->
  r2 <> RuneError \/ skips m = true ->
  mode_step m r2 = mode_of st' n' ->
  let l' := set_nested (advance (advance l w) w2) n' in
  cfg_wf st' l' /\ src l' = src l
  /\ (length (rest l') < length (rest l))%nat
  /\ den st' 0 l' = den st 0 l.
Proof.
  intros [Hl Hn] Hst Hst' Hn' E Hr Hm Hm1 Hm2 E2 Hr2 Hm' l'.
  destruct (advance_spec l r w Hl E) as (Hl1 & _ & _ & _ & Hlt).
  destruct (advance_spec _ r2 w2 Hl1 E2) as (Hl2 & _ & _ & Hle & _).
  destruct (mode_of_not_ph st (nested l) Hst) as (H1 & H2 & H3).
  split; [by split|]. split; [done|]. split.
  { specialize (Hlt Hr). change (rest l') with (rest (advance (advance l w) w2)). lia. }
  unfold den; simpl. f_equal.
  rewrite (ref_advance (mode_of st (nested l)) l r w) by auto. rewrite Hm.
  rewrite (ref_advance m (advance l w) r2 w2) by auto. by rewrite Hm'.
Qed.

(** ** The rounds *)

Lemma pending_nil l : start l = pos l -> pending l = [].
Proof. unfold pending. intros ->. by rewrite Nat.sub_diag. Qed.

(** [start_round] reads the first rune of a round. *)
Ltac start_round l r w E Hl :=
  rewrite (decode_here_Ret l Hl); simpl;
  destruct (DecodeRuneInString (rest l)) as [r w] eqn:E.

(** [peek_round] reads the second one. *)
Ltac peek_round l r w E Hl r2 w2 E2 :=
  let Hl1 := fresh "Hl1" in
  pose proof (proj1 (advance_spec l r w Hl E)) as Hl1;
  rewrite (decode_here_Ret _ Hl1); simpl;
  destruct (DecodeRuneInString (rest (advance l w))) as [r2 w2] eqn:E2; simpl.

(** [const_rune r] proves that a rune equal to a constant is not [RuneError]. *)
Ltac rune_ne :=
  unfold RuneError, r_squote, r_dquote, r_dollar, r_dash, r_slash, r_star, r_backslash,
    r_newline, r_e, r_E in *;
  repeat match goal with
  | H : (_ || _) = true |- _ => apply orb_true_iff in H as [H|H]
  | H : (_ =? _) = true |- _ => apply Z.eqb_eq in H
  | H : (_ =? _) = false |- _ => apply Z.eqb_neq in H
  end; try congruence; lia.

(** [take_two Hq] closes the side conditions of [goto_two_ok], [settle_back]
    those of [goto_pending_ok]; [end_of_query] closes the [RuneError] case. *)
Ltac take_two Hq :=
  eauto; try done; try (left; rune_ne); try rune_ne; simpl; try (by rewrite Hq).
Ltac settle_back E2 Hq :=
  eauto; try done; try rune_ne; try (unfold next_rune; rewrite E2; simpl; by rewrite Hq).
Ltac end_of_query H := apply Z.eqb_eq in H as ->; by apply finish_ok.

Lemma dollar_digit_ok l w r2 w2 :
  cfg_wf rawState l -> DecodeRuneInString (rest l) = (r_dollar, w) ->
  DecodeRuneInString (rest (advance l w)) = (r2, w2) -> is_digit r2 = true ->
  let l1 := append_part (advance l w) (VString None (pending l)) in
  let l' := set_start l1 (pos l1) in
  cfg_wf placeholderState l' /\ src l' = src l
  /\ (length (rest l') < length (rest l))%nat
  /\ den placeholderState 0 l' = den rawState 0 l.
Proof.
  intros [Hl Hn] E E2 Hd l1 l'.
  destruct (advance_spec l _ w Hl E) as (Hl1 & Hrest & Hpend & _ & Hlt).
  assert (RuneError <> r2) as Hr2 by (intros <-; done).
  split; [split; [unfold lexer_wf in *; simpl in *; lia | done]|]. split; [done|].
  split; [by apply Hlt|].
  unfold den; simpl. change (rest l') with (rest (advance l w)).
  rewrite (pending_nil l') by done.
  rewrite (ref_advance MRaw l r_dollar w) by (auto; by left).
  change (mode_step MRaw r_dollar) with MRawDollar.
  destruct (decode_not_nil _ _ _ E2 ltac:(done)) as [Hne _].
  rewrite (decode_all_cons _ _ _ Hne E2). cbn [ref_run skips].
  rewrite (proj2 (Z.eqb_neq r2 RuneError)) by done. simpl. rewrite Hd.
  rewrite <- app_assoc. do 2 f_equal. simpl. do 2 f_equal.
  rewrite Hpend. destruct (decode_ascii _ _ _ E ltac:(done)) as (-> & c & s' & -> & _).
  simpl. by rewrite removelast_last.
Qed.

Lemma raw_round_ok l : cfg_wf rawState l -> round_ok rawState l (raw_round l).
Proof.
  intros Hc. pose proof Hc as [Hl Hn]. simpl in Hn. unfold raw_round. start_round l r w E Hl.
  destruct ((r =? r_e) || (r =? r_E)) eqn:He.
  { peek_round l r w E Hl r2 w2 E2. destruct (r2 =? r_squote) eqn:Hq.
    - eapply (goto_two_ok rawState escapeStringState l r w r2 w2 MRawE (nested l));
        eauto; try done; try (left; rune_ne); try rune_ne.
      + by unfold mode_step, mode_of, raw_step; rewrite He.
      + simpl. by rewrite Hq.
    - eapply (goto_pending_ok rawState rawState l r w MRawE); eauto; try done; try rune_ne.
      + by unfold mode_step, mode_of, raw_step; rewrite He.
      + unfold next_rune. rewrite E2. simpl. by rewrite Hq. }
  destruct (r =? r_squote) eqn:Hsq.
  { apply Z.eqb_eq in Hsq as ->.
    by eapply (goto_pending_ok rawState singleQuoteState l _ w MSQ). }
  destruct (r =? r_dquote) eqn:Hdq.
  { apply Z.eqb_eq in Hdq as ->.
    by eapply (goto_pending_ok rawState doubleQuoteState l _ w MDQ). }
  destruct (r =? r_dollar) eqn:Hdo.
  { apply Z.eqb_eq in Hdo as ->. peek_round l r_dollar w E Hl r2 w2 E2.
    destruct (is_digit r2) eqn:Hd.
    - destruct (advance_spec l _ w Hl E) as (_ & _ & _ & _ & Hlt).
      destruct (decode_ascii _ _ _ E ltac:(done)) as (-> & _).
      destruct Hl as [? ?], Hl1 as [? ?]. simpl in *.
      rewrite (proj2 (Z.ltb_lt 0 _)) by lia.
      rewrite go_slice_Ret by lia. simpl.
      replace (pos l + Z.of_nat 1 - Z.of_nat 1) with (pos l) by lia.
      exact (dollar_digit_ok l 1 r2 w2 Hc E E2 Hd).
    - destruct (advance_spec l _ w Hl E) as (_ & _ & _ & _ & Hlt).
      split; [by split|]. split; [done|]. split; [by apply Hlt|].
      unfold den; simpl. f_equal.
      rewrite (ref_advance MRaw l r_dollar w) by (auto; by left). symmetry.
      apply ref_run_settle; try done. intros _. unfold next_rune. by rewrite E2. }
  destruct (r =? r_dash) eqn:Hda.
  { apply Z.eqb_eq in Hda as ->. peek_round l r_dash w E Hl r2 w2 E2.
    destruct (r2 =? r_dash) eqn:Hq.
    - eapply (goto_two_ok rawState oneLineCommentState l _ w r2 w2 MRawDash (nested l));
        take_two Hq.
    - eapply (goto_pending_ok rawState rawState l _ w MRawDash); settle_back E2 Hq. }
  destruct (r =? r_slash) eqn:Hsl.
  { apply Z.eqb_eq in Hsl as ->. peek_round l r_slash w E Hl r2 w2 E2.
    destruct (r2 =? r_star) eqn:Hq.
    - eapply (goto_two_ok rawState multilineCommentState l _ w r2 w2 MRawSlash (nested l));
        eauto; try done; try (left; rune_ne). simpl. by rewrite Hq, Hn.
    - eapply (goto_pending_ok rawState rawState l _ w MRawSlash); settle_back E2 Hq. }
  destruct (r =? RuneError) eqn:Hre.
  { end_of_query Hre. }
  apply (next_round_ok rawState l r w Hc I E); [rune_ne|].
  unfold mode_step, mode_of, raw_step. by rewrite He, Hsq, Hdq, Hdo, Hda, Hsl.
Qed.

(** The two quoted states double their quote to escape it. *)
Lemma single_quote_round_ok l :
  cfg_wf singleQuoteState l -> round_ok singleQuoteState l (single_quote_round l).
Proof.
  intros Hc. pose proof Hc as [Hl Hn]. simpl in Hn. unfold single_quote_round. start_round l r w E Hl.
  destruct (r =? r_squote) eqn:Hsq.
  { apply Z.eqb_eq in Hsq as ->. peek_round l r_squote w E Hl r2 w2 E2.
    destruct (r2 =? r_squote) eqn:Hq; simpl.
    - eapply (goto_two_ok singleQuoteState singleQuoteState l _ w r2 w2 MSQq (nested l));
        take_two Hq.
    - eapply (goto_pending_ok singleQuoteState rawState l _ w MSQq); settle_back E2 Hq. }
  destruct (r =? RuneError) eqn:Hre.
  { end_of_query Hre. }
  apply (next_round_ok singleQuoteState l r w Hc I E); [rune_ne|].
  simpl. by rewrite Hsq.
Qed.

Lemma double_quote_round_ok l :
  cfg_wf doubleQuoteState l -> round_ok doubleQuoteState l (double_quote_round l).
Proof.
  intros Hc. pose proof Hc as [Hl Hn]. simpl in Hn. unfold double_quote_round. start_round l r w E Hl.
  destruct (r =? r_dquote) eqn:Hsq.
  { apply Z.eqb_eq in Hsq as ->. peek_round l r_dquote w E Hl r2 w2 E2.
    destruct (r2 =? r_dquote) eqn:Hq; simpl.
    - eapply (goto_two_ok doubleQuoteState doubleQuoteState l _ w r2 w2 MDQq (nested l));
        take_two Hq.
    - eapply (goto_pending_ok doubleQuoteState rawState l _ w MDQq); settle_back E2 Hq. }
  destruct (r =? RuneError) eqn:Hre.
  { end_of_query Hre. }
  apply (next_round_ok doubleQuoteState l r w Hc I E); [rune_ne|].
  simpl. by rewrite Hsq.
Qed.

Lemma escape_string_round_ok l :
  cfg_wf escapeStringState l -> round_ok escapeStringState l (escape_string_round l).
Proof.
  intros Hc. pose proof Hc as [Hl Hn]. simpl in Hn. unfold escape_string_round. start_round l r w E Hl.
  destruct (r =? r_backslash) eqn:Hb.
  { apply Z.eqb_eq in Hb as ->. peek_round l r_backslash w E Hl r2 w2 E2.
    by eapply (goto_two_ok escapeStringState escapeStringState l _ w r2 w2 MEscB (nested l));
      eauto; try done; right. }
  destruct (r =? r_squote) eqn:Hsq.
  { apply Z.eqb_eq in Hsq as ->. peek_round l r_squote w E Hl r2 w2 E2.
    destruct (r2 =? r_squote) eqn:Hq; simpl.
    - eapply (goto_two_ok escapeStringState escapeStringState l _ w r2 w2 MEscq (nested l));
        take_two Hq.
    - eapply (goto_pending_ok escapeStringState rawState l _ w MEscq); settle_back E2 Hq. }
  destruct (r =? RuneError) eqn:Hre.
  { end_of_query Hre. }
  apply (next_round_ok escapeStringState l r w Hc I E); [rune_ne|].
  simpl. by rewrite Hb, Hsq.
Qed.

Lemma one_line_comment_round_ok l :
  cfg_wf oneLineCommentState l -> round_ok oneLineCommentState l (one_line_comment_round l).
Proof.
  intros Hc. pose proof Hc as [Hl Hn]. simpl in Hn. unfold one_line_comment_round. start_round l r w E Hl.
  destruct (r =? r_backslash) eqn:Hb.
  { apply Z.eqb_eq in Hb as ->. peek_round l r_backslash w E Hl r2 w2 E2.
    by eapply (goto_two_ok oneLineCommentState oneLineCommentState l _ w r2 w2 MLineB (nested l));
      eauto; try done; right. }
  destruct (r =? r_newline) eqn:Hsq.
  { apply Z.eqb_eq in Hsq as ->. by eapply (goto_pending_ok oneLineCommentState rawState l _ w MRaw). }
  destruct (r =? RuneError) eqn:Hre.
  { end_of_query Hre. }
  apply (next_round_ok oneLineCommentState l r w Hc I E); [rune_ne|].
  simpl. by rewrite Hb, Hsq.
Qed.

Lemma multiline_comment_round_ok l :
  cfg_wf multilineCommentState l -> round_ok multilineCommentState l (multiline_comment_round l).
Proof.
  intros Hc. pose proof Hc as [Hl Hn]. simpl in Hn. unfold multiline_comment_round. start_round l r w E Hl.
  destruct (r =? r_slash) eqn:Hs.
  { apply Z.eqb_eq in Hs as ->. peek_round l r_slash w E Hl r2 w2 E2.
    destruct (r2 =? r_star) eqn:Hq.
    - eapply (goto_two_ok multilineCommentState multilineCommentState l _ w r2 w2
        (MMultiSlash (nested l)) (nested l + 1)); take_two Hq.
    - eapply (goto_pending_ok multilineCommentState multilineCommentState l _ w
        (MMultiSlash (nested l))); settle_back E2 Hq. }
  destruct (r =? r_star) eqn:Hst.
  { apply Z.eqb_eq in Hst as ->. peek_round l r_star w E Hl r2 w2 E2.
    destruct (r2 =? r_slash) eqn:Hq; simpl.
    - destruct (nested l =? 0) eqn:H0.
      + apply Z.eqb_eq in H0.
        eapply (goto_two_ok multilineCommentState rawState l _ w r2 w2
          (MMultiStar (nested l)) (nested l)); eauto; try done; try (left; rune_ne).
        simpl. by rewrite Hq, H0.
      + eapply (goto_two_ok multilineCommentState multilineCommentState l _ w r2 w2
          (MMultiStar (nested l)) (nested l - 1)); eauto; try done; try (left; rune_ne).
        simpl. by rewrite Hq, H0.
    - eapply (goto_pending_ok multilineCommentState multilineCommentState l _ w
        (MMultiStar (nested l))); settle_back E2 Hq. }
  destruct (r =? RuneError) eqn:Hre.
  { end_of_query Hre. }
  apply (next_round_ok multilineCommentState l r w Hc I E); [rune_ne|].
  simpl. unfold multi_step. by rewrite Hs, Hst.
Qed.

(** ** The states and the query *)

Lemma ref_run_ph_acc acc num rs : ref_run MPh acc num rs = ref_run MPh [] num rs.
Proof. by destruct rs as [|[r bs] rs]. Qed.

Definition placeholder_post (s : Z * sqlLexer) (r : sqlLexer * option stateFn) : Prop :=
  snd r = Some rawState /\ cfg_wf rawState (fst r) /\ src (fst r) = src (snd s)
  /\ (length (rest (fst r)) <= length (rest (snd s)))%nat
  /\ den rawState 0 (fst r) = den placeholderState (fst s) (snd s).

Lemma placeholder_round_ok num l :
  cfg_wf placeholderState l ->
  match placeholder_round (num, l) with
  | Panic _ => False
  | Ret (inl s') =>
      cfg_wf placeholderState (snd s') /\ (length (rest (snd s')) < length (rest l))%nat
      /\ (forall r, placeholder_post s' r -> placeholder_post (num, l) r)
  | Ret (inr r) => placeholder_post (num, l) r
  end.
Proof.
  intros [Hl Hn]. simpl. start_round l r w E Hl.
  destruct (advance_spec l r w Hl E) as (Hl1 & Hrest & _ & _ & Hlt).
  destruct (is_digit r) eqn:Hd.
  - assert (r <> RuneError) as Hr by (intros ->; done).
    split; [by split|]. split; [by apply Hlt|].
    intros [l' o] (? & ? & Hsrc & Hle & Hden). simpl in *.
    do 3 (split; [done|]). split; [specialize (Hlt Hr); simpl; lia|].
    simpl. rewrite Hden. unfold den; simpl. f_equal.
    destruct (decode_not_nil _ _ _ E Hr) as [Hne _].
    rewrite (decode_all_cons _ _ _ Hne E), Hrest. cbn [ref_run skips].
    rewrite (proj2 (Z.eqb_neq r RuneError)) by done. simpl. rewrite Hd. apply ref_run_ph_acc.
  - assert (retreat (append_part (advance l w) (VInt KInt None num)) w
            = append_part l (VInt KInt None num)) as ->.
    { unfold retreat, append_part, advance; simpl. f_equal. lia. }
    split; [done|]. split; [split; [unfold lexer_wf in *; simpl; lia | done]|].
    do 2 (split; [done|]).
    unfold den; simpl. rewrite <- app_assoc. f_equal.
    change (rest (set_start _ _)) with (rest l).
    rewrite (pending_nil (set_start _ _)) by (simpl; lia).
    destruct (decide (rest l = [])) as [Hnil|Hne]; [by rewrite Hnil|].
    rewrite (decode_all_cons _ _ _ Hne E). cbn [ref_run skips mode_step].
    destruct ((r =? RuneError) && negb false); [done|]. by rewrite Hd.
Qed.

Definition lex_measure (st : stateFn) (l : sqlLexer) : nat :=
  (2 * length (rest l) + match st with placeholderState => 1 | _ => 0 end)%nat.

Definition state_post (st : stateFn) (l : sqlLexer) (r : sqlLexer * option stateFn) : Prop :=
  match snd r with
  | None => parts (fst r) = den st 0 l
  | Some st' =>
      cfg_wf st' (fst r) /\ src (fst r) = src l
      /\ (lex_measure st' (fst r) < lex_measure st l)%nat
      /\ den st' 0 (fst r) = den st 0 l
  end.

Lemma round_loop_ok st (body : sqlLexer -> round) fuel l :
  not_placeholder st ->
  (forall l, cfg_wf st l -> round_ok st l (body l)) ->
  cfg_wf st l -> (length (rest l) < fuel)%nat ->
  exists r, go_loop fuel body l = Some (Ret r) /\ state_post st l r.
Proof.
  intros Hst Hb Hl Hf.
  apply (go_loop_ends body (fun l => length (rest l)) (cfg_wf st) (state_post st)); [|done..].
  clear l Hl Hf. intros l Hl. specialize (Hb l Hl).
  destruct (body l) as [[l'|[l' [st'|]]]|msg]; [| |done|done].
  - destruct Hb as (Hwf & Hsrc & Hlt & Hden). do 2 (split; [done|]).
    intros [l2 [st2|]]; unfold state_post; simpl; rewrite <- Hden; [|done].
    intros (? & -> & ? & ->). do 2 (split; [done|]). split; [|done].
    unfold lex_measure in *. destruct st, st2; simpl in *; try done; lia.
  - destruct Hb as (Hwf & Hsrc & Hlt & Hden). do 2 (split; [done|]). split; [|done].
    unfold lex_measure. simpl. destruct st, st'; simpl in *; try done; lia.
Qed.

Lemma run_state_ok fuel st l :
  cfg_wf st l -> (length (rest l) < fuel)%nat ->
  exists r, run_state fuel st l = Some (Ret r) /\ state_post st l r.
Proof.
  intros Hl Hf. destruct st; simpl.
  - by apply (round_loop_ok rawState _ _ _ I raw_round_ok).
  - by apply (round_loop_ok singleQuoteState _ _ _ I single_quote_round_ok).
  - by apply (round_loop_ok doubleQuoteState _ _ _ I double_quote_round_ok).
  - destruct (go_loop_ends placeholder_round (fun s => length (rest (snd s)))
      (fun s => cfg_wf placeholderState (snd s)) placeholder_post) with
      (fuel := fuel) (s := (0, l)) as ([l' o] & -> & (Ho & Hwf & Hs & Hle & Hden)); [|done..|].
    { intros [num l1] H1. apply (placeholder_round_ok num l1 H1). }
    simpl in *. subst o. eexists; split; [done|]. unfold state_post, lex_measure; simpl.
    do 2 (split; [done|]). split; [lia|done].
  - by apply (round_loop_ok escapeStringState _ _ _ I escape_string_round_ok).
  - by apply (round_loop_ok oneLineCommentState _ _ _ I one_line_comment_round_ok).
  - by apply (round_loop_ok multilineCommentState _ _ _ I multiline_comment_round_ok).
Qed.

Lemma run_lexer_ok fuel st l :
  cfg_wf st l -> (lex_measure st l < fuel)%nat ->
  exists l', run_lexer fuel st l = Some (Ret l') /\ parts l' = den st 0 l.
Proof.
  revert st l. induction fuel as [|f IH]; intros st l Hl Hf; [lia|].
  cbn [run_lexer].
  destruct (run_state_ok (S (S (length (src l)))) st l Hl) as ([l' [st'|]] & -> & Hpost).
  { unfold rest. rewrite length_drop. lia. }
  - destruct Hpost as (Hwf & Hsrc & Hlt & Hden); simpl in *.
    destruct (IH st' l' Hwf ltac:(lia)) as (l2 & -> & Hp). eexists; split; [done|]. congruence.
  - eauto.
Qed.

Lemma NewQuery_ref sql : NewQuery sql = Some (Ret (ref_parts sql)).
Proof.
  unfold NewQuery.
  destruct (run_lexer_ok (S (S (2 * length sql))) rawState (mkLexer sql 0 0 0 [])) as (l' & -> & Hp).
  - repeat split; simpl; lia.
  - unfold lex_measure. change (rest _) with sql. lia.
  - by rewrite Hp.
Qed.

(** C1. The lexer of [sanitize.NewQuery] returns on every input, without a
    panic, and the parts it returns are those of the reference automaton: a
    rune-by-rune description of PostgreSQL's quoting, comments and
    placeholders. *)
Theorem NewQuery_refines_automaton (sql : gostring) :
  NewQuery sql = Some (Ret (ref_parts sql)).
Proof. exact (NewQuery_ref sql). Qed.
