(* ===== verification/SanitizeSafety.v ===== *)
(** The correctness of [SanitizeSQL]: the lexer loses no text, the
    interpolation succeeds exactly on the argument lists that fit the query,
    every argument is rendered as one literal that reads back as the argument,
    and the text of an argument cannot change how the rest of the query is
    read. *)

From S2P Require Import Prelude GoStd GoVal Sanitize SanitizeSpec.
From Stdlib Require Import SpecFloat.

Local Open Scope Z_scope.

(** ** The parts of a query and its text *)

Definition dollar : ascii := "$"%char.

(** The number a placeholder's digits stand for, in Go's wrapping [int]
    arithmetic. *)
Definition placeholder_number (ds : gostring) : Z :=
  fold_left (fun n c => int64 (int64 (n * 10) + (code c - 48))) ds 0.

(** [renders ps s]: the parts [ps] are the text [s] cut at its placeholders. *)
Inductive renders : list goval -> gostring -> Prop :=
| renders_nil : renders [] []
| renders_sql s ps t : renders ps t -> renders (VString None s :: ps) (s ++ t)
| renders_placeholder ds ps t :
    ds <> [] -> Forall digit_char ds -> renders ps t ->
    renders (VInt KInt None (placeholder_number ds) :: ps) (dollar :: ds ++ t).

(** A text the lexer reads to its end: valid UTF-8 without [U+FFFD]. *)
Definition clean (s : gostring) : bool :=
  forallb (fun x => negb (fst x =? RuneError)) (decode_all s).

Definition rune_wf (x : Z * gostring) : Prop :=
  fst x < 128 -> exists c, snd x = [c] /\ code c = fst x.

(** ** The interpolation, declaratively *)

(** The text of a part: raw SQL is itself, a placeholder is its argument's
    literal. *)
Definition part_text (args : list goval) (p : goval) (t : gostring) : Prop :=
  match p with
  | VString None s => t = s
  | VInt KInt None n =>
      0 <= int64 (n - 1) /\
      exists a, args !! Z.to_nat (int64 (n - 1)) = Some a /\ arg_text a = inr t
  | _ => False
  end.

(** Placeholder [$n] is for argument [i] (counted from zero). *)
Definition refers_to (i : nat) (p : goval) : Prop :=
  exists n, p = VInt KInt None n /\ int64 (n - 1) = Z.of_nat i.

(** ** Bytes, runes and modes *)

Definition scan (m : mode) (s : gostring) : mode :=
  fold_left (fun m c => mode_step m (code c)) s m.

(** The modes after each byte. *)
Fixpoint trace (m : mode) (s : gostring) : list mode :=
  match s with
  | [] => []
  | c :: s' => mode_step m (code c) :: trace (mode_step m (code c)) s'
  end.

(** The modes a literal may pass through: inside its quotes, or in plain SQL
    text; never a comment, an identifier, an escape string or a placeholder. *)
Definition literal_mode (m : mode) : Prop :=
  m = MRaw \/ m = MRawE \/ m = MRawDash \/ m = MSQ \/ m = MSQq.
Definition quoted_mode (m : mode) : Prop := m = MSQ \/ m = MSQq.
Definition closed_mode (m : mode) : Prop := m = MRaw \/ m = MRawE \/ m = MSQq.

(** A literal written in raw SQL stays a literal: a quoted one inside its
    quotes, and its end is not the start of something else. *)
Definition confined (a : goval) (t : gostring) : Prop :=
  Forall literal_mode (trace MRaw t) /\ closed_mode (scan MRaw t)
  /\ match a with
     | VString _ _ | VBytes _ _ | VTime _ =>
         Forall quoted_mode (trace MRaw t) /\ scan MRaw t = MSQq
     | _ => True
     end.

(** A query whose placeholders stand alone: plain raw SQL before each (not an
    [e], a minus, a quote, another placeholder), and no quote or digit right
    after it. *)
Fixpoint isolated (m : mode) (ps : list goval) : bool :=
  match ps with
  | VString None s :: ps' =>
      match m, s with
      | MPh, c :: _ => negb (code c =? r_squote) && negb (is_digit (code c))
      | _, _ => true
      end && isolated (scan m s) ps'
  | VInt KInt None _ :: ps' => bool_decide (m = MRaw) && isolated MPh ps'
  | _ => true
  end.

(** The query [sql] and its interpolation [out] side by side: the raw SQL of
    both is read in the same modes, and in place of each placeholder [out] has
    the literal of its argument, confined. *)
Inductive aligned (args : list goval) : mode -> mode -> list goval -> gostring -> gostring -> Prop :=
| aligned_nil mt mo : aligned args mt mo [] [] []
| aligned_sql mt mo s ps sql out :
    trace mt s = trace mo s -> aligned args (scan mt s) (scan mo s) ps sql out ->
    aligned args mt mo (VString None s :: ps) (s ++ sql) (s ++ out)
| aligned_arg n ds a t ps sql out :
    scan MRaw (dollar :: ds) = MPh ->
    args !! Z.to_nat (int64 (n - 1)) = Some a -> arg_text a = inr t -> confined a t ->
    aligned args MPh (scan MRaw t) ps sql out ->
    aligned args MRaw MRaw (VInt KInt None n :: ps) (dollar :: ds ++ sql) (t ++ out).

(** ** Reading literals back

    What PostgreSQL reads between single quotes when
    [standard_conforming_strings] is on: a doubled quote is a quote. *)
Fixpoint read_literal_body (s : gostring) : option (gostring * gostring) :=
  match s with
  | [] => None
  | c :: s' =>
      if code c =? r_squote then
        match s' with
        | d :: s'' => if code d =? r_squote
                      then match read_literal_body s'' with
                           | Some (v, t) => Some (c :: v, t)
                           | None => None
                           end
                      else Some ([], s')
        | [] => Some ([], [])
        end
      else match read_literal_body s' with
           | Some (v, t) => Some (c :: v, t)
           | None => None
           end
  end.

Definition read_literal (s : gostring) : option (gostring * gostring) :=
  match s with
  | c :: s' => if code c =? r_squote then read_literal_body s' else None
  | [] => None
  end.

(** The value of a hexadecimal digit, and the input of a [bytea] in hex
    format: a backslash, an [x] and pairs of digits. *)
Definition hex_value (c : ascii) : option Z :=
  let z := code c in
  if in_range 48 57 z then Some (z - 48)
  else if in_range 97 102 z then Some (z - 87)
  else None.

Fixpoint read_hex (s : gostring) : option gostring :=
  match s with
  | [] => Some []
  | [_] => None
  | a :: b :: s' =>
      match hex_value a, hex_value b, read_hex s' with
      | Some x, Some y, Some l => Some (byte_of (16 * x + y) :: l)
      | _, _, _ => None
      end
  end.

Definition read_bytea (s : gostring) : option gostring :=
  match s with
  | a :: b :: s' => if (code a =? r_backslash) && (code b =? 120) then read_hex s' else None
  | _ => None
  end.

(** ** Lemmas: decoding *)

Lemma decode_all_bytes s : concat (snd <$> decode_all s) = s.
Proof.
  remember (length s) as n eqn:Hn. revert s Hn.
  induction n as [n IH] using lt_wf_ind. intros s ->.
  destruct (decide (s = [])) as [->|Hne]; [done|].
  destruct (DecodeRuneInString s) as [r w] eqn:E.
  rewrite (decode_all_cons s r w Hne E). simpl.
  pose proof (decode_width s Hne) as Hw. rewrite E in Hw. simpl in Hw.
  rewrite (IH (length (drop w s))); [apply take_drop | rewrite length_drop; lia | done].
Qed.

Lemma decode_all_wf s : Forall rune_wf (decode_all s).
Proof.
  remember (length s) as n eqn:Hn. revert s Hn.
  induction n as [n IH] using lt_wf_ind. intros s ->.
  destruct (decide (s = [])) as [->|Hne]; [constructor|].
  destruct (DecodeRuneInString s) as [r w] eqn:E.
  rewrite (decode_all_cons s r w Hne E).
  pose proof (decode_width s Hne) as Hw. rewrite E in Hw. simpl in Hw. constructor.
  - intros Hr. simpl in *. destruct (decode_ascii s r w E Hr) as (-> & c & s' & -> & Hc).
    exists c. done.
  - apply (IH (length (drop w s))); [rewrite length_drop; lia | done].
Qed.

Lemma clean_runes s : clean s = true -> Forall (fun x => fst x <> RuneError) (decode_all s).
Proof.
  unfold clean. rewrite forallb_forall. intros H. apply Forall_forall. intros x Hx.
  specialize (H x ltac:(by apply list_elem_of_In)).
  by apply negb_true_iff, Z.eqb_neq in H.
Qed.

(** ** Lemmas: the parts keep the text *)

Lemma renders_segment s : renders (segment s) s.
Proof.
  destruct s as [|c s]; [constructor|]. simpl.
  rewrite <- (app_nil_r (c :: s)) at 2. repeat constructor.
Qed.

Lemma raw_step_dollar r : raw_step r = MRawDollar -> r = r_dollar.
Proof. unfold raw_step. repeat case_match; try done. intros _. by apply Z.eqb_eq. Qed.

Lemma raw_step_not_ph r : raw_step r <> MPh.
Proof. unfold raw_step. by repeat case_match. Qed.

Lemma multi_step_modes n r :
  multi_step n r = MMulti n \/ multi_step n r = MMultiSlash n \/ multi_step n r = MMultiStar n.
Proof. unfold multi_step. repeat case_match; auto. Qed.

Lemma mode_step_dollar m r : mode_step m r = MRawDollar -> r = r_dollar.
Proof.
  destruct m; simpl; repeat case_match; try done; try apply raw_step_dollar; intros E;
    destruct (multi_step_modes n r) as [?|[?|?]]; congruence.
Qed.

Lemma mode_step_ph m r : mode_step m r = MPh -> (m = MRawDollar \/ m = MPh) /\ is_digit r = true.
Proof.
  destruct m; simpl; repeat case_match; try done; auto;
    try (by intros ?%raw_step_not_ph); intros E;
    destruct (multi_step_modes n r) as [?|[?|?]]; congruence.
Qed.

(** What the lexer holds back in a mode: the raw text, or a placeholder. *)
Definition held (m : mode) (acc ds : gostring) : gostring :=
  match m with MPh => dollar :: ds | _ => acc end.

Definition held_ok (m : mode) (acc ds : gostring) (num : Z) : Prop :=
  match m with
  | MPh => ds <> [] /\ Forall digit_char ds /\ num = placeholder_number ds
  | MRawDollar => exists a, acc = a ++ [dollar]
  | _ => True
  end.

Lemma placeholder_number_snoc ds c :
  placeholder_number (ds ++ [c])
  = int64 (int64 (placeholder_number ds * 10) + (code c - 48)).
Proof. unfold placeholder_number. by rewrite fold_left_app. Qed.

(** The read part of the runes: the first [k], all of them unless a
    [RuneError] stops the lexer. *)
Definition reads (rs : list (Z * gostring)) (k : nat) : Prop :=
  Forall (fun x => fst x <> RuneError) rs -> take k (snd <$> rs) = snd <$> rs.

Definition renders_rest (ps : list goval) (pre : gostring) (rs : list (Z * gostring)) : Prop :=
  exists k, renders ps (pre ++ concat (take k (snd <$> rs))) /\ reads rs k.

Lemma renders_rest_cons ps pre r bs rs :
  renders_rest ps (pre ++ bs) rs -> renders_rest ps pre ((r, bs) :: rs).
Proof.
  intros (k & Hk & Hall). exists (S k). simpl. rewrite app_assoc. split; [done|].
  intros [_ Ha]%Forall_cons. simpl. by rewrite Hall.
Qed.

Lemma renders_rest_stop ps pre r bs rs m :
  (r =? RuneError) && negb (skips m) = true ->
  renders ps (pre ++ bs) -> renders_rest ps pre ((r, bs) :: rs).
Proof.
  intros [Hr%Z.eqb_eq _]%andb_true_iff H. exists 1%nat. simpl. rewrite app_nil_r.
  split; [done|]. by intros [Hne _]%Forall_cons.
Qed.

Lemma renders_rest_sql s ps pre rs :
  renders_rest ps pre rs -> renders_rest (VString None s :: ps) (s ++ pre) rs.
Proof. intros (k & Hk & ?). exists k. rewrite <- app_assoc. split; [by constructor | done]. Qed.

Lemma renders_rest_placeholder ds ps rs :
  ds <> [] -> Forall digit_char ds -> renders_rest ps [] rs ->
  renders_rest (VInt KInt None (placeholder_number ds) :: ps) (dollar :: ds) rs.
Proof. intros ? ? (k & Hk & ?). exists k. split; [by constructor | done]. Qed.

(** A rune that is a digit, and one that is a dollar sign, are their byte. *)
Lemma digit_rune r bs : rune_wf (r, bs) -> is_digit r = true ->
  exists c, bs = [c] /\ code c = r /\ digit_char c.
Proof.
  intros Hr Hd. assert (r < 128) by (unfold is_digit, in_range in Hd; apply andb_true_iff in Hd; lia).
  destruct (Hr ltac:(done)) as (c & Hb & Hc). exists c. unfold digit_char.
  by rewrite Hc.
Qed.

Lemma held_ok_step m m' r bs acc :
  rune_wf (r, bs) -> m' = mode_step m r -> m' <> MPh -> held_ok m' (acc ++ bs) [] 0.
Proof.
  intros Hr -> Hne. destruct (mode_step m r) eqn:E; simpl; try done.
  apply mode_step_dollar in E as ->. destruct (Hr ltac:(done)) as (c & Hb & Hc).
  simpl in *. subst bs. exists acc. do 2 f_equal. by apply code_inj.
Qed.

Lemma ref_run_renders rs m acc num ds :
  Forall rune_wf rs -> held_ok m acc ds num ->
  renders_rest (ref_run m acc num rs) (held m acc ds) rs.
Proof.
  revert m acc num ds. induction rs as [|[r bs] rs IH]; intros m acc num ds Hwf Hok.
  { exists 0%nat. split; [|done]. simpl. rewrite app_nil_r.
    destruct m; simpl in *; try apply renders_segment.
    destruct Hok as (? & ? & ->). rewrite <- (app_nil_r ds) at 2. by constructor; [..|constructor]. }
  inversion_clear Hwf as [|? ? Hr Hwf']. cbn [ref_run].
  destruct ((r =? RuneError) && negb (skips m)) eqn:Hre.
  { apply (renders_rest_stop _ _ _ _ _ _ Hre). destruct m; simpl in *; try apply renders_segment.
    destruct Hok as (? & ? & ->). constructor; try done. apply renders_segment. }
  assert (forall m' acc', m' <> MPh -> mode_step m' r <> MPh ->
    renders_rest (ref_run (mode_step m' r) (acc' ++ bs) 0 rs) acc' ((r, bs) :: rs)) as Hgo.
  { intros m' acc' _ Hne. apply renders_rest_cons.
    replace (acc' ++ bs) with (held (mode_step m' r) (acc' ++ bs) []) at 2 by (by destruct (mode_step m' r)).
    apply IH; [done|]. by eapply held_ok_step. }
  destruct (decide (m = MRawDollar)) as [->|Hm1]; [|destruct (decide (m = MPh)) as [->|Hm2]].
  - destruct Hok as [a ->]. destruct (is_digit r) eqn:Hd;
      [|apply (Hgo MRaw); [done | apply raw_step_not_ph]].
    destruct (digit_rune r bs Hr Hd) as (c & -> & Hc & Hcd). rewrite removelast_last.
    apply renders_rest_sql, renders_rest_cons. apply (IH MPh _ _ [c] Hwf').
    split; [done|]. split; [by constructor|]. simpl. by rewrite <- Hc.
  - destruct Hok as (Hne & Hds & ->). destruct (is_digit r) eqn:Hd;
      [|apply renders_rest_placeholder; try done; apply (Hgo MRaw []); [done | apply raw_step_not_ph]].
    destruct (digit_rune r bs Hr Hd) as (c & -> & Hc & Hcd).
    apply renders_rest_cons. apply (IH MPh _ _ (ds ++ [c]) Hwf').
    split; [by destruct ds|]. split; [by apply Forall_app; split; [|constructor]|].
    by rewrite placeholder_number_snoc, Hc.
  - replace (held m acc ds) with acc by (by destruct m).
    assert (mode_step m r <> MPh) as Hne by (by intros [[?|?] _]%mode_step_ph).
    specialize (Hgo m acc Hm2 Hne). by destruct m.
Qed.

Lemma ref_parts_renders sql :
  exists pre post, sql = pre ++ post /\ renders (ref_parts sql) pre /\ (clean sql = true -> post = []).
Proof.
  destruct (ref_run_renders (decode_all sql) MRaw [] 0 [] (decode_all_wf sql) I) as (k & Hk & Hall).
  exists (concat (take k (snd <$> decode_all sql))), (concat (drop k (snd <$> decode_all sql))).
  rewrite <- concat_app, take_drop. rewrite decode_all_bytes. repeat split; [done|].
  intros Hc%clean_runes. specialize (Hall Hc). apply (f_equal length) in Hall.
  rewrite drop_ge; [done|]. rewrite length_take in Hall. lia.
Qed.

(** ** Lemmas: the interpolation *)

Definition mark (argUse : list bool) (p : goval) : list bool :=
  match p with
  | VInt KInt None n => <[Z.to_nat (int64 (n - 1)) := true]> argUse
  | _ => argUse
  end.

(** The ways a part can end the loop. *)
Lemma sanitize_parts_cons args p ps argUse buf :
  (exists t, part_text args p t /\
     sanitize_parts args (p :: ps) argUse buf
     = sanitize_parts args ps (mark argUse p) (buf ++ t))
  \/ (exists e, sanitize_parts args (p :: ps) argUse buf = Ret (inl e)
       /\ (forall t, ~ part_text args p t)
       /\ (forall n, p = VInt KInt None n -> 0 <= int64 (n - 1)))
  \/ (exists n, p = VInt KInt None n /\ int64 (n - 1) < 0
       /\ sanitize_parts args (p :: ps) argUse buf = Panic index_out_of_range).
Proof.
  destruct p as [|k named n| | | |named s| | | | | | |];
    try (right; left; eexists; split; [done|]; split; [by intros ? []|by intros ? [=]]).
  - destruct k, named; try (right; left; eexists; split; [done|]; split; [by intros ? []|by intros ? [=]]). simpl.
    destruct (Z.leb_spec (Z.of_nat (length args)) (int64 (n - 1))) as [Hle|Hlt].
    { right; left. eexists; split; [done|]. split; [|by intros ? [= <-]; lia].
      intros t (_ & a & Ha%lookup_lt_Some & _). lia. }
    unfold go_index. destruct (Z.ltb_spec (int64 (n - 1)) 0) as [Hneg|Hpos].
    { right; right. eauto. }
    destruct (args !! Z.to_nat (int64 (n - 1))) as [a|] eqn:Ha.
    2:{ apply lookup_ge_None in Ha. lia. }
    simpl. destruct (arg_text a) as [e|t] eqn:Ht.
    + right; left. eexists; split; [done|]. split; [|by intros ? [= <-]].
      intros t (_ & b & Hb & Hbt). congruence.
    + left. exists t. eauto.
  - destruct named; [right; left; eexists; split; [done|]; split; [by intros ? []|by intros ? [=]]|]. left. exists s. done.
Qed.

Lemma part_text_fun args p t1 t2 : part_text args p t1 -> part_text args p t2 -> t1 = t2.
Proof.
  destruct p as [|[] [] ?| | | |[] ?| | | | | | |]; simpl; try done; [|congruence].
  intros (_ & a & Ha & Hat) (_ & b & Hb & Hbt). congruence.
Qed.

Lemma sanitize_parts_ok args ps argUse buf argUse' buf' :
  sanitize_parts args ps argUse buf = Ret (inr (argUse', buf')) <->
  exists texts, Forall2 (part_text args) ps texts /\ buf' = buf ++ concat texts
    /\ argUse' = fold_left mark ps argUse.
Proof.
  revert argUse buf. induction ps as [|p ps IH]; intros argUse buf.
  { simpl. split.
    - intros [= <- <-]. exists []. rewrite app_nil_r. done.
    - intros (texts & HF & -> & ->). inversion HF; subst. by rewrite app_nil_r. }
  destruct (sanitize_parts_cons args p ps argUse buf)
    as [(t & Ht & ->)|[(e & -> & Hno & Hpos)|(n & -> & Hneg & ->)]].
  - rewrite IH. split.
    + intros (texts & HF & -> & ->). exists (t :: texts). simpl. rewrite app_assoc.
      split; [by constructor|done].
    + intros (texts & HF & -> & ->). inversion HF as [|? t' ? texts' Ht' HF']; subst.
      rewrite (part_text_fun _ _ _ _ Ht Ht'). exists texts'. simpl. by rewrite app_assoc.
  - split; [done|]. intros (texts & HF & _). inversion HF as [|? t ? ? Ht]; subst. by destruct (Hno t).
  - split; [done|]. intros (texts & HF & _). inversion HF as [|? t ? ? Ht]; subst.
    destruct Ht as [H0 _]. lia.
Qed.

Lemma mark_length ps argUse : length (fold_left mark ps argUse) = length argUse.
Proof.
  revert argUse. induction ps as [|p ps IH]; intros argUse; [done|]. simpl. rewrite IH.
  destruct p as [|[] [] ?| | | | | | | | | | |]; simpl; rewrite ?length_insert; done.
Qed.

Lemma mark_lookup args ps texts argUse i :
  Forall2 (part_text args) ps texts -> (i < length argUse)%nat ->
  (fold_left mark ps argUse !! i = Some true
   <-> argUse !! i = Some true \/ Exists (refers_to i) ps).
Proof.
  intros HF. revert argUse. induction HF as [|p t ps texts Hp HF IH]; intros argUse Hi; simpl.
  { rewrite Exists_nil. tauto. }
  rewrite IH, Exists_cons.
  2:{ destruct p as [|[] [] ?| | | | | | | | | | |]; simpl; rewrite ?length_insert; done. }
  destruct p as [|[] [] n| | | |[] ?| | | | | | |]; simpl in *; try done.
  2:{ split; [tauto|]. intros [?|[(? & ? & _)|?]]; [tauto|done|tauto]. }
  destruct Hp as [Hpos _]. destruct (decide (Z.to_nat (int64 (n - 1)) = i)) as [<-|Hne].
  - rewrite list_lookup_insert_eq by done. split; [|by left]. intros _. right; left.
    exists n. split; [done|]. lia.
  - rewrite list_lookup_insert_ne by done. unfold refers_to. split; [tauto|].
    intros [?|[(m & [= <-] & Hm)|?]]; [tauto| |tauto]. lia.
Qed.

Lemma first_unused_None k l : first_unused k l = None <-> forall i, (i < length l)%nat -> l !! i = Some true.
Proof.
  revert k. induction l as [|[] l IH]; intros k; simpl.
  - split; [|done]. intros _ i Hi. lia.
  - rewrite IH. split.
    + intros H [|i] Hi; [done|]. apply H. lia.
    + intros H i Hi. apply (H (S i)). lia.
  - split; [done|]. intros H. specialize (H 0%nat ltac:(lia)). done.
Qed.

Lemma Sanitize_ok ps args out :
  Sanitize ps args = Ret (inr out) <->
  (exists texts, Forall2 (part_text args) ps texts /\ out = concat texts)
  /\ (forall i, (i < length args)%nat -> Exists (refers_to i) ps).
Proof.
  unfold Sanitize.
  destruct (sanitize_parts args ps (replicate (length args) false) [])
    as [[e|[argUse buf]]|msg] eqn:E; simpl.
  - split; [done|]. intros [(texts & HF & ->) _].
    assert (Ret (A := error + list bool * gostring) (inl e)
      = Ret (inr (fold_left mark ps (replicate (length args) false), concat texts))) as [=].
    rewrite <- E. apply sanitize_parts_ok. by exists texts.
  - apply sanitize_parts_ok in E as (texts & HF & -> & ->).
    set (u := fold_left mark ps (replicate (length args) false)).
    assert (length u = length args) as Hlen by (unfold u; by rewrite mark_length, length_replicate).
    assert (forall i, (i < length args)%nat -> u !! i = Some true <-> Exists (refers_to i) ps) as Hu.
    { intros i Hi. unfold u. rewrite mark_lookup; [|done|by rewrite length_replicate].
      rewrite lookup_replicate_2 by done. split; [by intros [?|?]|by right]. }
    assert (first_unused 0 u = None <-> forall i, (i < length args)%nat -> Exists (refers_to i) ps) as Hfu.
    { rewrite first_unused_None, Hlen. split; intros H i Hi; by apply Hu, H. }
    destruct (first_unused 0 u) as [j|].
    + split; [done|]. intros [_ H]. by apply Hfu in H.
    + split; [|intros [(texts' & HF' & ->) _]].
      * intros [= <-]. split; [by exists texts | by apply Hfu].
      * simpl. do 3 f_equal. clear -HF HF'. revert texts' HF'.
        induction HF as [|p t ps texts Hp HF IH]; intros texts' HF'; inversion HF'; subst; [done|].
        f_equal; [by eapply part_text_fun | by apply IH].
  - split; [done|]. intros [(texts & HF & ->) _].
    assert (Panic (A := error + list bool * gostring) msg
      = Ret (inr (fold_left mark ps (replicate (length args) false), concat texts))) as [=].
    rewrite <- E. apply sanitize_parts_ok. by exists texts.
Qed.

(** ** Lemmas: literals *)

Definition squote : ascii := "'"%char.
Definition escape_quotes (s : gostring) : gostring :=
  flat_map (fun c => if decide (squote = c) then [squote; squote] else [c]) s.

Lemma QuoteString_shape s : QuoteString s = squote :: escape_quotes s ++ [squote].
Proof. unfold QuoteString. change (str "'") with [squote]. by rewrite ReplaceAll_byte. Qed.

Lemma squote_code c : (code c =? r_squote) = bool_decide (squote = c).
Proof.
  destruct (Z.eqb_spec (code c) r_squote) as [E|E]; symmetry.
  - apply bool_decide_true. by apply code_inj.
  - apply bool_decide_false. intros <-. done.
Qed.

(** What follows a literal does not start with a quote. *)
Definition no_quote_next (t : gostring) : Prop :=
  match t with c :: _ => c <> squote | [] => True end.

Lemma read_body_close t : no_quote_next t -> read_literal_body (squote :: t) = Some ([], t).
Proof.
  intros Ht. cbn [read_literal_body]. change (code squote =? r_squote) with true. cbv iota.
  destruct t as [|c t]; [done|]. simpl in Ht. rewrite squote_code, bool_decide_false by congruence. done.
Qed.

Lemma read_body_escape s t :
  no_quote_next t -> read_literal_body (escape_quotes s ++ squote :: t) = Some (s, t).
Proof.
  intros Ht. induction s as [|c s IH]; [by apply read_body_close|].
  simpl. destruct (decide (squote = c)) as [<-|Hne]; cbn [app read_literal_body].
  - change (code squote =? r_squote) with true. cbv iota. by rewrite IH.
  - rewrite squote_code, bool_decide_false by done. by rewrite IH.
Qed.

Lemma read_body_plain s t :
  Forall (fun c => squote <> c) s -> no_quote_next t ->
  read_literal_body (s ++ squote :: t) = Some (s, t).
Proof.
  intros Hs Ht. induction Hs as [|c s Hc Hs IH]; [by apply read_body_close|].
  cbn [app read_literal_body]. rewrite squote_code, bool_decide_false by done. by rewrite IH.
Qed.

Lemma read_QuoteString s t :
  no_quote_next t -> read_literal (QuoteString s ++ t) = Some (s, t).
Proof.
  intros Ht. rewrite QuoteString_shape. cbn [app read_literal].
  change (code squote =? r_squote) with true. cbv iota.
  rewrite <- app_assoc. by apply read_body_escape.
Qed.

Lemma hex_value_digit z : 0 <= z < 16 -> hex_value (hex_digit z) = Some z.
Proof.
  intros Hz. unfold hex_digit, hex_value.
  destruct (Z.ltb_spec z 10); rewrite code_byte_of, Z.mod_small by lia; unfold in_range.
  - rewrite (proj2 (Z.leb_le 48 _)), (proj2 (Z.leb_le _ 57)) by lia. simpl. f_equal. lia.
  - rewrite (proj2 (Z.leb_gt (87 + z) 57)) by lia. rewrite andb_false_r.
    rewrite (proj2 (Z.leb_le 97 _)), (proj2 (Z.leb_le _ 102)) by lia. simpl. f_equal. lia.
Qed.

Lemma read_hex_encode b : read_hex (EncodeToString b) = Some b.
Proof.
  induction b as [|c b IH]; [done|]. cbn [EncodeToString flat_map app read_hex].
  fold (EncodeToString b). pose proof (code_bound c).
  rewrite !hex_value_digit, IH.
  - do 2 f_equal. rewrite <- Z.div_mod by lia. apply byte_of_code.
  - apply Z.mod_pos_bound. lia.
  - split; [apply Z.div_pos; lia | apply Z.div_lt_upper_bound; lia].
Qed.

Lemma hex_digit_not_quote z : 0 <= z < 16 -> squote <> hex_digit z.
Proof.
  intros Hz E. pose proof (hex_value_digit z Hz) as H. rewrite <- E in H. vm_compute in H. done.
Qed.

Lemma EncodeToString_no_quote b : Forall (fun c => squote <> c) (EncodeToString b).
Proof.
  induction b as [|c b IH]; [constructor|]. pose proof (code_bound c). simpl.
  constructor; [|constructor; [|done]]; apply hex_digit_not_quote.
  - split; [apply Z.div_pos; lia | apply Z.div_lt_upper_bound; lia].
  - apply Z.mod_pos_bound. lia.
Qed.

Lemma read_QuoteBytes b t :
  no_quote_next t ->
  exists v, read_literal (QuoteBytes b ++ t) = Some (v, t) /\ read_bytea v = Some b.
Proof.
  intros Ht. exists (str "\x" ++ EncodeToString b). split.
  - unfold QuoteBytes. change (str "'\x") with (squote :: str "\x").
    cbn [app read_literal]. change (code squote =? r_squote) with true. cbv iota.
    rewrite <- !app_assoc.
    rewrite (app_assoc (str "\x")).
    apply read_body_plain; [|done]. apply Forall_app. split; [|apply EncodeToString_no_quote].
    by repeat constructor.
  - apply read_hex_encode.
Qed.

(** ** Lemmas: the modes inside a literal *)

Lemma scan_app m a b : scan m (a ++ b) = scan (scan m a) b.
Proof. apply fold_left_app. Qed.

Lemma trace_app m a b : trace m (a ++ b) = trace m a ++ trace (scan m a) b.
Proof. revert m. induction a as [|c a IH]; intros m; [done|]. simpl. by rewrite IH. Qed.

Lemma trace_eq_scan m m' c s :
  trace m (c :: s) = trace m' (c :: s) -> scan m (c :: s) = scan m' (c :: s).
Proof. simpl. intros [= E _]. unfold scan. simpl. by rewrite E. Qed.

(** A body that keeps a quoted literal open. *)
Definition quoted_body (b : gostring) : Prop :=
  scan MSQ b = MSQ /\ Forall quoted_mode (trace MSQ b).

Lemma quoted_body_cons b : quoted_body b -> forall c, squote <> c -> quoted_body (c :: b).
Proof.
  intros [Hs Ht] c Hc. unfold quoted_body, scan. simpl.
  rewrite squote_code, bool_decide_false by done.
  split; [done|]. constructor; [by left|done].
Qed.

Lemma quoted_body_plain b : Forall (fun c => squote <> c) b -> quoted_body b.
Proof.
  induction 1 as [|c b Hc Hb IH]; [split; [done|constructor]|]. by apply quoted_body_cons.
Qed.

Lemma quoted_body_escape s : quoted_body (escape_quotes s).
Proof.
  induction s as [|c s IH]; [split; [done|constructor]|]. simpl.
  destruct (decide (squote = c)); [|by apply quoted_body_cons].
  destruct IH as [Hs Ht]. unfold quoted_body, scan. simpl.
  split; [done|]. constructor; [by right|]. constructor; [by left|done].
Qed.

Lemma quoted_mode_literal m : quoted_mode m -> literal_mode m.
Proof. unfold quoted_mode, literal_mode. tauto. Qed.

Lemma quoted_confined a b :
  quoted_body b -> confined a (squote :: b ++ [squote]).
Proof.
  intros [Hs Ht].
  assert (scan MRaw (squote :: b ++ [squote]) = MSQq) as Hscan.
  { change (squote :: b ++ [squote]) with ([squote] ++ b ++ [squote]).
    rewrite !scan_app. change (scan MRaw [squote]) with MSQ. by rewrite Hs. }
  assert (Forall quoted_mode (trace MRaw (squote :: b ++ [squote]))) as Htr.
  { change (squote :: b ++ [squote]) with ([squote] ++ b ++ [squote]).
    rewrite !trace_app. change (scan MRaw [squote]) with MSQ. rewrite Hs.
    apply Forall_app; split; [|apply Forall_app; split; [done|]].
    - constructor; [by left|constructor].
    - constructor; [by right|constructor]. }
  split; [by eapply Forall_impl, quoted_mode_literal|].
  split; [rewrite Hscan; by right; right|]. by destruct a.
Qed.

(** Characters that are nothing special in raw SQL. *)
Definition plain (c : ascii) : Prop := raw_step (code c) = MRaw.

Lemma plain_text s : Forall plain s ->
  scan MRaw s = MRaw /\ Forall (fun m => m = MRaw) (trace MRaw s).
Proof.
  induction 1 as [|c s Hc Hs [IH1 IH2]]; [split; [done|constructor]|].
  unfold scan in *. simpl. rewrite Hc. split; [done|]. by constructor.
Qed.

Lemma digit_plain c : digit_char c -> plain c.
Proof.
  intros H%digit_range. unfold plain, raw_step.
  unfold r_e, r_E, r_squote, r_dquote, r_dollar, r_dash, r_slash.
  repeat (rewrite (proj2 (Z.eqb_neq _ _)) by lia). done.
Qed.

Lemma plain_confined a s :
  match a with VString _ _ | VBytes _ _ | VTime _ => False | _ => True end ->
  Forall plain s -> confined a s.
Proof.
  intros Ha [Hs Ht]%plain_text. split; [|split].
  - eapply Forall_impl; [done|]. intros m ->. by left.
  - rewrite Hs. by left.
  - by destruct a.
Qed.

Lemma minus_confined a c s :
  match a with VString _ _ | VBytes _ _ | VTime _ => False | _ => True end ->
  Forall plain (c :: s) -> confined a (str "-" ++ c :: s).
Proof.
  intros Ha Hp. destruct (plain_text _ Hp) as [Hs Ht].
  assert (mode_step MRawDash (code c) = mode_step MRaw (code c)) as Hc.
  { apply Forall_cons in Hp as [Hc _]. unfold plain in Hc. simpl.
    destruct (Z.eqb_spec (code c) r_dash) as [E|E]; [|done]. by rewrite E in Hc. }
  change (str "-" ++ c :: s) with ("-"%char :: c :: s). split; [|split].
  - cbn [trace]. change (mode_step MRaw (code "-")) with MRawDash. rewrite Hc.
    constructor; [by right; right; left|].
    eapply Forall_impl; [exact Ht|]. intros m ->. by left.
  - unfold scan in *. simpl in Hs |- *. change (raw_step (code "-")) with MRawDash.
    simpl in Hc. simpl. rewrite Hc, Hs. by left.
  - by destruct a.
Qed.

Lemma FormatUint_plain n : Forall plain (FormatUint n).
Proof. eapply Forall_impl, digit_plain. apply FormatUint_digits. Qed.

Lemma signed_confined a (neg : bool) s :
  match a with VString _ _ | VBytes _ _ | VTime _ => False | _ => True end ->
  s <> [] -> Forall plain s -> confined a ((if neg then str "-" else []) ++ s).
Proof.
  intros Ha Hne Hs. destruct neg; [|by apply plain_confined].
  destruct s as [|c s]; [done|]. by apply minus_confined.
Qed.

Lemma append_int_digits z w : 0 <= z -> Forall digit_char (append_int z w).
Proof.
  intros Hz. unfold append_int. rewrite (proj2 (Z.ltb_ge z 0)) by done.
  apply Forall_app; split; [constructor|]. apply Forall_app; split; [|apply FormatUint_digits].
  apply Forall_replicate. apply digit_range. by rewrite code_byte_of.
Qed.

Lemma FormatInt_confined a z :
  match a with VString _ _ | VBytes _ _ | VTime _ => False | _ => True end ->
  confined a (FormatInt z).
Proof.
  intros Ha. unfold FormatInt.
  destruct (z <? 0); [apply (signed_confined a true) | apply (signed_confined a false)];
    first [done | apply FormatUint_nonempty | apply FormatUint_plain].
Qed.

Lemma FormatFloat_confined a f :
  match a with VString _ _ | VBytes _ _ | VTime _ => False | _ => True end ->
  confined a (FormatFloat f).
Proof.
  intros Ha. destruct f as [sgn|[]| |sgn m e]; unfold FormatFloat.
  - apply signed_confined; [done..|]. by repeat constructor.
  - apply (minus_confined a _ (str "nf")); [done|]. by repeat constructor.
  - apply plain_confined; [done|]. by repeat constructor.
  - apply plain_confined; [done|]. by repeat constructor.
  - destruct (shortest_decimal (Zpos m) e) as [d p]. apply signed_confined; [done|..].
    + destruct (0 <=? p); [apply FormatUint_nonempty|].
      intros [? _]%app_eq_nil. by eapply FormatUint_nonempty.
    + destruct (Z.leb_spec 0 p); [apply FormatUint_plain|].
      apply Forall_app; split; [apply FormatUint_plain|].
      apply Forall_app; split; [by repeat constructor|].
      eapply Forall_impl, digit_plain. apply append_int_digits.
      apply Z.mod_pos_bound. apply Z.pow_pos_nonneg; lia.
Qed.

Definition not_quote (c : ascii) : Prop := squote <> c.

Lemma digit_not_quote c : digit_char c -> not_quote c.
Proof. intros H%digit_range <-. change (code squote) with 39 in H. lia. Qed.

Lemma append_int_no_quote z w : Forall not_quote (append_int z w).
Proof.
  unfold append_int. apply Forall_app; split; [by destruct (z <? 0); repeat constructor|].
  apply Forall_app; split; [by apply Forall_replicate|].
  eapply Forall_impl, digit_not_quote. apply FormatUint_digits.
Qed.

Lemma trim_zeros_Forall (P : ascii -> Prop) l : Forall P l -> Forall P (trim_zeros_rev l).
Proof. induction 1 as [|c l Hc Hl IH]; simpl; [constructor|]. case_match; by try constructor. Qed.

Lemma format_nano_no_quote n : Forall not_quote (format_nano n).
Proof.
  unfold format_nano.
  assert (Forall not_quote (reverse (trim_zeros_rev (reverse (append_int n 9))))) as H.
  { apply Forall_reverse, trim_zeros_Forall, Forall_reverse, append_int_no_quote. }
  destruct (reverse _); [constructor|]. apply Forall_app; split; [by repeat constructor|done].
Qed.

Lemma format_zone_no_quote off : Forall not_quote (format_zone off).
Proof.
  unfold format_zone. destruct (off =? 0); [by repeat constructor|].
  destruct (Z.quot off 60 <? 0);
    repeat first [apply append_int_no_quote | apply Forall_app; split | by repeat constructor].
Qed.

Lemma timestamp_confined a t : confined a (FormatTimestamp t).
Proof.
  unfold FormatTimestamp.
  destruct (civil_of_days ((unixSec t + zoneOffset t) / 86400)) as [[y mo] d].
  change (str "'") with [squote]. cbn [app].
  rewrite !app_assoc. apply quoted_confined, quoted_body_plain.
  repeat first [apply append_int_no_quote | apply format_nano_no_quote
               | apply format_zone_no_quote | apply Forall_app; split | by repeat constructor].
Qed.

Lemma arg_text_confined a t : arg_text a = inr t -> confined a t.
Proof.
  destruct a as [|[] [] z|[] f| |[] b|[] s|[] b|t0| | | | |]; intros [= <-].
  - apply plain_confined; [done|]. by repeat constructor.
  - by apply FormatInt_confined.
  - by apply FormatFloat_confined.
  - destruct b; (split; [|split; [by right; left|done]]);
      repeat (constructor; [by (left + (right; left))|]); constructor.
  - rewrite QuoteString_shape. apply quoted_confined, quoted_body_escape.
  - unfold QuoteBytes. change (str "'\x") with (squote :: str "\x"). cbn [app].
    change (str "'") with [squote]. rewrite app_comm_cons, app_assoc.
    apply quoted_confined, quoted_body_plain.
    apply Forall_app; split; [by repeat constructor|apply EncodeToString_no_quote].
  - apply timestamp_confined.
Qed.

(** ** Lemmas: the alignment *)

(** After a placeholder the query is in mode [MPh], its interpolation at the
    end of a literal. *)
Definition in_step (mt mo : mode) : Prop := mt = mo \/ (mt = MPh /\ closed_mode mo).

Lemma in_step_trace mt mo c s :
  in_step mt mo -> (mt = MPh -> code c <> r_squote /\ is_digit (code c) = false) ->
  trace mt (c :: s) = trace mo (c :: s).
Proof.
  intros [->|[-> Hmo]] Hc; [done|]. destruct (Hc eq_refl) as [H1%Z.eqb_neq H2]. simpl.
  rewrite H2. destruct Hmo as [->|[->| ->]]; simpl; by rewrite ?H1.
Qed.

Lemma scan_placeholder ds :
  ds <> [] -> Forall digit_char ds -> scan MRaw (dollar :: ds) = MPh.
Proof.
  intros Hne Hds. assert (forall l, Forall digit_char l -> scan MPh l = MPh) as H.
  { clear. unfold scan. induction 1 as [|c l Hc Hl IH]; [done|]. simpl. by rewrite Hc. }
  destruct Hds as [|c ds Hc Hds]; [done|].
  unfold scan. simpl. change (raw_step (code dollar)) with MRawDollar. simpl. rewrite Hc. by apply H.
Qed.

Lemma aligned_texts args ps sql texts mt mo :
  renders ps sql -> Forall2 (part_text args) ps texts -> in_step mt mo ->
  isolated mt ps = true -> aligned args mt mo ps sql (concat texts).
Proof.
  intros Hr. revert texts mt mo.
  induction Hr as [|s ps t Hr IH|ds ps t Hne Hds Hr IH]; intros texts mt mo HF Hin Hiso;
    inversion HF as [|? x ? xs Hx HF']; subst; simpl.
  - constructor.
  - simpl in Hx. subst x. simpl in Hiso. apply andb_true_iff in Hiso as [H1 H2].
    destruct s as [|c s].
    + by constructor; [|apply IH].
    + assert (trace mt (c :: s) = trace mo (c :: s)) as Htr.
      { apply in_step_trace; [done|]. intros ->. apply andb_true_iff in H1 as [H1 H3].
        by apply negb_true_iff, Z.eqb_neq in H1; apply negb_true_iff in H3. }
      constructor; [done|]. apply IH; [done| |done]. left. by apply trace_eq_scan.
  - simpl in Hiso. apply andb_true_iff in Hiso as [->%bool_decide_eq_true H2].
    destruct Hin as [<-|[[=] _]]. destruct Hx as (Hpos & a & Ha & Hat).
    apply aligned_arg with (a := a); try done; [by apply scan_placeholder|by apply arg_text_confined|].
    apply IH; [done| |done]. right. split; [done|]. by apply (arg_text_confined a).
Qed.

Lemma sanitize_parts_panic args ps argUse buf msg :
  sanitize_parts args ps argUse buf = Panic msg <->
  msg = index_out_of_range /\
  exists pre n post texts, ps = pre ++ VInt KInt None n :: post
    /\ Forall2 (part_text args) pre texts /\ int64 (n - 1) < 0.
Proof.
  revert argUse buf. induction ps as [|p ps IH]; intros argUse buf.
  { simpl. split; [done|]. by intros (_ & [] & n & post & texts & [=] & _). }
  destruct (sanitize_parts_cons args p ps argUse buf)
    as [(t & Ht & ->)|[(e & -> & Hno & Hpos)|(n & -> & Hneg & ->)]].
  - rewrite IH. split; intros (-> & pre & n & post & texts & E & HF & Hn); (split; [done|]).
    + exists (p :: pre), n, post, (t :: texts). simpl. rewrite E. auto.
    + destruct pre as [|p' pre]; simplify_eq/=.
      * destruct Ht as [H0 _]. lia.
      * inversion HF; subst. eauto 10.
  - split; [done|]. intros (_ & pre & n & post & texts & E & HF & Hn).
    destruct pre as [|p' pre]; simplify_eq/=.
    + specialize (Hpos n eq_refl). lia.
    + inversion HF as [|? t ? ? Ht]; subst. by destruct (Hno t).
  - split; [|by intros [-> _]]. intros [= <-]. split; [done|]. exists [], n, ps, []. auto.
Qed.

Lemma decode_all_ascii c s :
  code c < 128 -> decode_all (c :: s) = (code c, [c]) :: decode_all s.
Proof.
  intros Hc. by rewrite (decode_all_cons (c :: s) (code c) 1 ltac:(done) (decode_ascii_cons c s Hc)).
Qed.

(** A rune below 128 is a byte of the text. *)
Lemma decode_all_byte s r bs :
  (r, bs) ∈ decode_all s -> r < 128 -> exists c, c ∈ s /\ code c = r.
Proof.
  intros Hin Hr. pose proof (decode_all_wf s) as Hwf. rewrite Forall_forall in Hwf.
  destruct (Hwf _ Hin Hr) as (c & Hb & Hc). exists c. split; [|done].
  rewrite <- (decode_all_bytes s). apply list_elem_of_In, in_concat. exists bs.
  split; apply list_elem_of_In.
  - apply list_elem_of_fmap. by exists (r, bs).
  - simpl in Hb. rewrite Hb. apply list_elem_of_In. by left.
Qed.

Lemma line_comment_rest rs acc :
  Forall (fun x => fst x <> RuneError /\ fst x <> r_backslash /\ fst x <> r_newline) rs ->
  ref_run MLine acc 0 rs = segment (acc ++ concat (snd <$> rs)).
Proof.
  intros H. revert acc. induction H as [|[r bs] rs (H1 & H2 & H3) H IH]; intros acc; simpl in *.
  - by rewrite app_nil_r.
  - apply Z.eqb_neq in H1, H2, H3. rewrite H1, H2, H3. simpl. by rewrite IH, <- app_assoc.
Qed.

(** ** The properties *)

(** C30. The parts [NewQuery] returns are the query's text cut at its
    placeholders: nothing is lost, reordered or invented.  The text is read to
    its end when it is valid UTF-8 without [U+FFFD]; otherwise a prefix of it
    is. *)
Theorem NewQuery_lossless (sql : gostring) :
  exists ps pre post, NewQuery sql = Some (Ret ps) /\ sql = pre ++ post
    /\ renders ps pre /\ (clean sql = true -> post = []).
Proof.
  destruct (ref_parts_renders sql) as (pre & post & H1 & H2 & H3).
  exists (ref_parts sql), pre, post. rewrite NewQuery_ref. auto.
Qed.

(** C29. [Query.Sanitize] returns a text exactly when every placeholder refers to
    an argument of a type it can write, and every argument is referred to; the
    text is then the raw SQL with each placeholder replaced by its argument's
    literal. *)
Theorem Sanitize_succeeds_iff (ps args : list goval) (out : gostring) :
  Sanitize ps args = Ret (inr out) <->
  (exists texts, Forall2 (part_text args) ps texts /\ out = concat texts)
  /\ (forall i, (i < length args)%nat -> Exists (refers_to i) ps).
Proof. exact (Sanitize_ok ps args out). Qed.

(** [Query.Sanitize] panics exactly when a placeholder whose number minus
    one is negative ([$0], or a number that wrapped around) is reached: the
    index is only checked against the upper bound. *)
Theorem Sanitize_panics_iff (ps args : list goval) (msg : gostring) :
  Sanitize ps args = Panic msg <->
  msg = index_out_of_range /\
  exists pre n post texts, ps = pre ++ VInt KInt None n :: post
    /\ Forall2 (part_text args) pre texts /\ int64 (n - 1) < 0.
Proof.
  rewrite <- (sanitize_parts_panic args ps (replicate (length args) false) []).
  unfold Sanitize.
  destruct (sanitize_parts _ _ _ _) as [[|[]]|m]; simpl; [by split| |].
  - by destruct (first_unused _ _).
  - split; by intros [= ->].
Qed.

(** C2. Arguments cannot inject SQL.  When the placeholders of a query stand
    alone ([isolated]), its interpolation is read like the query itself: the
    raw SQL goes through the same lexical modes in both, and each argument,
    whatever its content, stays inside one literal. *)
Theorem SanitizeSQL_no_injection (sql out : gostring) (args ps : list goval)
    (Hclean : clean sql = true)
    (Hparse : NewQuery sql = Some (Ret ps))
    (Hisolated : isolated MRaw ps = true)
    (Hok : SanitizeSQL sql args = Some (Ret (inr out))) :
  aligned args MRaw MRaw ps sql out.
Proof.
  unfold SanitizeSQL in Hok. rewrite NewQuery_ref in Hparse, Hok.
  injection Hparse as <-. injection Hok as Hok.
  apply Sanitize_ok in Hok as [(texts & HF & ->) _].
  destruct (ref_parts_renders sql) as (pre & post & -> & Hr & Hpost).
  rewrite (Hpost Hclean), app_nil_r in *. apply aligned_texts; try done. by left.
Qed.

(** A quoted string is one SQL literal that reads back as the string, and
    the reader stops right after it. *)
Theorem QuoteString_roundtrip (s t : gostring) (Ht : no_quote_next t) :
  read_literal (QuoteString s ++ t) = Some (s, t).
Proof. exact (read_QuoteString s t Ht). Qed.

(** Quoted bytes are one SQL literal whose content is the hex input of a
    [bytea] with those bytes. *)
Theorem QuoteBytes_roundtrip (b t : gostring) (Ht : no_quote_next t) :
  exists v, read_literal (QuoteBytes b ++ t) = Some (v, t) /\ read_bytea v = Some b.
Proof. exact (read_QuoteBytes b t Ht). Qed.

(** A minus sign right before a placeholder and a negative integer argument
    make a comment: the rest of the line leaves the query. *)
Theorem minus_placeholder_opens_comment (z : Z) (Hneg : z < 0) :
  SanitizeSQL (str "select -$1") [VInt KInt64 None z]
  = Some (Ret (inr (str "select --" ++ FormatUint (- z))))
  /\ scan MRaw (str "select --" ++ FormatUint (- z)) = MLine.
Proof.
  split.
  - unfold SanitizeSQL. rewrite NewQuery_ref.
    replace (ref_parts (str "select -$1"))
      with [VString None (str "select -"); VInt KInt None 1] by (vm_compute; reflexivity).
    do 2 f_equal. apply Sanitize_ok. split.
    + exists [str "select -"; FormatInt z]. split.
      * constructor; [done|]. constructor; [|constructor]. split; [done|]. by eexists.
      * unfold FormatInt. rewrite (proj2 (Z.ltb_lt z 0)) by done. simpl. by rewrite app_nil_r.
    + intros [|i] Hi; [|simpl in Hi; lia]. right. left. by exists 1.
  - rewrite scan_app. change (scan MRaw (str "select --")) with MLine.
    pose proof (FormatUint_digits (- z)) as Hd. induction Hd as [|c s Hc Hd IH]; [done|].
    apply digit_range in Hc. unfold scan in *. simpl.
    rewrite (proj2 (Z.eqb_neq (code c) r_backslash)), (proj2 (Z.eqb_neq (code c) r_newline));
      [done|unfold r_newline; lia|unfold r_backslash; lia].
Qed.

(** Two placeholders in a row and string arguments make one literal, with a
    quote between the two strings. *)
Theorem adjacent_placeholders_merge (a b : gostring) :
  SanitizeSQL (str "$1$2") [VString None a; VString None b]
  = Some (Ret (inr (QuoteString a ++ QuoteString b)))
  /\ read_literal (QuoteString a ++ QuoteString b) = Some (a ++ squote :: b, []).
Proof.
  split.
  - unfold SanitizeSQL. rewrite NewQuery_ref.
    replace (ref_parts (str "$1$2"))
      with [VString None []; VInt KInt None 1; VString None []; VInt KInt None 2]
      by (vm_compute; reflexivity).
    do 2 f_equal. apply Sanitize_ok. split.
    + exists [[]; QuoteString a; []; QuoteString b]. split.
      * repeat (constructor; [first [done | split; [done|by eexists]]|]). constructor.
      * simpl. by rewrite app_nil_r.
    + intros [|[|i]] Hi; [| |simpl in Hi; lia].
      * right. left. by exists 1.
      * do 3 right. left. by exists 2.
  - rewrite <- (read_QuoteString (a ++ squote :: b) []) by done. f_equal.
    rewrite !QuoteString_shape. unfold escape_quotes. rewrite app_nil_r, flat_map_app. simpl.
    by rewrite <- !app_assoc.
Qed.

(** The lexer passes over the character after a backslash in a one-line
    comment, the line end included: SQL after such a line is taken for part of
    the comment, and its placeholders are not replaced. *)
Theorem backslash_hides_line_end (s : gostring) (Hs : clean s = true)
    (Hplain : Forall (fun c => code c <> r_backslash /\ code c <> r_newline) s) :
  NewQuery (str "--\" ++ byte_of 10 :: s) = Some (Ret [VString None (str "--\" ++ byte_of 10 :: s)]).
Proof.
  rewrite NewQuery_ref. do 2 f_equal. unfold ref_parts.
  change (str "--\" ++ byte_of 10 :: s)
    with ("-"%char :: "-"%char :: "\"%char :: byte_of 10 :: s).
  rewrite !decode_all_ascii by done. cbn -[decode_all].
  rewrite line_comment_rest; [by rewrite decode_all_bytes|].
  pose proof (clean_runes s Hs) as Hc. rewrite Forall_forall in Hc.
  rewrite Forall_forall in Hplain. apply Forall_forall.
  intros [r bs] Hin. split; [by apply (Hc _ Hin)|]. simpl.
  split; intros ->; destruct (decode_all_byte s _ bs Hin ltac:(done)) as (c & Hcin & Hcc);
    by destruct (Hplain c Hcin).
Qed.

(** A placeholder number wraps around at 64 bits. *)
Theorem placeholder_number_wraps :
  NewQuery (str "$18446744073709551617") = Some (Ret [VString None []; VInt KInt None 1]).
Proof. by vm_compute. Qed.

(** ** Witnesses *)

Lemma SanitizeSQL_no_injection_witness :
  aligned [VString None (str "a' or 1=1 --"); VInt KInt64 None (-5)] MRaw MRaw
    [VString None (str "select "); VInt KInt None 1; VString None (str " , "); VInt KInt None 2]
    (str "select $1 , $2") (str "select 'a'' or 1=1 --' , -5").
Proof.
  apply (SanitizeSQL_no_injection (str "select $1 , $2") (str "select 'a'' or 1=1 --' , -5"));
    vm_compute; reflexivity.
Defined.

Lemma QuoteString_roundtrip_witness :
  read_literal (QuoteString (str "it's") ++ str ", 1") = Some (str "it's", str ", 1").
Proof. apply (QuoteString_roundtrip (str "it's") (str ", 1")). discriminate. Defined.

Lemma QuoteBytes_roundtrip_witness :
  exists v, read_literal (QuoteBytes (str "ab") ++ str ")") = Some (v, str ")")
    /\ read_bytea v = Some (str "ab").
Proof. apply (QuoteBytes_roundtrip (str "ab") (str ")")). discriminate. Defined.

Lemma minus_placeholder_opens_comment_witness :
  SanitizeSQL (str "select -$1") [VInt KInt64 None (-1)] = Some (Ret (inr (str "select --1"))).
Proof. apply (minus_placeholder_opens_comment (-1)). reflexivity. Defined.

Lemma backslash_hides_line_end_witness :
  NewQuery (str "--\" ++ byte_of 10 :: str "select $1")
  = Some (Ret [VString None (str "--\" ++ byte_of 10 :: str "select $1")]).
Proof.
  apply (backslash_hides_line_end (str "select $1")); [reflexivity|].
  repeat (constructor; [split; discriminate|]). constructor.
Defined.
