(* ===== verification/Values.v ===== *)
(** Arguments on their way to the server (values.go, go_stdlib.go, messages.go,
    extended_query_builder.go): conversion for the simple protocol, encoding for
    the extended protocol and for COPY, and the buffers of the extended query
    builder. *)

From S2P Require Import Prelude GoStd GoVal Effects Sanitize.
From Stdlib Require Import SpecFloat.

Local Open Scope Z_scope.

(** ** Code outside the repository

    The dynamic types a program may pass as arguments are open: which of the
    interfaces of pgtype and database/sql a value implements, and what its
    methods return, are parameters.  So is pgtype's [ConnInfo], the registry
    of data types, and package pgio.

    An encoder gets a buffer and returns the extended buffer, or [None] (a nil
    slice) for an SQL NULL.  The buffer it gets may be a nil slice too. *)
Definition encoder : Type := option gostring -> error + option gostring.

Class PgTypes := {
  as_BinaryEncoder : goval -> option encoder;
  as_TextEncoder : goval -> option encoder;
  as_Valuer : goval -> option (error + goval);
  as_ParamFormatPreferrer : goval -> option Z;
  (** [reflect.Type.Implements] of [driver.Valuer] for an element type *)
  elem_is_Valuer : gostring -> bool;
  (** [EncodeText] of [*pgtype.JSON] and [*pgtype.JSONB] *)
  json_EncodeText : goval -> encoder;
  DataType : Type;
  DataTypeForOID : Z -> option DataType;
  DataTypeForValue : goval -> option DataType;
  (** [dt.Value.Set(arg)], with the value it leaves in [dt.Value] *)
  dt_Set : DataType -> goval -> error + goval;
  (** [EncodeText] of [dt.Value], if its type has the method *)
  dt_TextEncoder : DataType -> option (goval -> encoder);
  ParamFormatCodeForOID : Z -> Z;
  ResultFormatCodeForOID : Z -> Z;
  AppendInt16 : gostring -> Z -> gostring;
  AppendInt32 : gostring -> Z -> gostring;
  (** [pgio.SetInt32(buf[at:], n)] *)
  SetInt32 : gostring -> nat -> Z -> gostring
}.

(** What pgtype and pgio document: an encoder appends to the buffer it is
    given, integers are written in big-endian order. *)
Definition be16 (n : Z) : gostring := [byte_of (Z.shiftr n 8); byte_of n].
Definition be32 (n : Z) : gostring :=
  [byte_of (Z.shiftr n 24); byte_of (Z.shiftr n 16); byte_of (Z.shiftr n 8); byte_of n].

(** An encoder fails, encodes a NULL, or appends the format of its value, and
    this does not depend on the buffer. *)
Definition appends (enc : encoder) : Prop :=
  (exists e, forall buf, enc (Some buf) = inl e)
  \/ (forall buf, enc (Some buf) = inr None)
  \/ (exists p, forall buf, enc (Some buf) = inr (Some (buf ++ p))).

Class PgTypesLaws `{PgTypes} := {
  BinaryEncoder_appends v enc : as_BinaryEncoder v = Some enc -> appends enc;
  TextEncoder_appends v enc : as_TextEncoder v = Some enc -> appends enc;
  dt_TextEncoder_appends dt enc v : dt_TextEncoder dt = Some enc -> appends (enc v);
  AppendInt16_be buf n : AppendInt16 buf n = buf ++ be16 n;
  AppendInt32_be buf n : AppendInt32 buf n = buf ++ be32 n;
  SetInt32_be a old b n : length old = 4%nat ->
    SetInt32 (a ++ old ++ b) (length a) n = a ++ be32 n ++ b;
  (** [driver.Value] is one of the types package driver lists *)
  Valuer_driver_value v w : as_Valuer v = Some (inr w) -> exists t, arg_text w = inr t
}.

Definition TextFormatCode : Z := 0.
Definition BinaryFormatCode : Z := 1.

Definition MaxInt64 : Z := 2 ^ 63 - 1.

Definition is_nil (v : goval) : bool := match v with VNil => true | _ => false end.
(** [arg.(string)] and [refVal.Elem().Interface()]. *)
Definition as_string (v : goval) : option gostring :=
  match v with VString None s => Some s | _ => None end.
Definition deref (v : goval) : option goval :=
  match v with VPtr _ t => Some t | _ => None end.
Definition is_nil_ptr (v : goval) : bool := match v with VNilPtr _ => true | _ => false end.

(** [float64(f)] of a [float32]: the same number, with the mantissa brought to
    the precision of the wider format. *)
Definition float64_of_float32 (f : spec_float) : spec_float :=
  match f with
  | S754_finite s m e =>
      let k := 53 - Zpos (digits2_pos m) in
      if k <=? 0 then f
      else match Zpos m * 2 ^ k with
           | Zpos m' => S754_finite s m' (e - k)
           | _ => f
           end
  | _ => f
  end.

(** ** values.go: kinds and named types *)

(** [stripNamedType]: the value as its kind's predeclared type, and whether
    that is another type. *)
Definition stripNamedType (v : goval) : goval * bool :=
  match v with
  | VInt k named z => (VInt k None z, bool_decide (named <> None))
  | VString named s => (VString None s, bool_decide (named <> None))
  | _ => (VNil, false)
  end.

(** ** go_stdlib.go *)

Section Arguments.
Context `{PgTypes}.

Definition callValuerValue (v : goval) (value : error + goval) : error + goval :=
  match v with
  | VNilPtr elem => if elem_is_Valuer elem then inr VNil else value
  | _ => value
  end.

(** ** messages.go

    The loop writes into the caller's slice: the result is the slice as it is
    left, with the error if there is one. *)
Fixpoint convertDriverValuers (args : list goval) : list goval * option error :=
  match args with
  | [] => ([], None)
  | arg :: args' =>
      let skip (a : goval) :=
        let '(rest, e) := convertDriverValuers args' in (a :: rest, e) in
      match as_BinaryEncoder arg, as_TextEncoder arg, as_Valuer arg with
      | Some _, _, _ => skip arg
      | None, Some _, _ => skip arg
      | None, None, Some value =>
          match callValuerValue arg value with
          | inl e => (args, Some e)
          | inr v => skip v
          end
      | None, None, None => skip arg
      end
  end.

(** ** values.go: the simple protocol *)

Definition text_result (r : error + option gostring) : error + goval :=
  match r with
  | inl e => inl e
  | inr None => inr VNil
  | inr (Some buf) => inr (VString None buf)
  end.

Definition too_big (z : Z) : error :=
  ErrorString (str "arg too big for int64: " ++ FormatInt z).

Definition cannot_encode_simple (v : goval) : error :=
  SerializationError (str "Cannot encode " ++ type_name v
    ++ str " in simple protocol - " ++ type_name v
    ++ str " must implement driver.Valuer, pgtype.TextEncoder, or be a native type").

Definition missing_TextEncoder : gostring :=
  str "interface conversion: pgtype.Value is not pgtype.TextEncoder: missing method EncodeText".
Definition missing_BinaryEncoder : gostring :=
  str "interface conversion: pgtype.Value is not pgtype.BinaryEncoder: missing method EncodeBinary".

(** The cases of the type switch for predeclared and time types. *)
Definition convert_native (arg : goval) : option (error + goval) :=
  match arg with
  | VFloat32 None f => Some (inr (VFloat64 None (float64_of_float32 f)))
  | VFloat64 None _ => Some (inr arg)
  | VBool None _ => Some (inr arg)
  | VInt KInt64 (Some n) z =>
      if bool_decide (n = str "time.Duration")
      then Some (inr (VString None (FormatInt (Z.quot z 1000) ++ str " microsecond")))
      else None
  | VTime _ => Some (inr arg)
  | VString None _ => Some (inr arg)
  | VBytes None _ => Some (inr arg)
  | VInt (KInt8 | KInt16 | KInt32 | KInt64 | KInt | KUint8 | KUint16 | KUint32) None z =>
      Some (inr (VInt KInt64 None z))
  | VInt (KUint64 | KUint) None z =>
      if MaxInt64 <? z then Some (inl (too_big z)) else Some (inr (VInt KInt64 None z))
  | _ => None
  end.

Definition is_json_ptr (v : goval) : bool :=
  match v with
  | VPtr ty _ => bool_decide (ty = str "pgtype.JSON") || bool_decide (ty = str "pgtype.JSONB")
  | _ => false
  end.

(** The fuel bounds the dereferences; [convert_fuel] below is always enough. *)
Fixpoint convertSimpleArgument (fuel : nat) (arg : goval) : comp (error + goval) :=
  match fuel with
  | O => NoFuel
  | S f =>
      if is_nil arg then Done (inr VNil)
      else if is_nil_ptr arg then Done (inr VNil)
      else if is_json_ptr arg then Done (text_result (json_EncodeText arg None))
      else match as_Valuer arg with
      | Some value => Done (callValuerValue arg value)
      | None =>
      match as_TextEncoder arg with
      | Some enc => Done (text_result (enc None))
      | None =>
      match convert_native arg with
      | Some r => Done r
      | None =>
      match DataTypeForValue arg with
      | Some dt =>
          match dt_Set dt arg with
          | inl e => Done (inl e)
          | inr v =>
              match as_TextEncoder v with
              | None => Crash missing_TextEncoder
              | Some enc => Done (text_result (enc None))
              end
          end
      | None =>
          match deref arg with
          | Some target => convertSimpleArgument f target
          | None =>
              let '(stripped, ok) := stripNamedType arg in
              if ok then convertSimpleArgument f stripped
              else Done (inl (cannot_encode_simple arg))
          end
      end end end end
  end.

(** An upper bound of the dereferences and strippings of a value. *)
Fixpoint convert_fuel (v : goval) : nat :=
  match v with
  | VPtr _ t => S (convert_fuel t)
  | VInt _ (Some _) _ | VString (Some _) _ => 2
  | _ => 1
  end.

(** ** values.go: encoding for COPY *)

Definition cannot_encode (v : goval) (oid : Z) : error :=
  SerializationError (str "Cannot encode " ++ type_name v ++ str " into oid " ++ FormatInt oid
    ++ str " - " ++ type_name v ++ str " must implement Encoder or be converted to a string").

(** The length word is first written as -1 and set when the value is not NULL. *)
Definition encode_framed (enc : encoder) (buf : gostring) : comp (error + gostring) :=
  let sp := length buf in
  let buf1 := AppendInt32 buf (-1) in
  match enc (Some buf1) with
  | inl e => Done (inl e)
  | inr None => Done (inr buf1)
  | inr (Some argBuf) =>
      if (length argBuf <? sp)%nat then Crash slice_out_of_range
      else Done (inr (SetInt32 argBuf sp (int32 (Z.of_nat (length argBuf - sp) - 4))))
  end.

(** Neither an encoder nor a string: dereference, or go through the data type
    of the column, or the kind.  [rec] is the recursive call. *)
Definition encode_prepared_by_type (rec : goval -> comp (error + gostring))
    (buf : gostring) (oid : Z) (arg : goval) : comp (error + gostring) :=
  match deref arg with
  | Some target => rec target
  | None =>
  match DataTypeForOID oid with
  | Some dt =>
      match dt_Set dt arg with
      | inl e =>
          match as_Valuer arg with
          | Some value =>
              match callValuerValue arg value with
              | inl e' => Done (inl e')
              | inr v => rec v
              end
          | None => Done (inl e)
          end
      | inr value =>
          match as_BinaryEncoder value with
          | None => Crash missing_BinaryEncoder
          | Some enc => encode_framed enc buf
          end
      end
  | None =>
      let '(stripped, ok) := stripNamedType arg in
      if ok then rec stripped else Done (inl (cannot_encode arg oid))
  end end.

Fixpoint encodePreparedStatementArgument (fuel : nat) (buf : gostring) (oid : Z) (arg : goval)
  : comp (error + gostring) :=
  match fuel with
  | O => NoFuel
  | S f =>
      if is_nil arg then Done (inr (AppendInt32 buf (-1)))
      else match as_BinaryEncoder arg with
      | Some enc => encode_framed enc buf
      | None =>
      match as_TextEncoder arg with
      | Some enc => encode_framed enc buf
      | None =>
      match as_string arg with
      | Some s => Done (inr (AppendInt32 buf (int32 (Z.of_nat (length s))) ++ s))
      | None =>
          if is_nil_ptr arg then Done (inr (AppendInt32 buf (-1)))
          else encode_prepared_by_type (encodePreparedStatementArgument f buf oid) buf oid arg
      end end end
  end.

(** ** values.go: the format of a parameter *)

Definition is_string_ptr (v : goval) : bool :=
  match v with
  | VPtr ty _ | VNilPtr ty => bool_decide (ty = str "string")
  | _ => false
  end.

Definition chooseParameterFormatCode (oid : Z) (arg : goval) : Z :=
  match as_ParamFormatPreferrer arg with
  | Some f => f
  | None =>
  match as_BinaryEncoder arg with
  | Some _ => BinaryFormatCode
  | None =>
      match arg, as_TextEncoder arg with
      | VString None _, _ => TextFormatCode
      | _, Some _ => TextFormatCode
      | _, None => if is_string_ptr arg then TextFormatCode else ParamFormatCodeForOID oid
      end
  end end.

(** ** extended_query_builder.go

    A parameter value is [None] for a NULL.  The capacities of the slices,
    which [Reset] bounds, carry no content and are not modelled. *)
Record extendedQueryBuilder := mkEqb {
  paramValues : list (option gostring);
  paramValueBytes : gostring;
  paramFormats : list Z;
  resultFormats : list Z
}.

Definition eqb_Reset (eqb : extendedQueryBuilder) : extendedQueryBuilder := mkEqb [] [] [] [].

Definition AppendResultFormat (f : Z) (eqb : extendedQueryBuilder) : extendedQueryBuilder :=
  mkEqb (paramValues eqb) (paramValueBytes eqb) (paramFormats eqb) (resultFormats eqb ++ [f]).

(** [buf, err = enc(ci, eqb.paramValueBytes)] and its slice from [pos]. *)
Definition eqb_encode (enc : encoder) (bytes : gostring)
  : comp ((error + option gostring) * gostring) :=
  match enc (Some bytes) with
  | inl e => Done (inl e, bytes)
  | inr None => Done (inr None, bytes)
  | inr (Some buf) =>
      if (length buf <? length bytes)%nat then Crash slice_out_of_range
      else Done (inr (Some (drop (length bytes) buf)), buf)
  end.

(** The result of encoding a parameter is its value with the new content of
    [eqb.paramValueBytes]. *)
Definition encoded : Type := (error + option gostring) * gostring.

(** No encoder for the format: dereference, or go through the data type of the
    parameter, that of the value, or the kind.  [rec] is the recursive call. *)
Definition encode_param_by_type (rec : goval -> comp encoded)
    (bytes : gostring) (oid : Z) (arg : goval) : comp encoded :=
  match deref arg with
  | Some target => rec target
  | None =>
  match DataTypeForOID oid with
  | Some dt =>
      match dt_Set dt arg with
      | inl e =>
          match as_Valuer arg with
          | Some value =>
              match callValuerValue arg value with
              | inl e' => Done (inl e', bytes)
              | inr v => rec v
              end
          | None => Done (inl e, bytes)
          end
      | inr value => rec value
      end
  | None =>
      let by_kind :=
        let '(stripped, ok) := stripNamedType arg in
        if ok then rec stripped else Done (inl (cannot_encode arg oid), bytes) in
      match DataTypeForValue arg with
      | Some dt =>
          match dt_TextEncoder dt with
          | Some enc =>
              match dt_Set dt arg with
              | inl e => Done (inl e, bytes)
              | inr value => eqb_encode (enc value) bytes
              end
          | None => by_kind
          end
      | None => by_kind
      end
  end end.

(** The encoder of the value for a format code, if it has one. *)
Definition encoder_for (formatCode : Z) (arg : goval) : option encoder :=
  if formatCode =? TextFormatCode then as_TextEncoder arg
  else if formatCode =? BinaryFormatCode then as_BinaryEncoder arg
  else None.

(** The recursion goes through values that code outside the repository returns,
    hence the fuel. *)
Fixpoint encodeExtendedParamValue (fuel : nat) (bytes : gostring) (oid formatCode : Z) (arg : goval)
  : comp encoded :=
  match fuel with
  | O => NoFuel
  | S f =>
      if is_nil arg || is_nil_ptr arg then Done (inr None, bytes)
      else match as_string arg with
      | Some s => Done (inr (Some s), bytes)
      | None =>
          match encoder_for formatCode arg with
          | Some enc => eqb_encode enc bytes
          | None =>
              encode_param_by_type (encodeExtendedParamValue f bytes oid formatCode) bytes oid arg
          end
      end
  end.

(** [AppendParam]: the format is recorded before the value is encoded. *)
Definition AppendParam (fuel : nat) (oid : Z) (arg : goval) (eqb : extendedQueryBuilder)
  : comp (option error * extendedQueryBuilder) :=
  let f := chooseParameterFormatCode oid arg in
  let formats := paramFormats eqb ++ [f] in
  let? '(r, bytes) := encodeExtendedParamValue fuel (paramValueBytes eqb) oid f arg in
  Done match r with
       | inl e => (Some e, mkEqb (paramValues eqb) bytes formats (resultFormats eqb))
       | inr v => (None, mkEqb (paramValues eqb ++ [v]) bytes formats (resultFormats eqb))
       end.

(** The loops over the arguments and the result fields, shared by the three
    callers of the builder in conn.go. *)
Fixpoint append_params (fuel : nat) (oids : list Z) (args : list goval) (eqb : extendedQueryBuilder)
  : comp (option error * extendedQueryBuilder) :=
  match args, oids with
  | arg :: args', oid :: oids' =>
      let? '(e, eqb') := AppendParam fuel oid arg eqb in
      match e with
      | Some _ => Done (e, eqb')
      | None => append_params fuel oids' args' eqb'
      end
  | _ :: _, [] => Crash index_out_of_range
  | [], _ => Done (None, eqb)
  end.

Definition append_result_formats (oids : list Z) (eqb : extendedQueryBuilder) : extendedQueryBuilder :=
  fold_left (fun b oid => AppendResultFormat (ResultFormatCodeForOID oid) b) oids eqb.

(** The builder after the parameters of the types [oids]: their arguments are
    converted and encoded, one after the other. *)
Definition emptyEqb : extendedQueryBuilder := mkEqb [] [] [] [].

Definition encodes (fuel : nat) (oids : list Z) (args : list goval) (b : extendedQueryBuilder) : Prop :=
  length oids = length args /\ exists converted, convertDriverValuers args = (converted, None)
    /\ append_params fuel oids converted emptyEqb = Done (None, b).

(** ** Properties of the conversions *)

Definition ikind_bounds (k : ikind) : Z * Z :=
  match k with
  | KInt | KInt64 => (- 2 ^ 63, 2 ^ 63 - 1)
  | KInt8 => (- 2 ^ 7, 2 ^ 7 - 1)
  | KInt16 => (- 2 ^ 15, 2 ^ 15 - 1)
  | KInt32 => (- 2 ^ 31, 2 ^ 31 - 1)
  | KUint | KUint64 => (0, 2 ^ 64 - 1)
  | KUint8 => (0, 2 ^ 8 - 1)
  | KUint16 => (0, 2 ^ 16 - 1)
  | KUint32 => (0, 2 ^ 32 - 1)
  end.

Definition ikind_ok (k : ikind) (z : Z) : Prop :=
  fst (ikind_bounds k) <= z <= snd (ikind_bounds k).

Lemma convert_native_writable arg v :
  convert_native arg = Some (inr v) -> exists t, arg_text v = inr t.
Proof.
  destruct arg as [|[] [] z|[] f|[] f|[] b|[] s|[] b|t| | | | |]; simpl; try done;
    try (case_match; try done); intros [= <-]; simpl; eauto.
Qed.

Lemma text_result_writable r v : text_result r = inr v -> exists t, arg_text v = inr t.
Proof. destruct r as [e|[buf|]]; intros [= <-]; simpl; eauto. Qed.

Lemma convert_fuel_pos v : (1 <= convert_fuel v)%nat.
Proof. destruct v as [|? [] ?| | | |[] ?| | | | | | |]; simpl; lia. Qed.

Lemma stripped_fuel v w : stripNamedType v = (w, true) -> convert_fuel v = S (convert_fuel w).
Proof. destruct v as [|? [] ?| | | |[] ?| | | | | | |]; intros; simplify_eq/=; done. Qed.

Lemma convertSimple_ends fuel arg :
  (convert_fuel arg <= fuel)%nat -> convertSimpleArgument fuel arg <> NoFuel.
Proof.
  revert arg. induction fuel as [|f IH]; intros arg Hf.
  { pose proof (convert_fuel_pos arg). lia. }
  cbn [convertSimpleArgument].
  assert (forall t, deref arg = Some t -> convertSimpleArgument f t <> NoFuel) as Hd.
  { intros t Ht. apply IH. destruct arg; simplify_eq/=. lia. }
  assert (forall t, stripNamedType arg = (t, true) -> convertSimpleArgument f t <> NoFuel) as Hn.
  { intros t Ht. apply IH. by apply stripped_fuel in Ht; lia. }
  repeat (case_match; try done); subst; auto.
Qed.

Lemma convertSimple_int k z fuel :
  ikind_ok k z -> as_Valuer (VInt k None z) = None -> as_TextEncoder (VInt k None z) = None ->
  convertSimpleArgument (S fuel) (VInt k None z)
  = Done (if z <=? MaxInt64 then inr (VInt KInt64 None z) else inl (too_big z)).
Proof.
  intros Hk HV HT. cbn [convertSimpleArgument is_nil is_nil_ptr is_json_ptr]. rewrite HV, HT.
  unfold ikind_ok, ikind_bounds, MaxInt64 in *.
  destruct k; simpl in Hk |- *; unfold MaxInt64;
    repeat match goal with
    | |- context [?a <=? ?b] => destruct (Z.leb_spec a b)
    | |- context [?a <? ?b] => destruct (Z.ltb_spec a b)
    end; done || lia.
Qed.

Context {Laws : PgTypesLaws}.

Lemma convertSimple_writable fuel arg v :
  convertSimpleArgument fuel arg = Done (inr v) -> exists t, arg_text v = inr t.
Proof.
  revert arg. induction fuel as [|f IH]; intros arg; [done|].
  cbn [convertSimpleArgument].
  destruct (is_nil arg); [intros [= <-]; by eexists|].
  destruct (is_nil_ptr arg) eqn:Hn; [intros [= <-]; by eexists|].
  destruct (is_json_ptr arg); [intros [=]; by eapply text_result_writable|].
  destruct (as_Valuer arg) as [value|] eqn:HV.
  { intros [= E]. destruct arg; simpl in *; try done; subst; by eapply Valuer_driver_value. }
  destruct (as_TextEncoder arg); [intros [=]; by eapply text_result_writable|].
  destruct (convert_native arg) as [r|] eqn:HN.
  { intros [= ->]. by eapply convert_native_writable. }
  destruct (DataTypeForValue arg) as [dt|].
  { destruct (dt_Set dt arg) as [e|w]; [done|]. destruct (as_TextEncoder w); [|done].
    intros [=]. by eapply text_result_writable. }
  destruct arg; try (by apply IH); destruct (stripNamedType _) as [stripped []]; try done; by apply IH.
Qed.

(** A field of a COPY row: the length word -1 for NULL, or the length and the
    bytes. *)
Definition copy_field (payload : option gostring) : gostring :=
  match payload with
  | None => be32 (-1)
  | Some p => be32 (int32 (Z.of_nat (length p))) ++ p
  end.

(** A computation of COPY data is local: what it does does not depend on the
    buffer, to which it appends one field. *)
Definition local_field (f : gostring -> comp (error + gostring)) : Prop :=
  (exists e, forall buf, f buf = Done (inl e))
  \/ (exists p, forall buf, f buf = Done (inr (buf ++ copy_field p)))
  \/ (exists msg, forall buf, f buf = Crash msg)
  \/ (forall buf, f buf = NoFuel).

Lemma local_null : local_field (fun buf => Done (inr (AppendInt32 buf (-1)))).
Proof. right; left. exists None. intros buf. by rewrite AppendInt32_be. Qed.

Lemma local_string s :
  local_field (fun buf => Done (inr (AppendInt32 buf (int32 (Z.of_nat (length s))) ++ s))).
Proof. right; left. exists (Some s). intros buf. by rewrite AppendInt32_be, <- app_assoc. Qed.

Lemma local_error e : local_field (fun _ => Done (inl e)).
Proof. left. by exists e. Qed.

Lemma local_framed v enc :
  as_BinaryEncoder v = Some enc \/ as_TextEncoder v = Some enc -> local_field (encode_framed enc).
Proof.
  intros Henc. assert (appends enc) as Happ.
  { destruct Henc; [by eapply BinaryEncoder_appends|by eapply TextEncoder_appends]. }
  unfold encode_framed, local_field. destruct Happ as [[e He]|[Hn|[p Hp]]].
  - left. exists e. intros buf. by rewrite He.
  - right; left. exists None. intros buf. by rewrite Hn, AppendInt32_be.
  - right; left. exists (Some p). intros buf. rewrite Hp, AppendInt32_be.
    rewrite (proj2 (Nat.ltb_ge _ _)) by (rewrite !length_app; lia).
    rewrite <- app_assoc, SetInt32_be by done. unfold copy_field. do 6 f_equal.
    rewrite !length_app. change (length (be32 _)) with 4%nat. lia.
Qed.

Lemma local_ext f g : (forall buf, f buf = g buf) -> local_field f -> local_field g.
Proof.
  intros E. unfold local_field. intros [[e He]|[[p Hp]|[[m Hm]|Hf]]];
    [left; exists e|right; left; exists p|right; right; left; exists m|right; right; right];
    intros buf; by rewrite <- E.
Qed.

Lemma encodePrepared_local fuel oid arg :
  local_field (fun buf => encodePreparedStatementArgument fuel buf oid arg).
Proof.
  revert arg. induction fuel as [|f IH]; intros arg; [by right; right; right|].
  cbn [encodePreparedStatementArgument].
  destruct (is_nil arg); [apply local_null|].
  destruct (as_BinaryEncoder arg) eqn:HB; [by apply (local_framed arg); left|].
  destruct (as_TextEncoder arg) eqn:HT; [by apply (local_framed arg); right|].
  destruct (as_string arg) as [s|]; [apply local_string|].
  destruct (is_nil_ptr arg); [apply local_null|].
  unfold encode_prepared_by_type. destruct (deref arg); [apply IH|].
  destruct (DataTypeForOID oid) as [dt|].
  - destruct (dt_Set dt arg) as [e|w].
    + destruct (as_Valuer arg) as [value|]; [|apply local_error].
      destruct (callValuerValue arg value); [apply local_error|]. apply IH.
    + destruct (as_BinaryEncoder w) eqn:E; [by apply (local_framed w); left|].
      right; right; left. by eexists.
  - destruct (stripNamedType arg) as [w []]; [apply IH|apply local_error].
Qed.

Lemma encodePrepared_field fuel buf oid arg r :
  encodePreparedStatementArgument fuel buf oid arg = Done (inr r) ->
  exists p, r = buf ++ copy_field p
    /\ forall buf', encodePreparedStatementArgument fuel buf' oid arg = Done (inr (buf' ++ copy_field p)).
Proof.
  intros E. destruct (encodePrepared_local fuel oid arg) as [[e He]|[[p Hp]|[[m Hm]|Hf]]];
    [by rewrite He in E| |by rewrite Hm in E|by rewrite Hf in E].
  exists p. split; [|done]. rewrite Hp in E. congruence.
Qed.

(** ** Properties of the extended query builder *)

Definition extends (a b : gostring) : Prop := exists t, b = a ++ t.

Lemma extends_refl a : extends a a.
Proof. exists []. by rewrite app_nil_r. Qed.

Lemma extends_trans a b c : extends a b -> extends b c -> extends a c.
Proof. intros [t ->] [u ->]. exists (t ++ u). by rewrite app_assoc. Qed.

Lemma eqb_encode_extends enc bytes r bytes' :
  appends enc -> eqb_encode enc bytes = Done (r, bytes') -> extends bytes bytes'.
Proof.
  unfold eqb_encode. intros [[e He]|[Hn|[p Hp]]].
  - rewrite He. intros [= <- <-]. apply extends_refl.
  - rewrite Hn. intros [= <- <-]. apply extends_refl.
  - rewrite Hp. destruct (_ <? _)%nat; [done|]. intros [= <- <-]. by exists p.
Qed.

Lemma encoder_for_appends fmt arg enc : encoder_for fmt arg = Some enc -> appends enc.
Proof.
  unfold encoder_for. repeat case_match; try done;
    [apply TextEncoder_appends | apply BinaryEncoder_appends].
Qed.

(** Encoding a value only appends to the shared byte buffer: the values encoded
    before it keep their bytes. *)
Lemma encodeExtended_extends fuel bytes oid fmt arg r bytes' :
  encodeExtendedParamValue fuel bytes oid fmt arg = Done (r, bytes') -> extends bytes bytes'.
Proof.
  revert arg. induction fuel as [|f IH]; intros arg; [done|].
  cbn [encodeExtendedParamValue].
  destruct (is_nil arg || is_nil_ptr arg); [intros [= <- <-]; apply extends_refl|].
  destruct (as_string arg); [intros [= <- <-]; apply extends_refl|].
  destruct (encoder_for fmt arg) eqn:E; [by apply eqb_encode_extends, (encoder_for_appends fmt arg)|].
  unfold encode_param_by_type.
  repeat (case_match; try (intros [= <- <-]; apply extends_refl); try apply IH);
    by apply eqb_encode_extends; eapply dt_TextEncoder_appends.
Qed.

Definition formats_of (oids : list Z) (args : list goval) : list Z :=
  zip_with chooseParameterFormatCode oids args.

Lemma append_params_ok fuel oids args eqb eqb' :
  append_params fuel oids args eqb = Done (None, eqb') ->
  (length args <= length oids)%nat
  /\ paramFormats eqb' = paramFormats eqb ++ formats_of oids args
  /\ (exists vs, length vs = length args /\ paramValues eqb' = paramValues eqb ++ vs)
  /\ resultFormats eqb' = resultFormats eqb
  /\ extends (paramValueBytes eqb) (paramValueBytes eqb').
Proof.
  revert oids eqb. induction args as [|arg args IH]; intros [|oid oids] eqb; cbn [append_params];
    try done.
  1,2: intros [= <-]; unfold formats_of; simpl; rewrite ?app_nil_r;
    repeat split; try lia; try apply extends_refl; exists []; by rewrite app_nil_r.
  unfold AppendParam. unfold comp_bind at 2.
  destruct (encodeExtendedParamValue _ _ _ _ _) as [[[e|v] bytes]| |] eqn:E; try done.
  cbn [comp_bind]. intros (Hlen & Hf & (vs & Hvs & Hv) & Hr & Hx)%IH. simpl in *.
  apply encodeExtended_extends in E. repeat split.
  - lia.
  - rewrite Hf, <- app_assoc. done.
  - exists (v :: vs). simpl. split; [lia|]. by rewrite Hv, <- app_assoc.
  - done.
  - by eapply extends_trans.
Qed.

Lemma append_result_formats_ok oids eqb :
  append_result_formats oids eqb
  = mkEqb (paramValues eqb) (paramValueBytes eqb) (paramFormats eqb)
      (resultFormats eqb ++ (ResultFormatCodeForOID <$> oids)).
Proof.
  unfold append_result_formats. revert eqb.
  induction oids as [|oid oids IH]; intros [pv pb pf rf]; simpl.
  - by rewrite app_nil_r.
  - rewrite IH. unfold AppendResultFormat; simpl. by rewrite <- app_assoc.
Qed.

(** ** Termination of the encoding

    The recursion goes through the value [Set] leaves in the registry's type,
    so it depends on whether that value has an encoder of the format.  A
    [driver.Value] is not itself a pointer, a named type or a Valuer. *)
Definition registry_encodes (oid fmt : Z) : Prop :=
  forall dt arg v, DataTypeForOID oid = Some dt -> dt_Set dt arg = inr v ->
    encoder_for fmt v <> None.

Definition valuers_plain : Prop :=
  forall v w, as_Valuer v = Some (inr w) -> as_Valuer w = None /\ convert_fuel w = 1%nat.

Section Termination.
Context (oid fmt : Z).
Hypothesis Hreg : registry_encodes oid fmt.
Hypothesis Hval : valuers_plain.

Lemma eqb_encode_ends enc bytes : eqb_encode enc bytes <> NoFuel.
Proof. unfold eqb_encode. repeat case_match; done. Qed.

(** A value with the encoder of the format needs no further round. *)
Lemma encodable_ends f bytes v :
  encoder_for fmt v <> None -> encodeExtendedParamValue (S f) bytes oid fmt v <> NoFuel.
Proof.
  intros H0. cbn [encodeExtendedParamValue]. repeat case_match; try done. apply eqb_encode_ends.
Qed.

(** What a round still owes is that its recursive calls end. *)
Lemma by_type_ends rec bytes arg :
  (forall t, deref arg = Some t -> rec t <> NoFuel) ->
  (forall v, encoder_for fmt v <> None -> rec v <> NoFuel) ->
  (forall v, as_Valuer arg = Some (inr v) -> rec v <> NoFuel) ->
  (as_Valuer arg <> None -> rec VNil <> NoFuel) ->
  (forall v, stripNamedType arg = (v, true) -> rec v <> NoFuel) ->
  encode_param_by_type rec bytes oid arg <> NoFuel.
Proof.
  intros H1 H2 H3 H4 H5. unfold encode_param_by_type.
  destruct (deref arg) eqn:Ed; [by apply H1|].
  destruct (DataTypeForOID oid) as [dt|] eqn:Edt.
  - destruct (dt_Set dt arg) as [e|w] eqn:Es; [|by apply H2; eapply Hreg].
    destruct (as_Valuer arg) as [value|]; [|done]. unfold callValuerValue.
    destruct arg; try (destruct value; [done|by apply H3]).
    destruct (elem_is_Valuer _); [by apply H4|]. destruct value; [done|by apply H3].
  - destruct (stripNamedType arg) as [v []] eqn:Est; repeat case_match; try done;
      try apply eqb_encode_ends; by apply H5.
Qed.

Lemma nil_ends f bytes : encodeExtendedParamValue (S f) bytes oid fmt VNil <> NoFuel.
Proof. done. Qed.

Lemma plain_ends f bytes v :
  as_Valuer v = None -> convert_fuel v = 1%nat ->
  encodeExtendedParamValue (S (S f)) bytes oid fmt v <> NoFuel.
Proof.
  intros HV Hc. remember (S f) as g eqn:Hg. cbn [encodeExtendedParamValue].
  repeat case_match; try done; [apply eqb_encode_ends|].
  apply by_type_ends; rewrite ?HV; try done.
  - intros t Ht. destruct v; try done. simpl in Hc. pose proof (convert_fuel_pos v). lia.
  - intros w Hw. subst g. by apply encodable_ends.
  - intros w Hw. apply stripped_fuel in Hw. pose proof (convert_fuel_pos w). lia.
Qed.

Lemma encodeExtended_ends f bytes arg :
  (convert_fuel arg + 2 <= f)%nat -> encodeExtendedParamValue f bytes oid fmt arg <> NoFuel.
Proof.
  revert arg. induction f as [|f IH]; intros arg Hf; [lia|].
  assert (exists g, f = S (S g)) as [g Hg].
  { pose proof (convert_fuel_pos arg). destruct f as [|[|g]]; [lia|lia|by eauto]. }
  cbn [encodeExtendedParamValue].
  repeat case_match; try done; [apply eqb_encode_ends|].
  apply by_type_ends.
  - intros t Ht. apply IH. destruct arg; try done. simplify_eq/=. lia.
  - intros v Hv. subst f. by apply encodable_ends.
  - intros v Hv. destruct (Hval _ _ Hv). subst f. by apply plain_ends.
  - intros _. subst f. apply nil_ends.
  - intros v Hv. apply IH. apply stripped_fuel in Hv. lia.
Qed.
End Termination.

(** A value that a round of [encodeExtendedParamValue] does not end with. *)
Definition unencodable (fmt : Z) (v : goval) : Prop :=
  is_nil v = false /\ is_nil_ptr v = false /\ as_string v = None /\ encoder_for fmt v = None.

Lemma unencodable_round oid fmt f bytes v :
  unencodable fmt v ->
  encodeExtendedParamValue (S f) bytes oid fmt v
  = encode_param_by_type (encodeExtendedParamValue f bytes oid fmt) bytes oid v.
Proof. intros (Hn & Hp & Hs & He). cbn [encodeExtendedParamValue]. by rewrite Hn, Hp, Hs, He. Qed.

(** A value the registry's type sets to itself is tried again and again. *)
Lemma encode_own_diverges oid fmt dt ty v f bytes :
  DataTypeForOID oid = Some dt -> deref v = None -> dt_Set dt v = inr (VPtr ty v) ->
  unencodable fmt v -> unencodable fmt (VPtr ty v) ->
  encodeExtendedParamValue f bytes oid fmt v = NoFuel /\ encodeExtendedParamValue f bytes oid fmt (VPtr ty v) = NoFuel.
Proof.
  intros Hdt Hd Hset Hv Hp. induction f as [|f [IHv IHp]]; [done|]. rewrite !unencodable_round by done.
  unfold encode_param_by_type. rewrite Hd, Hdt, Hset. done.
Qed.

(** ** Theorems *)

(** C36. Every argument is converted for the simple protocol within
    [convert_fuel] rounds, and a value it is converted to is one that
    [Sanitize] can write as a literal. *)
Theorem convertSimpleArgument_writable arg :
  convertSimpleArgument (convert_fuel arg) arg <> NoFuel
  /\ forall fuel v, convertSimpleArgument fuel arg = Done (inr v) -> exists t, arg_text v = inr t.
Proof. split; [by apply convertSimple_ends|]. intros fuel v. apply convertSimple_writable. Qed.

(** An integer of any of Go's kinds is sent with its value, as an int64;
    the unsigned values beyond int64 are refused. *)
Theorem convertSimpleArgument_int k z fuel :
  ikind_ok k z -> as_Valuer (VInt k None z) = None -> as_TextEncoder (VInt k None z) = None ->
  convertSimpleArgument (S fuel) (VInt k None z)
  = Done (if z <=? MaxInt64 then inr (VInt KInt64 None z) else inl (too_big z)).
Proof. apply convertSimple_int. Qed.

(** The loops that fill the extended query builder leave one format and one
    value per argument, the formats those of [chooseParameterFormatCode], one
    result format per column, and the bytes of earlier values untouched. *)
Theorem builder_fills fuel oids args rows eqb eqb' :
  append_params fuel oids args (eqb_Reset eqb) = Done (None, eqb') ->
  let out := append_result_formats rows eqb' in
  length (paramValues out) = length args
  /\ length (paramFormats out) = length args
  /\ paramFormats out = zip_with chooseParameterFormatCode oids args
  /\ resultFormats out = ResultFormatCodeForOID <$> rows.
Proof.
  intros (Hlen & Hf & (vs & Hvs & Hv) & Hr & _)%append_params_ok. simpl.
  rewrite append_result_formats_ok; simpl. rewrite Hf, Hv, Hr. simpl. unfold formats_of.
  rewrite length_zip_with. repeat split; [done|lia].
Qed.

(** C35. Whether encoding a parameter ends is up to the registered type of the
    parameter.  If every value its [Set] leaves has an encoder of the format, or
    if no type is registered, the recursion is bounded by the pointers of the
    argument, as long as Valuers return what package driver asks for.  If its
    [Set] accepts an argument and leaves a value, a pointer [VPtr ty v], that it
    accepts as well and that has no encoder of the format, the recursion does
    not end, however long it goes on. *)
Theorem encodeExtendedParamValue_terminates oid fmt :
  valuers_plain ->
  (registry_encodes oid fmt -> forall fuel bytes arg, (convert_fuel arg + 2 <= fuel)%nat ->
     encodeExtendedParamValue fuel bytes oid fmt arg <> NoFuel)
  /\ (forall dt arg ty v, DataTypeForOID oid = Some dt -> unencodable fmt arg -> deref arg = None ->
     dt_Set dt arg = inr (VPtr ty v) -> unencodable fmt (VPtr ty v) ->
     deref v = None -> dt_Set dt v = inr (VPtr ty v) -> unencodable fmt v ->
     forall fuel bytes, encodeExtendedParamValue fuel bytes oid fmt arg = NoFuel).
Proof.
  intros Hval. split; [intros Hr fuel bytes arg; by apply encodeExtended_ends|].
  intros dt arg ty v Hdt Ha Hda Hset Hp Hdv Hown Hv [|f] bytes; [done|]. rewrite unencodable_round by done.
  unfold encode_param_by_type. rewrite Hda, Hdt, Hset. by apply (encode_own_diverges _ _ dt).
Qed.

(** C34. A field of a COPY row is appended to the buffer, as the length word -1
    or as the length of the payload and the payload, and the payload does not
    depend on what the buffer holds. *)
Theorem encodePreparedStatementArgument_framed fuel buf oid arg r :
  encodePreparedStatementArgument fuel buf oid arg = Done (inr r) ->
  exists p, r = buf ++ copy_field p
    /\ forall buf', encodePreparedStatementArgument fuel buf' oid arg = Done (inr (buf' ++ copy_field p)).
Proof. apply encodePrepared_field. Qed.

End Arguments.

(** ** A small registry

    A data type [int4] that encodes in both formats, one that encodes in none,
    and a type [v] whose values are Valuers, to run the definitions on. *)
Module Sample.

Definition append_to (payload : gostring) : encoder :=
  fun buf => inr (Some (default [] buf ++ payload)).

Definition binary (v : goval) : option encoder :=
  match v with
  | VExt ty z => if bool_decide (ty = str "*pgtype.Int4") then Some (append_to (be32 z)) else None
  | _ => None
  end.
Definition text (v : goval) : option encoder :=
  match v with
  | VExt ty z => if bool_decide (ty = str "*pgtype.Int4") then Some (append_to (FormatInt z)) else None
  | _ => None
  end.
Definition valuer (v : goval) : option (error + goval) :=
  match v with
  | VExt ty z => if bool_decide (ty = str "v") then Some (inr (VInt KInt64 None z)) else None
  | _ => None
  end.
Inductive data_type := Int4 | Opaque.

Definition set_int4 (v : goval) : error + goval :=
  match v with
  | VInt _ _ z => inr (VExt (str "*pgtype.Int4") z)
  | VBytes _ b => inr (VExt (str "*pgtype.Int4") (Z.of_nat (length b)))
  | _ => inl (errors_New "cannot convert to Int4")
  end.

Definition set (dt : data_type) (v : goval) : error + goval :=
  match dt, v with
  | Int4, _ => set_int4 v
  | Opaque, (VInt _ _ z | VExt _ z) => inr (VPtr (str "Opaque") (VExt (str "Opaque") z))
  | Opaque, _ => inl (errors_New "cannot convert to Opaque")
  end.

#[export] Instance types : PgTypes := {|
  as_BinaryEncoder := binary;
  as_TextEncoder := text;
  as_Valuer := valuer;
  as_ParamFormatPreferrer _ := None;
  elem_is_Valuer ty := bool_decide (ty = str "v");
  json_EncodeText _ := append_to (str "{}");
  DataType := data_type;
  DataTypeForOID oid := if oid =? 23 then Some Int4 else if oid =? 600 then Some Opaque else None;
  DataTypeForValue _ := None;
  dt_Set := set;
  dt_TextEncoder _ := None;
  ParamFormatCodeForOID oid := if oid =? 23 then 1 else 0;
  ResultFormatCodeForOID oid := if oid =? 23 then 1 else 0;
  AppendInt16 buf n := buf ++ be16 n;
  AppendInt32 buf n := buf ++ be32 n;
  SetInt32 buf at_ n := take at_ buf ++ be32 n ++ drop (at_ + 4) buf
|}.

Lemma append_to_appends p : appends (append_to p).
Proof. right; right. by exists p. Qed.

#[export] Instance laws : PgTypesLaws.
Proof.
  split; try done.
  - intros [] enc; try done. simpl. case_bool_decide; intros [= <-]. apply append_to_appends.
  - intros [] enc; try done. simpl. case_bool_decide; intros [= <-]. apply append_to_appends.
  - intros a old b n Hold. cbn [SetInt32 types].
    rewrite take_app_length. do 2 f_equal.
    rewrite app_assoc, drop_app_length'; [done|]. rewrite length_app. lia.
  - intros [] w; try done. simpl. case_bool_decide; intros [= <-]. simpl. eauto.
Qed.

Lemma registry fmt : fmt = 0 \/ fmt = 1 -> registry_encodes 23 fmt.
Proof. intros Hf dt [] v [= <-]; try done; intros [= <-]; by destruct Hf as [-> | ->]. Qed.

Lemma plain : valuers_plain.
Proof. intros [] w; try done. simpl. case_bool_decide; by intros [= <-]. Qed.

End Sample.

#[local] Existing Instance Sample.types.
#[local] Existing Instance Sample.laws.

Lemma convertSimpleArgument_writable_witness :
  convertSimpleArgument 3 (VPtr (str "*int") (VPtr (str "int") (VInt KInt None 7)))
  = Done (inr (VInt KInt64 None 7))
  /\ exists t, arg_text (VInt KInt64 None 7) = inr t.
Proof.
  split; [reflexivity|].
  apply (proj2 (convertSimpleArgument_writable
           (VPtr (str "*int") (VPtr (str "int") (VInt KInt None 7)))) 3%nat).
  reflexivity.
Defined.

Lemma convertSimpleArgument_int_witness :
  convertSimpleArgument 1 (VInt KUint64 None (2 ^ 63)) = Done (inl (too_big (2 ^ 63))).
Proof.
  refine (convertSimpleArgument_int KUint64 (2 ^ 63) 0 _ _ _); [|reflexivity..].
  unfold ikind_ok; simpl; lia.
Defined.

Lemma builder_fills_witness :
  exists eqb', append_params 5 [23; 25] [VInt KInt None 7; VNil] (eqb_Reset (mkEqb [] [] [] []))
    = Done (None, eqb')
  /\ length (paramValues (append_result_formats [23] eqb')) = 2%nat.
Proof.
  eexists. split; [reflexivity|].
  refine (proj1 (builder_fills 5 [23; 25] [VInt KInt None 7; VNil] [23] (mkEqb [] [] [] []) _ _)).
  reflexivity.
Defined.

Lemma encodeExtendedParamValue_terminates_witness :
  encodeExtendedParamValue 4 [] 23 1 (VPtr (str "v") (VExt (str "v") 7)) <> NoFuel
  /\ (forall fuel bytes, encodeExtendedParamValue fuel bytes 600 1 (VInt KInt None 7) = NoFuel).
Proof.
  split.
  - apply (encodeExtendedParamValue_terminates 23 1 Sample.plain); [|simpl; lia].
    apply Sample.registry. by right.
  - apply (proj2 (encodeExtendedParamValue_terminates 600 1 Sample.plain) Sample.Opaque _ (str "Opaque")
      (VExt (str "Opaque") 7)); done.
Defined.

Lemma encodePreparedStatementArgument_framed_witness :
  exists p, be32 4 ++ be32 7 = [] ++ copy_field p
    /\ forall buf', encodePreparedStatementArgument 2 buf' 23 (VInt KInt None 7)
         = Done (inr (buf' ++ copy_field p)).
Proof.
  apply (encodePreparedStatementArgument_framed 2 [] 23 (VInt KInt None 7)).
  reflexivity.
Defined.
