(* ===== verification/Logger.v ===== *)
(** Logging (logger.go, log/*/adapter.go): the levels and their names, the
    truncation of query arguments, and the adapters to logging packages. *)

From S2P Require Import Prelude GoStd GoVal.

Local Open Scope Z_scope.

(** ** logger.go *)

Definition LogLevelTrace : Z := 6.
Definition LogLevelDebug : Z := 5.
Definition LogLevelInfo : Z := 4.
Definition LogLevelWarn : Z := 3.
Definition LogLevelError : Z := 2.
Definition LogLevelNone : Z := 1.

Definition LogLevel_String (ll : Z) : gostring :=
  if ll =? LogLevelTrace then str "trace"
  else if ll =? LogLevelDebug then str "debug"
  else if ll =? LogLevelInfo then str "info"
  else if ll =? LogLevelWarn then str "warn"
  else if ll =? LogLevelError then str "error"
  else if ll =? LogLevelNone then str "none"
  else str "invalid level " ++ FormatInt ll.

Definition LogLevelFromString (s : gostring) : error + Z :=
  if bool_decide (s = str "trace") then inr LogLevelTrace
  else if bool_decide (s = str "debug") then inr LogLevelDebug
  else if bool_decide (s = str "info") then inr LogLevelInfo
  else if bool_decide (s = str "warn") then inr LogLevelWarn
  else if bool_decide (s = str "error") then inr LogLevelError
  else if bool_decide (s = str "none") then inr LogLevelNone
  else inl (errors_New "invalid log level").

Definition truncated (shown : gostring) (total : nat) : gostring :=
  shown ++ str " (truncated " ++ FormatInt (Z.of_nat total - 64) ++ str " bytes)".

(** The type switch has the cases [[]byte] and [string]: values of defined
    types with these kinds are logged as they are. *)
Definition logQueryArg (a : goval) : goval :=
  match a with
  | VBytes None v =>
      VString None (if (length v <? 64)%nat then EncodeToString v
                    else truncated (EncodeToString (take 64 v)) (length v))
  | VString None v =>
      if (64 <? length v)%nat then VString None (truncated (take 64 v) (length v)) else a
  | _ => a
  end.

Definition logQueryArgs (args : list goval) : list goval := map logQueryArg args.

(** ** The adapters

    An adapter calls one method of the logger it wraps with the message and the
    fields.  [data] is in the order in which Go ranges over the map; a nil map
    is empty.  The fields are in the order they are handed over. *)
Section Adapters.
Context {V : Type}.

Inductive log_method := MDebug | MInfo | MWarn | MError | MPlain.

Inductive log_field :=
| FData (k : gostring) (v : V)
| FLevel (k : gostring) (level : Z)       (** the level itself *)
| FLevelName (k : gostring) (level : Z)   (** its name, by [String] *)
| FText (k s : gostring).

Record log_call := mkCall { method : log_method; message : option gostring; fields : list log_field }.

Definition PGX_LOG_LEVEL : gostring := str "PGX_LOG_LEVEL".
Definition INVALID_PGX_LOG_LEVEL : gostring := str "INVALID_PGX_LOG_LEVEL".

Definition data_fields (data : list (gostring * V)) : list log_field := map (fun '(k, v) => FData k v) data.

Definition kitlog_Log (level : Z) (msg : gostring) (data : list (gostring * V)) : log_call :=
  let logger := data_fields data in
  let text := [FText (str "msg") msg] in
  if level =? LogLevelTrace then mkCall MPlain None (logger ++ FLevel PGX_LOG_LEVEL level :: text)
  else if level =? LogLevelDebug then mkCall MDebug None (logger ++ text)
  else if level =? LogLevelInfo then mkCall MInfo None (logger ++ text)
  else if level =? LogLevelWarn then mkCall MWarn None (logger ++ text)
  else if level =? LogLevelError then mkCall MError None (logger ++ text)
  else mkCall MPlain None (logger ++ [FLevel INVALID_PGX_LOG_LEVEL level; FText (str "error") msg]).

Definition log15_Log (level : Z) (msg : gostring) (data : list (gostring * V)) : log_call :=
  let logArgs := data_fields data in
  if level =? LogLevelTrace then mkCall MDebug (Some msg) (logArgs ++ [FLevel PGX_LOG_LEVEL level])
  else if level =? LogLevelDebug then mkCall MDebug (Some msg) logArgs
  else if level =? LogLevelInfo then mkCall MInfo (Some msg) logArgs
  else if level =? LogLevelWarn then mkCall MWarn (Some msg) logArgs
  else if level =? LogLevelError then mkCall MError (Some msg) logArgs
  else mkCall MError (Some msg) (logArgs ++ [FLevel INVALID_PGX_LOG_LEVEL level]).

Definition logrus_Log (level : Z) (msg : gostring) (data : list (gostring * V)) : log_call :=
  let logger := data_fields data in
  if level =? LogLevelTrace then mkCall MDebug (Some msg) (logger ++ [FLevel PGX_LOG_LEVEL level])
  else if level =? LogLevelDebug then mkCall MDebug (Some msg) logger
  else if level =? LogLevelInfo then mkCall MInfo (Some msg) logger
  else if level =? LogLevelWarn then mkCall MWarn (Some msg) logger
  else if level =? LogLevelError then mkCall MError (Some msg) logger
  else mkCall MError (Some msg) (logger ++ [FLevel INVALID_PGX_LOG_LEVEL level]).

Definition zap_Log (level : Z) (msg : gostring) (data : list (gostring * V)) : log_call :=
  let fields := data_fields data in
  if level =? LogLevelTrace then mkCall MDebug (Some msg) (fields ++ [FLevelName PGX_LOG_LEVEL level])
  else if level =? LogLevelDebug then mkCall MDebug (Some msg) fields
  else if level =? LogLevelInfo then mkCall MInfo (Some msg) fields
  else if level =? LogLevelWarn then mkCall MWarn (Some msg) fields
  else if level =? LogLevelError then mkCall MError (Some msg) fields
  else mkCall MError (Some msg) (fields ++ [FLevelName PGX_LOG_LEVEL level]).

(** The arguments given to [testing.TB.Log]; [fmt_v] is the verb %v. *)
Inductive test_arg := TLevel (level : Z) | TText (s : gostring).

Definition testing_Log (fmt_v : V -> gostring) (level : Z) (msg : gostring) (data : list (gostring * V))
  : list test_arg :=
  [TLevel level; TText msg] ++ map (fun '(k, v) => TText (k ++ str "=" ++ fmt_v v)) data.
End Adapters.

Arguments log_field : clear implicits.
Arguments log_call : clear implicits.

(** The adapter for zerolog.  [zlog] are the loggers and contexts of zerolog,
    which [With] and [Logger] turn into each other; [Str] adds a field, [Ctx] is
    the logger of a context, [Enabled] whether a level is logged. *)
Section Zerolog.
Context {V zlog context : Type}.
Context (Str : gostring -> gostring -> zlog -> zlog) (Ctx : context -> zlog).

Inductive zlevel := ZNoLevel | ZDebug | ZInfo | ZWarn | ZError.
Context (Enabled : zlog -> zlevel -> bool).

Record zeroLogger := mkZero {
  z_logger : zlog;
  withFunc : option (context -> zlog -> zlog);
  fromContext : bool;
  skipModule : bool
}.

Inductive zoption := WithContextFunc (f : context -> zlog -> zlog) | WithoutPGXModule.

Definition zapply (l : zeroLogger) (o : zoption) : zeroLogger :=
  match o with
  | WithContextFunc f => mkZero (z_logger l) (Some f) (fromContext l) (skipModule l)
  | WithoutPGXModule => mkZero (z_logger l) (withFunc l) (fromContext l) true
  end.

Definition zinit (options : list zoption) (l : zeroLogger) : zeroLogger :=
  let l := fold_left zapply options l in
  if skipModule l then l
  else mkZero (Str (str "module") (str "pgx") (z_logger l)) (withFunc l) (fromContext l) (skipModule l).

Definition zNewLogger (logger : zlog) (options : list zoption) : zeroLogger :=
  zinit options (mkZero logger None false false).

(** [zero] is the zero value of a zerolog logger. *)
Definition zNewContextLogger (zero : zlog) (options : list zoption) : zeroLogger :=
  zinit options (mkZero zero None true false).

Definition zerolog_level (level : Z) : zlevel :=
  if level =? LogLevelNone then ZNoLevel
  else if level =? LogLevelError then ZError
  else if level =? LogLevelWarn then ZWarn
  else if level =? LogLevelInfo then ZInfo
  else if level =? LogLevelDebug then ZDebug
  else ZDebug.

(** What is logged, if anything: the logger, the level, the field added to the
    event, the data and the message. *)
Record zevent := mkZevent {
  ze_logger : zlog; ze_level : zlevel; ze_module : bool; ze_data : list (gostring * V); ze_msg : gostring
}.

Definition zerolog_Log (l : zeroLogger) (ctx : context) (level : Z) (msg : gostring) (data : list (gostring * V))
  : option zevent :=
  let zctx := if fromContext l then Ctx ctx else z_logger l in
  let pgxlog := match withFunc l with Some f => f ctx zctx | None => zctx end in
  let lvl := zerolog_level level in
  if Enabled pgxlog lvl then Some (mkZevent pgxlog lvl (fromContext l && negb (skipModule l)) data msg)
  else None.
End Zerolog.

(** ** Theorems *)

(** The names of the six levels read back as the levels, every other text
    is refused, and a text that is accepted is the name of its level. *)
Theorem LogLevel_roundtrip :
  (forall ll, 1 <= ll <= 6 -> LogLevelFromString (LogLevel_String ll) = inr ll)
  /\ (forall s ll, LogLevelFromString s = inr ll -> LogLevel_String ll = s /\ 1 <= ll <= 6).
Proof.
  split.
  - intros ll H. assert (ll = 1 \/ ll = 2 \/ ll = 3 \/ ll = 4 \/ ll = 5 \/ ll = 6) as E by lia.
    by repeat destruct E as [->|E]; [..|subst].
  - intros s ll. unfold LogLevelFromString.
    repeat (case_bool_decide; [intros [= <-]; subst; split; [done|vm_compute; intuition discriminate]|]).
    done.
Qed.

(** The four levels that loggers share reach the same method through the
    adapters, and the data is handed over with nothing but the message. *)
Theorem adapters_agree {V} level msg (data : list (gostring * V)) :
  LogLevelError <= level <= LogLevelDebug ->
  exists m, kitlog_Log level msg data = mkCall m None (data_fields data ++ [FText (str "msg") msg])
  /\ Forall (fun f => f level msg data = mkCall m (Some msg) (data_fields data)) [log15_Log; logrus_Log; zap_Log].
Proof.
  unfold LogLevelError, LogLevelDebug. intros H.
  assert (level = 2 \/ level = 3 \/ level = 4 \/ level = 5) as E by lia.
  destruct E as [->|[->|[->| ->]]]; eexists; (split; [reflexivity|]); repeat constructor.
Qed.

Section ZerologModule.
Context {V zlog context : Type} (Str : gostring -> gostring -> zlog -> zlog) (Ctx : context -> zlog).
Context (Enabled : zlog -> zlevel -> bool).
(** How often a logger has the field that names the module. *)
Context (modules : zlog -> nat).
Hypothesis Str_module : forall z, modules (Str (str "module") (str "pgx") z) = S (modules z).

Definition zskips (options : list (@zoption zlog context)) : bool :=
  existsb (fun o => match o with WithoutPGXModule => true | _ => false end) options.

(** The functions among the options leave the field alone. *)
Definition zpreserves (options : list (@zoption zlog context)) : Prop :=
  Forall (fun o => match o with WithContextFunc f => forall c z, modules (f c z) = modules z | _ => True end) options.

Lemma zapply_all options l :
  zpreserves options -> (forall f, withFunc l = Some f -> forall c z, modules (f c z) = modules z) ->
  let l' := fold_left zapply options l in
  z_logger l' = z_logger l /\ fromContext l' = fromContext l /\ skipModule l' = skipModule l || zskips options
  /\ (forall f, withFunc l' = Some f -> forall c z, modules (f c z) = modules z).
Proof.
  revert l. induction options as [|o options IH]; intros l Hp Hl; simpl.
  { by rewrite orb_false_r. }
  apply Forall_cons in Hp as [Ho Hp]. destruct (IH (zapply l o) Hp) as (E1 & E2 & E3 & E4).
  { destruct o; simpl; [by intros ? [= <-]|done]. }
  rewrite E1, E2, E3. split_and!; [by destruct o..| |done].
  destruct o; simpl; [done|]. by rewrite orb_true_r.
Qed.

(** Whichever way the logger is made, an entry carries the name of the module
    once more than the logger of the application does, unless the option
    says that it should not. *)
Theorem zerolog_module options base ctx level msg (data : list (gostring * V)) e :
  zpreserves options ->
  (zerolog_Log Ctx Enabled (zNewLogger Str base options) ctx level msg data = Some e ->
   (modules (ze_logger e) + Nat.b2n (ze_module e) = modules base + Nat.b2n (negb (zskips options)))%nat)
  /\ (zerolog_Log Ctx Enabled (zNewContextLogger Str base options) ctx level msg data = Some e ->
   (modules (ze_logger e) + Nat.b2n (ze_module e) = modules (Ctx ctx) + Nat.b2n (negb (zskips options)))%nat).
Proof.
  intros Hp. unfold zNewLogger, zNewContextLogger, zinit, zerolog_Log.
  destruct (zapply_all options (mkZero base None false false) Hp) as (A1 & A2 & A3 & A4); [done|].
  destruct (zapply_all options (mkZero base None true false) Hp) as (B1 & B2 & B3 & B4); [done|].
  assert (forall (o : option (context -> zlog -> zlog)) z,
    (forall f, o = Some f -> forall c z, modules (f c z) = modules z) ->
    modules (match o with Some f => f ctx z | None => z end) = modules z) as Hw.
  { intros [f|] z Hf; [by apply Hf|done]. }
  simpl in A1, A2, A3, B1, B2, B3. rewrite A3, B3.
  split; (destruct (zskips options); simpl; rewrite ?A1, ?A2, ?A3, ?B2, ?B3;
    destruct (Enabled _ _); intros [= <-]; simpl; rewrite Hw by done; rewrite ?Str_module; lia).
Qed.
End ZerologModule.
