(* ===== verification/PgConn.v ===== *)
(** What lies outside the repository on the way to the server: package pgconn
    (connections and result readers), package stmtcache, the scan plans of
    pgtype, and Go's map iteration order.

    The outside world is an abstract state [net].  Getters read it; every other
    call is a [request] that [serve] answers, and on the way the outside may
    deliver notifications to the connection's handler. *)

From S2P Require Import Prelude GoStd GoVal Effects Values.

Local Open Scope Z_scope.

(** ** Data *)

(** A [context.Context]: only its identity and what the driver wraps around it
    matter. *)
Inductive context :=
| Background
| UserContext (id : Z)
| WithCancelled (parent : context)
| WithTimeout (parent : context) (nanoseconds : Z).

#[export] Instance context_eq_dec : EqDecision context.
Proof. solve_decision. Defined.

Record FieldDescription := mkFieldDescription {
  fd_Name : gostring;
  DataTypeOID : Z;
  DataTypeSize : Z;
  TypeModifier : Z;
  Format : Z
}.

#[export] Instance FieldDescription_eq_dec : EqDecision FieldDescription.
Proof. solve_decision. Defined.

Record StatementDescription := mkSD {
  sd_Name : gostring;
  sd_SQL : gostring;
  ParamOIDs : list Z;
  Fields : list FieldDescription
}.

#[export] Instance StatementDescription_eq_dec : EqDecision StatementDescription.
Proof. solve_decision. Defined.

(** [pgconn.CommandTag] is a [[]byte]; the nil tag of an error is empty. *)
Abbreviation CommandTag := gostring.

Record Notification := mkNotification { PID_ : Z; Channel : gostring; Payload : gostring }.

Inductive cache_mode := ModePrepare | ModeDescribe.

#[export] Instance cache_mode_eq_dec : EqDecision cache_mode.
Proof. solve_decision. Defined.

(** Handles of objects of the outside: result readers, caches, scan plans. *)
Record mrr := Mrr { mrr_id : Z }.
Record rr := Rr { rr_id : Z }.
Record cache := Cache { cache_id : Z }.
Record plan := Plan { plan_id : Z }.

#[export] Instance mrr_eq_dec : EqDecision mrr.
Proof. solve_decision. Defined.
#[export] Instance rr_eq_dec : EqDecision rr.
Proof. solve_decision. Defined.
#[export] Instance cache_eq_dec : EqDecision cache.
Proof. solve_decision. Defined.

(** An item of a [pgconn.Batch]. *)
Inductive batch_entry :=
| BatchExecParams (sql : gostring) (values : list (option gostring)) (oids formats resultFormats : list Z)
| BatchExecPrepared (name : gostring) (values : list (option gostring)) (formats resultFormats : list Z).

(** [BuildStatementCacheFunc]: the one [ParseConfig] builds, or a user's. *)
Inductive cache_builder :=
| NewCache (mode : cache_mode) (cap : Z)
| UserCache (id : Z).

(** ** Requests and replies *)

Inductive request :=
| RClose (ctx : context)
| RPrepare (ctx : context) (name sql : gostring)
| RExec (ctx : context) (sql : gostring)
| RExecParams (ctx : context) (sql : gostring) (values : list (option gostring))
    (oids formats resultFormats : list Z)
| RExecPrepared (ctx : context) (name : gostring) (values : list (option gostring))
    (formats resultFormats : list Z)
| RExecBatch (ctx : context) (items : list batch_entry)
| RWaitForNotification (ctx : context)
| RNextResult (m : mrr)
| RMrrClose (m : mrr)
| RReadAll (m : mrr)
| RNextRow (r : rr)
| RRrClose (r : rr)
| RRead (r : rr)
| RCacheBuild (b : cache_builder)
| RCacheGet (c : cache) (ctx : context) (sql : gostring)
| RStatementErrored (c : cache) (sql : gostring) (err : error)
| RPlanScan (oid fmt : Z) (dst : goval)
| RScanInto (p : plan) (oid fmt : Z) (buf : option gostring) (dst : goval)
| RConnInfoScan (oid fmt : Z) (buf : option gostring) (dst : goval)
| RMapKeys (keys : list gostring)
| RCopyStart (ctx : context) (sql : gostring)
| RCopyWrite (chunk : gostring)
| RCopyEnd (failed : option error).

(** A reply of a scan is the value left in the destination; [RCopyWrite] tells
    whether the reading end took the chunk. *)
Definition reply (r : request) : Type :=
  match r with
  | RClose _ => option error
  | RPrepare _ _ _ => error + StatementDescription
  | RExec _ _ => mrr
  | RExecParams _ _ _ _ _ _ => rr
  | RExecPrepared _ _ _ _ _ => rr
  | RExecBatch _ _ => mrr
  | RWaitForNotification _ => option error
  | RNextResult _ => bool
  | RMrrClose _ => option error
  | RReadAll _ => option error
  | RNextRow _ => bool
  | RRrClose _ => CommandTag * option error
  | RRead _ => CommandTag * option error
  | RCacheBuild _ => cache
  | RCacheGet _ _ _ => error + StatementDescription
  | RStatementErrored _ _ _ => unit
  | RPlanScan _ _ _ => plan
  | RScanInto _ _ _ _ _ => error + goval
  | RConnInfoScan _ _ _ _ => error + goval
  | RMapKeys _ => list gostring
  | RCopyStart _ _ => unit
  | RCopyWrite _ => option error
  | RCopyEnd _ => CommandTag * option error
  end.

Class PgConn := {
  net : Type;
  pg_IsClosed : net -> bool;
  pg_IsBusy : net -> bool;
  PID : net -> Z;
  TxStatus : net -> ascii;
  ParameterStatus : net -> gostring -> gostring;
  ResultReader : net -> mrr -> rr;
  rr_FieldDescriptions : net -> rr -> list FieldDescription;
  rr_Values : net -> rr -> list (option gostring);
  cache_Mode : net -> cache -> cache_mode;
  cache_Cap : net -> cache -> Z;
  (** the number at the end of a command tag *)
  RowsAffected : CommandTag -> Z;
  serve : forall r : request, net -> reply r * list Notification * net
}.

(** The decoders of pgtype's values.  A decoder decodes into the registry's
    value and the result is what [Get] returns then; [dt_Get] is what [Get]
    returns on a registry value nothing was decoded into. *)
Class PgDecoders `{PgTypes} `{PgConn} := {
  dt_TextDecoder : DataType -> option (gostring -> error + goval);
  dt_BinaryDecoder : DataType -> option (gostring -> error + goval);
  GenericText_Decode : gostring -> error + goval;
  GenericBinary_Decode : gostring -> error + goval;
  dt_Get : net -> DataType -> goval
}.

(** ** Documented behaviour the proofs rely on *)

(** [replies r n a n']: asked [r] in the state [n], the connection answers [a]
    and is in the state [n']. *)
Definition replies `{PgConn} (r : request) (n : net) (a : reply r) (n' : net) : Prop :=
  (serve r n).1.1 = a /\ (serve r n).2 = n'.

Class PgConnLaws `{PgConn} := {
  (** a connection that was closed stays closed, whatever is asked of it *)
  Close_closes ctx n : pg_IsClosed (serve (RClose ctx) n).2 = true;
  closed_stays r n : pg_IsClosed n = true -> pg_IsClosed (serve r n).2 = true;
  (** ranging over a map visits every key once *)
  map_keys_all keys n : (serve (RMapKeys keys) n).1.1 ≡ₚ keys
}.
