(* ===== verification/World.v ===== *)
(** The state of one connection and its transactions, and the primitive steps
    on it: calls to the outside, notifications, logging (conn.go, parts of
    tx.go).

    The objects that are shared by reference (transactions and savepoints) live
    in heaps of the state; their handles are indices. *)

From S2P Require Import Prelude GoStd GoVal Effects Values PgConn Logger.

Local Open Scope Z_scope.

(** ** Configuration *)

(** The part of [pgconn.Config] the driver looks at.  [OnNotification] is
    whether the application supplied a handler. *)
Record PgConfig := mkPgConfig {
  Host : gostring;
  Port : Z;
  Database : gostring;
  User : gostring;
  RuntimeParams : gmap gostring gostring;
  OnNotification : bool
}.

Record ConnConfig := mkConnConfig {
  Config : PgConfig;
  cc_Logger : bool;
  cc_LogLevel : Z;
  connString : gostring;
  BuildStatementCache : option cache_builder;
  PreferSimpleProtocol : bool;
  createdByParseConfig : bool
}.

(** ** Objects *)

(** The fields of [Conn].  [preallocatedRows] is the number of result sets not
    yet handed out; they are all zero, and [wbuf], which stays empty, is left
    out with the channels nobody uses. *)
Record Conn := mkConn {
  config : ConnConfig;
  preparedStatements : gmap gostring StatementDescription;
  stmtcache : option cache;
  logger : bool;
  logLevel : Z;
  notifications : list Notification;
  bufferingNotifications : bool;
  preallocatedRows : nat;
  eqb : extendedQueryBuilder
}.

Record dbTx := mkDbTx { tx_savepointNum : Z; tx_closed : bool }.

(** Savepoints are only made by [dbTx.Begin], so that their [tx] is always a
    [dbTx]. *)
Record dbSavepoint := mkDbSavepoint { sp_tx : nat; sp_savepointNum : Z; sp_closed : bool }.

(** The result set of a query; the zero value is that of a result set without
    a connection.  [rows_logger] is whether [logger] and [conn] are set, which
    they are together. *)
Record connRows := mkConnRows {
  rows_ctx : context;
  rows_logger : bool;
  values : list (option gostring);
  rowCount : Z;
  rows_err : option error;
  commandTag : CommandTag;
  sql : gostring;
  args : list goval;
  rows_closed : bool;
  resultReader : option rr;
  multiResultReader : option mrr;
  scanPlans : option (list plan)
}.

(** [&connRows{closed: true, err: err}] *)
Definition closedRows (e : error) : connRows :=
  mkConnRows Background false [] 0 (Some e) [] [] [] true None None None.

Record batchItem := mkBatchItem { query : gostring; arguments : list goval }.

(** [br_live] is whether [ctx] and [conn] are set. *)
Record batchResults := mkBatchResults {
  br_ctx : context;
  br_live : bool;
  br_mrr : option mrr;
  br_err : option error;
  br_b : option nat;
  br_ix : nat
}.

(** ** Logging data *)

(** Durations are not modelled: [LTime] stands for any. *)
Inductive logval :=
| LErr (e : error)
| LStr (s : gostring)
| LStrs (l : list gostring)
| LArgs (l : list goval)
| LTag (t : CommandTag)
| LInt (z : Z)
| LTime.

Definition logdata : Type := list (gostring * logval).

(** What the connection has done: requests to the outside and calls of the
    logger, in order. *)
Inductive event :=
| Sent (r : request)
| Logged (ctx : context) (lvl : Z) (msg : gostring) (data : logdata).

Section World.
Context `{PgConn}.

Record world := mkWorld {
  conn : Conn;
  outside : net;
  trace : list event;
  txs : list dbTx;
  sps : list dbSavepoint;
  rws : list connRows;
  batches : list (list batchItem);
  brs : list batchResults
}.

Definition set_conn (c : Conn) (w : world) : world :=
  mkWorld c (outside w) (trace w) (txs w) (sps w) (rws w) (batches w) (brs w).
Definition record_event (e : event) (w : world) : world :=
  mkWorld (conn w) (outside w) (trace w ++ [e]) (txs w) (sps w) (rws w) (batches w) (brs w).
Definition set_txs (l : list dbTx) (w : world) : world :=
  mkWorld (conn w) (outside w) (trace w) l (sps w) (rws w) (batches w) (brs w).
Definition set_sps (l : list dbSavepoint) (w : world) : world :=
  mkWorld (conn w) (outside w) (trace w) (txs w) l (rws w) (batches w) (brs w).
Definition set_rws (l : list connRows) (w : world) : world :=
  mkWorld (conn w) (outside w) (trace w) (txs w) (sps w) l (batches w) (brs w).
Definition set_batches (l : list (list batchItem)) (w : world) : world :=
  mkWorld (conn w) (outside w) (trace w) (txs w) (sps w) (rws w) l (brs w).
Definition set_brs (l : list batchResults) (w : world) : world :=
  mkWorld (conn w) (outside w) (trace w) (txs w) (sps w) (rws w) (batches w) l.

(** ** Pointers

    A pointer is an index into the heap of its type. *)
Definition read_at {A} (heap : world -> list A) (p : nat) : M world A := fun w =>
  match heap w !! p with
  | Some a => Ok a w
  | None => Panicked nil_dereference w
  end.

Definition read_rows : nat -> M world connRows := read_at rws.
Definition write_rows (p : nat) (x : connRows) : M world unit :=
  modify (fun w => set_rws (<[p := x]> (rws w)) w).
Definition update_rows (p : nat) (f : connRows -> connRows) : M world unit :=
  let* x := read_rows p in write_rows p (f x).
Definition new_rows (x : connRows) : M world nat := fun w =>
  Ok (length (rws w)) (set_rws (rws w ++ [x]) w).

Definition read_batch : nat -> M world (list batchItem) := read_at batches.
Definition write_batch (p : nat) (l : list batchItem) : M world unit :=
  modify (fun w => set_batches (<[p := l]> (batches w)) w).

Definition read_br : nat -> M world batchResults := read_at brs.
Definition write_br (p : nat) (x : batchResults) : M world unit :=
  modify (fun w => set_brs (<[p := x]> (brs w)) w).
Definition new_br (x : batchResults) : M world nat := fun w =>
  Ok (length (brs w)) (set_brs (brs w ++ [x]) w).

(** ** Setters of [Conn] *)

Definition with_preparedStatements (m : gmap gostring StatementDescription) (c : Conn) : Conn :=
  mkConn (config c) m (stmtcache c) (logger c) (logLevel c) (notifications c)
    (bufferingNotifications c) (preallocatedRows c) (eqb c).
Definition with_notifications (l : list Notification) (c : Conn) : Conn :=
  mkConn (config c) (preparedStatements c) (stmtcache c) (logger c) (logLevel c) l
    (bufferingNotifications c) (preallocatedRows c) (eqb c).
Definition with_preallocatedRows (n : nat) (c : Conn) : Conn :=
  mkConn (config c) (preparedStatements c) (stmtcache c) (logger c) (logLevel c) (notifications c)
    (bufferingNotifications c) n (eqb c).
Definition with_eqb (b : extendedQueryBuilder) (c : Conn) : Conn :=
  mkConn (config c) (preparedStatements c) (stmtcache c) (logger c) (logLevel c) (notifications c)
    (bufferingNotifications c) (preallocatedRows c) b.

Definition modify_conn (f : Conn -> Conn) : M world unit := modify (fun w => set_conn (f (conn w)) w).

(** [bufferNotifications], the handler [connect] installs when the application
    has none. *)
Definition bufferNotifications (ns : list Notification) (c : Conn) : Conn :=
  if bufferingNotifications c then with_notifications (notifications c ++ ns) c else c.

(** A call of the outside: it is recorded, answered, and the notifications it
    brought reach the handler. *)
Definition answer (r : request) (w : world) : reply r := (serve r (outside w)).1.1.
Definition called (r : request) (w : world) : world :=
  mkWorld (bufferNotifications (serve r (outside w)).1.2 (conn w)) (serve r (outside w)).2
    (trace w ++ [Sent r]) (txs w) (sps w) (rws w) (batches w) (brs w).
Definition call (r : request) : M world (reply r) := fun w => Ok (answer r w) (called r w).

Definition observe {A} (f : net -> A) : M world A := gets (fun w => f (outside w)).

(** ** conn.go: logging *)

Definition conn_shouldLog (c : Conn) (lvl : Z) : bool := logger c && (lvl <=? logLevel c).

Definition shouldLog (lvl : Z) : M world bool := gets (fun w => conn_shouldLog (conn w) lvl).

Definition log (ctx : context) (lvl : Z) (msg : gostring) (data : logdata) : M world unit :=
  modify (fun w =>
    let data' := if PID (outside w) =? 0 then data else data ++ [(str "pid", LInt (PID (outside w)))] in
    record_event (Logged ctx lvl msg data') w).

(** [if c.shouldLog(lvl) { c.log(ctx, lvl, msg, data) }] *)
Definition log_if (ctx : context) (lvl : Z) (msg : gostring) (data : logdata) : M world unit :=
  let* b := shouldLog lvl in when b (log ctx lvl msg data).

(** ** Closing *)

Definition IsClosed : M world bool := observe pg_IsClosed.

Definition Conn_Close (ctx : context) : M world (option error) :=
  let* closed := IsClosed in
  if closed then ret None
  else
    let* err := call (RClose ctx) in
    log_if ctx LogLevelInfo (str "closed connection") [] ;;;
    ret err.

(** The argument of [die] is not used. *)
Definition die : M world unit :=
  let* closed := IsClosed in
  if closed then ret tt
  else
    let* _ := call (RClose (WithCancelled Background)) in
    ret tt.

(** ** Equations of the primitives *)

Definition logged (ctx : context) (lvl : Z) (msg : gostring) (data : logdata) (w : world) : world :=
  if conn_shouldLog (conn w) lvl
  then record_event (Logged ctx lvl msg
         (if PID (outside w) =? 0 then data else data ++ [(str "pid", LInt (PID (outside w)))])) w
  else w.

Lemma log_if_run ctx lvl msg data w : log_if ctx lvl msg data w = Ok tt (logged ctx lvl msg data w).
Proof.
  unfold log_if, shouldLog, logged, bind, gets, when, log, modify.
  by destruct (conn_shouldLog (conn w) lvl).
Qed.

(** A log entry changes nothing but the trace. *)
Lemma logged_frame ctx lvl msg data w :
  outside (logged ctx lvl msg data w) = outside w /\ conn (logged ctx lvl msg data w) = conn w
  /\ rws (logged ctx lvl msg data w) = rws w /\ txs (logged ctx lvl msg data w) = txs w
  /\ sps (logged ctx lvl msg data w) = sps w /\ batches (logged ctx lvl msg data w) = batches w
  /\ brs (logged ctx lvl msg data w) = brs w.
Proof. unfold logged. by destruct (conn_shouldLog (conn w) lvl). Qed.

Lemma call_replies r w a n' :
  replies r (outside w) a n' -> call r w = Ok a (called r w) /\ outside (called r w) = n'.
Proof. unfold call, answer. intros [<- <-]. done. Qed.

Lemma read_at_run {A} (heap : world -> list A) p w x : heap w !! p = Some x -> read_at heap p w = Ok x w.
Proof. unfold read_at. by intros ->. Qed.

Lemma read_at_Ok {A} (heap : world -> list A) p w a w' :
  read_at heap p w = Ok a w' -> heap w !! p = Some a /\ w' = w.
Proof. unfold read_at. destruct (heap w !! p); [|done]. by intros [= -> ->]. Qed.

(** The requests of a trace, without the log entries. *)
Definition requests (t : list event) : list request :=
  omap (fun e => match e with Sent r => Some r | Logged _ _ _ _ => None end) t.

Lemma requests_called r w : requests (trace (called r w)) = requests (trace w) ++ [r].
Proof. unfold called, requests. simpl. by rewrite omap_app. Qed.

Lemma requests_logged ctx lvl msg data w :
  requests (trace (logged ctx lvl msg data w)) = requests (trace w).
Proof.
  unfold logged. destruct (conn_shouldLog (conn w) lvl); [|done].
  unfold requests. simpl. by rewrite omap_app, app_nil_r.
Qed.

(** ** Frames of the primitives *)

(** Whatever the driver does, it only adds to the trace. *)
Definition trace_grows (w w' : world) : Prop := exists t, trace w' = trace w ++ t.

#[global] Instance trace_grows_preorder : PreOrder trace_grows.
Proof.
  split.
  - intros w. exists []. by rewrite app_nil_r.
  - intros a b c [t Ht] [u Hu]. exists (t ++ u). by rewrite Hu, Ht, app_assoc.
Qed.

(** The calls of the connection leave the transaction objects alone. *)
Definition same_heaps (w w' : world) : Prop := txs w' = txs w /\ sps w' = sps w.

#[global] Instance same_heaps_preorder : PreOrder same_heaps.
Proof. split; [done|]. intros a b c [] []. split; congruence. Qed.

(** The configuration and the cache are those the connection was made with. *)
Definition same_setup (w w' : world) : Prop :=
  config (conn w') = config (conn w) /\ stmtcache (conn w') = stmtcache (conn w)
  /\ logger (conn w') = logger (conn w) /\ logLevel (conn w') = logLevel (conn w)
  /\ bufferingNotifications (conn w') = bufferingNotifications (conn w).

#[global] Instance same_setup_preorder : PreOrder same_setup.
Proof.
  split; [done|]. intros a b c (?&?&?&?&?) (?&?&?&?&?). repeat split; congruence.
Qed.

(** What every operation of a connection keeps. *)
Definition conn_frame (w w' : world) : Prop :=
  trace_grows w w' /\ same_heaps w w' /\ same_setup w w'.

#[global] Instance conn_frame_preorder : PreOrder conn_frame.
Proof.
  split; [intros w; split; [|split]; reflexivity|].
  intros a b c (?&?&?) (?&?&?). split; [|split]; by etrans.
Qed.

Lemma buffer_setup ns c :
  config (bufferNotifications ns c) = config c
  /\ stmtcache (bufferNotifications ns c) = stmtcache c
  /\ logger (bufferNotifications ns c) = logger c
  /\ logLevel (bufferNotifications ns c) = logLevel c
  /\ bufferingNotifications (bufferNotifications ns c) = bufferingNotifications c
  /\ preparedStatements (bufferNotifications ns c) = preparedStatements c
  /\ eqb (bufferNotifications ns c) = eqb c.
Proof. destruct c as [? ? ? ? ? ? [] ? ?]; by repeat split. Qed.

Lemma keeps_call r : keeps conn_frame (call r).
Proof.
  intros w. simpl. pose proof (buffer_setup (serve r (outside w)).1.2 (conn w)) as (?&?&?&?&?&?&?).
  split; [by eexists|]. split; [done|]. repeat split; done.
Qed.

Lemma keeps_modify_conn f :
  (forall c, config (f c) = config c /\ stmtcache (f c) = stmtcache c /\ logger (f c) = logger c
     /\ logLevel (f c) = logLevel c /\ bufferingNotifications (f c) = bufferingNotifications c) ->
  keeps conn_frame (modify_conn f).
Proof.
  intros Hf w. specialize (Hf (conn w)) as (?&?&?&?&?). simpl.
  split; [exists []; by rewrite app_nil_r|]. split; [done|]. by repeat split.
Qed.

Lemma keeps_log ctx lvl msg data : keeps conn_frame (log ctx lvl msg data).
Proof.
  intros w. simpl. split; [by eexists|]. by repeat split.
Qed.

Lemma keeps_log_if ctx lvl msg data : keeps conn_frame (log_if ctx lvl msg data).
Proof.
  apply (keeps_bind _); [apply (keeps_gets _)|]. intros b. apply (keeps_when _), keeps_log.
Qed.

Lemma keeps_read_at {A} (heap : world -> list A) p : keeps conn_frame (read_at heap p).
Proof. intros w. unfold read_at. destruct (heap w !! p); reflexivity. Qed.

Lemma set_rws_frame l w : conn_frame w (set_rws l w).
Proof. split; [exists []; by rewrite app_nil_r|]. by repeat split. Qed.
Lemma set_batches_frame l w : conn_frame w (set_batches l w).
Proof. split; [exists []; by rewrite app_nil_r|]. by repeat split. Qed.
Lemma set_brs_frame l w : conn_frame w (set_brs l w).
Proof. split; [exists []; by rewrite app_nil_r|]. by repeat split. Qed.

Lemma keeps_write_rows p x : keeps conn_frame (write_rows p x).
Proof. intros w. apply set_rws_frame. Qed.
Lemma keeps_new_rows x : keeps conn_frame (new_rows x).
Proof. intros w. apply set_rws_frame. Qed.
Lemma keeps_update_rows p f : keeps conn_frame (update_rows p f).
Proof. apply (keeps_bind _); [apply keeps_read_at|]. intros x. apply keeps_write_rows. Qed.
Lemma keeps_write_batch p l : keeps conn_frame (write_batch p l).
Proof. intros w. apply set_batches_frame. Qed.
Lemma keeps_write_br p x : keeps conn_frame (write_br p x).
Proof. intros w. apply set_brs_frame. Qed.
Lemma keeps_new_br x : keeps conn_frame (new_br x).
Proof. intros w. apply set_brs_frame. Qed.

Lemma keeps_observe {A} (f : net -> A) : keeps conn_frame (observe f).
Proof. apply keeps_gets. typeclasses eauto. Qed.
End World.

#[export] Hint Resolve keeps_call keeps_log keeps_log_if keeps_observe keeps_read_at
  keeps_write_rows keeps_new_rows keeps_update_rows keeps_write_batch keeps_write_br keeps_new_br : keeps.
#[export] Hint Extern 1 (keeps _ (call ?r)) => exact (keeps_call r) : keeps.
#[export] Hint Extern 2 (keeps _ (modify_conn _)) => (apply keeps_modify_conn; by repeat split) : keeps.

Section Closing.
Context `{PgConn}.

Lemma keeps_Close ctx : keeps conn_frame (Conn_Close ctx).
Proof. unfold Conn_Close, IsClosed. keeps_tac. Qed.

Lemma keeps_die : keeps conn_frame die.
Proof. unfold die, IsClosed. keeps_tac. Qed.

Context {Laws : PgConnLaws}.

Lemma Close_run ctx w :
  Conn_Close ctx w
  = if pg_IsClosed (outside w) then Ok None w
    else Ok (answer (RClose ctx) w)
           (logged ctx LogLevelInfo (str "closed connection") [] (called (RClose ctx) w)).
Proof.
  unfold Conn_Close, IsClosed, observe, gets, bind at 1.
  destruct (pg_IsClosed (outside w)); [done|].
  unfold bind, call. by rewrite log_if_run.
Qed.

Lemma Close_ends ctx w :
  exists e w', Conn_Close ctx w = Ok e w' /\ pg_IsClosed (outside w') = true.
Proof.
  rewrite Close_run. destruct (pg_IsClosed (outside w)) eqn:E; eexists _, _; (split; [done|]); [done|].
  rewrite (proj1 (logged_frame _ _ _ _ _)). apply Close_closes.
Qed.

Lemma die_run w :
  die w = Ok tt (if pg_IsClosed (outside w) then w else called (RClose (WithCancelled Background)) w).
Proof.
  unfold die, IsClosed, observe, gets, bind, call. by destruct (pg_IsClosed (outside w)).
Qed.

Lemma die_ends w : exists w', die w = Ok tt w' /\ pg_IsClosed (outside w') = true.
Proof.
  rewrite die_run. eexists. split; [done|]. case_match; [done|]. apply Close_closes.
Qed.
End Closing.

#[export] Hint Resolve keeps_Close keeps_die : keeps.

Section Safe.
Context `{PgConn}.

Lemma safe_call r : safe (call r).
Proof. by intros w. Qed.
Lemma safe_log_if ctx lvl msg data : safe (log_if ctx lvl msg data).
Proof. intros w. by rewrite log_if_run. Qed.
End Safe.

#[export] Hint Resolve safe_log_if : safe.
#[export] Hint Extern 1 (safe (call ?r)) => exact (safe_call r) : safe.

(** ** Programs that leave the heaps alone *)

Section Quiet.
Context `{PgConn}.

Definition quiet (w w' : world) : Prop :=
  rws w' = rws w /\ batches w' = batches w /\ brs w' = brs w.

#[global] Instance quiet_preorder : PreOrder quiet.
Proof. split; [done|]. intros a b c (?&?&?) (?&?&?). repeat split; congruence. Qed.

Lemma quiet_call r : keeps quiet (call r).
Proof. intros w. done. Qed.
Lemma quiet_modify_conn f : keeps quiet (modify_conn f).
Proof. intros w. done. Qed.
Lemma quiet_log_if ctx lvl msg data : keeps quiet (log_if ctx lvl msg data).
Proof. intros w. rewrite log_if_run. split; [|split]; apply logged_frame. Qed.
Lemma quiet_read_at {A} (heap : world -> list A) p : keeps quiet (read_at heap p).
Proof. intros w. unfold read_at. by destruct (heap w !! p). Qed.

(** ** What a program asks of the outside

    [served l n] is the outside after the requests [l].
    [emits P]: every request made in between satisfies [P], and nothing else
    has happened to the outside. *)
Fixpoint served (l : list request) (n : net) : net :=
  match l with
  | [] => n
  | r :: l' => served l' (serve r n).2
  end.

Lemma served_app l1 l2 n : served (l1 ++ l2) n = served l2 (served l1 n).
Proof. revert n. induction l1 as [|r l1 IH]; intros n; simpl; auto. Qed.

Definition emits (P : request -> Prop) (w w' : world) : Prop :=
  exists l, requests (trace w') = requests (trace w) ++ l /\ Forall P l /\ outside w' = served l (outside w).

#[global] Instance emits_preorder P : PreOrder (emits P).
Proof.
  split.
  - intros w. exists []. by rewrite app_nil_r.
  - intros a b c (l1 & E1 & F1 & O1) (l2 & E2 & F2 & O2). exists (l1 ++ l2).
    rewrite E2, E1, app_assoc, O2, O1, served_app. split; [done|]. split; [by apply Forall_app|done].
Qed.

Lemma emits_same P w w' : trace w' = trace w -> outside w' = outside w -> emits P w w'.
Proof. intros E O. exists []. by rewrite E, O, app_nil_r. Qed.

Lemma emits_nothing w w' :
  emits (fun _ => False) w w' -> requests (trace w') = requests (trace w) /\ outside w' = outside w.
Proof. intros (l & E & F & O). destruct l as [|r l]; [by rewrite app_nil_r in E|]. by apply Forall_cons in F as [? _]. Qed.

Lemma emits_call (P : request -> Prop) r : P r -> keeps (emits P) (call r).
Proof. intros Hr w. exists [r]. split; [apply requests_called|]. by split; [constructor|]. Qed.
Lemma emits_modify_conn P f : keeps (emits P) (modify_conn f).
Proof. intros w. by apply emits_same. Qed.
Lemma emits_log_if P ctx lvl msg data : keeps (emits P) (log_if ctx lvl msg data).
Proof.
  intros w. rewrite log_if_run. exists []. rewrite requests_logged, app_nil_r.
  split; [done|]. split; [done|]. apply logged_frame.
Qed.
Lemma emits_read_at P {A} (heap : world -> list A) p : keeps (emits P) (read_at heap p).
Proof. intros w. unfold read_at. destruct (heap w !! p); by apply emits_same. Qed.
Lemma emits_write_rows P p x : keeps (emits P) (write_rows p x).
Proof. intros w. by apply emits_same. Qed.
Lemma emits_update_rows P p f : keeps (emits P) (update_rows p f).
Proof. apply (keeps_bind _); [apply emits_read_at|]. intros x. apply emits_write_rows. Qed.
Lemma emits_new_rows P x : keeps (emits P) (new_rows x).
Proof. intros w. by apply emits_same. Qed.

(** ** The statements the application has prepared *)

Definition same_prepared (w w' : world) : Prop := preparedStatements (conn w') = preparedStatements (conn w).

#[global] Instance same_prepared_preorder : PreOrder same_prepared.
Proof. split; [done|]. unfold same_prepared. intros a b c. congruence. Qed.

Lemma prepared_call r : keeps same_prepared (call r).
Proof. intros w. unfold same_prepared. simpl. apply buffer_setup. Qed.
Lemma prepared_modify f : (forall c, preparedStatements (f c) = preparedStatements c) -> keeps same_prepared (modify_conn f).
Proof. intros Hf w. apply Hf. Qed.
Lemma prepared_log_if ctx lvl msg data : keeps same_prepared (log_if ctx lvl msg data).
Proof. intros w. rewrite log_if_run. unfold same_prepared. by rewrite (proj1 (proj2 (logged_frame _ _ _ _ _))). Qed.
Lemma prepared_update_rows p f : keeps same_prepared (update_rows p f).
Proof. intros w. unfold update_rows, bind, read_rows, read_at. by destruct (rws w !! p). Qed.
Lemma prepared_new_rows x : keeps same_prepared (new_rows x).
Proof. by intros w. Qed.
Lemma prepared_write_batch b l : keeps same_prepared (write_batch b l).
Proof. by intros w. Qed.
Lemma prepared_read_at {A} (heap : world -> list A) p : keeps same_prepared (read_at heap p).
Proof. intros w. unfold read_at. by destruct (heap w !! p). Qed.
End Quiet.

#[export] Hint Resolve prepared_log_if prepared_update_rows prepared_new_rows prepared_write_batch prepared_read_at : keeps.
#[export] Hint Extern 1 (keeps same_prepared (call ?r)) => exact (prepared_call r) : keeps.
#[export] Hint Extern 2 (keeps same_prepared (modify_conn _)) =>
  (apply prepared_modify; intros; by repeat case_match) : keeps.

#[export] Hint Resolve quiet_modify_conn quiet_log_if quiet_read_at emits_modify_conn emits_log_if
  emits_read_at emits_write_rows emits_update_rows emits_new_rows : keeps.
#[export] Hint Extern 1 (keeps quiet (call ?r)) => exact (quiet_call r) : keeps.
#[export] Hint Extern 1 (keeps (emits ?P) (call ?r)) => (apply (emits_call P r); exact I) : keeps.
