(* ===== verification/Toy.v ===== *)
(** A small server to run the driver's definitions on: it knows the SQL texts
    that fail, keeps a transaction status, and answers every other statement
    with the same rows. *)

From S2P Require Import Prelude GoStd GoVal Effects Values PgConn World.

Local Open Scope Z_scope.

Module Toy.

Record server := mkServer {
  closed : bool;
  status : ascii;
  failing : list gostring;      (** statements that fail *)
  table : list (list (option gostring));   (** the rows of every statement *)
  pending : list (list (option gostring)); (** rows of the result being read *)
  current : list (option gostring);
  results : nat;                (** results left of the last simple query *)
  failure : option error;       (** of the statement being run *)
  tag : gostring;
  arriving : list Notification;
  received : gostring           (** the data of a COPY *)
}.

Definition columns : list FieldDescription := [mkFieldDescription (str "n") 23 4 (-1) 1].

Definition failed (sql : gostring) : error := WrapError (str "ERROR") (ErrorString sql).

(** Running a statement. *)
Definition start (sql : gostring) (s : server) : server :=
  let bad := bool_decide (sql ∈ failing s) in
  mkServer (closed s)
    (if bad then status s
     else if bool_decide (sql = str "begin") then "T"%char
     else if bool_decide (sql = str "commit") then "I"%char
     else if bool_decide (sql = str "rollback") then "I"%char else status s)
    (failing s) (table s) (if bad then [] else table s) [] (if bad then 0 else 1)%nat
    (if bad then Some (failed sql) else None)
    (if bool_decide (sql = str "rollback") then str "ROLLBACK" else str "OK") (arriving s) [].

Definition set_pending (l : list (list (option gostring))) (c : list (option gostring)) (s : server) : server :=
  mkServer (closed s) (status s) (failing s) (table s) l c (results s) (failure s) (tag s) (arriving s) (received s).
Definition set_results (n : nat) (s : server) : server :=
  mkServer (closed s) (status s) (failing s) (table s) (pending s) (current s) n (failure s) (tag s)
    (arriving s) (received s).
Definition set_closed (s : server) : server :=
  mkServer true (status s) (failing s) (table s) [] [] 0 (failure s) (tag s) (arriving s) (received s).
Definition set_received (b : gostring) (s : server) : server :=
  mkServer (closed s) (status s) (failing s) (table s) (pending s) (current s) (results s) (failure s)
    (tag s) (arriving s) b.
Definition set_arriving (l : list Notification) (s : server) : server :=
  mkServer (closed s) (status s) (failing s) (table s) (pending s) (current s) (results s) (failure s)
    (tag s) l (received s).

(** A statement has as many integer parameters as it has dollar signs. *)
Definition parameters (sql : gostring) : list Z :=
  map (fun _ => 23) (filter (fun c => c = "$"%char) sql).

Definition describe (name sql : gostring) (s : server) : error + StatementDescription :=
  if bool_decide (sql ∈ failing s) then inl (failed sql)
  else inr (mkSD name sql (parameters sql) columns).

(** What a scan leaves in its destination: integers are read from their
    big-endian form. *)
Definition scanned (buf : option gostring) (dst : goval) : goval :=
  match buf, dst with
  | None, _ => VNil
  | Some b, VPtr _ (VInt k n _) => VInt k n (fold_left (fun z c => 256 * z + code c) b 0)
  | Some b, _ => VBytes None b
  end.

Definition answer_to (r : request) (s : server) : reply r * list Notification * server :=
  match r with
  | RClose _ => (None, [], set_closed s)
  | RPrepare _ name sql => (describe name sql s, [], s)
  | RExec _ sql => (Mrr 0, [], start sql s)
  | RExecParams _ sql _ _ _ _ => (Rr 0, [], start sql s)
  | RExecPrepared _ _ _ _ _ => (Rr 0, [], start [] s)
  | RExecBatch _ items => (Mrr 0, [], set_results (length items) (start [] s))
  | RWaitForNotification _ => (None, arriving s, set_arriving [] s)
  | RNextResult _ =>
      match results s with
      | O => (false, [], s)
      | S n => (true, [], set_results n (set_pending (table s) [] s))
      end
  | RMrrClose _ => (failure s, [], set_results 0 s)
  | RReadAll _ => (failure s, [], set_results 0 s)
  | RNextRow _ =>
      match pending s with
      | [] => (false, [], s)
      | row :: rest => (true, [], set_pending rest row s)
      end
  | RRrClose _ => ((tag s, failure s), [], set_pending [] [] s)
  | RRead _ => ((tag s, failure s), [], set_pending [] [] s)
  | RCacheBuild _ => (Cache 0, [], s)
  | RCacheGet _ _ sql => (describe (str "lrupsc_1") sql s, [], s)
  | RStatementErrored _ _ _ => (tt, [], s)
  | RPlanScan _ _ _ => (Plan 0, [], s)
  | RScanInto _ _ _ buf dst => (inr (scanned buf dst), [], s)
  | RConnInfoScan _ _ buf dst => (inr (scanned buf dst), [], s)
  | RMapKeys keys => (keys, [], s)
  | RCopyStart _ _ => (tt, [], set_received [] s)
  | RCopyWrite chunk => (None, [], set_received (received s ++ chunk) s)
  | RCopyEnd e => ((str "COPY", e), [], s)
  end.

#[export] Instance pgconn : PgConn := {|
  net := server;
  pg_IsClosed := closed;
  pg_IsBusy := fun s => (0 <? results s)%nat;
  PID := fun _ => 42;
  TxStatus := status;
  ParameterStatus := fun _ name =>
    if bool_decide (name = str "standard_conforming_strings") then str "on" else str "UTF8";
  ResultReader := fun _ _ => Rr 0;
  rr_FieldDescriptions := fun _ _ => columns;
  rr_Values := fun s _ => current s;
  cache_Mode := fun _ c => if cache_id c =? 1 then ModeDescribe else ModePrepare;
  cache_Cap := fun _ _ => 512;
  RowsAffected := fun t => Z.of_nat (length t);
  serve := answer_to
|}.

#[export] Instance pgconn_laws : PgConnLaws.
Proof.
  split; [done| |done].
  intros [] s Hs; try done; cbn [serve pgconn answer_to]; try (by case_match).
Qed.

#[export] Instance decoders : @PgDecoders Sample.types pgconn := {|
  dt_TextDecoder := fun _ => None;
  dt_BinaryDecoder := fun _ => None;
  GenericText_Decode := fun b => inr (VString None b);
  GenericBinary_Decode := fun b => inr (VBytes None b);
  dt_Get := fun _ _ => VInt KInt32 None 0
|}.

(** ** Initial states *)

Definition idle : server :=
  mkServer false "I"%char [str "bad"; str "bad $1"] [[Some (be32 7)]; [Some (be32 8)]] [] [] 0 None [] [] [].

Definition configuration (simple : bool) : ConnConfig :=
  mkConnConfig (mkPgConfig (str "localhost") 5432 (str "db") (str "me") ∅ false) true 4 []
    (Some (NewCache ModePrepare 512)) simple true.

Definition connection (simple : bool) (cache : option cache) : Conn :=
  mkConn (configuration simple) ∅ cache true 4 [] true 0 (mkEqb [] [] [] []).

Definition start_world (simple : bool) : world :=
  mkWorld (connection simple (Some (Cache 0))) idle [] [] [] [] [] [].

(** A result set about to be read. *)
Definition open_rows : connRows :=
  mkConnRows Background true [] 0 None [] (str "select n") [] false (Some (Rr 0)) None None.

Definition reading : world :=
  mkWorld (connection false (Some (Cache 0))) (start (str "select n") idle) [] [] [] [open_rows] [] [].

End Toy.
