(* ===== verification/Rows.v ===== *)
(** Result sets (rows.go): [connRows] with its methods, the single-row wrapper
    [connRow], and [ScanRow]. *)

From S2P Require Import Prelude GoStd GoVal Effects Values PgConn Logger World Toy.

Local Open Scope Z_scope.

(** ** Setters *)

Definition rows_with_closed (b : bool) (x : connRows) : connRows :=
  mkConnRows (rows_ctx x) (rows_logger x) (values x) (rowCount x) (rows_err x) (commandTag x)
    (sql x) (args x) b (resultReader x) (multiResultReader x) (scanPlans x).
Definition rows_with_err (e : option error) (x : connRows) : connRows :=
  mkConnRows (rows_ctx x) (rows_logger x) (values x) (rowCount x) e (commandTag x)
    (sql x) (args x) (rows_closed x) (resultReader x) (multiResultReader x) (scanPlans x).
Definition rows_with_tag (t : CommandTag) (x : connRows) : connRows :=
  mkConnRows (rows_ctx x) (rows_logger x) (values x) (rowCount x) (rows_err x) t
    (sql x) (args x) (rows_closed x) (resultReader x) (multiResultReader x) (scanPlans x).
Definition rows_with_row (vs : list (option gostring)) (x : connRows) : connRows :=
  mkConnRows (rows_ctx x) (rows_logger x) vs (int64 (rowCount x + 1)) (rows_err x) (commandTag x)
    (sql x) (args x) (rows_closed x) (resultReader x) (multiResultReader x) (scanPlans x).
Definition rows_with_sql (s : gostring) (x : connRows) : connRows :=
  mkConnRows (rows_ctx x) (rows_logger x) (values x) (rowCount x) (rows_err x) (commandTag x)
    s (args x) (rows_closed x) (resultReader x) (multiResultReader x) (scanPlans x).
Definition rows_with_args (l : list goval) (x : connRows) : connRows :=
  mkConnRows (rows_ctx x) (rows_logger x) (values x) (rowCount x) (rows_err x) (commandTag x)
    (sql x) l (rows_closed x) (resultReader x) (multiResultReader x) (scanPlans x).
Definition rows_with_readers (r : option rr) (m : option mrr) (x : connRows) : connRows :=
  mkConnRows (rows_ctx x) (rows_logger x) (values x) (rowCount x) (rows_err x) (commandTag x)
    (sql x) (args x) (rows_closed x) r m (scanPlans x).
Definition rows_with_plans (ps : list plan) (x : connRows) : connRows :=
  mkConnRows (rows_ctx x) (rows_logger x) (values x) (rowCount x) (rows_err x) (commandTag x)
    (sql x) (args x) (rows_closed x) (resultReader x) (multiResultReader x) (Some ps).

(** [if rows.err == nil { rows.err = e }] *)
Definition rows_first_err (e : option error) (x : connRows) : connRows :=
  match rows_err x with None => rows_with_err e x | Some _ => x end.

Section Rows.
Context `{PgTypes} `{PgConn} `{!PgDecoders}.

(** ** connRows *)

Definition rows_FieldDescriptions (p : nat) : M world (list FieldDescription) :=
  let* x := read_rows p in
  match resultReader x with
  | None => panic nil_dereference
  | Some r => observe (fun n => rr_FieldDescriptions n r)
  end.

(** The end of [Close]: the log entry, and the cache told of the failure. *)
Definition rows_report (p : nat) : M world unit :=
  let* x := read_rows p in
  if rows_logger x then
    match rows_err x with
    | None =>
        log_if (rows_ctx x) LogLevelInfo (str "Query")
          [(str "sql", LStr (sql x)); (str "args", LArgs (logQueryArgs (args x)));
           (str "time", LTime); (str "rowCount", LInt (rowCount x))]
    | Some e =>
        log_if (rows_ctx x) LogLevelError (str "Query")
          [(str "err", LErr e); (str "sql", LStr (sql x)); (str "args", LArgs (logQueryArgs (args x)))] ;;;
        let* sc := gets (fun w => stmtcache (conn w)) in
        match sc with
        | Some c => call (RStatementErrored c (sql x) e)
        | None => ret tt
        end
    end
  else ret tt.

(** The readers of the result set, and what they say on being closed. *)
Definition rows_close_reader (p : nat) (reader : option rr) : M world unit :=
  match reader with
  | None => ret tt
  | Some r =>
      let* '(tag, closeErr) := call (RRrClose r) in
      update_rows p (fun x => rows_first_err closeErr (rows_with_tag tag x))
  end.

Definition rows_close_multi (p : nat) (reader : option mrr) : M world unit :=
  match reader with
  | None => ret tt
  | Some m =>
      let* closeErr := call (RMrrClose m) in
      update_rows p (rows_first_err closeErr)
  end.

Definition rows_Close (p : nat) : M world unit :=
  let* x := read_rows p in
  if rows_closed x then ret tt
  else
    update_rows p (rows_with_closed true) ;;;
    rows_close_reader p (resultReader x) ;;;
    rows_close_multi p (multiResultReader x) ;;;
    rows_report p.

Definition rows_CommandTag (p : nat) : M world CommandTag :=
  let* x := read_rows p in ret (commandTag x).

Definition rows_Err (p : nat) : M world (option error) :=
  let* x := read_rows p in ret (rows_err x).

Definition rows_RawValues (p : nat) : M world (list (option gostring)) :=
  let* x := read_rows p in ret (values x).

(** [fatal(err)], where [err] may be nil. *)
Definition rows_fatal (p : nat) (err : option error) : M world unit :=
  let* x := read_rows p in
  match rows_err x with
  | Some _ => ret tt
  | None =>
      update_rows p (rows_with_err err) ;;;
      rows_Close p
  end.

Definition rows_Next (p : nat) : M world bool :=
  let* x := read_rows p in
  if rows_closed x then ret false
  else match resultReader x with
  | None => panic nil_dereference
  | Some r =>
      let* more := call (RNextRow r) in
      if more then
        let* vs := observe (fun n => rr_Values n r) in
        update_rows p (rows_with_row vs) ;;;
        ret true
      else
        rows_Close p ;;;
        ret false
  end.

(** *** Scan *)

Definition not_equal (what : string) (a b : nat) : error :=
  ErrorString (str "number of field descriptions must equal number of " ++ str what ++ str ", got "
    ++ FormatInt (Z.of_nat a) ++ str " and " ++ FormatInt (Z.of_nat b)).

Fixpoint plan_scans (fds : list FieldDescription) (dest : list goval) : M world (list plan) :=
  match fds, dest with
  | fd :: fds', dst :: dest' =>
      let* p := call (RPlanScan (DataTypeOID fd) (Format fd) dst) in
      let* ps := plan_scans fds' dest' in
      ret (p :: ps)
  | _, _ => ret []
  end.

(** The loop over the destinations; the lists have the same length, except for
    the plans, which an earlier call may have made. *)
Fixpoint scan_columns (i : nat) (fds : list FieldDescription) (ps : list plan)
    (vs : list (option gostring)) (dest : list goval) (stored : list (option goval))
  : M world (option error * list (option goval)) :=
  match dest, fds, vs with
  | dst :: dest', fd :: fds', v :: vs' =>
      if is_nil dst then scan_columns (S i) fds' (tail ps) vs' dest' (stored ++ [None])
      else match ps with
      | [] => panic index_out_of_range
      | p :: ps' =>
          let* r := call (RScanInto p (DataTypeOID fd) (Format fd) v dst) in
          match r with
          | inl e => ret (Some (ScanArgError (Z.of_nat i) e), stored)
          | inr a => scan_columns (S i) fds' ps' vs' dest' (stored ++ [Some a])
          end
      end
  | _, _, _ => ret (None, stored)
  end.

(** The values stored in the destinations are returned with the error. *)
Definition rows_Scan (p : nat) (dest : list goval) : M world (option error * list (option goval)) :=
  let* fds := rows_FieldDescriptions p in
  let* x := read_rows p in
  if negb (length fds =? length (values x))%nat then
    let err := not_equal "values" (length fds) (length (values x)) in
    rows_fatal p (Some err) ;;; ret (Some err, [])
  else if negb (length fds =? length dest)%nat then
    let err := not_equal "destinations" (length fds) (length dest) in
    rows_fatal p (Some err) ;;; ret (Some err, [])
  else
    let* ps := match scanPlans x with
               | Some ps => ret ps
               | None =>
                   let* ps := plan_scans fds dest in
                   update_rows p (rows_with_plans ps) ;;; ret ps
               end in
    let* '(e, stored) := scan_columns 0 fds ps (values x) dest [] in
    match e with
    | Some _ => rows_fatal p e ;;; ret (e, stored)
    | None => ret (None, stored)
    end.

(** *** Values *)

Definition unknown_format : error := errors_New "Unknown format code".

(** The decoded value of a column.  In the binary case without a decoder the
    data is decoded into a [GenericBinary], and the value returned is the one
    of [dt.Value]. *)
Definition decode_column (n : net) (fd : FieldDescription) (buf : gostring) : error + goval :=
  match DataTypeForOID (DataTypeOID fd) with
  | Some dt =>
      if Format fd =? TextFormatCode then
        match dt_TextDecoder dt with
        | Some dec => dec buf
        | None => GenericText_Decode buf
        end
      else if Format fd =? BinaryFormatCode then
        match dt_BinaryDecoder dt with
        | Some dec => dec buf
        | None =>
            match GenericBinary_Decode buf with
            | inl e => inl e
            | inr _ => inr (dt_Get n dt)
            end
        end
      else inl unknown_format
  | None =>
      if Format fd =? TextFormatCode then GenericText_Decode buf
      else if Format fd =? BinaryFormatCode then GenericBinary_Decode buf
      else inl unknown_format
  end.

Fixpoint decode_columns (p : nat) (fds : list FieldDescription) (vs : list (option gostring))
    (acc : list goval) : M world (list goval * option error) :=
  match fds with
  | [] => let* e := rows_Err p in ret (acc, e)
  | fd :: fds' =>
      match vs with
      | [] => panic index_out_of_range
      | None :: vs' => decode_columns p fds' vs' (acc ++ [VNil])
      | Some buf :: vs' =>
          let* n := observe (fun n => n) in
          let r := decode_column n fd buf in
          match r with inl e => rows_fatal p (Some e) | inr _ => ret tt end ;;;
          let* err := rows_Err p in
          match err with
          | Some _ => ret ([], err)
          | None => decode_columns p fds' vs' (acc ++ [match r with inl _ => VNil | inr v => v end])
          end
      end
  end.

Definition rows_Values (p : nat) : M world (list goval * option error) :=
  let* x := read_rows p in
  if rows_closed x then ret ([], Some (errors_New "rows is closed"))
  else
    let* fds := rows_FieldDescriptions p in
    decode_columns p fds (values x) [].

(** ** connRow *)

(** [rows.Scan]'s own result is dropped: a failed scan is in [rows.Err()]. *)
Definition row_Scan (p : nat) (dest : list goval) : M world (option error * list (option goval)) :=
  let* err := rows_Err p in
  match err with
  | Some _ => ret (err, [])
  | None =>
      let* more := rows_Next p in
      if more then
        let* '(_, stored) := rows_Scan p dest in
        rows_Close p ;;;
        let* err := rows_Err p in
        ret (err, stored)
      else
        let* err := rows_Err p in
        match err with
        | None => ret (Some ErrNoRows, [])
        | Some _ => ret (err, [])
        end
  end.

(** ** ScanRow *)

Fixpoint scan_row_columns (i : nat) (fds : list FieldDescription) (vs : list (option gostring))
    (dest : list goval) (stored : list (option goval)) : M world (option error * list (option goval)) :=
  match dest, fds, vs with
  | dst :: dest', fd :: fds', v :: vs' =>
      if is_nil dst then scan_row_columns (S i) fds' vs' dest' (stored ++ [None])
      else
        let* r := call (RConnInfoScan (DataTypeOID fd) (Format fd) v dst) in
        match r with
        | inl e => ret (Some (ScanArgError (Z.of_nat i) e), stored)
        | inr a => scan_row_columns (S i) fds' vs' dest' (stored ++ [Some a])
        end
  | _, _, _ => ret (None, stored)
  end.

Definition ScanRow (fds : list FieldDescription) (vs : list (option gostring)) (dest : list goval)
  : M world (option error * list (option goval)) :=
  if negb (length fds =? length vs)%nat then
    ret (Some (not_equal "values" (length fds) (length vs)), [])
  else if negb (length fds =? length dest)%nat then
    ret (Some (not_equal "destinations" (length fds) (length dest)), [])
  else scan_row_columns 0 fds vs dest [].

(** ** Frames *)

Lemma keeps_rows_FieldDescriptions p : keeps conn_frame (rows_FieldDescriptions p).
Proof. unfold rows_FieldDescriptions, read_rows. keeps_tac. Qed.

Lemma keeps_close_reader p rd : keeps conn_frame (rows_close_reader p rd).
Proof. unfold rows_close_reader. keeps_tac. Qed.
Lemma keeps_close_multi p rd : keeps conn_frame (rows_close_multi p rd).
Proof. unfold rows_close_multi. keeps_tac. Qed.
#[local] Hint Resolve keeps_close_reader keeps_close_multi : keeps.

Lemma keeps_rows_Close p : keeps conn_frame (rows_Close p).
Proof.
  unfold rows_Close, rows_report, read_rows. keeps_tac.
Qed.
#[local] Hint Resolve keeps_rows_FieldDescriptions keeps_rows_Close : keeps.

Lemma keeps_rows_Err p : keeps conn_frame (rows_Err p).
Proof. unfold rows_Err, read_rows. keeps_tac. Qed.

Lemma keeps_rows_fatal p e : keeps conn_frame (rows_fatal p e).
Proof. unfold rows_fatal, read_rows. keeps_tac. Qed.

Lemma keeps_rows_Next p : keeps conn_frame (rows_Next p).
Proof. unfold rows_Next, read_rows. keeps_tac. Qed.
#[local] Hint Resolve keeps_rows_Err keeps_rows_fatal keeps_rows_Next : keeps.

Lemma keeps_plan_scans fds dest : keeps conn_frame (plan_scans fds dest).
Proof. revert dest. induction fds as [|fd fds IH]; intros [|dst dest]; cbn [plan_scans]; keeps_tac. Qed.

Lemma keeps_scan_columns i fds ps vs dest acc : keeps conn_frame (scan_columns i fds ps vs dest acc).
Proof.
  revert i fds ps vs acc. induction dest as [|dst dest IH]; intros i [|fd fds] ps [|v vs] acc;
    cbn [scan_columns]; keeps_tac.
Qed.
#[local] Hint Resolve keeps_plan_scans keeps_scan_columns : keeps.

Lemma keeps_rows_Scan p dest : keeps conn_frame (rows_Scan p dest).
Proof. unfold rows_Scan, read_rows. keeps_tac. Qed.
#[local] Hint Resolve keeps_rows_Scan : keeps.

Lemma keeps_row_Scan p dest : keeps conn_frame (row_Scan p dest).
Proof. unfold row_Scan. keeps_tac. Qed.

(** ** The life of a result set *)

(** A result set that was closed stays closed, its first error stays, and its
    readers and its text are not exchanged. *)
Definition rows_later (x x' : connRows) : Prop :=
  (rows_closed x = true -> rows_closed x' = true)
  /\ (forall e, rows_err x = Some e -> rows_err x' = Some e)
  /\ rows_logger x' = rows_logger x /\ sql x' = sql x
  /\ resultReader x' = resultReader x /\ multiResultReader x' = multiResultReader x.

#[local] Instance rows_later_preorder : PreOrder rows_later.
Proof.
  split; [by intros x; repeat split|].
  intros x y z (?&?&?&?&?&?) (?&?&?&?&?&?). repeat split; eauto; congruence.
Qed.

Lemma wp_read_rows p w x Q : rws w !! p = Some x -> Q x w -> wp (read_rows p) w Q.
Proof. intros Hw. apply wp_eq, read_at_run, Hw. Qed.

Lemma wp_update_rows p w x f Q :
  rws w !! p = Some x -> Q tt (set_rws (<[p := f x]> (rws w)) w) -> wp (update_rows p f) w Q.
Proof. intros Hw HQ. by apply wp_bind, (wp_read_rows _ _ x). Qed.

(** Where the heap differs only at [p], which holds a later object. *)
Definition moved (p : nat) (x : connRows) (w : world) (x' : connRows) (w' : world) : Prop :=
  rws w' = <[p := x']> (rws w) /\ rows_later x x'.

Lemma moved_lookup p x w x' w' : rws w !! p = Some x -> moved p x w x' w' -> rws w' !! p = Some x'.
Proof. intros Hw [-> _]. apply list_lookup_insert_eq. by eapply lookup_lt_Some. Qed.

Lemma moved_trans p x w x' w' x2 w2 :
  moved p x w x' w' -> moved p x' w' x2 w2 -> moved p x w x2 w2.
Proof.
  intros [E L] [E2 L2]. split; [by rewrite E2, E, list_insert_insert_eq|by etrans].
Qed.

Lemma moved_same p x w w' : rws w !! p = Some x -> rws w' = rws w -> moved p x w x w'.
Proof. intros Hw E. split; [by rewrite E, list_insert_id|reflexivity]. Qed.

Lemma first_err_later e x : rows_later x (rows_first_err e x).
Proof. unfold rows_first_err. destruct (rows_err x) eqn:E; repeat split; by rewrite ?E. Qed.

(** The first of several errors. *)
Definition first_error (l : list (option error)) : option error :=
  foldr (fun e rest => match e with Some _ => e | None => rest end) None l.

Lemma first_error_nested a b c : first_error [first_error [a; b]; c] = first_error [a; b; c].
Proof. by destruct a, b. Qed.

(** What the readers of a result set answer when they are closed, one after the
    other, from the state [n] of the outside. *)
Definition reader_answer (x : connRows) (n : net) : CommandTag * option error :=
  match resultReader x with
  | None => (commandTag x, None)
  | Some r => (serve (RRrClose r) n).1.1
  end.

Definition after_reader (x : connRows) (n : net) : net :=
  match resultReader x with
  | None => n
  | Some r => (serve (RRrClose r) n).2
  end.

Definition multi_answer (x : connRows) (n : net) : option error :=
  match multiResultReader x with
  | None => None
  | Some m => (serve (RMrrClose m) (after_reader x n)).1.1
  end.

Lemma wp_close_reader p w x Q :
  rws w !! p = Some x ->
  (forall x' w', moved p x w x' w' -> rows_closed x' = rows_closed x ->
     requests (trace w') = requests (trace w) ++ from_option (fun r => [RRrClose r]) [] (resultReader x) ->
     outside w' = after_reader x (outside w) -> commandTag x' = (reader_answer x (outside w)).1 ->
     rows_err x' = first_error [rows_err x; (reader_answer x (outside w)).2] -> Q tt w') ->
  wp (rows_close_reader p (resultReader x)) w Q.
Proof.
  unfold reader_answer, after_reader. intros Hw HQ. destruct (resultReader x) as [r|] eqn:Er; simpl.
  - apply wp_bind. apply (wp_eq _ _ _ _ _ eq_refl). unfold answer in *.
    destruct (serve (RRrClose r) (outside w)) as [[[tag e] ns] n'] eqn:Es. simpl in *.
    apply (wp_update_rows _ _ x); [done|]. eapply HQ.
    + split; [done|]. transitivity (rows_with_tag tag x); [by repeat split|apply first_err_later].
    + unfold rows_first_err. by destruct (rows_err _).
    + apply requests_called.
    + simpl. by rewrite Es.
    + unfold rows_first_err. by destruct (rows_err _).
    + unfold rows_first_err. simpl. destruct (rows_err x) eqn:E; simpl; [by rewrite E|by destruct e].
  - apply (HQ x); [by apply moved_same|done|by rewrite app_nil_r|done|done|by destruct (rows_err x)].
Qed.

Lemma wp_close_multi p w x rd Q :
  rws w !! p = Some x ->
  (forall x' w', moved p x w x' w' -> rows_closed x' = rows_closed x ->
     requests (trace w') = requests (trace w) ++ from_option (fun m => [RMrrClose m]) [] rd ->
     commandTag x' = commandTag x ->
     rows_err x' = first_error [rows_err x;
       match rd with None => None | Some m => (serve (RMrrClose m) (outside w)).1.1 end] -> Q tt w') ->
  wp (rows_close_multi p rd) w Q.
Proof.
  intros Hw HQ. destruct rd as [m|]; simpl.
  - apply wp_bind. apply (wp_eq _ _ _ _ _ eq_refl).
    apply (wp_update_rows _ _ x); [done|]. eapply HQ.
    + split; [done|]. apply first_err_later.
    + unfold rows_first_err. by destruct (rows_err _).
    + apply requests_called.
    + unfold rows_first_err. by destruct (rows_err _).
    + unfold rows_first_err, answer. destruct (rows_err x) eqn:E; simpl; [by rewrite E|by case_match].
  - apply (HQ x); [by apply moved_same|done|by rewrite app_nil_r|done|by destruct (rows_err x)].
Qed.

(** The cache is told of a failed statement. *)
Definition report_requests (x : connRows) (sc : option cache) : list request :=
  match rows_logger x, rows_err x, sc with
  | true, Some e, Some c => [RStatementErrored c (sql x) e]
  | _, _, _ => []
  end.

Lemma wp_report p w x Q :
  rws w !! p = Some x ->
  (forall w', rws w' = rws w ->
     requests (trace w') = requests (trace w) ++ report_requests x (stmtcache (conn w)) -> Q tt w') ->
  wp (rows_report p) w Q.
Proof.
  intros Hw HQ. unfold rows_report, report_requests in *. apply wp_bind, (wp_read_rows _ _ x); [done|].
  destruct (rows_logger x); [|apply HQ; [done|by rewrite app_nil_r]].
  destruct (rows_err x) as [e|].
  - apply wp_bind. apply (wp_eq _ _ _ _ _ (log_if_run _ _ _ _ _)).
    match goal with |- wp _ ?v _ => set (w1 := v) end.
    assert (rws w1 = rws w /\ conn w1 = conn w) as [Hr Hc] by (split; apply logged_frame).
    assert (requests (trace w1) = requests (trace w)) as Ht by apply requests_logged.
    apply wp_bind. apply (wp_eq _ _ _ _ _ eq_refl). rewrite Hc in *.
    destruct (stmtcache (conn w)) as [c|].
    + apply (wp_eq _ _ _ _ _ eq_refl). destruct (answer (RStatementErrored c (sql x) e) w1).
      apply HQ; [done|]. by rewrite requests_called, Ht.
    + apply HQ; [done|]. by rewrite app_nil_r.
  - apply (wp_eq _ _ _ _ _ (log_if_run _ _ _ _ _)). apply HQ; [apply logged_frame|].
    by rewrite requests_logged, app_nil_r.
Qed.

(** What closing a result set asks of the outside: each of its readers is
    closed, once, and a failure is reported to the cache. *)
Definition close_requests (x x' : connRows) (sc : option cache) : list request :=
  if rows_closed x then []
  else from_option (fun r => [RRrClose r]) [] (resultReader x)
       ++ from_option (fun m => [RMrrClose m]) [] (multiResultReader x)
       ++ report_requests x' sc.

(** The result set after [Close]: it has the tag its reader told, and the first
    error of its own, of its reader and of the reader of the request. *)
Definition closed_with (x : connRows) (n : net) (x' : connRows) : Prop :=
  if rows_closed x then x' = x
  else commandTag x' = (reader_answer x n).1
    /\ rows_err x' = first_error [rows_err x; (reader_answer x n).2; multi_answer x n].

Lemma wp_rows_Close p w x Q :
  rws w !! p = Some x ->
  (forall x' w', moved p x w x' w' -> rows_closed x' = true ->
     requests (trace w') = requests (trace w) ++ close_requests x x' (stmtcache (conn w)) ->
     (rows_closed x = true -> w' = w) -> closed_with x (outside w) x' -> Q tt w') ->
  wp (rows_Close p) w Q.
Proof.
  intros Hw HQ. unfold rows_Close, close_requests, closed_with in *. apply wp_bind, (wp_read_rows _ _ x); [done|].
  destruct (rows_closed x) eqn:Hc.
  { apply (HQ x); [by apply moved_same|done|by rewrite app_nil_r|done|done]. }
  apply wp_bind, (wp_update_rows _ _ x); [done|].
  set (w0 := set_rws _ w). set (x0 := rows_with_closed true x) in w0.
  assert (moved p x w x0 w0) as M0 by (split; [done|by repeat split]).
  apply wp_bind, (wp_keeps conn_frame), (wp_close_reader _ _ x0);
    [apply keeps_close_reader|by eapply moved_lookup|].
  intros x1 w1 M1 C1 T1 O1 G1 N1 F1. apply wp_bind, (wp_keeps conn_frame), (wp_close_multi _ _ x1);
    [apply keeps_close_multi|by eapply moved_lookup, M1; eapply moved_lookup|].
  intros x2 w2 M2 C2 T2 G2 N2 F2. pose proof (moved_trans _ _ _ _ _ _ _ M0 (moved_trans _ _ _ _ _ _ _ M1 M2)) as M3.
  apply (wp_report _ _ x2); [by eapply moved_lookup|].
  intros w3 Hr T3. apply (HQ x2).
  - destruct M3 as [E L]. split; [by rewrite Hr, E|done].
  - rewrite C2, C1. done.
  - destruct F1 as (_&_&_&S1&_), F2 as (_&_&_&S2&_).
    rewrite T3, T2, T1, S2, S1, <- !app_assoc. done.
  - done.
  - split; [by rewrite G2, G1|]. rewrite N2, N1, O1. apply first_error_nested.
Qed.

Lemma closed_without_readers x n x' :
  closed_with x n x' -> resultReader x = None -> multiResultReader x = None -> rows_err x' = rows_err x.
Proof.
  unfold closed_with, reader_answer, multi_answer. intros Hc Hr Hm. rewrite Hr, Hm in Hc.
  destruct (rows_closed x); [by subst|]. destruct Hc as [_ ->]. simpl. by destruct (rows_err x).
Qed.

(** A result set with an error is closed, one that is not closed has a
    reader. *)
Definition rows_wf (x : connRows) : Prop :=
  (rows_err x <> None -> rows_closed x = true) /\ (rows_closed x = false -> resultReader x <> None).

Lemma closed_wf x : rows_closed x = true -> rows_wf x.
Proof. intros E. split; by rewrite E. Qed.

Lemma wp_rows_fatal p w x err Q :
  rws w !! p = Some x -> (rows_err x <> None -> rows_closed x = true) ->
  (forall x' w', moved p x w x' w' -> rows_closed x' = true ->
     (forall e, err = Some e -> rows_err x' <> None) ->
     (rows_err x = None -> forall e, err = Some e -> rows_err x' = Some e) ->
     (rows_err x = None -> resultReader x = None -> multiResultReader x = None -> rows_err x' = err) ->
     Q tt w') ->
  wp (rows_fatal p err) w Q.
Proof.
  intros Hw Hok HQ. apply wp_bind, (wp_read_rows _ _ x); [done|].
  destruct (rows_err x) as [e0|] eqn:E.
  { apply (HQ x); [by apply moved_same|by apply Hok|by rewrite E|done|done]. }
  apply wp_bind, (wp_update_rows _ _ x); [done|].
  set (x0 := rows_with_err err x). set (w0 := set_rws _ w).
  assert (moved p x w x0 w0) as M0 by (split; [done|repeat split; by rewrite ?E]).
  apply (wp_rows_Close _ _ x0); [by eapply moved_lookup|].
  intros x1 w1 M1 C1 _ _ N1. apply (HQ x1); [by eapply moved_trans|done|..].
  - intros e ->. destruct M1 as (_&_&He&_). by rewrite (He e eq_refl).
  - intros _ e ->. destruct M1 as (_&_&He&_). by apply He.
  - intros _ Hr Hm. apply (closed_without_readers _ _ _ N1 Hr Hm).
Qed.

Lemma wp_rows_Next p w x Q :
  rws w !! p = Some x -> rows_wf x ->
  (forall b x' w', moved p x w x' w' -> rows_wf x' -> rows_closed x' = negb b ->
     scanPlans x' = scanPlans x \/ b = false -> Q b w') ->
  wp (rows_Next p) w Q.
Proof.
  intros Hw [Hok Hlive] HQ. apply wp_bind, (wp_read_rows _ _ x); [done|].
  destruct (rows_closed x) eqn:Hc.
  { apply (HQ false x); [by apply moved_same|by apply closed_wf|done|by right]. }
  destruct (resultReader x) as [r|] eqn:Hr; [|by destruct (Hlive eq_refl)].
  apply wp_bind. apply (wp_eq _ _ _ _ _ eq_refl).
  destruct (answer (RNextRow r) w : bool).
  - apply wp_bind. apply (wp_eq _ _ _ _ _ eq_refl).
    apply wp_bind, (wp_update_rows _ _ x); [done|]. eapply HQ.
    + split; [done|]. by repeat split.
    + split; simpl; rewrite ?Hc, ?Hr; [|done]. intros E. by specialize (Hok E).
    + done.
    + by left.
  - apply wp_bind, (wp_rows_Close _ _ x); [done|]. intros x1 w1 M1 C1 _ _ _.
    apply (HQ false x1); [|by apply closed_wf|done|by right].
    destruct M1. by split.
Qed.

(** The programs that leave the result sets alone and return. *)
Lemma wp_plan_scans fds dest w Q :
  (forall ps w', rws w' = rws w -> length ps = Nat.min (length fds) (length dest) -> Q ps w') ->
  wp (plan_scans fds dest) w Q.
Proof.
  revert dest w Q. induction fds as [|fd fds IH]; intros [|dst dest] w Q HQ; try by apply HQ.
  cbn [plan_scans]. apply wp_bind. apply (wp_eq _ _ _ _ _ eq_refl).
  apply wp_bind, IH. intros ps w' Hr Hl. apply HQ; [done|]. simpl. by rewrite Hl.
Qed.

Lemma wp_scan_columns i fds ps vs dest acc w Q :
  length fds = length dest -> length vs = length dest -> (length dest <= length ps)%nat ->
  (forall e stored w', rws w' = rws w ->
     (e = None -> length stored = (length acc + length dest)%nat) -> Q (e, stored) w') ->
  wp (scan_columns i fds ps vs dest acc) w Q.
Proof.
  revert i fds ps vs acc w Q. induction dest as [|dst dest IH];
    intros i [|fd fds] ps [|v vs] acc w Q Hf Hv Hp HQ; try done.
  { apply HQ; [done|]. simpl. lia. }
  cbn [scan_columns]. destruct ps as [|p ps]; [simpl in Hp; lia|]. simpl in Hf, Hv, Hp.
  destruct (is_nil dst).
  - apply IH; [lia|lia|simpl; lia|]. intros e stored w' Hr Hl. apply HQ; [done|].
    intros E. rewrite (Hl E), length_app. simpl. lia.
  - apply wp_bind. apply (wp_eq _ _ _ _ _ eq_refl).
    destruct (answer (RScanInto p (DataTypeOID fd) (Format fd) v dst) w) as [e|a].
    + by apply HQ.
    + apply IH; [lia|lia|lia|]. intros e stored w' Hr Hl. apply HQ; [done|].
      intros E. rewrite (Hl E), length_app. simpl. lia.
Qed.

Lemma wp_rows_Scan p w x dest Q :
  rws w !! p = Some x -> rows_wf x -> resultReader x <> None -> scanPlans x = None ->
  (forall e stored x' w', moved p x w x' w' -> rows_wf x' ->
     (forall err, e = Some err -> rows_err x' <> None) ->
     (e = None -> length stored = length dest) ->
     Q (e, stored) w') ->
  wp (rows_Scan p dest) w Q.
Proof.
  intros Hw Hwf Hr Hp HQ. destruct (resultReader x) as [r|] eqn:Er; [|done].
  apply wp_bind, wp_bind, (wp_read_rows _ _ x); [done|]. rewrite Er.
  apply (wp_eq _ _ _ _ _ eq_refl). set (fds := rr_FieldDescriptions _ r).
  apply wp_bind, (wp_read_rows _ _ x); [done|].
  assert (forall err, wp (rows_fatal p (Some err) ;;; ret (Some err, [])) w Q) as Hfail.
  { intros err. apply wp_bind, (wp_rows_fatal _ _ x); [done|apply Hwf|]. intros x1 w1 M1 C1 E1 _ _.
    apply (HQ _ _ x1); [done|by apply closed_wf|by intros ? _; eapply E1|done]. }
  destruct (Nat.eqb_spec (length fds) (length (values x))) as [Hv|_]; [|apply Hfail].
  destruct (Nat.eqb_spec (length fds) (length dest)) as [Hd|_]; [|apply Hfail].
  simpl. rewrite Hp. apply wp_bind, wp_bind, wp_plan_scans. intros ps w1 R1 Hps.
  apply wp_bind, (wp_update_rows _ _ x); [by rewrite R1|].
  set (x2 := rows_with_plans ps x). set (w2 := set_rws _ w1).
  assert (moved p x w x2 w2) as M2 by (split; [by unfold w2; rewrite R1|by repeat split]).
  assert (rows_wf x2) as Hwf2 by exact Hwf.
  unfold wp at 1. cbn [ret].
  apply wp_bind, wp_scan_columns; [done|lia|lia|]. intros e stored w3 R3 Hl.
  assert (moved p x w x2 w3) as M3 by (destruct M2 as [E L]; split; [by rewrite R3|done]).
  destruct e as [e|].
  - apply wp_bind, (wp_rows_fatal _ _ x2); [by eapply moved_lookup|apply Hwf2|].
    intros x4 w4 M4 C4 E4 _ _. apply (HQ _ _ x4); [by eapply moved_trans|by apply closed_wf|..].
    + intros ? _. by eapply E4.
    + done.
  - apply (HQ _ _ x2); [done..|]. intros _. by apply Hl.
Qed.

Lemma row_Scan_wp p w x dest Q :
  rws w !! p = Some x -> rows_wf x -> (rows_closed x = false -> scanPlans x = None) ->
  (forall e stored x' w', moved p x w x' w' -> rows_closed x' = true ->
     (e = rows_err x' \/ (e = Some ErrNoRows /\ rows_err x' = None)) ->
     (e = None -> length stored = length dest) ->
     (forall e0, rows_err x = Some e0 -> e = Some e0) -> Q (e, stored) w') ->
  wp (row_Scan p dest) w Q.
Proof.
  intros Hw Hwf Hp HQ. apply wp_bind, wp_bind, (wp_read_rows _ _ x); [done|]. unfold wp at 1. cbn [ret].
  destruct (rows_err x) as [e0|] eqn:E0.
  { apply (HQ _ _ x); [by apply moved_same|by apply Hwf; rewrite E0|by left|done|by intros ? [= <-]]. }
  apply wp_bind, (wp_rows_Next _ _ x); [done..|]. intros b x1 w1 M1 Hwf1 C1 Hp1.
  pose proof (moved_lookup _ _ _ _ _ Hw M1) as Hw1. destruct b; simpl in C1.
  - destruct Hp1 as [Hp1|]; [|done].
    assert (rows_closed x = false) as Hopen.
    { destruct (rows_closed x) eqn:Ec; [|done]. destruct M1 as (_ & Hc & _). by rewrite Hc in C1. }
    apply wp_bind, (wp_rows_Scan _ _ x1); [done|done|by apply Hwf1|by rewrite Hp1, Hp|].
    intros e stored x2 w2 M2 Hwf2 He Hl. pose proof (moved_lookup _ _ _ _ _ Hw1 M2) as Hw2.
    apply wp_bind, (wp_rows_Close _ _ x2); [done|]. intros x3 w3 M3 C3 _ _ _.
    pose proof (moved_lookup _ _ _ _ _ Hw2 M3) as Hw3.
    apply wp_bind, wp_bind, (wp_read_rows _ _ x3); [done|]. unfold wp at 1. cbn [ret].
    apply (HQ _ _ x3); [apply (moved_trans _ _ _ _ _ _ _ M1 (moved_trans _ _ _ _ _ _ _ M2 M3))|done|by left| |done].
    intros E3. apply Hl. destruct e as [e|]; [|done].
    destruct (rows_err x2) as [e2|] eqn:E2; [|by destruct (He _ eq_refl)].
    destruct M3 as (_&_&H3&_). by rewrite (H3 _ E2) in E3.
  - apply wp_bind, wp_bind, (wp_read_rows _ _ x1); [done|]. unfold wp at 1. cbn [ret].
    destruct (rows_err x1) as [e1|] eqn:E1; apply (HQ _ _ x1); rewrite ?E1; auto; done.
Qed.

(** ** Result sets only move forward *)

Definition rows_grow (w w' : world) : Prop :=
  forall p x, rws w !! p = Some x -> exists x', rws w' !! p = Some x' /\ rows_later x x'.

#[local] Instance rows_grow_preorder : PreOrder rows_grow.
Proof.
  split; [intros w p x E; exists x; split; [done|reflexivity]|].
  intros a b c Hab Hbc p x E. destruct (Hab p x E) as (y & Ey & L1).
  destruct (Hbc p y Ey) as (z & Ez & L2). exists z. split; [done|by etrans].
Qed.

Lemma grow_quiet {A} (m : M world A) : keeps quiet m -> keeps rows_grow m.
Proof.
  intros Hm w. specialize (Hm w).
  destruct (m w) as [a w'|msg w'|]; [..|done]; destruct Hm as (E & _); intros p x Ex; exists x;
    rewrite E; (split; [done|reflexivity]).
Qed.

Lemma grow_write w p x x' :
  rws w !! p = Some x -> rows_later x x' -> rows_grow w (set_rws (<[p := x']> (rws w)) w).
Proof.
  intros E L u y Ey. simpl. destruct (decide (u = p)) as [->|Hne].
  - rewrite E in Ey. injection Ey as <-. exists x'.
    rewrite list_lookup_insert_eq by by eapply lookup_lt_Some. done.
  - exists y. rewrite list_lookup_insert_ne by done. split; [done|reflexivity].
Qed.

Lemma grow_update p f : (forall x, rows_later x (f x)) -> keeps rows_grow (update_rows p f).
Proof.
  intros Hf w. unfold update_rows, bind, read_rows, read_at.
  destruct (rws w !! p) as [x|] eqn:E; [|reflexivity]. by apply (grow_write _ _ x).
Qed.

#[local] Hint Extern 3 (keeps rows_grow (update_rows _ _)) => (apply grow_update; by repeat split) : keeps.
#[local] Hint Extern 4 (keeps rows_grow _) => (apply grow_quiet; solve [eauto 2 with keeps]) : keeps.

Lemma grow_close_reader p rd : keeps rows_grow (rows_close_reader p rd).
Proof.
  destruct rd as [r|]; simpl; [|apply (keeps_ret _)]. apply (keeps_bind _); [keeps_tac|].
  intros [tag e]. apply grow_update. intros x. transitivity (rows_with_tag tag x); [by repeat split|].
  apply first_err_later.
Qed.

Lemma grow_close_multi p rd : keeps rows_grow (rows_close_multi p rd).
Proof.
  destruct rd as [m|]; simpl; [|apply (keeps_ret _)]. apply (keeps_bind _); [keeps_tac|].
  intros e. apply grow_update. intros x. apply first_err_later.
Qed.
#[local] Hint Resolve grow_close_reader grow_close_multi : keeps.

Lemma grow_Close p : keeps rows_grow (rows_Close p).
Proof. unfold rows_Close, rows_report, read_rows. keeps_tac. Qed.
#[local] Hint Resolve grow_Close : keeps.

Lemma grow_fatal p e : keeps rows_grow (rows_fatal p e).
Proof.
  intros w. unfold rows_fatal, bind at 1, read_rows, read_at.
  destruct (rws w !! p) as [x|] eqn:E; [|reflexivity]. destruct (rows_err x) eqn:Ee; [simpl; reflexivity|].
  unfold bind at 1, update_rows, bind at 1, read_rows, read_at. rewrite E. unfold write_rows, modify.
  assert (rows_grow w (set_rws (<[p:=rows_with_err e x]> (rws w)) w)) as F.
  { apply (grow_write _ _ x); [done|]. repeat split; by rewrite ?Ee. }
  pose proof (grow_Close p (set_rws (<[p:=rows_with_err e x]> (rws w)) w)) as Hk.
  destruct (rows_Close p _); [by etrans|by etrans|done].
Qed.
#[local] Hint Resolve grow_fatal : keeps.

Lemma grow_Next p : keeps rows_grow (rows_Next p).
Proof. unfold rows_Next, read_rows, observe. keeps_tac. Qed.

Lemma grow_plan_scans fds dest : keeps rows_grow (plan_scans fds dest).
Proof. revert dest. induction fds as [|fd fds IH]; intros [|dst dest]; cbn [plan_scans]; keeps_tac. Qed.

Lemma grow_scan_columns i fds ps vs dest acc : keeps rows_grow (scan_columns i fds ps vs dest acc).
Proof.
  revert i fds ps vs acc. induction dest as [|dst dest IH]; intros i [|fd fds] ps [|v vs] acc;
    cbn [scan_columns]; keeps_tac.
Qed.
#[local] Hint Resolve grow_plan_scans grow_scan_columns : keeps.

Lemma grow_Scan p dest : keeps rows_grow (rows_Scan p dest).
Proof. unfold rows_Scan, rows_FieldDescriptions, read_rows, observe. keeps_tac. Qed.

(** ** Theorems *)

(** C20. Closing a result set returns and closes each of its readers once.  The
    result set then has the tag its reader told and the first error there was:
    its own, the one of its reader, or the one of the reader of the whole
    request.  A failure is reported to the statement cache, and closing the
    result set again does nothing. *)
Theorem rows_Close_once p w x :
  rws w !! p = Some x ->
  exists x' w', rows_Close p w = Ok tt w'
  /\ rws w' = <[p := x']> (rws w)
  /\ rows_closed x' = true
  /\ (forall e, rows_err x = Some e -> rows_err x' = Some e)
  /\ closed_with x (outside w) x'
  /\ requests (trace w') = requests (trace w) ++ close_requests x x' (stmtcache (conn w))
  /\ rows_Close p w' = Ok tt w'.
Proof.
  intros Hw. assert (wp (rows_Close p) w (fun _ w' => exists x', moved p x w x' w'
    /\ rows_closed x' = true /\ closed_with x (outside w) x'
    /\ requests (trace w') = requests (trace w) ++ close_requests x x' (stmtcache (conn w)))) as Hwp.
  { apply (wp_rows_Close _ _ x); eauto 10. }
  apply wp_Ok in Hwp as ([] & w' & E & x' & M1 & C1 & T1 & T2).
  exists x', w'. destruct (id M1) as (R1 & _ & He & _). do 6 (split; [done|]).
  pose proof (moved_lookup _ _ _ _ _ Hw M1) as Hw'.
  assert (wp (rows_Close p) w' (fun _ w2 => w2 = w')) as Hwp2 by (apply (wp_rows_Close _ _ x'); auto).
  by apply wp_Ok in Hwp2 as ([] & w2 & E2 & ->).
Qed.

(** Reading a row returns; when it reports the end of the rows the result
    set is closed, and otherwise it is not. *)
Theorem rows_Next_closes p w x :
  rws w !! p = Some x -> rows_wf x ->
  exists b x' w', rows_Next p w = Ok b w' /\ rws w' = <[p := x']> (rws w)
    /\ rows_wf x' /\ rows_closed x' = negb b.
Proof.
  intros Hw Hwf.
  assert (wp (rows_Next p) w (fun b w' => exists x', rws w' = <[p := x']> (rws w)
    /\ rows_wf x' /\ rows_closed x' = negb b)) as Hwp.
  { apply (wp_rows_Next _ _ x); [done..|]. intros b x' w' [] ? ? _. eauto. }
  apply wp_Ok in Hwp as (b & w' & E & x' & ?). eauto.
Qed.

(** C32. [Scan] of a single row returns with the result set closed.  The error
    it returns is the one of the result set, or [ErrNoRows] for an empty one;
    without an error every destination was handled. *)
Theorem row_Scan_closes p w x dest :
  rws w !! p = Some x -> rows_wf x -> (rows_closed x = false -> scanPlans x = None) ->
  exists e stored x' w', row_Scan p dest w = Ok (e, stored) w'
    /\ rws w' = <[p := x']> (rws w)
    /\ rows_closed x' = true
    /\ (e = rows_err x' \/ (e = Some ErrNoRows /\ rows_err x' = None))
    /\ (e = None -> length stored = length dest).
Proof.
  intros Hw Hwf Hp.
  assert (wp (row_Scan p dest) w (fun '(e, stored) w' => exists x', rws w' = <[p := x']> (rws w)
    /\ rows_closed x' = true /\ (e = rows_err x' \/ (e = Some ErrNoRows /\ rows_err x' = None))
    /\ (e = None -> length stored = length dest))) as Hwp.
  { apply (row_Scan_wp _ _ x); [done..|]. intros e stored x' w' [R _] C E L _. by exists x'. }
  apply wp_Ok in Hwp as ([e stored] & w' & E & x' & Hx). exists e, stored, x', w'. split; [exact E|exact Hx].
Qed.

(** A binary column of a registered type that cannot decode the binary
    format is returned as whatever the registry's value holds, whatever the
    bytes of the row are. *)
Theorem Values_binary_without_decoder n fd dt buf buf' v v' :
  DataTypeForOID (DataTypeOID fd) = Some dt -> dt_BinaryDecoder dt = None ->
  Format fd = BinaryFormatCode ->
  decode_column n fd buf = inr v -> decode_column n fd buf' = inr v' -> v = v'.
Proof.
  unfold decode_column. intros -> -> ->. simpl.
  destruct (GenericBinary_Decode buf), (GenericBinary_Decode buf'); congruence.
Qed.

End Rows.

#[export] Existing Instance rows_grow_preorder.
#[export] Hint Resolve grow_Close grow_Next grow_Scan : keeps.
#[export] Hint Resolve keeps_rows_FieldDescriptions keeps_rows_Close keeps_rows_Err keeps_rows_fatal
  keeps_rows_Next keeps_rows_Scan keeps_row_Scan : keeps.

(** ** Examples on the small server *)

#[local] Existing Instance Sample.types.
#[local] Existing Instance Toy.pgconn.
#[local] Existing Instance Toy.decoders.

(** A statement whose reader tells an error when it is closed. *)
Definition failed_rows : connRows :=
  mkConnRows Background true [] 0 None [] (str "bad") [] false (Some (Rr 0)) (Some (Mrr 0)) None.

Definition reading_failed : world :=
  mkWorld (Toy.connection false (Some (Cache 0))) (Toy.start (str "bad") Toy.idle) [] [] [] [failed_rows] [] [].

Lemma rows_Close_once_witness :
  exists x' w', rows_Close 0 reading_failed = Ok tt w'
  /\ rws w' = [x'] /\ rows_closed x' = true /\ rows_err x' = Some (Toy.failed (str "bad"))
  /\ requests (trace w') = close_requests failed_rows x' (Some (Cache 0))
  /\ rows_Close 0 w' = Ok tt w'.
Proof.
  destruct (rows_Close_once 0 reading_failed failed_rows eq_refl) as (x' & w' & E & Hr & Hc & _ & [_ He] & Ht & E2).
  exists x', w'. split; [exact E|]. split; [exact Hr|]. split; [exact Hc|].
  split; [rewrite He; evaluates|]. split; [exact Ht|exact E2].
Defined.

Lemma open_rows_wf : rows_wf Toy.open_rows.
Proof. split; done. Qed.

Lemma rows_Next_closes_witness :
  exists b x' w', rows_Next 0 Toy.reading = Ok b w' /\ rws w' = <[0%nat := x']> (rws Toy.reading)
    /\ rows_wf x' /\ rows_closed x' = negb b.
Proof. exact (rows_Next_closes 0 Toy.reading Toy.open_rows eq_refl open_rows_wf). Defined.

Lemma row_Scan_closes_witness :
  exists e stored x' w', row_Scan 0 [VPtr (str "int32") VNil] Toy.reading = Ok (e, stored) w'
    /\ rws w' = <[0%nat := x']> (rws Toy.reading)
    /\ rows_closed x' = true
    /\ (e = rows_err x' \/ (e = Some ErrNoRows /\ rows_err x' = None))
    /\ (e = None -> length stored = 1%nat).
Proof.
  exact (row_Scan_closes 0 Toy.reading Toy.open_rows [VPtr (str "int32") VNil]
           eq_refl open_rows_wf (fun _ => eq_refl)).
Defined.

Lemma Values_binary_without_decoder_witness :
  let fd := mkFieldDescription (str "n") 23 4 (-1) 1 in
  exists v v', decode_column Toy.idle fd (be32 7) = inr v /\ decode_column Toy.idle fd (be32 8) = inr v'
    /\ v = v'.
Proof.
  eexists _, _. split; [reflexivity|]. split; [reflexivity|].
  apply (@Values_binary_without_decoder Sample.types Toy.pgconn Toy.decoders Toy.idle (mkFieldDescription (str "n") 23 4 (-1) 1)
    Sample.Int4    (be32 7) (be32 8)); reflexivity.
Defined.
