(* ===== verification/Config.v ===== *)
(** Configuration and connecting (conn.go): identifiers and their quoting,
    [ParseConfig], [connect]. *)

From S2P Require Import Prelude GoStd GoVal Effects Values PgConn Logger World Toy.

Local Open Scope Z_scope.

(** ** Identifiers *)

Definition dquote : ascii := byte_of 34.

Definition quoteIdentifier (s : gostring) : gostring :=
  [dquote] ++ ReplaceAll s [dquote] [dquote; dquote] ++ [dquote].

Definition Identifier_Sanitize (ident : list gostring) : gostring :=
  Join (map (fun part => quoteIdentifier (ReplaceAll part [byte_of 0] [])) ident) (str ".").

Section Config.
Context `{PgConn}.

(** [pgconn.ParseConfig], [pgconn.ConnectConfig]. *)
Context (pg_ParseConfig : gostring -> error + PgConfig).
Context (pg_ConnectConfig : context -> PgConfig -> error + net).

Definition with_RuntimeParams (m : gmap gostring gostring) (c : PgConfig) : PgConfig :=
  mkPgConfig (Host c) (Port c) (Database c) (User c) m (OnNotification c).

(** [statement_cache_capacity] *)
Definition parse_capacity (m : gmap gostring gostring) : error + (Z * gmap gostring gostring) :=
  match m !! str "statement_cache_capacity" with
  | None => inr (512, m)
  | Some s =>
      match ParseInt s 32 with
      | inl e => inl (WrapError (str "cannot parse statement_cache_capacity: ")
                        (NumErr (str "ParseInt") s e))
      | inr n => inr (n, delete (str "statement_cache_capacity") m)
      end
  end.

(** [statement_cache_mode] *)
Definition parse_mode (m : gmap gostring gostring) : error + (cache_mode * gmap gostring gostring) :=
  match m !! str "statement_cache_mode" with
  | None => inr (ModePrepare, m)
  | Some s =>
      let m' := delete (str "statement_cache_mode") m in
      if bool_decide (s = str "prepare") then inr (ModePrepare, m')
      else if bool_decide (s = str "describe") then inr (ModeDescribe, m')
      else inl (ErrorString (str "invalid statement_cache_mod: " ++ s))
  end.

(** [prefer_simple_protocol] *)
Definition parse_simple (m : gmap gostring gostring) : error + (bool * gmap gostring gostring) :=
  match m !! str "prefer_simple_protocol" with
  | None => inr (false, m)
  | Some s =>
      match ParseBool s with
      | Some b => inr (b, delete (str "prefer_simple_protocol") m)
      | None => inl (FormatError (str "invalid prefer_simple_protocol: ")
                       (NumErr (str "ParseBool") s ErrSyntax))
      end
  end.

Definition ParseConfig (connString : gostring) : error + ConnConfig :=
  match pg_ParseConfig connString with
  | inl e => inl e
  | inr config =>
  match parse_capacity (RuntimeParams config) with
  | inl e => inl e
  | inr (statementCacheCapacity, m1) =>
  match parse_mode m1 with
  | inl e => inl e
  | inr (statementCacheMode, m2) =>
      let buildStatementCache :=
        if 0 <? statementCacheCapacity
        then Some (NewCache statementCacheMode statementCacheCapacity) else None in
      match parse_simple m2 with
      | inl e => inl e
      | inr (preferSimpleProtocol, m3) =>
          inr (mkConnConfig (with_RuntimeParams m3 config) false LogLevelInfo connString
                 buildStatementCache preferSimpleProtocol true)
      end
  end end end.

(** ** connect *)

(** Logging before there is a connection: no pid. *)
Definition early_log (config : ConnConfig) (ctx : context) (lvl : Z) (msg : gostring) (data : logdata)
  : list event :=
  if cc_Logger config && (lvl <=? cc_LogLevel config) then [Logged ctx lvl msg data] else [].

Definition with_stmtcache (sc : option cache) (c : Conn) : Conn :=
  mkConn (config c) (preparedStatements c) sc (logger c) (logLevel c) (notifications c)
    (bufferingNotifications c) (preallocatedRows c) (eqb c).

(** The notification handler is installed in a copy of the configuration; the
    connection keeps the original. *)
Definition connect (ctx : context) (cfg : ConnConfig) : outcome (list event * (error + world)) :=
  if negb (createdByParseConfig cfg) then Panic (str "config must be created by ParseConfig")
  else
    let host := [(str "host", LStr (Host (Config cfg)))] in
    let ev1 := if OnNotification (Config cfg)
               then early_log cfg ctx LogLevelDebug
                      (str "pgx notification handler disabled by application supplied OnNotification") host
               else [] in
    let ev2 := ev1 ++ early_log cfg ctx LogLevelInfo (str "Dialing PostgreSQL server") host in
    let pg := Config cfg in
    let dialed := mkPgConfig (Host pg) (Port pg) (Database pg) (User pg) (RuntimeParams pg) true in
    match pg_ConnectConfig ctx dialed with
    | inl e => Ret (ev2 ++ early_log cfg ctx LogLevelError (str "connect failed") [(str "err", LErr e)], inl e)
    | inr n =>
        let c := mkConn cfg ∅ None (cc_Logger cfg) (cc_LogLevel cfg) []
                   (negb (OnNotification (Config cfg))) 0 (mkEqb [] [] [] []) in
        let w := mkWorld c n ev2 [] [] [] [] [] in
        let w' := match BuildStatementCache cfg with
                  | None => w
                  | Some b =>
                      set_conn (with_stmtcache (Some (answer (RCacheBuild b) w)) (conn (called (RCacheBuild b) w)))
                        (called (RCacheBuild b) w)
                  end in
        Ret (trace w', inr w')
    end.

Definition Connect (ctx : context) (connString : gostring) : outcome (list event * (error + world)) :=
  match ParseConfig connString with
  | inl e => Ret ([], inl e)
  | inr cfg => connect ctx cfg
  end.

End Config.

(** ** Reading identifiers back *)

(** A quoted identifier ends at a quote that is not doubled. *)
Fixpoint read_ident_body (s : gostring) : option (gostring * gostring) :=
  match s with
  | [] => None
  | c :: s1 =>
      if decide (dquote = c) then
        match s1 with
        | c2 :: s2 =>
            if decide (dquote = c2) then prod_map (cons dquote) id <$> read_ident_body s2
            else Some ([], s1)
        | [] => Some ([], [])
        end
      else prod_map (cons c) id <$> read_ident_body s1
  end.

Definition read_ident (s : gostring) : option (gostring * gostring) :=
  match s with
  | c :: s' => if decide (dquote = c) then read_ident_body s' else None
  | [] => None
  end.

(** Identifiers separated by dots; the fuel is above their number. *)
Fixpoint read_idents (fuel : nat) (s : gostring) : option (list gostring) :=
  match fuel with
  | O => None
  | S f =>
      match read_ident s with
      | Some (part, []) => Some [part]
      | Some (part, c :: s') =>
          if decide ("."%char = c) then cons part <$> read_idents f s' else None
      | None => None
      end
  end.

Definition no_dquote_next (t : gostring) : Prop :=
  match t with c :: _ => c <> dquote | [] => True end.

Definition escape_dquotes (s : gostring) : gostring :=
  flat_map (fun c => if decide (dquote = c) then [dquote; dquote] else [c]) s.

Lemma read_escaped s t :
  no_dquote_next t -> read_ident_body (escape_dquotes s ++ dquote :: t) = Some (s, t).
Proof.
  intros Ht. induction s as [|c s IH]; cbn [escape_dquotes flat_map app].
  - cbn [read_ident_body]. rewrite decide_True by done. destruct t as [|c t]; [done|].
    simpl in Ht. by rewrite decide_False.
  - fold (escape_dquotes s). destruct (decide (dquote = c)) as [<-|Hn]; cbn [app read_ident_body].
    + rewrite !decide_True by done. by rewrite IH.
    + rewrite decide_False by done. by rewrite IH.
Qed.

Lemma read_quoted s t : no_dquote_next t -> read_ident (quoteIdentifier s ++ t) = Some (s, t).
Proof.
  intros Ht. unfold quoteIdentifier. rewrite ReplaceAll_byte. fold (escape_dquotes s).
  rewrite <- !app_assoc. cbn [app read_ident]. rewrite decide_True by done. by apply read_escaped.
Qed.

Definition strip_nul (s : gostring) : gostring := ReplaceAll s [byte_of 0] [].

Lemma Sanitize_ident_cons p ps :
  Identifier_Sanitize (p :: ps)
  = quoteIdentifier (strip_nul p) ++ match ps with [] => [] | _ => "."%char :: Identifier_Sanitize ps end.
Proof. destruct ps; [by unfold Identifier_Sanitize; simpl; rewrite app_nil_r|done]. Qed.

Lemma strip_nul_spec s : strip_nul s = filter (fun c => c <> byte_of 0) s.
Proof.
  unfold strip_nul. rewrite ReplaceAll_byte. induction s as [|c s IH]; [done|].
  rewrite filter_cons. simpl. rewrite IH. destruct (decide (byte_of 0 = c)) as [<-|Hn].
  - rewrite decide_False by auto. done.
  - rewrite decide_True by auto. done.
Qed.

(** ** Theorems *)

(** C38. A quoted identifier is one SQL identifier that reads back as the name,
    quotes and dots included, and [Identifier.Sanitize] reads back as the list
    of its parts without their zero bytes. *)
Theorem Identifier_Sanitize_roundtrip :
  (forall s t, no_dquote_next t -> read_ident (quoteIdentifier s ++ t) = Some (s, t))
  /\ (forall ident fuel, ident <> [] -> (length ident <= fuel)%nat ->
        read_idents fuel (Identifier_Sanitize ident)
        = Some (map (filter (fun c => c <> byte_of 0)) ident)).
Proof.
  split; [apply read_quoted|]. induction ident as [|p ps IH]; intros fuel Hne Hf; [done|].
  destruct fuel as [|f]; [simpl in Hf; lia|]. rewrite Sanitize_ident_cons. cbn [read_idents map].
  rewrite <- strip_nul_spec. destruct ps as [|p2 ps].
  - by rewrite read_quoted.
  - rewrite read_quoted by done. rewrite decide_True by done. simpl in Hf.
    rewrite IH; [done|done|simpl; lia].
Qed.

(** The options of the driver leave the parameters sent to the server. *)
Definition driver_options : list gostring :=
  [str "statement_cache_capacity"; str "statement_cache_mode"; str "prefer_simple_protocol"].

Lemma parse_capacity_params m n m' :
  parse_capacity m = inr (n, m') -> m' = delete (str "statement_cache_capacity") m.
Proof.
  unfold parse_capacity. destruct (m !! _) eqn:E; [|intros [= <- <-]; by rewrite delete_id].
  destruct (ParseInt _ _); by intros [= <- <-].
Qed.

Lemma parse_mode_params m n m' :
  parse_mode m = inr (n, m') -> m' = delete (str "statement_cache_mode") m.
Proof.
  unfold parse_mode. destruct (m !! _) eqn:E; [|intros [= <- <-]; by rewrite delete_id].
  repeat case_bool_decide; by intros [= <- <-].
Qed.

Lemma parse_simple_params m n m' :
  parse_simple m = inr (n, m') -> m' = delete (str "prefer_simple_protocol") m.
Proof.
  unfold parse_simple. destruct (m !! _) eqn:E; [|intros [= <- <-]; by rewrite delete_id].
  destruct (ParseBool _); by intros [= <- <-].
Qed.

(** C39. A parsed configuration is accepted by [connect] and is what the options
    say: the driver's own options are removed from the run-time parameters and
    the others unchanged; the capacity of the statement cache is a 32-bit number,
    512 by default, and there is no cache when it is not positive; the mode of
    the cache and the protocol are the ones named, or the defaults. *)
Theorem ParseConfig_sound pg_Parse s cfg :
  ParseConfig pg_Parse s = inr cfg ->
  exists pg n mode, pg_Parse s = inr pg
  /\ createdByParseConfig cfg = true /\ connString cfg = s
  /\ (forall k, RuntimeParams (Config cfg) !! k
        = if decide (k ∈ driver_options) then None else RuntimeParams pg !! k)
  /\ match RuntimeParams pg !! str "statement_cache_capacity" with
     | Some t => ParseInt t 32 = inr n
     | None => n = 512
     end
  /\ match RuntimeParams pg !! str "statement_cache_mode" with
     | Some t => t = match mode with ModePrepare => str "prepare" | ModeDescribe => str "describe" end
     | None => mode = ModePrepare
     end
  /\ BuildStatementCache cfg = (if 0 <? n then Some (NewCache mode n) else None)
  /\ match RuntimeParams pg !! str "prefer_simple_protocol" with
     | Some t => ParseBool t = Some (PreferSimpleProtocol cfg)
     | None => PreferSimpleProtocol cfg = false
     end.
Proof.
  unfold ParseConfig. destruct (pg_Parse s) as [e|pg]; [done|].
  destruct (parse_capacity _) as [e|[n m1]] eqn:E1; [done|].
  destruct (parse_mode _) as [e|[mode m2]] eqn:E2; [done|].
  destruct (parse_simple _) as [e|[simple m3]] eqn:E3; [done|]. intros [= <-].
  exists pg, n, mode. do 3 (split; [done|]). split; [|split; [|split; [|split; [done|]]]].
  - intros k. cbn [Config RuntimeParams with_RuntimeParams].
    rewrite (parse_simple_params _ _ _ E3), (parse_mode_params _ _ _ E2),
      (parse_capacity_params _ _ _ E1). unfold driver_options.
    destruct (decide _) as [Hk|Hk].
    + rewrite !elem_of_cons, elem_of_nil in Hk. destruct Hk as [E|[E|[E|[]]]]; subst k.
      * rewrite !lookup_delete_ne by done. apply lookup_delete_eq.
      * rewrite lookup_delete_ne by done. apply lookup_delete_eq.
      * apply lookup_delete_eq.
    + rewrite !elem_of_cons, elem_of_nil in Hk. rewrite !lookup_delete_ne by (intros E; apply Hk; subst k; auto). done.
  - unfold parse_capacity in E1. destruct (_ !! _) as [t|]; [|by injection E1].
    destruct (ParseInt t 32); [done|]. by injection E1 as <- _.
  - rewrite (parse_capacity_params _ _ _ E1) in E2. unfold parse_mode in E2. rewrite lookup_delete_ne in E2 by done.
    destruct (_ !! _) as [t|]; [|by injection E2]. repeat case_bool_decide; by simplify_eq.
  - rewrite (parse_mode_params _ _ _ E2), (parse_capacity_params _ _ _ E1) in E3. unfold parse_simple in E3.
    rewrite !lookup_delete_ne in E3 by done.
    destruct (_ !! _) as [t|]; [|by injection E3]. destruct (ParseBool t); by simplify_eq.
Qed.

Definition sample_parser (_ : gostring) : error + PgConfig :=
  inr (mkPgConfig [] 5432 [] []
    (<[str "statement_cache_capacity" := str "0"]> (<[str "search_path" := str "s"]> ∅)) false).

Lemma ParseConfig_sound_witness :
  exists cfg, ParseConfig sample_parser [] = inr cfg /\ createdByParseConfig cfg = true.
Proof.
  destruct (inr_by_test (ParseConfig sample_parser []) ltac:(evaluates)) as [cfg E].
  exists cfg. split; [exact E|].
  destruct (ParseConfig_sound sample_parser [] cfg E) as (? & ? & ? & _ & Hc & _). exact Hc.
Defined.

Section Connecting.
Context `{PgConn}.

(** [connect] panics exactly on a configuration not made by [ParseConfig].
    A connection it returns has the configuration it was given and is empty,
    has a cache exactly when one is configured, and buffers notifications
    exactly when the application has no handler of its own. *)
Theorem connect_spec dial ctx cfg :
  (createdByParseConfig cfg = false <-> exists msg, connect dial ctx cfg = Panic msg)
  /\ (forall t w, connect dial ctx cfg = Ret (t, inr w) ->
       t = trace w
       /\ config (conn w) = cfg
       /\ preparedStatements (conn w) = ∅
       /\ bufferingNotifications (conn w) = negb (OnNotification (Config cfg))
       /\ (stmtcache (conn w) = None <-> BuildStatementCache cfg = None)
       /\ txs w = [] /\ sps w = [] /\ rws w = []).
Proof.
  unfold connect. destruct (createdByParseConfig cfg); simpl.
  2:{ split; [split; [by eauto|done]|done]. }
  split; [split; [done|]; intros [msg Hm]; by destruct (dial _ _)|].
  intros t w. destruct (dial _ _) as [e|n]; [done|]. intros [= <- <-].
  split; [done|]. destruct (BuildStatementCache cfg) as [b|]; [|done].
  unfold set_conn, called, bufferNotifications; simpl.
  by destruct (OnNotification (Config cfg)).
Qed.
End Connecting.
