(* ===== verification/Conn.v ===== *)
(** The connection (conn.go): preparing, executing and querying, notifications,
    and the sending of batches. *)

From S2P Require Import Prelude GoStd GoVal Effects Sanitize Values PgConn Logger World Toy Rows Config.

Local Open Scope Z_scope.

Section Conn.
Context `{PgTypes} `{PgConn} `{!PgDecoders}.

(** The fuel of the recursions of values.go and of the loops over results and
    rows. *)
Context (fuel : nat).

Definition get_prepared (name : gostring) : M world (option StatementDescription) :=
  gets (fun w => preparedStatements (conn w) !! name).

(** ** Prepared statements *)

Definition Conn_Prepare (ctx : context) (name sql : gostring) : M world (error + StatementDescription) :=
  let* known := get_prepared name in
  let prepare :=
    let* r := call (RPrepare ctx name sql) in
    match r with
    | inl e =>
        log_if ctx LogLevelError (str "Prepare failed")
          [(str "err", LErr e); (str "name", LStr name); (str "sql", LStr sql)] ;;;
        ret (inl e)
    | inr sd =>
        when (negb (bool_decide (name = [])))
          (modify_conn (fun c => with_preparedStatements (<[name := sd]> (preparedStatements c)) c)) ;;;
        ret (inr sd)
    end in
  match known with
  | Some sd =>
      if negb (bool_decide (name = [])) && bool_decide (sd_SQL sd = sql) then ret (inr sd) else prepare
  | None => prepare
  end.

Definition Deallocate (ctx : context) (name : gostring) : M world (option error) :=
  modify_conn (fun c => with_preparedStatements (delete name (preparedStatements c)) c) ;;;
  let* m := call (RExec ctx (str "deallocate " ++ quoteIdentifier name)) in
  call (RReadAll m).

(** ** Notifications *)

(** [n = c.notifications[0]; c.notifications = c.notifications[1:]] *)
Definition pop_notification : M world (option Notification) :=
  let* ns := gets (fun w => notifications (conn w)) in
  match ns with
  | [] => ret None
  | n :: rest => modify_conn (with_notifications rest) ;;; ret (Some n)
  end.

Definition WaitForNotification (ctx : context) : M world (option Notification * option error) :=
  let* n := pop_notification in
  match n with
  | Some _ => ret (n, None)
  | None =>
      let* err := call (RWaitForNotification ctx) in
      let* n := pop_notification in
      ret (n, err)
  end.

(** ** The simple protocol *)

(** The loop over the arguments of [sanitizeForSimpleQuery]. *)
Fixpoint convert_args (args : list goval) : comp (error + list goval) :=
  match args with
  | [] => Done (inr [])
  | a :: args' =>
      let? r := convertSimpleArgument fuel a in
      match r with
      | inl e => Done (inl e)
      | inr v =>
          let? rest := convert_args args' in
          Done match rest with inl e => inl e | inr vs => inr (v :: vs) end
      end
  end.

Definition not_conforming : error :=
  errors_New "simple protocol queries must be run with standard_conforming_strings=on".
Definition not_utf8 : error :=
  errors_New "simple protocol queries must be run with client_encoding=UTF8".

Definition sanitizeForSimpleQuery (sql : gostring) (args : list goval) : M world (error + gostring) :=
  let* conforming := observe (fun n => ParameterStatus n (str "standard_conforming_strings")) in
  if negb (bool_decide (conforming = str "on")) then ret (inl not_conforming)
  else
    let* encoding := observe (fun n => ParameterStatus n (str "client_encoding")) in
    if negb (bool_decide (encoding = str "UTF8")) then ret (inl not_utf8)
    else
      let* valueArgs := lift (convert_args args) in
      match valueArgs with
      | inl e => ret (inl e)
      | inr vs => lift (of_fueled (SanitizeSQL sql vs))
      end.

(** The results of a simple query: the tag is the one of the last result. *)
Definition exec_results (m : mrr) : M world (CommandTag * option error) :=
  let* tag := loop fuel (fun tag =>
    let* more := call (RNextResult m) in
    if more then
      let* r := observe (fun n => ResultReader n m) in
      let* '(tag, _) := call (RRrClose r) in
      ret (inl tag)
    else ret (inr tag)) [] in
  let* err := call (RMrrClose m) in
  ret (tag, err).

Definition execSimpleProtocol (ctx : context) (sql : gostring) (args : list goval)
  : M world (CommandTag * option error) :=
  let send (text : gostring) := let* m := call (RExec ctx text) in exec_results m in
  match args with
  | [] => send sql
  | _ :: _ =>
      let* r := sanitizeForSimpleQuery sql args in
      match r with
      | inl e => ret ([], Some e)
      | inr text => send text
      end
  end.

(** ** The extended protocol *)

Definition argument_count (want got : nat) : error :=
  ErrorString (str "expected " ++ FormatInt (Z.of_nat want) ++ str " arguments, got "
    ++ FormatInt (Z.of_nat got)).

Definition reset_eqb : M world unit := modify_conn (fun c => with_eqb (eqb_Reset (eqb c)) c).

(** The loop of [AppendParam] over the arguments. *)
Definition eqb_append_params (oids : list Z) (args : list goval) : M world (option error) :=
  let* b := gets (fun w => eqb (conn w)) in
  let* '(e, b') := lift (append_params fuel oids args b) in
  modify_conn (with_eqb b') ;;;
  ret e.

Definition eqb_append_results (fields : list FieldDescription) : M world unit :=
  modify_conn (fun c => with_eqb (append_result_formats (map DataTypeOID fields) (eqb c)) c).

(** The formats asked for the columns of a statement. *)
Definition result_formats (sd : StatementDescription) : list Z :=
  map (fun fd => ResultFormatCodeForOID (DataTypeOID fd)) (Fields sd).

(** The arguments are converted in the caller's slice, whose new content is
    returned with the error. *)
Definition execParamsAndPreparedPrefix (sd : StatementDescription) (args : list goval)
  : M world (option error * list goval) :=
  if negb (length (ParamOIDs sd) =? length args)%nat then
    ret (Some (argument_count (length (ParamOIDs sd)) (length args)), args)
  else
    reset_eqb ;;;
    match convertDriverValuers args with
    | (left_args, Some e) => ret (Some e, left_args)
    | (converted, None) =>
        let* e := eqb_append_params (ParamOIDs sd) converted in
        match e with
        | Some _ => ret (e, converted)
        | None => eqb_append_results (Fields sd) ;;; ret (None, converted)
        end
    end.

Definition execParams (ctx : context) (sd : StatementDescription) (args : list goval)
  : M world (CommandTag * option error * list goval) :=
  let* '(e, left_args) := execParamsAndPreparedPrefix sd args in
  match e with
  | Some _ => ret ([], e, left_args)
  | None =>
      let* b := gets (fun w => eqb (conn w)) in
      let* r := call (RExecParams ctx (sd_SQL sd) (paramValues b) (ParamOIDs sd)
                        (paramFormats b) (resultFormats b)) in
      let* '(tag, err) := call (RRead r) in
      reset_eqb ;;;
      ret (tag, err, left_args)
  end.

Definition execPrepared (ctx : context) (sd : StatementDescription) (args : list goval)
  : M world (CommandTag * option error * list goval) :=
  let* '(e, left_args) := execParamsAndPreparedPrefix sd args in
  match e with
  | Some _ => ret ([], e, left_args)
  | None =>
      let* b := gets (fun w => eqb (conn w)) in
      let* r := call (RExecPrepared ctx (sd_Name sd) (paramValues b) (paramFormats b) (resultFormats b)) in
      let* '(tag, err) := call (RRead r) in
      reset_eqb ;;;
      ret (tag, err, left_args)
  end.

(** ** Exec *)

Definition QuerySimpleProtocol_name : gostring := str "pgx.QuerySimpleProtocol".

(** [arg.(QuerySimpleProtocol)] *)
Definition as_QuerySimpleProtocol (v : goval) : option bool :=
  match v with
  | VBool (Some n) b => if bool_decide (n = QuerySimpleProtocol_name) then Some b else None
  | _ => None
  end.

(** The options at the head of the arguments of [exec]. *)
Fixpoint exec_options (simple : bool) (args : list goval) : bool * list goval :=
  match args with
  | [] => (simple, [])
  | a :: args' =>
      match as_QuerySimpleProtocol a with
      | Some b => exec_options b args'
      | None => (simple, args)
      end
  end.

(** The last component is the content of the slice of arguments afterwards,
    without the options. *)
Definition conn_exec (ctx : context) (sql : gostring) (arguments : list goval)
  : M world (CommandTag * option error * list goval) :=
  let* prefer := gets (fun w => PreferSimpleProtocol (config (conn w))) in
  let '(simpleProtocol, args) := exec_options prefer arguments in
  let simply := let* '(tag, err) := execSimpleProtocol ctx sql args in ret (tag, err, args) in
  let* known := get_prepared sql in
  match known with
  | Some sd => execPrepared ctx sd args
  | None =>
      if simpleProtocol then simply
      else if (length args =? 0)%nat then simply
      else
        let* sc := gets (fun w => stmtcache (conn w)) in
        match sc with
        | Some c =>
            let* r := call (RCacheGet c ctx sql) in
            match r with
            | inl e => ret ([], Some e, args)
            | inr sd =>
                let* mode := observe (fun n => cache_Mode n c) in
                match mode with
                | ModeDescribe => execParams ctx sd args
                | ModePrepare => execPrepared ctx sd args
                end
            end
        | None =>
            let* r := Conn_Prepare ctx [] sql in
            match r with
            | inl e => ret ([], Some e, args)
            | inr sd => execPrepared ctx sd args
            end
        end
  end.

Definition Conn_Exec (ctx : context) (sql : gostring) (arguments : list goval)
  : M world (CommandTag * option error) :=
  let* '(tag, err, left_args) := conn_exec ctx sql arguments in
  let logged_args := take (length arguments - length left_args) arguments ++ left_args in
  match err with
  | Some e =>
      log_if ctx LogLevelError (str "Exec")
        [(str "sql", LStr sql); (str "args", LArgs (logQueryArgs logged_args)); (str "err", LErr e)] ;;;
      ret (tag, err)
  | None =>
      log_if ctx LogLevelInfo (str "Exec")
        [(str "sql", LStr sql); (str "args", LArgs (logQueryArgs logged_args));
         (str "time", LTime); (str "commandTag", LTag tag)] ;;;
      ret (tag, err)
  end.

Definition Ping (ctx : context) : M world (option error) :=
  let* '(_, err) := Conn_Exec ctx (str ";") [] in ret err.

(** [connInfoFromRows]: the loop over the rows of names and OIDs.  [Text_String]
    is the field of the pgtype.Text the name is scanned into. *)
Definition name_oid_rows (Text_String : goval -> gostring) (p : nat) : M world (error + gmap gostring Z) :=
  loop fuel (fun nameOIDs : gmap gostring Z =>
    let* more := rows_Next p in
    if more then
      let* '(err, stored) := rows_Scan p [VPtr (str "uint32") (VInt KUint32 None 0); VExt (str "*pgtype.Text") 0] in
      match err with
      | Some e => ret (inr (inl e))
      | None =>
          let oid := match stored with Some (VInt _ _ z) :: _ => z | _ => 0 end in
          let name := match stored with [_; Some v] => Text_String v | _ => [] end in
          ret (inl (<[name := oid]> nameOIDs))
      end
    else
      let* err := rows_Err p in
      ret (inr match err with Some e => inl e | None => inr nameOIDs end)) ∅.

Definition connInfoFromRows (Text_String : goval -> gostring) (p : nat) (err : option error)
  : M world (error + gmap gostring Z) :=
  match err with
  | Some e => ret (inl e)
  | None => defer (inr ∅) (fun r => rows_Close p ;;; ret r) (name_oid_rows Text_String p)
  end.

(** ** Query *)

(** [getRows]: the result sets are handed out one by one from blocks of 64 zero
    values. *)
Definition getRows (ctx : context) (sql : gostring) (args : list goval) : M world nat :=
  modify_conn (fun c => match preallocatedRows c with
                        | O => with_preallocatedRows 63 c
                        | S n => with_preallocatedRows n c
                        end) ;;;
  new_rows (mkConnRows ctx true [] 0 None [] sql args false None None None).

Record query_options := mkQueryOptions {
  q_simple : bool;
  q_formats : option (list Z);
  q_formatsByOID : option (gmap Z Z);
  q_args : list goval
}.

Fixpoint parse_query_options (o : query_options) (args : list goval) : query_options :=
  match args with
  | VResultFormats f :: args' =>
      parse_query_options (mkQueryOptions (q_simple o) f (q_formatsByOID o) args') args'
  | VResultFormatsByOID m :: args' =>
      parse_query_options (mkQueryOptions (q_simple o) (q_formats o) m args') args'
  | a :: args' =>
      match as_QuerySimpleProtocol a with
      | Some b => parse_query_options (mkQueryOptions b (q_formats o) (q_formatsByOID o) args') args'
      | None => mkQueryOptions (q_simple o) (q_formats o) (q_formatsByOID o) args
      end
  | [] => mkQueryOptions (q_simple o) (q_formats o) (q_formatsByOID o) []
  end.

(** [rows.fatal(err); return rows, rows.err] *)
Definition query_fails (p : nat) (e : error) : M world (nat * option error) :=
  rows_fatal p (Some e) ;;;
  let* err := rows_Err p in
  ret (p, err).

Definition query_simple (ctx : context) (p : nat) (sql : gostring) (args : list goval)
  : M world (nat * option error) :=
  let* r := sanitizeForSimpleQuery sql args in
  match r with
  | inl e => rows_fatal p (Some e) ;;; ret (p, Some e)
  | inr text =>
      let* m := call (RExec ctx text) in
      let* more := call (RNextResult m) in
      if more then
        let* r := observe (fun n => ResultReader n m) in
        update_rows p (rows_with_readers (Some r) (Some m)) ;;;
        ret (p, None)
      else
        let* err := call (RMrrClose m) in
        rows_fatal p err ;;;
        ret (p, err)
  end.

(** The formats of the results: those asked for by OID, those asked for by
    position, or the preferred ones, which are written into the builder. *)
Definition query_formats (o : query_options) (sd : StatementDescription) : M world (list Z) :=
  match q_formatsByOID o, q_formats o with
  | Some m, _ => ret (map (fun fd => default 0 (m !! DataTypeOID fd)) (Fields sd))
  | None, Some f => ret f
  | None, None => eqb_append_results (Fields sd) ;;; gets (fun w => resultFormats (eqb (conn w)))
  end.

(** Sending the statement, with the parameters in the builder. *)
Definition query_send (ctx : context) (p : nat) (sql : gostring) (o : query_options)
    (sd : StatementDescription) : M world (nat * option error) :=
  let* formats := query_formats o sd in
  let* b := gets (fun w => eqb (conn w)) in
  let* sc := gets (fun w => stmtcache (conn w)) in
  let* describing := match sc with
                     | Some c => observe (fun n => bool_decide (cache_Mode n c = ModeDescribe))
                     | None => ret false
                     end in
  let* r := (if describing
             then call (RExecParams ctx sql (paramValues b) (ParamOIDs sd) (paramFormats b) formats)
             else call (RExecPrepared ctx (sd_Name sd) (paramValues b) (paramFormats b) formats)) in
  update_rows p (rows_with_readers (Some r) None) ;;;
  reset_eqb ;;;
  let* err := rows_Err p in
  ret (p, err).

Definition query_extended (ctx : context) (p : nat) (sql : gostring) (o : query_options)
    (sd : StatementDescription) : M world (nat * option error) :=
  if negb (length (ParamOIDs sd) =? length (q_args o))%nat then
    query_fails p (argument_count (length (ParamOIDs sd)) (length (q_args o)))
  else
    update_rows p (rows_with_sql (sd_SQL sd)) ;;;
    let '(converted, failure) := convertDriverValuers (q_args o) in
    update_rows p (rows_with_args converted) ;;;
    match failure with
    | Some e => query_fails p e
    | None =>
        let* e := eqb_append_params (ParamOIDs sd) converted in
        match e with
        | Some e => query_fails p e
        | None =>
            query_send ctx p sql o sd
        end
    end.

(** The description of a text that is not a prepared statement's name. *)
Definition query_describe (ctx : context) (sql : gostring) : M world (error + StatementDescription) :=
  let* sc := gets (fun w => stmtcache (conn w)) in
  match sc with
  | Some c => call (RCacheGet c ctx sql)
  | None => call (RPrepare ctx [] sql)
  end.

Definition Conn_Query (ctx : context) (sql : gostring) (arguments : list goval)
  : M world (nat * option error) :=
  let* prefer := gets (fun w => PreferSimpleProtocol (config (conn w))) in
  let o := parse_query_options (mkQueryOptions prefer None None arguments) arguments in
  let* p := getRows ctx sql (q_args o) in
  let* known := get_prepared sql in
  match known, q_simple o with
  | None, true => query_simple ctx p sql (q_args o)
  | Some sd, _ => reset_eqb ;;; query_extended ctx p sql o sd
  | None, false =>
      reset_eqb ;;;
      let* r := query_describe ctx sql in
      match r with
      | inl e => query_fails p e
      | inr sd => query_extended ctx p sql o sd
      end
  end.

(** The row of [QueryRow] is the result set itself, used through [row_Scan]. *)
Definition Conn_QueryRow (ctx : context) (sql : gostring) (arguments : list goval) : M world nat :=
  let* '(p, _) := Conn_Query ctx sql arguments in ret p.

(** The loop of the three [QueryFunc]s: [f] gets the result set, to read the
    raw values of the current row. *)
Definition query_func_rows (p : nat) (scans : list goval) (f : nat -> M world (option error))
  : M world (CommandTag * option error) :=
  loop fuel (fun _ : unit =>
    let* more := rows_Next p in
    if more then
      let* '(e, _) := rows_Scan p scans in
      match e with
      | Some _ => ret (inr ([], e))
      | None =>
          let* e := f p in
          match e with
          | Some _ => ret (inr ([], e))
          | None => ret (inl tt)
          end
      end
    else
      let* e := rows_Err p in
      match e with
      | Some _ => ret (inr ([], e))
      | None => let* tag := rows_CommandTag p in ret (inr (tag, None))
      end) tt.

Definition Conn_QueryFunc (ctx : context) (sql : gostring) (arguments scans : list goval)
    (f : nat -> M world (option error)) : M world (CommandTag * option error) :=
  let* '(p, err) := Conn_Query ctx sql arguments in
  match err with
  | Some _ => ret ([], err)
  | None =>
      defer ([], None) (fun r => rows_Close p ;;; ret r) (query_func_rows p scans f)
  end.

(** ** Frames *)

Lemma keeps_Prepare ctx name sql : keeps conn_frame (Conn_Prepare ctx name sql).
Proof. unfold Conn_Prepare, get_prepared. keeps_tac. Qed.

Lemma keeps_sanitize sql args : keeps conn_frame (sanitizeForSimpleQuery sql args).
Proof. unfold sanitizeForSimpleQuery. keeps_tac. Qed.

Lemma keeps_exec_results m : keeps conn_frame (exec_results m).
Proof. unfold exec_results. keeps_tac. Qed.
#[local] Hint Resolve keeps_Prepare keeps_sanitize keeps_exec_results : keeps.

Lemma keeps_execSimpleProtocol ctx sql args : keeps conn_frame (execSimpleProtocol ctx sql args).
Proof. unfold execSimpleProtocol. keeps_tac. Qed.

Lemma keeps_reset_eqb : keeps conn_frame reset_eqb.
Proof. unfold reset_eqb. keeps_tac. Qed.

Lemma keeps_append_params oids args : keeps conn_frame (eqb_append_params oids args).
Proof. unfold eqb_append_params. keeps_tac. Qed.

Lemma keeps_append_results fields : keeps conn_frame (eqb_append_results fields).
Proof. unfold eqb_append_results. keeps_tac. Qed.
#[local] Hint Resolve keeps_execSimpleProtocol keeps_reset_eqb keeps_append_params
  keeps_append_results : keeps.

Lemma keeps_exec_prefix sd args : keeps conn_frame (execParamsAndPreparedPrefix sd args).
Proof. unfold execParamsAndPreparedPrefix. keeps_tac. Qed.
#[local] Hint Resolve keeps_exec_prefix : keeps.

Lemma keeps_execParams ctx sd args : keeps conn_frame (execParams ctx sd args).
Proof. unfold execParams. keeps_tac. Qed.

Lemma keeps_execPrepared ctx sd args : keeps conn_frame (execPrepared ctx sd args).
Proof. unfold execPrepared. keeps_tac. Qed.
#[local] Hint Resolve keeps_execParams keeps_execPrepared : keeps.

Lemma keeps_conn_exec ctx sql args : keeps conn_frame (conn_exec ctx sql args).
Proof. unfold conn_exec, get_prepared. keeps_tac. Qed.
#[local] Hint Resolve keeps_conn_exec : keeps.

Lemma keeps_Exec ctx sql args : keeps conn_frame (Conn_Exec ctx sql args).
Proof. unfold Conn_Exec. keeps_tac. Qed.
#[local] Hint Resolve keeps_Exec : keeps.

Lemma keeps_getRows ctx sql args : keeps conn_frame (getRows ctx sql args).
Proof.
  unfold getRows. apply (keeps_bind _); [|keeps_tac].
  apply keeps_modify_conn. intros c. destruct (preallocatedRows c); by repeat split.
Qed.

Lemma keeps_query_fails p e : keeps conn_frame (query_fails p e).
Proof. unfold query_fails. keeps_tac. Qed.

Lemma keeps_query_simple ctx p sql args : keeps conn_frame (query_simple ctx p sql args).
Proof. unfold query_simple. keeps_tac. Qed.

Lemma keeps_query_formats o sd : keeps conn_frame (query_formats o sd).
Proof. unfold query_formats. keeps_tac. Qed.

Lemma keeps_query_describe ctx sql : keeps conn_frame (query_describe ctx sql).
Proof. unfold query_describe. keeps_tac. Qed.
#[local] Hint Resolve keeps_getRows keeps_query_fails keeps_query_simple keeps_query_formats
  keeps_query_describe : keeps.

Lemma keeps_query_send ctx p sql o sd : keeps conn_frame (query_send ctx p sql o sd).
Proof. unfold query_send. keeps_tac. Qed.
#[local] Hint Resolve keeps_query_send : keeps.

Lemma keeps_query_extended ctx p sql o sd : keeps conn_frame (query_extended ctx p sql o sd).
Proof. unfold query_extended. keeps_tac. Qed.
#[local] Hint Resolve keeps_query_extended : keeps.

Lemma keeps_Query ctx sql args : keeps conn_frame (Conn_Query ctx sql args).
Proof. unfold Conn_Query, get_prepared. keeps_tac. Qed.

(** The callback may keep more than the connection does: the frame of
    [QueryFunc] is stated for any relation that the connection's operations
    keep. *)
Lemma keeps_query_func R `{!PreOrder R} ctx sql args scans f :
  (forall w w', conn_frame w w' -> R w w') -> (forall p, keeps R (f p)) ->
  keeps R (Conn_QueryFunc ctx sql args scans f).
Proof.
  intros Hsub Hf.
  assert (forall A (m : M world A), keeps conn_frame m -> keeps R m) as Hup.
  { intros A m Hm w. specialize (Hm w). destruct (m w); auto. }
  unfold Conn_QueryFunc, query_func_rows, rows_CommandTag, read_rows.
  apply (keeps_bind _); [apply Hup, keeps_Query|]. intros [p e]. destruct e; [apply (keeps_ret _)|].
  apply (keeps_defer _).
  - intros r. apply (keeps_bind _); [apply Hup, keeps_rows_Close|]. intros. apply (keeps_ret _).
  - apply (keeps_loop _). intros [].
    apply (keeps_bind _); [apply Hup, keeps_rows_Next|]. intros []; [|apply Hup; keeps_tac].
    apply (keeps_bind _); [apply Hup, keeps_rows_Scan|]. intros [[e|] ?]; [apply (keeps_ret _)|].
    apply (keeps_bind _); [apply Hf|]. intros []; apply (keeps_ret _).
Qed.

(** ** Statements without arguments *)

Lemma safe_exec_results m : safe (exec_results m).
Proof. unfold exec_results, observe. safe_tac. Qed.

Lemma safe_append_params oids : safe (eqb_append_params oids []).
Proof. intros w. unfold eqb_append_params, gets, bind. by destruct oids. Qed.

Lemma safe_exec_prefix sd : safe (execParamsAndPreparedPrefix sd []).
Proof.
  pose proof safe_append_params.
  unfold execParamsAndPreparedPrefix, reset_eqb, eqb_append_results, modify_conn.
  cbn [convertDriverValuers]. safe_tac.
Qed.

Lemma safe_execPrepared ctx sd : safe (execPrepared ctx sd []).
Proof. pose proof safe_exec_prefix. unfold execPrepared, reset_eqb, modify_conn. safe_tac. Qed.

(** Running a text without arguments does not panic. *)
Lemma safe_Exec ctx sql : safe (Conn_Exec ctx sql []).
Proof.
  unfold Conn_Exec. apply safe_bind; [|safe_tac].
  unfold conn_exec, get_prepared, execSimpleProtocol. cbn [exec_options length Nat.eqb].
  pose proof safe_execPrepared. pose proof safe_exec_results. safe_tac.
Qed.

End Conn.

#[export] Hint Resolve safe_Exec : safe.
#[export] Hint Resolve keeps_Prepare keeps_sanitize keeps_Exec keeps_reset_eqb keeps_append_params
  keeps_append_results keeps_getRows keeps_Query : keeps.
