(* ===== verification/RowsRead.v ===== *)
(** Reading a result set to its end (rows.go) against what a server sends.

    A result is the rows, the tag and the error of one statement.  [ReaderLaws]
    is what the code relies on of the reader of a result, with the states of the
    connection while it is read, when it was closed, and when the result set was
    closed; the lemmas are shared by the results of queries and of batches. *)

From S2P Require Import Prelude GoStd GoVal Effects Values PgConn Logger World Toy Rows Config Conn.

Local Open Scope Z_scope.

Abbreviation row := (list (option gostring)).

(** The rows not read yet, the tag, and the error the result ends with. *)
Record qresult := mkResult { res_rows : list row; res_tag : CommandTag; res_err : option error }.

(** States that differ in the result sets and the trace only. *)
Definition same_reader `{PgConn} (w w' : world) : Prop :=
  outside w' = outside w /\ brs w' = brs w /\ batches w' = batches w /\ conn w' = conn w.

(** The reader [r], and the reader of several results it came from, if there is
    one, which says [merr] on being closed. *)
Record ReaderLaws `{PgConn} (r : rr) (multi : option mrr) (merr : option error)
    (I : qresult -> world -> Prop) (C E : world -> Prop) : Prop := {
  I_stable q w w' : same_reader w w' -> I q w -> I q w';
  E_stable w w' : same_reader w w' -> E w -> E w';
  C_stable w w' : same_reader w w' -> C w -> C w';
  next_row x rows t err w : I (mkResult (x :: rows) t err) w ->
    answer (RNextRow r) w = true /\ rr_Values (outside (called (RNextRow r) w)) r = x
    /\ I (mkResult rows t err) (called (RNextRow r) w);
  no_next_row t err w : I (mkResult [] t err) w ->
    answer (RNextRow r) w = false /\ I (mkResult [] t err) (called (RNextRow r) w);
  close_reader q w : I q w -> answer (RRrClose r) w = (res_tag q, res_err q) /\ C (called (RRrClose r) w);
  close_multi w : C w ->
    match multi with
    | None => merr = None /\ E w
    | Some m => answer (RMrrClose m) w = merr /\ E (called (RMrrClose m) w)
    end;
  (** a cache that is told of an error leaves the connection alone *)
  errored_local c sql err w : E w -> E (called (RStatementErrored c sql err) w)
}.

Section Reading.
Context `{PgTypes} `{PgConn} `{!PgDecoders}.

(** [for rows.Next() { ... rows.RawValues() ... }] *)
Definition collect_row (i : nat) (acc : list row) : M world (list row + list row) :=
  let* more := rows_Next i in
  if more then let* vs := rows_RawValues i in ret (inl (acc ++ [vs])) else ret (inr acc).

Lemma wp_call r w Q : Q (answer r w) (called r w) -> wp (call r) w Q.
Proof. by apply wp_eq. Qed.

Lemma wp_log_if ctx lvl msg data w Q : Q tt (logged ctx lvl msg data w) -> wp (log_if ctx lvl msg data) w Q.
Proof. apply wp_eq, log_if_run. Qed.

Lemma logged_reader ctx lvl msg data w : same_reader w (logged ctx lvl msg data w).
Proof. repeat split; apply logged_frame. Qed.

Lemma set_rws_reader l w : same_reader w (set_rws l w).
Proof. done. Qed.

Context (r : rr) (multi : option mrr) (merr : option error) (I : qresult -> world -> Prop) (C E : world -> Prop).
Context (Laws : ReaderLaws r multi merr I C E).

(** A result set that is read from [r], and one that was read to its end. *)
Definition reading_rows (i : nat) (q : qresult) (w : world) : Prop :=
  (exists x, rws w !! i = Some x /\ rows_closed x = false /\ rows_err x = None /\ resultReader x = Some r
     /\ multiResultReader x = multi) /\ I q w.

Definition end_error (q : qresult) : option error := match res_err q with Some e => Some e | None => merr end.

Definition rows_read (i : nat) (q : qresult) (w : world) : Prop :=
  (exists x, rws w !! i = Some x /\ rows_closed x = true /\ commandTag x = res_tag q /\ rows_err x = end_error q)
  /\ E w.

Lemma wp_report_read i q w Q :
  rows_read i q w -> (forall w', rows_read i q w' -> Q tt w') -> wp (rows_report i) w Q.
Proof.
  intros [(x & Hx & Hcl & Ht & He) Hr] HQ. apply wp_bind, (wp_read_rows _ _ x); [done|].
  assert (forall ctx lvl msg data, rows_read i q (logged ctx lvl msg data w)) as Hlog.
  { intros. split; [|eapply E_stable; [done|apply logged_reader|done]]. exists x.
    by rewrite (proj1 (proj2 (proj2 (logged_frame _ _ _ _ _)))). }
  destruct (rows_logger x); [|apply HQ; split; [by exists x|done]].
  destruct (rows_err x); [|apply wp_log_if, HQ, Hlog].
  apply wp_bind, wp_log_if, wp_bind, (wp_eq _ _ _ _ _ eq_refl).
  match goal with |- wp _ ?v _ => pose proof (Hlog _ _ _ _ : rows_read i q v) as [Hx1 Hr1] end.
  destruct (stmtcache _) as [c|]; [|by apply HQ].
  apply wp_call. destruct (answer _ _). apply HQ. split; [done|]. by eapply errored_local.
Qed.

(** Closing the readers leaves the tag and the first error in the result set. *)
Lemma wp_close_readers i x q w (k : M world unit) Q :
  rws w !! i = Some x -> rows_closed x = true -> rows_err x = None -> I q w ->
  (forall w', rows_read i q w' -> wp k w' Q) ->
  wp (rows_close_reader i (Some r) ;;; rows_close_multi i multi ;;; k) w Q.
Proof.
  intros Hx Hcl He Hi HQ. pose proof (lookup_lt_Some _ _ _ Hx) as Hlt.
  destruct (close_reader _ _ _ _ _ _ Laws q w Hi) as [Ea Hc]. cbn [rows_close_reader].
  apply wp_bind, wp_bind, wp_call. rewrite Ea. apply (wp_update_rows _ _ x); [done|].
  set (x1 := rows_first_err (res_err q) (rows_with_tag (res_tag q) x)).
  assert (rows_closed x1 = true /\ commandTag x1 = res_tag q /\ rows_err x1 = res_err q) as (C1 & T1 & E1).
  { unfold x1, rows_first_err. simpl. by rewrite He. }
  set (w1 := set_rws _ _).
  assert (rws w1 !! i = Some x1) as Hx1 by by apply list_lookup_insert_eq.
  assert (C w1) as Hc1 by (eapply C_stable; [done|apply set_rws_reader|done]).
  pose proof (close_multi _ _ _ _ _ _ Laws w1 Hc1) as Hm. unfold rows_read, end_error in HQ.
  apply wp_bind. destruct multi as [m|]; cbn [rows_close_multi].
  - destruct Hm as [Em Hm]. apply wp_bind, wp_call. rewrite Em. apply (wp_update_rows _ _ x1); [done|]. apply HQ.
    split; [|eapply E_stable; [done|apply set_rws_reader|done]]. eexists.
    split; [apply list_lookup_insert_eq; simpl; by rewrite length_insert|]. unfold rows_first_err. rewrite E1.
    destruct (res_err q); by rewrite ?C1, ?T1, ?E1.
  - destruct Hm as [-> Hm]. apply (wp_eq _ _ _ _ _ eq_refl), HQ. split; [|done]. exists x1.
    rewrite E1. by destruct (res_err q).
Qed.

Lemma rows_Close_read i q w Q :
  reading_rows i q w -> (forall w', rows_read i q w' -> Q tt w') -> wp (rows_Close i) w Q.
Proof.
  intros [(x & Hx & Hcl & He & Hr & Hm) Hi] HQ. apply wp_bind, (wp_read_rows _ _ x); [done|]. rewrite Hcl.
  apply wp_bind, (wp_update_rows _ _ x); [done|]. rewrite Hr, Hm.
  pose proof (lookup_lt_Some _ _ _ Hx) as Hlt.
  apply (wp_close_readers i (rows_with_closed true x) q); [by apply list_lookup_insert_eq|done..| |].
  - eapply I_stable; [done|apply set_rws_reader|done].
  - intros w' Hw'. by apply (wp_report_read i q).
Qed.

(** ** The rows *)

Lemma wp_collect i x rows t err w acc Q :
  reading_rows i (mkResult (x :: rows) t err) w ->
  (forall w', reading_rows i (mkResult rows t err) w' -> Q (inl (acc ++ [x])) w') -> wp (collect_row i acc) w Q.
Proof.
  intros [(y & Hy & Hcl & He & Hr & Hm) Hi] HQ. unfold collect_row.
  apply wp_bind, wp_bind, (wp_read_rows _ _ y); [done|]. rewrite Hcl, Hr.
  destruct (next_row _ _ _ _ _ _ Laws _ _ _ _ _ Hi) as (Ea & Hv & Hi').
  apply wp_bind, wp_call. rewrite Ea. apply wp_bind, (wp_eq _ _ _ _ _ eq_refl). cbv beta. rewrite Hv.
  apply wp_bind, (wp_update_rows _ _ y); [done|]. set (w2 := set_rws _ _).
  assert (rws w2 !! i = Some (rows_with_row x y)) as Hy2.
  { apply list_lookup_insert_eq. by eapply lookup_lt_Some. }
  apply (wp_eq _ _ _ _ _ eq_refl), wp_bind, wp_bind, (wp_read_rows _ _ _ _ Hy2), (wp_eq _ _ _ _ _ eq_refl), HQ.
  split; [by exists (rows_with_row x y)|]. eapply I_stable; [done|apply set_rws_reader|done].
Qed.

Lemma wp_collect_end i t err w acc Q :
  reading_rows i (mkResult [] t err) w ->
  (forall w', rows_read i (mkResult [] t err) w' -> Q (inr acc) w') -> wp (collect_row i acc) w Q.
Proof.
  intros [(y & Hy & Hcl & He & Hr & Hm) Hi] HQ. unfold collect_row.
  apply wp_bind, wp_bind, (wp_read_rows _ _ y); [done|]. rewrite Hcl, Hr.
  destruct (no_next_row _ _ _ _ _ _ Laws _ _ _ Hi) as (Ea & Hi').
  apply wp_bind, wp_call. rewrite Ea. apply wp_bind, (rows_Close_read i (mkResult [] t err)).
  - split; [by exists y|done].
  - intros w2 Hw2. by apply (wp_eq _ _ _ _ _ eq_refl), HQ.
Qed.

(** A result set that is read to its end gives the rows of the result, in
    order, and has its tag and its error. *)
Lemma wp_collect_all n i q w acc Q :
  reading_rows i q w -> (length (res_rows q) < n)%nat ->
  (forall w', rows_read i q w' -> Q (acc ++ res_rows q) w') -> wp (loop n (collect_row i) acc) w Q.
Proof.
  destruct q as [rows t err]. revert n w acc. induction rows as [|x rows IH]; intros [|n] w acc Hr Hn HQ;
    try (simpl in Hn; lia); cbn [loop]; apply wp_bind.
  - apply (wp_collect_end i t err); [done|]. intros w' Hw'. apply (wp_eq _ _ _ _ _ eq_refl).
    specialize (HQ w'). simpl in HQ. rewrite app_nil_r in HQ. by apply HQ.
  - apply (wp_collect i x rows t err); [done|]. intros w' Hw'. apply IH; [done|simpl in *; lia|].
    intros w2 Hw2. rewrite <- app_assoc. by apply HQ.
Qed.

(** The result set read to its end, its tag and its error. *)
Definition read_all (n : nat) (i : nat) : M world (list row * CommandTag * option error) :=
  let* rows := loop n (collect_row i) [] in
  let* tag := rows_CommandTag i in
  let* err := rows_Err i in
  ret (rows, tag, err).

Lemma wp_read_all n i q w Q :
  reading_rows i q w -> (length (res_rows q) < n)%nat ->
  (forall w', E w' -> Q (res_rows q, res_tag q, end_error q) w') -> wp (read_all n i) w Q.
Proof.
  intros Hr Hn HQ. apply wp_bind, (wp_collect_all n i q); [done..|]. intros w' [(x & Hx & _ & Ht & He) Hw'].
  apply wp_bind, wp_bind, (wp_read_rows _ _ x _ Hx), (wp_eq _ _ _ _ _ eq_refl).
  apply wp_bind, wp_bind, (wp_read_rows _ _ x _ Hx), (wp_eq _ _ _ _ _ eq_refl), (wp_eq _ _ _ _ _ eq_refl).
  rewrite Ht, He. by apply HQ.
Qed.
End Reading.
