(* ===== verification/QueryRead.v ===== *)
(** A query and its rows (conn.go, rows.go) against what a server does.

    The class [PgQueries] is a connection to a server with a session: its data,
    and the statements prepared in it by their names.  In the extended protocol
    a statement runs with the encoded parameters, which may change the session,
    and its result is read through a reader.  On it [Query] runs the text it is
    given, whether it is sent by its text or by the name of a statement that the
    application or the cache prepared, and reading the result set gives the
    rows, the tag and the error of the statement. *)

From stdpp Require Import infinite fin_sets.
From S2P Require Import Prelude GoStd GoVal Effects Values PgConn Logger World Toy Rows Config Conn.
From S2P Require Import RowsRead.

Local Open Scope Z_scope.

(** ** Sessions *)

(** A statement is its text with the types of its parameters. *)
Record statement := mkStatement { st_text : gostring; st_oids : list Z }.

Definition statement_of (sd : StatementDescription) : statement := mkStatement (sd_SQL sd) (ParamOIDs sd).

(** The values of the parameters, their formats, and the formats asked for the
    columns. *)
Record binding := mkBinding {
  bd_values : list (option gostring);
  bd_formats : list Z;
  bd_results : list Z
}.

(** The unnamed statement is the one with the empty name. *)
Record session (D : Type) := mkSession { data : D; prepared : gmap gostring statement }.
Arguments mkSession {D} data prepared.
Arguments data {D} s.
Arguments prepared {D} s.

(** No named statement of [s] was deallocated or replaced. *)
Definition keeps_prepared {D} (s s' : session D) : Prop :=
  forall name st, name <> [] -> prepared s !! name = Some st -> prepared s' !! name = Some st.

(** What a statement that ran answers: the columns, the result, and the session
    it leaves. *)
Record answered (D : Type) := mkAnswered {
  a_fields : list FieldDescription;
  a_result : qresult;
  a_session : session D
}.
Arguments mkAnswered {D} a_fields a_result a_session.
Arguments a_fields {D} a.
Arguments a_result {D} a.
Arguments a_session {D} a.

(** What is relied on of the connection, the cache and the server, while the
    connection holds.

    [live ctx]: the context does not end before the calls made with it.
    [at_rest n s]: no result is being read, the server's session is [s], and the
    caches know which statements they prepared in it.
    [in_query n r fds s0 s q]: the statement that was started in the session
    [s0] leaves [s]; of its result, with the columns [fds], [q] is not read yet. *)
Class PgQueries `{PgConn} (D : Type) := {
  live : context -> Prop;
  at_rest : net -> session D -> Prop;
  in_query : net -> rr -> list FieldDescription -> session D -> session D -> qresult -> Prop;
  query_columns n r fds s0 s q : in_query n r fds s0 s q ->
    rr_FieldDescriptions n r = fds /\ Forall (fun x => length x = length fds) (res_rows q);
  query_next_row n r fds s0 s x rows t err : in_query n r fds s0 s (mkResult (x :: rows) t err) ->
    exists n', replies (RNextRow r) n true n' /\ rr_Values n' r = x /\ in_query n' r fds s0 s (mkResult rows t err);
  query_no_next_row n r fds s0 s t err : in_query n r fds s0 s (mkResult [] t err) ->
    exists n', replies (RNextRow r) n false n' /\ in_query n' r fds s0 s (mkResult [] t err);
  (** a statement that deallocates none leaves the caches right *)
  query_close n r fds s0 s q : in_query n r fds s0 s q ->
    exists n', replies (RRrClose r) n (res_tag q, res_err q) n' /\ (keeps_prepared s0 s -> at_rest n' s);
  query_read n r fds s0 s q : in_query n r fds s0 s q ->
    exists n', replies (RRead r) n (res_tag q, res_err q) n' /\ (keeps_prepared s0 s -> at_rest n' s);
  (** decoding a value does not touch the reader *)
  scan_local n r fds s0 s q rq : in_query n r fds s0 s q ->
    match rq with RPlanScan _ _ _ | RScanInto _ _ _ _ _ => True | _ => False end ->
    in_query (serve rq n).2 r fds s0 s q;
  (** a cache that is told of an error does not touch the session *)
  errored_rest n s c sql e : at_rest n s -> at_rest (serve (RStatementErrored c sql e) n).2 s;
  (** the name stands for the text that was prepared under it *)
  prepare_rest ctx name sql n s sd : at_rest n s -> (serve (RPrepare ctx name sql) n).1.1 = inr sd ->
    sd_Name sd = name /\ sd_SQL sd = sql
    /\ at_rest (serve (RPrepare ctx name sql) n).2 (mkSession (data s) (<[name := statement_of sd]> (prepared s)));
  (** a cache may prepare and deallocate statements: the one it returns is
      prepared, if this is its mode, which is fixed *)
  cache_rest c ctx sql n s sd : at_rest n s -> (serve (RCacheGet c ctx sql) n).1.1 = inr sd ->
    sd_SQL sd = sql /\ cache_Mode (serve (RCacheGet c ctx sql) n).2 c = cache_Mode n c
    /\ exists P, at_rest (serve (RCacheGet c ctx sql) n).2 (mkSession (data s) P)
      /\ (cache_Mode n c = ModePrepare -> P !! sd_Name sd = Some (statement_of sd));
  (** the statement runs in the session *)
  runs : session D -> statement -> binding -> answered D;
  (** a text is parsed, as the unnamed statement, and run *)
  runs_params ctx sql values oids formats rf n s : live ctx -> at_rest n s ->
    exists s1 r n', data s1 = data s /\ delete [] (prepared s1) = delete [] (prepared s)
      /\ replies (RExecParams ctx sql values oids formats rf) n r n'
      /\ let a := runs s1 (mkStatement sql oids) (mkBinding values formats rf) in
         in_query n' r (a_fields a) s1 (a_session a) (a_result a);
  runs_prepared ctx name values formats rf n s st : live ctx -> at_rest n s -> prepared s !! name = Some st ->
    exists r n', replies (RExecPrepared ctx name values formats rf) n r n'
      /\ let a := runs s st (mkBinding values formats rf) in
         in_query n' r (a_fields a) s (a_session a) (a_result a)
}.

Section Query.
Context `{PgTypes} `{PgConn} `{!PgDecoders} {D : Type} `{!PgQueries D} {Laws : PgTypesLaws}.
Context (fuel : nat).

(** Whether the statement is sent by its text, since the cache only describes
    statements, or by the name of the prepared one. *)
Definition by_text (w : world) : bool :=
  match stmtcache (conn w) with
  | Some c => bool_decide (cache_Mode (outside w) c = ModeDescribe)
  | None => false
  end.

(** How the statement [text] is reached in the session: by itself, or by the
    name of the description. *)
Definition reaches (d : bool) (sql text : gostring) (sd : StatementDescription) (s : session D) : Prop :=
  if d then text = sql else prepared s !! sd_Name sd = Some (mkStatement text (ParamOIDs sd)).

(** The description of the statement: of the one that the application prepared
    under the name [sql], and that the session still has; of the cache; or of
    the server. *)
Definition describes (ctx : context) (sql : gostring) (w : world) (s : session D) (sd : StatementDescription) : Prop :=
  match preparedStatements (conn w) !! sql, stmtcache (conn w) with
  | Some sd', _ => sd' = sd /\ prepared s !! sd_Name sd = Some (statement_of sd)
  | None, Some c => answer (RCacheGet c ctx sql) w = inr sd
  | None, None => answer (RPrepare ctx [] sql) w = inr sd
  end.

(** The text that is to be run. *)
Definition query_text (sql : gostring) (w : world) : gostring :=
  match preparedStatements (conn w) !! sql with
  | Some sd => if by_text w then sql else sd_SQL sd
  | None => sql
  end.

Definition formats_for (o : query_options) (sd : StatementDescription) : list Z :=
  match q_formatsByOID o, q_formats o with
  | Some m, _ => map (fun fd => default 0 (m !! DataTypeOID fd)) (Fields sd)
  | None, Some f => f
  | None, None => result_formats sd
  end.

(** ** Up to the reader *)

(** A result set that is going to get its reader. *)
Definition fresh (s : session D) (d : bool) (p : nat) (w : world) : Prop :=
  at_rest (outside w) s /\ by_text w = d /\ exists x, rws w !! p = Some x /\ rows_closed x = false /\ rows_err x = None
    /\ multiResultReader x = None /\ scanPlans x = None.

Lemma wp_fresh_update s d p w f Q :
  fresh s d p w ->
  (forall x, rows_closed (f x) = rows_closed x /\ rows_err (f x) = rows_err x
     /\ multiResultReader (f x) = multiResultReader x /\ scanPlans (f x) = scanPlans x) ->
  (forall w', fresh s d p w' -> conn w' = conn w -> outside w' = outside w -> Q tt w') -> wp (update_rows p f) w Q.
Proof.
  intros (Hr & Hd & x & Hx & Hcl & He & Hm & Hp) Hf HQ. apply (wp_update_rows _ _ x); [done|]. apply HQ; [|done..].
  split; [done|]. split; [done|]. exists (f x). destruct (Hf x) as (-> & -> & -> & ->). split; [|done].
  apply list_lookup_insert_eq. by eapply lookup_lt_Some.
Qed.

Lemma wp_fresh_conn s d p w f Q :
  fresh s d p w -> (forall c, stmtcache (f c) = stmtcache c) -> (forall w', fresh s d p w' -> conn w' = f (conn w) -> outside w' = outside w -> Q tt w') ->
  wp (modify_conn f) w Q.
Proof.
  intros (Hr & Hd & Hx) Hf HQ. apply (wp_eq _ _ _ _ _ eq_refl). apply HQ; [|done..]. split; [done|]. split; [|done].
  rewrite <- Hd. unfold by_text. simpl. by rewrite Hf.
Qed.

(** Describing a statement that the application did not prepare: afterwards it
    can be reached. *)
Lemma fresh_described s d p ctx sql sd w :
  fresh s d p w ->
  let rq := match stmtcache (conn w) with Some c => RCacheGet c ctx sql | None => RPrepare ctx [] sql end in
  (forall c, stmtcache (conn w) = Some c -> answer (RCacheGet c ctx sql) w = inr sd) ->
  (stmtcache (conn w) = None -> answer (RPrepare ctx [] sql) w = inr sd) ->
  exists P, fresh (mkSession (data s) P) d p (called rq w) /\ reaches d sql sql sd (mkSession (data s) P).
Proof.
  intros (Ha & Hd & Hx) rq Hc Hn. assert (stmtcache (conn (called rq w)) = stmtcache (conn w)) as Es.
  { simpl. by destruct (buffer_setup (serve rq (outside w)).1.2 (conn w)) as (_ & -> & _). }
  unfold fresh, by_text. rewrite Es. unfold by_text in Hd. unfold rq in *. clear Es.
  destruct (stmtcache (conn w)) as [c|].
  - destruct (cache_rest _ _ _ _ _ _ Ha (Hc c eq_refl)) as (Hs & Hm & P & HP & Hname). exists P.
    split; [split_and!; [exact HP| |exact Hx]|].
    { change (outside (called (RCacheGet c ctx sql) w)) with (serve (RCacheGet c ctx sql) (outside w)).2. by rewrite Hm. }
    rewrite <- Hd. unfold reaches. case_bool_decide as Ed; [done|].
    unfold statement_of in Hname. rewrite Hs in Hname. apply Hname. by destruct (cache_Mode (outside w) c).
  - destruct (prepare_rest _ _ _ _ _ _ Ha (Hn eq_refl)) as (Hnm & Hs & HP). eexists. split; [by split_and!|].
    rewrite <- Hd. simpl. rewrite Hnm, lookup_insert_eq. unfold statement_of. by rewrite Hs.
Qed.

(** The formats of the results, with the builder that has no format yet. *)
Lemma wp_query_formats s d p o sd w Q :
  fresh s d p w -> resultFormats (eqb (conn w)) = [] ->
  (forall w', fresh s d p w' -> paramValues (eqb (conn w')) = paramValues (eqb (conn w)) ->
     paramFormats (eqb (conn w')) = paramFormats (eqb (conn w)) -> Q (formats_for o sd) w') ->
  wp (query_formats o sd) w Q.
Proof.
  intros Hf Hrf HQ. unfold query_formats, formats_for, result_formats in *.
  destruct (q_formatsByOID o); [by apply HQ|]. destruct (q_formats o); [by apply HQ|].
  apply wp_bind, (wp_fresh_conn s d p); [done|done|]. intros w' Hf' Ec _. apply (wp_eq _ _ _ _ _ eq_refl).
  rewrite append_result_formats_ok in Ec. rewrite Ec. cbn [with_eqb eqb resultFormats]. rewrite Hrf.
  rewrite app_nil_l, <- list_fmap_compose. by apply HQ; rewrite ?Ec.
Qed.

(** The statement is sent, and its reader is the one of the result set. *)
Definition reads_from (p : nat) (fds : list FieldDescription) (s0 s : session D) (q : qresult) (w : world) : Prop :=
  exists r, reading_rows r None (fun q w => in_query (outside w) r fds s0 s q) p q w
    /\ exists x, rws w !! p = Some x /\ scanPlans x = None.

Lemma wp_give_reader p rd x fds s0 s q w Q :
  rws w !! p = Some x -> rows_closed x = false -> rows_err x = None -> scanPlans x = None ->
  in_query (outside w) rd fds s0 s q -> (forall w', reads_from p fds s0 s q w' -> Q (p, None) w') ->
  wp (update_rows p (rows_with_readers (Some rd) None) ;;; reset_eqb ;;; let* err := rows_Err p in ret (p, err)) w Q.
Proof.
  intros Hx Hcl He Hp Hq HQ. pose proof (lookup_lt_Some _ _ _ Hx) as Hlt.
  apply wp_bind, (wp_update_rows _ _ x); [done|]. apply wp_bind, (wp_eq _ _ _ _ _ eq_refl). apply wp_bind, wp_bind.
  eapply wp_read_rows; [by apply list_lookup_insert_eq|].
  apply (wp_eq _ _ _ _ _ eq_refl), (wp_eq _ _ _ _ _ eq_refl). simpl. rewrite He. apply HQ. exists rd.
  split; [split; [|done]|]; (eexists; split; [by apply list_lookup_insert_eq|done]).
Qed.

(** The statement was started in a session with the data of [s]. *)
Definition started (p : nat) (s : session D) (st : statement) (bd : binding) (w : world) : Prop :=
  exists s1, data s1 = data s
    /\ let a := runs s1 st bd in reads_from p (a_fields a) s1 (a_session a) (a_result a) w.

Lemma wp_query_send ctx p sql text o sd s d w Q :
  live ctx -> fresh s d p w -> reaches d sql text sd s -> resultFormats (eqb (conn w)) = [] ->
  (forall w', started p s (mkStatement text (ParamOIDs sd))
     (mkBinding (paramValues (eqb (conn w))) (paramFormats (eqb (conn w))) (formats_for o sd)) w' -> Q (p, None) w') ->
  wp (query_send ctx p sql o sd) w Q.
Proof.
  intros Hl Hf Hs Hrf HQ. apply wp_bind, (wp_query_formats s d p); [done..|]. intros w1 Hf1 Ev Ef.
  rewrite <- Ev, <- Ef in HQ. destruct Hf1 as (Hr & Hd & x & Hx & Hcl & He & Hm & Hp).
  apply wp_bind, (wp_eq _ _ _ _ _ eq_refl), wp_bind, (wp_eq _ _ _ _ _ eq_refl), wp_bind.
  assert ((match stmtcache (conn w1) with
    | Some c => observe (fun n => bool_decide (cache_Mode n c = ModeDescribe)) | None => ret false end) w1
    = Ok d w1) as Ed by (rewrite <- Hd; unfold by_text; by destruct (stmtcache (conn w1))).
  eapply wp_eq; [exact Ed|]. apply wp_bind. clear Hd Ed. unfold reaches in Hs. destruct d.
  - subst text. destruct (runs_params ctx sql (paramValues (eqb (conn w1))) (ParamOIDs sd) (paramFormats (eqb (conn w1)))
      (formats_for o sd) _ _ Hl Hr) as (s1 & rd & n' & Es & _ & R & Hq).
    destruct (call_replies _ _ _ _ R) as [E N]. eapply wp_eq; [exact E|]. rewrite <- N in Hq.
    eapply wp_give_reader; [done..|]. intros w2 Hw2. apply HQ. by exists s1.
  - destruct (runs_prepared ctx (sd_Name sd) (paramValues (eqb (conn w1))) (paramFormats (eqb (conn w1)))
      (formats_for o sd) _ _ _ Hl Hr Hs) as (rd & n' & R & Hq).
    destruct (call_replies _ _ _ _ R) as [E N]. eapply wp_eq; [exact E|]. rewrite <- N in Hq.
    eapply wp_give_reader; [done..|]. intros w2 Hw2. apply HQ. by exists s.
Qed.

Lemma wp_query_extended ctx p sql text o sd s d w b Q :
  live ctx -> fresh s d p w -> reaches d sql text sd s -> eqb (conn w) = emptyEqb ->
  encodes fuel (ParamOIDs sd) (q_args o) b ->
  (forall w', started p s (mkStatement text (ParamOIDs sd))
     (mkBinding (paramValues b) (paramFormats b) (formats_for o sd)) w' -> Q (p, None) w') ->
  wp (query_extended fuel ctx p sql o sd) w Q.
Proof.
  intros Hlive Hf Hs Hb (Hl & conv & Hc & Ha) HQ. unfold query_extended. rewrite Hl, Nat.eqb_refl, Hc. cbn [negb].
  apply wp_bind, (wp_fresh_update s d); [done|done|]. intros w1 Hf1 E1 _.
  apply wp_bind, (wp_fresh_update s d); [done|done|]. intros w2 Hf2 E2 _. rewrite E1 in E2.
  apply wp_bind. eapply wp_eq.
  { unfold eqb_append_params, bind, gets. rewrite E2, Hb, Ha. reflexivity. }
  pose proof (append_params_ok _ _ _ _ _ Ha) as (_ & _ & _ & Hrf & _).
  by apply (wp_query_send _ _ _ text _ _ s d).
Qed.

Definition options (w : world) (args : list goval) : query_options :=
  parse_query_options (mkQueryOptions (PreferSimpleProtocol (config (conn w))) None None args) args.

(** A prepared statement is always run in the extended protocol. *)
Definition extended (sql : gostring) (w : world) (args : list goval) : Prop :=
  is_Some (preparedStatements (conn w) !! sql) \/ q_simple (options w args) = false.

Lemma wp_fresh_rows ctx sql args s w Q :
  at_rest (outside w) s ->
  (forall w', fresh s (by_text w) (length (rws w)) w' -> outside w' = outside w ->
     preparedStatements (conn w') = preparedStatements (conn w) -> stmtcache (conn w') = stmtcache (conn w) ->
     Q (length (rws w)) w') ->
  wp (getRows ctx sql args) w Q.
Proof.
  intros Hr HQ. apply (wp_eq _ _ _ _ _ eq_refl). apply HQ; [|done|..]; simpl; [|by destruct (preallocatedRows _)..].
  split; [done|]. split; [unfold by_text; simpl; by destruct (preallocatedRows _)|]. eexists. split; [by apply list_lookup_middle|done].
Qed.

(** What a query is bound with. *)
Definition query_binding (w : world) (args : list goval) (sd : StatementDescription) (b : extendedQueryBuilder) : binding :=
  mkBinding (paramValues b) (paramFormats b) (formats_for (options w args) sd).

(** With a description of the statement and arguments that can be encoded, the
    query is sent and its result is ready to be read. *)
Lemma wp_Conn_Query ctx sql args w s sd b Q :
  live ctx -> at_rest (outside w) s -> extended sql w args -> describes ctx sql w s sd ->
  encodes fuel (ParamOIDs sd) (q_args (options w args)) b ->
  (forall w', started (length (rws w)) s (mkStatement (query_text sql w) (ParamOIDs sd)) (query_binding w args sd b) w' ->
     Q (length (rws w), None) w') ->
  wp (Conn_Query fuel ctx sql args) w Q.
Proof.
  intros Hl Hr Hx Hd Hb HQ. apply wp_bind, (wp_eq _ _ _ _ _ eq_refl). fold (options w args).
  apply wp_bind, (wp_fresh_rows _ _ _ s); [done|]. intros w1 Hf Ho Ep Ec.
  apply wp_bind, (wp_eq _ _ _ _ _ eq_refl). unfold describes, extended, query_text in *. rewrite <- Ep in Hd, Hx, HQ.
  set (p := length (rws w)) in *. set (d := by_text w) in *. destruct (preparedStatements (conn w1) !! sql) as [sd'|] eqn:Es.
  - destruct Hd as [-> Hst]. apply wp_bind, (wp_fresh_conn s d p); [done|done|]. intros w2 Hf2 E2 _.
    apply (wp_query_extended _ _ _ (if d then sql else sd_SQL sd) _ _ s d _ b); [done..| |by rewrite E2|done|exact HQ].
    by destruct d.
  - destruct Hx as [[? [=]]|Hs]. rewrite Hs. apply wp_bind, (wp_fresh_conn s d p); [done|done|]. intros w2 Hf2 E2 Ho2.
    assert (stmtcache (conn w2) = stmtcache (conn w)) as E2c by (rewrite E2; exact Ec).
    assert (forall rq, answer rq w2 = answer rq w) as Eans by (intros; unfold answer; by rewrite Ho2, Ho).
    rewrite <- E2c in Hd. destruct (fresh_described s d p ctx sql sd w2 Hf2) as (P & Hf3 & Hreach).
    { intros c Hc. rewrite Hc in Hd. by rewrite Eans. }
    { intros Hc. rewrite Hc in Hd. by rewrite Eans. }
    assert (forall rq, eqb (conn (called rq w2)) = emptyEqb) as He.
    { intros rq. simpl. destruct (buffer_setup (serve rq (outside w2)).1.2 (conn w2)) as (_&_&_&_&_&_&->). by rewrite E2. }
    apply wp_bind, wp_bind, (wp_eq _ _ _ _ _ eq_refl).
    destruct (stmtcache (conn w2)) as [c|];
      [apply (wp_call (RCacheGet c ctx sql))|apply (wp_call (RPrepare ctx [] sql))]; rewrite Eans, Hd;
      apply (wp_query_extended _ _ _ sql _ _ (mkSession (data s) P) d _ b); try done; exact HQ.
Qed.

(** ** From the arguments to the rows *)

(** The session after a statement, once its result was read. *)
Definition leaves (s0 s : session D) (w : world) : Prop := keeps_prepared s0 s -> at_rest (outside w) s.

Lemma query_reader r fds s0 s :
  ReaderLaws r None None (fun q w => in_query (outside w) r fds s0 s q) (leaves s0 s) (leaves s0 s).
Proof.
  unfold leaves. split.
  - intros q w w' [-> _]. done.
  - intros w w' [-> _]. done.
  - intros w w' [-> _]. done.
  - intros x rows t err w (n' & R & Hv & Hq)%query_next_row. destruct (call_replies _ _ _ _ R) as [_ N].
    destruct R as [Ra _]. rewrite <- N in Hv, Hq. by split; [exact Ra|].
  - intros t err w (n' & R & Hq)%query_no_next_row. destruct (call_replies _ _ _ _ R) as [_ N].
    destruct R as [Ra _]. rewrite <- N in Hq. by split; [exact Ra|].
  - intros q w (n' & R & Hq)%query_close. destruct (call_replies _ _ _ _ R) as [_ N].
    destruct R as [Ra _]. rewrite <- N in Hq. by split; [exact Ra|].
  - done.
  - intros c sql err w Hw Hk. by apply errored_rest, Hw.
Qed.

(** ** A single value *)

(** A result set at a row, read from [r]. *)
Definition at_row (p : nat) (r : rr) (vs : row) (fds : list FieldDescription) (s0 s : session D) (q : qresult) (w : world) : Prop :=
  reading_rows r None (fun q w => in_query (outside w) r fds s0 s q) p q w
  /\ exists x, rws w !! p = Some x /\ values x = vs /\ scanPlans x = None.

Lemma wp_Next_row p vs rows t err fds s0 s w Q :
  reads_from p fds s0 s (mkResult (vs :: rows) t err) w ->
  (forall r w', at_row p r vs fds s0 s (mkResult rows t err) w' -> Q true w') ->
  wp (rows_Next p) w Q.
Proof.
  intros (r & [(x & Hx & Hcl & He & Hr & Hm) Hi] & (x' & Hx' & Hp)) HQ.
  rewrite Hx in Hx'. injection Hx' as <-. pose proof (lookup_lt_Some _ _ _ Hx) as Hlt.
  destruct (query_next_row _ _ _ _ _ _ _ _ _ Hi) as (n1 & R1 & Hv1 & Hi1).
  destruct (call_replies _ _ _ _ R1) as [E1 N1].
  apply wp_bind, (wp_read_rows _ _ x _ Hx). rewrite Hcl, Hr. apply wp_bind. eapply wp_eq; [exact E1|].
  apply wp_bind, (wp_eq _ _ _ _ _ eq_refl). cbv beta. rewrite N1, Hv1.
  apply wp_bind, (wp_update_rows _ _ x); [done|]. apply (wp_eq _ _ _ _ _ eq_refl), (HQ r).
  split; [split|]; [eexists; split; [by apply list_lookup_insert_eq|done]|cbn [outside set_rws]; by rewrite N1|].
  eexists. split; [by apply list_lookup_insert_eq|done].
Qed.

(** The value [v] of a column, scanned into [dst] with the plan for it. *)
Definition scans (fd : FieldDescription) (v : option gostring) (dst a : goval) : Prop :=
  is_nil dst = false /\ forall n1 n2,
    let pl := (serve (RPlanScan (DataTypeOID fd) (Format fd) dst) n1).1.1 in
    (serve (RScanInto pl (DataTypeOID fd) (Format fd) v dst) n2).1.1 = inr a.

Lemma wp_Scan_one p r v fd s0 s q dst a w Q :
  at_row p r [v] [fd] s0 s q w -> scans fd v dst a ->
  (forall w', reading_rows r None (fun q w => in_query (outside w) r [fd] s0 s q) p q w' -> Q (None, [Some a]) w') ->
  wp (rows_Scan p [dst]) w Q.
Proof.
  intros [[(x & Hx & Hcl & He & Hr & Hm) Hi] (x' & Hx' & Hv & Hp)] [Hnil Hscan] HQ.
  pose proof (proj1 (query_columns _ _ _ _ _ _ Hi)) as Ef.
  rewrite Hx in Hx'. injection Hx' as <-. pose proof (lookup_lt_Some _ _ _ Hx) as Hlt.
  unfold rows_Scan, rows_FieldDescriptions.
  apply wp_bind, wp_bind, (wp_read_rows _ _ x _ Hx). rewrite Hr. apply (wp_eq _ _ _ _ _ eq_refl). rewrite Ef.
  apply wp_bind, (wp_read_rows _ _ x _ Hx). rewrite Hv, Hp. cbn [length Nat.eqb negb plan_scans].
  apply wp_bind, wp_bind, wp_bind. set (rq := RPlanScan _ _ _).
  pose proof (scan_local _ _ _ _ _ _ rq Hi I) as Hi1.
  apply (wp_call rq), wp_bind, (wp_eq _ _ _ _ _ eq_refl), (wp_eq _ _ _ _ _ eq_refl).
  apply wp_bind, (wp_update_rows _ _ x); [done|]. apply (wp_eq _ _ _ _ _ eq_refl).
  apply wp_bind. cbn [scan_columns]. rewrite Hnil. apply wp_bind.
  set (w2 := set_rws _ _). set (rq2 := RScanInto _ _ _ _ _).
  apply (wp_call rq2). unfold answer at 1. unfold rq2 at 1, answer, rq. rewrite Hscan.
  apply (wp_eq _ _ _ _ _ eq_refl), (wp_eq _ _ _ _ _ eq_refl).
  pose proof (scan_local _ _ _ _ _ _ rq2 Hi1 I) as Hi2. apply HQ. split; [|exact Hi2].
  eexists. split; [by apply list_lookup_insert_eq|done].
Qed.

(** [QueryRow(...).Scan(&v)] of a statement whose result is one row with one
    value. *)
Lemma wp_row_value p v t fd s0 s dst a w Q :
  reads_from p [fd] s0 s (mkResult [[v]] t None) w -> scans fd v dst a ->
  (forall w', leaves s0 s w' -> Q (None, [Some a]) w') -> wp (row_Scan p [dst]) w Q.
Proof.
  intros Hrd Hscan HQ. destruct (id Hrd) as (r & [(x & Hx & _ & He & _) _] & _).
  apply wp_bind, wp_bind, (wp_read_rows _ _ x _ Hx), (wp_eq _ _ _ _ _ eq_refl). cbv beta. rewrite He.
  apply wp_bind, (wp_Next_row p [v] [] t None [fd] s0 s); [done|]. intros r1 w1 Hat.
  apply wp_bind, (wp_Scan_one p r1 v fd s0 s (mkResult [] t None) dst a); [done..|]. intros w2 Hr2.
  apply wp_bind, (rows_Close_read _ _ _ _ _ _ (query_reader r1 [fd] s0 s) p (mkResult [] t None)); [done|].
  intros w3 [(x3 & Hx3 & _ & _ & He3) Ha3].
  apply wp_bind, wp_bind, (wp_read_rows _ _ x3 _ Hx3), (wp_eq _ _ _ _ _ eq_refl), (wp_eq _ _ _ _ _ eq_refl).
  rewrite He3. by apply HQ.
Qed.

(** ** Exec with arguments *)

(** The parameters and the formats of the results in the builder. *)
Lemma wp_exec_prefix sd args b w Q :
  encodes fuel (ParamOIDs sd) args b ->
  (forall left_args w', outside w' = outside w -> stmtcache (conn w') = stmtcache (conn w) ->
     eqb (conn w') = mkEqb (paramValues b) (paramValueBytes b) (paramFormats b) (result_formats sd) -> Q (None, left_args) w') ->
  wp (execParamsAndPreparedPrefix fuel sd args) w Q.
Proof.
  intros (Hl & conv & Hc & Ha) HQ. unfold execParamsAndPreparedPrefix. rewrite Hl, Nat.eqb_refl, Hc. cbn [negb].
  apply wp_bind, (wp_eq _ _ _ _ _ eq_refl), wp_bind. eapply wp_eq.
  { unfold eqb_append_params, bind, gets. simpl. unfold eqb_Reset. fold emptyEqb. rewrite Ha. reflexivity. }
  apply wp_bind, (wp_eq _ _ _ _ _ eq_refl), (wp_eq _ _ _ _ _ eq_refl), HQ; [done|done|].
  pose proof (append_params_ok _ _ _ _ _ Ha) as (_ & _ & _ & Hrf & _). simpl.
  rewrite append_result_formats_ok, Hrf. simpl. unfold result_formats. by rewrite <- list_fmap_compose.
Qed.

(** The statement ran in a session with the data of [s]. *)
Definition executed (s : session D) (st : statement) (bd : binding) (tag : CommandTag) (err : option error) (w : world) : Prop :=
  exists s1, data s1 = data s /\ let a := runs s1 st bd in
    tag = res_tag (a_result a) /\ err = res_err (a_result a) /\ leaves s1 (a_session a) w.

(** Both ways to send the statement end by reading the whole result. *)
Lemma wp_exec_reads r fds s0 s q w Q :
  in_query (outside w) r fds s0 s q ->
  (forall w', leaves s0 s w' -> Q (res_tag q, res_err q) w') -> wp (call (RRead r)) w Q.
Proof.
  intros (n2 & R2 & Ha)%query_read HQ. destruct (call_replies _ _ _ _ R2) as [E2 N2].
  eapply wp_eq; [exact E2|]. apply HQ. unfold leaves. by rewrite N2.
Qed.

Lemma wp_exec_either (d : bool) ctx sd args b s w Q :
  live ctx -> at_rest (outside w) s -> reaches d (sd_SQL sd) (sd_SQL sd) sd s -> encodes fuel (ParamOIDs sd) args b ->
  (forall tag err left_args w',
     executed s (statement_of sd) (mkBinding (paramValues b) (paramFormats b) (result_formats sd)) tag err w' ->
     Q (tag, err, left_args) w') ->
  wp ((if d then execParams fuel else execPrepared fuel) ctx sd args) w Q.
Proof.
  intros Hl Hr Hs Hb HQ. unfold reaches in Hs. destruct d; apply wp_bind, (wp_exec_prefix _ _ b); try done;
    intros left_args w1 Ho _ Eb; apply wp_bind, (wp_eq _ _ _ _ _ eq_refl); rewrite Eb; cbn [paramValues paramFormats resultFormats];
    rewrite <- Ho in Hr; apply wp_bind.
  - destruct (runs_params ctx (sd_SQL sd) (paramValues b) (ParamOIDs sd) (paramFormats b) (result_formats sd) _ _ Hl Hr)
      as (s1 & r & n' & Es & _ & R & Hq). destruct (call_replies _ _ _ _ R) as [E N]. eapply wp_eq; [exact E|]. rewrite <- N in Hq.
    apply wp_bind, (wp_exec_reads _ _ _ _ _ _ _ Hq). intros w2 Hw2.
    apply wp_bind, (wp_eq _ _ _ _ _ eq_refl), (wp_eq _ _ _ _ _ eq_refl), HQ. by exists s1.
  - destruct (runs_prepared ctx (sd_Name sd) (paramValues b) (paramFormats b) (result_formats sd) _ _ _ Hl Hr Hs)
      as (r & n' & R & Hq). destruct (call_replies _ _ _ _ R) as [E N]. eapply wp_eq; [exact E|]. rewrite <- N in Hq.
    apply wp_bind, (wp_exec_reads _ _ _ _ _ _ _ Hq). intros w2 Hw2.
    apply wp_bind, (wp_eq _ _ _ _ _ eq_refl), (wp_eq _ _ _ _ _ eq_refl), HQ. by exists s.
Qed.

(** A statement with arguments that the cache describes is run by [Exec], which
    returns its tag and its error. *)
Lemma wp_Conn_Exec ctx sql args c w s sd b Q :
  live ctx -> at_rest (outside w) s -> preparedStatements (conn w) !! sql = None -> stmtcache (conn w) = Some c ->
  exec_options (PreferSimpleProtocol (config (conn w))) args = (false, args) -> args <> [] ->
  answer (RCacheGet c ctx sql) w = inr sd -> encodes fuel (ParamOIDs sd) args b ->
  (forall tag err w',
     executed s (mkStatement sql (ParamOIDs sd)) (mkBinding (paramValues b) (paramFormats b) (result_formats sd)) tag err w' ->
     Q (tag, err) w') ->
  wp (Conn_Exec fuel ctx sql args) w Q.
Proof.
  intros Hl Hr Hp Hc Ho Hne Hd Hb HQ. destruct (cache_rest _ _ _ _ _ _ Hr Hd) as (Hsql & Hm & P & HP & Hname).
  set (w1 := called (RCacheGet c ctx sql) w).
  apply wp_bind. unfold conn_exec. apply wp_bind, (wp_eq _ _ _ _ _ eq_refl). rewrite Ho.
  apply wp_bind, (wp_eq _ _ _ _ _ eq_refl). rewrite Hp. destruct args as [|a args]; [done|]. cbn [length Nat.eqb].
  apply wp_bind, (wp_eq _ _ _ _ _ eq_refl). rewrite Hc.
  apply wp_bind, (wp_call (RCacheGet c ctx sql)). rewrite Hd. apply wp_bind, (wp_eq _ _ _ _ _ eq_refl).
  fold w1. change (outside w1) with (serve (RCacheGet c ctx sql) (outside w)).2. rewrite Hm.
  eapply (wp_mono _ _ (fun r w' => executed s (mkStatement sql (ParamOIDs sd))
    (mkBinding (paramValues b) (paramFormats b) (result_formats sd)) r.1.1 r.1.2 w')).
  - assert (mkStatement sql (ParamOIDs sd) = statement_of sd) as -> by (unfold statement_of; by rewrite Hsql).
    destruct (cache_Mode (outside w) c);
      [eapply (wp_exec_either false ctx sd _ b (mkSession (data s) P) w1)
      |eapply (wp_exec_either true ctx sd _ b (mkSession (data s) P) w1)]; try done; by apply Hname.
  - intros [[tag err] left_args] w' Hw. cbv zeta.
    assert (forall ctx lvl msg fields, executed s (mkStatement sql (ParamOIDs sd))
      (mkBinding (paramValues b) (paramFormats b) (result_formats sd)) tag err (logged ctx lvl msg fields w')) as Hlog.
    { intros. unfold executed, leaves in *. by rewrite (proj1 (logged_frame _ _ _ _ _)). }
    destruct err; apply wp_bind, wp_log_if, (wp_eq _ _ _ _ _ eq_refl); by apply HQ.
Qed.

(** The application's loop over the rows of a query. *)
Definition read_query (ctx : context) (sql : gostring) (args : list goval)
  : M world (error + (list row * CommandTag * option error)) :=
  let* '(p, err) := Conn_Query fuel ctx sql args in
  match err with
  | Some e => ret (inl e)
  | None => let* r := read_all fuel p in ret (inr r)
  end.

(** C5. A query does what it says: in the extended protocol, with a description
    of the statement and as many arguments as it has parameters, that can be
    encoded, the statement that runs is the one of the text, or of the text
    that the application prepared under this name, with the encoded arguments,
    on the data of the session.  Reading the result set to its end returns its
    rows in order, its tag and its error; unless the statement deallocated
    prepared ones, the connection is then at rest with the session as the
    statement leaves it. *)
Theorem query_reads_result ctx sql args w s sd b :
  live ctx -> at_rest (outside w) s -> extended sql w args -> describes ctx sql w s sd ->
  encodes fuel (ParamOIDs sd) (q_args (options w args)) b ->
  exists s1,
    let a := runs s1 (mkStatement (query_text sql w) (ParamOIDs sd)) (query_binding w args sd b) in
    let q := a_result a in
    data s1 = data s
    /\ ((length (res_rows q) < fuel)%nat ->
        exists w', read_query ctx sql args w = Ok (inr (res_rows q, res_tag q, res_err q)) w'
          /\ (keeps_prepared s1 (a_session a) -> at_rest (outside w') (a_session a))).
Proof.
  intros Hl Hr Hx Hd Hb.
  pose proof (wp_Conn_Query ctx sql args w s sd b (fun a w' => a = (length (rws w), None) /\
    started (length (rws w)) s (mkStatement (query_text sql w) (ParamOIDs sd)) (query_binding w args sd b) w')
    Hl Hr Hx Hd Hb (fun w' Hw => conj eq_refl Hw)) as (? & w1 & E & -> & s1 & Es & r & Hrd & _)%wp_Ok.
  exists s1. intros a q. split; [done|]. intros Hn.
  assert (wp (read_all fuel (length (rws w))) w1 (fun x w' => x = (res_rows q, res_tag q, res_err q)
    /\ leaves s1 (a_session a) w')) as (x & w2 & E2 & -> & Hw2)%wp_Ok.
  { apply (wp_read_all _ _ _ _ _ _ (query_reader r _ _ _) _ _ _ _ _ Hrd Hn). intros w2 Hw2. split; [|done].
    unfold end_error, q, a. by destruct (res_err _). }
  exists w2. split; [|exact Hw2]. unfold read_query, bind. by rewrite E, E2.
Qed.
End Query.

(** ** A server with sessions

    The texts it knows are described by [describe] and run by [execute]; a name
    stands for the statement prepared under it, and cannot be taken twice. *)
Module SessionServer.
Section Server.
Context {D : Type}.
Context (describe : gostring -> option (list Z * list FieldDescription)).
Context (execute : D -> statement -> binding -> qresult * D).
Context (scan : Z -> Z -> option gostring -> goval -> error + goval).
Context (mode : cache_mode).

Record server := mkServer {
  now : session D;
  cached : gmap gostring StatementDescription;
  columns : list FieldDescription;
  current : qresult;
  seen : row
}.

Definition refused : error := errors_New "refused".

(** One format for all the columns, or one for each; text if there is none. *)
Definition format_of (formats : list Z) (i : nat) : Z :=
  match formats with [] => 0 | [f] => f | _ => default 0 (formats !! i) end.

Definition formatted (formats : list Z) (fds : list FieldDescription) : list FieldDescription :=
  imap (fun i fd => mkFieldDescription (fd_Name fd) (DataTypeOID fd) (DataTypeSize fd) (TypeModifier fd)
    (format_of formats i)) fds.

Definition run (s : session D) (st : statement) (bd : binding) : answered D :=
  let fds := match describe (st_text st) with Some (_, fds) => formatted (bd_results bd) fds | None => [] end in
  let '(q, d) := execute (data s) st bd in
  if forallb (fun x : row => (length x =? length fds)%nat) (res_rows q) then mkAnswered fds q (mkSession d (prepared s))
  else mkAnswered fds (mkResult [] [] (Some refused)) s.

Definition start (s : session D) (st : statement) (bd : binding) (n : server) : server :=
  let a := run s st bd in mkServer (a_session a) (cached n) (a_fields a) (a_result a) [].

Definition with_statement (name : gostring) (sd : StatementDescription) (s : session D) : session D :=
  mkSession (data s) (<[name := statement_of sd]> (prepared s)).

(** A name that is free: the unnamed statement is replaced. *)
Definition free (name : gostring) (s : session D) : bool :=
  bool_decide (name = []) || bool_decide (prepared s !! name = None).

Definition prepare (name sql : gostring) (n : server) : (error + StatementDescription) * session D :=
  match describe sql with
  | Some (oids, fds) =>
      let sd := mkSD name sql oids fds in
      if free name (now n) then (inr sd, with_statement name sd (now n)) else (inl refused, now n)
  | None => (inl refused, now n)
  end.

#[local] Instance ascii_inhabited : Inhabited ascii := populate Ascii.zero.

(** The cache takes names that are free. *)
Definition cache_name (s : session D) : gostring :=
  str "lrupsc_" ++ base.fresh (set_map (drop 7) (dom (prepared s)) : gset gostring).

Definition cache_get (sql : gostring) (n : server) : (error + StatementDescription) * server :=
  match cached n !! sql with
  | Some sd => (inr sd, n)
  | None =>
      let name := match mode with ModePrepare => cache_name (now n) | ModeDescribe => [] end in
      let '(r, s) := prepare name sql n in
      (r, mkServer s (match r, mode with inr sd, ModePrepare => <[sql := sd]> (cached n) | _, _ => cached n end)
            (columns n) (current n) (seen n))
  end.

Definition answer_to (r : request) (n : server) : reply r * list Notification * server :=
  match r with
  | RClose _ => (None, [], n)
  | RPrepare _ name sql =>
      let '(a, s) := prepare name sql n in (a, [], mkServer s (cached n) (columns n) (current n) (seen n))
  | RExec _ _ => (Mrr 0, [], n)
  | RExecParams _ sql vs oids f rf =>
      let st := mkStatement sql oids in
      (Rr 0, [], start (mkSession (data (now n)) (<[[] := st]> (prepared (now n)))) st (mkBinding vs f rf) n)
  | RExecPrepared _ name vs f rf =>
      match prepared (now n) !! name with
      | Some st => (Rr 0, [], start (now n) st (mkBinding vs f rf) n)
      | None => (Rr 0, [], mkServer (now n) (cached n) [] (mkResult [] [] (Some refused)) [])
      end
  | RExecBatch _ _ => (Mrr 0, [], n)
  | RWaitForNotification _ => (None, [], n)
  | RNextResult _ => (false, [], n)
  | RMrrClose _ => (Some refused, [], n)
  | RReadAll _ => (Some refused, [], n)
  | RNextRow _ =>
      match current n with
      | mkResult (x :: rows) t e => (true, [], mkServer (now n) (cached n) (columns n) (mkResult rows t e) x)
      | _ => (false, [], n)
      end
  | RRrClose _ => ((res_tag (current n), res_err (current n)), [], n)
  | RRead _ => ((res_tag (current n), res_err (current n)), [], n)
  | RCacheBuild _ => (Cache 0, [], n)
  | RCacheGet _ _ sql => let '(a, n') := cache_get sql n in (a, [], n')
  | RStatementErrored _ _ _ => (tt, [], n)
  | RPlanScan _ _ _ => (Plan 0, [], n)
  | RScanInto _ oid fmt buf dst => (scan oid fmt buf dst, [], n)
  | RConnInfoScan oid fmt buf dst => (scan oid fmt buf dst, [], n)
  | RMapKeys keys => (keys, [], n)
  | RCopyStart _ _ => (tt, [], n)
  | RCopyWrite _ => (Some refused, [], n)
  | RCopyEnd e => (([], e), [], n)
  end.

Definition pgconn : PgConn := {|
  net := server;
  pg_IsClosed := fun _ => false;
  pg_IsBusy := fun _ => false;
  PID := fun _ => 1;
  TxStatus := fun _ => "T"%char;
  ParameterStatus := fun _ _ => str "on";
  ResultReader := fun _ _ => Rr 0;
  rr_FieldDescriptions := fun n _ => columns n;
  rr_Values := fun n _ => seen n;
  cache_Mode := fun _ _ => mode;
  cache_Cap := fun _ _ => 512;
  RowsAffected := fun _ => 0;
  serve := answer_to
|}.

(** The statements that the cache knows are prepared. *)
Definition in_step (s : session D) (n : server) : Prop :=
  forall sql sd, cached n !! sql = Some sd ->
    mode = ModePrepare /\ sd_SQL sd = sql /\ describe sql = Some (ParamOIDs sd, Fields sd)
    /\ sd_Name sd <> [] /\ prepared s !! sd_Name sd = Some (statement_of sd).

Definition rests (n : server) (s : session D) : Prop := now n = s /\ in_step s n.

Definition reads (n : server) (r : rr) (fds : list FieldDescription) (s0 s : session D) (q : qresult) : Prop :=
  now n = s /\ in_step s0 n /\ columns n = fds /\ current n = q
  /\ Forall (fun x => length x = length fds) (res_rows q).

Lemma in_step_keeps s0 s n : keeps_prepared s0 s -> in_step s0 n -> in_step s n.
Proof. intros Hk Hs sql sd Hsd. destruct (Hs sql sd Hsd) as (? & ? & ? & ? & ?). split_and!; auto. Qed.

Lemma run_columns s st bd :
  Forall (fun x => length x = length (a_fields (run s st bd))) (res_rows (a_result (run s st bd))).
Proof.
  unfold run. destruct (execute _ _ _) as [q d]. set (fds := match describe _ with Some _ => _ | None => _ end).
  destruct (forallb _ _) eqn:E; [|by constructor]. simpl. apply Forall_forall. intros x Hx.
  rewrite forallb_forall in E. apply Nat.eqb_eq, E. by apply list_elem_of_In.
Qed.

Lemma start_reads s st bd n : in_step s n ->
  let a := run s st bd in reads (start s st bd n) (Rr 0) (a_fields a) s (a_session a) (a_result a).
Proof. intros Hs. split_and!; try done. apply run_columns. Qed.

Lemma prepare_right name sql n s sd :
  rests n s -> (prepare name sql n).1 = inr sd ->
  sd_Name sd = name /\ sd_SQL sd = sql /\ describe sql = Some (ParamOIDs sd, Fields sd)
  /\ (prepare name sql n).2 = with_statement name sd s /\ in_step (with_statement name sd s) n.
Proof.
  intros [<- Hs]. unfold prepare. destruct (describe sql) as [[oids fds]|] eqn:Ed; [|done].
  destruct (free name (now n)) eqn:Hf; [|done]. intros [= <-]. split_and!; try done.
  intros sql' sd' Hsd'. destruct (Hs sql' sd' Hsd') as (Hm & Hq & Hds & Hne & Hp). split_and!; try done. simpl.
  rewrite lookup_insert_ne; [done|]. intros ->. apply orb_true_iff in Hf as [Hf|Hf]; apply bool_decide_eq_true in Hf; congruence.
Qed.

Lemma cache_get_right sql n s sd :
  rests n s -> (cache_get sql n).1 = inr sd ->
  sd_SQL sd = sql /\ exists P, rests (cache_get sql n).2 (mkSession (data s) P)
    /\ (mode = ModePrepare -> P !! sd_Name sd = Some (statement_of sd)).
Proof.
  intros [<- Hs]. unfold cache_get. destruct (cached n !! sql) as [sd'|] eqn:Ec.
  { intros [= <-]. destruct (Hs sql sd' Ec) as (Hm & Hq & _ & _ & Hp). split; [done|]. exists (prepared (now n)).
    split; [|done]. assert (mkSession (data (now n)) (prepared (now n)) = now n) as -> by by destruct (now n). done. }
  set (name := match mode with ModePrepare => _ | ModeDescribe => _ end).
  pose proof (prepare_right name sql n (now n)) as Hr. destruct (prepare name sql n) as [[e|sd'] s']; [done|].
  intros [= ->]. destruct (Hr sd (conj eq_refl Hs) eq_refl) as (Hn & Hq & Hds & Hs' & Hstep). simpl in Hs'. subst s'.
  split; [done|]. eexists. split; [split; [done|]|].
  - intros sql' sd' Hsd'. cbn [snd cached] in Hsd'.
    assert (forall m, m = mode -> match m with ModePrepare => <[sql := sd]> (cached n) | ModeDescribe => cached n end !! sql' = Some sd' ->
      m = ModePrepare /\ sql' = sql /\ sd' = sd \/ cached n !! sql' = Some sd') as Hcase.
    { intros [] _; [|by right]. destruct (decide (sql' = sql)) as [->|Hne]; [|rewrite lookup_insert_ne by done; by right].
      rewrite lookup_insert_eq. intros [= <-]. by left. }
    destruct (Hcase mode eq_refl Hsd') as [(Hm & -> & ->)|Hold]; [|by apply Hstep].
    split_and!; [done|done|done| |]; rewrite Hn; [unfold name; by rewrite Hm|]. apply lookup_insert_eq.
  - intros _. simpl. rewrite Hn. apply lookup_insert_eq.
Qed.

Lemma cache_name_free s : prepared s !! cache_name s = None.
Proof.
  apply eq_None_not_Some. intros Hs%elem_of_dom.
  set (X := set_map (drop 7) (dom (prepared s)) : gset gostring). apply (is_fresh X), elem_of_map.
  exists (cache_name s). split; [|done]. unfold cache_name. by rewrite (drop_app_length' (str "lrupsc_")).
Qed.

(** What can be described can be had from the cache. *)
Lemma cache_get_described sql n s oids fds :
  rests n s -> describe sql = Some (oids, fds) ->
  exists sd, (cache_get sql n).1 = inr sd /\ ParamOIDs sd = oids /\ Fields sd = fds.
Proof.
  intros [<- Hs] Ed. unfold cache_get. destruct (cached n !! sql) as [sd|] eqn:Ec.
  { exists sd. destruct (Hs sql sd Ec) as (_ & _ & Ed' & _). rewrite Ed in Ed'. by injection Ed' as -> ->. }
  unfold prepare. rewrite Ed. eexists. set (name := match mode with ModePrepare => _ | ModeDescribe => _ end).
  assert (free name (now n) = true) as ->; [|done]. unfold free, name.
  destruct mode; [|done]. rewrite (bool_decide_eq_true_2 (_ !! _ = None)) by apply cache_name_free. apply orb_true_r.
Qed.

#[export] Instance queries : @PgQueries pgconn D.
Proof.
  refine (@Build_PgQueries pgconn D (fun _ => True) rests reads _ _ _ _ _ _ _ _ _ run _ _);
    unfold replies; cbn [serve pgconn answer_to].
  - by intros n r fds s0 s q (_ & _ & <- & <- & Hq).
  - intros n r fds s0 s x rows t err (Hn & Hs & Hf & Hc & Hq). rewrite Hc. eexists. split; [done|]. split; [done|].
    split_and!; try done. by apply Forall_cons in Hq as [_ Hq].
  - intros n r fds s0 s t err (Hn & Hs & Hf & Hc & Hq). rewrite Hc. by eexists.
  - intros n r fds s0 s q (<- & Hs & _ & <- & _). eexists. split; [done|]. intros Hk. split; [done|by eapply in_step_keeps].
  - intros n r fds s0 s q (<- & Hs & _ & <- & _). eexists. split; [done|]. intros Hk. split; [done|by eapply in_step_keeps].
  - intros n r fds s0 s q rq Hi Hrq. by destruct rq.
  - done.
  - intros ctx name sql n s sd Hr. pose proof (prepare_right name sql n s sd Hr) as Hp.
    destruct (prepare name sql n) as [a s']. simpl in *. intros Ea. by destruct (Hp Ea) as (Hn & Hq & _ & -> & Hs).
  - intros c ctx sql n s sd Hr. pose proof (cache_get_right sql n s sd Hr) as Hc.
    destruct (cache_get sql n) as [a n']. simpl in *. intros Ea. destruct (Hc Ea) as (Hq & HP). done.
  - intros ctx sql vs oids f rf n s _ [<- Hs]. eexists (mkSession (data (now n)) (<[[] := mkStatement sql oids]> (prepared (now n)))), (Rr 0), _.
    split; [done|]. split; [by simpl; rewrite delete_insert_eq|]. split; [done|]. apply start_reads.
    intros sql' sd' Hsd'. destruct (Hs sql' sd' Hsd') as (Hm & Hq & Hds & Hne & Hp). split_and!; try done. simpl.
    by rewrite lookup_insert_ne.
  - intros ctx name vs f rf n s st _ [<- Hs] Hst. rewrite Hst. eexists (Rr 0), _. split; [done|]. by apply start_reads.
Defined.
End Server.
End SessionServer.

(** ** A table of integers *)
Module Table.
Definition all : gostring := str "select v from t".
Definition others : gostring := str "select v from t where v <> $1".

Definition column : FieldDescription := mkFieldDescription (str "v") 23 4 (-1) 0.

Definition describe (sql : gostring) : option (list Z * list FieldDescription) :=
  if bool_decide (sql = all) then Some ([], [column])
  else if bool_decide (sql = others) then Some ([23], [column]) else None.

(** The values are in their binary format. *)
Definition execute (t : list gostring) (st : statement) (bd : binding) : qresult * list gostring :=
  let answer (l : list gostring) := mkResult (map (fun v => [Some v]) l) (str "SELECT") None in
  (if bool_decide (st_text st = all) then answer t
   else match bd_values bd with
        | [Some v] => answer (filter (fun x => x <> v) t)
        | _ => mkResult [] [] (Some SessionServer.refused)
        end, t).

Definition scan (oid fmt : Z) (buf : option gostring) (dst : goval) : error + goval := inl SessionServer.refused.

Definition rows : list gostring := [be32 7; be32 8; be32 9].

Definition pgconn : PgConn := SessionServer.pgconn describe execute scan ModePrepare.

Definition queries : @PgQueries pgconn (list gostring) := SessionServer.queries describe execute scan ModePrepare.

Definition decoders : @PgDecoders Sample.types pgconn := {|
  dt_TextDecoder := fun _ => None;
  dt_BinaryDecoder := fun _ => None;
  GenericText_Decode := fun b => inr (VString None b);
  GenericBinary_Decode := fun b => inr (VBytes None b);
  dt_Get := fun _ _ => VNil
|}.

(** The application prepared two statements, and the cache one. *)
Definition first_sd : StatementDescription := mkSD (str "first") all [] [column].
Definition second_sd : StatementDescription := mkSD (str "second") others [23] [column].
Definition cached_sd : StatementDescription := mkSD (str "lrupsc_" ++ others) others [23] [column].

Definition open_session : session (list gostring) :=
  mkSession rows (<[str "first" := statement_of first_sd]> (<[str "second" := statement_of second_sd]>
    (<[str "lrupsc_" ++ others := statement_of cached_sd]> ∅))).

Definition server : SessionServer.server :=
  SessionServer.mkServer open_session (<[others := cached_sd]> ∅) [] (mkResult [] [] None) [].

Lemma server_rests : SessionServer.rests describe ModePrepare server open_session.
Proof.
  split; [done|]. intros sql sd. cbn [SessionServer.cached server]. intros [[<- <-]|[_ [=]]]%lookup_insert_Some.
  split_and!; by vm_compute.
Qed.

Definition start_world : @world pgconn :=
  @mkWorld pgconn
    (mkConn (Toy.configuration false) (<[str "first" := first_sd]> (<[str "second" := second_sd]> ∅)) (Some (Cache 0)) true 4 []
       true 0 emptyEqb) server [] [] [] [] [] [].
End Table.

#[local] Existing Instance Sample.types.
#[local] Existing Instance Sample.laws.
#[local] Hint Extern 0 PgConn => exact Table.pgconn : typeclass_instances.
#[local] Existing Instance Table.decoders.
#[local] Existing Instance Table.queries.

(** A text that the cache prepared, and two names of the application: each runs
    its own statement. *)
Lemma query_reads_result_witness :
  let reads sql args l := exists w', read_query 5 Background sql args Table.start_world
    = Ok (inr (map (fun v => [Some v]) l, str "SELECT", None)) w' /\ exists P, at_rest (outside w') (mkSession Table.rows P) in
  reads Table.others [VInt KInt None 8] [be32 7; be32 9]
  /\ reads (str "first") [] [be32 7; be32 8; be32 9]
  /\ reads (str "second") [VInt KInt None 7] [be32 8; be32 9].
Proof.
  cbv zeta. split_and!.
  - destruct (query_reads_result 5 Background Table.others [VInt KInt None 8] Table.start_world Table.open_session
      Table.cached_sd (mkEqb [Some (be32 8)] (be32 8) [1] [])) as ([d P] & Ed & N).
    + done.
    + apply Table.server_rests.
    + by right.
    + by vm_compute.
    + split; [done|]. exists [VInt KInt None 8]. by split.
    + simpl in Ed. subst d. destruct N as (w' & E & Ha); [vm_compute; lia|]. exists w'. split; [exact E|]. exists P. exact (Ha (fun _ _ _ Hp => Hp)).
  - destruct (query_reads_result 5 Background (str "first") [] Table.start_world Table.open_session
      Table.first_sd emptyEqb) as ([d P] & Ed & N).
    + done.
    + apply Table.server_rests.
    + by right.
    + by vm_compute.
    + split; [done|]. exists []. by split.
    + simpl in Ed. subst d. destruct N as (w' & E & Ha); [vm_compute; lia|]. exists w'. split; [exact E|]. exists P. exact (Ha (fun _ _ _ Hp => Hp)).
  - destruct (query_reads_result 5 Background (str "second") [VInt KInt None 7] Table.start_world Table.open_session
      Table.second_sd (mkEqb [Some (be32 7)] (be32 7) [1] [])) as ([d P] & Ed & N).
    + done.
    + apply Table.server_rests.
    + by right.
    + by vm_compute.
    + split; [done|]. exists [VInt KInt None 7]. by split.
    + simpl in Ed. subst d. destruct N as (w' & E & Ha); [vm_compute; lia|]. exists w'. split; [exact E|]. exists P. exact (Ha (fun _ _ _ Hp => Hp)).
Defined.
