(* ===== verification/ConnSpec.v ===== *)
(** What the connection promises: preparing is idempotent, arguments reach the
    simple protocol only as literals, result sets and errors of a query agree,
    and the rows of [QueryFunc] are closed. *)

From S2P Require Import Prelude GoStd GoVal Effects Sanitize Values PgConn Logger World Toy Rows Config Conn.

Local Open Scope Z_scope.

Section ConnSpec.
Context `{PgTypes} `{PgConn} `{!PgDecoders}.
Context (fuel : nat).

(** ** Prepared statements *)

(** Preparing under a name is remembered: the same name and text again
    return the same description and reach neither the server nor the log. *)
Theorem Prepare_idempotent ctx ctx' name sql w sd w' :
  name <> [] -> Conn_Prepare ctx name sql w = Ok (inr sd) w' -> sd_SQL sd = sql ->
  preparedStatements (conn w') !! name = Some sd
  /\ Conn_Prepare ctx' name sql w' = Ok (inr sd) w'.
Proof.
  intros Hn E Hsql.
  assert (preparedStatements (conn w') !! name = Some sd) as Hk.
  { revert E. unfold Conn_Prepare, get_prepared, gets, bind at 1.
    rewrite (bool_decide_eq_false_2 (name = [])) by done. cbn [negb andb when].
    assert (forall w1, (let* r := call (RPrepare ctx name sql) in
       match r with
       | inl e => log_if ctx LogLevelError (str "Prepare failed")
           [(str "err", LErr e); (str "name", LStr name); (str "sql", LStr sql)];;; ret (inl e)
       | inr sd0 => modify_conn (fun c => with_preparedStatements (<[name:=sd0]> (preparedStatements c)) c);;;
           ret (inr sd0)
       end) w1 = Ok (inr sd) w' -> preparedStatements (conn w') !! name = Some sd) as Hp.
    { intros w1 E. unfold bind at 1, call in E. destruct (answer _ w1) as [e|sd0].
      - unfold bind in E. rewrite log_if_run in E. done.
      - injection E as <- <-. simpl. by rewrite lookup_insert_eq. }
    destruct (preparedStatements (conn w) !! name) as [sd0|] eqn:E0; [|apply Hp].
    case_bool_decide; [|apply Hp]. by intros [= <- <-]. }
  split; [done|]. unfold Conn_Prepare, get_prepared, gets, bind at 1.
  rewrite Hk, (bool_decide_eq_false_2 (name = [])), (bool_decide_eq_true_2 (sd_SQL sd = sql)) by done.
  done.
Qed.

(** ** The simple protocol *)

(** A text sent in the simple protocol for a query with arguments is the query
    with the converted arguments interpolated, under the settings that make the
    literals safe. *)
Definition interpolated (n : net) (sql : gostring) (args : list goval) (r : request) : Prop :=
  match r with
  | RExec _ text =>
      ParameterStatus n (str "standard_conforming_strings") = str "on"
      /\ ParameterStatus n (str "client_encoding") = str "UTF8"
      /\ exists vs, convert_args fuel args = Done (inr vs)
           /\ SanitizeSQL sql vs = Some (Ret (inr text))
  | _ => True
  end.

Lemma sanitize_Ok sql args w r w' :
  sanitizeForSimpleQuery fuel sql args w = Ok r w' ->
  w' = w /\ forall text, r = inr text -> forall ctx, interpolated (outside w) sql args (RExec ctx text).
Proof.
  unfold sanitizeForSimpleQuery, observe, gets, bind at 1. case_bool_decide as Hs; simpl.
  2:{ intros [= <- <-]. done. }
  unfold bind at 1. case_bool_decide as He; simpl; [|intros [= <- <-]; done].
  unfold bind, lift. destruct (convert_args fuel args) as [[e|vs]|msg|] eqn:Ec; try done.
  { intros [= <- <-]. done. }
  destruct (SanitizeSQL sql vs) as [[r0|]|] eqn:Es; simpl; try done.
  intros [= <- <-]. split; [done|]. intros text -> ctx. eauto.
Qed.

Section Interpolated.
Context (n : net) (sql : gostring) (args : list goval).
Let P := interpolated n sql args.

Lemma emits_results m : keeps (emits P) (exec_results fuel m).
Proof. unfold exec_results, observe. keeps_tac. Qed.

Lemma emits_reset : keeps (emits P) reset_eqb.
Proof. apply emits_modify_conn. Qed.

Lemma emits_prefix sd l : keeps (emits P) (execParamsAndPreparedPrefix fuel sd l).
Proof.
  unfold execParamsAndPreparedPrefix, eqb_append_params, eqb_append_results, reset_eqb. keeps_tac.
Qed.
#[local] Hint Resolve emits_results emits_prefix emits_reset : keeps.

Lemma emits_execPrepared ctx sd l : keeps (emits P) (execPrepared fuel ctx sd l).
Proof. unfold execPrepared. keeps_tac. Qed.

Lemma emits_execParams ctx sd l : keeps (emits P) (execParams fuel ctx sd l).
Proof. unfold execParams. keeps_tac. Qed.

Lemma emits_Prepare ctx name q : keeps (emits P) (Conn_Prepare ctx name q).
Proof. unfold Conn_Prepare, get_prepared. keeps_tac. Qed.

Lemma emits_rows_Close p : keeps (emits P) (rows_Close p).
Proof. unfold rows_Close, rows_report, rows_close_reader, rows_close_multi, read_rows. keeps_tac. Qed.
#[local] Hint Resolve emits_rows_Close : keeps.

Lemma emits_rows_fatal p e : keeps (emits P) (rows_fatal p e).
Proof. unfold rows_fatal, read_rows. keeps_tac. Qed.
#[local] Hint Resolve emits_rows_fatal : keeps.

Lemma emits_query_extended ctx p q o sd : keeps (emits P) (query_extended fuel ctx p q o sd).
Proof.
  unfold query_extended, query_send, query_fails, query_formats, eqb_append_params, eqb_append_results, rows_Err,
    read_rows, observe. keeps_tac.
Qed.

Lemma emits_query_describe ctx q : keeps (emits P) (query_describe ctx q).
Proof. unfold query_describe. keeps_tac. Qed.
End Interpolated.

#[local] Hint Resolve emits_results emits_execPrepared emits_execParams emits_Prepare emits_rows_fatal
  emits_query_extended emits_query_describe emits_reset : keeps.

Lemma simple_interpolated ctx sql args w r w' :
  args <> [] -> execSimpleProtocol fuel ctx sql args w = Ok r w' ->
  emits (interpolated (outside w) sql args) w w'.
Proof.
  unfold execSimpleProtocol. destruct args as [|a l]; [done|]. intros _ E.
  inv_ok E. apply sanitize_Ok in Hm as [-> Hi]. destruct a0 as [e|text].
  - injection E as <- <-. reflexivity.
  - revert E. apply keeps_Ok. apply (keeps_bind _).
    + apply (emits_call _ (RExec ctx text)), Hi. done.
    + intros m. keeps_tac.
Qed.

Lemma query_simple_interpolated ctx p sql args w r w' :
  query_simple fuel ctx p sql args w = Ok r w' -> emits (interpolated (outside w) sql args) w w'.
Proof.
  unfold query_simple. intros E. inv_ok E. apply sanitize_Ok in Hm as [-> Hi]. destruct a as [e|text].
  - revert E. apply keeps_Ok. keeps_tac.
  - revert E. apply keeps_Ok. apply (keeps_bind _).
    + apply (emits_call _ (RExec ctx text)), Hi. done.
    + intros m. unfold observe. keeps_tac.
Qed.

(** C4. When a statement has arguments, [Exec] and [Query] send no text of
    their own to the server other than the one [SanitizeSQL] makes of the
    converted arguments, and this only with standard-conforming strings and
    UTF-8. *)
Theorem arguments_are_interpolated ctx sql arguments w r w' :
  (let args := snd (exec_options (PreferSimpleProtocol (config (conn w))) arguments) in
   args <> [] -> Conn_Exec fuel ctx sql arguments w = Ok r w' ->
   emits (interpolated (outside w) sql args) w w')
  /\ (forall pe, let o := parse_query_options
          (mkQueryOptions (PreferSimpleProtocol (config (conn w))) None None arguments) arguments in
      Conn_Query fuel ctx sql arguments w = Ok pe w' ->
      emits (interpolated (outside w) sql (q_args o)) w w').
Proof.
  split.
  - intros args Hne E. unfold Conn_Exec in E. inv_ok E. destruct a as [[tag err] left_args].
    transitivity s; [|revert E; apply keeps_Ok; keeps_tac].
    clear E. unfold conn_exec in Hm. inv_ok Hm. injection Hm0 as <- <-.
    destruct (exec_options _ arguments) as [simple args0] eqn:Eo. simpl in args.
    unfold get_prepared in Hm. inv_ok Hm. injection Hm0 as <- <-.
    assert (forall s', (let* '(tag0, err0) := execSimpleProtocol fuel ctx sql args0 in
      ret (tag0, err0, args0)) w = Ok (tag, err, left_args) s' ->
      emits (interpolated (outside w) sql args) w s') as Hs.
    { intros s' E. inv_ok E. destruct a. injection E as <- <- <- <-. by eapply simple_interpolated. }
    assert ((length args0 =? 0)%nat = false) as Hl by (destruct args0; done).
    destruct (preparedStatements (conn w) !! sql) as [sd|]; [revert Hm; apply keeps_Ok; keeps_tac|].
    destruct simple; [by apply Hs|]. rewrite Hl in Hm. revert Hm. apply keeps_Ok.
    unfold observe. keeps_tac.
  - intros [p e] o E. unfold Conn_Query in E. inv_ok E. injection Hm as <- <-.
    inv_ok E. set (o' := parse_query_options _ arguments) in *.
    assert (outside s = outside w /\ trace s = trace w /\ conn s = conn s) as (Ho & Ht & _).
    { unfold getRows, bind, modify_conn, modify, new_rows in Hm. injection Hm as <- <-. done. }
    assert (emits (interpolated (outside w) sql (q_args o)) w s) as F by by apply emits_same.
    transitivity s; [done|]. unfold get_prepared in E. inv_ok E. injection Hm0 as <- <-.
    destruct (preparedStatements (conn s) !! sql) as [sd|].
    + revert E. apply keeps_Ok. keeps_tac.
    + destruct (q_simple o').
      * rewrite <- Ho. by eapply query_simple_interpolated.
      * revert E. apply keeps_Ok. unfold query_fails, rows_Err, read_rows. keeps_tac.
Qed.

(** ** Queries *)

(** A result set that a reader may be given: its error is the one returned. *)
Definition query_result (w : world) (p : nat) (err : option error) : Prop :=
  exists x, rws w !! p = Some x /\ rows_err x = err /\ rows_wf x
    /\ (rows_closed x = false -> scanPlans x = None).

(** A result set that has not been given a reader yet. *)
Definition unread (w : world) (p : nat) : Prop :=
  exists x, rws w !! p = Some x /\ rows_err x = None /\ resultReader x = None
    /\ multiResultReader x = None /\ scanPlans x = None.

Lemma unread_quiet w w' p : quiet w w' -> unread w p -> unread w' p.
Proof. intros (E & _). unfold unread. by rewrite E. Qed.

Lemma unread_keeps {A} (m : M world A) w a w' p :
  keeps quiet m -> m w = Ok a w' -> unread w p -> unread w' p.
Proof. intros Hq E. eapply unread_quiet, keeps_Ok, E. done. Qed.

Lemma unread_update w w' p f :
  (forall x, rows_err (f x) = rows_err x /\ resultReader (f x) = resultReader x
     /\ multiResultReader (f x) = multiResultReader x /\ scanPlans (f x) = scanPlans x) ->
  update_rows p f w = Ok tt w' -> unread w p -> unread w' p.
Proof.
  intros Hf E (x & Ex & E1 & E2 & E3 & E4). inv_ok E. apply read_at_Ok in Hm as [Ha ->].
  rewrite Ex in Ha. injection Ha as <-. injection E as <-. exists (f x). simpl.
  rewrite list_lookup_insert_eq by by eapply lookup_lt_Some.
  destruct (Hf x) as (-> & -> & -> & ->). done.
Qed.

Lemma fatal_result w p e w' :
  unread w p -> rows_fatal p e w = Ok tt w' -> query_result w' p e.
Proof.
  intros (x & Ex & E1 & E2 & E3 & E4) E.
  assert (wp (rows_fatal p e) w (fun _ w' => query_result w' p e)) as Hwp.
  { apply (wp_rows_fatal _ _ x); [done|by rewrite E1|]. intros x' w1 M1 C1 _ _ N1.
    exists x'. split; [by eapply moved_lookup|]. split; [by apply N1|].
    split; [by apply closed_wf|]. by rewrite C1. }
  unfold wp in Hwp. by rewrite E in Hwp.
Qed.

Lemma fails_result w p e r w' :
  unread w p -> query_fails p e w = Ok r w' -> r = (p, Some e) /\ query_result w' p (Some e).
Proof.
  intros Hu E. inv_ok E. destruct a. apply (fatal_result _ _ _ _ Hu) in Hm.
  inv_ok E. injection E as <- <-. inv_ok Hm0. apply read_at_Ok in Hm1 as [Hx ->].
  injection Hm0 as <- <-. destruct (id Hm) as (x & Ex & Ee & _). rewrite Hx in Ex.
  injection Ex as <-. by rewrite Ee.
Qed.

Lemma readers_result w p r m w' :
  unread w p -> update_rows p (rows_with_readers (Some r) m) w = Ok tt w' -> query_result w' p None.
Proof.
  intros (x & Ex & E1 & E2 & E3 & E4) E. inv_ok E. apply read_at_Ok in Hm as [Ha ->].
  rewrite Ex in Ha. injection Ha as <-. injection E as <-. exists (rows_with_readers (Some r) m x). simpl.
  rewrite list_lookup_insert_eq by by eapply lookup_lt_Some. split; [done|]. split; [done|].
  split; [|done]. split; simpl; [by rewrite E1|done].
Qed.

Lemma quiet_result {A} (m : M world A) w a w' p err :
  keeps quiet m -> m w = Ok a w' -> query_result w p err -> query_result w' p err.
Proof.
  intros Hq E. destruct (keeps_Ok _ _ _ _ _ Hq E) as (Er & _). unfold query_result. by rewrite Er.
Qed.

Lemma quiet_sanitize sql args : keeps quiet (sanitizeForSimpleQuery fuel sql args).
Proof. unfold sanitizeForSimpleQuery, observe. keeps_tac. Qed.

Lemma quiet_append_params oids args : keeps quiet (eqb_append_params fuel oids args).
Proof. unfold eqb_append_params. keeps_tac. Qed.

Lemma quiet_formats o sd : keeps quiet (query_formats o sd).
Proof. unfold query_formats, eqb_append_results. keeps_tac. Qed.

Lemma query_simple_result ctx p sql args w r w' :
  unread w p -> query_simple fuel ctx p sql args w = Ok r w' ->
  exists err, r = (p, err) /\ query_result w' p err.
Proof.
  intros Hu E. unfold query_simple in E. inv_ok E.
  apply (unread_keeps _ _ _ _ _ (quiet_sanitize _ _) Hm) in Hu. destruct a as [e|text].
  - inv_ok E. destruct a. injection E as <- <-. exists (Some e). split; [done|]. by eapply fatal_result.
  - inv_ok E. apply (unread_keeps _ _ _ _ _ (quiet_call _) Hm0) in Hu.
    inv_ok E. apply (unread_keeps _ _ _ _ _ (quiet_call _) Hm1) in Hu. destruct a0.
    + inv_ok E. injection Hm2 as <- <-. inv_ok E. destruct a0. injection E as <- <-.
      exists None. split; [done|]. by eapply readers_result.
    + inv_ok E. apply (unread_keeps _ _ _ _ _ (quiet_call _) Hm2) in Hu.
      inv_ok E. destruct a1. injection E as <- <-. exists a0. split; [done|]. by eapply fatal_result.
Qed.

Lemma query_send_result ctx p sql o sd w r w' :
  unread w p -> query_send ctx p sql o sd w = Ok r w' -> exists err, r = (p, err) /\ query_result w' p err.
Proof.
  intros Hu E. inv_ok E. apply (unread_keeps _ _ _ _ _ (quiet_formats _ _) Hm) in Hu.
  inv_ok E. injection Hm0 as <- <-. inv_ok E. injection Hm0 as <- <-. inv_ok E.
  assert (s0 = s) as -> by (destruct (stmtcache (conn s)); by injection Hm0 as _ <-).
  inv_ok E. assert (quiet s s0) as Hq by (destruct a0; by injection Hm1 as _ <-).
  apply (unread_quiet _ _ _ Hq) in Hu. inv_ok E. destruct a2. apply (readers_result _ _ _ _ _ Hu) in Hm2.
  inv_ok E. apply (quiet_result _ _ _ _ _ _ (quiet_modify_conn _) Hm3) in Hm2.
  inv_ok E. inv_ok Hm4. apply read_at_Ok in Hm5 as [Hx ->]. injection Hm4 as <- <-.
  injection E as <- <-. eexists. split; [done|]. destruct (id Hm2) as (x & Ex & Ee & _).
  rewrite Hx in Ex. injection Ex as ->. by rewrite Ee.
Qed.

Lemma query_extended_result ctx p sql o sd w r w' :
  unread w p -> query_extended fuel ctx p sql o sd w = Ok r w' ->
  exists err, r = (p, err) /\ query_result w' p err.
Proof.
  intros Hu E. unfold query_extended in E.
  destruct (negb _); [apply (fails_result _ _ _ _ _ Hu) in E as [-> Hr]; eauto|].
  inv_ok E. destruct a. apply unread_update in Hm; [|done|done].
  destruct (convertDriverValuers (q_args o)) as [conv failure]. inv_ok E. destruct a.
  apply unread_update in Hm0; [|done|done]. destruct failure as [e|].
  { apply (fails_result _ _ _ _ _ Hm0) in E as [-> Hr]. eauto. }
  inv_ok E. apply (unread_keeps _ _ _ _ _ (quiet_append_params _ _) Hm1) in Hm0.
  destruct a as [e|]; [|by eapply query_send_result].
  apply (fails_result _ _ _ _ _ Hm0) in E as [-> Hr]. eauto.
Qed.

Lemma getRows_unread ctx sql args w p w' :
  getRows ctx sql args w = Ok p w' -> p = length (rws w) /\ unread w' p.
Proof.
  intros E. unfold getRows, bind, modify_conn, modify, new_rows in E. injection E as <- <-.
  split; [done|]. eexists. split; [by apply list_lookup_middle|done].
Qed.

Lemma Query_result_ok ctx sql arguments w p err w' :
  Conn_Query fuel ctx sql arguments w = Ok (p, err) w' -> p = length (rws w) /\ query_result w' p err.
Proof.
  intros E. unfold Conn_Query in E. inv_ok E. injection Hm as <- <-. inv_ok E.
  apply getRows_unread in Hm as [-> Hu]. unfold get_prepared in E. inv_ok E. injection Hm as <- <-.
  assert (forall r, r = (p, err) -> (exists err', r = (length (rws w), err') /\ query_result w' (length (rws w)) err')
    -> p = length (rws w) /\ query_result w' p err) as Hend.
  { intros r -> (err' & [= -> ->] & Hr). done. }
  destruct (preparedStatements (conn s) !! sql) as [sd|].
  - inv_ok E. apply (unread_keeps _ _ _ _ _ (quiet_modify_conn _) Hm) in Hu.
    eapply Hend; [done|]. by eapply query_extended_result.
  - destruct (q_simple _); [eapply Hend; [done|]; by eapply query_simple_result|].
    inv_ok E. apply (unread_keeps _ _ _ _ _ (quiet_modify_conn _) Hm) in Hu.
    inv_ok E. assert (keeps quiet (query_describe ctx sql)) as Hq by (unfold query_describe; keeps_tac).
    apply (unread_keeps _ _ _ _ _ Hq Hm0) in Hu. destruct a0 as [e|sd].
    + eapply Hend; [done|]. destruct (fails_result _ _ _ _ _ Hu E) as [[= -> ->] Hr]. eauto.
    + eapply Hend; [done|]. by eapply query_extended_result.
Qed.

(** C15. The result set a query returns is a new one.  Its error is the one
    returned next to it, it is closed when there is one, and otherwise it can
    be read: [Scan] on it returns and leaves it closed. *)
Theorem Query_result ctx sql arguments w p err w' dest :
  Conn_Query fuel ctx sql arguments w = Ok (p, err) w' ->
  p = length (rws w)
  /\ (exists x, rws w' !! p = Some x /\ rows_err x = err /\ (err <> None -> rows_closed x = true))
  /\ exists e stored w2 x2, row_Scan p dest w' = Ok (e, stored) w2
       /\ rws w2 !! p = Some x2 /\ rows_closed x2 = true /\ (err <> None -> e = err).
Proof.
  intros E. apply Query_result_ok in E as (-> & x & Ex & He & Hwf & Hp). split; [done|].
  split; [exists x; split; [done|]; split; [done|]; rewrite <- He; apply Hwf|].
  destruct (wp_Ok (row_Scan (length (rws w)) dest) w' (fun '(e, _) w2 => exists x2,
    rws w2 !! length (rws w) = Some x2 /\ rows_closed x2 = true /\ (err <> None -> e = err))) as [Hwp _].
  destruct Hwp as ([e stored] & w2 & E2 & x2 & ?); [|by exists e, stored, w2, x2].
  apply (row_Scan_wp _ _ x); [done..|]. intros e stored x2 w2 M2 C2 H2 _ Hsame.
  exists x2. split; [by eapply moved_lookup|]. split; [done|]. intros Hne.
  rewrite <- He. destruct (rows_err x) eqn:Ee; [by apply Hsame|by subst].
Qed.

(** A result set about to get its reader, in a world where nothing was asked of
    the outside yet. *)
Definition ready (w w1 : world) (p : nat) : Prop :=
  outside w1 = outside w /\ requests (trace w1) = requests (trace w)
  /\ preparedStatements (conn w1) = preparedStatements (conn w) /\ stmtcache (conn w1) = stmtcache (conn w)
  /\ unread w1 p.

Lemma wp_ready_update w w1 p f Q :
  ready w w1 p ->
  (forall x, rows_err (f x) = rows_err x /\ resultReader (f x) = resultReader x
     /\ multiResultReader (f x) = multiResultReader x /\ scanPlans (f x) = scanPlans x) ->
  (forall w2, ready w w2 p -> eqb (conn w2) = eqb (conn w1) -> Q tt w2) -> wp (update_rows p f) w1 Q.
Proof.
  intros (R1 & R2 & R3 & R4 & R5) Hf HQ. destruct (id R5) as (x & Ex & _).
  apply (wp_update_rows _ _ x); [done|]. apply HQ; [|done]. do 4 (split; [done|]).
  eapply (unread_update w1 _ p f); [done| |done]. unfold update_rows, bind, read_rows.
  by rewrite (read_at_run _ _ _ _ Ex).
Qed.

Lemma wp_getRows_ready ctx sql args w Q :
  (forall w1, ready w w1 (length (rws w)) -> Q (length (rws w)) w1) -> wp (getRows ctx sql args) w Q.
Proof.
  intros HQ. unfold wp. destruct (getRows ctx sql args w) as [p w1| |] eqn:E; [|done..].
  destruct (getRows_unread _ _ _ _ _ _ E) as [-> Hu]. apply HQ.
  unfold getRows, bind, modify_conn, modify, new_rows in E. injection E as <-.
  do 2 (split; [done|]). simpl. destruct (preallocatedRows (conn w)); by repeat split.
Qed.

(** On a connection whose cache only describes statements, [Query] with the
    name of a prepared statement sends the name as if it were the text of a
    statement. *)
Theorem prepared_name_sent_as_text ctx name sd c w :
  preparedStatements (conn w) !! name = Some sd -> ParamOIDs sd = [] ->
  stmtcache (conn w) = Some c -> cache_Mode (outside w) c = ModeDescribe ->
  exists r w' formats, Conn_Query fuel ctx name [] w = Ok r w'
    /\ requests (trace w') = requests (trace w) ++ [RExecParams ctx name [] [] [] formats].
Proof.
  intros Hp Ho Hc Hd.
  assert (wp (Conn_Query fuel ctx name []) w (fun _ w' => exists formats,
    requests (trace w') = requests (trace w) ++ [RExecParams ctx name [] [] [] formats])) as Hwp.
  2:{ apply wp_Ok in Hwp as (r & w' & E & formats & ?). eauto. }
  apply wp_bind. apply (wp_eq _ _ _ _ _ eq_refl). cbn [parse_query_options].
  apply wp_bind, wp_getRows_ready. intros w1 R1. set (p := length (rws w)) in *.
  apply wp_bind. apply (wp_eq _ _ _ _ _ eq_refl). destruct (id R1) as (_ & _ & R1p & _).
  rewrite R1p, Hp. apply wp_bind. apply (wp_eq _ _ _ _ _ eq_refl).
  set (w2 := set_conn _ w1). assert (ready w w2 p) as R2 by exact R1.
  assert (eqb (conn w2) = mkEqb [] [] [] []) as B2 by done. clearbody w2. clear R1 R1p w1.
  unfold query_extended. rewrite Ho. cbn [length q_args Nat.eqb negb convertDriverValuers].
  apply wp_bind, (wp_ready_update w); [done|done|]. intros w3 R3 B3.
  apply wp_bind, (wp_ready_update w); [done|done|]. intros w4 R4 B4. rewrite B3, B2 in B4.
  apply wp_bind. eapply wp_eq.
  { unfold eqb_append_params, gets, bind. rewrite B4. reflexivity. }
  cbn [append_params]. set (w5 := set_conn _ w4). assert (ready w w5 p) as R5 by exact R4.
  unfold query_send. apply wp_bind. cbn [query_formats q_formatsByOID q_formats].
  apply wp_bind. apply (wp_eq _ _ _ _ _ eq_refl). apply (wp_eq _ _ _ _ _ eq_refl).
  set (w6 := set_conn _ w5). assert (ready w w6 p) as (R6 & T6 & _ & S6 & x & Ex & _) by exact R5.
  assert (paramValues (eqb (conn w6)) = [] /\ paramFormats (eqb (conn w6)) = []) as [V6 F6].
  { unfold w6. cbn [conn set_conn with_eqb eqb]. rewrite append_result_formats_ok. done. }
  set (formats := resultFormats _). clearbody formats. clearbody w6.
  apply wp_bind. apply (wp_eq _ _ _ _ _ eq_refl). apply wp_bind. apply (wp_eq _ _ _ _ _ eq_refl).
  rewrite S6, Hc. apply wp_bind. apply (wp_eq _ _ _ _ _ eq_refl).
  rewrite R6, Hd, (bool_decide_eq_true_2 (ModeDescribe = ModeDescribe)) by done.
  apply wp_bind. apply (wp_eq _ _ _ _ _ eq_refl).
  apply wp_bind, (wp_update_rows _ _ x); [done|]. apply wp_bind. apply (wp_eq _ _ _ _ _ eq_refl).
  apply wp_bind, wp_bind. eapply wp_read_rows; [apply list_lookup_insert_eq; by eapply lookup_lt_Some|].
  unfold wp, ret. exists formats. cbn [trace set_conn set_rws].
  by rewrite requests_called, T6, Ho, V6, F6.
Qed.

(** ** QueryFunc *)

Lemma grow_read_quiet {A} (heap : world -> list A) p : keeps rows_grow (read_at heap p).
Proof. apply grow_quiet, quiet_read_at. Qed.
#[local] Hint Resolve grow_read_quiet : keeps.

Lemma grow_query_func_rows p scans f :
  (forall q, keeps rows_grow (f q)) -> keeps rows_grow (query_func_rows fuel p scans f).
Proof.
  intros Hf. unfold query_func_rows, rows_Err, rows_CommandTag, read_rows.
  pose proof (Hf p). keeps_tac.
Qed.

Definition closed_in (w : world) (p : nat) : Prop :=
  exists x, rws w !! p = Some x /\ rows_closed x = true.

Lemma Close_closed_in p w x : rws w !! p = Some x -> wp (rows_Close p) w (fun _ w' => closed_in w' p).
Proof.
  intros E. apply (wp_rows_Close _ _ x); [done|]. intros x' w' M C _ _ _.
  exists x'. split; [by eapply moved_lookup|done].
Qed.

Lemma deferred_close_closes p w1 {A} (zero : A) (m : M world A) x :
  rws w1 !! p = Some x -> keeps rows_grow m ->
  match defer zero (fun r => rows_Close p ;;; ret r) m w1 with
  | Ok _ w' | Panicked _ w' => closed_in w' p
  | OutOfFuel => True
  end.
Proof.
  intros E Hm. specialize (Hm w1). unfold defer.
  destruct (m w1) as [a w2|msg w2|]; [..|done]; destruct (Hm p x E) as (x2 & E2 & _);
    pose proof (Close_closed_in p w2 x2 E2) as Hc; unfold wp in Hc; unfold bind;
    by destruct (rows_Close p w2).
Qed.

(** C31. However [QueryFunc] ends, by the last row, an error of a scan or of the
    callback, or a panic of the callback, the result set it made is closed. *)
Theorem QueryFunc_closes ctx sql arguments scans f w p w1 :
  (forall q, keeps rows_grow (f q)) ->
  Conn_Query fuel ctx sql arguments w = Ok (p, None) w1 ->
  match Conn_QueryFunc fuel ctx sql arguments scans f w with
  | Ok _ w' | Panicked _ w' => closed_in w' p
  | OutOfFuel => True
  end.
Proof.
  intros Hf E. unfold Conn_QueryFunc, bind at 1. rewrite E.
  apply Query_result_ok in E as (_ & x & Ex & _).
  eapply deferred_close_closes; [done|]. by apply grow_query_func_rows.
Qed.

(** However [connInfoFromRows] ends, the rows it is given are closed. *)
Theorem connInfoFromRows_closes Text_String p w x :
  rws w !! p = Some x ->
  match connInfoFromRows fuel Text_String p None w with
  | Ok _ w' | Panicked _ w' => closed_in w' p
  | OutOfFuel => True
  end.
Proof.
  intros Hx. eapply deferred_close_closes; [done|].
  unfold name_oid_rows, rows_Err, read_rows. keeps_tac.
Qed.

End ConnSpec.

(** ** Examples on the small server *)

#[local] Existing Instance Sample.types.
#[local] Existing Instance Toy.pgconn.
#[local] Existing Instance Toy.decoders.

Lemma Prepare_idempotent_witness :
  let sd := mkSD (str "ps") (str "select n") [] Toy.columns in
  let w' := final (Conn_Prepare Background (str "ps") (str "select n")) (Toy.start_world false) in
  Conn_Prepare Background (str "ps") (str "select n") (Toy.start_world false) = Ok (inr sd) w'
  /\ Conn_Prepare (UserContext 1) (str "ps") (str "select n") w' = Ok (inr sd) w'.
Proof.
  intros sd w'.
  assert (Conn_Prepare Background (str "ps") (str "select n") (Toy.start_world false) = Ok (inr sd) w') as E
    by runs.
  split; [exact E|].
  refine (proj2 (Prepare_idempotent Background (UserContext 1) (str "ps") (str "select n")
    (Toy.start_world false) sd w' _ E _)); [discriminate|evaluates].
Defined.

(** A query with an argument in the simple protocol. *)
Lemma arguments_are_interpolated_example :
  requests (trace (final (Conn_Exec 5 Background (str "select n where id = $1") [VString None (str "o'x")])
                     (Toy.start_world true)))
  = [RExec Background (str "select n where id = 'o''x'"); RNextResult (Mrr 0); RRrClose (Rr 0);
     RNextResult (Mrr 0); RMrrClose (Mrr 0)].
Proof. evaluates. Qed.

Lemma Query_result_witness :
  let w' := final (Conn_Query 5 Background (str "select n") []) (Toy.start_world false) in
  exists e stored w2 x2, row_Scan 0 [VPtr (str "int32") VNil] w' = Ok (e, stored) w2
       /\ rws w2 !! 0%nat = Some x2 /\ rows_closed x2 = true /\ ((None : option error) <> None -> e = None).
Proof.
  intros w'.
  refine (proj2 (proj2 (Query_result 5 Background (str "select n") [] (Toy.start_world false) 0%nat None w'
    [VPtr (str "int32") VNil] _))). runs.
Defined.

(** A callback that panics. *)
Lemma QueryFunc_closes_witness :
  match Conn_QueryFunc 5 Background (str "select n") [] [VPtr (str "int32") VNil]
    (fun _ => panic (str "callback")) (Toy.start_world false) with
  | Ok _ w' | Panicked _ w' => closed_in w' 0
  | OutOfFuel => True
  end.
Proof.
  eapply (QueryFunc_closes 5 Background (str "select n") [] [VPtr (str "int32") VNil]
    (fun _ => panic (str "callback")) (Toy.start_world false) 0).
  - intros q w. simpl. reflexivity.
  - vm_compute. reflexivity.
Defined.

(** A connection with a describing cache and a prepared statement. *)
Definition describing : world :=
  set_conn (with_preparedStatements {[ str "ps" := mkSD (str "ps") (str "select n") [] Toy.columns ]}
    (Toy.connection false (Some (Cache 1)))) (Toy.start_world false).

Lemma prepared_name_sent_as_text_witness :
  exists r w' formats, Conn_Query 5 Background (str "ps") [] describing = Ok r w'
    /\ requests (trace w') = requests (trace describing) ++ [RExecParams Background (str "ps") [] [] [] formats].
Proof.
  apply (prepared_name_sent_as_text 5 Background (str "ps") (mkSD (str "ps") (str "select n") [] Toy.columns)
    (Cache 1)); reflexivity.
Defined.
