(* ===== verification/Listening.v ===== *)
(** Notifications (conn.go): what the outside delivers while the connection is
    used is handed out by [WaitForNotification], in order and without a loss. *)

From S2P Require Import Prelude GoStd GoVal Effects Sanitize Values PgConn Logger World Toy Rows Config Conn.

Local Open Scope Z_scope.

Section Listening.
Context `{PgTypes} `{PgConn} `{!PgDecoders}.
Context (fuel : nat).

(** The notifications the outside delivers while it serves requests. *)
Fixpoint deliveries (l : list request) (n : net) : list Notification :=
  match l with
  | [] => []
  | r :: l' => (serve r n).1.2 ++ deliveries l' (serve r n).2
  end.

Lemma deliveries_app l1 l2 n : deliveries (l1 ++ l2) n = deliveries l1 n ++ deliveries l2 (served l1 n).
Proof. revert n. induction l1 as [|r l1 IH]; intros n; simpl; [done|]. by rewrite IH, app_assoc. Qed.

(** The requests [l] are all that happened, and [got] was handed out. *)
Definition heard (l : list request) (got : list Notification) (w w' : world) : Prop :=
  requests (trace w') = requests (trace w) ++ l /\ outside w' = served l (outside w)
  /\ bufferingNotifications (conn w') = bufferingNotifications (conn w)
  /\ (bufferingNotifications (conn w) = true ->
      got ++ notifications (conn w') = notifications (conn w) ++ deliveries l (outside w)).

Lemma heard_trans l1 got1 l2 got2 w w1 w2 :
  heard l1 got1 w w1 -> heard l2 got2 w1 w2 -> heard (l1 ++ l2) (got1 ++ got2) w w2.
Proof.
  intros (T1 & O1 & B1 & N1) (T2 & O2 & B2 & N2). rewrite O1 in O2, N2. split_and!.
  - by rewrite T2, T1, app_assoc.
  - by rewrite O2, served_app.
  - congruence.
  - intros Hb. specialize (N1 Hb). rewrite <- B1 in Hb. specialize (N2 Hb).
    rewrite <- app_assoc, N2, app_assoc, N1, <- app_assoc. by rewrite deliveries_app.
Qed.

(** Nothing is handed out. *)
Definition listens (w w' : world) : Prop := exists l, heard l [] w w'.

#[global] Instance listens_preorder : PreOrder listens.
Proof.
  split.
  - intros w. exists []. split_and!; simpl; rewrite ?app_nil_r; done.
  - intros a b c [l1 H1'] [l2 H2']. exists (l1 ++ l2). exact (heard_trans _ _ _ _ _ _ _ H1' H2').
Qed.

Lemma listens_same w w' :
  requests (trace w') = requests (trace w) -> outside w' = outside w ->
  bufferingNotifications (conn w') = bufferingNotifications (conn w) ->
  notifications (conn w') = notifications (conn w) -> listens w w'.
Proof. intros T O B N. exists []. split_and!; simpl; rewrite ?app_nil_r; done. Qed.

Lemma heard_call r w : heard [r] [] w (called r w).
Proof.
  split_and!; [apply requests_called|done|apply buffer_setup|]. intros Hb. simpl. unfold bufferNotifications.
  rewrite Hb, app_nil_r. done.
Qed.

Lemma listens_call r : keeps listens (call r).
Proof. intros w. exists [r]. apply heard_call. Qed.
Lemma listens_modify f :
  (forall c, notifications (f c) = notifications c /\ bufferingNotifications (f c) = bufferingNotifications c) ->
  keeps listens (modify_conn f).
Proof. intros Hf w. destruct (Hf (conn w)). by apply listens_same. Qed.
Lemma listens_log_if ctx lvl msg data : keeps listens (log_if ctx lvl msg data).
Proof.
  intros w. rewrite log_if_run. destruct (logged_frame ctx lvl msg data w) as (Ho & Hc & _).
  apply listens_same; rewrite ?Hc, ?requests_logged; done.
Qed.
Lemma listens_read_at {A} (heap : world -> list A) p : keeps listens (read_at heap p).
Proof. intros w. unfold read_at. destruct (heap w !! p); reflexivity. Qed.
Lemma listens_update_rows p f : keeps listens (update_rows p f).
Proof. intros w. unfold update_rows, bind, read_rows, read_at. destruct (rws w !! p); [by apply listens_same|reflexivity]. Qed.
Lemma listens_new_rows x : keeps listens (new_rows x).
Proof. intros w. by apply listens_same. Qed.
#[local] Hint Resolve listens_log_if listens_read_at listens_update_rows listens_new_rows : keeps.
#[local] Hint Extern 1 (keeps listens (call ?r)) => exact (listens_call r) : keeps.
#[local] Hint Extern 2 (keeps listens (modify_conn _)) =>
  (apply listens_modify; intros; by repeat case_match) : keeps.

(** *** What the connection does with statements *)

Lemma listens_rows_Close p : keeps listens (rows_Close p).
Proof. unfold rows_Close, rows_report, rows_close_reader, rows_close_multi, read_rows. keeps_tac. Qed.
#[local] Hint Resolve listens_rows_Close : keeps.
Lemma listens_rows_fatal p e : keeps listens (rows_fatal p e).
Proof. unfold rows_fatal, read_rows. keeps_tac. Qed.
Lemma listens_rows_Err p : keeps listens (rows_Err p).
Proof. unfold rows_Err, read_rows. keeps_tac. Qed.
Lemma listens_append oids args : keeps listens (eqb_append_params fuel oids args).
Proof. unfold eqb_append_params. keeps_tac. Qed.
Lemma listens_results m : keeps listens (exec_results fuel m).
Proof. unfold exec_results, observe. keeps_tac. Qed.
Lemma listens_Prepare ctx name sql : keeps listens (Conn_Prepare ctx name sql).
Proof. unfold Conn_Prepare, get_prepared. keeps_tac. Qed.
#[local] Hint Resolve listens_rows_fatal listens_rows_Err listens_append listens_results listens_Prepare : keeps.

Lemma listens_prefix sd l : keeps listens (execParamsAndPreparedPrefix fuel sd l).
Proof. unfold execParamsAndPreparedPrefix, eqb_append_results, reset_eqb. keeps_tac. Qed.
#[local] Hint Resolve listens_prefix : keeps.

Lemma listens_Exec ctx sql args : keeps listens (Conn_Exec fuel ctx sql args).
Proof.
  unfold Conn_Exec, conn_exec, get_prepared, execSimpleProtocol, sanitizeForSimpleQuery, execParams, execPrepared,
    reset_eqb, observe. keeps_tac.
Qed.

Lemma listens_query_extended ctx p sql o sd : keeps listens (query_extended fuel ctx p sql o sd).
Proof. unfold query_extended, query_send, query_formats, query_fails, eqb_append_results, reset_eqb, observe. keeps_tac. Qed.
Lemma listens_query_simple ctx p sql args : keeps listens (query_simple fuel ctx p sql args).
Proof. unfold query_simple, sanitizeForSimpleQuery, observe. keeps_tac. Qed.
#[local] Hint Resolve listens_query_extended listens_query_simple : keeps.
Lemma listens_Query ctx sql args : keeps listens (Conn_Query fuel ctx sql args).
Proof. unfold Conn_Query, getRows, get_prepared, query_describe, query_fails, reset_eqb. keeps_tac. Qed.

(** ** Waiting *)

Lemma pop_heard w :
  exists w', pop_notification w = Ok (head (notifications (conn w))) w'
    /\ heard [] (option_list (head (notifications (conn w)))) w w' /\ trace w' = trace w.
Proof.
  unfold pop_notification, bind, gets. destruct (notifications (conn w)) as [|n ns] eqn:En.
  - exists w. split; [done|]. split; [|done]. split_and!; simpl; rewrite ?app_nil_r, ?En; done.
  - eexists. split; [reflexivity|]. split; [|done]. split_and!; simpl; rewrite ?app_nil_r, ?En; done.
Qed.

(** One that is waiting is handed out at once; otherwise the outside is asked,
    and the first of those it delivers is handed out. *)
Lemma Wait_heard ctx w :
  exists n e w' l, WaitForNotification ctx w = Ok (n, e) w' /\ heard l (option_list n) w w'
    /\ (notifications (conn w) <> [] -> l = [] /\ e = None /\ n <> None /\ trace w' = trace w).
Proof.
  destruct (pop_heard w) as (w1 & E1 & H1' & T1). unfold WaitForNotification. rewrite (bind_eq _ _ _ _ _ E1).
  destruct (notifications (conn w)) as [|n ns] eqn:En; cbn [head option_list] in H1' |- *.
  - set (r := RWaitForNotification ctx). destruct (pop_heard (called r w1)) as (w2 & E2 & H2' & _).
    exists (head (notifications (conn (called r w1)))), (answer r w1), w2, [r].
    unfold bind at 1, call. rewrite (bind_eq _ _ _ _ _ E2). split; [done|]. split; [|done].
    exact (heard_trans _ _ _ _ _ _ _ H1' (heard_trans _ _ _ _ _ _ _ (heard_call r w1) H2')).
  - exists (Some n), None, w1, []. split; [done|]. split; [exact H1'|done].
Qed.

(** ** A listener *)

(** What an application that listens does in between. *)
Inductive listener_step :=
| LExec (sql : gostring) (args : list goval)
| LQuery (sql : gostring) (args : list goval)
| LWait.

Definition listener_do (ctx : context) (s : listener_step) : M world (list Notification) :=
  match s with
  | LExec sql args => let* _ := Conn_Exec fuel ctx sql args in ret []
  | LQuery sql args => let* '(p, _) := Conn_Query fuel ctx sql args in rows_Close p ;;; ret []
  | LWait => let* '(n, _) := WaitForNotification ctx in ret (option_list n)
  end.

Fixpoint listener_run (ctx : context) (steps : list listener_step) : M world (list Notification) :=
  match steps with
  | [] => ret []
  | s :: steps' =>
      let* got := listener_do ctx s in
      let* more := listener_run ctx steps' in
      ret (got ++ more)
  end.

Lemma listener_do_heard ctx s w got w' :
  listener_do ctx s w = Ok got w' -> exists l, heard l got w w'.
Proof.
  destruct s as [sql args|sql args|]; simpl; intros E.
  - inv_ok E. injection E as <- <-. exact (keeps_Ok _ _ _ _ _ (listens_Exec _ _ _) Hm).
  - inv_ok E. destruct a as [p e]. inv_ok E. injection E as <- <-.
    exact (transitivity (keeps_Ok _ _ _ _ _ (listens_Query _ _ _) Hm) (keeps_Ok _ _ _ _ _ (listens_rows_Close _) Hm0)).
  - destruct (Wait_heard ctx w) as (n & e & w1 & l & E1 & Hh & _). rewrite (bind_eq _ _ _ _ _ E1) in E.
    injection E as <- <-. by exists l.
Qed.

(** C37. Notifications are handed out in the order in which they arrive, and
    none is lost.  Whatever an application executes, queries and waits for, what
    [WaitForNotification] has handed out, followed by what still waits, is what
    waited before followed by everything the outside has delivered with any of
    the requests made in between.  Waiting returns, and the server is only asked
    when no notification is waiting. *)
Theorem WaitForNotification_fifo ctx w :
  bufferingNotifications (conn w) = true ->
  (forall steps got w', listener_run ctx steps w = Ok got w' ->
     exists l, requests (trace w') = requests (trace w) ++ l
       /\ got ++ notifications (conn w') = notifications (conn w) ++ deliveries l (outside w))
  /\ exists n e w', WaitForNotification ctx w = Ok (n, e) w'
     /\ (notifications (conn w) <> [] -> n = head (notifications (conn w)) /\ e = None /\ trace w' = trace w).
Proof.
  intros Hb. split.
  - intros steps got w' E. assert (exists l, heard l got w w') as (l & T & _ & _ & N).
    { clear Hb. revert w got E. induction steps as [|s steps IH]; intros w got E; simpl in E.
      - injection E as <- <-. apply (reflexivity (R := listens)).
      - inv_ok E. apply listener_do_heard in Hm as [l1 H1']. inv_ok E. injection E as <- <-.
        apply IH in Hm as [l2 H2']. exists (l1 ++ l2). by eapply heard_trans. }
    exists l. split; [done|by apply N].
  - destruct (Wait_heard ctx w) as (n & e & w' & l & E & (_ & _ & _ & N) & Hw). exists n, e, w'. split; [done|].
    intros Hn. destruct (Hw Hn) as (-> & -> & Hn1 & Ht). split; [|done]. specialize (N Hb). simpl in N.
    rewrite app_nil_r in N. rewrite <- N. by destruct n.
Qed.
End Listening.

(** ** On the small server *)

#[local] Existing Instance Sample.types.
#[local] Existing Instance Toy.pgconn.
#[local] Existing Instance Toy.decoders.

(** Two notifications arrive, while a third one is waiting. *)
Definition note (s : string) : Notification := mkNotification 1 (str "news") (str s).

Definition noisy : world :=
  mkWorld (with_notifications [note "first"] (Toy.connection false (Some (Cache 0))))
    (Toy.set_arriving [note "second"; note "third"] Toy.idle) [] [] [] [] [] [].

Lemma WaitForNotification_fifo_witness :
  let steps := [LExec (str "listen news") []; LWait; LWait; LQuery (str "select n") []; LWait; LWait] in
  let w' := final (listener_run 5 Background steps) noisy in
  listener_run 5 Background steps noisy = Ok [note "first"; note "second"; note "third"] w'
  /\ exists l, requests (trace w') = l
     /\ [note "first"; note "second"; note "third"] ++ notifications (conn w')
        = [note "first"] ++ deliveries l (outside noisy).
Proof.
  intros steps w'. assert (listener_run 5 Background steps noisy
    = Ok [note "first"; note "second"; note "third"] w') as E by runs.
  split; [exact E|]. exact (proj1 (WaitForNotification_fifo 5 Background noisy eq_refl) steps _ w' E).
Defined.
