(* ===== verification/Batch.v ===== *)
(** Batches (batch.go, and [SendBatch] of conn.go): queueing, sending in one
    round trip, and reading the results one by one. *)

From S2P Require Import Prelude GoStd GoVal Effects Sanitize Values PgConn Logger World Toy Rows Config Conn.

Local Open Scope Z_scope.

Section Batch.
Context `{PgTypes} `{PgConn} `{!PgDecoders}.
Context (fuel : nat).

(** ** The queue *)

Definition Queue (b : nat) (q : gostring) (args : list goval) : M world unit :=
  let* items := read_batch b in
  write_batch b (items ++ [mkBatchItem q args]).

Definition Len (b : nat) : M world Z :=
  let* items := read_batch b in ret (Z.of_nat (length items)).

(** ** SendBatch *)

Definition batch_failed (ctx : context) (e : error) : M world nat :=
  new_br (mkBatchResults ctx true None (Some e) None 0).

Definition batch_sent (ctx : context) (m : mrr) (b : nat) : M world nat :=
  new_br (mkBatchResults ctx true (Some m) None (Some b) 0).

(** The text of a batch in the simple protocol. *)
Fixpoint batch_text (first : bool) (items : list batchItem) (sb : gostring) : M world (error + gostring) :=
  match items with
  | [] => ret (inr sb)
  | bi :: items' =>
      let sb1 := if first then sb else sb ++ str ";" in
      let* r := sanitizeForSimpleQuery fuel (query bi) (arguments bi) in
      match r with
      | inl e => ret (inl e)
      | inr text => batch_text false items' (sb1 ++ text)
      end
  end.

(** [distinctUnpreparedQueries], in the order in which the keys are added. *)
Fixpoint distinct_unprepared (prepared : gmap gostring StatementDescription) (items : list batchItem)
    (keys : list gostring) : list gostring :=
  match items with
  | [] => keys
  | bi :: items' =>
      if bool_decide (is_Some (prepared !! query bi)) || bool_decide (query bi ∈ keys)
      then distinct_unprepared prepared items' keys
      else distinct_unprepared prepared items' (keys ++ [query bi])
  end.

(** The cache for the statements of the batch: the connection's when they fit,
    a temporary one otherwise. *)
Definition batch_cache (distinct : nat) : M world cache :=
  let* sc := gets (fun w => stmtcache (conn w)) in
  let fresh := call (RCacheBuild (NewCache ModeDescribe (Z.of_nat distinct))) in
  match sc with
  | Some c =>
      let* cap := observe (fun n => cache_Cap n c) in
      if Z.of_nat distinct <=? cap then ret c else fresh
  | None => fresh
  end.

Fixpoint prefill (ctx : context) (c : cache) (keys : list gostring) : M world (option error) :=
  match keys with
  | [] => ret None
  | sql :: keys' =>
      let* r := call (RCacheGet c ctx sql) in
      match r with
      | inl e => ret (Some e)
      | inr _ => prefill ctx c keys'
      end
  end.

Definition BUG : gostring := str "BUG: unexpected error from stmtCache".

Definition batch_describe (ctx : context) (c : option cache) (q : gostring)
  : M world StatementDescription :=
  let* known := get_prepared q in
  match known with
  | Some sd => ret sd
  | None =>
      match c with
      | None => panic nil_dereference
      | Some c =>
          let* r := call (RCacheGet c ctx q) in
          match r with
          | inl _ => panic BUG
          | inr sd => ret sd
          end
      end
  end.

Definition batch_entry_of (q : gostring) (sd : StatementDescription) (b : extendedQueryBuilder) : batch_entry :=
  if bool_decide (sd_Name sd = [])
  then BatchExecParams q (paramValues b) (ParamOIDs sd) (paramFormats b) (resultFormats b)
  else BatchExecPrepared (sd_Name sd) (paramValues b) (paramFormats b) (resultFormats b).

(** The arguments of a queued query are converted where they are. *)
Definition convert_item (b : nat) (i : nat) (bi : batchItem) : M world (list goval * option error) :=
  let '(converted, failure) := convertDriverValuers (arguments bi) in
  let* items := read_batch b in
  write_batch b (<[i := mkBatchItem (query bi) converted]> items) ;;;
  ret (converted, failure).

Definition mismatched : error := errors_New "mismatched param and argument count".

(** One query of the batch. *)
Definition batch_item (ctx : context) (c : option cache) (b i : nat) (bi : batchItem)
  : M world (error + batch_entry) :=
  reset_eqb ;;;
  let* sd := batch_describe ctx c (query bi) in
  if negb (length (ParamOIDs sd) =? length (arguments bi))%nat then ret (inl mismatched)
  else
    let* '(converted, failure) := convert_item b i bi in
    match failure with
    | Some e => ret (inl e)
    | None =>
        let* e := eqb_append_params fuel (ParamOIDs sd) converted in
        match e with
        | Some e => ret (inl e)
        | None =>
            eqb_append_results (Fields sd) ;;;
            let* eb := gets (fun w => eqb (conn w)) in
            ret (inr (batch_entry_of (query bi) sd eb))
        end
    end.

Fixpoint batch_items (ctx : context) (c : option cache) (b i : nat) (items : list batchItem)
    (acc : list batch_entry) : M world (error + list batch_entry) :=
  match items with
  | [] => ret (inr acc)
  | bi :: items' =>
      let* r := batch_item ctx c b i bi in
      match r with
      | inl e => ret (inl e)
      | inr entry => batch_items ctx c b (S i) items' (acc ++ [entry])
      end
  end.

(** The cache of the batch, filled with the descriptions of its distinct
    statements; no cache when all of them are prepared. *)
Definition batch_prepare (ctx : context) (items : list batchItem) : M world (error + option cache) :=
  let* prepared := gets (fun w => preparedStatements (conn w)) in
  let keys := distinct_unprepared prepared items [] in
  if (0 <? length keys)%nat then
    let* c := batch_cache (length keys) in
    let* order := call (RMapKeys keys) in
    let* e := prefill ctx c order in
    match e with
    | Some e => ret (inl e)
    | None => ret (inr (Some c))
    end
  else ret (inr None).

Definition SendBatch (ctx : context) (b : nat) : M world nat :=
  let* simpleProtocol := gets (fun w => PreferSimpleProtocol (config (conn w))) in
  let* items := read_batch b in
  if simpleProtocol then
    let* r := batch_text true items [] in
    match r with
    | inl e => batch_failed ctx e
    | inr text => let* m := call (RExec ctx text) in batch_sent ctx m b
    end
  else
    let* r := batch_prepare ctx items in
    match r with
    | inl e => batch_failed ctx e
    | inr c =>
        let* r := batch_items ctx c b 0 items [] in
        match r with
        | inl e => batch_failed ctx e
        | inr entries =>
            reset_eqb ;;;
            let* m := call (RExecBatch ctx entries) in
            batch_sent ctx m b
        end
    end.

(** ** batchResults *)

Definition br_with_ix (i : nat) (br : batchResults) : batchResults :=
  mkBatchResults (br_ctx br) (br_live br) (br_mrr br) (br_err br) (br_b br) i.

Definition nextQueryAndArgs (p : nat) : M world (option batchItem) :=
  let* br := read_br p in
  match br_b br with
  | None => ret None
  | Some b =>
      let* items := read_batch b in
      match items !! br_ix br with
      | Some bi => write_br p (br_with_ix (S (br_ix br)) br) ;;; ret (Some bi)
      | None => ret None
      end
  end.

Definition item_query (bi : option batchItem) : gostring := from_option query [] bi.
Definition item_args (bi : option batchItem) : list goval := from_option arguments [] bi.

Definition no_result : error := errors_New "no result".

Definition br_reader (br : batchResults) : M world mrr :=
  match br_mrr br with
  | None => panic nil_dereference
  | Some m => ret m
  end.

Definition br_log_err (br : batchResults) (msg : gostring) (bi : option batchItem) (q : gostring) (e : error)
  : M world unit :=
  log_if (br_ctx br) LogLevelError msg
    [(str "sql", LStr q); (str "args", LArgs (logQueryArgs (item_args bi))); (str "err", LErr e)].

Definition br_Exec (p : nat) : M world (CommandTag * option error) :=
  let* br := read_br p in
  match br_err br with
  | Some e => ret ([], Some e)
  | None =>
      let* bi := nextQueryAndArgs p in
      let* m := br_reader br in
      let* more := call (RNextResult m) in
      if more then
        let* r := observe (fun n => ResultReader n m) in
        let* '(tag, err) := call (RRrClose r) in
        match err with
        | Some e => br_log_err br (str "BatchResult.Exec") bi (item_query bi) e
        | None =>
            log_if (br_ctx br) LogLevelInfo (str "BatchResult.Exec")
              [(str "sql", LStr (item_query bi)); (str "args", LArgs (logQueryArgs (item_args bi)));
               (str "commandTag", LTag tag)]
        end ;;;
        ret (tag, err)
      else
        let* err := call (RMrrClose m) in
        let e := default no_result err in
        br_log_err br (str "BatchResult.Exec") bi (item_query bi) e ;;;
        ret ([], Some e)
  end.

Definition br_Query (p : nat) : M world (nat * option error) :=
  let* bi := nextQueryAndArgs p in
  let q := match bi with Some bi => query bi | None => str "batch query" end in
  let* br := read_br p in
  match br_err br with
  | Some e => let* r := new_rows (closedRows e) in ret (r, Some e)
  | None =>
      let* rows := getRows (br_ctx br) q (item_args bi) in
      let* m := br_reader br in
      let* more := call (RNextResult m) in
      if more then
        let* r := observe (fun n => ResultReader n m) in
        update_rows rows (rows_with_readers (Some r) None) ;;;
        ret (rows, None)
      else
        let* err := call (RMrrClose m) in
        let e := default no_result err in
        update_rows rows (fun x => rows_with_closed true (rows_with_err (Some e) x)) ;;;
        br_log_err br (str "BatchResult.Query") bi q e ;;;
        ret (rows, Some e)
  end.

Definition br_QueryRow (p : nat) : M world nat :=
  let* '(rows, _) := br_Query p in ret rows.

Definition br_QueryFunc (p : nat) (scans : list goval) (f : nat -> M world (option error))
  : M world (CommandTag * option error) :=
  let* '(rows, err) := br_Query p in
  match err with
  | Some _ => ret ([], err)
  | None => defer ([], None) (fun r => rows_Close rows ;;; ret r) (query_func_rows fuel rows scans f)
  end.

(** A round of the loop of [Close]. *)
Definition log_round (p : nat) (br : batchResults) (_ : unit) : M world (unit + unit) :=
  let* bi := nextQueryAndArgs p in
  match bi with
  | None => ret (inr tt)
  | Some bi =>
      log_if (br_ctx br) LogLevelInfo (str "BatchResult.Close")
        [(str "sql", LStr (query bi)); (str "args", LArgs (logQueryArgs (arguments bi)))] ;;;
      ret (inl tt)
  end.

(** The loop ends since each round takes one of the queries not read yet. *)
Definition br_log_rest (p : nat) : M world unit :=
  let* br := read_br p in
  let* items := match br_b br with Some b => read_batch b | None => ret [] end in
  loop (S (length items - br_ix br)) (log_round p br) tt.

Definition br_Close (p : nat) : M world (option error) :=
  let* br := read_br p in
  match br_err br with
  | Some e => ret (Some e)
  | None =>
      br_log_rest p ;;;
      let* m := br_reader br in
      call (RMrrClose m)
  end.

(** ** Frames *)

Lemma keeps_batch_text first items sb : keeps conn_frame (batch_text first items sb).
Proof. revert first sb. induction items as [|bi items IH]; intros; cbn [batch_text]; keeps_tac. Qed.

Lemma keeps_prefill ctx c keys : keeps conn_frame (prefill ctx c keys).
Proof. induction keys as [|k keys IH]; cbn [prefill]; keeps_tac. Qed.

Lemma keeps_batch_describe ctx c q : keeps conn_frame (batch_describe ctx c q).
Proof. unfold batch_describe, get_prepared. keeps_tac. Qed.

Lemma keeps_convert_item b i bi : keeps conn_frame (convert_item b i bi).
Proof. unfold convert_item, read_batch. keeps_tac. Qed.
#[local] Hint Resolve keeps_batch_text keeps_prefill keeps_batch_describe keeps_convert_item : keeps.

Lemma keeps_batch_item ctx c b i bi : keeps conn_frame (batch_item ctx c b i bi).
Proof. unfold batch_item. keeps_tac. Qed.
#[local] Hint Resolve keeps_batch_item : keeps.

Lemma keeps_batch_items ctx c b i items acc : keeps conn_frame (batch_items ctx c b i items acc).
Proof. revert i acc. induction items as [|bi items IH]; intros; cbn [batch_items]; keeps_tac. Qed.

Lemma keeps_batch_prepare ctx items : keeps conn_frame (batch_prepare ctx items).
Proof. unfold batch_prepare, batch_cache. keeps_tac. Qed.
#[local] Hint Resolve keeps_batch_items keeps_batch_prepare : keeps.

Lemma keeps_SendBatch ctx b : keeps conn_frame (SendBatch ctx b).
Proof. unfold SendBatch, batch_failed, batch_sent, read_batch. keeps_tac. Qed.

Lemma keeps_nextQueryAndArgs p : keeps conn_frame (nextQueryAndArgs p).
Proof. unfold nextQueryAndArgs, read_br, read_batch. keeps_tac. Qed.
#[local] Hint Resolve keeps_nextQueryAndArgs : keeps.

Lemma keeps_br_Exec p : keeps conn_frame (br_Exec p).
Proof. unfold br_Exec, br_log_err, br_reader, read_br. keeps_tac. Qed.

Lemma keeps_br_Query p : keeps conn_frame (br_Query p).
Proof. unfold br_Query, br_log_err, br_reader, read_br. keeps_tac. Qed.

Lemma keeps_br_Close p : keeps conn_frame (br_Close p).
Proof. unfold br_Close, br_log_rest, log_round, br_reader, read_br, read_batch. keeps_tac. Qed.

(** ** What is sent *)

(** Requests made before the batch is sent: descriptions and cache lookups. *)
Definition preparing (r : request) : Prop :=
  match r with
  | RCacheGet _ _ _ | RCacheBuild _ | RMapKeys _ => True
  | _ => False
  end.

(** [sd] describes the query: the application has prepared it under that name,
    or it is what the cache answered, when it was asked for the query among the
    requests [pre] made from [w]. *)
Definition described_by (ctx : context) (w : world) (pre : list request) (q : gostring)
    (sd : StatementDescription) : Prop :=
  match preparedStatements (conn w) !! q with
  | Some known => sd = known
  | None => exists before c after, pre = before ++ RCacheGet c ctx q :: after
      /\ (serve (RCacheGet c ctx q) (served before (outside w))).1.1 = inr sd
  end.

(** The entry of the batch for a queued query: the statement that describes it,
    by its name or else by the text of the query, with the encoded arguments. *)
Definition entry_for (ctx : context) (w : world) (pre : list request) (bi : batchItem) (e : batch_entry) : Prop :=
  exists sd b, described_by ctx w pre (query bi) sd /\ encodes fuel (ParamOIDs sd) (arguments bi) b
    /\ e = match sd_Name sd with
            | [] => BatchExecParams (query bi) (paramValues b) (ParamOIDs sd) (paramFormats b) (result_formats sd)
            | name => BatchExecPrepared name (paramValues b) (paramFormats b) (result_formats sd)
            end.

Lemma described_after ctx w pre l q sd : described_by ctx w pre q sd -> described_by ctx w (pre ++ l) q sd.
Proof.
  unfold described_by. destruct (_ !! _); [done|]. intros (before & c & after & -> & E).
  exists before, c, (after ++ l). by rewrite <- app_assoc.
Qed.

Lemma described_before ctx w s pre l q sd :
  same_prepared w s -> outside s = served l (outside w) ->
  described_by ctx s pre q sd -> described_by ctx w (l ++ pre) q sd.
Proof.
  unfold described_by, same_prepared. intros -> ->. destruct (_ !! _); [done|].
  intros (before & c & after & -> & E). exists (l ++ before), c, after. rewrite <- app_assoc.
  split; [done|]. by rewrite served_app.
Qed.

Definition same_eqb (w w' : world) : Prop := eqb (conn w') = eqb (conn w).

#[local] Instance same_eqb_preorder : PreOrder same_eqb.
Proof. split; [done|]. unfold same_eqb. intros a b c. congruence. Qed.

Lemma same_eqb_call r : keeps same_eqb (call r).
Proof. intros w. simpl. unfold same_eqb. apply buffer_setup. Qed.
#[local] Hint Extern 1 (keeps same_eqb (call ?r)) => exact (same_eqb_call r) : keeps.

Lemma same_eqb_describe ctx c q : keeps same_eqb (batch_describe ctx c q).
Proof. unfold batch_describe, get_prepared. keeps_tac. Qed.

Lemma same_eqb_convert b i bi : keeps same_eqb (convert_item b i bi).
Proof.
  unfold convert_item. destruct (convertDriverValuers (arguments bi)) as [l e]. intros w.
  unfold bind, read_batch, read_at. by destruct (batches w !! b).
Qed.

Context {Laws : PgTypesLaws}.

(** The state of the outside after the requests [l], with nothing prepared. *)
Definition asks (l : list request) (w w' : world) : Prop :=
  requests (trace w') = requests (trace w) ++ l /\ Forall preparing l /\ outside w' = served l (outside w)
  /\ same_prepared w w'.

Lemma asks_trans l1 l2 w w1 w2 : asks l1 w w1 -> asks l2 w1 w2 -> asks (l1 ++ l2) w w2.
Proof.
  intros (E1 & F1 & O1 & P1) (E2 & F2 & O2 & P2). split_and!; [|by apply Forall_app| |by etrans].
  - by rewrite E2, E1, app_assoc.
  - by rewrite O2, O1, served_app.
Qed.

Lemma asks_emits w w' : emits preparing w w' -> same_prepared w w' -> exists l, asks l w w'.
Proof. intros (l & E & F & O) P. by exists l. Qed.

Lemma asks_nothing w w' : emits (fun _ => False) w w' -> same_prepared w w' -> asks [] w w'.
Proof. intros [E O]%emits_nothing P. by split_and!; [rewrite app_nil_r|..]. Qed.

Lemma batch_describe_Ok ctx c q w sd w' :
  batch_describe ctx c q w = Ok sd w' -> exists l, asks l w w' /\ described_by ctx w l q sd.
Proof.
  unfold batch_describe, get_prepared. intros E. inv_ok E. injection Hm as <- <-. unfold described_by.
  destruct (preparedStatements (conn w) !! q) as [known|].
  - injection E as <- <-. exists []. split; [|done]. apply asks_nothing; reflexivity.
  - destruct c as [c|]; [|done]. inv_ok E. injection Hm as <- <-.
    destruct (answer (RCacheGet c ctx q) w) as [e|sd'] eqn:Ea; [done|]. injection E as <- <-.
    exists [RCacheGet c ctx q]. split; [|by exists [], c, []].
    split_and!; [apply requests_called|by constructor|done|apply (prepared_call (RCacheGet c ctx q) w)].
Qed.

Lemma convert_item_Ok b i bi w r w' :
  convert_item b i bi w = Ok r w' ->
  r = convertDriverValuers (arguments bi) /\ asks [] w w' /\ eqb (conn w') = eqb (conn w).
Proof.
  intros E. pose proof (keeps_Ok _ _ _ _ _ (same_eqb_convert _ _ _) E) as He. unfold convert_item in E.
  destruct (convertDriverValuers (arguments bi)) as [l f]. inv_ok E. apply read_at_Ok in Hm as [_ ->].
  inv_ok E. injection Hm as _ <-. injection E as <- <-. split; [done|]. split; [|done].
  apply asks_nothing; [by apply emits_same|done].
Qed.

Lemma append_params_Ok oids l w e w' :
  eqb_append_params fuel oids l w = Ok e w' ->
  exists b, append_params fuel oids l (eqb (conn w)) = Done (e, b) /\ eqb (conn w') = b /\ asks [] w w'.
Proof.
  unfold eqb_append_params. intros E. inv_ok E. injection Hm as <- <-. inv_ok E. unfold lift in Hm.
  destruct (append_params fuel oids l (eqb (conn w))) as [[e1 b]|msg|] eqn:Ea; try done.
  injection Hm as <- <-. inv_ok E. injection Hm as _ <-. injection E as <- <-.
  exists b. split; [done|]. split; [done|]. apply asks_nothing; [by apply emits_same|done].
Qed.

Lemma batch_item_entry ctx c b i bi w e w' :
  batch_item ctx c b i bi w = Ok (inr e) w' -> exists l, asks l w w' /\ entry_for ctx w l bi e.
Proof.
  unfold batch_item. intros E. inv_ok E. injection Hm as _ <-. clear a. set (w0 := set_conn _ w) in E.
  assert (asks [] w w0) as A0 by (apply asks_nothing; [by apply emits_same|done]).
  inv_ok E. pose proof (keeps_Ok _ _ _ _ _ (same_eqb_describe _ _ _) Hm) as Hz. unfold same_eqb in Hz.
  apply batch_describe_Ok in Hm as (l & A1 & Hd). rename a into sd.
  destruct (Nat.eqb_spec (length (ParamOIDs sd)) (length (arguments bi))) as [Hl|]; [|done]. cbn [negb] in E.
  inv_ok E. apply convert_item_Ok in Hm as (Hc & A2 & Hz2). destruct a as [conv [e0|]]; [done|].
  inv_ok E. apply append_params_Ok in Hm as (b' & Ha & Hz3 & A3). destruct a as [e0|]; [done|].
  inv_ok E. injection Hm as _ <-. inv_ok E. injection Hm as <- <-. injection E as <- <-.
  exists l. split.
  - pose proof (asks_trans _ _ _ _ _ A0 (asks_trans _ _ _ _ _ A1 (asks_trans _ _ _ _ _ A2 A3))) as A.
    rewrite !app_nil_r in A. exact A.
  - rewrite Hz2, Hz in Ha. exists sd, b'. split; [exact Hd|]. split; [split; [done|]; by exists conv|].
    cbn [conn set_conn with_eqb eqb]. rewrite append_result_formats_ok, Hz3.
    apply append_params_ok in Ha as (_ & _ & _ & Hrf & _). simpl in Hrf. rewrite Hrf.
    unfold batch_entry_of, result_formats. rewrite <- list_fmap_compose. cbn [paramValues paramFormats resultFormats app].
    by destruct (sd_Name sd).
Qed.

Lemma batch_items_entries ctx c b i items acc w entries w' :
  batch_items ctx c b i items acc w = Ok (inr entries) w' ->
  exists l new, asks l w w' /\ entries = acc ++ new /\ Forall2 (entry_for ctx w l) items new.
Proof.
  revert i acc w. induction items as [|bi items IH]; intros i acc w E; cbn [batch_items] in E.
  - injection E as <- <-. exists [], []. rewrite app_nil_r. split; [apply asks_nothing; reflexivity|done].
  - inv_ok E. destruct a as [e|entry]; [done|]. apply batch_item_entry in Hm as (l1 & A1 & sd & eb & Hd & He).
    apply IH in E as (l2 & new & A2 & -> & HF). exists (l1 ++ l2), (entry :: new). rewrite <- app_assoc.
    split; [by eapply asks_trans|]. split; [done|]. constructor.
    + exists sd, eb. split; [by apply described_after|done].
    + eapply Forall2_impl; [exact HF|]. intros bi' e' (sd' & eb' & Hd' & He').
      exists sd', eb'. split; [|done]. destruct A1 as (_ & _ & O1 & P1). by eapply described_before.
Qed.

Lemma emits_prefill ctx c keys : keeps (emits preparing) (prefill ctx c keys).
Proof. induction keys as [|k keys IH]; cbn [prefill]; keeps_tac. Qed.
#[local] Hint Resolve emits_prefill : keeps.

Lemma emits_batch_prepare ctx items : keeps (emits preparing) (batch_prepare ctx items).
Proof. unfold batch_prepare, batch_cache, observe. keeps_tac. Qed.

Lemma prepared_prefill ctx c keys : keeps same_prepared (prefill ctx c keys).
Proof. induction keys as [|k keys IH]; cbn [prefill]; keeps_tac. Qed.
#[local] Hint Resolve prepared_prefill : keeps.

Lemma prepared_batch_prepare ctx items : keeps same_prepared (batch_prepare ctx items).
Proof. unfold batch_prepare, batch_cache, observe. keeps_tac. Qed.

Lemma emits_write_batch P p l : keeps (emits P) (write_batch p l).
Proof. intros w. by apply emits_same. Qed.
#[local] Hint Resolve emits_write_batch : keeps.

Lemma emits_batch_items ctx c b i items acc :
  keeps (emits preparing) (batch_items ctx c b i items acc).
Proof.
  revert i acc. induction items as [|bi items IH]; intros i acc; cbn [batch_items]; [keeps_tac|].
  apply (keeps_bind _); [|keeps_tac].
  unfold batch_item, batch_describe, convert_item, get_prepared, read_batch, eqb_append_params,
    eqb_append_results, reset_eqb. keeps_tac.
Qed.

(** A batch that is sent: the last request is the one with its entries, and the
    results read from its reader; no request is for anything but descriptions
    before. *)
Lemma SendBatch_outcome ctx b w p w' items :
  PreferSimpleProtocol (config (conn w)) = false -> batches w !! b = Some items ->
  SendBatch ctx b w = Ok p w' ->
  exists w1 br, w' = set_brs (brs w1 ++ [br]) w1 /\ p = length (brs w1) /\
  match br_err br with
  | Some _ => emits preparing w w1
  | None => exists w0 pre entries, asks pre w w0 /\ Forall2 (entry_for ctx w pre) items entries
      /\ w1 = called (RExecBatch ctx entries) w0
      /\ br = mkBatchResults ctx true (Some (answer (RExecBatch ctx entries) w0)) None (Some b) 0
  end.
Proof.
  intros Hs Hb E. unfold SendBatch in E. inv_ok E. injection Hm as <- <-. rewrite Hs in E.
  inv_ok E. apply read_at_Ok in Hm as [Ha ->]. rewrite Hb in Ha. injection Ha as <-.
  inv_ok E. pose proof (keeps_Ok _ _ _ _ _ (emits_batch_prepare _ _) Hm) as He.
  pose proof (keeps_Ok _ _ _ _ _ (prepared_batch_prepare _ _) Hm) as Hp.
  destruct a as [e|c]; [injection E as <- <-; by eexists _, _|].
  inv_ok E. destruct a as [e|entries].
  { injection E as <- <-. eexists _, _. split; [reflexivity|]. split; [done|]. simpl. etrans; [exact He|].
    by apply (keeps_Ok _ _ _ _ _ (emits_batch_items _ _ _ _ _ _) Hm0). }
  apply asks_emits in He as [l1 A1]; [|done].
  apply batch_items_entries in Hm0 as (l2 & new & A2 & -> & HF).
  inv_ok E. injection Hm0 as _ <-. inv_ok E. injection Hm0 as <- <-. injection E as <- <-.
  set (w0 := set_conn _ s0). exists (called (RExecBatch ctx new) w0). eexists. split; [reflexivity|].
  split; [done|]. simpl. exists w0, (l1 ++ l2), new. split; [by eapply asks_trans|]. split; [|done].
  eapply Forall2_impl; [exact HF|]. intros bi e (sd & eb & Hd & He).
  exists sd, eb. split; [|done]. destruct A1 as (_ & _ & O1 & P1). by eapply described_before.
Qed.

(** C13. In the extended protocol a batch that is sent goes out in one request,
    with one entry for each queued query, in their order, and before it the
    server is only asked for descriptions; nothing is sent otherwise.  The entry
    of a query names the statement that describes the query, which is the one
    the application prepared under that name or the one the cache answered for
    the text, or it has the text; it has the values and the formats of the
    encoded arguments. *)
Theorem SendBatch_entries ctx b w p w' items :
  PreferSimpleProtocol (config (conn w)) = false -> batches w !! b = Some items ->
  SendBatch ctx b w = Ok p w' ->
  exists br, brs w' !! p = Some br /\
  match br_err br with
  | Some _ => emits preparing w w'
  | None => exists pre entries,
      requests (trace w') = requests (trace w) ++ pre ++ [RExecBatch ctx entries]
      /\ Forall preparing pre /\ Forall2 (entry_for ctx w pre) items entries
  end.
Proof.
  intros Hs Hb E. destruct (SendBatch_outcome _ _ _ _ _ _ Hs Hb E) as (w1 & br & -> & -> & Hbr).
  exists br. split; [by apply list_lookup_middle|]. destruct (br_err br); [done|].
  destruct Hbr as (w0 & pre & entries & (Et & Hpre & _) & HF & -> & ->). exists pre, entries. split; [|done].
  simpl. pose proof (requests_called (RExecBatch ctx entries) w0) as Er. simpl in Er. rewrite Er, Et.
  by rewrite app_assoc.
Qed.

(** ** Reading the results *)

(** The entries that [Close] writes for the queries nobody read. *)
Definition unread_entries (w : world) (br : batchResults) (items : list batchItem) : list event :=
  if conn_shouldLog (conn w) LogLevelInfo
  then map (fun bi => Logged (br_ctx br) LogLevelInfo (str "BatchResult.Close")
         ([(str "sql", LStr (query bi)); (str "args", LArgs (logQueryArgs (arguments bi)))]
          ++ (if PID (outside w) =? 0 then [] else [(str "pid", LInt (PID (outside w)))]))) items
  else [].

Lemma logged_trace ctx lvl msg data w :
  trace (logged ctx lvl msg data w) = trace w
    ++ if conn_shouldLog (conn w) lvl
       then [Logged ctx lvl msg (data ++ if PID (outside w) =? 0 then [] else [(str "pid", LInt (PID (outside w)))])]
       else [].
Proof.
  unfold logged. destruct (conn_shouldLog (conn w) lvl); [|by rewrite app_nil_r].
  simpl. destruct (PID (outside w) =? 0); [by rewrite app_nil_r|done].
Qed.

Lemma next_Some p b br items bi w :
  brs w !! p = Some br -> br_b br = Some b -> batches w !! b = Some items -> items !! br_ix br = Some bi ->
  nextQueryAndArgs p w = Ok (Some bi) (set_brs (<[p := br_with_ix (S (br_ix br)) br]> (brs w)) w).
Proof.
  intros E Hb Hi Hn. unfold nextQueryAndArgs, bind at 1, read_br. rewrite (read_at_run _ _ _ _ E), Hb.
  unfold bind at 1, read_batch. by rewrite (read_at_run _ _ _ _ Hi), Hn.
Qed.

Lemma next_None p b br items w :
  brs w !! p = Some br -> br_b br = Some b -> batches w !! b = Some items -> items !! br_ix br = None ->
  nextQueryAndArgs p w = Ok None w.
Proof.
  intros E Hb Hi Hn. unfold nextQueryAndArgs, bind at 1, read_br. rewrite (read_at_run _ _ _ _ E), Hb.
  unfold bind at 1, read_batch. by rewrite (read_at_run _ _ _ _ Hi), Hn.
Qed.

Lemma log_round_more p b br br0 items bi w :
  brs w !! p = Some br -> br_b br = Some b -> batches w !! b = Some items -> items !! br_ix br = Some bi ->
  log_round p br0 tt w
  = Ok (inl tt) (logged (br_ctx br0) LogLevelInfo (str "BatchResult.Close")
      [(str "sql", LStr (query bi)); (str "args", LArgs (logQueryArgs (arguments bi)))]
      (set_brs (<[p := br_with_ix (S (br_ix br)) br]> (brs w)) w)).
Proof.
  intros E Hb Hi Hl. unfold log_round, bind. rewrite (next_Some _ _ _ _ _ _ E Hb Hi Hl).
  by rewrite log_if_run.
Qed.

Lemma log_round_end p b br br0 items w :
  brs w !! p = Some br -> br_b br = Some b -> batches w !! b = Some items -> items !! br_ix br = None ->
  log_round p br0 tt w = Ok (inr tt) w.
Proof. intros E Hb Hi Hl. unfold log_round, bind. by rewrite (next_None _ _ _ _ _ E Hb Hi Hl). Qed.

Lemma unread_entries_nil w br : unread_entries w br [] = [].
Proof. unfold unread_entries. by destruct (conn_shouldLog _ _). Qed.

Lemma log_loop_drains n p b br br0 items w :
  brs w !! p = Some br -> br_b br = Some b -> batches w !! b = Some items ->
  (length items - br_ix br <= n)%nat ->
  exists w', loop (S n) (log_round p br0) tt w = Ok tt w'
    /\ trace w' = trace w ++ unread_entries w br0 (drop (br_ix br) items)
    /\ outside w' = outside w /\ batches w' = batches w
    /\ exists k, brs w' !! p = Some (br_with_ix k br).
Proof.
  revert br w. induction n as [|n IH]; intros br w E Hb Hi Hn;
    (destruct (items !! br_ix br) as [bi|] eqn:Hl;
     [pose proof (lookup_lt_Some _ _ _ Hl)|
      exists w; cbn [loop]; unfold bind; rewrite (log_round_end _ _ _ _ _ _ E Hb Hi Hl);
      apply lookup_ge_None in Hl; rewrite drop_ge by done; rewrite unread_entries_nil, app_nil_r;
      split_and!; [done..|]; exists (br_ix br); rewrite E; by destruct br]); [lia|].
  set (w1 := set_brs (<[p := br_with_ix (S (br_ix br)) br]> (brs w)) w).
  set (w2 := logged (br_ctx br0) LogLevelInfo (str "BatchResult.Close")
    [(str "sql", LStr (query bi)); (str "args", LArgs (logQueryArgs (arguments bi)))] w1).
  destruct (logged_frame (br_ctx br0) LogLevelInfo (str "BatchResult.Close")
    [(str "sql", LStr (query bi)); (str "args", LArgs (logQueryArgs (arguments bi)))] w1)
    as (Ho & Hcn & _ & _ & _ & Hbt & Hbr). fold w2 in Ho, Hcn, Hbt, Hbr.
  destruct (IH (br_with_ix (S (br_ix br)) br) w2) as (w' & El & Ht & Ho' & Hbt' & k & Hk);
    [by rewrite Hbr; apply list_lookup_insert_eq; eapply lookup_lt_Some|done|by rewrite Hbt|simpl; lia|].
  exists w'. split.
  { change (loop (S (S n)) (log_round p br0) tt) with
      (let* r := log_round p br0 tt in match r with inl a => loop (S n) (log_round p br0) a | inr b => ret b end).
    by rewrite (bind_eq _ _ _ _ _ (log_round_more _ _ _ _ _ _ _ E Hb Hi Hl)). }
  split_and!; [|by rewrite Ho'|by rewrite Hbt'|by exists k].
  rewrite Ht. unfold w2 at 1. rewrite logged_trace, (drop_S _ _ _ Hl). unfold unread_entries.
  rewrite Ho, Hcn. simpl. destruct (conn_shouldLog (conn w) LogLevelInfo); [|by rewrite app_nil_r].
  by rewrite <- app_assoc.
Qed.

(** C33. Closing the results of a batch returns: the queries that were not read
    are logged, each once and in order, and the reader is closed. *)
Theorem br_Close_drains p b m br items w :
  brs w !! p = Some br -> br_err br = None -> br_b br = Some b -> br_mrr br = Some m ->
  batches w !! b = Some items ->
  exists e w', br_Close p w = Ok e w'
    /\ trace w' = trace w ++ unread_entries w br (drop (br_ix br) items) ++ [Sent (RMrrClose m)].
Proof.
  intros E He Hb Hm Hi. unfold br_Close, bind at 1, read_br. rewrite (read_at_run _ _ _ _ E), He.
  unfold bind at 1, br_log_rest, bind at 1, read_br. rewrite (read_at_run _ _ _ _ E), Hb.
  unfold bind at 1, read_batch. rewrite (read_at_run _ _ _ _ Hi).
  destruct (log_loop_drains (length items - br_ix br) p b br br items w E Hb Hi)
    as (w1 & El & Ht & _); [lia|]. rewrite El.
  unfold br_reader. rewrite Hm. unfold bind, ret, call. eexists _, _. split; [done|].
  simpl. by rewrite Ht, <- app_assoc.
Qed.

End Batch.

#[export] Hint Resolve keeps_SendBatch keeps_br_Exec keeps_br_Query keeps_br_Close : keeps.

(** ** Examples on the small server *)

#[local] Existing Instance Sample.types.
#[local] Existing Instance Sample.laws.
#[local] Existing Instance Toy.pgconn.
#[local] Existing Instance Toy.decoders.

Definition queued : list batchItem :=
  [mkBatchItem (str "select n") []; mkBatchItem (str "select $1") [VInt KInt None 7]].

Definition with_batch : world := set_batches [queued] (Toy.start_world false).

Lemma SendBatch_entries_witness :
  let w' := final (SendBatch 5 Background 0) with_batch in
  exists br, brs w' !! 0%nat = Some br /\
     match br_err br with
     | Some _ => emits preparing with_batch w'
     | None => exists pre entries,
         requests (trace w') = requests (trace with_batch) ++ pre ++ [RExecBatch Background entries]
         /\ Forall preparing pre /\ Forall2 (entry_for 5 Background with_batch pre) queued entries
     end.
Proof.
  intros w'.
  apply (SendBatch_entries 5 Background 0 with_batch); [reflexivity|reflexivity|runs].
Defined.

Definition sent_batch : world :=
  match SendBatch 5 Background 0 with_batch with Ok _ w => w | _ => with_batch end.

Lemma br_Close_drains_witness :
  exists e w', br_Close 0 sent_batch = Ok e w'
    /\ trace w' = trace sent_batch
         ++ unread_entries sent_batch (mkBatchResults Background true (Some (Mrr 0)) None (Some 0%nat) 0)
              (drop 0 queued) ++ [Sent (RMrrClose (Mrr 0))].
Proof.
  apply (br_Close_drains 0 0 (Mrr 0)
    (mkBatchResults Background true (Some (Mrr 0)) None (Some 0%nat) 0) queued sent_batch);
    vm_compute; reflexivity.
Defined.
