(* ===== verification/BatchRead.v ===== *)
(** Reading the results of a batch (batch.go, and [connRows] of rows.go) against
    what a server sends.

    The class [PgResults] is what pgconn documents of its readers: the results
    of a request come one after the other, the rows of each one in order, and
    closing the reader tells the error of the whole.  On such a connection the
    results of a batch, read by [Exec] or [Query] in any mixture, are those of
    the queued queries, each at its turn. *)

From S2P Require Import Prelude GoStd GoVal Effects Values PgConn Logger World Toy Rows Config Conn.
From S2P Require Import RowsRead Batch.

Local Open Scope Z_scope.

(** ** The results of several statements *)

(** [before_result n m rs e]: the reader [m] will give the results [rs], and
    the error [e] when it is closed.  [in_result n m r q rs e]: it has given the
    reader [r] of the result [q] before. *)
Class PgResults `{PgConn} := {
  before_result : net -> mrr -> list qresult -> option error -> Prop;
  in_result : net -> mrr -> rr -> qresult -> list qresult -> option error -> Prop;
  next_result n m q rs e : before_result n m (q :: rs) e ->
    exists n', replies (RNextResult m) n true n' /\ in_result n' m (ResultReader n' m) q rs e;
  no_next_result n m e : before_result n m [] e ->
    exists n', replies (RNextResult m) n false n' /\ before_result n' m [] e;
  results_next_row n m r x rows t err rs e : in_result n m r (mkResult (x :: rows) t err) rs e ->
    exists n', replies (RNextRow r) n true n' /\ rr_Values n' r = x /\ in_result n' m r (mkResult rows t err) rs e;
  results_no_next_row n m r t err rs e : in_result n m r (mkResult [] t err) rs e ->
    exists n', replies (RNextRow r) n false n' /\ in_result n' m r (mkResult [] t err) rs e;
  close_result n m r q rs e : in_result n m r q rs e ->
    exists n', replies (RRrClose r) n (res_tag q, res_err q) n' /\ before_result n' m rs e;
  close_results n m rs e : before_result n m rs e ->
    exists n', replies (RMrrClose m) n e n' /\ before_result n' m [] e;
  results_errored c sql err n m rs e : before_result n m rs e ->
    before_result (serve (RStatementErrored c sql err) n).2 m rs e;
  (** the results of a batch, and the error of the statement that ended it *)
  batch_runs : net -> list batch_entry -> list qresult * option error;
  batch_started ctx entries n :
    exists m n', replies (RExecBatch ctx entries) n m n'
      /\ before_result n' m (batch_runs n entries).1 (batch_runs n entries).2
}.

(** ** Reading *)

(** How the application reads one result, and what it gets. *)
Inductive reading := ReadExec | ReadQuery.
Inductive got :=
| GotTag (tag : CommandTag) (err : option error)
| GotRows (rows : list row) (tag : CommandTag) (err : option error).

Section Reading.
Context `{PgTypes} `{PgConn} `{!PgDecoders}.
Context (fuel : nat).

Definition read_one (p : nat) (how : reading) : M world got :=
  match how with
  | ReadExec => let* '(tag, err) := br_Exec p in ret (GotTag tag err)
  | ReadQuery =>
      let* '(r, err) := br_Query p in
      match err with
      | Some e => ret (GotRows [] [] (Some e))
      | None =>
          let* '(rows, tag, err) := read_all fuel r in
          ret (GotRows rows tag err)
      end
  end.

Fixpoint read_each (p : nat) (hows : list reading) : M world (list got) :=
  match hows with
  | [] => ret []
  | how :: hows' => let* g := read_one p how in let* l := read_each p hows' in ret (g :: l)
  end.

Definition read_batch_results (p : nat) (hows : list reading) : M world (list got * option error) :=
  let* l := read_each p hows in let* e := br_Close p in ret (l, e).
End Reading.

(** What is read: the results at their turns; after the last one, the error of
    the batch. *)
Definition got_result (how : reading) (q : qresult) : got :=
  match how with
  | ReadExec => GotTag (res_tag q) (res_err q)
  | ReadQuery => GotRows (res_rows q) (res_tag q) (res_err q)
  end.

Definition got_none (how : reading) (e : option error) : got :=
  match how with
  | ReadExec => GotTag [] (Some (default no_result e))
  | ReadQuery => GotRows [] [] (Some (default no_result e))
  end.

Fixpoint in_turn (rs : list qresult) (e : option error) (hows : list reading) : list got :=
  match hows, rs with
  | [], _ => []
  | how :: hows', q :: rs' => got_result how q :: in_turn rs' e hows'
  | how :: hows', [] => got_none how e :: in_turn [] e hows'
  end.

Section Refinement.
Context `{PgTypes} `{PgConn} `{!PgDecoders} `{!PgResults}.
Context (fuel : nat).

(** The results of the batch [b], read from [m]. *)
Definition open_batch (p : nat) (m : mrr) (w : world) : Prop :=
  exists br b items, brs w !! p = Some br /\ br_mrr br = Some m /\ br_err br = None /\ br_b br = Some b
    /\ batches w !! b = Some items.

(** The reader of the batch, with the results it still has. *)
Definition at_results (p : nat) (m : mrr) (rs : list qresult) (e : option error) (w : world) : Prop :=
  open_batch p m w /\ before_result (outside w) m rs e.

Lemma open_batch_frame p m w w' : brs w' = brs w -> batches w' = batches w -> open_batch p m w -> open_batch p m w'.
Proof. intros E1 E2 (br & b & items & ?). exists br, b, items. by rewrite E1, E2. Qed.

Lemma open_batch_logged p m w ctx lvl msg data : open_batch p m w -> open_batch p m (logged ctx lvl msg data w).
Proof. apply open_batch_frame; apply logged_frame. Qed.

Lemma at_results_logged p m rs e w ctx lvl msg data :
  at_results p m rs e w -> at_results p m rs e (logged ctx lvl msg data w).
Proof.
  intros [Ho Hb]. split; [by apply open_batch_logged|]. by rewrite (proj1 (logged_frame _ _ _ _ _)).
Qed.

Lemma wp_next p m w Q :
  open_batch p m w ->
  (forall bi w', open_batch p m w' -> outside w' = outside w -> rws w' = rws w -> Q bi w') ->
  wp (nextQueryAndArgs p) w Q.
Proof.
  intros (br & b & items & E & Hm & He & Hb & Hi) HQ. destruct (items !! br_ix br) as [bi|] eqn:Hn.
  - eapply wp_eq; [by eapply next_Some|]. apply HQ; [|done..].
    exists (br_with_ix (S (br_ix br)) br), b, items. split; [|done].
    apply list_lookup_insert_eq. by eapply lookup_lt_Some.
  - eapply wp_eq; [by eapply next_None|]. apply HQ; [|done..]. by exists br, b, items.
Qed.

Lemma wp_read_br p m w Q :
  open_batch p m w -> (forall br, br_mrr br = Some m -> br_err br = None -> Q br w) -> wp (read_br p) w Q.
Proof. intros (br & b & items & E & Hm & He & _) HQ. eapply wp_eq; [by apply read_at_run|]. by apply HQ. Qed.

(** ** Steps of the readers *)

(** Inside the result [q], read from [r]. *)
Definition at_rows (p : nat) (m : mrr) (r : rr) (q : qresult) (rs : list qresult) (e : option error) (w : world) : Prop :=
  open_batch p m w /\ in_result (outside w) m r q rs e.

Lemma at_rows_stable p m r q rs e w w' : same_reader w w' -> at_rows p m r q rs e w -> at_rows p m r q rs e w'.
Proof. intros (E & E1 & E2 & _) [Ho Hb]. split; [by revert Ho; apply open_batch_frame|]. by rewrite E. Qed.

Lemma at_results_stable p m rs e w w' : same_reader w w' -> at_results p m rs e w -> at_results p m rs e w'.
Proof. intros (E & E1 & E2 & _) [Ho Hb]. split; [by revert Ho; apply open_batch_frame|]. by rewrite E. Qed.

(** A call moves on to the state a law of the class gives. *)
Lemma wp_call_reader p m r w a n' Q :
  replies r (outside w) a n' -> open_batch p m w ->
  (forall w', open_batch p m w' -> outside w' = n' -> rws w' = rws w -> Q a w') -> wp (call r) w Q.
Proof.
  intros R%call_replies Ho HQ. eapply wp_eq; [apply R|]. apply HQ; [|apply R|done].
  by revert Ho; apply open_batch_frame.
Qed.

Lemma wp_next_result p m q rs e w Q :
  at_results p m (q :: rs) e w ->
  (forall w', at_rows p m (ResultReader (outside w') m) q rs e w' -> rws w' = rws w -> Q true w') ->
  wp (call (RNextResult m)) w Q.
Proof.
  intros [Ho Hb] HQ. destruct (next_result _ _ _ _ _ Hb) as (n' & R & Hb').
  apply (wp_call_reader p m _ _ _ _ _ R Ho). intros w' Ho' <-. apply HQ. by split.
Qed.

Lemma wp_no_result p m e w Q :
  at_results p m [] e w -> (forall w', at_results p m [] e w' -> rws w' = rws w -> Q false w') ->
  wp (call (RNextResult m)) w Q.
Proof.
  intros [Ho Hb] HQ. destruct (no_next_result _ _ _ Hb) as (n' & R & Hb').
  apply (wp_call_reader p m _ _ _ _ _ R Ho). intros w' Ho' <-. apply HQ. by split.
Qed.

Lemma wp_close_results p m rs e w Q :
  at_results p m rs e w -> (forall w', at_results p m [] e w' -> rws w' = rws w -> Q e w') ->
  wp (call (RMrrClose m)) w Q.
Proof.
  intros [Ho Hb] HQ. destruct (close_results _ _ _ _ Hb) as (n' & R & Hb').
  apply (wp_call_reader p m _ _ _ _ _ R Ho). intros w' Ho' <-. apply HQ. by split.
Qed.

Lemma wp_close_result p m r q rs e w Q :
  at_rows p m r q rs e w ->
  (forall w', at_results p m rs e w' -> rws w' = rws w -> Q (res_tag q, res_err q) w') ->
  wp (call (RRrClose r)) w Q.
Proof.
  intros [Ho Hb] HQ. destruct (close_result _ _ _ _ _ _ Hb) as (n' & R & Hb').
  apply (wp_call_reader p m _ _ _ _ _ R Ho). intros w' Ho' <-. apply HQ. by split.
Qed.

(** ** Exec *)

Lemma br_Exec_result p m q rs e w Q :
  at_results p m (q :: rs) e w ->
  (forall w', at_results p m rs e w' -> Q (res_tag q, res_err q) w') -> wp (br_Exec p) w Q.
Proof.
  intros [Ho Hb] HQ. apply wp_bind, (wp_read_br _ m); [done|]. intros br Hm He. rewrite He.
  apply wp_bind, (wp_next _ m); [done|]. intros bi w1 Ho1 En _. rewrite <- En in Hb.
  apply wp_bind. unfold br_reader. rewrite Hm. apply (wp_eq _ _ _ _ _ eq_refl).
  apply wp_bind, (wp_next_result p _ q rs e); [by split|]. intros w2 Hr _.
  apply wp_bind, (wp_eq _ _ _ _ _ eq_refl), wp_bind, (wp_close_result p m _ q rs e); [done|]. intros w3 Hr3 _.
  apply wp_bind. destruct (res_err q); apply wp_log_if; by apply HQ; eapply at_results_stable, Hr3; apply logged_reader.
Qed.

Lemma br_Exec_none p m e w Q :
  at_results p m [] e w ->
  (forall w', at_results p m [] e w' -> Q ([], Some (default no_result e)) w') -> wp (br_Exec p) w Q.
Proof.
  intros [Ho Hb] HQ. apply wp_bind, (wp_read_br _ m); [done|]. intros br Hm He. rewrite He.
  apply wp_bind, (wp_next _ m); [done|]. intros bi w1 Ho1 En _. rewrite <- En in Hb.
  apply wp_bind. unfold br_reader. rewrite Hm. apply (wp_eq _ _ _ _ _ eq_refl).
  apply wp_bind, (wp_no_result p _ e); [by split|]. intros w2 Hr _.
  apply wp_bind, (wp_close_results p m [] e); [done|]. intros w3 Hr3 _.
  apply wp_bind, wp_log_if. by apply HQ; eapply at_results_stable, Hr3; apply logged_reader.
Qed.

(** ** Query *)

Lemma open_batch_called p m r w : open_batch p m w -> open_batch p m (called r w).
Proof. by apply open_batch_frame. Qed.

(** The reader of a result of the batch. *)
Lemma batch_reader p m r rs e :
  ReaderLaws r None None (fun q => at_rows p m r q rs e) (at_results p m rs e) (at_results p m rs e).
Proof.
  split.
  - intros q w w'. apply at_rows_stable.
  - apply at_results_stable.
  - apply at_results_stable.
  - intros x rows t err w [Ho Hb]. destruct (results_next_row _ _ _ _ _ _ _ _ _ Hb) as (n' & R & Hv & Hb').
    destruct (call_replies _ _ _ _ R) as [_ N]. destruct R as [Ra _]. rewrite <- N in Hv, Hb'.
    split; [exact Ra|]. split; [exact Hv|]. by split; [apply open_batch_called|].
  - intros t err w [Ho Hb]. destruct (results_no_next_row _ _ _ _ _ _ _ Hb) as (n' & R & Hb').
    destruct (call_replies _ _ _ _ R) as [_ N]. destruct R as [Ra _]. rewrite <- N in Hb'.
    split; [exact Ra|]. by split; [apply open_batch_called|].
  - intros q w [Ho Hb]. destruct (close_result _ _ _ _ _ _ Hb) as (n' & R & Hb').
    destruct (call_replies _ _ _ _ R) as [_ N]. destruct R as [Ra _]. rewrite <- N in Hb'.
    split; [exact Ra|]. by split; [apply open_batch_called|].
  - done.
  - intros c sql err w [Ho Hb]. split; [by apply open_batch_called|]. by apply results_errored.
Qed.

Lemma br_Query_result p m q rs e w Q :
  at_results p m (q :: rs) e w ->
  (forall i r w', reading_rows r None (fun q => at_rows p m r q rs e) i q w' -> Q (i, None) w') ->
  wp (br_Query p) w Q.
Proof.
  intros [Ho Hb] HQ. apply wp_bind, (wp_next _ m); [done|]. intros bi w1 Ho1 En _. rewrite <- En in Hb.
  apply wp_bind, (wp_read_br _ m); [done|]. intros br Hm He. rewrite He.
  apply wp_bind, (wp_eq _ _ _ _ _ eq_refl). set (w2 := set_rws _ _).
  apply wp_bind. unfold br_reader. rewrite Hm. apply (wp_eq _ _ _ _ _ eq_refl).
  apply wp_bind, (wp_next_result p _ q rs e); [split; [by revert Ho1; apply open_batch_frame|done]|].
  intros w3 Hr Hw3. apply wp_bind, (wp_eq _ _ _ _ _ eq_refl), wp_bind.
  eapply wp_update_rows; [rewrite Hw3; by apply list_lookup_middle|].
  apply (HQ _ (ResultReader (outside w3) m)). split; [|by revert Hr; apply at_rows_stable]. eexists.
  split; [apply list_lookup_insert_eq; rewrite Hw3; simpl; rewrite length_app; simpl; lia|done].
Qed.

Lemma br_Query_none p m e w Q :
  at_results p m [] e w ->
  (forall i w', at_results p m [] e w' -> Q (i, Some (default no_result e)) w') -> wp (br_Query p) w Q.
Proof.
  intros [Ho Hb] HQ. apply wp_bind, (wp_next _ m); [done|]. intros bi w1 Ho1 En _. rewrite <- En in Hb.
  apply wp_bind, (wp_read_br _ m); [done|]. intros br Hm He. rewrite He.
  apply wp_bind, (wp_eq _ _ _ _ _ eq_refl). set (w2 := set_rws _ _).
  apply wp_bind. unfold br_reader. rewrite Hm. apply (wp_eq _ _ _ _ _ eq_refl).
  apply wp_bind, (wp_no_result p _ e); [split; [by revert Ho1; apply open_batch_frame|done]|]. intros w3 Hr Hw3.
  apply wp_bind, (wp_close_results p m [] e); [done|]. intros w4 Hr4 Hw4. apply wp_bind.
  eapply wp_update_rows; [rewrite Hw4, Hw3; by apply list_lookup_middle|].
  apply wp_bind, wp_log_if, HQ. by do 2 (eapply at_results_stable; [first [apply logged_reader|apply set_rws_reader]|]).
Qed.

(** ** All of the results *)

Lemma wp_read_one p m how q rs e w Q :
  at_results p m (q :: rs) e w -> (length (res_rows q) < fuel)%nat ->
  (forall w', at_results p m rs e w' -> Q (got_result how q) w') -> wp (read_one fuel p how) w Q.
Proof.
  intros Hat Hf HQ. destruct how; apply wp_bind.
  - apply (br_Exec_result p m q rs e); [done|]. intros w' Hw'. by apply (wp_eq _ _ _ _ _ eq_refl), HQ.
  - apply (br_Query_result p m q rs e); [done|]. intros i r w1 Hr.
    apply wp_bind, (wp_read_all _ _ _ _ _ _ (batch_reader p m r rs e) fuel i q); [done..|]. intros w2 Hw2.
    apply (wp_eq _ _ _ _ _ eq_refl). unfold end_error. destruct (res_err q) eqn:Er; specialize (HQ w2 Hw2);
      simpl in HQ; by rewrite Er in HQ.
Qed.

Lemma wp_read_none p m how e w Q :
  at_results p m [] e w -> (forall w', at_results p m [] e w' -> Q (got_none how e) w') -> wp (read_one fuel p how) w Q.
Proof.
  intros Hat HQ. destruct how; apply wp_bind.
  - apply (br_Exec_none p m e); [done|]. intros w' Hw'. by apply (wp_eq _ _ _ _ _ eq_refl), HQ.
  - apply (br_Query_none p m e); [done|]. intros i w' Hw'. by apply (wp_eq _ _ _ _ _ eq_refl), HQ.
Qed.

Lemma wp_read_each p m hows rs e w Q :
  at_results p m rs e w -> Forall (fun q => length (res_rows q) < fuel)%nat rs ->
  (forall rs' w', at_results p m rs' e w' -> Q (in_turn rs e hows) w') -> wp (read_each fuel p hows) w Q.
Proof.
  revert rs w Q. induction hows as [|how hows IH]; intros rs w Q Hat Hf HQ; cbn [read_each in_turn].
  - apply (wp_eq _ _ _ _ _ eq_refl). by eapply HQ.
  - apply wp_bind. destruct Hf as [|q rs Hq Hf].
    + apply (wp_read_none p m how e); [done|]. intros w1 Hat1.
      apply wp_bind, (IH []); [done|done|]. intros rs' w2 Hat2. apply (wp_eq _ _ _ _ _ eq_refl). by eapply HQ.
    + apply (wp_read_one p m how q rs e); [done..|]. intros w1 Hat1.
      apply wp_bind, (IH rs); [done|done|]. intros rs' w2 Hat2. apply (wp_eq _ _ _ _ _ eq_refl). by eapply HQ.
Qed.

Lemma wp_log_rest p m rs e w Q :
  at_results p m rs e w -> (forall w', at_results p m rs e w' -> Q tt w') -> wp (br_log_rest p) w Q.
Proof.
  intros [(br & b & items & E & Hm & He & Hb & Hi) Hat] HQ.
  destruct (log_loop_drains (length items - br_ix br) p b br br items w E Hb Hi) as (w' & El & _ & Ho & Hbt & k & Hk); [lia|].
  apply wp_bind, (wp_eq _ _ _ _ _ (read_at_run brs _ _ _ E)). rewrite Hb.
  apply wp_bind, (wp_eq _ _ _ _ _ (read_at_run batches _ _ _ Hi)), (wp_eq _ _ _ _ _ El).
  apply HQ. split; [|by rewrite Ho]. exists (br_with_ix k br), b, items. by rewrite Hbt.
Qed.

Lemma wp_br_Close p m rs e w Q :
  at_results p m rs e w -> (forall w', at_results p m [] e w' -> Q e w') -> wp (br_Close p) w Q.
Proof.
  intros Hat HQ. apply wp_bind, (wp_read_br _ m); [apply Hat|]. intros br Hm He. rewrite He.
  apply wp_bind, (wp_log_rest p m rs e); [done|]. intros w1 Hat1.
  apply wp_bind. unfold br_reader. rewrite Hm. apply (wp_eq _ _ _ _ _ eq_refl), (wp_close_results p m rs e); [done|].
  intros w2 Hat2 _. by apply HQ.
Qed.

Lemma read_batch_ends p m hows rs e w :
  at_results p m rs e w -> Forall (fun q => length (res_rows q) < fuel)%nat rs ->
  exists w', read_batch_results fuel p hows w = Ok (in_turn rs e hows, e) w' /\ before_result (outside w') m [] e.
Proof.
  intros Hat Hf. cut (wp (read_batch_results fuel p hows) w (fun a w' => a = (in_turn rs e hows, e) /\ before_result (outside w') m [] e)).
  { intros (a & w' & E & -> & Hb)%wp_Ok. by exists w'. }
  apply wp_bind, (wp_read_each p m hows rs e); [done..|]. intros rs1 w1 Hat1.
  apply wp_bind, (wp_br_Close p m rs1 e); [done|]. intros w2 [_ Hb]. by apply (wp_eq _ _ _ _ _ eq_refl).
Qed.
End Refinement.

(** ** From the queue to the results *)

Section Batches.
Context `{PgTypes} `{PgConn} `{!PgDecoders} `{!PgResults} {Laws : PgTypesLaws}.
Context (fuel : nat).

Definition same_batches (w w' : world) : Prop := length (batches w') = length (batches w).

#[local] Instance same_batches_preorder : PreOrder same_batches.
Proof. split; [done|]. unfold same_batches. intros a b c. congruence. Qed.

Lemma batches_quiet {A} (m : M world A) : keeps quiet m -> keeps same_batches m.
Proof. intros Hm w. specialize (Hm w). destruct (m w); [..|done]; destruct Hm as (_ & E & _); unfold same_batches; by rewrite E. Qed.

Lemma batches_write b l : keeps same_batches (write_batch b l).
Proof. intros w. apply length_insert. Qed.
Lemma batches_new_br x : keeps same_batches (new_br x).
Proof. by intros w. Qed.
#[local] Hint Resolve batches_write batches_new_br : keeps.
#[local] Hint Extern 1 (keeps same_batches (call ?r)) => exact (batches_quiet _ (quiet_call r)) : keeps.
#[local] Hint Extern 4 (keeps same_batches _) => (apply batches_quiet; solve [eauto 2 with keeps]) : keeps.

Lemma batches_prefill ctx c keys : keeps same_batches (prefill ctx c keys).
Proof. induction keys as [|k keys IH]; cbn [prefill]; keeps_tac. Qed.
Lemma batches_text first items sb : keeps same_batches (batch_text fuel first items sb).
Proof. revert first sb. induction items as [|bi items IH]; intros; cbn [batch_text]; unfold sanitizeForSimpleQuery; keeps_tac. Qed.
Lemma batches_items ctx c b i items acc : keeps same_batches (batch_items fuel ctx c b i items acc).
Proof.
  revert i acc. induction items as [|bi items IH]; intros i acc; cbn [batch_items]; [keeps_tac|].
  unfold batch_item, batch_describe, convert_item, eqb_append_params, read_batch. keeps_tac.
Qed.
#[local] Hint Resolve batches_prefill batches_text batches_items : keeps.

Lemma batches_SendBatch ctx b : keeps same_batches (SendBatch fuel ctx b).
Proof. unfold SendBatch, batch_prepare, batch_cache, batch_failed, batch_sent, read_batch. keeps_tac. Qed.

(** C14. The results of a batch come back in the order of its queries: once
    [SendBatch] has sent the batch, reading it by [Exec] and [Query] in any
    mixture, also beyond its end, gives the tag, the rows and the error of the
    result of each queued query at its turn; after the statement that ended the
    batch there is its error, and [Close] returns it. *)
Theorem batch_results_in_turn ctx b w items p w1 br :
  PreferSimpleProtocol (config (conn w)) = false -> batches w !! b = Some items ->
  SendBatch fuel ctx b w = Ok p w1 -> brs w1 !! p = Some br -> br_err br = None ->
  exists w0 pre entries, asks pre w w0 /\ Forall2 (entry_for fuel ctx w pre) items entries /\
    let '(rs, e) := batch_runs (outside w0) entries in
    Forall (fun q => length (res_rows q) < fuel)%nat rs ->
    forall hows, exists w', read_batch_results fuel p hows w1 = Ok (in_turn rs e hows, e) w'.
Proof.
  intros Hs Hb E Hbr He. pose proof (keeps_Ok _ _ _ _ _ (batches_SendBatch ctx b) E) as Hl.
  apply (SendBatch_outcome fuel ctx b w p w1 items Hs Hb) in E as (w2 & br' & -> & -> & Hw).
  cbn [set_brs brs] in Hbr. rewrite list_lookup_middle in Hbr by done. injection Hbr as ->. rewrite He in Hw.
  destruct Hw as (w0 & pre & entries & Hem & HF & -> & ->). exists w0, pre, entries. split; [done|]. split; [done|].
  destruct (batch_started ctx entries (outside w0)) as (m & n' & [<- <-] & Hst).
  destruct (batch_runs (outside w0) entries) as [rs e]. intros Hf hows.
  assert (is_Some (batches w0 !! b)) as [items' Hi].
  { apply lookup_lt_is_Some. unfold same_batches in Hl. simpl in Hl. rewrite Hl. by eapply lookup_lt_Some. }
  edestruct (read_batch_ends fuel) as (w' & Er & _); [|done|by exists w'].
  split; [|exact Hst]. eexists _, b, items'. split; [by apply list_lookup_middle|]. done.
Qed.
End Batches.

(** ** A server of batches

    The smallest connection with such readers: the result of a statement is one
    row with its text, and a statement "bad" ends the batch. *)

Module BatchServer.
Record server := mkServer { current : option qresult; seen : row; rest : list qresult; failure : option error }.

Definition text_of (x : batch_entry) : gostring :=
  match x with BatchExecParams sql _ _ _ _ => sql | BatchExecPrepared name _ _ _ => name end.

Fixpoint run (entries : list batch_entry) : list qresult * option error :=
  match entries with
  | [] => ([], None)
  | x :: entries' =>
      if bool_decide (text_of x = str "bad") then ([], Some (Toy.failed (text_of x)))
      else let '(rs, e) := run entries' in (mkResult [[Some (text_of x)]] (text_of x) None :: rs, e)
  end.

Definition unsupported : error := errors_New "unsupported".

Definition answer_to (r : request) (s : server) : reply r * list Notification * server :=
  match r with
  | RClose _ => (None, [], s)
  | RPrepare _ _ _ => (inl unsupported, [], s)
  | RExec _ _ => (Mrr 0, [], mkServer None [] [] (Some unsupported))
  | RExecParams _ _ _ _ _ _ => (Rr 0, [], s)
  | RExecPrepared _ _ _ _ _ => (Rr 0, [], s)
  | RExecBatch _ entries => (Mrr 0, [], mkServer None [] (run entries).1 (run entries).2)
  | RWaitForNotification _ => (None, [], s)
  | RNextResult _ =>
      match rest s with
      | [] => (false, [], s)
      | q :: rs => (true, [], mkServer (Some q) [] rs (failure s))
      end
  | RMrrClose _ => (failure s, [], mkServer None [] [] (failure s))
  | RReadAll _ => (failure s, [], mkServer None [] [] (failure s))
  | RNextRow _ =>
      match current s with
      | Some (mkResult (x :: rows) t e) => (true, [], mkServer (Some (mkResult rows t e)) x (rest s) (failure s))
      | _ => (false, [], s)
      end
  | RRrClose _ =>
      (match current s with Some q => (res_tag q, res_err q) | None => ([], None) end, [],
       mkServer None [] (rest s) (failure s))
  | RRead _ => (([], Some unsupported), [], s)
  | RCacheBuild _ => (Cache 0, [], s)
  | RCacheGet _ _ sql => (inr (mkSD [] sql [] []), [], s)
  | RStatementErrored _ _ _ => (tt, [], s)
  | RPlanScan _ _ _ => (Plan 0, [], s)
  | RScanInto _ _ _ _ _ => (inl unsupported, [], s)
  | RConnInfoScan _ _ _ _ => (inl unsupported, [], s)
  | RMapKeys keys => (keys, [], s)
  | RCopyStart _ _ => (tt, [], s)
  | RCopyWrite _ => (Some unsupported, [], s)
  | RCopyEnd e => (([], e), [], s)
  end.

Definition pgconn : PgConn := {|
  net := server;
  pg_IsClosed := fun _ => false;
  pg_IsBusy := fun _ => false;
  PID := fun _ => 1;
  TxStatus := fun _ => "I"%char;
  ParameterStatus := fun _ _ => str "on";
  ResultReader := fun _ _ => Rr 0;
  rr_FieldDescriptions := fun _ _ => [];
  rr_Values := fun s _ => seen s;
  cache_Mode := fun _ _ => ModeDescribe;
  cache_Cap := fun _ _ => 0;
  RowsAffected := fun _ => 0;
  serve := answer_to
|}.

#[export] Instance results : @PgResults pgconn.
Proof.
  refine (@Build_PgResults pgconn
    (fun s _ rs e => rest s = rs /\ failure s = e)
    (fun s _ _ q rs e => current s = Some q /\ rest s = rs /\ failure s = e)
    _ _ _ _ _ _ _ (fun _ entries => run entries) _);
    unfold replies; cbn [serve pgconn answer_to].
  - intros n m q rs e [-> <-]. eexists. by repeat split.
  - intros n m e [E <-]. exists n. by rewrite E.
  - intros n m r x rows t err rs e (-> & <- & <-). eexists. by repeat split.
  - intros n m r t err rs e (E & <- & <-). exists n. by rewrite E.
  - intros n m r q rs e (-> & <- & <-). eexists. by repeat split.
  - intros n m rs e [<- <-]. eexists. by repeat split.
  - done.
  - intros ctx entries n. eexists _, _. by repeat split.
Defined.
End BatchServer.

#[local] Existing Instance Sample.types.
#[local] Existing Instance Sample.laws.
#[local] Hint Extern 0 PgConn => exact BatchServer.pgconn : typeclass_instances.
#[local] Existing Instance BatchServer.results.

#[local] Instance batch_decoders : @PgDecoders Sample.types BatchServer.pgconn := {|
  dt_TextDecoder := fun _ => None;
  dt_BinaryDecoder := fun _ => None;
  GenericText_Decode := fun b => inr (VString None b);
  GenericBinary_Decode := fun b => inr (VBytes None b);
  dt_Get := fun _ _ => VInt KInt32 None 0
|}.

(** Four queries, the third of which fails. *)
Definition four : list batchItem := map (fun q => mkBatchItem q []) [str "one"; str "two"; str "bad"; str "four"].
Definition four_start : world :=
  mkWorld (Toy.connection false None) (BatchServer.mkServer None [] [] None) [] [] [] [] [four] [].
Definition four_sent : world := final (SendBatch 3 Background 0) four_start.

Lemma batch_results_in_turn_witness :
  let e := Some (Toy.failed (str "bad")) in
  value (read_batch_results 3 0 [ReadExec; ReadQuery; ReadQuery; ReadExec]) four_sent
  = Some ([GotTag (str "one") None; GotRows [[Some (str "two")]] (str "two") None; GotRows [] [] e; GotTag [] e], e)
  /\ exists w0 pre entries, asks pre four_start w0
    /\ Forall2 (entry_for 3 Background four_start pre) four entries /\
    let '(rs, e) := batch_runs (outside w0) entries in
    Forall (fun q => length (res_rows q) < 3)%nat rs ->
    forall hows, exists w', read_batch_results 3 0 hows four_sent = Ok (in_turn rs e hows, e) w'.
Proof.
  intros e. split; [evaluates|].
  assert (exists br, brs four_sent !! 0%nat = Some br) as [br Hbr] by (apply some_by_test; evaluates).
  assert (option_map br_err (brs four_sent !! 0%nat) = Some None) as He by evaluates.
  rewrite Hbr in He. injection He as He.
  exact (batch_results_in_turn 3 Background 0 four_start four 0 four_sent br eq_refl eq_refl ltac:(runs) Hbr He).
Defined.
