(* ===== verification/CopyFrom.v ===== *)
(** COPY (copy_from.go): the sources of rows, the construction of the binary
    stream in chunks, and [CopyFrom].

    The stream is produced by a goroutine and read through a synchronous pipe;
    the two sides meet only in the writes, which are requests here.  [CopyPipe]
    has the two sides interleaved. *)

From S2P Require Import Prelude GoStd GoVal Effects Values PgConn Logger World Toy Rows Config Conn.

Local Open Scope Z_scope.

(** ** Sources *)

Class CopyFromSource (Src : Type) := {
  src_Next : Src -> bool * Src;
  src_Values : Src -> comp ((list goval * option error) * Src);
  src_Err : Src -> option error
}.

Record copyFromRows := mkCopyFromRows { cfr_rows : list (list goval); cfr_idx : Z }.

Definition CopyFromRows (rows : list (list goval)) : copyFromRows := mkCopyFromRows rows (-1).

#[export] Instance copyFromRows_source : CopyFromSource copyFromRows := {|
  src_Next ctr :=
    let idx := int64 (cfr_idx ctr + 1) in
    (idx <? Z.of_nat (length (cfr_rows ctr)), mkCopyFromRows (cfr_rows ctr) idx);
  src_Values ctr :=
    let? row := of_outcome (go_index (cfr_rows ctr) (cfr_idx ctr)) in
    Done ((row, None), ctr);
  src_Err _ := None
|}.

Record copyFromSlice := mkCopyFromSlice {
  cfs_next : Z -> list goval * option error;
  cfs_idx : Z;
  cfs_len : Z;
  cfs_err : option error
}.

Definition CopyFromSlice (len : Z) (next : Z -> list goval * option error) : copyFromSlice :=
  mkCopyFromSlice next (-1) len None.

#[export] Instance copyFromSlice_source : CopyFromSource copyFromSlice := {|
  src_Next cts :=
    let idx := int64 (cfs_idx cts + 1) in
    (idx <? cfs_len cts, mkCopyFromSlice (cfs_next cts) idx (cfs_len cts) (cfs_err cts));
  src_Values cts :=
    let '(values, err) := cfs_next cts (cfs_idx cts) in
    Done ((values, err),
      match err with
      | Some _ => mkCopyFromSlice (cfs_next cts) (cfs_idx cts) (cfs_len cts) err
      | None => cts
      end);
  src_Err cts := cfs_err cts
|}.

Section CopyFrom.
Context `{PgTypes} `{PgConn} `{!PgDecoders} `{CopyFromSource Src}.
Context (fuel : nat).

(** ** The stream *)

Definition copy_header : gostring :=
  AppendInt32 (AppendInt32 (str "PGCOPY" ++ map byte_of [10; 255; 13; 10; 0]) 0) 0.

Definition value_count (want got : nat) : error :=
  ErrorString (str "expected " ++ FormatInt (Z.of_nat want) ++ str " values, got "
    ++ FormatInt (Z.of_nat got) ++ str " values").

(** The fields of a row. *)
Fixpoint encode_fields (buf : gostring) (fields : list FieldDescription) (vals : list goval) {struct vals}
  : comp (error + gostring) :=
  match vals with
  | [] => Done (inr buf)
  | v :: vals' =>
      match fields with
      | [] => Crash index_out_of_range
      | fd :: fields' =>
          let? r := encodePreparedStatementArgument fuel buf (DataTypeOID fd) v in
          match r with
          | inl e => Done (inl e)
          | inr buf' => encode_fields buf' fields' vals'
          end
      end
  end.

(** The result of [buildCopyBuf]: whether there may be more rows, the buffer,
    the error; with the source as it is left. *)
Definition chunk : Type := bool * gostring * option error.

Fixpoint buildCopyBuf (rounds : nat) (columns : nat) (sd : StatementDescription) (buf : gostring) (src : Src)
  : comp (chunk * Src) :=
  match rounds with
  | O => NoFuel
  | S k =>
      match src_Next src with
      | (false, src1) => Done ((false, buf, None), src1)
      | (true, src1) =>
          let? '((vals, err), src2) := src_Values src1 in
          match err with
          | Some e => Done ((false, [], Some e), src2)
          | None =>
              if negb (length vals =? columns)%nat
              then Done ((false, [], Some (value_count columns (length vals))), src2)
              else
                let? r := encode_fields (AppendInt16 buf (int16 (Z.of_nat columns))) (Fields sd) vals in
                match r with
                | inl e => Done ((false, [], Some e), src2)
                | inr buf' =>
                    if 65536 <? Z.of_nat (length buf') then Done ((true, buf', None), src2)
                    else buildCopyBuf k columns sd buf' src2
                end
          end
      end
  end.

(** The goroutine: the chunks are written to the pipe until the rows, the
    reading end or the source fail.  The result is the error the pipe is closed
    with. *)
Fixpoint copy_chunks (rounds : nat) (columns : nat) (sd : StatementDescription) (buf : gostring) (src : Src)
  : M world (option error * Src) :=
  match rounds with
  | O => out_of_fuel
  | S k =>
      let* '((more, buf', err), src') := lift (buildCopyBuf fuel columns sd buf src) in
      match err with
      | Some _ => ret (err, src')
      | None =>
          match src_Err src' with
          | Some e => ret (Some e, src')
          | None =>
              let* wrote := (if (0 <? length buf')%nat then call (RCopyWrite buf') else ret None) in
              match wrote with
              | Some _ => ret (None, src')
              | None => if more then copy_chunks k columns sd [] src' else ret (None, src')
              end
          end
      end
  end.

(** ** CopyFrom *)

Definition quoted_columns (columnNames : list gostring) : gostring :=
  Join (map quoteIdentifier columnNames) (str ", ").

Definition copy_run (ctx : context) (tableName : list gostring) (columnNames : list gostring) (src : Src)
  : M world (Z * option error * Src) :=
  let quotedTableName := Identifier_Sanitize tableName in
  let quotedColumnNames := quoted_columns columnNames in
  let* r := Conn_Prepare ctx [] (str "select " ++ quotedColumnNames ++ str " from " ++ quotedTableName) in
  match r with
  | inl e => ret (0, Some e, src)
  | inr sd =>
      let* _ := call (RCopyStart ctx (str "copy " ++ quotedTableName ++ str " ( " ++ quotedColumnNames
                                        ++ str " ) from stdin binary;")) in
      let* '(failed, src') := copy_chunks fuel (length columnNames) sd copy_header src in
      let* '(tag, err) := call (RCopyEnd failed) in
      let rowsAffected := RowsAffected tag in
      match err with
      | None =>
          log_if ctx LogLevelInfo (str "CopyFrom")
            [(str "tableName", LStrs tableName); (str "columnNames", LStrs columnNames);
             (str "time", LTime); (str "rowCount", LInt rowsAffected)]
      | Some e =>
          log_if ctx LogLevelError (str "CopyFrom")
            [(str "err", LErr e); (str "tableName", LStrs tableName); (str "columnNames", LStrs columnNames)]
      end ;;;
      ret (rowsAffected, err, src')
  end.

Definition Conn_CopyFrom (ctx : context) (tableName : list gostring) (columnNames : list gostring) (src : Src)
  : M world (Z * option error * Src) := copy_run ctx tableName columnNames src.

(** ** Frames *)

Lemma keeps_copy_chunks rounds columns sd buf src :
  keeps conn_frame (copy_chunks rounds columns sd buf src).
Proof.
  revert buf src. induction rounds as [|k IH]; intros buf src; cbn [copy_chunks]; keeps_tac.
Qed.

#[local] Hint Resolve keeps_copy_chunks : keeps.

Lemma keeps_CopyFrom ctx tableName columnNames src :
  keeps conn_frame (Conn_CopyFrom ctx tableName columnNames src).
Proof. unfold Conn_CopyFrom, copy_run. keeps_tac. Qed.

(** ** The stream against its specification

    A source without errors gives its rows one by one. *)
Inductive pulls : Src -> list (list goval) -> Src -> Prop :=
| pulls_end s s1 : src_Next s = (false, s1) -> src_Err s1 = None -> pulls s [] s1
| pulls_row s s1 s2 s3 row rows :
    src_Next s = (true, s1) -> src_Values s1 = Done ((row, None), s2) -> src_Err s2 = None ->
    pulls s2 rows s3 -> pulls s (row :: rows) s3.

(** The bytes of one row, on their own. *)
Definition row_bytes (columns : nat) (sd : StatementDescription) (row : list goval) : comp (error + gostring) :=
  encode_fields (AppendInt16 [] (int16 (Z.of_nat columns))) (Fields sd) row.

Definition rows_encode (columns : nat) (sd : StatementDescription) : list (list goval) -> list gostring -> Prop :=
  Forall2 (fun row d => length row = columns /\ row_bytes columns sd row = Done (inr d)).

Context {Laws : PgTypesLaws}.

Lemma encode_fields_local a fields row d :
  encode_fields a fields row = Done (inr d) ->
  exists t, d = a ++ t /\ forall b, encode_fields b fields row = Done (inr (b ++ t)).
Proof.
  revert a fields. induction row as [|v row IH]; intros a fields; simpl.
  - intros [= <-]. exists []. split; [by rewrite app_nil_r|]. intros b. by rewrite app_nil_r.
  - destruct fields as [|fd fields]; [done|].
    destruct (encodePreparedStatementArgument fuel a (DataTypeOID fd) v) as [[e|r]| |] eqn:E; try done.
    apply encodePrepared_field in E as (p & -> & Hp). simpl. intros (t & -> & Ht)%IH.
    exists (copy_field p ++ t). split; [by rewrite app_assoc|]. intros b.
    rewrite Hp. simpl. by rewrite Ht, app_assoc.
Qed.

Lemma row_bytes_ok columns sd row d buf :
  row_bytes columns sd row = Done (inr d) ->
  encode_fields (AppendInt16 buf (int16 (Z.of_nat columns))) (Fields sd) row = Done (inr (buf ++ d)).
Proof.
  unfold row_bytes. rewrite !AppendInt16_be. intros (t & -> & Ht)%encode_fields_local.
  by rewrite Ht, <- !app_assoc.
Qed.

(** A round of [buildCopyBuf] takes the next rows, up to the end or until the
    buffer is full. *)
Lemma buildCopyBuf_ok rounds columns sd buf src rows datas src' :
  pulls src rows src' -> rows_encode columns sd rows datas -> (length rows < rounds)%nat ->
  exists more buf' s1 d1 d2 rows2,
    buildCopyBuf rounds columns sd buf src = Done ((more, buf', None), s1)
    /\ src_Err s1 = None
    /\ datas = d1 ++ d2 /\ buf' = buf ++ concat d1 /\ rows_encode columns sd rows2 d2
    /\ (if more then pulls s1 rows2 src' /\ (length rows2 < length rows)%nat
                     /\ 65536 < Z.of_nat (length buf')
        else s1 = src' /\ d2 = []).
Proof.
  intros Hp. revert rounds buf datas. induction Hp as [s s1 HN HE|s s1 s2 s3 row rows HN HV HE Hp IH];
    intros rounds buf datas HF Hr; inversion HF as [|? d ? ds [Hl Hd] HF']; subst;
    (destruct rounds as [|k]; [simpl in Hr; lia|]); cbn [buildCopyBuf]; rewrite HN.
  - exists false, buf, s1, [], [], []. simpl. rewrite app_nil_r. repeat split; auto.
  - rewrite HV. cbn [comp_bind]. rewrite Nat.eqb_refl. cbn [negb].
    rewrite (row_bytes_ok _ _ _ _ _ Hd). cbn [comp_bind].
    destruct (Z.ltb_spec 65536 (Z.of_nat (length (buf ++ d)))).
    + exists true, (buf ++ d), s2, [d], ds, rows. simpl. rewrite app_nil_r.
      repeat split; auto.
    + destruct (IH k (buf ++ d) ds HF') as (more & buf' & s4 & d1 & d2 & rows2 & E & HE4 & Hds & Hb & HF2 & Hm).
      { simpl in Hr. lia. }
      exists more, buf', s4, (d :: d1), d2, rows2. rewrite E, Hds, Hb. simpl. rewrite <- app_assoc.
      repeat split; auto. destruct more; [|done]. destruct Hm as (? & ? & Hb65). repeat split; auto.
      by rewrite Hb in Hb65; rewrite <- app_assoc in Hb65.
Qed.

(** The reading end takes every chunk. *)
Definition accepting : Prop := forall c n, (serve (RCopyWrite c) n).1.1 = None.

Lemma write_chunk buf w :
  accepting ->
  exists w1 c1, (if (0 <? length buf)%nat then call (RCopyWrite buf) else ret None) w = Ok None w1
    /\ requests (trace w1) = requests (trace w) ++ map RCopyWrite c1 /\ concat c1 = buf.
Proof.
  intros Hacc. destruct (Nat.ltb_spec 0 (length buf)) as [Hl|Hl].
  - exists (called (RCopyWrite buf) w), [buf]. unfold call, answer. rewrite Hacc. split; [done|].
    rewrite requests_called. simpl. by rewrite app_nil_r.
  - exists w, []. rewrite app_nil_r. split; [done|]. split; [done|]. destruct buf; [done|simpl in Hl; lia].
Qed.

Lemma copy_chunks_ok rounds columns sd buf src rows datas src' w :
  accepting -> pulls src rows src' -> rows_encode columns sd rows datas ->
  (length rows < rounds)%nat -> (length rows < fuel)%nat ->
  exists chunks w', copy_chunks rounds columns sd buf src w = Ok (None, src') w'
    /\ requests (trace w') = requests (trace w) ++ map RCopyWrite chunks
    /\ concat chunks = buf ++ concat datas.
Proof.
  intros Hacc. revert buf src rows datas w. induction rounds as [|k IH];
    intros buf src rows datas w Hp HF Hr Hfu; [lia|].
  destruct (buildCopyBuf_ok fuel columns sd buf src rows datas src' Hp HF Hfu)
    as (more & buf' & s1 & d1 & d2 & rows2 & E & HE & Hds & Hb & HF2 & Hm).
  cbn [copy_chunks]. unfold bind, lift. rewrite E. cbn iota beta. rewrite HE.
  destruct (write_chunk buf' w Hacc) as (w1 & c1 & -> & T1 & C1).
  destruct more.
  - destruct Hm as (Hp2 & Hlt & _).
    destruct (IH [] s1 rows2 d2 w1 Hp2 HF2) as (c2 & w2 & -> & T2 & C2); [lia|lia|].
    exists (c1 ++ c2), w2. rewrite T2, T1, map_app, <- app_assoc. do 2 (split; [done|]).
    by rewrite concat_app, C1, C2, Hds, Hb, concat_app, <- app_assoc.
  - destruct Hm as [-> ->]. exists c1, w1. rewrite C1, Hds, Hb, app_nil_r. done.
Qed.

(** ** Theorem *)

(** C16. However the rows fall into chunks, a COPY of a source without errors
    sends the header and the rows one after the other, each encoded on its own,
    and ends the stream normally; the number of rounds needed is that of the
    rows. *)
Theorem CopyFrom_stream ctx tableName columnNames src rows datas src' w sd w1 :
  Conn_Prepare ctx [] (str "select " ++ quoted_columns columnNames ++ str " from "
    ++ Identifier_Sanitize tableName) w = Ok (inr sd) w1 ->
  accepting -> pulls src rows src' -> rows_encode (length columnNames) sd rows datas ->
  (length rows < fuel)%nat ->
  exists chunks copySQL w' n err,
    Conn_CopyFrom ctx tableName columnNames src w = Ok (n, err, src') w'
    /\ requests (trace w') = requests (trace w1)
        ++ RCopyStart ctx copySQL :: map RCopyWrite chunks ++ [RCopyEnd None]
    /\ concat chunks = copy_header ++ concat datas.
Proof.
  intros HP Hacc Hp HF Hfu. unfold Conn_CopyFrom, copy_run. rewrite (bind_eq _ _ _ _ _ HP).
  set (copySQL := str "copy " ++ _). unfold bind at 1, call at 1.
  destruct (copy_chunks_ok fuel (length columnNames) sd copy_header src rows datas src'
    (called (RCopyStart ctx copySQL) w1) Hacc Hp HF Hfu Hfu) as (chunks & w2 & E & T & C).
  unfold bind at 1. rewrite E. unfold bind at 1, call at 1.
  destruct (answer (RCopyEnd None) w2) as [tag err] eqn:Ea.
  destruct err as [e|]; unfold bind; rewrite log_if_run;
    eexists chunks, copySQL, _, _, _; (split; [reflexivity|]);
    rewrite requests_logged, requests_called, T, requests_called, <- !app_assoc; done.
Qed.

End CopyFrom.

#[export] Hint Resolve keeps_CopyFrom : keeps.

Section CopyFromFrame.
Context `{PgTypes} `{PgConn} `{!PgDecoders} `{CopyFromSource Src}.

(** ** The sources of the package *)

Lemma int64_succ i : -1 <= i -> i < 2 ^ 62 -> int64 (i + 1) = i + 1.
Proof. intros. apply wrap_s_id; [lia|]. unfold in_s. lia. Qed.

Lemma copyFromRows_pulls_from rows i :
  (i <= length rows)%nat -> Z.of_nat (length rows) < 2 ^ 62 ->
  pulls (mkCopyFromRows rows (Z.of_nat i - 1)) (drop i rows) (mkCopyFromRows rows (Z.of_nat (length rows))).
Proof.
  intros Hi Hb. remember (length rows - i)%nat as n eqn:Hn. revert i Hi Hn.
  induction n as [|n IH]; intros i Hi Hn.
  - assert (i = length rows) as -> by lia. rewrite drop_all. apply pulls_end; [|done]. simpl.
    rewrite int64_succ by lia. replace (Z.of_nat (length rows) - 1 + 1) with (Z.of_nat (length rows)) by lia.
    by rewrite Z.ltb_irrefl.
  - destruct (lookup_lt_is_Some_2 rows i ltac:(lia)) as [row Hrow].
    rewrite (drop_S _ _ _ Hrow). eapply pulls_row; simpl.
    + rewrite int64_succ by lia. rewrite (proj2 (Z.ltb_lt _ _)) by lia. done.
    + simpl. replace (Z.of_nat i - 1 + 1) with (Z.of_nat i) by lia.
      unfold go_index. rewrite (proj2 (Z.ltb_ge _ _)) by lia. rewrite Nat2Z.id, Hrow. done.
    + done.
    + replace (Z.of_nat i) with (Z.of_nat (S i) - 1) by lia. apply IH; lia.
Qed.

Lemma copyFromSlice_pulls_from len next rows i :
  0 <= len -> len < 2 ^ 62 -> (forall k, (k < Z.to_nat len)%nat -> next (Z.of_nat k) = (rows k, None)) ->
  (i <= Z.to_nat len)%nat ->
  pulls (mkCopyFromSlice next (Z.of_nat i - 1) len None) (map rows (seq i (Z.to_nat len - i)))
    (mkCopyFromSlice next len len None).
Proof.
  intros Hl Hb Hn Hi. remember (Z.to_nat len - i)%nat as n eqn:En. revert i Hi En.
  induction n as [|n IH]; intros i Hi En; simpl.
  - apply pulls_end; [|done]. simpl. rewrite int64_succ by lia.
    replace (Z.of_nat i - 1 + 1) with len by lia. by rewrite Z.ltb_irrefl.
  - eapply pulls_row; simpl.
    + rewrite int64_succ by lia. rewrite (proj2 (Z.ltb_lt _ _)) by lia. done.
    + simpl. replace (Z.of_nat i - 1 + 1) with (Z.of_nat i) by lia.
      rewrite Hn by lia. done.
    + done.
    + simpl. replace (Z.of_nat i) with (Z.of_nat (S i) - 1) by lia. apply IH; lia.
Qed.
End CopyFromFrame.

(** The two sources of the package give all of their rows, in order: a
    slice of rows its elements, a function the values it returns for the
    indices below the length. *)
Theorem sources_give_their_rows :
  (forall rows, Z.of_nat (length rows) < 2 ^ 62 ->
     pulls (CopyFromRows rows) rows (mkCopyFromRows rows (Z.of_nat (length rows))))
  /\ (forall len next rows, 0 <= len < 2 ^ 62 ->
        (forall k, (k < Z.to_nat len)%nat -> next (Z.of_nat k) = (rows k, None)) ->
        pulls (CopyFromSlice len next) (map rows (seq 0 (Z.to_nat len))) (mkCopyFromSlice next len len None)).
Proof.
  split.
  - intros rows Hb. apply (copyFromRows_pulls_from rows 0); [lia|done].
  - intros len next rows [Hl Hb] Hn.
    pose proof (copyFromSlice_pulls_from len next rows 0 Hl Hb Hn ltac:(lia)) as Hp.
    by rewrite Nat.sub_0_r in Hp.
Qed.

(** ** Example on the small server *)

#[local] Existing Instance Sample.types.
#[local] Existing Instance Sample.laws.
#[local] Existing Instance Toy.pgconn.
#[local] Existing Instance Toy.decoders.

Definition copied_rows : list (list goval) := [[VInt KInt None 7]; [VNil]].

(** The statement that describes the columns of the table. *)
Definition select_n : gostring := str "select " ++ quoted_columns [str "n"] ++ str " from " ++ Identifier_Sanitize [str "t"].

Lemma CopyFrom_stream_witness :
  exists chunks w' n err,
    Conn_CopyFrom 5 Background [str "t"] [str "n"] (CopyFromRows copied_rows) (Toy.start_world false)
    = Ok (n, err, mkCopyFromRows copied_rows 2) w'
    /\ concat chunks = copy_header ++ concat [be16 1 ++ be32 4 ++ be32 7; be16 1 ++ be32 (-1)].
Proof.
  destruct (CopyFrom_stream 5 Background [str "t"] [str "n"] (CopyFromRows copied_rows) copied_rows
    [be16 1 ++ be32 4 ++ be32 7; be16 1 ++ be32 (-1)] (mkCopyFromRows copied_rows 2)
    (Toy.start_world false) (mkSD [] select_n [] Toy.columns)
    (final (Conn_Prepare Background [] select_n) (Toy.start_world false))) as (chunks & q & w' & n & err & E & _ & C).
  - runs.
  - intros c n. reflexivity.
  - apply (copyFromRows_pulls_from copied_rows 0); simpl; lia.
  - repeat constructor.
  - simpl. lia.
  - exact (ex_intro _ chunks (ex_intro _ w' (ex_intro _ n (ex_intro _ err (conj E C))))).
Defined.
