(* ===== verification/CopyPipe.v ===== *)
(** The goroutine of [CopyFrom] and the pipe it writes to (copy_from.go).

    [CopyFrom] starts a goroutine that encodes the rows and writes them to an
    [io.Pipe], and gives the reading end to pgconn, which reads from it as it
    likes.  Here the two run interleaved: a step is one of the goroutine, or a
    read, or the closing of the reading end.  [CopyFrom.v] has the same program
    as a sequence of writes; the theorems say that they agree. *)

From S2P Require Import Prelude GoStd GoVal Effects Values PgConn Logger World Toy Rows Config Conn CopyFrom.

Local Open Scope Z_scope.

Section CopyPipe.
Context `{PgTypes} `{CopyFromSource Src}.
Context (fuel rounds columns : nat) (sd : StatementDescription).

(** ** States *)

(** Where the goroutine is: about to fill its buffer, inside [w.Write] with the
    bytes that are not read yet, after [close(doneChan)], or panicking. *)
Inductive producer :=
| Building (buf : gostring) (src : Src)
| Writing (b : gostring) (more : bool) (src : Src)
| Finished (src : Src)
| Crashed (msg : gostring).

(** [werr] is the error the writing end was closed with, [rclosed] whether the
    reading end was closed.  [received] and [read_end] are what the reader has
    got: the bytes, and the error of the [Read] that returned one. *)
Record copyState := mkCopyState {
  prod : producer;
  werr : option error;
  rclosed : bool;
  received : gostring;
  read_end : option error
}.

Definition copy_init (src : Src) : copyState := mkCopyState (Building copy_header src) None false [] None.

(** ** The goroutine *)

(** After a chunk: the next one, or [w.Close()]. *)
Definition next_chunk (more : bool) (src : Src) : producer * option error :=
  if more then (Building [] src, None) else (Finished src, Some EOF).

(** One round of the loop up to the write; [None] is a call that does not
    return. *)
Definition fill (buf : gostring) (src : Src) : option (producer * option error) :=
  match buildCopyBuf fuel rounds columns sd buf src with
  | Done ((more, buf', err), src') =>
      Some match err with
      | Some e => (Finished src', Some e)
      | None =>
          match src_Err src' with
          | Some e => (Finished src', Some e)
          | None => if (0 <? length buf')%nat then (Writing buf' more src', None) else next_chunk more src'
          end
      end
  | Crash msg => Some (Crashed msg, None)
  | NoFuel => None
  end.

(** ** Interleavings

    A [Read] of [n] bytes takes what is offered up to [n], and [Write] returns
    when nothing is left.  A [Read] after the writing end was closed returns the
    error it was closed with, and a [Write] after the reading end was closed
    fails, upon which the goroutine closes its end and returns. *)
Inductive copy_step : copyState -> copyState -> Prop :=
| step_fill buf src p e rc recd re :
    fill buf src = Some (p, e) ->
    copy_step (mkCopyState (Building buf src) None rc recd re) (mkCopyState p e rc recd re)
| step_read n b more src recd re :
    (n < length b)%nat ->
    copy_step (mkCopyState (Writing b more src) None false recd re)
      (mkCopyState (Writing (drop n b) more src) None false (recd ++ take n b) re)
| step_read_all b more src recd re :
    copy_step (mkCopyState (Writing b more src) None false recd re)
      (mkCopyState (next_chunk more src).1 (next_chunk more src).2 false (recd ++ b) re)
| step_read_end p e recd re :
    copy_step (mkCopyState p (Some e) false recd re) (mkCopyState p (Some e) false recd (Some e))
| step_close p e recd re :
    copy_step (mkCopyState p e false recd re) (mkCopyState p e true recd re)
| step_write_fails b more src recd re :
    copy_step (mkCopyState (Writing b more src) None true recd re)
      (mkCopyState (Finished src) (Some EOF) true recd re).

(** ** The stream

    What the goroutine writes when all of it is read, and the error it closes
    its end with. *)
Fixpoint copy_stream (k : nat) (buf : gostring) (src : Src) : comp (gostring * error * Src) :=
  match k with
  | O => NoFuel
  | S k =>
      let? '((more, buf', err), src') := buildCopyBuf fuel rounds columns sd buf src in
      match err with
      | Some e => Done ([], e, src')
      | None =>
          match src_Err src' with
          | Some e => Done ([], e, src')
          | None =>
              if more then let? '(t, e, s) := copy_stream k [] src' in Done (buf' ++ t, e, s)
              else Done (buf', EOF, src')
          end
      end
  end.

(** What is still to come from a state of the goroutine. *)
Definition remaining (p : producer) (t : gostring) (e : error) (s : Src) : Prop :=
  match p with
  | Building buf src => exists k, copy_stream k buf src = Done (t, e, s)
  | Writing b true src => exists k t', copy_stream k [] src = Done (t', e, s) /\ t = b ++ t'
  | Writing b false src => t = b /\ e = EOF /\ src = s
  | Finished _ | Crashed _ => False
  end.

(** The invariant of the interleavings of the stream [t] that ends with [e]. *)
Definition delivering (t : gostring) (e : error) (s : Src) (c : copyState) : Prop :=
  match werr c with
  | None => exists t', t = received c ++ t' /\ remaining (prod c) t' e s /\ read_end c = None
  | Some e' =>
      (received c = t /\ e' = e /\ prod c = Finished s /\ (read_end c = None \/ read_end c = Some e))
      \/ (rclosed c = true /\ (exists src, prod c = Finished src) /\ received c `prefix_of` t /\ read_end c = None)
  end.

Lemma stream_next k (more : bool) (src : Src) t e s :
  (if more then exists t', copy_stream k [] src = Done (t', e, s) /\ t = t' else t = [] /\ e = EOF /\ src = s) ->
  forall rc recd t0, t0 = recd ++ t ->
  delivering t0 e s (mkCopyState (next_chunk more src).1 (next_chunk more src).2 rc recd None).
Proof.
  destruct more; unfold delivering; simpl.
  - intros (t' & E & ->) rc recd t0 ->. exists t'. split; [done|]. split; [by exists k|done].
  - intros (-> & -> & ->) rc recd t0 ->. left. rewrite app_nil_r. auto.
Qed.

Lemma fill_delivers buf src p e0 k t e s rc recd t0 :
  copy_stream k buf src = Done (t, e, s) -> fill buf src = Some (p, e0) -> t0 = recd ++ t ->
  delivering t0 e s (mkCopyState p e0 rc recd None).
Proof.
  destruct k as [|k]; [done|]. cbn [copy_stream]. unfold fill.
  destruct (buildCopyBuf fuel rounds columns sd buf src) as [[[[more buf'] [err|]] src']|msg|]; try done.
  { intros [= <- <- <-] [= <- <-] ->. left. rewrite app_nil_r. simpl. auto. }
  simpl. destruct (src_Err src') as [e1|].
  { intros [= <- <- <-] [= <- <-] ->. left. rewrite app_nil_r. simpl. auto. }
  intros E F Et. destruct (Nat.ltb_spec 0 (length buf')) as [Hl|Hl].
  - injection F as <- <-. exists t. split; [done|]. split; [|done]. destruct more; simpl.
    + destruct (copy_stream k [] src') as [[[t' e'] s']| |] eqn:E'; try done. injection E as <- -> ->. eauto.
    + injection E as <- <- <-. done.
  - destruct buf'; [|simpl in Hl; lia]. simpl in F.
    assert (p = (next_chunk more src').1 /\ e0 = (next_chunk more src').2) as [-> ->] by by injection F as ->.
    apply (stream_next k more src' t e s); [|done]. destruct more; [|by injection E as <- <- <-].
    destruct (copy_stream k [] src') as [[[t' e'] s']| |]; try done. injection E as <- -> ->. eauto.
Qed.

Lemma step_delivering t e s c c' : copy_step c c' -> delivering t e s c -> delivering t e s c'.
Proof.
  intros [buf src p e0 rc recd re F|n b more src recd re Hn|b more src recd re|p e0 recd re|p e0 recd re
    |b more src recd re].
  - intros (t' & Et & [k E] & Hre). simpl in *. subst re. by eapply fill_delivers.
  - intros (t' & Et & Hr & Hre). simpl in *. subst re. exists (drop n b ++ drop (length b) t').
    assert (exists t2, t' = b ++ t2) as [t2 ->].
    { destruct more; [destruct Hr as (k & t2 & _ & ->); by exists t2|destruct Hr as (-> & _)].
      exists []. by rewrite app_nil_r. }
    simpl. rewrite drop_app_length. split; [|split; [|done]].
    + rewrite Et, <- app_assoc. f_equal. by rewrite app_assoc, take_drop.
    + destruct more; [destruct Hr as (k & t3 & E & Eb)|destruct Hr as (Eb & -> & ->)].
      * apply app_inv_head in Eb as ->. eauto.
      * assert (t2 = []) as -> by (apply (app_inv_head b); by rewrite app_nil_r). by rewrite app_nil_r.
  - intros (t' & Et & Hr & Hre). simpl in *. subst re. destruct more.
    + destruct Hr as (k & t2 & E & ->). apply (stream_next k true src t2 e s); [eauto|]. by rewrite <- app_assoc.
    + destruct Hr as (-> & -> & ->). apply (stream_next 0 false s [] EOF s); [done|]. by rewrite app_nil_r.
  - intros [(E1 & -> & E3 & _)|([=] & _)]. left. simpl in *. auto.
  - destruct e0 as [e0|]; [|by intros (t' & ? & ? & ?); exists t'].
    intros [?|(E1 & E2)]; [by left|done].
  - intros (t' & -> & _ & Hre). right. simpl in *. split; [done|]. split; [eauto|]. split; [by eexists|done].
Qed.

Lemma delivering_init k src t e s :
  copy_stream k copy_header src = Done (t, e, s) -> delivering t e s (copy_init src).
Proof. intros E. exists t. split; [done|]. split; [by exists k|done]. Qed.

Lemma reachable_delivering k src t e s c :
  copy_stream k copy_header src = Done (t, e, s) -> rtc copy_step (copy_init src) c -> delivering t e s c.
Proof.
  intros E%delivering_init R. revert E. generalize dependent (copy_init src). intros c0.
  induction 1; eauto using step_delivering.
Qed.

Lemma delivering_prefix t e s c :
  delivering t e s c ->
  received c `prefix_of` t /\ (forall e', read_end c = Some e' -> received c = t /\ e' = e).
Proof.
  unfold delivering. destruct (werr c) as [e0|].
  - intros [(-> & _ & _ & Hr)|(_ & _ & Hp & Hr)].
    + split; [done|]. intros e' E. rewrite E in Hr. by destruct Hr as [[=]|[= ->]].
    + split; [done|]. by rewrite Hr.
  - intros (t' & -> & _ & Hr). split; [by eexists|]. by rewrite Hr.
Qed.

(** ** A reader that reads to the end *)

(** The run in which every chunk is read at once. *)
Lemma read_to_end k buf src recd t e s :
  copy_stream k buf src = Done (t, e, s) ->
  rtc copy_step (mkCopyState (Building buf src) None false recd None)
    (mkCopyState (Finished s) (Some e) false (recd ++ t) (Some e)).
Proof.
  revert buf src recd t. induction k as [|k IH]; intros buf src recd t; [done|]. cbn [copy_stream].
  assert (forall p o, fill buf src = Some (p, o) ->
    copy_step (mkCopyState (Building buf src) None false recd None) (mkCopyState p o false recd None)) as Hf.
  { intros p o. apply step_fill. }
  assert (forall r1 r2 e', r1 = r2 -> rtc copy_step (mkCopyState (Finished s) (Some e') false r1 None)
    (mkCopyState (Finished s) (Some e') false r2 (Some e'))) as Hend.
  { intros r1 r2 e' ->. apply rtc_once, step_read_end. }
  unfold fill in Hf.
  destruct (buildCopyBuf fuel rounds columns sd buf src) as [[[[more buf'] [err|]] src']|msg|]; try done; simpl.
  { intros [= <- <- <-]. eapply rtc_l; [by apply Hf|]. apply Hend. by rewrite app_nil_r. }
  destruct (src_Err src') as [e1|].
  { intros [= <- <- <-]. eapply rtc_l; [by apply Hf|]. apply Hend. by rewrite app_nil_r. }
  assert (rtc copy_step (mkCopyState (Building buf src) None false recd None)
    (mkCopyState (next_chunk more src').1 (next_chunk more src').2 false (recd ++ buf') None)) as Hc.
  { destruct (Nat.ltb_spec 0 (length buf')).
    - eapply rtc_l; [by apply Hf|]. apply rtc_once, step_read_all.
    - destruct buf'; [|simpl in *; lia]. rewrite app_nil_r. apply rtc_once, Hf. by destruct (next_chunk _ _). }
  intros E. etrans; [exact Hc|]. destruct more; simpl.
  - destruct (copy_stream k [] src') as [[[t' e'] s']| |] eqn:E'; try done. injection E as <- -> ->.
    rewrite app_assoc. by apply IH.
  - injection E as <- <- <-. by apply Hend.
Qed.

End CopyPipe.

(** ** Agreement with the sequence of writes *)

Section Sequential.
Context `{PgTypes} `{PgConn} `{!PgDecoders} `{CopyFromSource Src}.
Context (fuel columns : nat) (sd : StatementDescription).

(** When the reading end takes every chunk, [copy_chunks] writes the stream. *)
Lemma copy_chunks_stream k buf src t e s w :
  accepting -> copy_stream fuel fuel columns sd k buf src = Done (t, e, s) ->
  exists failed chunks w', copy_chunks fuel k columns sd buf src w = Ok (failed, s) w'
    /\ requests (trace w') = requests (trace w) ++ map RCopyWrite chunks
    /\ concat chunks = t /\ default EOF failed = e.
Proof.
  intros Hacc. revert buf src t w. induction k as [|k IH]; intros buf src t w; [done|].
  cbn [copy_stream copy_chunks]. unfold bind, lift.
  destruct (buildCopyBuf fuel fuel columns sd buf src) as [[[[more buf'] [err|]] src']|msg|]; try done; cbn [comp_bind]; cbv beta iota.
  { intros [= <- <- <-]. exists (Some err), [], w. rewrite app_nil_r. done. }
  destruct (src_Err src') as [e1|].
  { intros [= <- <- <-]. exists (Some e1), [], w. rewrite app_nil_r. done. }
  intros E. destruct (write_chunk buf' w Hacc) as (w1 & c1 & Ew & T1 & C1). rewrite Ew.
  destruct more.
  - destruct (copy_stream fuel fuel columns sd k [] src') as [[[t' e'] s']| |] eqn:E'; try done.
    injection E as <- -> ->. destruct (IH [] src' t' w1 E') as (failed & c2 & w2 & -> & T2 & C2 & Ee).
    exists failed, (c1 ++ c2), w2. by rewrite T2, T1, map_app, <- app_assoc, concat_app, C1, C2.
  - injection E as <- <- <-. exists None, c1, w1. done.
Qed.

(** C17. However the goroutine and the reader are interleaved, what the reader has
    got is a beginning of the stream that the sequence of writes sends, and it
    sees the end of the stream, and the error it is closed with, only after all
    of it; a reader that reads to the end gets there. *)
Theorem copy_pipe_delivers k src t e s w :
  accepting -> copy_stream fuel fuel columns sd k copy_header src = Done (t, e, s) ->
  (forall c, rtc (copy_step fuel fuel columns sd) (copy_init src) c ->
     received c `prefix_of` t /\ (forall e', read_end c = Some e' -> received c = t /\ e' = e))
  /\ rtc (copy_step fuel fuel columns sd) (copy_init src) (mkCopyState (Finished s) (Some e) false t (Some e))
  /\ exists failed chunks w', copy_chunks fuel k columns sd copy_header src w = Ok (failed, s) w'
       /\ requests (trace w') = requests (trace w) ++ map RCopyWrite chunks
       /\ concat chunks = t /\ default EOF failed = e.
Proof.
  intros Hacc E. split; [|split].
  - intros c R. by eapply delivering_prefix, reachable_delivering.
  - by apply (read_to_end _ _ _ _ k _ _ []).
  - by apply copy_chunks_stream.
Qed.

(** A source that reports [io.EOF] as its error, or as the error of a row, ends
    the stream as if it were complete: the reader sees the same end as after
    the last row, and the rows in the buffer are missing. *)
Theorem eof_error_ends_normally src src1 src2 row :
  src_Next src = (true, src1) -> src_Values src1 = Done ((row, Some EOF), src2) ->
  forall f, fuel = S f ->
  rtc (copy_step fuel fuel columns sd) (copy_init src) (mkCopyState (Finished src2) (Some EOF) false [] (Some EOF)).
Proof.
  intros HN HV f ->. apply (read_to_end _ _ _ _ 1 _ _ []). cbn [copy_stream buildCopyBuf].
  rewrite HN, HV. done.
Qed.
End Sequential.

(** ** The goroutine ends *)

Section Ending.
Context `{PgTypes} {Laws : PgTypesLaws} `{CopyFromSource Src}.
Context (fuel rounds columns : nat) (sd : StatementDescription).

(** The calls to a source in the states [I], and the encoding of its values,
    return. *)
Definition source_returns (I : Src -> Prop) : Prop :=
  forall s, I s -> I (src_Next s).2 /\
    match src_Values s with
    | Done ((row, err), s') => I s' /\ (err = None -> forall buf, encode_fields fuel buf (Fields sd) row <> NoFuel)
    | Crash _ => True
    | NoFuel => False
    end.

Context (I : Src -> Prop).

Lemma buildCopyBuf_source k buf src r src' :
  source_returns I -> I src -> buildCopyBuf fuel k columns sd buf src = Done (r, src') -> I src'.
Proof.
  intros Hs. revert buf src. induction k as [|k IH]; intros buf src Hi; [done|]. cbn [buildCopyBuf].
  destruct (Hs _ Hi) as [Hn _]. destruct (src_Next src) as [[] src1]; [|by intros [= _ <-]]. simpl in Hn.
  destruct (Hs _ Hn) as [_ Hv]. destruct (src_Values src1) as [[[row err] src2]|msg|]; try done. destruct Hv as [Hi2 _].
  cbn [comp_bind]. destruct err; [by intros [= _ <-]|]. destruct (negb _); [by intros [= _ <-]|].
  destruct (encode_fields fuel _ (Fields sd) row) as [[e|b]|msg|]; try done; cbn [comp_bind]; [by intros [= _ <-]|].
  destruct (_ <? _); [by intros [= _ <-]|]. by apply IH.
Qed.

(** Every row is at least two bytes long, so a chunk is full after 32768 rows,
    however many the source has. *)
Lemma buildCopyBuf_returns k buf src :
  source_returns I -> I src -> Z.of_nat (length buf) <= 65536 -> 65536 < Z.of_nat (length buf) + 2 * Z.of_nat k ->
  buildCopyBuf fuel k columns sd buf src <> NoFuel.
Proof.
  intros Hs. revert buf src. induction k as [|k IH]; intros buf src Hi Hb Hk; [lia|]. cbn [buildCopyBuf].
  destruct (Hs _ Hi) as [Hn _]. destruct (src_Next src) as [[] src1]; [|done]. simpl in Hn.
  destruct (Hs _ Hn) as [_ Hv].
  destruct (src_Values src1) as [[[row [e|]] src2]|msg|]; [done| |done|done]. destruct Hv as [Hi2 Hv]. cbn [comp_bind].
  destruct (negb _); [done|].
  destruct (encode_fields fuel _ (Fields sd) row) as [[e|buf']|msg|] eqn:E; [done| |done|by destruct (Hv eq_refl _ E)].
  cbn [comp_bind]. apply (encode_fields_local fuel) in E as (t & -> & _).
  destruct (Z.ltb_spec 65536 (Z.of_nat (length (AppendInt16 buf (int16 (Z.of_nat columns)) ++ t)))) as [|Hle];
    [done|].
  rewrite AppendInt16_be, !length_app in Hle. simpl in Hle.
  apply IH; [done|rewrite AppendInt16_be, !length_app; simpl; lia..].
Qed.

(** A chunk after which there may be more rows is full. *)
Lemma buildCopyBuf_full k buf src buf' src' :
  buildCopyBuf fuel k columns sd buf src = Done ((true, buf', None), src') -> 65536 < Z.of_nat (length buf').
Proof.
  revert buf src. induction k as [|k IH]; intros buf src; [done|]. cbn [buildCopyBuf].
  destruct (src_Next src) as [[] src1]; [|done].
  destruct (src_Values src1) as [[[row [e|]] src2]|msg|]; try done. cbn [comp_bind].
  destruct (negb _); [done|].
  destruct (encode_fields fuel _ (Fields sd) row) as [[e|b]|msg|]; try done. cbn [comp_bind].
  destruct (Z.ltb_spec 65536 (Z.of_nat (length b))); [|apply IH]. by intros [= <- <-].
Qed.

(** The reachable states: an open writing end while the goroutine works, and a
    buffer that is not full when it is filled. *)
Definition copy_wf (c : @copyState Src) : Prop :=
  match prod c with
  | Building buf src => werr c = None /\ Z.of_nat (length buf) <= 65536 /\ I src
  | Writing _ _ src => werr c = None /\ I src
  | Finished _ | Crashed _ => True
  end.

(** What the goroutine still does once nobody reads. *)
Definition left_to_do (c : @copyState Src) : nat :=
  match prod c with
  | Building _ _ => 2
  | Writing _ _ _ => 1
  | Finished _ | Crashed _ => 0
  end.

Abbreviation step := (copy_step fuel rounds columns sd).

Lemma fill_cases buf src p e :
  source_returns I -> I src -> fill fuel rounds columns sd buf src = Some (p, e) ->
  match p with
  | Building _ _ => False
  | Writing _ _ src' => e = None /\ I src'
  | Finished _ | Crashed _ => True
  end.
Proof.
  intros Hs Hi. unfold fill.
  destruct (buildCopyBuf fuel rounds columns sd buf src) as [[[[more b] [err|]] src']|msg|] eqn:E; try by intros [= <- <-].
  apply (buildCopyBuf_source _ _ _ _ _ Hs Hi) in E as Hi'.
  destruct (src_Err src'); [by intros [= <- <-]|].
  destruct (Nat.ltb_spec 0 (length b)); [by intros [= <- <-]|].
  destruct more; [apply buildCopyBuf_full in E; lia|]. by intros [= <- <-].
Qed.

Lemma step_wf c c' : source_returns I -> step c c' -> copy_wf c -> copy_wf c'.
Proof.
  intros Hs [buf src p e rc recd re F|n b more src recd re Hn|b more src recd re|p e recd re|p e recd re
    |b more src recd re] Hc; try done.
  - destruct Hc as (_ & _ & Hi). apply (fill_cases _ _ _ _ Hs Hi) in F. unfold copy_wf. simpl. by destruct p.
  - destruct more; [|done]. destruct Hc as [_ Hi]. split_and!; simpl; [done|lia|done].
Qed.

Lemma reachable_wf src c : source_returns I -> I src -> rtc step (copy_init src) c -> copy_wf c.
Proof.
  intros Hs Hsrc. assert (copy_wf (copy_init src)) as Hi.
  { split; [done|]. split; [|done]. unfold copy_header. rewrite !AppendInt32_be, !length_app. simpl. lia. }
  revert Hi. generalize (copy_init src). induction 2; eauto using step_wf.
Qed.

Lemma closed_step c c' :
  source_returns I -> step c c' -> copy_wf c -> rclosed c = true ->
  rclosed c' = true /\ (left_to_do c' < left_to_do c)%nat.
Proof.
  intros Hs [buf src p e rc recd re F|n b more src recd re Hn|b more src recd re|p e recd re|p e recd re
    |b more src recd re] Hc Hr; simpl in Hr |- *; try done.
  - split; [done|]. destruct Hc as (_ & _ & Hi). apply (fill_cases _ _ _ _ Hs Hi) in F.
    unfold left_to_do. simpl. by destruct p; try lia.
  - split; [done|]. unfold left_to_do. simpl. lia.
Qed.

Lemma closed_steps n c c' :
  source_returns I -> nsteps step n c c' -> copy_wf c -> rclosed c = true -> rclosed c' = true /\ (n + left_to_do c' <= left_to_do c)%nat.
Proof.
  intros Hs. induction 1 as [|n x y z Hst _ IH]; intros Hw Hr; [split; [done|lia]|].
  destruct (closed_step _ _ Hs Hst Hw Hr) as [Hr' Hl]. apply (step_wf _ _ Hs Hst) in Hw.
  destruct (IH Hw Hr') as [? ?]. split; [done|lia].
Qed.

Lemma closed_progress c :
  source_returns I -> 32769 <= Z.of_nat rounds -> copy_wf c -> rclosed c = true -> (0 < left_to_do c)%nat ->
  exists c', step c c'.
Proof.
  destruct c as [p e rc recd re]. intros Hs Hk Hw Hr Hl. simpl in *. subst rc.
  destruct p as [buf src|b more src| |]; unfold left_to_do in Hl; simpl in Hl; try lia.
  - destruct Hw as (He & Hb & Hi). simpl in He. subst e. pose proof (buildCopyBuf_returns rounds buf src Hs Hi Hb ltac:(lia)) as Hn.
    destruct (fill fuel rounds columns sd buf src) as [[p e]|] eqn:F.
    + eexists. by apply step_fill.
    + unfold fill in F. by destruct (buildCopyBuf fuel rounds columns sd buf src) as [[[[? ?] ?] ?]| |].
  - destruct Hw as [He _]. simpl in He. subst e. eexists. apply step_write_fails.
Qed.

(** C18. Once the reading end is closed the goroutine ends, so that [CopyFrom],
    which waits for it, returns: every run from there has at most two steps,
    and one that cannot go on has closed [doneChan], unless a value panicked.
    This holds for every source, also one whose rows never end. *)
Theorem copy_goroutine_ends src c :
  source_returns I -> I src -> 32769 <= Z.of_nat rounds ->
  rtc step (copy_init src) c -> rclosed c = true ->
  (forall n c', nsteps step n c c' -> (n <= 2)%nat)
  /\ (forall c', rtc step c c' -> (forall c2, ~ step c' c2) ->
        match prod c' with Finished _ | Crashed _ => True | _ => False end).
Proof.
  intros Hs Hi Hk R Hr. pose proof (reachable_wf _ _ Hs Hi R) as Hwf. split.
  - intros n c' Hn. destruct (closed_steps _ _ _ Hs Hn Hwf Hr) as [_ Hl]. unfold left_to_do at 2 in Hl.
    destruct (prod c); lia.
  - intros c' R' Hstuck. apply rtc_nsteps in R' as Hn. destruct Hn as [n Hn].
    destruct (closed_steps _ _ _ Hs Hn Hwf Hr) as [Hr' _].
    assert (copy_wf c') as Hw by (eapply reachable_wf; [done|done|by etrans]).
    destruct (decide (left_to_do c' = 0)%nat) as [E|E].
    + unfold left_to_do in E. by destruct (prod c').
    + destruct (closed_progress c' Hs Hk Hw Hr') as [c2 Hc2]; [lia|]. by destruct (Hstuck c2).
Qed.
End Ending.

(** ** The hypotheses can hold *)

#[local] Existing Instance Sample.types.
#[local] Existing Instance Sample.laws.
#[local] Existing Instance Toy.pgconn.
#[local] Existing Instance Toy.decoders.

Definition one_column : StatementDescription := mkSD [] select_n [] Toy.columns.
Definition copied_stream : gostring :=
  copy_header ++ (be16 1 ++ be32 4 ++ be32 7) ++ (be16 1 ++ be32 (-1)).

Lemma copy_pipe_delivers_witness :
  rtc (copy_step 5 5 1 one_column) (copy_init (CopyFromRows copied_rows))
    (mkCopyState (Finished (mkCopyFromRows copied_rows 2)) (Some EOF) false copied_stream (Some EOF)).
Proof.
  refine (proj1 (proj2 (copy_pipe_delivers 5 1 one_column 2 (CopyFromRows copied_rows) copied_stream EOF
    (mkCopyFromRows copied_rows 2) (Toy.start_world false) _ _))); [intros c n; reflexivity|vm_compute; reflexivity].
Defined.

Lemma copied_rows_return :
  source_returns 5 one_column (fun s => cfr_rows s = copied_rows).
Proof.
  intros [rows idx] E. simpl in E. subst rows. split; [reflexivity|]. simpl.
  destruct (go_index copied_rows idx) as [row|] eqn:E; simpl; [|done]. split; [done|]. intros _ buf.
  apply go_index_Ret in E as [_ E%list_elem_of_lookup_2]. unfold copied_rows in E. rewrite !elem_of_cons, elem_of_nil in E.
  assert (exists d, encode_fields 5 [] (Fields one_column) row = Done (inr d)) as [d Hd].
  { destruct E as [->|[->|[]]]; eexists; vm_compute; reflexivity. }
  apply (encode_fields_local 5) in Hd as (t & _ & Ht). by rewrite Ht.
Qed.

Definition abandoned : @copyState copyFromRows :=
  mkCopyState (Building copy_header (CopyFromRows copied_rows)) None true [] None.

Lemma copy_goroutine_ends_witness :
  rclosed abandoned = true
  /\ forall n c', nsteps (copy_step 5 (Z.to_nat 32769) 1 one_column) n abandoned c' -> (n <= 2)%nat.
Proof.
  split; [reflexivity|].
  refine (proj1 (copy_goroutine_ends 5 (Z.to_nat 32769) 1 one_column (fun s => cfr_rows s = copied_rows)
    (CopyFromRows copied_rows) abandoned copied_rows_return eq_refl _ _ eq_refl)).
  - rewrite Z2Nat.id; lia.
  - apply rtc_once, step_close.
Defined.
