(* ===== verification/Tx.v ===== *)
(** Transactions (tx.go): beginning with options, commit and rollback, and
    nested transactions as savepoints. *)

From S2P Require Import Prelude GoStd GoVal Effects Values PgConn Logger World Toy Rows Config Conn Batch CopyFrom.

Local Open Scope Z_scope.

(** ** Options *)

Definition Serializable : gostring := str "serializable".
Definition RepeatableRead : gostring := str "repeatable read".
Definition ReadCommitted : gostring := str "read committed".
Definition ReadUncommitted : gostring := str "read uncommitted".
Definition ReadWrite : gostring := str "read write".
Definition ReadOnly : gostring := str "read only".
Definition Deferrable : gostring := str "deferrable".
Definition NotDeferrable : gostring := str "not deferrable".

Record TxOptions := mkTxOptions {
  IsoLevel : gostring;
  AccessMode : gostring;
  DeferrableMode : gostring
}.

#[export] Instance TxOptions_eq_dec : EqDecision TxOptions.
Proof. solve_decision. Defined.

Definition emptyTxOptions : TxOptions := mkTxOptions [] [] [].

Definition beginSQL (o : TxOptions) : gostring :=
  if bool_decide (o = emptyTxOptions) then str "begin"
  else
    str "begin"
    ++ (if bool_decide (IsoLevel o = []) then [] else str " isolation level " ++ IsoLevel o)
    ++ (if bool_decide (AccessMode o = []) then [] else str " " ++ AccessMode o)
    ++ (if bool_decide (DeferrableMode o = []) then [] else str " " ++ DeferrableMode o).

(** ** Transactions *)

(** A [Tx] is a real transaction or a savepoint of one. *)
Inductive Tx :=
| RealTx (t : nat)
| Savepoint (s : nat).

Section Tx.
Context `{PgTypes} `{PgConn} `{!PgDecoders}.
Context (fuel : nat).

Definition read_tx : nat -> M world dbTx := read_at txs.
Definition write_tx (t : nat) (x : dbTx) : M world unit :=
  modify (fun w => set_txs (<[t := x]> (txs w)) w).
Definition new_tx (x : dbTx) : M world nat := fun w => Ok (length (txs w)) (set_txs (txs w ++ [x]) w).

Definition read_sp : nat -> M world dbSavepoint := read_at sps.
Definition write_sp (s : nat) (x : dbSavepoint) : M world unit :=
  modify (fun w => set_sps (<[s := x]> (sps w)) w).
Definition new_sp (x : dbSavepoint) : M world nat := fun w => Ok (length (sps w)) (set_sps (sps w ++ [x]) w).

(** [tx.closed = true] *)
Definition close_tx (t : nat) : M world unit :=
  let* x := read_tx t in write_tx t (mkDbTx (tx_savepointNum x) true).
Definition close_sp (s : nat) : M world unit :=
  let* x := read_sp s in write_sp s (mkDbSavepoint (sp_tx x) (sp_savepointNum x) true).

Definition BeginTx (ctx : context) (o : TxOptions) : M world (error + nat) :=
  let* '(_, err) := Conn_Exec fuel ctx (beginSQL o) [] in
  match err with
  | Some e => die ;;; ret (inl e)
  | None => let* t := new_tx (mkDbTx 0 false) in ret (inr t)
  end.

Definition Begin (ctx : context) : M world (error + nat) := BeginTx ctx emptyTxOptions.

Definition tx_Commit (ctx : context) (t : nat) : M world (option error) :=
  let* x := read_tx t in
  if tx_closed x then ret (Some ErrTxClosed)
  else
    let* '(tag, err) := Conn_Exec fuel ctx (str "commit") [] in
    close_tx t ;;;
    match err with
    | Some e =>
        let* status := observe TxStatus in
        (if bool_decide (status = "I"%char) then ret tt
         else let* _ := Conn_Close ctx in ret tt) ;;;
        ret (Some e)
    | None => ret (if bool_decide (tag = str "ROLLBACK") then Some ErrTxCommitRollback else None)
    end.

Definition tx_Rollback (ctx : context) (t : nat) : M world (option error) :=
  let* x := read_tx t in
  if tx_closed x then ret (Some ErrTxClosed)
  else
    let* '(_, err) := Conn_Exec fuel ctx (str "rollback") [] in
    close_tx t ;;;
    match err with
    | Some e => die ;;; ret (Some e)
    | None => ret None
    end.

Definition savepoint_name (n : Z) : gostring := str "sp_" ++ FormatInt n.

(** [dbTx.Begin] *)
Definition tx_Begin (ctx : context) (t : nat) : M world (error + nat) :=
  let* x := read_tx t in
  if tx_closed x then ret (inl ErrTxClosed)
  else
    write_tx t (mkDbTx (int64 (tx_savepointNum x + 1)) (tx_closed x)) ;;;
    let* '(_, err) := Conn_Exec fuel ctx
      (str "savepoint " ++ savepoint_name (int64 (tx_savepointNum x + 1))) [] in
    match err with
    | Some e => ret (inl e)
    | None =>
        let* x' := read_tx t in
        let* s := new_sp (mkDbSavepoint t (tx_savepointNum x') false) in
        ret (inr s)
    end.

Definition tx_Exec (ctx : context) (t : nat) (sql : gostring) (args : list goval)
  : M world (CommandTag * option error) :=
  let* _ := read_tx t in Conn_Exec fuel ctx sql args.

Definition tx_Prepare (ctx : context) (t : nat) (name sql : gostring) : M world (error + StatementDescription) :=
  let* x := read_tx t in
  if tx_closed x then ret (inl ErrTxClosed) else Conn_Prepare ctx name sql.

Definition tx_Query (ctx : context) (t : nat) (sql : gostring) (args : list goval)
  : M world (nat * option error) :=
  let* x := read_tx t in
  if tx_closed x then let* p := new_rows (closedRows ErrTxClosed) in ret (p, Some ErrTxClosed)
  else Conn_Query fuel ctx sql args.

Definition tx_QueryRow (ctx : context) (t : nat) (sql : gostring) (args : list goval) : M world nat :=
  let* '(p, _) := tx_Query ctx t sql args in ret p.

Definition tx_QueryFunc (ctx : context) (t : nat) (sql : gostring) (args scans : list goval)
    (f : nat -> M world (option error)) : M world (CommandTag * option error) :=
  let* x := read_tx t in
  if tx_closed x then ret ([], Some ErrTxClosed) else Conn_QueryFunc fuel ctx sql args scans f.

Definition tx_SendBatch (ctx : context) (t : nat) (b : nat) : M world nat :=
  let* x := read_tx t in
  if tx_closed x then new_br (mkBatchResults Background false None (Some ErrTxClosed) None 0)
  else SendBatch fuel ctx b.

Definition tx_CopyFrom `{CopyFromSource Src} (ctx : context) (t : nat) (tableName columnNames : list gostring)
    (src : Src) : M world (Z * option error * Src) :=
  let* x := read_tx t in
  if tx_closed x then ret (0, Some ErrTxClosed, src)
  else Conn_CopyFrom fuel ctx tableName columnNames src.

(** ** Savepoints *)

Definition sp_Exec (ctx : context) (s : nat) (sql : gostring) (args : list goval)
  : M world (CommandTag * option error) :=
  let* x := read_sp s in
  if sp_closed x then ret ([], Some ErrTxClosed) else tx_Exec ctx (sp_tx x) sql args.

Definition sp_Begin (ctx : context) (s : nat) : M world (error + nat) :=
  let* x := read_sp s in
  if sp_closed x then ret (inl ErrTxClosed) else tx_Begin ctx (sp_tx x).

Definition sp_Commit (ctx : context) (s : nat) : M world (option error) :=
  let* x := read_sp s in
  if sp_closed x then ret (Some ErrTxClosed)
  else
    let* '(_, err) := sp_Exec ctx s (str "release savepoint " ++ savepoint_name (sp_savepointNum x)) [] in
    close_sp s ;;;
    ret err.

Definition sp_Rollback (ctx : context) (s : nat) : M world (option error) :=
  let* x := read_sp s in
  if sp_closed x then ret (Some ErrTxClosed)
  else
    let* '(_, err) := sp_Exec ctx s (str "rollback to savepoint " ++ savepoint_name (sp_savepointNum x)) [] in
    close_sp s ;;;
    ret err.

Definition sp_Prepare (ctx : context) (s : nat) (name sql : gostring) : M world (error + StatementDescription) :=
  let* x := read_sp s in
  if sp_closed x then ret (inl ErrTxClosed) else tx_Prepare ctx (sp_tx x) name sql.

Definition sp_Query (ctx : context) (s : nat) (sql : gostring) (args : list goval)
  : M world (nat * option error) :=
  let* x := read_sp s in
  if sp_closed x then let* p := new_rows (closedRows ErrTxClosed) in ret (p, Some ErrTxClosed)
  else tx_Query ctx (sp_tx x) sql args.

Definition sp_QueryRow (ctx : context) (s : nat) (sql : gostring) (args : list goval) : M world nat :=
  let* '(p, _) := sp_Query ctx s sql args in ret p.

Definition sp_QueryFunc (ctx : context) (s : nat) (sql : gostring) (args scans : list goval)
    (f : nat -> M world (option error)) : M world (CommandTag * option error) :=
  let* x := read_sp s in
  if sp_closed x then ret ([], Some ErrTxClosed) else tx_QueryFunc ctx (sp_tx x) sql args scans f.

Definition sp_SendBatch (ctx : context) (s : nat) (b : nat) : M world nat :=
  let* x := read_sp s in
  if sp_closed x then new_br (mkBatchResults Background false None (Some ErrTxClosed) None 0)
  else tx_SendBatch ctx (sp_tx x) b.

Definition sp_CopyFrom `{CopyFromSource Src} (ctx : context) (s : nat) (tableName columnNames : list gostring)
    (src : Src) : M world (Z * option error * Src) :=
  let* x := read_sp s in
  if sp_closed x then ret (0, Some ErrTxClosed, src)
  else tx_CopyFrom ctx (sp_tx x) tableName columnNames src.

(** ** The interface [Tx] *)

Definition Commit (ctx : context) (tx : Tx) : M world (option error) :=
  match tx with RealTx t => tx_Commit ctx t | Savepoint s => sp_Commit ctx s end.
Definition Rollback (ctx : context) (tx : Tx) : M world (option error) :=
  match tx with RealTx t => tx_Rollback ctx t | Savepoint s => sp_Rollback ctx s end.
Definition Tx_Begin (ctx : context) (tx : Tx) : M world (error + nat) :=
  match tx with RealTx t => tx_Begin ctx t | Savepoint s => sp_Begin ctx s end.
Definition Tx_Exec (ctx : context) (tx : Tx) (sql : gostring) (args : list goval)
  : M world (CommandTag * option error) :=
  match tx with RealTx t => tx_Exec ctx t sql args | Savepoint s => sp_Exec ctx s sql args end.
Definition Tx_QueryRow (ctx : context) (tx : Tx) (sql : gostring) (args : list goval) : M world nat :=
  match tx with RealTx t => tx_QueryRow ctx t sql args | Savepoint s => sp_QueryRow ctx s sql args end.

(** The deferred function of the three [BeginFunc]s. *)
Definition deferred_rollback (ctx : context) (tx : Tx) (err : option error) : M world (option error) :=
  let* rollbackErr := Rollback ctx tx in
  ret match rollbackErr with
      | Some e => if errors_Is e ErrTxClosed then err else Some e
      | None => err
      end.

(** What they do with the transaction once it is begun. *)
Definition run_in_tx (ctx : context) (tx : Tx) (f : Tx -> M world (option error)) : M world (option error) :=
  defer None (deferred_rollback ctx tx)
    (let* fErr := f tx in
     match fErr with
     | Some _ => Rollback ctx tx ;;; ret fErr
     | None => Commit ctx tx
     end).

Definition BeginTxFunc (ctx : context) (o : TxOptions) (f : Tx -> M world (option error))
  : M world (option error) :=
  let* r := BeginTx ctx o in
  match r with
  | inl e => ret (Some e)
  | inr t => run_in_tx ctx (RealTx t) f
  end.

Definition BeginFunc (ctx : context) (f : Tx -> M world (option error)) : M world (option error) :=
  BeginTxFunc ctx emptyTxOptions f.

Definition tx_BeginFunc (ctx : context) (t : nat) (f : Tx -> M world (option error)) : M world (option error) :=
  let* x := read_tx t in
  if tx_closed x then ret (Some ErrTxClosed)
  else
    let* r := tx_Begin ctx t in
    match r with
    | inl e => ret (Some e)
    | inr s => run_in_tx ctx (Savepoint s) f
    end.

Definition sp_BeginFunc (ctx : context) (s : nat) (f : Tx -> M world (option error)) : M world (option error) :=
  let* x := read_sp s in
  if sp_closed x then ret (Some ErrTxClosed) else tx_BeginFunc ctx (sp_tx x) f.

(** ** Frames *)

(** What a program that uses the transactions through their methods keeps: no
    object disappears, and what is closed stays closed. *)
Definition tx_later (x x' : dbTx) : Prop := tx_closed x = true -> tx_closed x' = true.
Definition sp_later (x x' : dbSavepoint) : Prop :=
  sp_tx x' = sp_tx x /\ sp_savepointNum x' = sp_savepointNum x
  /\ (sp_closed x = true -> sp_closed x' = true).

Lemma tx_later_refl x : tx_later x x.
Proof. by unfold tx_later. Qed.
Lemma sp_later_refl x : sp_later x x.
Proof. by repeat split. Qed.
#[local] Hint Resolve tx_later_refl sp_later_refl : core.

Definition tx_frame (w w' : world) : Prop :=
  trace_grows w w' /\ same_setup w w'
  /\ (forall t x, txs w !! t = Some x -> exists x', txs w' !! t = Some x' /\ tx_later x x')
  /\ (forall s x, sps w !! s = Some x -> exists x', sps w' !! s = Some x' /\ sp_later x x').

#[local] Instance tx_frame_preorder : PreOrder tx_frame.
Proof.
  split.
  - intros w. split; [reflexivity|]. split; [reflexivity|].
    split; intros k x E; exists x; auto.
  - intros a b c (T1&S1&X1&P1) (T2&S2&X2&P2). split; [by etrans|]. split; [by etrans|]. split.
    + intros t x E. destruct (X1 t x E) as (y & Ey & L1). destruct (X2 t y Ey) as (z & Ez & L2).
      exists z. split; [done|]. unfold tx_later in *. auto.
    + intros k x E. destruct (P1 k x E) as (y & Ey & ? & ? & L1).
      destruct (P2 k y Ey) as (z & Ez & ? & ? & L2).
      exists z. split; [done|]. repeat split; [congruence..|auto].
Qed.

Lemma conn_tx_frame w w' : conn_frame w w' -> tx_frame w w'.
Proof.
  intros (T & [Ht Hs] & S). split; [done|]. split; [done|]. rewrite Ht, Hs.
  split; intros k x E; exists x; auto.
Qed.

Lemma keeps_conn {A} (m : M world A) : keeps conn_frame m -> keeps tx_frame m.
Proof. intros Hm w. specialize (Hm w). destruct (m w); auto using conn_tx_frame. Qed.

Lemma keeps_read_heap {A} (heap : world -> list A) p : keeps tx_frame (read_at heap p).
Proof. apply keeps_conn, keeps_read_at. Qed.

Lemma write_tx_frame w t x x' :
  txs w !! t = Some x -> tx_later x x' -> tx_frame w (set_txs (<[t := x']> (txs w)) w).
Proof.
  intros E L. split; [exists []; by rewrite app_nil_r|]. split; [by repeat split|]. split.
  - intros u y Ey. simpl. destruct (decide (u = t)) as [->|Hn].
    + exists x'. rewrite list_lookup_insert_eq by by eapply lookup_lt_Some.
      rewrite E in Ey. by injection Ey as <-.
    + exists y. rewrite list_lookup_insert_ne by done. auto.
  - intros u y Ey. exists y. auto.
Qed.

Lemma write_sp_frame w s x x' :
  sps w !! s = Some x -> sp_later x x' -> tx_frame w (set_sps (<[s := x']> (sps w)) w).
Proof.
  intros E L. split; [exists []; by rewrite app_nil_r|]. split; [by repeat split|]. split.
  - intros u y Ey. exists y. auto.
  - intros u y Ey. simpl. destruct (decide (u = s)) as [->|Hn].
    + exists x'. rewrite list_lookup_insert_eq by by eapply lookup_lt_Some.
      rewrite E in Ey. by injection Ey as <-.
    + exists y. rewrite list_lookup_insert_ne by done. auto.
Qed.

Lemma keeps_new_tx x : keeps tx_frame (new_tx x).
Proof.
  intros w. simpl. split; [exists []; by rewrite app_nil_r|]. split; [by repeat split|]. split.
  - intros u y Ey. exists y. split; [by apply lookup_app_l_Some|auto].
  - intros u y Ey. exists y. auto.
Qed.

Lemma keeps_new_sp x : keeps tx_frame (new_sp x).
Proof.
  intros w. simpl. split; [exists []; by rewrite app_nil_r|]. split; [by repeat split|]. split.
  - intros u y Ey. exists y. auto.
  - intros u y Ey. exists y. split; [by apply lookup_app_l_Some|auto].
Qed.

Lemma keeps_close_tx t : keeps tx_frame (close_tx t).
Proof.
  intros w. unfold close_tx, bind, read_tx, read_at. destruct (txs w !! t) as [x|] eqn:E; [|reflexivity].
  by eapply write_tx_frame.
Qed.

Lemma keeps_close_sp s : keeps tx_frame (close_sp s).
Proof.
  intros w. unfold close_sp, bind, read_sp, read_at. destruct (sps w !! s) as [x|] eqn:E; [|reflexivity].
  eapply write_sp_frame; [done|]. by repeat split.
Qed.

#[local] Hint Resolve keeps_read_heap keeps_new_tx keeps_new_sp keeps_close_tx keeps_close_sp : keeps.
#[local] Hint Extern 3 (keeps tx_frame _) => (apply keeps_conn; solve [eauto 2 with keeps]) : keeps.

Lemma keeps_BeginTx ctx o : keeps tx_frame (BeginTx ctx o).
Proof. unfold BeginTx. keeps_tac. Qed.

Lemma keeps_tx_Commit ctx t : keeps tx_frame (tx_Commit ctx t).
Proof. unfold tx_Commit, read_tx. keeps_tac. Qed.

Lemma keeps_tx_Rollback ctx t : keeps tx_frame (tx_Rollback ctx t).
Proof. unfold tx_Rollback, read_tx. keeps_tac. Qed.

Lemma keeps_tx_Begin ctx t : keeps tx_frame (tx_Begin ctx t).
Proof.
  intros w. unfold tx_Begin, bind at 1, read_tx, read_at.
  destruct (txs w !! t) as [x|] eqn:E; [|reflexivity].
  destruct (tx_closed x) eqn:Ec; [simpl; reflexivity|].
  unfold bind at 1, write_tx, modify. set (w1 := set_txs _ w).
  assert (tx_frame w w1) as F by (eapply write_tx_frame; [done|]; by intros ?; congruence).
  match goal with |- context [bind ?m ?k w1] => assert (keeps tx_frame (bind m k)) as Hk end.
  { keeps_tac. }
  specialize (Hk w1). destruct (bind _ _ w1); [by etrans|by etrans|done].
Qed.

Lemma keeps_tx_Exec ctx t sql args : keeps tx_frame (tx_Exec ctx t sql args).
Proof. unfold tx_Exec, read_tx. keeps_tac. Qed.
#[local] Hint Resolve keeps_BeginTx keeps_tx_Commit keeps_tx_Rollback keeps_tx_Begin keeps_tx_Exec : keeps.

Lemma keeps_sp_Exec ctx s sql args : keeps tx_frame (sp_Exec ctx s sql args).
Proof. unfold sp_Exec, read_sp. keeps_tac. Qed.
#[local] Hint Resolve keeps_sp_Exec : keeps.

Lemma keeps_sp_Commit ctx s : keeps tx_frame (sp_Commit ctx s).
Proof. unfold sp_Commit, read_sp. keeps_tac. Qed.

Lemma keeps_sp_Rollback ctx s : keeps tx_frame (sp_Rollback ctx s).
Proof. unfold sp_Rollback, read_sp. keeps_tac. Qed.

Lemma keeps_sp_Begin ctx s : keeps tx_frame (sp_Begin ctx s).
Proof. unfold sp_Begin, read_sp. keeps_tac. Qed.
#[local] Hint Resolve keeps_sp_Commit keeps_sp_Rollback keeps_sp_Begin : keeps.

Lemma keeps_run_in_tx ctx tx f : keeps tx_frame (f tx) -> keeps tx_frame (run_in_tx ctx tx f).
Proof. intros Hf. unfold run_in_tx, deferred_rollback, Rollback, Commit. keeps_tac. Qed.

(** ** A transaction ends once *)

Definition finished (w : world) (tx : Tx) : Prop :=
  match tx with
  | RealTx t => exists x, txs w !! t = Some x /\ tx_closed x = true
  | Savepoint s => exists x, sps w !! s = Some x /\ sp_closed x = true
  end.

Lemma finished_later w w' tx : tx_frame w w' -> finished w tx -> finished w' tx.
Proof.
  intros (_ & _ & X & P). destruct tx as [t|s]; intros (x & E & C).
  - destruct (X t x E) as (x' & E' & L). exists x'. auto.
  - destruct (P s x E) as (x' & E' & _ & _ & L). exists x'. auto.
Qed.

Lemma finished_Commit w tx ctx : finished w tx -> Commit ctx tx w = Ok (Some ErrTxClosed) w.
Proof.
  destruct tx as [t|s]; intros (x & E & C); unfold Commit, tx_Commit, sp_Commit, bind, read_tx, read_sp;
    by rewrite (read_at_run _ _ _ _ E), C.
Qed.

Lemma finished_Rollback w tx ctx : finished w tx -> Rollback ctx tx w = Ok (Some ErrTxClosed) w.
Proof.
  destruct tx as [t|s]; intros (x & E & C); unfold Rollback, tx_Rollback, sp_Rollback, bind, read_tx, read_sp;
    by rewrite (read_at_run _ _ _ _ E), C.
Qed.

Lemma close_tx_finishes t w w' : close_tx t w = Ok tt w' -> finished w' (RealTx t).
Proof.
  intros E. inv_ok E. apply read_at_Ok in Hm as [Hx ->]. injection E as <-. simpl.
  eexists. split; [apply list_lookup_insert_eq; by eapply lookup_lt_Some|done].
Qed.

Lemma close_sp_finishes s w w' : close_sp s w = Ok tt w' -> finished w' (Savepoint s).
Proof.
  intros E. inv_ok E. apply read_at_Ok in Hm as [Hx ->]. injection E as <-. simpl.
  eexists. split; [apply list_lookup_insert_eq; by eapply lookup_lt_Some|done].
Qed.

(** The rest of a method after the flag was set. *)
Lemma finished_rest {A} w tx (m : M world A) a w' :
  keeps tx_frame m -> finished w tx -> m w = Ok a w' -> finished w' tx.
Proof. intros Hk Hf E. eapply finished_later; [by eapply keeps_Ok|done]. Qed.

Lemma Commit_finishes ctx tx w r w' : Commit ctx tx w = Ok r w' -> finished w' tx.
Proof.
  destruct tx as [t|s]; cbn [Commit Rollback]; intros E; inv_ok E; apply read_at_Ok in Hm as [Hx ->].
  - destruct (tx_closed a) eqn:Hc; [injection E as <- <-; by exists a|].
    inv_ok E. destruct a0 as [tag err]. inv_ok E. destruct a0.
    apply close_tx_finishes in Hm0. eapply finished_rest, E; [|done]. keeps_tac.
  - destruct (sp_closed a) eqn:Hc; [injection E as <- <-; by exists a|].
    inv_ok E. destruct a0 as [tag err]. inv_ok E. destruct a0.
    apply close_sp_finishes in Hm0. by injection E as <- <-.
Qed.

Lemma Rollback_finishes ctx tx w r w' : Rollback ctx tx w = Ok r w' -> finished w' tx.
Proof.
  destruct tx as [t|s]; cbn [Commit Rollback]; intros E; inv_ok E; apply read_at_Ok in Hm as [Hx ->].
  - destruct (tx_closed a) eqn:Hc; [injection E as <- <-; by exists a|].
    inv_ok E. destruct a0 as [tag err]. inv_ok E. destruct a0.
    apply close_tx_finishes in Hm0. eapply finished_rest, E; [|done]. keeps_tac.
  - destruct (sp_closed a) eqn:Hc; [injection E as <- <-; by exists a|].
    inv_ok E. destruct a0 as [tag err]. inv_ok E. destruct a0.
    apply close_sp_finishes in Hm0. by injection E as <- <-.
Qed.

(** C6. A transaction or savepoint ends once: after [Commit] or [Rollback] has
    returned, whatever it returned and whatever the program does in between,
    both return [ErrTxClosed] and do nothing. *)
Theorem Tx_ends_once ctx tx w r w' w2 :
  Commit ctx tx w = Ok r w' \/ Rollback ctx tx w = Ok r w' -> tx_frame w' w2 ->
  forall ctx', Commit ctx' tx w2 = Ok (Some ErrTxClosed) w2
            /\ Rollback ctx' tx w2 = Ok (Some ErrTxClosed) w2.
Proof.
  intros E F ctx'. assert (finished w2 tx) as Hf.
  { eapply finished_later; [done|]. by destruct E as [E|E]; [eapply Commit_finishes|eapply Rollback_finishes]. }
  split; [by apply finished_Commit|by apply finished_Rollback].
Qed.

Lemma deferred_after ctx tx w err : finished w tx -> deferred_rollback ctx tx err w = Ok err w.
Proof. intros Hf. unfold deferred_rollback, bind. by rewrite finished_Rollback. Qed.

(** C7. [BeginTxFunc] and the nested [BeginFunc]s: when the function returns
    without error the result is that of the commit, when it returns an error
    that error is the result and the transaction is rolled back, and when it
    panics the panic goes on after the rollback; no second statement is sent. *)
Theorem run_in_tx_spec ctx tx f w w1 w2 :
  (forall c, f tx w = Ok None w1 -> Commit ctx tx w1 = Ok c w2 -> run_in_tx ctx tx f w = Ok c w2)
  /\ (forall e r, f tx w = Ok (Some e) w1 -> Rollback ctx tx w1 = Ok r w2 ->
        run_in_tx ctx tx f w = Ok (Some e) w2)
  /\ (forall msg r, f tx w = Panicked msg w1 -> Rollback ctx tx w1 = Ok r w2 ->
        run_in_tx ctx tx f w = Panicked msg w2)
  /\ (forall r, Commit ctx tx w1 = Ok r w2 \/ Rollback ctx tx w1 = Ok r w2 -> finished w2 tx).
Proof.
  unfold run_in_tx, defer, bind. split; [|split; [|split]].
  - intros c -> E. rewrite E. by apply deferred_after, (Commit_finishes ctx tx w1 c).
  - intros e r -> E. rewrite E. by apply deferred_after, (Rollback_finishes ctx tx w1 r).
  - intros msg r -> E. unfold deferred_rollback, bind. by rewrite E.
  - intros r [E|E]; [by eapply Commit_finishes|by eapply Rollback_finishes].
Qed.

(** ** Failures close the connection *)

Context {Laws : PgConnLaws}.

Lemma die_closes w w' : die w = Ok tt w' -> pg_IsClosed (outside w') = true.
Proof. intros E. destruct (die_ends w) as (w2 & E2 & C). rewrite E in E2. by injection E2 as ->. Qed.

Lemma Close_closes_conn ctx w e w' : Conn_Close ctx w = Ok e w' -> pg_IsClosed (outside w') = true.
Proof. intros E. destruct (Close_ends ctx w) as (e2 & w2 & E2 & C). rewrite E in E2. by injection E2 as -> ->. Qed.

(** C21. A transaction that cannot be begun or rolled back leaves the connection
    closed; a commit that fails leaves it closed unless the server says that no
    transaction is open, or reports that the commit was a rollback. *)
Theorem failures_close_connection ctx o t w x :
  (forall e w', BeginTx ctx o w = Ok (inl e) w' -> pg_IsClosed (outside w') = true)
  /\ (txs w !! t = Some x -> tx_closed x = false ->
      (forall e w', tx_Rollback ctx t w = Ok (Some e) w' -> pg_IsClosed (outside w') = true)
      /\ (forall e w', tx_Commit ctx t w = Ok (Some e) w' ->
            e = ErrTxCommitRollback \/ TxStatus (outside w') = "I"%char
            \/ pg_IsClosed (outside w') = true)).
Proof.
  split; [|intros Hx Hc; split].
  - intros e w' E. inv_ok E. destruct a as [tag [e0|]]; [|by inv_ok E].
    inv_ok E. destruct a. injection E as <- <-. by eapply die_closes.
  - intros e w' E. inv_ok E. apply read_at_Ok in Hm as [Ha ->]. rewrite Hx in Ha. injection Ha as <-.
    rewrite Hc in E. inv_ok E. destruct a as [tag err]. inv_ok E. destruct err as [e0|]; [|done].
    inv_ok E. destruct a0. injection E as <- <-. by eapply die_closes.
  - intros e w' E. inv_ok E. apply read_at_Ok in Hm as [Ha ->]. rewrite Hx in Ha. injection Ha as <-.
    rewrite Hc in E. inv_ok E. destruct a as [tag err]. inv_ok E. destruct err as [e0|].
    + inv_ok E. injection Hm1 as <- <-. inv_ok E. injection E as <- <-.
      case_bool_decide as Hs; [injection Hm1 as <- <-; auto|].
      inv_ok Hm1. injection Hm1 as _ <-. right; right. by eapply Close_closes_conn.
    + injection E as E _. case_bool_decide; [|done]. left. congruence.
Qed.

(** ** Savepoint names *)

(** The savepoints of a transaction have distinct numbers, none above the
    transaction's counter. *)
Definition sp_inv (w : world) : Prop :=
  (forall t x, txs w !! t = Some x -> 0 <= tx_savepointNum x)
  /\ (forall s y, sps w !! s = Some y -> exists x, txs w !! sp_tx y = Some x
        /\ 0 < sp_savepointNum y <= tx_savepointNum x)
  /\ (forall s1 s2 y1 y2, sps w !! s1 = Some y1 -> sps w !! s2 = Some y2 ->
        sp_tx y1 = sp_tx y2 -> sp_savepointNum y1 = sp_savepointNum y2 -> s1 = s2).

Lemma sp_inv_heaps w w' : txs w' = txs w -> sps w' = sps w -> sp_inv w -> sp_inv w'.
Proof. unfold sp_inv. by intros -> ->. Qed.

Lemma sp_inv_write w t x x' :
  txs w !! t = Some x -> tx_savepointNum x <= tx_savepointNum x' ->
  sp_inv w -> sp_inv (set_txs (<[t := x']> (txs w)) w).
Proof.
  intros E Hn (I1 & I2 & I3). pose proof (lookup_lt_Some _ _ _ E) as Hlt.
  split; [|split; [|exact I3]]; simpl.
  - intros u y Ey. destruct (decide (u = t)) as [->|Hne].
    + rewrite list_lookup_insert_eq in Ey by done. injection Ey as <-. specialize (I1 _ _ E). lia.
    + rewrite list_lookup_insert_ne in Ey by done. eauto.
  - intros k y Ey. destruct (I2 _ _ Ey) as (z & Ez & Hz).
    destruct (decide (sp_tx y = t)) as [Et|Hne].
    + exists x'. rewrite Et, list_lookup_insert_eq by done. split; [done|].
      rewrite Et, E in Ez. injection Ez as <-. lia.
    + exists z. by rewrite list_lookup_insert_ne.
Qed.

Lemma sp_inv_new w t x n :
  txs w !! t = Some x -> tx_savepointNum x = n -> 0 < n ->
  (forall s y, sps w !! s = Some y -> sp_tx y = t -> sp_savepointNum y < n) ->
  sp_inv w -> sp_inv (set_sps (sps w ++ [mkDbSavepoint t n false]) w).
Proof.
  intros E Hn Hpos Hfresh (I1 & I2 & I3). split; [exact I1|]. simpl. split.
  - intros k y [Ey|[Hk Ey]]%lookup_app_Some; [by eapply I2|].
    destruct (k - length (sps w))%nat; [|done]. injection Ey as <-. exists x. simpl. split; [done|lia].
  - intros k1 k2 y1 y2 [E1|[Hk1 E1]]%lookup_app_Some [E2|[Hk2 E2]]%lookup_app_Some Ht Hnum.
    + by eapply I3.
    + destruct (k2 - length (sps w))%nat eqn:D2; [|done]. injection E2 as <-. simpl in *.
      specialize (Hfresh _ _ E1 Ht). lia.
    + destruct (k1 - length (sps w))%nat eqn:D1; [|done]. injection E1 as <-. simpl in *.
      specialize (Hfresh _ _ E2 (eq_sym Ht)). lia.
    + destruct (k1 - length (sps w))%nat eqn:D1, (k2 - length (sps w))%nat eqn:D2; try done. lia.
Qed.

(** A savepoint gets a name that no other savepoint of its transaction has:
    the numbers stay distinct as long as the counter does not wrap around, and
    distinct numbers have distinct names. *)
Theorem savepoint_names_distinct ctx t w x :
  sp_inv w -> txs w !! t = Some x -> tx_savepointNum x < 2 ^ 63 - 1 ->
  (forall r w', tx_Begin ctx t w = Ok r w' -> sp_inv w')
  /\ (forall s w', tx_Begin ctx t w = Ok (inr s) w' ->
        exists y, sps w' !! s = Some y /\ sp_tx y = t /\ sp_closed y = false
        /\ forall s' y', s' <> s -> sps w' !! s' = Some y' -> sp_tx y' = t ->
             savepoint_name (sp_savepointNum y') <> savepoint_name (sp_savepointNum y)).
Proof.
  intros Hinv Hx Hb.
  assert (forall r w', tx_Begin ctx t w = Ok r w' -> sp_inv w' /\ forall s, r = inr s ->
    exists y, sps w' !! s = Some y /\ sp_tx y = t /\ sp_closed y = false) as Hmain.
  { intros r w' E. inv_ok E. apply read_at_Ok in Hm as [Ha ->]. rewrite Hx in Ha. injection Ha as <-.
    destruct (tx_closed x) eqn:Hc; [injection E as <- <-; split; [done|by intros ? [=]]|].
    pose proof (proj1 Hinv _ _ Hx) as Hnn.
    assert (int64 (tx_savepointNum x + 1) = tx_savepointNum x + 1) as Hw.
    { apply wrap_s_id; [lia|]. unfold in_s. lia. }
    rewrite Hw in E. inv_ok E. injection Hm as _ <-. set (x1 := mkDbTx _ false) in E.
    set (w1 := set_txs _ w) in E.
    assert (sp_inv w1) as Hinv1 by (apply (sp_inv_write w t x); [done|simpl; lia|done]).
    assert (txs w1 !! t = Some x1) as Hx1 by (apply list_lookup_insert_eq; by eapply lookup_lt_Some).
    inv_ok E. destruct a0 as [tag err].
    pose proof (keeps_Ok _ _ _ _ _ (keeps_Exec fuel ctx _ []) Hm) as (_ & [Ht Hs] & _).
    assert (sp_inv s) as Hinv2 by (by apply (sp_inv_heaps w1)).
    destruct err as [e|]; [injection E as <- <-; split; [done|by intros ? [=]]|].
    inv_ok E. apply read_at_Ok in Hm0 as [Hx2 ->]. rewrite Ht, Hx1 in Hx2. injection Hx2 as <-.
    inv_ok E. injection Hm0 as <- <-. injection E as <- <-. split.
    - apply (sp_inv_new _ _ x1); [by rewrite Ht|done|simpl; lia| |done].
      intros k y Ey Et. rewrite Hs in Ey. destruct (proj1 (proj2 Hinv) _ _ Ey) as (z & Ez & Hz).
      rewrite Et, Hx in Ez. injection Ez as <-. simpl. lia.
    - intros k [= <-]. eexists. split; [by apply list_lookup_middle|done]. }
  split; [intros r w' E; by apply (Hmain r w')|]. intros s w' E.
  destruct (Hmain _ _ E) as [Hinv' Hy]. destruct (Hy s eq_refl) as (y & Ey & Et & Ec).
  exists y. do 3 (split; [done|]). intros s' y' Hne Ey' Et' Hname.
  apply app_inv_head, FormatInt_inj in Hname.
  apply Hne. eapply (proj2 (proj2 Hinv')); [done|done|congruence|done].
Qed.

Definition keeps_inv (w w' : world) : Prop := sp_inv w -> sp_inv w'.

#[local] Instance keeps_inv_preorder : PreOrder keeps_inv.
Proof. unfold keeps_inv. split; [by intros w|]. intros a b c. auto. Qed.

Lemma inv_conn {A} (m : M world A) : keeps conn_frame m -> keeps keeps_inv m.
Proof.
  intros Hm w. specialize (Hm w). unfold keeps_inv. destruct (m w); [..|done];
    destruct Hm as (_ & [Ht Hs] & _); by apply sp_inv_heaps.
Qed.

Lemma inv_new_tx : keeps keeps_inv (new_tx (mkDbTx 0 false)).
Proof.
  intros w (I1 & I2 & I3). split; [|split; [|exact I3]]; simpl.
  - intros u y [Ey|[_ Ey]]%lookup_app_Some; [by eapply I1|].
    destruct (u - length (txs w))%nat; [|done]. by injection Ey as <-.
  - intros k y Ey. destruct (I2 _ _ Ey) as (z & Ez & Hz). exists z. split; [|done].
    by apply lookup_app_l_Some.
Qed.

Lemma inv_close_tx t : keeps keeps_inv (close_tx t).
Proof.
  intros w. unfold close_tx, bind, read_tx, read_at. destruct (txs w !! t) as [x|] eqn:E; [|done].
  simpl. unfold keeps_inv. by eapply sp_inv_write.
Qed.

Lemma inv_close_sp k : keeps keeps_inv (close_sp k).
Proof.
  intros w. unfold close_sp, bind, read_sp, read_at. destruct (sps w !! k) as [x|] eqn:E; [|done].
  intros (I1 & I2 & I3). pose proof (lookup_lt_Some _ _ _ E) as Hlt. simpl.
  assert (forall u y, <[k:=mkDbSavepoint (sp_tx x) (sp_savepointNum x) true]> (sps w) !! u = Some y ->
    exists y0, sps w !! u = Some y0 /\ sp_tx y = sp_tx y0 /\ sp_savepointNum y = sp_savepointNum y0) as Hsame.
  { intros u y Ey. destruct (decide (u = k)) as [->|Hne].
    - rewrite list_lookup_insert_eq in Ey by done. injection Ey as <-. by exists x.
    - rewrite list_lookup_insert_ne in Ey by done. by exists y. }
  split; [exact I1|]. split; simpl.
  - intros u y (y0 & E0 & -> & ->)%Hsame. by eapply I2.
  - intros u1 u2 y1 y2 (z1 & E1 & -> & ->)%Hsame (z2 & E2 & -> & ->)%Hsame. by apply I3.
Qed.

#[local] Hint Resolve inv_new_tx inv_close_tx inv_close_sp : keeps.
#[local] Hint Extern 3 (keeps keeps_inv _) => (apply inv_conn; solve [eauto 2 with keeps]) : keeps.

(** The invariant of the savepoints holds of a new connection, and the
    operations that begin and end transactions and savepoints keep it, together
    with every statement run on the connection. *)
Theorem savepoint_invariant :
  (forall w, txs w = [] -> sps w = [] -> sp_inv w)
  /\ (forall ctx o w r w', BeginTx ctx o w = Ok r w' -> sp_inv w -> sp_inv w')
  /\ (forall ctx tx w r w', Commit ctx tx w = Ok r w' -> sp_inv w -> sp_inv w')
  /\ (forall ctx tx w r w', Rollback ctx tx w = Ok r w' -> sp_inv w -> sp_inv w')
  /\ (forall ctx tx sql args w r w', Tx_Exec ctx tx sql args w = Ok r w' -> sp_inv w -> sp_inv w').
Proof.
  assert (forall A (m : M world A) w r w', keeps keeps_inv m -> m w = Ok r w' -> sp_inv w -> sp_inv w') as Hk.
  { intros A m w r w' Hm E. exact (keeps_Ok _ _ _ _ _ Hm E). }
  split.
  { intros w Ht Hs. unfold sp_inv. rewrite Ht, Hs.
    split; [|split]; intros *; rewrite lookup_nil; done. }
  split; [|split; [|split]]; intros *; apply Hk;
    unfold BeginTx, Commit, Rollback, Tx_Exec, tx_Commit, tx_Rollback, sp_Commit, sp_Rollback, sp_Exec,
      tx_Exec, read_tx, read_sp; keeps_tac.
Qed.

End Tx.

(** ** The begin statement *)

Definition iso_levels : list gostring := [[]; Serializable; RepeatableRead; ReadCommitted; ReadUncommitted].
Definition access_modes : list gostring := [[]; ReadWrite; ReadOnly].
Definition deferrable_modes : list gostring := [[]; Deferrable; NotDeferrable].

Definition all_options : list TxOptions :=
  flat_map (fun i => flat_map (fun a => map (mkTxOptions i a) deferrable_modes) access_modes) iso_levels.

Definition valid_options (o : TxOptions) : Prop :=
  IsoLevel o ∈ iso_levels /\ AccessMode o ∈ access_modes /\ DeferrableMode o ∈ deferrable_modes.

Lemma valid_options_all o : valid_options o -> o ∈ all_options.
Proof.
  intros (H1 & H2 & H3). destruct o as [i a d]. cbn in H1, H2, H3. unfold all_options.
  apply list_elem_of_In, in_flat_map. exists i. split; [by apply list_elem_of_In|].
  apply in_flat_map. exists a. split; [by apply list_elem_of_In|].
  apply in_map. by apply list_elem_of_In.
Qed.

(** The options that the package names can be read off the statement: two
    different combinations give different statements, and only the empty
    options give a plain begin. *)
Theorem beginSQL_injective o1 o2 :
  valid_options o1 -> valid_options o2 -> beginSQL o1 = beginSQL o2 -> o1 = o2.
Proof.
  intros H1%valid_options_all H2%valid_options_all.
  assert (Forall (fun a => Forall (fun b => beginSQL a = beginSQL b -> a = b) all_options) all_options) as HF.
  { apply (bool_decide_unpack _). vm_compute. done. }
  rewrite Forall_forall in HF. specialize (HF _ H1). rewrite Forall_forall in HF. by apply HF.
Qed.

(** ** Examples on the small server *)

Lemma beginSQL_injective_witness :
  mkTxOptions Serializable ReadOnly [] = mkTxOptions Serializable ReadOnly [].
Proof.
  apply (beginSQL_injective (mkTxOptions Serializable ReadOnly []) (mkTxOptions Serializable ReadOnly []));
    [apply (bool_decide_unpack _); vm_compute; exact I..|reflexivity].
Defined.

#[local] Existing Instance Sample.types.
#[local] Existing Instance Toy.pgconn.
#[local] Existing Instance Toy.pgconn_laws.
#[local] Existing Instance Toy.decoders.

(** A connection with an open transaction. *)
Definition in_tx : world :=
  match BeginTx 3 Background emptyTxOptions (Toy.start_world false) with
  | Ok _ w => w
  | _ => Toy.start_world false
  end.

Lemma Tx_ends_once_witness :
  let w' := final (Commit 3 Background (RealTx 0)) in_tx in
  Commit 3 Background (RealTx 0) w' = Ok (Some ErrTxClosed) w'.
Proof.
  intros w'. refine (proj1 (Tx_ends_once 3 Background (RealTx 0) in_tx None w' w' _ _ Background)).
  - left. runs.
  - apply tx_frame_preorder.
Defined.

(** The same on a server that fails to roll back. *)
Definition in_failing_tx : world :=
  match BeginTx 3 Background emptyTxOptions
          (mkWorld (Toy.connection false None)
             (Toy.mkServer false "I"%char [str "rollback"] [] [] [] 0 None [] [] []) [] [] [] [] [] []) with
  | Ok _ w => w
  | _ => Toy.start_world false
  end.

Lemma failures_close_connection_witness :
  pg_IsClosed (outside (final (tx_Rollback 3 Background 0) in_failing_tx)) = true.
Proof.
  destruct (failures_close_connection 3 Background emptyTxOptions 0 in_failing_tx (mkDbTx 0 false)) as [_ F].
  refine (proj1 (F _ _) (Toy.failed (str "rollback")) _ _); [evaluates|evaluates|runs].
Defined.

Lemma in_tx_inv : sp_inv in_tx.
Proof.
  split; [|split].
  - intros [|[|t]] x Hx; vm_compute in Hx; simplify_eq. done.
  - intros s y Hy. vm_compute in Hy. done.
  - intros s1 s2 y1 y2 H1. vm_compute in H1. done.
Qed.

Lemma savepoint_names_distinct_witness :
  sp_inv (final (tx_Begin 3 Background 0) in_tx).
Proof.
  refine (proj1 (savepoint_names_distinct 3 Background 0 in_tx (mkDbTx 0 false) in_tx_inv _ _) (inr 0%nat) _ _); [evaluates|simpl; lia|runs].
Defined.

(** A transaction that was committed still runs statements. *)
Theorem closed_tx_still_executes :
  let w1 := final (Commit 3 Background (RealTx 0)) in_tx in
  let w2 := final (tx_Exec 3 Background 0 (str "delete from t") []) w1 in
  Commit 3 Background (RealTx 0) in_tx = Ok None w1
  /\ tx_Exec 3 Background 0 (str "delete from t") [] w1 = Ok (str "OK", None) w2
  /\ take (S (length (requests (trace w1)))) (requests (trace w2))
     = requests (trace w1) ++ [RExec Background (str "delete from t")].
Proof. intros w1 w2. split_and!; [runs|runs|evaluates]. Qed.

(** A prepared statement with the name of a transaction statement is run in its
    place: the commit returns without error, and the transaction is open. *)
Theorem prepared_commit_is_not_a_commit :
  let w1 := final (Conn_Prepare Background (str "commit") (str "select n")) in_tx in
  let w2 := final (Commit 3 Background (RealTx 0)) w1 in
  Commit 3 Background (RealTx 0) w1 = Ok None w2
  /\ TxStatus (outside w1) = "T"%char /\ TxStatus (outside w2) = "T"%char.
Proof. intros w1 w2. split_and!; [runs|evaluates|evaluates]. Qed.
