(* ===== verification/Nested.v ===== *)
(** Nested transactions against PostgreSQL's transactions (tx.go).

    [Postgres] says what PostgreSQL documents of transactions and savepoints,
    over any database and any meaning of the statements, and the class
    [PgTransactions] is a connection whose simple queries run so.  A program
    that uses transactions through [BeginFunc], nested to any depth, is shown to
    have on it the effect of nested transactions: what a transaction does is kept
    when it ends without an error, and undone when it ends with one or panics.
    [PgServer] is a connection of that class. *)

From S2P Require Import Prelude GoStd GoVal Effects Values PgConn Logger World Toy Rows Config Conn Batch.
From S2P Require Import CopyFrom Tx.

Local Open Scope Z_scope.

(** ** PostgreSQL's transactions *)

(** What the statements do to a database, and what COMMIT finds wrong with it:
    a deferred constraint, or a conflict with another session. *)
Record statements (D : Type) := mkStatements {
  run_text :> gostring -> D -> error + D;
  at_commit : D -> option error
}.
#[global] Arguments mkStatements {D}.
#[global] Arguments run_text {D}.
#[global] Arguments at_commit {D}.

Module Postgres.

Inductive stmt :=
| SBegin | SCommit | SRollback
| SSavepoint (n : gostring) | SRelease (n : gostring) | SRollbackTo (n : gostring)
| SOther (text : gostring).

Section Server.
Context {D : Type} (apply : statements D).

(** Outside of a transaction there is the database; inside of one, also the
    database it began with, the savepoints with theirs, the last one first, and
    whether a statement has failed. *)
Inductive pgtx :=
| Idle (d : D)
| InTx (base d : D) (saves : list (gostring * D)) (failed : bool).

(** The server's errors: 25P02 in_failed_sql_transaction, 3B001
    invalid_savepoint_specification and 25P01 no_active_sql_transaction. *)
Definition aborted : error := ForeignError 2502.
Definition no_savepoint : error := ForeignError 3001.
Definition no_transaction : error := ForeignError 2501.

Fixpoint find_save (n : gostring) (saves : list (gostring * D)) : option (D * list (gostring * D)) :=
  match saves with
  | [] => None
  | (m, d) :: rest => if bool_decide (m = n) then Some (d, rest) else find_save n rest
  end.

(** A statement: its error and its tag, and the state after it. *)
Definition run_stmt (q : stmt) (s : pgtx) : option error * gostring * pgtx :=
  match s with
  | Idle d =>
      match q with
      | SBegin => (None, str "BEGIN", InTx d d [] false)
      | SCommit => (None, str "COMMIT", s)
      | SRollback => (None, str "ROLLBACK", s)
      | SSavepoint _ | SRelease _ | SRollbackTo _ => (Some no_transaction, [], s)
      | SOther text => match apply text d with
                       | inr d' => (None, str "OK", Idle d')
                       | inl e => (Some e, [], s)
                       end
      end
  | InTx base d saves failed =>
      match q with
      | SCommit =>
          if failed then (None, str "ROLLBACK", Idle base)
          else match at_commit apply d with
               | None => (None, str "COMMIT", Idle d)
               | Some e => (Some e, [], Idle base)
               end
      | SRollback => (None, str "ROLLBACK", Idle base)
      | SRollbackTo n =>
          match find_save n saves with
          | Some (d', rest) => (None, str "ROLLBACK", InTx base d' ((n, d') :: rest) false)
          | None => (Some no_savepoint, [], InTx base d saves true)
          end
      | _ =>
          if failed then (Some aborted, [], s)
          else match q with
               | SSavepoint n => (None, str "SAVEPOINT", InTx base d ((n, d) :: saves) false)
               | SRelease n =>
                   match find_save n saves with
                   | Some (_, rest) => (None, str "RELEASE", InTx base d rest false)
                   | None => (Some no_savepoint, [], InTx base d saves true)
                   end
               | SOther text =>
                   match apply text d with
                   | inr d' => (None, str "OK", InTx base d' saves false)
                   | inl e => (Some e, [], InTx base d saves true)
                   end
               | _ => (None, str "BEGIN", s)
               end
      end
  end.

(** The status a server reports. *)
Definition status (s : pgtx) : ascii :=
  match s with
  | Idle _ => "I"
  | InTx _ _ _ false => "T"
  | InTx _ _ _ true => "E"
  end%char.
End Server.
End Postgres.

(** *** What is relied on *)

(** The results of a simple query of one statement: one with its tag, or none
    and the error when the results are closed. *)
Definition results_of `{PgConn} (m : mrr) (n : net) (e : option error) (t : CommandTag) (n' : net) : Prop :=
  match e with
  | None => exists n1 n2 n3 err, replies (RNextResult m) n true n1
      /\ replies (RRrClose (ResultReader n1 m)) n1 (t, err) n2
      /\ replies (RNextResult m) n2 false n3 /\ replies (RMrrClose m) n3 None n'
  | Some err => exists n1, replies (RNextResult m) n false n1 /\ replies (RMrrClose m) n1 (Some err) n'
  end.

(** The options the package names, except those of a transaction in which the
    statements must not write. *)
Definition writing (o : TxOptions) : Prop := valid_options o /\ AccessMode o <> ReadOnly.

Lemma writing_by_test o : bool_decide (valid_options o) && bool_decide (AccessMode o <> ReadOnly) = true -> writing o.
Proof. intros [Hv%bool_decide_eq_true Ha%bool_decide_eq_true]%andb_true_iff. by split. Qed.

(** A connection to a server with these transactions: [tx_state] is what the
    server knows of the session, [parse] is how it reads the text of a single
    statement, [usable] holds of a connection that is open and not busy, and on
    such a one a simple query runs its statement. *)
Class PgTransactions `{PgConn} {D : Type} (apply : statements D) (ctx : context) := {
  tx_state : net -> Postgres.pgtx (D := D);
  parse : gostring -> option Postgres.stmt;
  parse_begin o : writing o -> parse (beginSQL o) = Some Postgres.SBegin;
  parse_commit : parse (str "commit") = Some Postgres.SCommit;
  parse_rollback : parse (str "rollback") = Some Postgres.SRollback;
  parse_savepoint k : 0 <= k ->
    let n := savepoint_name k in parse (str "savepoint " ++ n) = Some (Postgres.SSavepoint n);
  parse_release k : 0 <= k ->
    let n := savepoint_name k in parse (str "release savepoint " ++ n) = Some (Postgres.SRelease n);
  parse_rollback_to k : 0 <= k ->
    let n := savepoint_name k in parse (str "rollback to savepoint " ++ n) = Some (Postgres.SRollbackTo n);
  parse_other sql text : parse sql = Some (Postgres.SOther text) -> text = sql;
  usable : net -> Prop;
  usable_status n : usable n ->
    pg_IsClosed n = false /\ pg_IsBusy n = false /\ TxStatus n = Postgres.status (tx_state n);
  statement_runs sql q n e t x :
    parse sql = Some q -> usable n -> Postgres.run_stmt apply q (tx_state n) = (e, t, x) ->
    exists m n1 n', replies (RExec ctx sql) n m n1 /\ results_of m n1 e t n' /\ usable n' /\ tx_state n' = x
}.

(** ** Programs *)

(** What a function given to [BeginFunc] may do in its transaction: execute
    statements and stop at an error or go on, open a nested transaction and
    stop at its error or go on, return an error of its own, or panic. *)
#[local] Set Warnings "-register-all".
Inductive action :=
| AExec (sql : gostring) (go_on : bool)
| ANested (body : list action) (go_on : bool)
| AFail (e : error)
| APanic (msg : gostring).

Section action_ind.
Context (P : action -> Prop).
Hypothesis P_Exec : forall sql b, P (AExec sql b).
Hypothesis P_Nested : forall body b, Forall P body -> P (ANested body b).
Hypothesis P_Fail : forall e, P (AFail e).
Hypothesis P_Panic : forall msg, P (APanic msg).

Fixpoint action_nested_ind (a : action) : P a :=
  match a with
  | AExec sql b => P_Exec sql b
  | ANested body b =>
      P_Nested body b ((fix all (l : list action) : Forall P l :=
        match l with
        | [] => List.Forall_nil P
        | a :: l' => List.Forall_cons P a l' (action_nested_ind a) (all l')
        end) body)
  | AFail e => P_Fail e
  | APanic msg => P_Panic msg
  end.
End action_ind.

(** The actions of a list up to the first error. *)
Definition until_error {S} (run : action -> M S (option error)) : list action -> M S (option error) :=
  fix go l :=
    match l with
    | [] => ret None
    | a :: l' => let* err := run a in match err with Some e => ret (Some e) | None => go l' end
    end.

(** The number of transactions a program opens, whatever happens. *)
Fixpoint begins (a : action) : Z :=
  match a with
  | ANested body _ => 1 + foldr (fun a n => begins a + n) 0 body
  | _ => 0
  end.
Definition begins_all (l : list action) : Z := foldr (fun a n => begins a + n) 0 l.

Lemma begins_nonneg a : 0 <= begins a.
Proof.
  induction a as [| body b Hb| |] using action_nested_ind; simpl; try lia.
  induction Hb; simpl in *; lia.
Qed.

Lemma begins_all_nonneg l : 0 <= begins_all l.
Proof.
  unfold begins_all. induction l as [|a l IH]; simpl; [lia|]. pose proof (begins_nonneg a). lia.
Qed.

(** The statements are single ones and not transaction control. *)
Fixpoint plain (parse : gostring -> option Postgres.stmt) (a : action) : bool :=
  match a with
  | AExec sql _ => match parse sql with Some (Postgres.SOther _) => true | _ => false end
  | ANested body _ => forallb (plain parse) body
  | _ => true
  end.

(** ** What the programs mean

    The state is the database and whether the transaction is aborted.  A panic
    is the third way to end. *)
Section Meaning.
Context {D : Type} (apply : statements D).

Definition db : Type := D * bool.

Definition skip_error (go_on : bool) (err : option error) : option error := if go_on then None else err.

Definition mean_exec (sql : gostring) : M db (option error) := fun '(d, failed) =>
  if failed then Ok (Some Postgres.aborted) (d, true)
  else match apply sql d with
       | inr d' => Ok None (d', false)
       | inl e => Ok (Some e) (d, true)
       end.

(** A nested transaction: undone by an error or a panic; one that ends well is
    kept, unless it is aborted. *)
Definition mean_nested (body : M db (option error)) : M db (option error) := fun '(d, failed) =>
  if failed then Ok (Some Postgres.aborted) (d, true)
  else match body (d, false) with
       | Ok None (d', true) => Ok (Some Postgres.aborted) (d', true)
       | Ok None (d', false) => Ok None (d', false)
       | Ok (Some e) _ => Ok (Some e) (d, false)
       | Panicked msg _ => Panicked msg (d, false)
       | OutOfFuel => OutOfFuel
       end.

Fixpoint mean (a : action) : M db (option error) :=
  match a with
  | AExec sql go_on => let* err := mean_exec sql in ret (skip_error go_on err)
  | ANested body go_on => let* err := mean_nested (until_error mean body) in ret (skip_error go_on err)
  | AFail e => ret (Some e)
  | APanic msg => panic msg
  end.

(** What becomes of a transaction that is committed: its effect is kept if no
    statement has failed and the server finds nothing wrong. *)
Definition mean_commit (base d : D) (failed : bool) : option error * D :=
  if failed then (Some ErrTxCommitRollback, base)
  else match at_commit apply d with
       | None => (None, d)
       | Some e => (Some e, base)
       end.

(** The outermost transaction: all or nothing. *)
Definition mean_top (body : list action) (d : D) : result D (option error) :=
  match until_error mean body (d, false) with
  | Ok None (d', failed) => let '(err, d2) := mean_commit d d' failed in Ok err d2
  | Ok (Some e) _ => Ok (Some e) d
  | Panicked msg _ => Panicked msg d
  | OutOfFuel => OutOfFuel
  end.
End Meaning.

(** Both programs end in the same way. *)
Definition ends {S T A} (r : result S A) (r' : result T A) (P : S -> T -> Prop) : Prop :=
  match r, r' with
  | Ok a s, Ok a' w' => a = a' /\ P s w'
  | Panicked m s, Panicked m' w' => m = m' /\ P s w'
  | _, _ => False
  end.

Lemma ends_final {S T A} a (s : S) (m : M T A) w (P : S -> T -> Prop) :
  ends (Ok a s) (m w) P -> m w = Ok a (final m w) /\ P s (final m w).
Proof. unfold final. simpl. destruct (m w); [|done..]. by intros [<- ?]. Qed.

(** ** The programs with the driver *)

Section Client.
Context `{PgTypes} `{PgConn} `{!PgDecoders}.
Context (fuel : nat) (ctx : context).

Definition Tx_BeginFunc (tx : Tx) (f : Tx -> M world (option error)) : M world (option error) :=
  match tx with RealTx t => tx_BeginFunc fuel ctx t f | Savepoint s => sp_BeginFunc fuel ctx s f end.

Fixpoint run_action (a : action) (tx : Tx) : M world (option error) :=
  match a with
  | AExec sql go_on => let* '(_, err) := Tx_Exec fuel ctx tx sql [] in ret (skip_error go_on err)
  | ANested body go_on =>
      let* err := Tx_BeginFunc tx (fun tx' => until_error (fun a => run_action a tx') body) in
      ret (skip_error go_on err)
  | AFail e => ret (Some e)
  | APanic msg => panic msg
  end.

Definition run_body (body : list action) (tx : Tx) : M world (option error) :=
  until_error (fun a => run_action a tx) body.
End Client.

(** ** The driver on the server *)

Section Refinement.
Context `{PgTypes} `{PgConn} `{!PgDecoders} {D : Type} (apply : statements D).
Context (fuel : nat) (ctx : context) {Trans : PgTransactions apply ctx}.
Hypothesis enough : (3 <= fuel)%nat.

Definition pg (w : world) : Postgres.pgtx (D := D) := tx_state (outside w).

(** A connection without prepared statements that is open and not busy. *)
Definition fit (w : world) : Prop :=
  preparedStatements (conn w) = ∅
  /\ usable (outside w).

(** The states that differ in the server and the trace only; no statement is
    prepared. *)
Definition same_client (w w' : world) : Prop :=
  preparedStatements (conn w) = ∅ /\ preparedStatements (conn w') = ∅
  /\ txs w' = txs w /\ sps w' = sps w.

Lemma called_same r w :
  preparedStatements (conn w) = ∅ -> same_client w (called r w).
Proof.
  intros E. split; [done|]. split; [|done]. simpl. unfold bufferNotifications.
  by destruct (bufferingNotifications (conn w)).
Qed.

Lemma called_after r w w1 : same_client w w1 -> same_client w (called r w1).
Proof.
  intros (E & E1 & Et & Es). destruct (called_same r w1 E1) as (_ & E2 & Et2 & Es2).
  repeat split; congruence.
Qed.

Lemma same_client_refl w : preparedStatements (conn w) = ∅ -> same_client w w.
Proof. by repeat split. Qed.

Lemma same_client_trans w1 w2 w3 : same_client w1 w2 -> same_client w2 w3 -> same_client w1 w3.
Proof. intros (A1 & A2 & A3 & A4) (B1 & B2 & B3 & B4). repeat split; congruence. Qed.

Lemma logged_same lvl msg data w : preparedStatements (conn w) = ∅ -> same_client w (logged ctx lvl msg data w).
Proof.
  intros E. destruct (logged_frame ctx lvl msg data w) as (_ & Ec & _ & Et & Es & _).
  repeat split; congruence.
Qed.

(** A simple query runs its statement. *)
Lemma results_run m w e t n' :
  preparedStatements (conn w) = ∅ -> results_of m (outside w) e t n' ->
  exists tag w', exec_results fuel m w = Ok (tag, e) w' /\ (e = None -> tag = t) /\ outside w' = n' /\ same_client w w'.
Proof.
  intros Hp Hr. destruct fuel as [|[|[|f]]]; [lia..|]. apply same_client_refl in Hp as Hs.
  unfold exec_results, bind, observe, gets. cbn [loop]. unfold bind. destruct e as [e|]; simpl in Hr.
  - destruct Hr as (n1 & [E1 N1]%call_replies & Hr). rewrite E1. unfold ret. cbv beta iota.
    rewrite <- N1 in Hr. apply call_replies in Hr as [E2 N2]. rewrite E2. eexists _, _.
    split; [reflexivity|]. split; [done|]. split; [done|]. by do 2 apply called_after.
  - destruct Hr as (n1 & n2 & n3 & err & [E1 N1]%call_replies & Hr2 & Hr3 & Hr4). rewrite E1. cbv beta iota.
    rewrite N1. rewrite <- N1 in Hr2. apply call_replies in Hr2 as [E2 N2]. rewrite N1 in E2, N2. rewrite E2.
    unfold ret. cbv beta iota. rewrite <- N2 in Hr3. apply call_replies in Hr3 as [E3 N3]. rewrite E3. cbv beta iota.
    rewrite <- N3 in Hr4. apply call_replies in Hr4 as [E4 N4]. rewrite E4. eexists _, _.
    split; [reflexivity|]. split; [done|]. split; [done|]. by do 4 apply called_after.
Qed.

Lemma Exec_run sql q w e t x :
  parse sql = Some q -> fit w -> Postgres.run_stmt apply q (pg w) = (e, t, x) ->
  exists tag w', Conn_Exec fuel ctx sql [] w = Ok (tag, e) w' /\ (e = None -> tag = t) /\ pg w' = x
    /\ fit w' /\ same_client w w'.
Proof.
  intros Hq (Hp & Hu) E. destruct (statement_runs sql q _ _ _ _ Hq Hu E) as (m & n1 & n' & Hx & Hr & Hu' & Ht).
  apply call_replies in Hx as [E1 N1]. rewrite <- N1 in Hr.
  assert (same_client w (called (RExec ctx sql) w)) as S1 by by apply called_same.
  destruct (results_run m _ _ _ _ (proj1 (proj2 S1)) Hr) as (tag & w' & Ex & Htag & Hn & S2).
  apply (same_client_trans _ _ _ S1) in S2.
  assert (execSimpleProtocol fuel ctx sql [] w = Ok (tag, e) w') as Er.
  { unfold execSimpleProtocol, bind. by rewrite E1. }
  unfold Conn_Exec, conn_exec, get_prepared, bind, gets. cbn [exec_options]. rewrite Hp, lookup_empty.
  assert (forall lvl msg data, fit (logged ctx lvl msg data w') /\ pg (logged ctx lvl msg data w') = x
    /\ same_client w (logged ctx lvl msg data w')) as Hlog.
  { intros. assert (same_client w (logged ctx lvl msg data w')) as S3
      by (eapply same_client_trans; [exact S2|]; apply logged_same, S2).
    unfold fit, pg. rewrite (proj1 (logged_frame _ _ _ _ _)), Hn. split; [split; [apply S3|done]|done]. }
  exists tag. destruct (PreferSimpleProtocol _); cbn [length Nat.eqb]; rewrite Er; cbn iota beta;
    (destruct e; unfold ret; cbv beta iota; rewrite log_if_run; eexists; (split; [reflexivity|]); (split; [done|]);
     split_and!; apply Hlog).
Qed.

(** ** Simulation *)

(** A savepoint made after the one with the number [n]. *)
Definition above (n : Z) (p : gostring * D) : Prop := exists k, p.1 = savepoint_name k /\ n < k.

Lemma find_own n d stale saves :
  Forall (above n) stale ->
  Postgres.find_save (savepoint_name n) (stale ++ (savepoint_name n, d) :: saves) = Some (d, saves).
Proof.
  induction 1 as [|[m d'] stale (k & E & Hk) _ IH]; simpl.
  - by rewrite bool_decide_eq_true_2.
  - simpl in E. subst m. rewrite bool_decide_eq_false_2; [done|].
    intros E%app_inv_head%FormatInt_inj. lia.
Qed.

Lemma above_weaken n m l : n <= m -> Forall (above m) l -> Forall (above n) l.
Proof. intros Hn Hl. eapply Forall_impl; [exact Hl|]. intros p (k & E & Hk). exists k. split; [done|lia]. Qed.

(** Inside the transaction [t], with its counter and savepoints. *)
Definition inside (t : nat) (num : Z) (base : D) (saves : list (gostring * D)) (s : @db D) (w : world) : Prop :=
  pg w = Postgres.InTx base s.1 saves s.2 /\ fit w
  /\ txs w !! t = Some (mkDbTx num false).

(** An open handle on [t]. *)
Definition handle (tx : Tx) (t : nat) (w : world) : Prop :=
  match tx with
  | RealTx t' => t' = t
  | Savepoint s => exists k, sps w !! s = Some (mkDbSavepoint t k false)
  end.

(** Later in the same transaction: at most [b] savepoints were made, and the
    handles there were are as they were. *)
Definition later (t : nat) (num b : Z) (base : D) (saves : list (gostring * D)) (w : world)
    (s : @db D) (w' : world) : Prop :=
  exists num' stale, inside t num' base (stale ++ saves) s w' /\ num <= num' <= num + b
    /\ Forall (above num) stale /\ sps w `prefix_of` sps w'.

Lemma handle_later tx t w w' : handle tx t w -> sps w `prefix_of` sps w' -> handle tx t w'.
Proof.
  destruct tx as [t'|s]; [done|]. intros [k Hk] [l E]. exists k. rewrite E. by apply lookup_app_l_Some.
Qed.

Lemma later_refl t num base saves s w : inside t num base saves s w -> later t num 0 base saves w s w.
Proof. intros Hi. exists num, []. split; [done|]. split; [lia|]. by split. Qed.

Lemma later_trans t num b num1 b1 base saves stale1 w s1 w1 s2 w2 :
  inside t num1 base (stale1 ++ saves) s1 w1 -> num <= num1 <= num + b -> Forall (above num) stale1 ->
  sps w `prefix_of` sps w1 ->
  later t num1 b1 base (stale1 ++ saves) w1 s2 w2 -> later t num (b + b1) base saves w s2 w2.
Proof.
  intros _ Hn Hs Hp (num2 & stale2 & Hi2 & Hn2 & Hs2 & Hp2). exists num2, (stale2 ++ stale1).
  split; [by rewrite <- app_assoc|]. split; [lia|]. split; [|by etrans].
  apply Forall_app. split; [|done]. eapply above_weaken; [|done]. lia.
Qed.

Definition simulates (b : Z) (m : M (@db D) (option error)) (run : Tx -> M world (option error)) : Prop :=
  forall tx t num base saves s w, inside t num base saves s w -> handle tx t w -> 0 <= num -> num + b < 2 ^ 63 ->
  ends (m s) (run tx w) (later t num b base saves w).

Lemma simulates_list l :
  Forall (fun a => simulates (begins a) (mean apply a) (run_action fuel ctx a)) l ->
  simulates (begins_all l) (until_error (mean apply) l) (run_body fuel ctx l).
Proof.
  induction 1 as [|a l Ha _ IH]; intros tx t num base saves s w Hi Hh Hn Hb; simpl in *.
  { split; [done|]. by apply later_refl. }
  pose proof (begins_all_nonneg l) as Hpos. pose proof (begins_nonneg a) as Hposa.
  unfold run_body. simpl. unfold bind. fold (begins_all l) in *.
  specialize (Ha tx t num base saves s w Hi Hh Hn ltac:(lia)).
  destruct (mean apply a s) as [r s1|msg s1|], (run_action fuel ctx a tx w) as [r' w1|msg' w1|]; try done; simpl in Ha.
  - destruct Ha as [<- (num1 & stale1 & Hi1 & Hn1 & Hs1 & Hp1)]. destruct r as [e|].
    + split; [done|]. exists num1, stale1. split; [done|]. split; [lia|]. done.
    + specialize (IH tx t num1 base (stale1 ++ saves) s1 w1 Hi1 (handle_later _ _ _ _ Hh Hp1) ltac:(lia) ltac:(lia)).
      unfold run_body in IH.
      destruct (until_error (mean apply) l s1) as [r2 s2|msg2 s2|], (until_error _ l w1) as [r2' w2|msg2' w2|]; try done;
        destruct IH as [<- IH]; (split; [done|]); by eapply later_trans.
  - destruct Ha as [<- (num1 & stale1 & Hi1 & Hn1 & Hs1 & Hp1)].
    split; [done|]. exists num1, stale1. split; [done|]. split; [lia|]. done.
Qed.

(** ** Statements inside a transaction *)

Lemma exec_inside sql q t num base saves d f w e tg d' saves' f' :
  parse sql = Some q -> inside t num base saves (d, f) w ->
  Postgres.run_stmt apply q (Postgres.InTx base d saves f) = (e, tg, Postgres.InTx base d' saves' f') ->
  exists tag w', Conn_Exec fuel ctx sql [] w = Ok (tag, e) w' /\ inside t num base saves' (d', f') w'
    /\ txs w' = txs w /\ sps w' = sps w.
Proof.
  intros Hq (Hpg & Hp & Ht) E. simpl in Hpg. rewrite <- Hpg in E.
  destruct (Exec_run sql q w _ _ _ Hq Hp E) as (tag & w' & Ex & _ & Hx & Hf & _ & _ & Et & Es).
  exists tag, w'. split; [done|]. split; [|done]. split; [done|]. split; [done|by rewrite Et].
Qed.

Lemma Tx_Exec_handle tx t num base saves s w sql :
  inside t num base saves s w -> handle tx t w -> Tx_Exec fuel ctx tx sql [] w = Conn_Exec fuel ctx sql [] w.
Proof.
  intros (_ & _ & Ht) Hh. destruct tx as [t'|sp]; simpl in Hh |- *.
  - subst t'. unfold tx_Exec, read_tx, bind, read_at. by rewrite Ht.
  - destruct Hh as [k Hk]. unfold sp_Exec, tx_Exec, read_tx, read_sp, bind, read_at. rewrite Hk. simpl. by rewrite Ht.
Qed.

Lemma simulates_exec sql go_on :
  plain parse (AExec sql go_on) = true ->
  simulates 0 (mean apply (AExec sql go_on)) (run_action fuel ctx (AExec sql go_on)).
Proof.
  intros Hpl tx t num base saves [d f] w Hi Hh Hn Hb. simpl in Hpl.
  destruct (parse sql) as [[| | | | | |text]|] eqn:Hparse; try done.
  pose proof (parse_other sql text Hparse) as ->.
  cbn [run_action mean]. unfold bind. rewrite (Tx_Exec_handle _ _ _ _ _ _ _ _ Hi Hh).
  assert (exists e tg d' f', Postgres.run_stmt apply (Postgres.SOther sql) (Postgres.InTx base d saves f)
    = (e, tg, Postgres.InTx base d' saves f') /\ mean_exec apply sql (d, f) = Ok e (d', f'))
    as (e & tg & d' & f' & E & ->).
  { simpl. destruct f; [eauto 7|]. destruct (apply sql d); eauto 7. }
  destruct (exec_inside _ _ _ _ _ _ _ _ _ _ _ _ _ _ Hparse Hi E) as (tag & w' & -> & Hi' & _ & Hs).
  simpl. split; [done|]. exists num, []. split; [done|]. split; [lia|]. split; [done|]. by rewrite Hs.
Qed.

(** ** Savepoints *)

Lemma tx_Begin_inside t num base saves d (f : bool) w :
  inside t num base saves (d, f) w -> 0 <= num -> num + 1 < 2 ^ 63 ->
  exists w', tx_Begin fuel ctx t w = Ok (if f then inl Postgres.aborted else inr (length (sps w))) w'
    /\ inside t (num + 1) base (if f then saves else (savepoint_name (num + 1), d) :: saves) (d, f) w'
    /\ sps w' = sps w ++ (if f then [] else [mkDbSavepoint t (num + 1) false]).
Proof.
  intros (Hpg & Hp & Ht) Hn Hb. set (w0 := set_txs (<[t := mkDbTx (num + 1) false]> (txs w)) w).
  assert (inside t (num + 1) base saves (d, f) w0) as Hi0.
  { split; [done|]. split; [done|]. simpl. apply list_lookup_insert_eq. by eapply lookup_lt_Some. }
  edestruct (exec_inside (str "savepoint " ++ savepoint_name (num + 1)) (Postgres.SSavepoint (savepoint_name (num + 1))) t (num + 1) base saves d f w0
    (if f then Some Postgres.aborted else None) (if f then [] else str "SAVEPOINT") d
    (if f then saves else (savepoint_name (num + 1), d) :: saves) f)
    as (tag & w1 & Ex & Hi1 & Et & Es); [apply parse_savepoint; lia|done|by destruct f|].
  unfold tx_Begin, read_tx, bind, read_at. rewrite Ht. cbn [tx_closed tx_savepointNum].
  assert (int64 (num + 1) = num + 1) as -> by (apply wrap_s_id; unfold in_s; lia).
  unfold write_tx, modify. fold w0. rewrite Ex. destruct f; cbv beta iota.
  - exists w1. split; [done|]. split; [done|]. by rewrite app_nil_r, Es.
  - destruct Hi1 as (Hpg1 & Hp1 & Ht1). rewrite Ht1. unfold new_sp, ret. rewrite Es.
    eexists. split; [reflexivity|]. split; [by split; [|split]|]. done.
Qed.

(** Both ends of a savepoint execute their statement and close it. *)
Definition end_sp (sql : gostring) (s : nat) : M world (option error) :=
  let* '(_, err) := sp_Exec fuel ctx s sql [] in close_sp s ;;; ret err.

Lemma end_sp_inside s k sql q t num base saves d f w e tg d' saves' f' :
  parse sql = Some q -> inside t num base saves (d, f) w -> sps w !! s = Some (mkDbSavepoint t k false) ->
  Postgres.run_stmt apply q (Postgres.InTx base d saves f) = (e, tg, Postgres.InTx base d' saves' f') ->
  exists w', end_sp sql s w = Ok e w' /\ inside t num base saves' (d', f') w'
    /\ sps w' = <[s := mkDbSavepoint t k true]> (sps w).
Proof.
  intros Hq Hi Hs E. destruct (exec_inside _ _ _ _ _ _ _ _ _ _ _ _ _ _ Hq Hi E) as (tag & w1 & Ex & Hi1 & _ & Es).
  assert (handle (Savepoint s) t w) as Hh by (exists k; done).
  pose proof (Tx_Exec_handle _ _ _ _ _ _ _ sql Hi Hh) as Et. simpl in Et.
  unfold end_sp, bind. rewrite Et, Ex. unfold close_sp, read_sp, bind, read_at. rewrite Es, Hs.
  unfold write_sp, modify, ret. eexists. split; [reflexivity|]. split; [done|]. simpl. by rewrite Es.
Qed.

Lemma sp_ends s t k w :
  sps w !! s = Some (mkDbSavepoint t k false) ->
  sp_Commit fuel ctx s w = end_sp (str "release savepoint " ++ savepoint_name k) s w
  /\ sp_Rollback fuel ctx s w = end_sp (str "rollback to savepoint " ++ savepoint_name k) s w.
Proof. intros Hs. unfold sp_Commit, sp_Rollback, read_sp, bind, read_at. by rewrite Hs. Qed.

Lemma deferred_closed s t k w err :
  sps w !! s = Some (mkDbSavepoint t k true) -> deferred_rollback fuel ctx (Savepoint s) err w = Ok err w.
Proof. intros Hs. unfold deferred_rollback. simpl. unfold sp_Rollback, read_sp, bind, read_at. by rewrite Hs. Qed.

(** The transaction [t] in the body of a nested transaction begun at [w] with
    the database [d]. *)
Definition own (num : Z) (d : D) : gostring * D := (savepoint_name (num + 1), d).

Definition in_nested (t : nat) (num b : Z) (base d : D) (saves stale : list (gostring * D)) (w : world)
    (s : @db D) (w' : world) : Prop :=
  exists num', inside t num' base (stale ++ own num d :: saves) s w' /\ num + 1 <= num' <= num + 1 + b
    /\ Forall (above (num + 1)) stale /\ sps w ++ [mkDbSavepoint t (num + 1) false] `prefix_of` sps w'.

Lemma end_nested t num b base d saves stale w d1 f1 w1 sql q e tg d2 stale2 f2 :
  parse sql = Some q -> in_nested t num b base d saves stale w (d1, f1) w1 ->
  Postgres.run_stmt apply q (Postgres.InTx base d1 (stale ++ own num d :: saves) f1)
    = (e, tg, Postgres.InTx base d2 (stale2 ++ saves) f2) ->
  Forall (above num) stale2 ->
  exists w2, end_sp sql (length (sps w)) w1 = Ok e w2 /\ later t num (1 + b) base saves w (d2, f2) w2
    /\ sps w2 !! length (sps w) = Some (mkDbSavepoint t (num + 1) true).
Proof.
  intros Hq (num1 & Hi & Hn & Hst & [l Hl]) E Hst2. rewrite <- app_assoc in Hl. simpl in Hl.
  assert (sps w1 !! length (sps w) = Some (mkDbSavepoint t (num + 1) false)) as Hs.
  { rewrite Hl. by rewrite lookup_app_r, Nat.sub_diag. }
  destruct (end_sp_inside _ _ _ _ _ _ _ _ _ _ _ _ _ _ _ _ Hq Hi Hs E) as (w2 & E2 & Hi2 & Hs2).
  exists w2. split; [done|]. split.
  - exists num1, stale2. split; [done|]. split; [lia|]. split; [done|]. rewrite Hs2, Hl.
    rewrite insert_app_r_alt, Nat.sub_diag by done. by eexists.
  - rewrite Hs2. apply list_lookup_insert_eq. by eapply lookup_lt_Some.
Qed.

Lemma own_above num d : above num (own num d).
Proof. exists (num + 1). split; [done|lia]. Qed.

Lemma rollback_nested t num b base d saves stale w s1 w1 :
  0 <= num -> in_nested t num b base d saves stale w s1 w1 ->
  exists w2, sp_Rollback fuel ctx (length (sps w)) w1 = Ok None w2 /\ later t num (1 + b) base saves w (d, false) w2
    /\ sps w2 !! length (sps w) = Some (mkDbSavepoint t (num + 1) true).
Proof.
  intros Hnum Hin. pose proof Hin as (num1 & _ & _ & Hst & [l Hl]). destruct s1 as [d1 f1].
  rewrite (proj2 (sp_ends _ t (num + 1) w1 ltac:(by rewrite Hl, <- app_assoc, lookup_app_r, Nat.sub_diag))).
  eapply end_nested with (stale2 := [own num d]); [apply parse_rollback_to; lia|done| |repeat constructor; apply own_above].
  unfold own. simpl. by rewrite find_own.
Qed.

Lemma commit_nested t num b base d saves stale w d1 (f1 : bool) w1 :
  0 <= num -> in_nested t num b base d saves stale w (d1, f1) w1 ->
  exists w2, sp_Commit fuel ctx (length (sps w)) w1 = Ok (if f1 then Some Postgres.aborted else None) w2
    /\ later t num (1 + b) base saves w (d1, f1) w2
    /\ sps w2 !! length (sps w) = Some (mkDbSavepoint t (num + 1) true).
Proof.
  intros Hnum Hin. pose proof Hin as (num1 & _ & _ & Hst & [l Hl]).
  rewrite (proj1 (sp_ends _ t (num + 1) w1 ltac:(by rewrite Hl, <- app_assoc, lookup_app_r, Nat.sub_diag))).
  eapply end_nested with (stale2 := if f1 then stale ++ [own num d] else [])
    (tg := if f1 then [] else str "RELEASE"); [apply parse_release; lia|done| |].
  - destruct f1; [by rewrite <- app_assoc|]. unfold own. simpl. by rewrite find_own.
  - destruct f1; [|done]. apply Forall_app. split; [eapply above_weaken; [|done]; lia|].
    repeat constructor. apply own_above.
Qed.

Lemma Tx_BeginFunc_inside tx t num base saves s w f :
  inside t num base saves s w -> handle tx t w -> Tx_BeginFunc fuel ctx tx f w =
  (let* r := tx_Begin fuel ctx t in
   match r with inl e => ret (Some e) | inr s => run_in_tx fuel ctx (Savepoint s) f end) w.
Proof.
  intros (_ & _ & Ht) Hh. destruct tx as [t'|sp]; simpl in Hh |- *.
  - subst t'. unfold tx_BeginFunc, read_tx, bind at 1, read_at. by rewrite Ht.
  - destruct Hh as [k Hk]. unfold sp_BeginFunc, tx_BeginFunc, read_tx, read_sp, bind at 1, read_at. rewrite Hk. simpl.
    unfold bind at 1. by rewrite Ht.
Qed.

Lemma simulates_nested b m run :
  0 <= b -> simulates b m run -> simulates (1 + b) (mean_nested m) (fun tx => Tx_BeginFunc fuel ctx tx run).
Proof.
  intros Hb0 Hm tx t num base saves [d f] w Hi Hh Hn Hb.
  rewrite (Tx_BeginFunc_inside _ _ _ _ _ _ _ _ Hi Hh).
  destruct (tx_Begin_inside t num base saves d f w Hi Hn ltac:(lia)) as (w1 & Eb & Hi1 & Hs1).
  rewrite (bind_eq _ _ _ _ _ Eb). destruct f; simpl.
  { split; [done|]. exists (num + 1), []. rewrite Hs1, app_nil_r. split; [done|]. split; [lia|]. by split. }
  assert (handle (Savepoint (length (sps w))) t w1) as Hh1.
  { exists (num + 1). by rewrite Hs1, lookup_app_r, Nat.sub_diag. }
  specialize (Hm (Savepoint (length (sps w))) t (num + 1) base _ (d, false) w1 Hi1 Hh1 ltac:(lia) ltac:(lia)).
  unfold run_in_tx, defer, bind.
  assert (forall s2 w2, later t (num + 1) b base (own num d :: saves) w1 s2 w2 ->
    exists stale, in_nested t num b base d saves stale w s2 w2) as Hin.
  { intros s2 w2 (num2 & stale & Hi2 & Hn2 & Hst & Hp). exists stale, num2. rewrite <- Hs1. auto. }
  destruct (m (d, false)) as [[e|] [d2 f2]|msg s2|], (run _ w1) as [r w2|msg' w2|]; try done;
    destruct Hm as [<- [stale Hst]%Hin].
  - destruct (rollback_nested _ _ _ _ _ _ _ _ _ _ Hn Hst) as (w3 & E3 & Hl & Hc). simpl. rewrite E3. unfold ret.
    by rewrite (deferred_closed _ _ _ _ _ Hc).
  - destruct (commit_nested _ _ _ _ _ _ _ _ _ _ _ Hn Hst) as (w3 & E3 & Hl & Hc). simpl. rewrite E3.
    rewrite (deferred_closed _ _ _ _ _ Hc). by destruct f2.
  - destruct (rollback_nested _ _ _ _ _ _ _ _ _ _ Hn Hst) as (w3 & E3 & Hl & Hc).
    unfold deferred_rollback, bind. simpl. by rewrite E3.
Qed.

Lemma actions_simulate l :
  forallb (plain parse) l = true ->
  Forall (fun a => simulates (begins a) (mean apply a) (run_action fuel ctx a)) l.
Proof.
  assert (forall a, plain parse a = true -> simulates (begins a) (mean apply a) (run_action fuel ctx a)) as Ha.
  { induction a as [sql b|body b IH|e|msg] using action_nested_ind; intros Hp.
    - by apply simulates_exec.
    - assert (simulates (begins_all body) (until_error (mean apply) body) (run_body fuel ctx body)) as Hb.
      { apply simulates_list. simpl in Hp. rewrite List.forallb_forall in Hp.
        rewrite Forall_forall in IH |- *. intros a Ha. apply IH; [done|]. by apply Hp, list_elem_of_In. }
      apply simulates_nested in Hb; [|apply begins_all_nonneg].
      intros tx t num base saves s w Hi Hh Hn Hlt. specialize (Hb tx t num base saves s w Hi Hh Hn Hlt).
      cbn [mean run_action]. unfold bind. fold (run_body fuel ctx body).
      destruct (mean_nested _ s), (Tx_BeginFunc _ _ _ _ w); try done.
      destruct Hb as [<- Hb]. by split.
    - intros tx t num base saves s w Hi _ _ _. split; [done|]. by apply later_refl.
    - intros tx t num base saves s w Hi _ _ _. split; [done|]. by apply later_refl. }
  intros Hl. induction l as [|a l IH]; [done|]. simpl in Hl. apply andb_true_iff in Hl as [Hpa Hl]. eauto.
Qed.

(** ** The outermost transaction *)

(** Outside of a transaction, and fit to be used again. *)
Definition idle (d : D) (w : world) : Prop := pg w = Postgres.Idle d /\ fit w.

Lemma idle_usable d w : idle d w -> pg_IsClosed (outside w) = false /\ pg_IsBusy (outside w) = false
  /\ TxStatus (outside w) = "I"%char.
Proof.
  intros (Hpg & _ & Hu). destruct (usable_status _ Hu) as (Hc & Hb & Hs). split; [done|]. split; [done|].
  rewrite Hs. unfold pg in Hpg. by rewrite Hpg.
Qed.

Lemma end_tx sql q t num base saves d f w e tg d' :
  parse sql = Some q -> inside t num base saves (d, f) w ->
  Postgres.run_stmt apply q (Postgres.InTx base d saves f) = (e, tg, Postgres.Idle d') ->
  exists tag w1 w2, Conn_Exec fuel ctx sql [] w = Ok (tag, e) w1 /\ close_tx t w1 = Ok tt w2
    /\ (e = None -> tag = tg) /\ idle d' w2 /\ txs w2 !! t = Some (mkDbTx num true).
Proof.
  intros Hq (Hpg & Hp & Ht) E. simpl in Hpg. rewrite <- Hpg in E.
  destruct (Exec_run sql q w _ _ _ Hq Hp E) as (tag & w1 & Ex & Htag & Hx & Hf & _ & _ & Et & _).
  exists tag, w1. eexists. split; [done|]. unfold close_tx, read_tx, bind, read_at. rewrite Et, Ht.
  split; [reflexivity|]. split; [done|]. split; [by split|]. simpl. rewrite Et.
  apply list_lookup_insert_eq. by eapply lookup_lt_Some.
Qed.

Lemma tx_Rollback_inside t num base saves s w :
  inside t num base saves s w ->
  exists w', tx_Rollback fuel ctx t w = Ok None w' /\ idle base w' /\ txs w' !! t = Some (mkDbTx num true).
Proof.
  destruct s as [d f]. intros Hi. pose proof Hi as (_ & _ & Ht).
  destruct (end_tx (str "rollback") _ t num base saves d f w None (str "ROLLBACK") base parse_rollback Hi eq_refl)
    as (tag & w1 & w2 & E1 & E2 & _ & Hpg & Hc).
  exists w2. split; [|done]. unfold tx_Rollback, read_tx, bind, read_at. rewrite Ht. cbn [tx_closed]. by rewrite E1, E2.
Qed.

Lemma tx_Commit_inside t num base saves d (f : bool) w :
  inside t num base saves (d, f) w ->
  exists w', tx_Commit fuel ctx t w = Ok (mean_commit apply base d f).1 w'
    /\ idle (mean_commit apply base d f).2 w' /\ txs w' !! t = Some (mkDbTx num true).
Proof.
  intros Hi. pose proof Hi as (_ & _ & Ht).
  destruct (Postgres.run_stmt apply Postgres.SCommit (Postgres.InTx base d saves f)) as [[e tg] x] eqn:Er.
  assert (x = Postgres.Idle (mean_commit apply base d f).2
    /\ (mean_commit apply base d f).1 = match e with Some e => Some e | None =>
         if bool_decide (tg = str "ROLLBACK") then Some ErrTxCommitRollback else None end) as [-> ->].
  { unfold mean_commit. simpl in Er. destruct f; [by injection Er as <- <- <-|].
    destruct (at_commit apply d); by injection Er as <- <- <-. }
  destruct (end_tx (str "commit") _ t num base saves d f w e tg _ parse_commit Hi Er)
    as (tag & w1 & w2 & E1 & E2 & Htag & Hpg & Hc).
  exists w2. split; [|done]. unfold tx_Commit, read_tx, bind, read_at. rewrite Ht. cbn [tx_closed]. rewrite E1, E2.
  destruct e as [e|]; [|by rewrite (Htag eq_refl); case_bool_decide].
  destruct (idle_usable _ _ Hpg) as (_ & _ & Hs). unfold observe, gets. rewrite Hs. reflexivity.
Qed.

Lemma deferred_done t num w err :
  txs w !! t = Some (mkDbTx num true) -> deferred_rollback fuel ctx (RealTx t) err w = Ok err w.
Proof. intros Ht. unfold deferred_rollback. simpl. unfold tx_Rollback, read_tx, bind, read_at. by rewrite Ht. Qed.

Lemma BeginTx_idle o d w :
  writing o -> idle d w ->
  exists t w', BeginTx fuel ctx o w = Ok (inr t) w' /\ inside t 0 d [] (d, false) w'.
Proof.
  intros Ho [Hpg Hp].
  destruct (Exec_run (beginSQL o) _ w None (str "BEGIN") (Postgres.InTx d d [] false) (parse_begin o Ho) Hp)
    as (tag & w1 & E & _ & Hx & Hf & _).
  { by rewrite Hpg. }
  unfold BeginTx, bind. rewrite E. unfold new_tx, ret.
  eexists _, _. split; [reflexivity|]. split; [done|]. split; [done|]. simpl.
  by rewrite lookup_app_r, Nat.sub_diag.
Qed.

Lemma nested_ends o body d w :
  writing o -> idle d w -> forallb (plain parse) body = true -> begins_all body < 2 ^ 63 ->
  ends (mean_top apply body d) (BeginTxFunc fuel ctx o (run_body fuel ctx body) w) idle.
Proof.
  intros Ho Hidle Hpl Hb. destruct (BeginTx_idle o d w Ho Hidle) as (t & w1 & E1 & Hi).
  pose proof (simulates_list _ (actions_simulate _ Hpl) (RealTx t) t 0 d [] (d, false) w1 Hi eq_refl
    ltac:(lia) ltac:(lia)) as Hm.
  unfold BeginTxFunc. rewrite (bind_eq _ _ _ _ _ E1). unfold run_in_tx, defer, bind, mean_top.
  destruct (until_error (mean apply) body (d, false)) as [[e|] [d2 f2]|msg s2|], (run_body _ _ _ _ w1) as [r w2|msg' w2|];
    try done; destruct Hm as [<- (num2 & stale & Hi2 & _)].
  - destruct (tx_Rollback_inside _ _ _ _ _ _ Hi2) as (w3 & E3 & Hx & Hc). simpl. rewrite E3. unfold ret.
    by rewrite (deferred_done _ _ _ _ Hc).
  - destruct (tx_Commit_inside _ _ _ _ _ _ _ Hi2) as (w3 & E3 & Hx & Hc). simpl. rewrite E3.
    rewrite (deferred_done _ _ _ _ Hc). by destruct (mean_commit apply d d2 f2).
  - destruct (tx_Rollback_inside _ _ _ _ _ _ Hi2) as (w3 & E3 & Hx & Hc).
    unfold deferred_rollback, bind. simpl. by rewrite E3.
Qed.

(** C3. Nested transactions mean what they say: on a server with PostgreSQL's
    transactions and savepoints, a program of statements and of [BeginFunc]s
    nested to any depth in a [BeginTxFunc], with any of the package's options
    but read only, ends with the value and the database of its meaning,
    outside of any transaction and on a connection that can be used again.  A
    nested transaction that returns an error or panics is undone, one that
    returns none is kept in the outer one, and the outermost one happens wholly
    or not at all: not at all when a statement failed that nobody undid, or
    when the server refuses to commit, which [BeginTxFunc] tells. *)
Theorem nested_transactions o body d w :
  writing o -> idle d w -> forallb (plain parse) body = true -> begins_all body < 2 ^ 63 ->
  ends (mean_top apply body d) (BeginTxFunc fuel ctx o (run_body fuel ctx body) w) idle.
Proof. apply nested_ends. Qed.
End Refinement.

(** ** A server

    The smallest connection that keeps these promises: only simple queries are
    supported. *)

Module PgServer.
Section Server.
Context {D : Type} (apply : statements D).

Definition parse (text : gostring) : Postgres.stmt :=
  if bool_decide (text = str "begin") || HasPrefix text (str "begin ") then Postgres.SBegin
  else if bool_decide (text = str "commit") then Postgres.SCommit
  else if bool_decide (text = str "rollback") then Postgres.SRollback
  else if HasPrefix text (str "savepoint ") then Postgres.SSavepoint (drop 10 text)
  else if HasPrefix text (str "release savepoint ") then Postgres.SRelease (drop 18 text)
  else if HasPrefix text (str "rollback to savepoint ") then Postgres.SRollbackTo (drop 22 text)
  else Postgres.SOther text.

Record server := mkServer { tx : Postgres.pgtx (D := D); open : bool; pending : bool; failure : option error; tag : gostring }.

Definition started (text : gostring) (s : server) : server :=
  let '(e, t, x) := Postgres.run_stmt apply (parse text) (tx s) in
  mkServer x (open s) (match e with None => true | Some _ => false end) e t.

Definition unsupported : error := errors_New "unsupported".

Definition answer_to (r : request) (s : server) : reply r * list Notification * server :=
  match r with
  | RClose _ => (None, [], mkServer (Postgres.Idle match tx s with Postgres.Idle d => d | Postgres.InTx base _ _ _ => base end) false false None [])
  | RPrepare _ _ _ => (inl unsupported, [], s)
  | RExec _ sql => (Mrr 0, [], started sql s)
  | RExecParams _ sql _ _ _ _ => (Rr 0, [], started sql s)
  | RExecPrepared _ _ _ _ _ => (Rr 0, [], s)
  | RExecBatch _ _ => (Mrr 0, [], s)
  | RWaitForNotification _ => (None, [], s)
  | RNextResult _ => (pending s, [], mkServer (tx s) (open s) false (failure s) (tag s))
  | RMrrClose _ => (failure s, [], s)
  | RReadAll _ => (failure s, [], s)
  | RNextRow _ => (false, [], s)
  | RRrClose _ => ((tag s, failure s), [], s)
  | RRead _ => ((tag s, failure s), [], s)
  | RCacheBuild _ => (Cache 0, [], s)
  | RCacheGet _ _ _ => (inl unsupported, [], s)
  | RStatementErrored _ _ _ => (tt, [], s)
  | RPlanScan _ _ _ => (Plan 0, [], s)
  | RScanInto _ _ _ _ _ => (inl unsupported, [], s)
  | RConnInfoScan _ _ _ _ => (inl unsupported, [], s)
  | RMapKeys keys => (keys, [], s)
  | RCopyStart _ _ => (tt, [], s)
  | RCopyWrite _ => (Some unsupported, [], s)
  | RCopyEnd e => (([], e), [], s)
  end.

Definition pgconn : PgConn := {|
  net := server;
  pg_IsClosed := fun s => negb (open s);
  pg_IsBusy := pending;
  PID := fun _ => 1;
  TxStatus := fun s => Postgres.status (tx s);
  ParameterStatus := fun _ _ => str "on";
  ResultReader := fun _ _ => Rr 0;
  rr_FieldDescriptions := fun _ _ => [];
  rr_Values := fun _ _ => [];
  cache_Mode := fun _ _ => ModePrepare;
  cache_Cap := fun _ _ => 0;
  RowsAffected := fun _ => 0;
  serve := answer_to
|}.

Lemma server_begin o : writing o -> parse (beginSQL o) = Postgres.SBegin.
Proof.
  intros [Ho%valid_options_all _]. revert o Ho. apply Forall_forall.
  unfold all_options, iso_levels, access_modes, deferrable_modes. simpl. repeat constructor.
Qed.
Lemma server_savepoint n : parse (str "savepoint " ++ n) = Postgres.SSavepoint n.
Proof.
  unfold parse. rewrite !bool_decide_eq_false_2 by discriminate. change (HasPrefix _ (str "begin ")) with false. by rewrite HasPrefix_app.
Qed.
Lemma server_release n : parse (str "release savepoint " ++ n) = Postgres.SRelease n.
Proof.
  unfold parse. rewrite !bool_decide_eq_false_2 by discriminate. change (HasPrefix _ (str "begin ")) with false.
  change (HasPrefix _ (str "savepoint ")) with false. by rewrite HasPrefix_app.
Qed.
Lemma server_rollback_to n : parse (str "rollback to savepoint " ++ n) = Postgres.SRollbackTo n.
Proof.
  unfold parse. rewrite !bool_decide_eq_false_2 by discriminate. change (HasPrefix _ (str "begin ")) with false.
  change (HasPrefix _ (str "savepoint ")) with false. change (HasPrefix _ (str "release savepoint ")) with false.
  by rewrite HasPrefix_app.
Qed.

#[export] Instance transactions ctx : @PgTransactions pgconn D apply ctx.
Proof.
  refine {| tx_state := tx : @net pgconn -> _; Nested.parse := fun sql => Some (parse sql);
    usable := fun s : @net pgconn => open s = true /\ pending s = false |}.
  - intros o Ho. exact (f_equal Some (server_begin o Ho)).
  - done.
  - done.
  - intros k _ n. exact (f_equal Some (server_savepoint n)).
  - intros k _ n. exact (f_equal Some (server_release n)).
  - intros k _ n. exact (f_equal Some (server_rollback_to n)).
  - intros sql text [= E]. revert E. unfold parse. repeat (destruct (_ || _) || case_bool_decide || case_match); try done; by intros [= ->].
  - intros s [Ho Hb]. simpl. by rewrite Ho, Hb.
  - intros sql q s e t x [= <-] [Ho _] E. exists (Mrr 0), (started sql s).
    exists (mkServer x true false e t). unfold started. rewrite E, Ho.
    split; [split; [done|simpl; unfold started; by rewrite E, Ho]|]. split; [|done].
    destruct e as [e|]; simpl.
    + eexists. by repeat split.
    + eexists _, _, _, _. by repeat split.
Defined.
End Server.
End PgServer.

(** ** On a database *)

(** The statements that were executed, the last one first; "bad" fails. *)
Module Ledger.
Definition execute (sql : gostring) (d : list gostring) : error + list gostring :=
  if bool_decide (sql = str "bad") then inl (Toy.failed sql) else inr (sql :: d).

(** "deferred" is found to be wrong at the end. *)
Definition apply : statements (list gostring) :=
  mkStatements execute
    (fun d => if bool_decide (str "deferred" ∈ d) then Some (Toy.failed (str "commit")) else None).

#[local] Hint Extern 0 PgConn => exact (PgServer.pgconn apply) : typeclass_instances.

#[export] Instance decoders : @PgDecoders Sample.types (PgServer.pgconn apply) := {|
  dt_TextDecoder := fun _ => None;
  dt_BinaryDecoder := fun _ => None;
  GenericText_Decode := fun b => inr (VString None b);
  GenericBinary_Decode := fun b => inr (VBytes None b);
  dt_Get := fun _ _ => VInt KInt32 None 0
|}.

Definition start (d : list gostring) : world :=
  mkWorld (Toy.connection false None) (PgServer.mkServer (Postgres.Idle d) true false None []) [] [] [] [] [] [].

(** A nested transaction that is kept, with one in it that is undone. *)
Definition program : list action :=
  [AExec (str "one") false;
   ANested [AExec (str "two") false; ANested [AExec (str "three") false; AExec (str "bad") false] true;
            AExec (str "four") false] false].
End Ledger.

#[local] Existing Instance Sample.types.
#[local] Hint Extern 0 PgConn => exact (PgServer.pgconn Ledger.apply) : typeclass_instances.
#[local] Existing Instance Ledger.decoders.
#[local] Existing Instance PgServer.transactions.

Lemma nested_transactions_witness :
  let o := mkTxOptions Serializable ReadWrite Deferrable in
  let w' := final (BeginTxFunc 3 Background o (run_body 3 Background Ledger.program)) (Ledger.start [str "zero"]) in
  idle Ledger.apply Background [str "four"; str "two"; str "one"; str "zero"] w'.
Proof.
  intros o w'.
  pose proof (nested_transactions Ledger.apply 3 Background ltac:(lia) o Ledger.program [str "zero"]
    (Ledger.start [str "zero"]) (writing_by_test o ltac:(evaluates)) ltac:(by repeat split) eq_refl eq_refl) as N.
  assert (mean_top Ledger.apply Ledger.program [str "zero"] = Ok None [str "four"; str "two"; str "one"; str "zero"])
    as E by evaluates.
  rewrite E in N. apply ends_final in N as [_ N]. exact N.
Defined.

(** A nested transaction whose function goes on after a failed statement and
    returns no error: the savepoint cannot be released, which closes it, and
    the deferred rollback does nothing.  The error is returned and the outer
    transaction, which goes on after it, stays aborted. *)
Definition swallowing : list action :=
  [AExec (str "one") false; ANested [AExec (str "bad") true] true; AExec (str "two") false].

Theorem failed_release_is_not_rolled_back :
  let f := run_body 3 Background swallowing in
  value (BeginFunc 3 Background f) (Ledger.start []) = Some (Some Postgres.aborted)
  /\ pg Ledger.apply Background (final (BeginFunc 3 Background f) (Ledger.start [])) = Postgres.Idle []
  /\ existsb (fun r => match r with RExec _ sql => HasPrefix sql (str "rollback to") | _ => false end)
       (requests (trace (final (BeginFunc 3 Background f) (Ledger.start [])))) = false.
Proof. intros f. split_and!; evaluates. Qed.
