(* ===== verification/LargeObjects.v ===== *)
(** Large objects (large_objects.go): each operation is one query in the
    transaction, whose single value is scanned. *)

From S2P Require Import Prelude GoStd GoVal Effects Values PgConn Logger World Toy Rows Config Conn Batch.
From S2P Require Import CopyFrom Tx.

Local Open Scope Z_scope.

Definition LargeObjectModeWrite : Z := 131072.
Definition LargeObjectModeRead : Z := 262144.

Record LargeObject := mkLargeObject { lo_ctx : context; lo_tx : Tx; lo_fd : Z }.

Section LargeObjects.
Context `{PgTypes} `{PgConn} `{!PgDecoders}.
Context (fuel : nat).

(** [tx.QueryRow(ctx, sql, args...).Scan(&v)]: the error and what the scan left
    in [v], if it got that far. *)
Definition query_value (ctx : context) (tx : Tx) (sql : gostring) (args : list goval) (dst : goval)
  : M world (option error * option goval) :=
  let* p := Tx_QueryRow fuel ctx tx sql args in
  let* '(err, stored) := row_Scan p [dst] in
  ret (err, match stored with [v] => v | _ => None end).

(** A variable after a scan: the scanned value, or the one it had. *)
Definition scanned_int (init : Z) (v : option goval) : Z :=
  match v with Some (VInt _ _ z) => z | _ => init end.
Definition scanned_bytes (v : option goval) : gostring :=
  match v with Some (VBytes _ b) => b | _ => [] end.

Definition int_ptr (k : ikind) (z : Z) : goval := VPtr (ikind_name k) (VInt k None z).

Definition lo_Create (ctx : context) (tx : Tx) (oid : Z) : M world (Z * option error) :=
  let* '(err, v) := query_value ctx tx (str "select lo_create($1)") [VInt KUint32 None oid]
                      (int_ptr KUint32 oid) in
  ret (scanned_int oid v, err).

Definition lo_Open (ctx : context) (tx : Tx) (oid mode : Z) : M world (error + LargeObject) :=
  let* '(err, v) := query_value ctx tx (str "select lo_open($1, $2)")
                      [VInt KUint32 None oid; VInt KInt32 (Some (str "pgx.LargeObjectMode")) mode]
                      (int_ptr KInt32 0) in
  ret match err with
      | Some e => inl e
      | None => inr (mkLargeObject ctx tx (scanned_int 0 v))
      end.

Definition lo_Unlink (ctx : context) (tx : Tx) (oid : Z) : M world (option error) :=
  let* '(err, v) := query_value ctx tx (str "select lo_unlink($1)") [VInt KUint32 None oid]
                      (int_ptr KInt32 0) in
  ret match err with
      | Some e => Some e
      | None => if scanned_int 0 v =? 1 then None else Some (errors_New "failed to remove large object")
      end.

Definition lo_Write (o : LargeObject) (p : gostring) : M world (Z * option error) :=
  let* '(err, v) := query_value (lo_ctx o) (lo_tx o) (str "select lowrite($1, $2)")
                      [VInt KInt32 None (lo_fd o); VBytes None p] (int_ptr KInt 0) in
  let n := scanned_int 0 v in
  ret match err with
      | Some e => (n, Some e)
      | None => if n <? 0 then (0, Some (errors_New "failed to write to large object")) else (n, None)
      end.

(** [copy(p, res)]: the content of [p] afterwards. *)
Definition go_copy (p res : gostring) : gostring := take (length p) res ++ drop (length res) p.

(** The new content of the buffer is returned with the count and the error. *)
Definition lo_Read (o : LargeObject) (p : gostring) : M world (Z * option error * gostring) :=
  let* '(err, v) := query_value (lo_ctx o) (lo_tx o) (str "select loread($1, $2)")
                      [VInt KInt32 None (lo_fd o); VInt KInt None (Z.of_nat (length p))]
                      (VPtr (str "[]uint8") (VBytes None [])) in
  let res := scanned_bytes v in
  let err' := match err with
              | Some e => Some e
              | None => if (length res <? length p)%nat then Some EOF else None
              end in
  ret (Z.of_nat (length res), err', go_copy p res).

Definition lo_Seek (o : LargeObject) (offset whence : Z) : M world (Z * option error) :=
  let* '(err, v) := query_value (lo_ctx o) (lo_tx o) (str "select lo_lseek64($1, $2, $3)")
                      [VInt KInt32 None (lo_fd o); VInt KInt64 None offset; VInt KInt None whence]
                      (int_ptr KInt64 0) in
  ret (scanned_int 0 v, err).

Definition lo_Tell (o : LargeObject) : M world (Z * option error) :=
  let* '(err, v) := query_value (lo_ctx o) (lo_tx o) (str "select lo_tell64($1)")
                      [VInt KInt32 None (lo_fd o)] (int_ptr KInt64 0) in
  ret (scanned_int 0 v, err).

Definition lo_Truncate (o : LargeObject) (size : Z) : M world (option error) :=
  let* '(_, err) := Tx_Exec fuel (lo_ctx o) (lo_tx o) (str "select lo_truncate64($1, $2)")
                      [VInt KInt32 None (lo_fd o); VInt KInt64 None size] in
  ret err.

Definition lo_Close (o : LargeObject) : M world (option error) :=
  let* '(_, err) := Tx_Exec fuel (lo_ctx o) (lo_tx o) (str "select lo_close($1)")
                      [VInt KInt32 None (lo_fd o)] in
  ret err.

(** ** Theorems *)

(** A read reports as many bytes as the server sent, the buffer starts with
    them and keeps its length and its other bytes, and a read without error
    filled the buffer: a short one is an end of file. *)
Theorem lo_Read_spec o p w n err p' w' :
  lo_Read o p w = Ok (n, err, p') w' ->
  exists res, n = Z.of_nat (length res)
  /\ length p' = length p
  /\ (forall i, (i < length p)%nat ->
        p' !! i = if (i <? length res)%nat then res !! i else p !! i)
  /\ (err = None -> (length p <= length res)%nat).
Proof.
  unfold lo_Read. intros E. inv_ok E. destruct a as [err0 v]. injection E as <- <- <- <-.
  set (res := scanned_bytes v). exists res. split; [done|]. unfold go_copy. split; [|split].
  - rewrite length_app, length_take, length_drop. lia.
  - intros i Hi. destruct (Nat.ltb_spec i (length res)) as [Hr|Hr].
    + rewrite lookup_app_l by (rewrite length_take; lia). by rewrite lookup_take_lt.
    + rewrite lookup_app_r by (rewrite length_take; lia).
      rewrite length_take, lookup_drop. f_equal. lia.
  - destruct err0; [done|]. destruct (Nat.ltb_spec (length res) (length p)); [done|lia].
Qed.

End LargeObjects.

(** ** Examples on the small server *)

#[local] Existing Instance Sample.types.
#[local] Existing Instance Toy.pgconn.
#[local] Existing Instance Toy.decoders.

(** A read of six bytes, of which the server sends four. *)
Definition six_bytes : gostring := str "......".
Definition read_six : M world (Z * option error * gostring) :=
  lo_Read 5 (mkLargeObject Background (RealTx 0) 3) six_bytes.

Lemma lo_Read_spec_witness :
  exists n err p', read_six in_tx = Ok (n, err, p') (final read_six in_tx) /\ length p' = 6%nat.
Proof.
  destruct (value read_six in_tx) as [[[n err] p']|] eqn:E; [|vm_compute in E; discriminate].
  exists n, err, p'. apply final_run in E. split; [exact E|].
  destruct (lo_Read_spec 5 (mkLargeObject Background (RealTx 0) 3) six_bytes in_tx _ _ _ _ E)
    as (res & _ & Hl & _). exact Hl.
Defined.

(** The server wrote seven of the nine bytes, and [Write] reports no error. *)
Theorem short_write_without_error :
  let w' := final (lo_Write 5 (mkLargeObject Background (RealTx 0) 3) (str "123456789")) in_tx in
  lo_Write 5 (mkLargeObject Background (RealTx 0) 3) (str "123456789") in_tx = Ok (7, None) w'.
Proof. intros w'. runs. Qed.
