(* ===== verification/LargeFiles.v ===== *)
(** Large objects as files (large_objects.go).

    [LargeFns] says what PostgreSQL documents of its large object functions, of
    their types and of the formats of these.  The class [PgLargeTypes] is what is
    relied on of pgtype for these types, and [PgLargeObjects] is a server whose
    statements "select lowrite($1, $2)" and the like call the functions.  On it
    the operations of a [LargeObject] are those of a file: what is written can be
    sought and read again, and it is the content of the object afterwards. *)

From S2P Require Import Prelude GoStd GoVal Effects SanitizeSafety Values PgConn Logger World Toy Rows Config Conn.
From S2P Require Import RowsRead QueryRead Batch CopyFrom Tx LargeObjects.

Local Open Scope Z_scope.

(** ** Bytes with a position *)

Definition zeros (n : Z) : gostring := repeat (byte_of 0) (Z.to_nat n).

Definition len (b : gostring) : Z := Z.of_nat (length b).

(** Writing beyond the end leaves zeros in between. *)
Definition overwrite (c : gostring) (pos : Z) (b : gostring) : gostring :=
  take (Z.to_nat pos) (c ++ zeros (pos - len c)) ++ b ++ drop (Z.to_nat (pos + len b)) c.

Definition slice (c : gostring) (pos n : Z) : gostring := take (Z.to_nat n) (drop (Z.to_nat pos) c).

Definition resize (c : gostring) (n : Z) : gostring := take (Z.to_nat n) (c ++ zeros (n - len c)).

(** The largest size, 2147483647 pages of 2048 bytes. *)
Definition max_size : Z := 2147483647 * 2048.

Definition seek (c : gostring) (pos offset whence : Z) : option Z :=
  let base := if whence =? 0 then Some 0 else if whence =? 1 then Some pos
              else if whence =? 2 then Some (len c) else None in
  match base with
  | Some b => if (0 <=? b + offset) && (b + offset <=? max_size) then Some (b + offset) else None
  | None => None
  end.

(** ** PostgreSQL's functions *)

Module LargeFns.
Inductive call :=
| LoCreate (oid : Z) | LoOpen (oid mode : Z) | LoUnlink (oid : Z)
| LoWrite (fd : Z) (b : gostring) | LoRead (fd n : Z) | LoSeek (fd offset whence : Z)
| LoTell (fd : Z) | LoTruncate (fd size : Z) | LoClose (fd : Z).

Inductive val := ValInt (z : Z) | ValBytes (b : gostring).

(** An open descriptor: one opened for reading only sees the object as it was. *)
Record fd_state := mkFd { fd_oid : Z; fd_pos : Z; fd_snapshot : option gostring }.

Record state := mkState { objects : gmap Z gostring; fds : gmap Z fd_state }.

Section Run.
(** The number the server gives to a new descriptor, if there can be another. *)
Context (new_fd : gmap Z fd_state -> option Z).

Definition with_fd {A} (fd : Z) (st : state) (f : fd_state -> option A) : option A := fds st !! fd ≫= f.

(** What a descriptor reads. *)
Definition readable (st : state) (x : fd_state) : option gostring :=
  match fd_snapshot x with Some c => Some c | None => objects st !! fd_oid x end.

Definition set_fd (fd : Z) (x : fd_state) (st : state) : state := mkState (objects st) (<[fd := x]> (fds st)).
Definition move (x : fd_state) (pos : Z) : fd_state := mkFd (fd_oid x) pos (fd_snapshot x).
Definition store (x : fd_state) (c : gostring) (st : state) : state := mkState (<[fd_oid x := c]> (objects st)) (fds st).

(** Only a descriptor opened for writing writes. *)
Definition writable (st : state) (x : fd_state) : option gostring :=
  match fd_snapshot x with Some _ => None | None => objects st !! fd_oid x end.

(** A call returns a value, or is refused. *)
Definition run (c : call) (st : state) : option (val * state) :=
  match c with
  | LoCreate oid =>
      if (oid =? 0) || bool_decide (is_Some (objects st !! oid)) then None
      else Some (ValInt oid, mkState (<[oid := []]> (objects st)) (fds st))
  | LoOpen oid mode =>
      c ← objects st !! oid;
      fd ← new_fd (fds st);
      let snapshot := if Z.land mode LargeObjectModeWrite =? 0 then Some c else None in
      Some (ValInt fd, set_fd fd (mkFd oid 0 snapshot) st)
  | LoUnlink oid =>
      _ ← objects st !! oid;
      Some (ValInt 1, mkState (delete oid (objects st)) (fds st))
  | LoWrite fd b =>
      with_fd fd st (fun x =>
        c ← writable st x;
        if fd_pos x + len b <=? max_size
        then Some (ValInt (len b), set_fd fd (move x (fd_pos x + len b)) (store x (overwrite c (fd_pos x) b) st))
        else None)
  | LoRead fd n =>
      with_fd fd st (fun x =>
        c ← readable st x;
        let b := slice c (fd_pos x) n in
        Some (ValBytes b, set_fd fd (move x (fd_pos x + len b)) st))
  | LoSeek fd offset whence =>
      with_fd fd st (fun x =>
        c ← readable st x;
        pos ← seek c (fd_pos x) offset whence;
        Some (ValInt pos, set_fd fd (move x pos) st))
  | LoTell fd => with_fd fd st (fun x => Some (ValInt (fd_pos x), st))
  | LoTruncate fd size =>
      with_fd fd st (fun x =>
        c ← writable st x;
        if (0 <=? size) && (size <=? max_size) then Some (ValInt 0, store x (resize c size) st) else None)
  | LoClose fd => with_fd fd st (fun _ => Some (ValInt 0, mkState (objects st) (delete fd (fds st))))
  end.
End Run.

(** *** Types and formats *)

Inductive pg_type := TOid | TInt4 | TInt8 | TBytea.

Definition type_oid (t : pg_type) : Z :=
  match t with TOid => 26 | TInt4 => 23 | TInt8 => 20 | TBytea => 17 end.

Definition in_type (t : pg_type) (v : val) : Prop :=
  match t, v with
  | TOid, ValInt z => 0 <= z < 2 ^ 32
  | TInt4, ValInt z => in_s 32 z
  | TInt8, ValInt z => in_s 64 z
  | TBytea, ValBytes b => True
  | _, _ => False
  end.

Definition be64 (z : Z) : gostring := be32 (Z.shiftr z 32) ++ be32 z.

(** The formats, text (0) and binary (1): integers in decimals or in big-endian
    order, byte strings in hexadecimal digits (the output that [bytea_output]
    chooses by default) or as they are. *)
Definition is_format (f : Z) : Prop := f = TextFormatCode \/ f = BinaryFormatCode.

Definition wire (t : pg_type) (f : Z) (v : val) : gostring :=
  match t, v with
  | TBytea, ValBytes b => if f =? BinaryFormatCode then b else str "\x" ++ EncodeToString b
  | TInt8, ValInt z => if f =? BinaryFormatCode then be64 z else FormatInt z
  | _, ValInt z => if f =? BinaryFormatCode then be32 z else FormatInt z
  | _, ValBytes _ => []
  end.

(** The parameters of the functions with their values, and the type of the
    result. *)
Definition parameters (c : call) : list (pg_type * val) :=
  match c with
  | LoCreate oid => [(TOid, ValInt oid)]
  | LoOpen oid mode => [(TOid, ValInt oid); (TInt4, ValInt mode)]
  | LoUnlink oid => [(TOid, ValInt oid)]
  | LoWrite fd b => [(TInt4, ValInt fd); (TBytea, ValBytes b)]
  | LoRead fd n => [(TInt4, ValInt fd); (TInt4, ValInt n)]
  | LoSeek fd offset whence => [(TInt4, ValInt fd); (TInt8, ValInt offset); (TInt4, ValInt whence)]
  | LoTell fd => [(TInt4, ValInt fd)]
  | LoTruncate fd size => [(TInt4, ValInt fd); (TInt8, ValInt size)]
  | LoClose fd => [(TInt4, ValInt fd)]
  end.

Definition result_type (c : call) : pg_type :=
  match c with
  | LoCreate _ => TOid
  | LoRead _ _ => TBytea
  | LoSeek _ _ _ | LoTell _ => TInt8
  | LoOpen _ _ | LoUnlink _ | LoWrite _ _ | LoTruncate _ _ | LoClose _ => TInt4
  end.

Definition param_oids (c : call) : list Z := map (fun p => type_oid p.1) (parameters c).

(** The values of the parameters in the formats [fs]. *)
Definition wires (c : call) (fs : list Z) : list (option gostring) :=
  zip_with (fun p f => Some (wire p.1 f p.2)) (parameters c) fs.

(** The statements of the driver, and their arguments. *)
Definition text (c : call) : gostring :=
  match c with
  | LoCreate _ => str "select lo_create($1)"
  | LoOpen _ _ => str "select lo_open($1, $2)"
  | LoUnlink _ => str "select lo_unlink($1)"
  | LoWrite _ _ => str "select lowrite($1, $2)"
  | LoRead _ _ => str "select loread($1, $2)"
  | LoSeek _ _ _ => str "select lo_lseek64($1, $2, $3)"
  | LoTell _ => str "select lo_tell64($1)"
  | LoTruncate _ _ => str "select lo_truncate64($1, $2)"
  | LoClose _ => str "select lo_close($1)"
  end.

Definition arguments (c : call) : list goval :=
  let oid_arg z := VInt KUint32 None z in
  let fd_arg z := VInt KInt32 None z in
  match c with
  | LoCreate oid => [oid_arg oid]
  | LoOpen oid mode => [oid_arg oid; VInt KInt32 (Some (str "pgx.LargeObjectMode")) mode]
  | LoUnlink oid => [oid_arg oid]
  | LoWrite fd b => [fd_arg fd; VBytes None b]
  | LoRead fd n => [fd_arg fd; VInt KInt None n]
  | LoSeek fd offset whence => [fd_arg fd; VInt KInt64 None offset; VInt KInt None whence]
  | LoTell fd => [fd_arg fd]
  | LoTruncate fd size => [fd_arg fd; VInt KInt64 None size]
  | LoClose fd => [fd_arg fd]
  end.

(** Arguments that fit the types of the functions. *)
Definition oid_fits (z : Z) : Prop := 0 <= z < 2 ^ 32.
Definition fits (c : call) : Prop :=
  match c with
  | LoCreate oid | LoUnlink oid => oid_fits oid
  | LoOpen oid mode => oid_fits oid /\ in_s 32 mode
  | LoWrite fd b => in_s 32 fd /\ len b < 2 ^ 31
  | LoRead fd n => in_s 32 fd /\ 0 <= n < 2 ^ 31
  | LoSeek fd offset whence => in_s 32 fd /\ in_s 64 offset /\ in_s 32 whence
  | LoTruncate fd size => in_s 32 fd /\ in_s 64 size
  | LoTell fd | LoClose fd => in_s 32 fd
  end.
End LargeFns.

(** ** What is relied on of pgtype *)

(** A Go value that holds a value of a type: a [uint32] for an oid, an integer
    of any kind, among them the [LargeObjectMode] of the driver, or a slice that
    is not nil. *)
Inductive go_holds : LargeFns.pg_type -> LargeFns.val -> goval -> Prop :=
| holds_oid z : go_holds LargeFns.TOid (LargeFns.ValInt z) (VInt KUint32 None z)
| holds_int t k named z : t = LargeFns.TInt4 \/ t = LargeFns.TInt8 ->
    named = None \/ named = Some (str "pgx.LargeObjectMode") -> go_holds t (LargeFns.ValInt z) (VInt k named z)
| holds_bytes b : go_holds LargeFns.TBytea (LargeFns.ValBytes b) (VBytes None b).

(** A destination, and what it holds when the value was scanned into it. *)
Inductive go_takes : LargeFns.pg_type -> LargeFns.val -> goval -> goval -> Prop :=
| takes_oid z z0 : go_takes LargeFns.TOid (LargeFns.ValInt z) (int_ptr KUint32 z0) (VInt KUint32 None z)
| takes_int t k z z0 : t = LargeFns.TInt4 \/ t = LargeFns.TInt8 -> ikind_ok k z ->
    go_takes t (LargeFns.ValInt z) (int_ptr k z0) (VInt k None z)
| takes_bytes b : go_takes LargeFns.TBytea (LargeFns.ValBytes b) (VPtr (str "[]uint8") (VBytes None [])) (VBytes None b).

(** The registry has the types, the value of one takes the Go values, and it
    encodes them in both formats. *)
Definition type_encodes `{PgTypes} (t : LargeFns.pg_type) (dt : DataType) (v : LargeFns.val) (arg : goval) : Prop :=
  exists x, dt_Set dt arg = inr x /\ is_nil x = false /\ is_nil_ptr x = false /\ as_string x = None
    /\ forall f, LargeFns.is_format f -> exists enc, encoder_for f x = Some enc
      /\ forall buf, enc (Some buf) = inr (Some (buf ++ LargeFns.wire t f v)).

Class PgLargeTypes `{PgTypes} `{PgConn} := {
  (** the integers and slices of Go have no methods *)
  no_methods t v arg : go_holds t v arg ->
    as_BinaryEncoder arg = None /\ as_TextEncoder arg = None /\ as_Valuer arg = None /\ as_ParamFormatPreferrer arg = None;
  param_format t : LargeFns.is_format (ParamFormatCodeForOID (LargeFns.type_oid t));
  result_format t : LargeFns.is_format (ResultFormatCodeForOID (LargeFns.type_oid t));
  registered t : exists dt, DataTypeForOID (LargeFns.type_oid t) = Some dt
    /\ forall v arg, LargeFns.in_type t v -> go_holds t v arg -> type_encodes t dt v arg;
  (** the plan for a type and a destination decodes the formats of the type *)
  scan_plan t f v dst a n1 n2 : LargeFns.is_format f -> LargeFns.in_type t v -> go_takes t v dst a ->
    let pl := (serve (RPlanScan (LargeFns.type_oid t) f dst) n1).1.1 in
    (serve (RScanInto pl (LargeFns.type_oid t) f (Some (LargeFns.wire t f v)) dst) n2).1.1 = inr a
}.

(** ** What is relied on of the server

    The data of the session are the large objects and the descriptors of a
    transaction that did not fail.  The statements can be described, with the
    types of the function.  A function whose call is not refused returns its
    value as a row with one column, in the format that was asked for. *)
Class PgLargeObjects `{PgConn} `{!PgQueries LargeFns.state} := {
  new_fd : gmap Z LargeFns.fd_state -> option Z;
  new_fd_fresh m fd : new_fd m = Some fd -> m !! fd = None /\ in_s 32 fd;
  lo_described c ctx call n s : live ctx -> at_rest n s ->
    exists sd, (serve (RCacheGet c ctx (LargeFns.text call)) n).1.1 = inr sd
      /\ ParamOIDs sd = LargeFns.param_oids call
      /\ map DataTypeOID (Fields sd) = [LargeFns.type_oid (LargeFns.result_type call)];
  lo_runs call fs f s v st : LargeFns.fits call ->
    Forall LargeFns.is_format fs -> length fs = length (LargeFns.parameters call) -> LargeFns.is_format f ->
    LargeFns.run new_fd call (data s) = Some (v, st) ->
    exists fd, DataTypeOID fd = LargeFns.type_oid (LargeFns.result_type call) /\ Format fd = f
      /\ runs s (mkStatement (LargeFns.text call) (LargeFns.param_oids call)) (mkBinding (LargeFns.wires call fs) fs [f])
         = mkAnswered [fd] (mkResult [[Some (LargeFns.wire (LargeFns.result_type call) f v)]] (str "SELECT 1") None)
             (mkSession st (prepared s))
}.

(** ** The client *)

Section Client.
Context `{PgConn}.

(** A transaction that is open. *)
Definition tx_open (tx : Tx) (w : world) : Prop :=
  match tx with
  | RealTx t => exists n, txs w !! t = Some (mkDbTx n false)
  | Savepoint p => exists t k n, sps w !! p = Some (mkDbSavepoint t k false) /\ txs w !! t = Some (mkDbTx n false)
  end.

(** A connection with a cache, in the extended protocol, without statements that
    the application prepared. *)
Definition lo_client (tx : Tx) (w : world) : Prop :=
  preparedStatements (conn w) = ∅ /\ stmtcache (conn w) <> None
  /\ PreferSimpleProtocol (config (conn w)) = false /\ tx_open tx w.

Definition client_frame (w w' : world) : Prop := conn_frame w w' /\ same_prepared w w'.

Lemma lo_client_frame tx w w' : client_frame w w' -> lo_client tx w -> lo_client tx w'.
Proof.
  intros [(_ & (Et & Es) & Ec & Esc & _) Ep] (Hp & Hc & Hs & Ho). unfold lo_client, tx_open.
  rewrite Ep, Ec, Esc, Et, Es. done.
Qed.

End Client.

Section Frames.
Context `{PgTypes} `{PgConn} `{!PgDecoders}.
Context (fuel : nat).

Lemma prepared_Close p : keeps same_prepared (rows_Close p).
Proof. unfold rows_Close, rows_close_reader, rows_close_multi, rows_report, read_rows. keeps_tac. Qed.
#[local] Hint Resolve prepared_Close : keeps.
Lemma prepared_fatal p e : keeps same_prepared (rows_fatal p e).
Proof. unfold rows_fatal, read_rows. keeps_tac. Qed.
Lemma prepared_Err p : keeps same_prepared (rows_Err p).
Proof. unfold rows_Err, read_rows. keeps_tac. Qed.
Lemma prepared_Next p : keeps same_prepared (rows_Next p).
Proof. unfold rows_Next, read_rows. keeps_tac. Qed.
Lemma prepared_plan_scans fds dest : keeps same_prepared (plan_scans fds dest).
Proof. revert dest. induction fds as [|fd fds IH]; intros [|dst dest]; cbn [plan_scans]; keeps_tac. Qed.
Lemma prepared_scan_columns i fds ps vs dest acc : keeps same_prepared (scan_columns i fds ps vs dest acc).
Proof.
  revert i fds ps vs acc. induction dest as [|dst dest IH]; intros i [|fd fds] ps [|v vs] acc;
    cbn [scan_columns]; keeps_tac.
Qed.
#[local] Hint Resolve prepared_fatal prepared_Err prepared_Next prepared_plan_scans prepared_scan_columns : keeps.
Lemma prepared_row_Scan p dest : keeps same_prepared (row_Scan p dest).
Proof. unfold row_Scan, rows_Scan, rows_FieldDescriptions, read_rows. keeps_tac. Qed.

Lemma prepared_append oids args : keeps same_prepared (eqb_append_params fuel oids args).
Proof. unfold eqb_append_params. keeps_tac. Qed.
#[local] Hint Resolve prepared_append : keeps.
Lemma prepared_extended ctx p sql o sd : keeps same_prepared (query_extended fuel ctx p sql o sd).
Proof. unfold query_extended, query_send, query_formats, query_fails, eqb_append_results, reset_eqb. keeps_tac. Qed.
Lemma prepared_simple ctx p sql args : keeps same_prepared (query_simple fuel ctx p sql args).
Proof. unfold query_simple, sanitizeForSimpleQuery. keeps_tac. Qed.
#[local] Hint Resolve prepared_extended prepared_simple : keeps.
Lemma prepared_Query ctx sql args : keeps same_prepared (Conn_Query fuel ctx sql args).
Proof. unfold Conn_Query, getRows, get_prepared, query_describe, query_fails, reset_eqb. keeps_tac. Qed.

Lemma prepared_Prepare_unnamed ctx sql : keeps same_prepared (Conn_Prepare ctx [] sql).
Proof.
  unfold Conn_Prepare. rewrite (bool_decide_eq_true_2 (([] : gostring) = [])) by done. unfold get_prepared, when.
  cbn [negb andb]. keeps_tac.
Qed.
Lemma prepared_prefix sd args : keeps same_prepared (execParamsAndPreparedPrefix fuel sd args).
Proof. unfold execParamsAndPreparedPrefix, eqb_append_results, reset_eqb. keeps_tac. Qed.
#[local] Hint Resolve prepared_Prepare_unnamed prepared_prefix : keeps.
Lemma prepared_Exec ctx sql args : keeps same_prepared (Conn_Exec fuel ctx sql args).
Proof.
  unfold Conn_Exec, conn_exec, get_prepared, execSimpleProtocol, exec_results, sanitizeForSimpleQuery,
    execParams, execPrepared, reset_eqb. keeps_tac.
Qed.

(** The three steps keep the client. *)
Lemma client_Query ctx sql args : keeps client_frame (Conn_Query fuel ctx sql args).
Proof. apply keeps_and; [apply keeps_Query|apply prepared_Query]. Qed.
Lemma client_row_Scan p dest : keeps client_frame (row_Scan p dest).
Proof. apply keeps_and; [apply keeps_row_Scan|apply prepared_row_Scan]. Qed.
Lemma client_Exec ctx sql args : keeps client_frame (Conn_Exec fuel ctx sql args).
Proof. apply keeps_and; [apply keeps_Exec|apply prepared_Exec]. Qed.

(** The methods of an open transaction are those of its connection. *)
Lemma Tx_QueryRow_open ctx tx sql args w :
  tx_open tx w -> Tx_QueryRow fuel ctx tx sql args w = Conn_QueryRow fuel ctx sql args w.
Proof.
  unfold Tx_QueryRow, sp_QueryRow, sp_Query, tx_QueryRow, tx_Query, Conn_QueryRow, read_tx, read_sp, bind, read_at.
  destruct tx as [t|p].
  - intros [n ->]. done.
  - intros (t & k & n & -> & Ht). simpl. by rewrite Ht.
Qed.

Lemma Tx_Exec_open ctx tx sql args w :
  tx_open tx w -> Tx_Exec fuel ctx tx sql args w = Conn_Exec fuel ctx sql args w.
Proof.
  unfold Tx_Exec, sp_Exec, tx_Exec, read_tx, read_sp, bind, read_at. destruct tx as [t|p].
  - intros [n ->]. done.
  - intros (t & k & n & -> & Ht). simpl. by rewrite Ht.
Qed.
End Frames.

(** ** The calls *)

Section Calls.
Context `{PgTypes} `{PgConn} `{!PgDecoders} `{!PgQueries LargeFns.state} {TLaws : PgTypesLaws}.
Context `{!PgLargeTypes} `{!PgLargeObjects}.
Context (fuel : nat) (ctx : context) (tx : Tx).

Abbreviation lo_run := (LargeFns.run new_fd).

(** *** The arguments on the wire *)

Lemma encode_S n bytes oid f arg :
  encodeExtendedParamValue (S n) bytes oid f arg =
  if is_nil arg || is_nil_ptr arg then Done (inr None, bytes)
  else match as_string arg with
  | Some s => Done (inr (Some s), bytes)
  | None => match encoder_for f arg with
            | Some enc => eqb_encode enc bytes
            | None => encode_param_by_type (encodeExtendedParamValue n bytes oid f) bytes oid arg
            end
  end.
Proof. done. Qed.

Lemma encode_typed f bytes t v arg :
  LargeFns.is_format f -> LargeFns.in_type t v -> go_holds t v arg ->
  encodeExtendedParamValue (S (S fuel)) bytes (LargeFns.type_oid t) f arg
  = Done (inr (Some (LargeFns.wire t f v)), bytes ++ LargeFns.wire t f v).
Proof.
  intros Hf Ht Hh. destruct (no_methods _ _ _ Hh) as (Hb & Hx & _). destruct (registered t) as (dt & Hdt & Henc).
  destruct (Henc v arg Ht Hh) as (x & Hset & Hn & Hp & Hs & Hcod). destruct (Hcod f Hf) as (enc & Ee & Hbuf).
  assert (encoder_for f arg = None) as En by (unfold encoder_for; rewrite Hb, Hx; repeat case_match; done).
  assert (encodeExtendedParamValue (S (S fuel)) bytes (LargeFns.type_oid t) f arg
    = encodeExtendedParamValue (S fuel) bytes (LargeFns.type_oid t) f x) as ->.
  { rewrite encode_S, En. unfold encode_param_by_type. rewrite Hdt, Hset. by destruct Hh. }
  rewrite encode_S, Hn, Hp, Hs, Ee. simpl. unfold eqb_encode. rewrite Hbuf, length_app.
  assert ((_ + _ <? _)%nat = false) as -> by (apply Nat.ltb_ge; lia). by rewrite drop_app_length.
Qed.

Lemma append_typed ps args b0 :
  Forall2 (fun p arg => LargeFns.in_type p.1 p.2 /\ go_holds p.1 p.2 arg) ps args ->
  exists b fs, append_params (S (S fuel)) (map (fun p => LargeFns.type_oid p.1) ps) args b0 = Done (None, b)
    /\ Forall LargeFns.is_format fs /\ length fs = length ps /\ paramFormats b = paramFormats b0 ++ fs
    /\ paramValues b = paramValues b0 ++ zip_with (fun p f => Some (LargeFns.wire p.1 f p.2)) ps fs.
Proof.
  intros Hps. revert b0. induction Hps as [|[t v] arg ps args [Ht Hh] _ IH]; intros b0.
  { exists b0, []. split_and!; try done; by rewrite app_nil_r. }
  set (f := ParamFormatCodeForOID (LargeFns.type_oid t)). pose proof (param_format t : LargeFns.is_format f) as Hf.
  destruct (no_methods _ _ _ Hh) as (Hb & Hx & _ & Hp).
  assert (chooseParameterFormatCode (LargeFns.type_oid t) arg = f) as Ef.
  { unfold chooseParameterFormatCode. rewrite Hp, Hb. destruct Hh; cbn [is_string_ptr]; by rewrite Hx. }
  cbn [map append_params fst]. unfold AppendParam. rewrite Ef, (encode_typed f _ t v) by done. cbn [comp_bind].
  set (b1 := mkEqb (paramValues b0 ++ _) _ _ _). destruct (IH b1) as (b & fs & E & HF & Hl & Efs & Evs).
  exists b, (f :: fs). split_and!; [exact E|by constructor|simpl; by rewrite Hl|by rewrite Efs; simpl; rewrite <- app_assoc|].
  rewrite Evs. simpl. by rewrite <- app_assoc.
Qed.

Lemma arguments_typed c :
  LargeFns.fits c -> Forall2 (fun p arg => LargeFns.in_type p.1 p.2 /\ go_holds p.1 p.2 arg)
    (LargeFns.parameters c) (LargeFns.arguments c).
Proof.
  destruct c; unfold LargeFns.fits, LargeFns.oid_fits; cbn [LargeFns.parameters LargeFns.arguments]; intros; destruct_and?;
    repeat first [apply List.Forall2_nil|apply List.Forall2_cons]; cbn [fst snd LargeFns.in_type];
    (split; [first [exact I|unfold in_s in *; lia]|constructor; auto]).
Qed.

Lemma arguments_converted c : LargeFns.fits c -> convertDriverValuers (LargeFns.arguments c) = (LargeFns.arguments c, None).
Proof.
  intros Hf. induction (arguments_typed c Hf) as [|[t v] arg ps args [_ Hh] _ IH]; [done|].
  cbn [convertDriverValuers]. destruct (no_methods _ _ _ Hh) as (-> & -> & -> & _). by rewrite IH.
Qed.

Lemma lo_encodes c : LargeFns.fits c ->
  exists b fs, encodes (S (S fuel)) (LargeFns.param_oids c) (LargeFns.arguments c) b
    /\ Forall LargeFns.is_format fs /\ length fs = length (LargeFns.parameters c)
    /\ paramFormats b = fs /\ paramValues b = LargeFns.wires c fs.
Proof.
  intros Hf. pose proof (arguments_typed c Hf) as Ht.
  destruct (append_typed _ _ emptyEqb Ht) as (b & fs & E & HF & Hl & Efs & Evs). exists b, fs. split_and!; try done.
  split; [unfold LargeFns.param_oids; rewrite length_map; by eapply Forall2_length|].
  exists (LargeFns.arguments c). split; [by apply arguments_converted|done].
Qed.

(** *** The calls of the functions *)

(** The client, with the large objects of the session. *)
Definition at_lo (st : LargeFns.state) (w : world) : Prop :=
  (exists s, at_rest (outside w) s /\ data s = st) /\ lo_client tx w.

Lemma lo_options w c : lo_client tx w -> options w (LargeFns.arguments c) = mkQueryOptions false None None (LargeFns.arguments c).
Proof. intros (_ & _ & Hs & _). unfold options. rewrite Hs. by destruct c. Qed.

Lemma lo_exec_options c : exec_options false (LargeFns.arguments c) = (false, LargeFns.arguments c).
Proof. by destruct c. Qed.

Lemma lo_result_formats c sd :
  map DataTypeOID (Fields sd) = [LargeFns.type_oid (LargeFns.result_type c)] ->
  exists f, result_formats sd = [f] /\ LargeFns.is_format f.
Proof.
  unfold result_formats. destruct (Fields sd) as [|fd [|]]; try done. intros [= E]. eexists.
  split; [done|]. rewrite E. apply result_format.
Qed.

(** Described, bound and run. *)
Lemma lo_call c st v st' s1 b fs f :
  LargeFns.fits c -> Forall LargeFns.is_format fs -> length fs = length (LargeFns.parameters c) -> LargeFns.is_format f ->
  paramFormats b = fs -> paramValues b = LargeFns.wires c fs -> data s1 = st -> lo_run c st = Some (v, st') ->
  exists fd, DataTypeOID fd = LargeFns.type_oid (LargeFns.result_type c) /\ Format fd = f
    /\ runs s1 (mkStatement (LargeFns.text c) (LargeFns.param_oids c)) (mkBinding (paramValues b) (paramFormats b) [f])
       = mkAnswered [fd] (mkResult [[Some (LargeFns.wire (LargeFns.result_type c) f v)]] (str "SELECT 1") None)
           (mkSession st' (prepared s1)).
Proof. intros Hf HF Hl Hff -> -> <- Er. by apply lo_runs. Qed.

(** A call whose value is scanned. *)
Lemma wp_query_value c st v st' dst a w Q :
  live ctx -> at_lo st w -> LargeFns.fits c -> lo_run c st = Some (v, st') ->
  LargeFns.in_type (LargeFns.result_type c) v -> go_takes (LargeFns.result_type c) v dst a ->
  (forall w', at_lo st' w' -> Q (None, Some a) w') ->
  wp (query_value (S (S fuel)) ctx tx (LargeFns.text c) (LargeFns.arguments c) dst) w Q.
Proof.
  intros Hl [(s & Ha & Es) Hc] Hf Er Hv Htk HQ. destruct (lo_encodes c Hf) as (b & fs & Hb & HF & Hfs & Ef & Ev).
  destruct (id Hc) as (Hp & Hcache & _). destruct (stmtcache (conn w)) as [k|] eqn:Ek; [|done].
  destruct (lo_described k ctx c _ _ Hl Ha) as (sd & Hd & Hoids & Hres).
  destruct (lo_result_formats c sd Hres) as (f & Erf & Hff).
  apply wp_bind. eapply wp_same; [apply Tx_QueryRow_open, Hc|].
  apply wp_bind, (wp_keeps client_frame); [apply client_Query|].
  apply (wp_Conn_Query (S (S fuel)) ctx _ _ w s sd b); rewrite ?(lo_options w c Hc), ?Hoids; try done.
  { right. by rewrite (lo_options w c Hc). }
  { unfold describes. by rewrite Hp, lookup_empty, Ek. }
  intros w1 (s1 & Es1 & Hrd) F1. unfold query_binding, query_text in Hrd.
  rewrite (lo_options w c Hc), Hp, lookup_empty in Hrd. unfold formats_for in Hrd. cbn [q_formatsByOID q_formats] in Hrd.
  destruct (lo_call c st v st' s1 b fs f) as (fd & Efd & Eff & Er1); try done; [by rewrite Es1|].
  rewrite Erf, Er1 in Hrd. apply (wp_eq _ _ _ _ _ eq_refl).
  apply wp_bind, (wp_keeps client_frame); [apply client_row_Scan|].
  eapply (wp_row_value (length (rws w)) _ _ fd _ _ dst a); [exact Hrd| |].
  { split; [by destruct Htk|]. intros n1 n2. rewrite Efd, Eff. by apply scan_plan. }
  intros w2 Ha2 F2. apply (wp_eq _ _ _ _ _ eq_refl), HQ. split.
  - eexists. split; [exact (Ha2 (fun _ _ _ Hk => Hk))|done].
  - eapply lo_client_frame; [exact F2|]. by eapply lo_client_frame.
Qed.

Lemma wp_query_int c st k z z0 st' w Q :
  live ctx -> at_lo st w -> LargeFns.fits c -> lo_run c st = Some (LargeFns.ValInt z, st') ->
  LargeFns.in_type (LargeFns.result_type c) (LargeFns.ValInt z) -> LargeFns.result_type c <> LargeFns.TOid -> ikind_ok k z ->
  (forall w', at_lo st' w' -> Q (None, Some (VInt k None z)) w') ->
  wp (query_value (S (S fuel)) ctx tx (LargeFns.text c) (LargeFns.arguments c) (int_ptr k z0)) w Q.
Proof.
  intros Hl Hat Hf Er Hz Ht Hk. apply (wp_query_value c st (LargeFns.ValInt z) st'); [done..|].
  constructor; [|done]. destruct (LargeFns.result_type c); by auto.
Qed.

(** A call whose value is not looked at. *)
Lemma wp_exec_call c st v st' w Q :
  live ctx -> at_lo st w -> LargeFns.fits c -> lo_run c st = Some (v, st') ->
  (forall w', at_lo st' w' -> Q (str "SELECT 1", None) w') ->
  wp (Tx_Exec (S (S fuel)) ctx tx (LargeFns.text c) (LargeFns.arguments c)) w Q.
Proof.
  intros Hl [(s & Ha & Es) Hcl] Hf Er HQ. destruct (id Hcl) as (Hp & Hc & Hs & Ho).
  destruct (lo_encodes c Hf) as (b & fs & Hb & HF & Hfs & Ef & Ev).
  destruct (stmtcache (conn w)) as [k|] eqn:Ek; [|done].
  destruct (lo_described k ctx c _ _ Hl Ha) as (sd & Hd & Hoids & Hres).
  destruct (lo_result_formats c sd Hres) as (f & Erf & Hff).
  eapply wp_same; [by apply Tx_Exec_open|]. apply (wp_keeps client_frame); [apply client_Exec|].
  eapply (wp_Conn_Exec (S (S fuel)) ctx _ _ k w s sd b); rewrite ?Hoids; try done.
  { by rewrite Hp. }
  { rewrite Hs. apply lo_exec_options. }
  { by destruct c. }
  intros tag err w' (s1 & Es1 & Hx) F.
  destruct (lo_call c st v st' s1 b fs f) as (fd & Efd & Eff & Er1); try done; [by rewrite Es1|].
  rewrite Erf, Er1 in Hx. destruct Hx as (-> & -> & Ha'). apply HQ. split.
  - eexists. split; [exact (Ha' (fun _ _ _ Hk => Hk))|done].
  - eapply lo_client_frame; [exact F|apply Hcl].
Qed.
End Calls.

(** ** Files *)

Record file := mkFile { f_content : gostring; f_pos : Z }.

Inductive file_op :=
| FWrite (b : gostring) | FRead (buf : gostring) | FSeek (offset whence : Z) | FTell | FTruncate (size : Z).

(** The number, the error, and the content of the buffer afterwards. *)
Record file_result := mkFileResult { r_n : Z; r_err : option error; r_buf : gostring }.

Definition file_run (op : file_op) (f : file) : option (file_result * file) :=
  let c := f_content f in
  match op with
  | FWrite b =>
      if f_pos f + len b <=? max_size
      then Some (mkFileResult (len b) None b, mkFile (overwrite c (f_pos f) b) (f_pos f + len b))
      else None
  | FRead buf =>
      let b := slice c (f_pos f) (len buf) in
      Some (mkFileResult (len b) (if len b <? len buf then Some EOF else None) (go_copy buf b),
            mkFile c (f_pos f + len b))
  | FSeek offset whence =>
      pos ← seek c (f_pos f) offset whence; Some (mkFileResult pos None [], mkFile c pos)
  | FTell => Some (mkFileResult (f_pos f) None [], f)
  | FTruncate size =>
      if (0 <=? size) && (size <=? max_size)
      then Some (mkFileResult 0 None [], mkFile (resize c size) (f_pos f)) else None
  end.

Fixpoint file_runs (ops : list file_op) (f : file) : option (list file_result * file) :=
  match ops with
  | [] => Some ([], f)
  | op :: ops' =>
      '(r, f1) ← file_run op f;
      '(rs, f2) ← file_runs ops' f1;
      Some (r :: rs, f2)
  end.

Definition op_fits (op : file_op) : Prop :=
  match op with
  | FWrite b | FRead b => len b < 2 ^ 31
  | FSeek offset whence => in_s 64 offset /\ in_s 32 whence
  | FTell => True
  | FTruncate size => in_s 64 size
  end.

Definition file_ok (f : file) : Prop := 0 <= f_pos f <= max_size /\ len (f_content f) <= max_size.

Lemma len_nonneg b : 0 <= len b.
Proof. unfold len. lia. Qed.

Lemma len_slice c pos n : 0 <= pos -> len (slice c pos n) <= Z.max 0 (len c - pos).
Proof. intros. unfold len, slice. rewrite length_take, length_drop. lia. Qed.

Lemma len_overwrite c pos b : 0 <= pos -> len (overwrite c pos b) = Z.max (len c) (pos + len b).
Proof.
  intros. unfold len, overwrite, zeros, len. rewrite !length_app, length_take, length_drop, length_app, repeat_length. lia.
Qed.

Lemma len_resize c n : 0 <= n -> len (resize c n) = n.
Proof. intros. unfold len, resize, zeros, len. rewrite length_take, length_app, repeat_length. lia. Qed.

Lemma file_run_ok op f r f' : file_run op f = Some (r, f') -> file_ok f -> file_ok f' /\ 0 <= r_n r <= max_size.
Proof.
  intros E [Hp Hc]. pose proof (len_nonneg (f_content f)). unfold file_ok. destruct op as [b|buf|o wh| |n]; simpl in E.
  - destruct (Z.leb_spec (f_pos f + len b) max_size); [|done]. injection E as <- <-. simpl.
    pose proof (len_nonneg b). rewrite len_overwrite by lia. lia.
  - injection E as <- <-. simpl. pose proof (len_slice (f_content f) (f_pos f) (len buf)).
    pose proof (len_nonneg (slice (f_content f) (f_pos f) (len buf))). lia.
  - unfold seek in E. destruct (if wh =? 0 then _ else _) as [b|]; [|done].
    destruct (Z.leb_spec 0 (b + o)), (Z.leb_spec (b + o) max_size); try done. injection E as <- <-. simpl. lia.
  - injection E as <- <-. simpl. lia.
  - destruct (Z.leb_spec 0 n), (Z.leb_spec n max_size); try done. injection E as <- <-. simpl.
    rewrite len_resize by lia. unfold max_size in *. lia.
Qed.

(** ** A large object is a file *)

Section Refinement.
Context `{PgTypes} `{PgConn} `{!PgDecoders} `{!PgQueries LargeFns.state} {TLaws : PgTypesLaws}.
Context `{!PgLargeTypes} `{!PgLargeObjects}.
Context (fuel : nat) (ctx : context) (tx : Tx).

Definition run_file_op (o : LargeObject) (op : file_op) : M world file_result :=
  match op with
  | FWrite b => let* '(n, err) := lo_Write (S (S fuel)) o b in ret (mkFileResult n err b)
  | FRead buf => let* '(n, err, buf') := lo_Read (S (S fuel)) o buf in ret (mkFileResult n err buf')
  | FSeek offset whence => let* '(n, err) := lo_Seek (S (S fuel)) o offset whence in ret (mkFileResult n err [])
  | FTell => let* '(n, err) := lo_Tell (S (S fuel)) o in ret (mkFileResult n err [])
  | FTruncate size => let* err := lo_Truncate (S (S fuel)) o size in ret (mkFileResult 0 err [])
  end.

Fixpoint run_file_ops (o : LargeObject) (ops : list file_op) : M world (list file_result) :=
  match ops with
  | [] => ret []
  | op :: ops' => let* r := run_file_op o op in let* rs := run_file_ops o ops' in ret (r :: rs)
  end.

(** The object [oid] with the content of the file, open at its position. *)
Definition open_file (st : LargeFns.state) (oid fd : Z) (f : file) : LargeFns.state :=
  LargeFns.mkState (<[oid := f_content f]> (LargeFns.objects st))
    (<[fd := LargeFns.mkFd oid (f_pos f) None]> (LargeFns.fds st)).

Lemma open_file_write st oid fd f c pos :
  LargeFns.set_fd fd (LargeFns.move (LargeFns.mkFd oid (f_pos f) None) pos)
    (LargeFns.store (LargeFns.mkFd oid (f_pos f) None) c (open_file st oid fd f)) = open_file st oid fd (mkFile c pos).
Proof. unfold LargeFns.set_fd, LargeFns.store, open_file. simpl. by rewrite !insert_insert_eq. Qed.

Lemma open_file_move st oid fd f pos :
  LargeFns.set_fd fd (LargeFns.move (LargeFns.mkFd oid (f_pos f) None) pos) (open_file st oid fd f)
  = open_file st oid fd (mkFile (f_content f) pos).
Proof. unfold LargeFns.set_fd, open_file. simpl. by rewrite insert_insert_eq. Qed.

Lemma open_file_store st oid fd f c :
  LargeFns.store (LargeFns.mkFd oid (f_pos f) None) c (open_file st oid fd f) = open_file st oid fd (mkFile c (f_pos f)).
Proof. unfold LargeFns.store, open_file. simpl. by rewrite insert_insert_eq. Qed.

(** The call of an operation, and its value. *)
Definition op_call (fd : Z) (op : file_op) : LargeFns.call :=
  match op with
  | FWrite b => LargeFns.LoWrite fd b
  | FRead buf => LargeFns.LoRead fd (len buf)
  | FSeek offset whence => LargeFns.LoSeek fd offset whence
  | FTell => LargeFns.LoTell fd
  | FTruncate size => LargeFns.LoTruncate fd size
  end.

Definition op_value (op : file_op) (f : file) (r : file_result) : LargeFns.val :=
  match op with
  | FRead buf => LargeFns.ValBytes (slice (f_content f) (f_pos f) (len buf))
  | _ => LargeFns.ValInt (r_n r)
  end.

Lemma op_call_run st oid fd f op r f' :
  file_run op f = Some (r, f') ->
  LargeFns.run new_fd (op_call fd op) (open_file st oid fd f) = Some (op_value op f r, open_file st oid fd f').
Proof.
  assert (LargeFns.fds (open_file st oid fd f) !! fd = Some (LargeFns.mkFd oid (f_pos f) None)) as Ef
    by apply lookup_insert_eq.
  assert (LargeFns.objects (open_file st oid fd f) !! oid = Some (f_content f)) as Eo by apply lookup_insert_eq.
  destruct op as [b|buf|o wh| |n]; cbn [op_call LargeFns.run file_run]; unfold LargeFns.with_fd; rewrite Ef;
    cbn [mbind option_bind]; unfold LargeFns.writable, LargeFns.readable;
    cbn [LargeFns.fd_snapshot LargeFns.fd_oid LargeFns.fd_pos];
    rewrite ?Eo; cbn [mbind option_bind].
  - destruct (f_pos f + len b <=? max_size); [|done]. intros [= <- <-]. by rewrite open_file_write.
  - intros [= <- <-]. by rewrite open_file_move.
  - destruct (seek _ _ _ _) as [pos|]; [|done]. cbn [mbind option_bind]. intros [= <- <-]. by rewrite open_file_move.
  - intros [= <- <-]. by destruct f.
  - destruct (_ && _); [|done]. intros [= <- <-]. by rewrite open_file_store.
Qed.

Lemma op_call_fits fd op : in_s 32 fd -> op_fits op -> LargeFns.fits (op_call fd op).
Proof. destruct op; simpl; try done. intros. pose proof (len_nonneg buf). done. Qed.

(** An operation of the driver does what it does on the file. *)
Lemma wp_file_op st oid fd f op r f' w Q :
  live ctx -> in_s 32 fd -> op_fits op -> file_ok f -> file_run op f = Some (r, f') -> at_lo tx (open_file st oid fd f) w ->
  (forall w', at_lo tx (open_file st oid fd f') w' -> Q r w') -> wp (run_file_op (mkLargeObject ctx tx fd) op) w Q.
Proof.
  intros Hl Hfd Hop Hok Er Hat HQ. pose proof (op_call_run st oid fd f op r f' Er) as Hrun.
  pose proof (op_call_fits fd op Hfd Hop) as Hfits. destruct (file_run_ok _ _ _ _ Er Hok) as [_ Hn].
  assert (max_size <= 2 ^ 63 - 1) as Hmax by (unfold max_size; lia).
  destruct op as [b|buf|o wh| |n]; simpl in Er; apply wp_bind.
  - destruct (f_pos f + len b <=? max_size); [|done]. injection Er as <- <-. pose proof (len_nonneg b).
    apply wp_bind, (wp_query_int fuel ctx tx (LargeFns.LoWrite fd b) _ KInt (len b) _ _ _ _ Hl Hat Hfits Hrun);
      [simpl in *; unfold in_s; lia|done|unfold ikind_ok; simpl in *; lia|].
    intros w' Hw'. cbn [scanned_int]. assert ((len b <? 0) = false) as -> by lia. by apply HQ.
  - injection Er as <- <-.
    apply wp_bind, (wp_query_value fuel ctx tx (LargeFns.LoRead fd (len buf)) _ _ _ _ _ _ _ Hl Hat Hfits Hrun I (takes_bytes _)).
    intros w' Hw'. cbn [scanned_bytes]. set (b := slice _ _ _) in *.
    assert ((length b <? length buf)%nat = (len b <? len buf)) as Hlt
      by (unfold len; destruct (Nat.ltb_spec (length b) (length buf)),
        (Z.ltb_spec (Z.of_nat (length b)) (Z.of_nat (length buf))); lia).
    apply (wp_eq _ _ _ _ _ eq_refl), (wp_eq _ _ _ _ _ eq_refl). rewrite Hlt. by apply HQ.
  - destruct (seek _ _ _ _) as [pos|]; [|done]. injection Er as <- <-.
    apply wp_bind, (wp_query_int fuel ctx tx (LargeFns.LoSeek fd o wh) _ KInt64 pos _ _ _ _ Hl Hat Hfits Hrun);
      [simpl in *; unfold in_s; lia|done|unfold ikind_ok; simpl in *; lia|].
    intros w' Hw'. by apply HQ.
  - injection Er as <- <-.
    apply wp_bind, (wp_query_int fuel ctx tx (LargeFns.LoTell fd) _ KInt64 (f_pos f) _ _ _ _ Hl Hat Hfits Hrun);
      [simpl in *; unfold in_s; lia|done|unfold ikind_ok; simpl in *; lia|].
    intros w' Hw'. by apply HQ.
  - destruct (_ && _); [|done]. injection Er as <- <-.
    apply wp_bind, (wp_exec_call fuel ctx tx (LargeFns.LoTruncate fd n) _ _ _ _ _ Hl Hat Hfits Hrun).
    intros w' Hw'. by apply HQ.
Qed.

Lemma wp_file_ops st oid fd f ops rs f' w Q :
  live ctx -> in_s 32 fd -> Forall op_fits ops -> file_ok f -> file_runs ops f = Some (rs, f') -> at_lo tx (open_file st oid fd f) w ->
  (forall w', at_lo tx (open_file st oid fd f') w' -> Q rs w') -> wp (run_file_ops (mkLargeObject ctx tx fd) ops) w Q.
Proof.
  intros Hl Hfd Hops. revert f rs w Q. induction Hops as [|op ops Hop _ IH]; intros f rs w Q Hok Er Hat HQ; simpl in Er.
  { injection Er as <- <-. apply (wp_eq _ _ _ _ _ eq_refl). by apply HQ. }
  destruct (file_run op f) as [[r f1]|] eqn:E1; [|done]. simpl in Er.
  destruct (file_runs ops f1) as [[rs1 f2]|] eqn:E2; [|done]. injection Er as <- <-.
  apply wp_bind, (wp_file_op st oid fd f op r f1); [done..|]. intros w1 Hat1.
  apply wp_bind, (IH f1 rs1); [by eapply file_run_ok|done..|]. intros w2 Hat2. by apply (wp_eq _ _ _ _ _ eq_refl), HQ.
Qed.

(** A new object is made, opened, used and closed. *)
Definition use_large_object (oid : Z) (ops : list file_op) : M world (error + list file_result) :=
  let* '(oid', err) := lo_Create (S (S fuel)) ctx tx oid in
  match err with
  | Some e => ret (inl e)
  | None =>
      let* r := lo_Open (S (S fuel)) ctx tx oid' (Z.lor LargeObjectModeWrite LargeObjectModeRead) in
      match r with
      | inl e => ret (inl e)
      | inr o =>
          let* rs := run_file_ops o ops in
          let* err := lo_Close (S (S fuel)) o in
          ret match err with Some e => inl e | None => inr rs end
      end
  end.

(** C19. A large object is a file: on a server with PostgreSQL's large object
    functions, with pgtype's encoders and scan plans for their types, and in a
    context that does not end, the reads, writes, seeks and truncations of a new
    object in an open transaction, in any order, return what they return on a
    file that is empty at first, with [io.EOF] on a read that is not filled.
    When the object is closed its descriptor is gone and its content is the one
    of the file. *)
Theorem large_object_is_a_file oid ops st w rs f :
  live ctx -> at_lo tx st w -> 0 < oid < 2 ^ 32 -> LargeFns.objects st !! oid = None -> new_fd (LargeFns.fds st) <> None ->
  Forall op_fits ops ->
  file_runs ops (mkFile [] 0) = Some (rs, f) ->
  exists w', use_large_object oid ops w = Ok (inr rs) w'
    /\ at_lo tx (LargeFns.mkState (<[oid := f_content f]> (LargeFns.objects st)) (LargeFns.fds st)) w'.
Proof.
  intros Hl Hat Hoid Hnew Hnfd Hops Er. destruct (new_fd (LargeFns.fds st)) as [fd|] eqn:Efd; [|done].
  destruct (new_fd_fresh _ _ Efd) as [Hfresh Hfd].
  cut (wp (use_large_object oid ops) w (fun a w' => a = inr rs /\
    at_lo tx (LargeFns.mkState (<[oid := f_content f]> (LargeFns.objects st)) (LargeFns.fds st)) w')).
  { intros (a & w' & E & -> & Hw)%wp_Ok. by exists w'. }
  set (st1 := LargeFns.mkState (<[oid := []]> (LargeFns.objects st)) (LargeFns.fds st)).
  assert (LargeFns.run new_fd (LargeFns.LoCreate oid) st = Some (LargeFns.ValInt oid, st1)) as R1.
  { simpl. rewrite Hnew, bool_decide_eq_false_2 by (by intros []). by assert ((oid =? 0) = false) as -> by lia. }
  set (mode := Z.lor LargeObjectModeWrite LargeObjectModeRead).
  assert (LargeFns.run new_fd (LargeFns.LoOpen oid mode) st1
    = Some (LargeFns.ValInt fd, open_file st oid fd (mkFile [] 0))) as R2.
  { cbn [LargeFns.run LargeFns.objects LargeFns.fds st1]. rewrite lookup_insert_eq. cbn [mbind option_bind]. by rewrite Efd. }
  assert (LargeFns.fits (LargeFns.LoOpen oid mode)) as Hmode by (split; [unfold LargeFns.oid_fits; lia|by vm_compute]).
  apply wp_bind, wp_bind, (wp_query_value fuel ctx tx (LargeFns.LoCreate oid) _ (LargeFns.ValInt oid) st1 _ (VInt KUint32 None oid) _ _ Hl Hat);
    [simpl; unfold LargeFns.oid_fits; lia|exact R1|simpl; lia|apply takes_oid|].
  intros w1 Hat1. apply (wp_eq _ _ _ _ _ eq_refl). cbn [scanned_int].
  apply wp_bind, wp_bind, (wp_query_int fuel ctx tx (LargeFns.LoOpen oid mode) _ KInt32 fd _ _ _ _ Hl Hat1 Hmode R2);
    [done|done|unfold in_s in Hfd; unfold ikind_ok; simpl; lia|].
  intros w2 Hat2. apply (wp_eq _ _ _ _ _ eq_refl). cbn [scanned_int].
  apply wp_bind, (wp_file_ops st oid fd (mkFile [] 0) ops rs f); [done|done|done|by vm_compute|done|done|]. intros w3 Hat3.
  apply wp_bind, wp_bind. eapply (wp_exec_call fuel ctx tx (LargeFns.LoClose fd)); [exact Hl|exact Hat3|exact Hfd| |].
  { simpl. unfold LargeFns.with_fd. simpl. by rewrite lookup_insert_eq. }
  intros w4 Hat4. apply (wp_eq _ _ _ _ _ eq_refl), (wp_eq _ _ _ _ _ eq_refl). split; [done|].
  simpl in Hat4. by rewrite delete_insert_id in Hat4.
Qed.
End Refinement.

(** ** A server with large objects *)

Module LoServer.
Import LargeFns.

(** *** Reading the formats *)

Definition from_be (b : gostring) : Z := fold_left (fun z c => 256 * z + code c) b 0.

Definition unwire (t : pg_type) (f : Z) (b : gostring) : option val :=
  match t with
  | TBytea => if f =? BinaryFormatCode then Some (ValBytes b) else ValBytes <$> read_bytea b
  | _ =>
      if f =? BinaryFormatCode then
        Some (ValInt match t with TInt8 => int64 (from_be b) | TInt4 => int32 (from_be b) | _ => from_be b end)
      else match ParseInt b 64 with inr z => Some (ValInt z) | inl _ => None end
  end.

Lemma from_be_app a b : from_be (a ++ b) = from_be a * 256 ^ len b + from_be b.
Proof.
  unfold from_be, len. rewrite fold_left_app. generalize (fold_left (fun z c => 256 * z + code c) a 0) as x.
  induction b as [|c b IH] using rev_ind; intros x; [simpl; lia|].
  rewrite !fold_left_app, length_app. cbn [fold_left length]. rewrite IH.
  replace (Z.of_nat (length b + 1)) with (Z.of_nat (length b) + 1) by lia. rewrite Z.pow_add_r by lia. lia.
Qed.

Lemma from_be32 z : from_be (be32 z) = z mod 2 ^ 32.
Proof.
  unfold from_be, be32. cbn [fold_left]. rewrite !code_byte_of, !Z.shiftr_div_pow2 by lia.
  change (2 ^ 24) with 16777216. change (2 ^ 16) with 65536. change (2 ^ 8) with 256. change (2 ^ 32) with 4294967296.
  Z.div_mod_to_equations. lia.
Qed.

Lemma from_be64 z : from_be (be64 z) = z mod 2 ^ 64.
Proof.
  unfold be64. rewrite from_be_app, !from_be32, Z.shiftr_div_pow2 by lia. change (256 ^ len (be32 z)) with (2 ^ 32).
  change (2 ^ 64) with (2 ^ 32 * 2 ^ 32). rewrite Z.rem_mul_r by lia. lia.
Qed.

Lemma wrap_s_mod w z : 0 < w -> in_s w z -> wrap_s w (z mod 2 ^ w) = z.
Proof.
  intros Hw Hz. transitivity (wrap_s w z); [|by apply wrap_s_id]. unfold wrap_s. by rewrite Zplus_mod_idemp_l.
Qed.

Lemma read_bytea_hex b : read_bytea (str "\x" ++ EncodeToString b) = Some b.
Proof. unfold read_bytea. simpl. apply read_hex_encode. Qed.

Lemma unwire_wire t f v : is_format f -> in_type t v -> unwire t f (wire t f v) = Some v.
Proof.
  assert (forall z, in_s 32 z -> in_s 64 z) as H32 by (unfold in_s; lia).
  assert (forall z, 0 <= z < 2 ^ 32 -> in_s 64 z) as Hoid by (unfold in_s; lia).
  intros [-> | ->] Hv; destruct t, v as [z|b]; try done; unfold unwire, wire; cbn [Z.eqb Pos.eqb TextFormatCode BinaryFormatCode].
  - by rewrite ParseInt_FormatInt by (try done; auto).
  - by rewrite ParseInt_FormatInt by (try done; auto).
  - by rewrite ParseInt_FormatInt by (try done; auto).
  - by rewrite read_bytea_hex.
  - rewrite from_be32, Z.mod_small; done.
  - unfold int32. by rewrite from_be32, wrap_s_mod.
  - unfold int64. by rewrite from_be64, wrap_s_mod.
Qed.

(** *** The types *)

Definition append_to (payload : gostring) : encoder := fun buf => inr (Some (default [] buf ++ payload)).

Definition type_name (t : pg_type) : gostring :=
  match t with
  | TOid => str "*pgtype.OIDValue" | TInt4 => str "*pgtype.Int4"
  | TInt8 => str "*pgtype.Int8" | TBytea => str "*pgtype.Bytea"
  end.

(** The types by their names and by their oids. *)
Definition all_types : list pg_type := [TOid; TInt4; TInt8; TBytea].

Definition type_where (p : pg_type -> bool) : option pg_type := List.find p all_types.
Definition type_of_name (s : gostring) : option pg_type := type_where (fun t => bool_decide (type_name t = s)).
Definition type_of_oid (oid : Z) : option pg_type := type_where (fun t => type_oid t =? oid).

(** The values of pgtype. *)
Definition typed (v : goval) : option (pg_type * val) :=
  match v with
  | VExt ty z => (fun t => (t, ValInt z)) <$> type_of_name ty
  | VBytes (Some ty) b => (fun t => (t, ValBytes b)) <$> type_of_name ty
  | _ => None
  end.

Definition encoder_in (f : Z) (v : goval) : option encoder :=
  (fun '(t, x) => append_to (wire t f x)) <$> typed v.

Definition refused : error := SessionServer.refused.

Definition set (t : pg_type) (v : goval) : error + goval :=
  match t, v with
  | TOid, VInt KUint32 None z => inr (VExt (type_name t) z)
  | (TInt4 | TInt8), VInt _ _ z => inr (VExt (type_name t) z)
  | TBytea, VBytes None b => inr (VBytes (Some (type_name t)) b)
  | _, _ => inl refused
  end.

#[export] Instance types : PgTypes := {|
  as_BinaryEncoder := encoder_in BinaryFormatCode;
  as_TextEncoder := encoder_in TextFormatCode;
  as_Valuer _ := None;
  as_ParamFormatPreferrer _ := None;
  elem_is_Valuer _ := false;
  json_EncodeText _ := append_to (str "{}");
  DataType := pg_type;
  DataTypeForOID := type_of_oid;
  DataTypeForValue _ := None;
  dt_Set := set;
  dt_TextEncoder _ := None;
  ParamFormatCodeForOID oid := match type_of_oid oid with Some _ => BinaryFormatCode | None => TextFormatCode end;
  ResultFormatCodeForOID oid := match type_of_oid oid with Some _ => BinaryFormatCode | None => TextFormatCode end;
  AppendInt16 buf n := buf ++ be16 n;
  AppendInt32 buf n := buf ++ be32 n;
  SetInt32 buf at_ n := take at_ buf ++ be32 n ++ drop (at_ + 4) buf
|}.

Lemma encoder_in_appends f v enc : encoder_in f v = Some enc -> appends enc.
Proof.
  unfold encoder_in. destruct (typed v) as [[t x]|]; [|done]. intros [= <-]. right; right. by exists (wire t f x).
Qed.

#[export] Instance types_laws : PgTypesLaws.
Proof.
  split; try done.
  - intros v enc. apply encoder_in_appends.
  - intros v enc. apply encoder_in_appends.
  - intros a old b n Hold. cbn [SetInt32 types]. rewrite take_app_length. do 2 f_equal.
    rewrite app_assoc, drop_app_length'; [done|]. rewrite length_app. lia.
Qed.

(** *** The statements *)

Definition all_calls : list call :=
  [LoCreate 0; LoOpen 0 0; LoUnlink 0; LoWrite 0 []; LoRead 0 0; LoSeek 0 0 0; LoTell 0; LoTruncate 0 0; LoClose 0].

Definition of_text (sql : gostring) : option call := List.find (fun c => bool_decide (text c = sql)) all_calls.

Definition describe (sql : gostring) : option (list Z * list FieldDescription) :=
  (fun c => (param_oids c, [mkFieldDescription (str "lo") (type_oid (result_type c)) 4 (-1) 0])) <$> of_text sql.

(** The call with the values of its parameters. *)
Definition with_values (c : call) (vs : list val) : option call :=
  match c, vs with
  | LoCreate _, [ValInt oid] => Some (LoCreate oid)
  | LoOpen _ _, [ValInt oid; ValInt mode] => Some (LoOpen oid mode)
  | LoUnlink _, [ValInt oid] => Some (LoUnlink oid)
  | LoWrite _ _, [ValInt fd; ValBytes b] => Some (LoWrite fd b)
  | LoRead _ _, [ValInt fd; ValInt n] => Some (LoRead fd n)
  | LoSeek _ _ _, [ValInt fd; ValInt offset; ValInt whence] => Some (LoSeek fd offset whence)
  | LoTell _, [ValInt fd] => Some (LoTell fd)
  | LoTruncate _ _, [ValInt fd; ValInt size] => Some (LoTruncate fd size)
  | LoClose _, [ValInt fd] => Some (LoClose fd)
  | _, _ => None
  end.

Fixpoint unwires (ps : list (pg_type * val)) (fs : list Z) (bs : list (option gostring)) : option (list val) :=
  match ps, fs, bs with
  | [], [], [] => Some []
  | (t, _) :: ps', f :: fs', Some b :: bs' => v ← unwire t f b; vs ← unwires ps' fs' bs'; Some (v :: vs)
  | _, _, _ => None
  end.

Definition decode (sql : gostring) (fs : list Z) (bs : list (option gostring)) : option call :=
  c ← of_text sql; vs ← unwires (parameters c) fs bs; with_values c vs.

Lemma unwires_wires ps0 ps fs :
  map fst ps0 = map fst ps -> Forall (fun p => in_type p.1 p.2) ps -> Forall is_format fs -> length fs = length ps ->
  unwires ps0 fs (zip_with (fun p f => Some (wire p.1 f p.2)) ps fs) = Some (map snd ps).
Proof.
  intros Ht Hp. revert ps0 fs Ht. induction Hp as [|[t v] ps Hv _ IH]; intros [|[t0 v0] ps0] [|f fs] Ht Hf Hl; try done.
  injection Ht as -> Ht. injection Hl as Hl. apply Forall_cons in Hf as [Hf Hfs].
  cbn [zip_with unwires fst snd map]. rewrite unwire_wire by done. cbn [mbind option_bind]. by rewrite IH.
Qed.

(** The call of a text, with some parameters. *)
Lemma of_text_call c : exists c0, of_text (text c) = Some c0 /\ text c0 = text c
  /\ map fst (parameters c0) = map fst (parameters c) /\ result_type c0 = result_type c
  /\ with_values c0 (map snd (parameters c)) = Some c.
Proof. destruct c; eexists; by split. Qed.

Lemma parameters_fit c : fits c -> Forall (fun p => in_type p.1 p.2) (parameters c).
Proof.
  destruct c; unfold fits, oid_fits; cbn [parameters]; intros; destruct_and?;
    repeat first [apply Forall_nil_2|apply Forall_cons_2]; cbn [fst snd in_type]; first [exact I|unfold in_s in *; lia].
Qed.

Lemma decode_call c fs :
  fits c -> Forall is_format fs -> length fs = length (parameters c) -> decode (text c) fs (wires c fs) = Some c.
Proof.
  intros Hc Hf Hl. destruct (of_text_call c) as (c0 & E & _ & Ht & _ & Ev). unfold decode, wires. rewrite E. cbn [mbind option_bind].
  rewrite (unwires_wires _ (parameters c)) by (try apply parameters_fit; done). exact Ev.
Qed.

(** Sixteen descriptors. *)
Definition new_fd (m : gmap Z fd_state) : option Z :=
  List.find (fun fd => bool_decide (m !! fd = None)) (map Z.of_nat (seq 0 16)).

Lemma new_fd_ok m fd : new_fd m = Some fd -> m !! fd = None /\ in_s 32 fd.
Proof.
  intros [Hin Hm]%List.find_some. apply bool_decide_eq_true in Hm. split; [done|].
  apply List.in_map_iff in Hin as (k & <- & Hk%List.in_seq). unfold in_s. lia.
Qed.

Definition execute (d : state) (st : statement) (bd : binding) : qresult * state :=
  match (c ← decode (st_text st) (bd_formats bd) (bd_values bd); r ← run new_fd c d; Some (c, r)) with
  | Some (c, (v, d')) =>
      (mkResult [[Some (wire (result_type c) (SessionServer.format_of (bd_results bd) 0) v)]] (str "SELECT 1") None, d')
  | None => (mkResult [] [] (Some refused), d)
  end.

Definition scan (oid f : Z) (buf : option gostring) (dst : goval) : error + goval :=
  match (t ← type_of_oid oid; buf ≫= unwire t f), dst with
  | Some (ValInt z), VPtr _ (VInt k n _) => inr (VInt k n z)
  | Some (ValBytes b), VPtr _ (VBytes n _) => inr (VBytes n b)
  | _, _ => inl refused
  end.

Definition pgconn : PgConn := SessionServer.pgconn describe execute scan ModePrepare.
#[export] Instance queries : @PgQueries pgconn state := SessionServer.queries describe execute scan ModePrepare.

Lemma type_of_oid_oid t : type_of_oid (type_oid t) = Some t.
Proof. by destruct t. Qed.

Lemma set_encodes t v arg : go_holds t v arg -> type_encodes t t v arg.
Proof.
  intros [z|t' k named z Ht _|b]; [|destruct Ht as [-> | ->]|]; eexists; (split; [done|]); split_and!; try done;
    intros f [-> | ->]; eexists; by split.
Qed.

#[export] Instance large_types : @PgLargeTypes types pgconn.
Proof.
  split.
  - by intros t v arg [].
  - intros t. right. simpl. by rewrite type_of_oid_oid.
  - intros t. right. simpl. by rewrite type_of_oid_oid.
  - intros t. exists t. split; [apply type_of_oid_oid|]. intros v arg _. apply set_encodes.
  - intros t f v dst a n1 n2 Hf Hv Ht. cbn [serve pgconn SessionServer.pgconn SessionServer.answer_to fst].
    unfold scan. rewrite type_of_oid_oid. cbn [mbind option_bind]. rewrite unwire_wire by done. by destruct Ht.
Qed.

#[export] Instance large_objects : @PgLargeObjects pgconn queries.
Proof.
  refine (@Build_PgLargeObjects pgconn queries new_fd new_fd_ok _ _).
  - intros c ctx call n s _ Hr. destruct (of_text_call call) as (c0 & E & _ & Ht & Hres & _).
    destruct (SessionServer.cache_get_described describe ModePrepare (text call) n s
      (param_oids c0) [mkFieldDescription (str "lo") (type_oid (result_type c0)) 4 (-1) 0] Hr) as (sd & Hsd & Ho & Hf).
    { unfold describe. by rewrite E. }
    exists sd. cbn [serve pgconn SessionServer.pgconn SessionServer.answer_to].
    destruct (SessionServer.cache_get _ _ _ _) as [a n']. split; [exact Hsd|]. rewrite Ho, Hf. split.
    + unfold param_oids. rewrite <- !(map_map fst type_oid). by rewrite Ht.
    + simpl. by rewrite Hres.
  - intros call fs f s v st Hc HF Hl Hf Er. destruct (of_text_call call) as (c0 & E & _ & Ht & Hres & _).
    eexists. split; [|split]; cycle 2.
    + cbn [runs queries SessionServer.queries]. unfold SessionServer.run, describe, execute.
      cbn [st_text bd_formats bd_values bd_results]. rewrite E, decode_call by done. cbn [mbind option_bind fmap option_fmap option_map].
      rewrite Er. reflexivity.
    + simpl. by rewrite Hres.
    + done.
Defined.
End LoServer.

#[local] Existing Instance LoServer.types.
#[local] Existing Instance LoServer.types_laws.
#[local] Hint Extern 0 PgConn => exact LoServer.pgconn : typeclass_instances.
#[local] Existing Instance LoServer.queries.
#[local] Existing Instance LoServer.large_types.
#[local] Existing Instance LoServer.large_objects.

#[local] Instance lo_decoders : @PgDecoders LoServer.types LoServer.pgconn := {|
  dt_TextDecoder := fun _ => None;
  dt_BinaryDecoder := fun _ => None;
  GenericText_Decode := fun b => inr (VString None b);
  GenericBinary_Decode := fun b => inr (VBytes None b);
  dt_Get := fun _ _ => VNil
|}.

Definition lo_start : world :=
  mkWorld (Toy.connection false (Some (Cache 0)))
    (SessionServer.mkServer (mkSession (LargeFns.mkState ∅ ∅) ∅) ∅ [] (mkResult [] [] None) []) [] [mkDbTx 0 false] [] [] [] [].

(** What is written is read back; the second read is at the end. *)
Definition write_seek_read : list file_op :=
  [FWrite (str "hello, world"); FSeek (-5) 1; FRead (str "....."); FRead (str "."); FTruncate 4; FTell].

Lemma large_object_is_a_file_witness :
  exists w', use_large_object 0 Background (RealTx 0) 7 write_seek_read lo_start
    = Ok (inr [mkFileResult 12 None (str "hello, world"); mkFileResult 7 None [];
               mkFileResult 5 None (str "world"); mkFileResult 0 (Some EOF) (str ".");
               mkFileResult 0 None []; mkFileResult 12 None []]) w'
    /\ at_lo (RealTx 0) (LargeFns.mkState (<[7 := str "hell"]> ∅) ∅) w'.
Proof.
  apply (large_object_is_a_file 0 Background (RealTx 0) 7 write_seek_read (LargeFns.mkState ∅ ∅) lo_start _
    (mkFile (str "hell") 12)).
  - done.
  - split; [|unfold lo_client; split_and!; [done|done|done|by exists 0]]. eexists. split; [split; [done|]|done].
    intros sql sd [=].
  - lia.
  - done.
  - done.
  - repeat constructor; by vm_compute.
  - evaluates.
Defined.
