(* ===== verification/Pool.v ===== *)
(** The connection pool (pgxpool): acquiring and releasing connections, the
    operations that borrow one, the health check and the configuration.

    Package puddle, which keeps the resources, is outside the repository: its
    state is abstract and its methods are requests that it answers.  The
    constructor and destructor the pool gives it are definitions here, run when
    puddle runs them.  A goroutine is a task, run by a step of its own. *)

From S2P Require Import Prelude GoStd GoVal GoDuration Effects Values PgConn Logger World Toy Rows Config Conn Batch.
From S2P Require Import CopyFrom Tx.

Local Open Scope Z_scope.

(** ** puddle *)

(** [Acquire] and [CreateResource] run the constructor when puddle decides to:
    the reply names the resource and whether it is to be constructed, and
    [PConstructed] reports the result.  A released resource of a closed pool is
    destroyed: [PRelease] and [PReleaseUnused] tell whether it is. *)
Inductive prequest :=
| PAcquire (ctx : context)
| PCreate (ctx : context)
| PConstructed (res : nat) (failed : option error)
| PAcquireAllIdle
| PRelease (res : nat)
| PReleaseUnused (res : nat)
| PDestroy (res : nat)
| PClose.

Definition preply (r : prequest) : Type :=
  match r with
  | PAcquire _ => error + (nat * bool)
  | PCreate _ => error + nat
  | PConstructed _ _ => option error
  | PAcquireAllIdle => list nat
  | PRelease _ => bool
  | PReleaseUnused _ => bool
  | PDestroy _ => unit
  | PClose => list nat
  end.

Class Puddle := {
  pst : Type;
  Now : pst -> Z;
  CreationTime : pst -> nat -> Z;
  IdleDuration : pst -> nat -> Z;
  TotalResources : pst -> Z;
  pserve : forall r : prequest, pst -> preply r * pst
}.

(** What the pool has seen of a resource: it was handed one, or gave one back. *)
Inductive pevent :=
| Took (res : nat)
| Asked (r : prequest).

Section Pool.
Context `{PgTypes} `{PgConn} `{!PgDecoders} `{Puddle}.

(** ** State *)

(** The callbacks of the application run on the connection they are given. *)
Record PoolConfig := mkPoolConfig {
  pc_ConnConfig : ConnConfig;
  BeforeConnect : option (context -> ConnConfig -> option error * ConnConfig);
  AfterConnect : option (context -> M world (option error));
  BeforeAcquire : option (context -> M world bool);
  AfterRelease : option (M world bool);
  MaxConnLifetime : Z;
  MaxConnIdleTime : Z;
  MaxConns : Z;
  MinConns : Z;
  HealthCheckPeriod : Z;
  LazyConnect : bool;
  pc_createdByParseConfig : bool
}.

(** The numbers are those of the preallocated objects not yet handed out. *)
Record connResource := mkConnResource {
  cr_conn : world;
  cr_conns : nat;
  cr_poolRows : nat;
  cr_poolRowss : nat
}.

(** [pgxpool.Conn] is its resource, if it is not released; there is one pool. *)
Abbreviation poolConn := (option nat).

(** The result set of [poolRows] belongs to the connection of a resource.  The
    field [err] of the two types is never set. *)
Record poolRows := mkPoolRows { pr_home : nat; pr_r : nat; pr_c : option nat }.
Record poolRow := mkPoolRow { prow_home : nat; prow_r : nat; prow_c : option nat }.
Record poolBatchResults := mkPoolBatchResults { pbr_home : nat; pbr_br : nat; pbr_c : option nat }.
(** [pgx.Conn.BeginTx] returns a [dbTx]. *)
Record poolTx := mkPoolTx { ptx_home : nat; ptx_t : nat; ptx_c : option nat }.

Inductive task :=
| TAfterRelease (res : nat)
| TDestruct (res : nat)
| TCreate
| THealthCheck.

Record pworld := mkPool {
  p_config : PoolConfig;
  p_puddle : pst;
  p_trace : list pevent;
  p_values : gmap nat connResource;
  p_conns : list poolConn;
  p_rowss : list poolRows;
  p_rows : list poolRow;
  p_brs : list poolBatchResults;
  p_txs : list poolTx;
  p_batches : list (list batchItem);
  p_tasks : list task;
  p_closed : bool
}.

Definition set_puddle (s : pst) (w : pworld) : pworld :=
  mkPool (p_config w) s (p_trace w) (p_values w) (p_conns w) (p_rowss w) (p_rows w) (p_brs w) (p_txs w)
    (p_batches w) (p_tasks w) (p_closed w).
Definition add_event (e : pevent) (w : pworld) : pworld :=
  mkPool (p_config w) (p_puddle w) (p_trace w ++ [e]) (p_values w) (p_conns w) (p_rowss w) (p_rows w)
    (p_brs w) (p_txs w) (p_batches w) (p_tasks w) (p_closed w).
Definition set_values (m : gmap nat connResource) (w : pworld) : pworld :=
  mkPool (p_config w) (p_puddle w) (p_trace w) m (p_conns w) (p_rowss w) (p_rows w) (p_brs w) (p_txs w)
    (p_batches w) (p_tasks w) (p_closed w).
Definition set_conns (l : list poolConn) (w : pworld) : pworld :=
  mkPool (p_config w) (p_puddle w) (p_trace w) (p_values w) l (p_rowss w) (p_rows w) (p_brs w) (p_txs w)
    (p_batches w) (p_tasks w) (p_closed w).
Definition set_rowss (l : list poolRows) (w : pworld) : pworld :=
  mkPool (p_config w) (p_puddle w) (p_trace w) (p_values w) (p_conns w) l (p_rows w) (p_brs w) (p_txs w)
    (p_batches w) (p_tasks w) (p_closed w).
Definition set_rows (l : list poolRow) (w : pworld) : pworld :=
  mkPool (p_config w) (p_puddle w) (p_trace w) (p_values w) (p_conns w) (p_rowss w) l (p_brs w) (p_txs w)
    (p_batches w) (p_tasks w) (p_closed w).
Definition set_pbrs (l : list poolBatchResults) (w : pworld) : pworld :=
  mkPool (p_config w) (p_puddle w) (p_trace w) (p_values w) (p_conns w) (p_rowss w) (p_rows w) l (p_txs w)
    (p_batches w) (p_tasks w) (p_closed w).
Definition set_ptxs (l : list poolTx) (w : pworld) : pworld :=
  mkPool (p_config w) (p_puddle w) (p_trace w) (p_values w) (p_conns w) (p_rowss w) (p_rows w) (p_brs w) l
    (p_batches w) (p_tasks w) (p_closed w).
Definition set_pbatches (l : list (list batchItem)) (w : pworld) : pworld :=
  mkPool (p_config w) (p_puddle w) (p_trace w) (p_values w) (p_conns w) (p_rowss w) (p_rows w) (p_brs w)
    (p_txs w) l (p_tasks w) (p_closed w).
Definition set_tasks (l : list task) (w : pworld) : pworld :=
  mkPool (p_config w) (p_puddle w) (p_trace w) (p_values w) (p_conns w) (p_rowss w) (p_rows w) (p_brs w)
    (p_txs w) (p_batches w) l (p_closed w).
Definition set_pclosed (w : pworld) : pworld :=
  mkPool (p_config w) (p_puddle w) (p_trace w) (p_values w) (p_conns w) (p_rowss w) (p_rows w) (p_brs w)
    (p_txs w) (p_batches w) (p_tasks w) true.

(** ** Primitive steps *)

Definition ask (r : prequest) : M pworld (preply r) := fun w =>
  Ok (pserve r (p_puddle w)).1 (set_puddle (pserve r (p_puddle w)).2 (add_event (Asked r) w)).

Definition took (res : nat) : M pworld unit := modify (add_event (Took res)).

(** [go func() { ... }()] *)
Definition spawn (t : task) : M pworld unit := modify (fun w => set_tasks (p_tasks w ++ [t]) w).

Definition pread {A} (heap : pworld -> list A) (p : nat) : M pworld A := fun w =>
  match heap w !! p with
  | Some a => Ok a w
  | None => Panicked nil_dereference w
  end.

(** [res.Value()], a pointer to a [connResource] *)
Definition value_of (res : nat) : M pworld connResource := fun w =>
  match p_values w !! res with
  | Some v => Ok v w
  | None => Panicked nil_dereference w
  end.

Definition with_world (cw : world) (v : connResource) : connResource :=
  mkConnResource cw (cr_conns v) (cr_poolRows v) (cr_poolRowss v).

(** The connection of a resource as it is left, and the batches, which belong
    to the program and are shared between the connections. *)
Definition put_back (res : nat) (v : connResource) (cw : world) (w : pworld) : pworld :=
  set_pbatches (batches cw) (set_values (<[res := with_world cw v]> (p_values w)) w).

(** A method of the [*pgx.Conn] of a resource. *)
Definition on_conn {A} (res : nat) (m : M world A) : M pworld A := fun w =>
  match p_values w !! res with
  | None => Panicked nil_dereference w
  | Some v =>
      match m (set_batches (p_batches w) (cr_conn v)) with
      | Ok a cw => Ok a (put_back res v cw w)
      | Panicked msg cw => Panicked msg (put_back res v cw w)
      | OutOfFuel => OutOfFuel
      end
  end.

(** ** The constructor and destructor given to puddle *)

(** [pgconn.ParseConfig] and [pgconn.ConnectConfig]. *)
Context (pg_ParseConfig : gostring -> error + PgConfig).
Context (pg_ConnectConfig : context -> PgConfig -> error + net).
(** The fuel of the loops of the connection's methods and of [Acquire]. *)
Context (fuel : nat).

(** The application may change its copy of the configuration. *)
Definition before_connect (ctx : context) (cfg : PoolConfig) : error + ConnConfig :=
  match BeforeConnect cfg with
  | None => inr (pc_ConnConfig cfg)
  | Some f =>
      match f ctx (pc_ConnConfig cfg) with
      | (Some e, _) => inl e
      | (None, connConfig) => inr connConfig
      end
  end.

(** A connection that [AfterConnect] refuses is closed. *)
Definition after_connect (ctx : context) (cfg : PoolConfig) (cw : world) : comp (error + world) :=
  match AfterConnect cfg with
  | None => Done (inr cw)
  | Some f =>
      match bind (f ctx) (fun err =>
              match err with
              | Some e => let* _ := Conn_Close ctx in ret (Some e)
              | None => ret None
              end) cw with
      | Ok (Some e) _ => Done (inl e)
      | Ok None cw' => Done (inr cw')
      | Panicked msg _ => Crash msg
      | OutOfFuel => NoFuel
      end
  end.

Definition construct (ctx : context) : M pworld (error + connResource) :=
  let* cfg := gets p_config in
  match before_connect ctx cfg with
  | inl e => ret (inl e)
  | inr connConfig =>
      let* '(_, r) := lift (of_outcome (connect pg_ConnectConfig ctx connConfig)) in
      match r with
      | inl e => ret (inl e)
      | inr cw =>
          let* r := lift (after_connect ctx cfg cw) in
          match r with
          | inl e => ret (inl e)
          | inr cw' => ret (inr (mkConnResource cw' 64 64 64))
          end
      end
  end.

(** Waiting for the clean-up of the connection changes nothing. *)
Definition destruct_value (res : nat) : M pworld unit :=
  let* _ := on_conn res (Conn_Close (WithTimeout Background (15 * Second))) in ret tt.

(** ** puddle's methods *)

Definition store (res : nat) (v : connResource) : M pworld unit :=
  modify (fun w => set_values (<[res := v]> (p_values w)) w).

Definition puddle_Acquire (ctx : context) : M pworld (error + nat) :=
  let* r := ask (PAcquire ctx) in
  match r with
  | inl e => ret (inl e)
  | inr (res, false) => took res ;;; ret (inr res)
  | inr (res, true) =>
      let* v := construct ctx in
      match v with
      | inl e => ask (PConstructed res (Some e)) ;;; ret (inl e)
      | inr v => store res v ;;; ask (PConstructed res None) ;;; took res ;;; ret (inr res)
      end
  end.

(** A resource made for a pool that was closed meanwhile is destroyed. *)
Definition CreateResource (ctx : context) : M pworld (option error) :=
  let* r := ask (PCreate ctx) in
  match r with
  | inl e => ret (Some e)
  | inr res =>
      let* v := construct ctx in
      match v with
      | inl e => ask (PConstructed res (Some e)) ;;; ret (Some e)
      | inr v =>
          store res v ;;;
          let* refused := ask (PConstructed res None) in
          match refused with
          | Some e => spawn (TDestruct res) ;;; ret (Some e)
          | None => ret None
          end
      end
  end.

Fixpoint took_all (l : list nat) : M pworld unit :=
  match l with
  | [] => ret tt
  | res :: l' => took res ;;; took_all l'
  end.

Definition puddle_AcquireAllIdle : M pworld (list nat) :=
  let* l := ask PAcquireAllIdle in took_all l ;;; ret l.

Definition res_Release (res : nat) : M pworld unit :=
  let* destroyed := ask (PRelease res) in when destroyed (spawn (TDestruct res)).
Definition res_ReleaseUnused (res : nat) : M pworld unit :=
  let* destroyed := ask (PReleaseUnused res) in when destroyed (spawn (TDestruct res)).
Definition res_Destroy (res : nat) : M pworld unit :=
  ask (PDestroy res) ;;; spawn (TDestruct res).

Fixpoint spawn_destructs (l : list nat) : M pworld unit :=
  match l with
  | [] => ret tt
  | res :: l' => spawn (TDestruct res) ;;; spawn_destructs l'
  end.

(** ** connResource *)

(** The preallocated objects are handed out one by one from blocks of 128. *)
Definition next_free (n : nat) : nat := match n with O => 127 | S k => k end.

Definition getConn (res : nat) : M pworld nat := fun w =>
  match p_values w !! res with
  | None => Panicked nil_dereference w
  | Some v =>
      let v' := mkConnResource (cr_conn v) (next_free (cr_conns v)) (cr_poolRows v) (cr_poolRowss v) in
      Ok (length (p_conns w))
        (set_conns (p_conns w ++ [Some res]) (set_values (<[res := v']> (p_values w)) w))
  end.

(** [c.res.Value()] of a released [Conn] dereferences a nil pointer. *)
Definition conn_res (c : nat) : M pworld nat :=
  let* x := pread p_conns c in
  match x with
  | Some res => ret res
  | None => panic nil_dereference
  end.

(** The methods of [Conn] are those of the connection it holds. *)
Definition on {A} (c : nat) (m : M world A) : M pworld A :=
  let* res := conn_res c in on_conn res m.

Definition getPoolRow (c r : nat) : M pworld nat :=
  let* res := conn_res c in
  let* v := value_of res in
  store res (mkConnResource (cr_conn v) (cr_conns v) (next_free (cr_poolRows v)) (cr_poolRowss v)) ;;;
  fun w => Ok (length (p_rows w)) (set_rows (p_rows w ++ [mkPoolRow res r (Some c)]) w).

Definition getPoolRows (c r : nat) : M pworld nat :=
  let* res := conn_res c in
  let* v := value_of res in
  store res (mkConnResource (cr_conn v) (cr_conns v) (cr_poolRows v) (next_free (cr_poolRowss v))) ;;;
  fun w => Ok (length (p_rowss w)) (set_rowss (p_rowss w ++ [mkPoolRows res r (Some c)]) w).

(** ** Release *)

Definition expired (w : pworld) (res : nat) : bool :=
  MaxConnLifetime (p_config w) <? time_Sub (Now (p_puddle w)) (CreationTime (p_puddle w) res).

(** Whether the connection is not to be used again. *)
Definition unusable (n : net) : bool :=
  pg_IsClosed n || pg_IsBusy n || negb (bool_decide (TxStatus n = "I"%char)).

Definition Release (c : nat) : M pworld unit :=
  let* x := pread p_conns c in
  match x with
  | None => ret tt
  | Some res =>
      let* v := value_of res in
      modify (fun w => set_conns (<[c := None]> (p_conns w)) w) ;;;
      let* old := gets (fun w => expired w res) in
      if unusable (outside (cr_conn v)) || old then res_Destroy res
      else
        let* cfg := gets p_config in
        match AfterRelease cfg with
        | None => res_Release res
        | Some _ => spawn (TAfterRelease res)
        end
  end.

(** ** Goroutines

    [backgroundHealthCheck] starts by making its ticker; its rounds are
    [health_tick] below. *)

Definition non_positive_interval : gostring := str "non-positive interval for NewTicker".

Definition run_task (t : task) : M pworld unit :=
  match t with
  | TAfterRelease res =>
      let* cfg := gets p_config in
      match AfterRelease cfg with
      | None => panic nil_dereference
      | Some f =>
          let* keep := on_conn res f in
          if keep then res_Release res else res_Destroy res
      end
  | TDestruct res => destruct_value res
  | TCreate => let* _ := CreateResource (WithTimeout Background Minute) in ret tt
  | THealthCheck =>
      let* cfg := gets p_config in
      if HealthCheckPeriod cfg <=? 0 then panic non_positive_interval else ret tt
  end.

(** The scheduler runs one of the goroutines that wait. *)
Definition run_goroutine (i : nat) : M pworld unit :=
  let* t := pread p_tasks i in
  modify (fun w => set_tasks (delete i (p_tasks w)) w) ;;;
  run_task t.

(** ** Acquire *)

(** [p.beforeAcquire == nil || p.beforeAcquire(ctx, cr.conn)] *)
Definition acceptable (ctx : context) (res : nat) : M pworld bool :=
  let* _ := value_of res in
  let* cfg := gets p_config in
  match BeforeAcquire cfg with
  | None => ret true
  | Some f => on_conn res (f ctx)
  end.

Definition Acquire (ctx : context) : M pworld (error + nat) :=
  loop fuel (fun _ : unit =>
    let* r := puddle_Acquire ctx in
    match r with
    | inl e => ret (inr (inl e))
    | inr res =>
        let* good := acceptable ctx res in
        if good then let* c := getConn res in ret (inr (inr c))
        else res_Destroy res ;;; ret (inl tt)
    end) tt.

(** [defer c.Release()] around what is done with an acquired connection; [zero]
    is the result when none is acquired. *)
Definition with_conn {A} (ctx : context) (failed : error -> A) (zero : A) (f : nat -> M pworld A) : M pworld A :=
  let* r := Acquire ctx in
  match r with
  | inl e => ret (failed e)
  | inr c => defer zero (fun a => Release c ;;; ret a) (f c)
  end.

Definition AcquireFunc (ctx : context) (f : nat -> M pworld (option error)) : M pworld (option error) :=
  with_conn ctx Some None f.

Fixpoint acquire_each (ctx : context) (l : list nat) : M pworld (list nat) :=
  match l with
  | [] => ret []
  | res :: l' =>
      let* good := acceptable ctx res in
      if good then
        let* c := getConn res in
        let* rest := acquire_each ctx l' in
        ret (c :: rest)
      else res_Destroy res ;;; acquire_each ctx l'
  end.

Definition AcquireAllIdle (ctx : context) : M pworld (list nat) :=
  let* l := puddle_AcquireAllIdle in acquire_each ctx l.

(** ** The methods of an acquired connection *)

Definition pconn_Exec (ctx : context) (c : nat) (sql : gostring) (args : list goval)
  : M pworld (CommandTag * option error) := on c (Conn_Exec fuel ctx sql args).
Definition pconn_Query (ctx : context) (c : nat) (sql : gostring) (args : list goval)
  : M pworld (nat * option error) := on c (Conn_Query fuel ctx sql args).
Definition pconn_QueryRow (ctx : context) (c : nat) (sql : gostring) (args : list goval) : M pworld nat :=
  on c (Conn_QueryRow fuel ctx sql args).
Definition pconn_QueryFunc (ctx : context) (c : nat) (sql : gostring) (args scans : list goval)
    (f : nat -> M world (option error)) : M pworld (CommandTag * option error) :=
  on c (Conn_QueryFunc fuel ctx sql args scans f).
Definition pconn_SendBatch (ctx : context) (c b : nat) : M pworld nat := on c (SendBatch fuel ctx b).
Definition pconn_CopyFrom `{CopyFromSource Src} (ctx : context) (c : nat) (tableName columnNames : list gostring)
    (src : Src) : M pworld (Z * option error * Src) :=
  on c (Conn_CopyFrom fuel ctx tableName columnNames src).
Definition pconn_BeginTx (ctx : context) (c : nat) (o : TxOptions) : M pworld (error + nat) :=
  on c (BeginTx fuel ctx o).
Definition pconn_Begin (ctx : context) (c : nat) : M pworld (error + nat) := on c (Begin fuel ctx).
Definition pconn_BeginTxFunc (ctx : context) (c : nat) (o : TxOptions) (f : Tx -> M world (option error))
  : M pworld (option error) := on c (BeginTxFunc fuel ctx o f).
Definition pconn_BeginFunc (ctx : context) (c : nat) (f : Tx -> M world (option error))
  : M pworld (option error) := on c (BeginFunc fuel ctx f).
Definition pconn_Ping (ctx : context) (c : nat) : M pworld (option error) := on c (Ping fuel ctx).

(** ** Operations that borrow a connection *)

Definition Pool_Exec (ctx : context) (sql : gostring) (args : list goval) : M pworld (CommandTag * option error) :=
  with_conn ctx (fun e => ([], Some e)) ([], None) (fun c => pconn_Exec ctx c sql args).

Definition Pool_QueryFunc (ctx : context) (sql : gostring) (args scans : list goval)
    (f : nat -> M world (option error)) : M pworld (CommandTag * option error) :=
  with_conn ctx (fun e => ([], Some e)) ([], None)
    (fun c => pconn_QueryFunc ctx c sql args scans f).

Definition Pool_Ping (ctx : context) : M pworld (option error) :=
  with_conn ctx Some None (fun c => pconn_Ping ctx c).

(** The function works on the connection of its transaction. *)
Definition Pool_BeginTxFunc (ctx : context) (o : TxOptions) (f : Tx -> M world (option error))
  : M pworld (option error) :=
  with_conn ctx Some None (fun c => pconn_BeginTxFunc ctx c o f).

Definition Pool_BeginFunc (ctx : context) (f : Tx -> M world (option error)) : M pworld (option error) :=
  Pool_BeginTxFunc ctx emptyTxOptions f.

Definition Pool_CopyFrom `{CopyFromSource Src} (ctx : context) (tableName columnNames : list gostring) (src : Src)
  : M pworld (Z * option error * Src) :=
  with_conn ctx (fun e => (0, Some e, src)) (0, None, src)
    (fun c => on c (Conn_CopyFrom fuel ctx tableName columnNames src)).

(** ** Result sets *)

(** The [pgx.Rows] and [pgx.Row] the pool returns. *)
Inductive PoolRowsI := ErrRows (err : error) | PoolRows (p : nat).
Inductive PoolRowI := ErrRow (err : error) | PoolRow (p : nat).

Definition Pool_Query (ctx : context) (sql : gostring) (args : list goval) : M pworld (PoolRowsI * option error) :=
  let* r := Acquire ctx in
  match r with
  | inl e => ret (ErrRows e, Some e)
  | inr c =>
      let* '(rows, err) := pconn_Query ctx c sql args in
      match err with
      | Some e => Release c ;;; ret (ErrRows e, Some e)
      | None => let* p := getPoolRows c rows in ret (PoolRows p, None)
      end
  end.

Definition Pool_QueryRow (ctx : context) (sql : gostring) (args : list goval) : M pworld PoolRowI :=
  let* r := Acquire ctx in
  match r with
  | inl e => ret (ErrRow e)
  | inr c =>
      let* row := pconn_QueryRow ctx c sql args in
      let* p := getPoolRow c row in
      ret (PoolRow p)
  end.

(** [if x.c != nil { x.c.Release(); x.c = nil }] *)
Definition release_opt (c : option nat) : M pworld unit :=
  match c with
  | None => ret tt
  | Some c => Release c
  end.

Definition poolRows_Close (p : nat) : M pworld unit :=
  let* x := pread p_rowss p in
  on_conn (pr_home x) (rows_Close (pr_r x)) ;;;
  release_opt (pr_c x) ;;;
  modify (fun w => set_rowss (<[p := mkPoolRows (pr_home x) (pr_r x) None]> (p_rowss w)) w).

Definition poolRows_Err (p : nat) : M pworld (option error) :=
  let* x := pread p_rowss p in on_conn (pr_home x) (rows_Err (pr_r x)).

Definition poolRows_CommandTag (p : nat) : M pworld CommandTag :=
  let* x := pread p_rowss p in on_conn (pr_home x) (rows_CommandTag (pr_r x)).

Definition poolRows_FieldDescriptions (p : nat) : M pworld (list FieldDescription) :=
  let* x := pread p_rowss p in on_conn (pr_home x) (rows_FieldDescriptions (pr_r x)).

Definition poolRows_RawValues (p : nat) : M pworld (list (option gostring)) :=
  let* x := pread p_rowss p in on_conn (pr_home x) (rows_RawValues (pr_r x)).

Definition poolRows_Next (p : nat) : M pworld bool :=
  let* x := pread p_rowss p in
  let* n := on_conn (pr_home x) (rows_Next (pr_r x)) in
  when (negb n) (poolRows_Close p) ;;;
  ret n.

Definition poolRows_Scan (p : nat) (dest : list goval) : M pworld (option error * list (option goval)) :=
  let* x := pread p_rowss p in
  let* '(err, stored) := on_conn (pr_home x) (rows_Scan (pr_r x) dest) in
  when (bool_decide (err <> None)) (poolRows_Close p) ;;;
  ret (err, stored).

Definition poolRows_Values (p : nat) : M pworld (list goval * option error) :=
  let* x := pread p_rowss p in
  let* '(vs, err) := on_conn (pr_home x) (rows_Values (pr_r x)) in
  when (bool_decide (err <> None)) (poolRows_Close p) ;;;
  ret (vs, err).

(** The field [c] of a row is kept: a second [Scan] releases again, which does
    nothing. *)
Definition poolRow_Scan (p : nat) (dest : list goval) : M pworld (option error * list (option goval)) :=
  let* x := pread p_rows p in
  let* r := on_conn (prow_home x) (row_Scan (prow_r x) dest) in
  release_opt (prow_c x) ;;;
  ret r.

(** The methods of the interfaces. *)
Definition Rows_Close (r : PoolRowsI) : M pworld unit :=
  match r with ErrRows _ => ret tt | PoolRows p => poolRows_Close p end.
Definition Rows_Err (r : PoolRowsI) : M pworld (option error) :=
  match r with ErrRows e => ret (Some e) | PoolRows p => poolRows_Err p end.
Definition Rows_Next (r : PoolRowsI) : M pworld bool :=
  match r with ErrRows _ => ret false | PoolRows p => poolRows_Next p end.
Definition Rows_Scan (r : PoolRowsI) (dest : list goval) : M pworld (option error * list (option goval)) :=
  match r with ErrRows e => ret (Some e, []) | PoolRows p => poolRows_Scan p dest end.
Definition Rows_Values (r : PoolRowsI) : M pworld (list goval * option error) :=
  match r with ErrRows e => ret ([], Some e) | PoolRows p => poolRows_Values p end.
Definition Row_Scan (r : PoolRowI) (dest : list goval) : M pworld (option error * list (option goval)) :=
  match r with ErrRow e => ret (Some e, []) | PoolRow p => poolRow_Scan p dest end.

(** ** Batches *)

Inductive PoolBatchI := ErrBatchResults (err : error) | PoolBatchResults (p : nat).

Definition Pool_SendBatch (ctx : context) (b : nat) : M pworld PoolBatchI :=
  let* r := Acquire ctx in
  match r with
  | inl e => ret (ErrBatchResults e)
  | inr c =>
      let* br := pconn_SendBatch ctx c b in
      let* res := conn_res c in
      let* p := (fun w => Ok (length (p_brs w)) (set_pbrs (p_brs w ++ [mkPoolBatchResults res br (Some c)]) w)) in
      ret (PoolBatchResults p)
  end.

(** The result sets of a batch are those of the connection: [pr_c] is [None]
    and closing them does not release it. *)
Definition pbr_Exec (p : nat) : M pworld (CommandTag * option error) :=
  let* x := pread p_brs p in on_conn (pbr_home x) (br_Exec (pbr_br x)).
Definition pbr_Query (p : nat) : M pworld (nat * option error) :=
  let* x := pread p_brs p in on_conn (pbr_home x) (br_Query (pbr_br x)).
Definition pbr_QueryRow (p : nat) : M pworld nat :=
  let* x := pread p_brs p in on_conn (pbr_home x) (br_QueryRow (pbr_br x)).
Definition pbr_QueryFunc (p : nat) (scans : list goval) (f : nat -> M world (option error))
  : M pworld (CommandTag * option error) :=
  let* x := pread p_brs p in on_conn (pbr_home x) (br_QueryFunc fuel (pbr_br x) scans f).

Definition pbr_Close (p : nat) : M pworld (option error) :=
  let* x := pread p_brs p in
  let* err := on_conn (pbr_home x) (br_Close (pbr_br x)) in
  release_opt (pbr_c x) ;;;
  modify (fun w => set_pbrs (<[p := mkPoolBatchResults (pbr_home x) (pbr_br x) None]> (p_brs w)) w) ;;;
  ret err.

Definition Batch_Exec (b : PoolBatchI) : M pworld (CommandTag * option error) :=
  match b with ErrBatchResults e => ret ([], Some e) | PoolBatchResults p => pbr_Exec p end.
Definition Batch_Close (b : PoolBatchI) : M pworld (option error) :=
  match b with ErrBatchResults e => ret (Some e) | PoolBatchResults p => pbr_Close p end.
(** The result sets of a batch are those of the connection. *)
Definition Batch_Query (b : PoolBatchI) : M pworld ((error + nat) * option error) :=
  match b with
  | ErrBatchResults e => ret (inl e, Some e)
  | PoolBatchResults p => let* '(r, err) := pbr_Query p in ret (inr r, err)
  end.
Definition Batch_QueryRow (b : PoolBatchI) : M pworld (error + nat) :=
  match b with
  | ErrBatchResults e => ret (inl e)
  | PoolBatchResults p => let* r := pbr_QueryRow p in ret (inr r)
  end.
Definition Batch_QueryFunc (b : PoolBatchI) (scans : list goval) (f : nat -> M world (option error))
  : M pworld (CommandTag * option error) :=
  match b with ErrBatchResults e => ret ([], Some e) | PoolBatchResults p => pbr_QueryFunc p scans f end.

(** ** Transactions *)

Definition Pool_BeginTx (ctx : context) (o : TxOptions) : M pworld (error + nat) :=
  let* r := Acquire ctx in
  match r with
  | inl e => ret (inl e)
  | inr c =>
      let* t := pconn_BeginTx ctx c o in
      match t with
      | inl e => Release c ;;; ret (inl e)
      | inr t =>
          let* res := conn_res c in
          let* p := (fun w => Ok (length (p_txs w)) (set_ptxs (p_txs w ++ [mkPoolTx res t (Some c)]) w)) in
          ret (inr p)
      end
  end.

Definition Pool_Begin (ctx : context) : M pworld (error + nat) := Pool_BeginTx ctx emptyTxOptions.

(** [Commit] and [Rollback] return the connection after the first of them. *)
Definition end_tx (finish : nat -> M world (option error)) (p : nat) : M pworld (option error) :=
  let* x := pread p_txs p in
  let* err := on_conn (ptx_home x) (finish (ptx_t x)) in
  release_opt (ptx_c x) ;;;
  modify (fun w => set_ptxs (<[p := mkPoolTx (ptx_home x) (ptx_t x) None]> (p_txs w)) w) ;;;
  ret err.

Definition ptx_Commit (ctx : context) (p : nat) : M pworld (option error) := end_tx (tx_Commit fuel ctx) p.
Definition ptx_Rollback (ctx : context) (p : nat) : M pworld (option error) := end_tx (tx_Rollback fuel ctx) p.

(** The other methods are those of the transaction. *)
Definition on_tx {A} (p : nat) (m : nat -> M world A) : M pworld A :=
  let* x := pread p_txs p in on_conn (ptx_home x) (m (ptx_t x)).

Definition ptx_Begin (ctx : context) (p : nat) : M pworld (error + nat) := on_tx p (tx_Begin fuel ctx).
Definition ptx_BeginFunc (ctx : context) (p : nat) (f : Tx -> M world (option error)) : M pworld (option error) :=
  on_tx p (fun t => tx_BeginFunc fuel ctx t f).
Definition ptx_Prepare (ctx : context) (p : nat) (name sql : gostring) : M pworld (error + StatementDescription) :=
  on_tx p (fun t => tx_Prepare ctx t name sql).
Definition ptx_Exec (ctx : context) (p : nat) (sql : gostring) (args : list goval)
  : M pworld (CommandTag * option error) := on_tx p (fun t => tx_Exec fuel ctx t sql args).
Definition ptx_Query (ctx : context) (p : nat) (sql : gostring) (args : list goval)
  : M pworld (nat * option error) := on_tx p (fun t => tx_Query fuel ctx t sql args).
Definition ptx_QueryRow (ctx : context) (p : nat) (sql : gostring) (args : list goval) : M pworld nat :=
  on_tx p (fun t => tx_QueryRow fuel ctx t sql args).
Definition ptx_QueryFunc (ctx : context) (p : nat) (sql : gostring) (args scans : list goval)
    (f : nat -> M world (option error)) : M pworld (CommandTag * option error) :=
  on_tx p (fun t => tx_QueryFunc fuel ctx t sql args scans f).
Definition ptx_SendBatch (ctx : context) (p b : nat) : M pworld nat :=
  on_tx p (fun t => tx_SendBatch fuel ctx t b).
Definition ptx_CopyFrom `{CopyFromSource Src} (ctx : context) (p : nat) (tableName columnNames : list gostring)
    (src : Src) : M pworld (Z * option error * Src) :=
  on_tx p (fun t => tx_CopyFrom fuel ctx t tableName columnNames src).

(** ** The health check *)

(** The age is taken from one reading of the clock. *)
Fixpoint check_each (now : Z) (l : list nat) : M pworld unit :=
  match l with
  | [] => ret tt
  | res :: l' =>
      let* cfg := gets p_config in
      let* created := gets (fun w => CreationTime (p_puddle w) res) in
      let* idle := gets (fun w => IdleDuration (p_puddle w) res) in
      (if MaxConnLifetime cfg <? time_Sub now created then res_Destroy res
       else if MaxConnIdleTime cfg <? idle then res_Destroy res
       else res_ReleaseUnused res) ;;;
      check_each now l'
  end.

Definition checkIdleConnsHealth : M pworld unit :=
  let* l := puddle_AcquireAllIdle in
  let* now := gets (fun w => Now (p_puddle w)) in
  check_each now l.

Fixpoint spawn_creates (n : nat) : M pworld unit :=
  match n with
  | O => ret tt
  | S k => spawn TCreate ;;; spawn_creates k
  end.

Definition checkMinConns : M pworld unit :=
  let* cfg := gets p_config in
  let* total := gets (fun w => TotalResources (p_puddle w)) in
  spawn_creates (Z.to_nat (int32 (MinConns cfg - total))).

(** One round of [backgroundHealthCheck]: it ends when the pool is closed. *)
Definition health_tick : M pworld bool :=
  let* closed := gets p_closed in
  if closed then ret false else checkIdleConnsHealth ;;; checkMinConns ;;; ret true.

(** ** Opening and closing *)

Definition makechan_size : gostring := str "makechan: size out of range".

(** The goroutines are run one after the other: the context is cancelled for
    those that start after the first error. *)
Fixpoint create_each (n : nat) (ctx : context) (firstError : option error) : M pworld (option error) :=
  match n with
  | O => ret firstError
  | S k =>
      let* err := CreateResource ctx in
      match err, firstError with
      | Some e, None => create_each k (WithCancelled ctx) (Some e)
      | _, _ => create_each k ctx firstError
      end
  end.

Definition createIdleResources (parentCtx : context) (targetResources : Z) : M pworld (option error) :=
  if targetResources <? 0 then panic makechan_size
  else create_each (Z.to_nat targetResources) parentCtx None.

Definition Pool_Close : M pworld unit :=
  let* closed := gets p_closed in
  if closed then ret tt
  else
    modify set_pclosed ;;;
    let* idle := ask PClose in
    spawn_destructs idle.

Definition not_parsed : gostring := str "config must be created by ParseConfig".

(** A pool before anything happens: [s] is its new puddle, [bs] are the batches
    the application has made. *)
Definition new_pool (cfg : PoolConfig) (s : pst) (bs : list (list batchItem)) : pworld :=
  mkPool cfg s [] ∅ [] [] [] [] [] bs [] false.

(** Opening the new pool. *)
Definition ConnectConfig (ctx : context) : M pworld (option error) :=
  let* cfg := gets p_config in
  if negb (pc_createdByParseConfig cfg) then panic not_parsed
  else
    spawn THealthCheck ;;;
    if LazyConnect cfg then ret None
    else
    let* err := createIdleResources ctx (MinConns cfg) in
    match err with
    | Some e => Pool_Close ;;; ret (Some e)
    | None =>
        let* r := puddle_Acquire ctx in
        match r with
        | inl e => Pool_Close ;;; ret (Some e)
        | inr res => res_Release res ;;; ret None
        end
    end.

(** ** ParseConfig *)

Section ParseConfig.
(** [runtime.NumCPU()] *)
Context (NumCPU : Z).

Definition defaultMaxConns : Z := 4.
Definition defaultMinConns : Z := 0.
Definition defaultMaxConnLifetime : Z := Hour.
Definition defaultMaxConnIdleTime : Z := Minute * 30.
Definition defaultHealthCheckPeriod : Z := Minute.

Definition parse_max_conns (m : gmap gostring gostring) : error + (Z * gmap gostring gostring) :=
  match m !! str "pool_max_conns" with
  | Some s =>
      match ParseInt s 32 with
      | inl e => inl (WrapError (str "cannot parse pool_max_conns: ") (NumErr (str "ParseInt") s e))
      | inr n =>
          if n <? 1 then inl (ErrorString (str "pool_max_conns too small: " ++ FormatInt n))
          else inr (int32 n, delete (str "pool_max_conns") m)
      end
  | None =>
      let numCPU := int32 NumCPU in
      inr (if defaultMaxConns <? numCPU then numCPU else defaultMaxConns, m)
  end.

Definition parse_min_conns (m : gmap gostring gostring) : error + (Z * gmap gostring gostring) :=
  match m !! str "pool_min_conns" with
  | Some s =>
      match ParseInt s 32 with
      | inl e => inl (WrapError (str "cannot parse pool_min_conns: ") (NumErr (str "ParseInt") s e))
      | inr n => inr (int32 n, delete (str "pool_min_conns") m)
      end
  | None => inr (defaultMinConns, m)
  end.

Definition parse_duration (key : gostring) (default_value : Z) (m : gmap gostring gostring)
  : error + (Z * gmap gostring gostring) :=
  match m !! key with
  | Some s =>
      match ParseDuration s with
      | inl e => inl (WrapError (str "invalid " ++ key ++ str ": ") e)
      | inr d => inr (d, delete key m)
      end
  | None => inr (default_value, m)
  end.

Definition with_params (m : gmap gostring gostring) (c : ConnConfig) : ConnConfig :=
  mkConnConfig (with_RuntimeParams m (Config c)) (cc_Logger c) (cc_LogLevel c) (connString c)
    (BuildStatementCache c) (PreferSimpleProtocol c) (createdByParseConfig c).

Definition Pool_ParseConfig (s : gostring) : error + PoolConfig :=
  match ParseConfig pg_ParseConfig s with
  | inl e => inl e
  | inr connConfig =>
  match parse_max_conns (RuntimeParams (Config connConfig)) with
  | inl e => inl e
  | inr (maxConns, m1) =>
  match parse_min_conns m1 with
  | inl e => inl e
  | inr (minConns, m2) =>
  match parse_duration (str "pool_max_conn_lifetime") defaultMaxConnLifetime m2 with
  | inl e => inl e
  | inr (lifetime, m3) =>
  match parse_duration (str "pool_max_conn_idle_time") defaultMaxConnIdleTime m3 with
  | inl e => inl e
  | inr (idle, m4) =>
  match parse_duration (str "pool_health_check_period") defaultHealthCheckPeriod m4 with
  | inl e => inl e
  | inr (period, m5) =>
      inr (mkPoolConfig (with_params m5 connConfig) None None None None lifetime idle maxConns minConns
             period false true)
  end end end end end end.

Definition Pool_Connect (ctx : context) (s : gostring) (st : pst) (bs : list (list batchItem))
  : error + result pworld (option error) :=
  match Pool_ParseConfig s with
  | inl e => inl e
  | inr cfg => inr (ConnectConfig ctx (new_pool cfg st bs))
  end.
End ParseConfig.


(** ** Statistics *)

(** [puddle.Stat], the snapshot puddle takes, and [Stat] around it. *)
Record puddle_Stat := mkPuddleStat {
  ps_AcquireCount : Z;
  ps_AcquireDuration : Z;
  ps_AcquiredResources : Z;
  ps_CanceledAcquireCount : Z;
  ps_ConstructingResources : Z;
  ps_EmptyAcquireCount : Z;
  ps_IdleResources : Z;
  ps_MaxResources : Z;
  ps_TotalResources : Z
}.

Record Stat := mkStat { stat_s : puddle_Stat }.

Definition Pool_Stat (puddle_stat : pst -> puddle_Stat) : M pworld Stat :=
  gets (fun w => mkStat (puddle_stat (p_puddle w))).

Definition AcquireCount (s : Stat) : Z := ps_AcquireCount (stat_s s).
Definition AcquireDuration (s : Stat) : Z := ps_AcquireDuration (stat_s s).
Definition AcquiredConns (s : Stat) : Z := ps_AcquiredResources (stat_s s).
Definition CanceledAcquireCount (s : Stat) : Z := ps_CanceledAcquireCount (stat_s s).
Definition ConstructingConns (s : Stat) : Z := ps_ConstructingResources (stat_s s).
Definition EmptyAcquireCount (s : Stat) : Z := ps_EmptyAcquireCount (stat_s s).
Definition IdleConns (s : Stat) : Z := ps_IdleResources (stat_s s).
Definition Stat_MaxConns (s : Stat) : Z := ps_MaxResources (stat_s s).
Definition TotalConns (s : Stat) : Z := ps_TotalResources (stat_s s).

End Pool.
