(* ===== verification/PoolSpec.v ===== *)
(** Properties of the connection pool: every resource that is taken from puddle
    is given back once, and what the configuration guarantees. *)

From S2P Require Import Prelude GoStd GoVal GoDuration Effects Values PgConn Logger World Toy Rows Config Conn Batch.
From S2P Require Import ConnSpec CopyFrom Tx Pool.

Local Open Scope Z_scope.

Section Accounts.
Context `{PgTypes} `{PgConn} `{!PgDecoders} `{Puddle}.

(** ** The account of a resource *)

Definition took_event (res : nat) (e : pevent) : bool :=
  match e with Took r => bool_decide (r = res) | Asked _ => false end.

Definition gave_event (res : nat) (e : pevent) : bool :=
  match e with
  | Asked (PRelease r) | Asked (PReleaseUnused r) | Asked (PDestroy r) => bool_decide (r = res)
  | _ => false
  end.

Definition waiting_task (res : nat) (t : task) : bool :=
  match t with TAfterRelease r => bool_decide (r = res) | _ => false end.

Definition count {A} (p : A -> bool) (l : list A) : Z := Z.of_nat (length (List.filter p l)).

Definition takes (w : pworld) (res : nat) : Z := count (took_event res) (p_trace w).
Definition gives (w : pworld) (res : nat) : Z := count (gave_event res) (p_trace w).
Definition holders (w : pworld) (res : nat) : Z := count (fun c => bool_decide (c = Some res)) (p_conns w).
Definition waiting (w : pworld) (res : nat) : Z := count (waiting_task res) (p_tasks w).

(** What has been taken and is neither given back, nor held by a connection,
    nor in the hands of the [AfterRelease] goroutine. *)
Definition balance (w : pworld) (res : nat) : Z :=
  takes w res - gives w res - holders w res - waiting w res.

Definition accounted (w : pworld) : Prop := forall res, balance w res = 0.

Definition same_balance (w w' : pworld) : Prop := forall res, balance w' res = balance w res.

#[local] Instance same_balance_preorder : PreOrder same_balance.
Proof. split; [done|]. intros w1 w2 w3 H12 H23 res. by rewrite H23, H12. Qed.

Definition one (res r : nat) : Z := if bool_decide (r = res) then 1 else 0.

(** [gain w w' d]: the balances change by [d]. *)
Definition gain (w w' : pworld) (d : nat -> Z) : Prop := forall r, balance w' r = balance w r + d r.

Lemma count_app {A} p (l l' : list A) : count p (l ++ l') = count p l + count p l'.
Proof. unfold count. rewrite List.filter_app, length_app. lia. Qed.

Lemma count_one {A} p (a : A) : count p [a] = if p a then 1 else 0.
Proof. unfold count. simpl. by destruct (p a). Qed.

Lemma count_cons {A} p (a : A) l : count p (a :: l) = count p [a] + count p l.
Proof. apply (count_app p [a]). Qed.

Lemma count_insert {A} p (l : list A) i x y :
  l !! i = Some x -> count p (<[i := y]> l) = count p l - count p [x] + count p [y].
Proof.
  intros Hi. rewrite <- (take_drop_middle l i x Hi) at 2.
  rewrite (insert_take_drop l i y) by (by eapply lookup_lt_Some).
  rewrite !count_app, !(count_cons p _ (drop _ _)). lia.
Qed.

Lemma count_delete {A} p (l : list A) i x :
  l !! i = Some x -> count p (delete i l) = count p l - count p [x].
Proof.
  intros Hi. rewrite <- (take_drop_middle l i x Hi) at 2.
  rewrite delete_take_drop, !count_app, (count_cons p x). lia.
Qed.

(** ** Steps that change nothing *)

Lemma same_parts w w' :
  p_trace w' = p_trace w -> p_conns w' = p_conns w -> p_tasks w' = p_tasks w -> same_balance w w'.
Proof. intros E1 E2 E3 res. unfold balance, takes, gives, holders, waiting. by rewrite E1, E2, E3. Qed.

Lemma keeps_ask_other r :
  (forall res, gave_event res (Asked r) = false) -> keeps same_balance (ask r).
Proof.
  intros Hr w res. unfold ask, balance, takes, gives, holders, waiting. simpl.
  rewrite !count_app, !count_one, Hr. simpl. lia.
Qed.

Lemma keeps_spawn t : (forall res, waiting_task res t = false) -> keeps same_balance (spawn t).
Proof.
  intros Ht w res. unfold spawn, balance, takes, gives, holders, waiting. simpl.
  rewrite !count_app, !count_one, Ht. lia.
Qed.

Lemma keeps_pread {A} (heap : pworld -> list A) p : keeps same_balance (pread heap p).
Proof. intros w. unfold pread. destruct (heap w !! p); simpl; reflexivity. Qed.

Lemma keeps_value_of res : keeps same_balance (value_of res).
Proof. intros w. unfold value_of. destruct (p_values w !! res); simpl; reflexivity. Qed.

Lemma keeps_store res v : keeps same_balance (store res v).
Proof. intros w. by apply same_parts. Qed.

Lemma keeps_on_conn {A} res (m : M world A) : keeps same_balance (on_conn res m).
Proof.
  intros w. unfold on_conn. destruct (p_values w !! res) as [v|]; [|simpl; reflexivity].
  destruct (m _) as [a cw|msg cw|]; [by apply same_parts|by apply same_parts|done].
Qed.

Lemma keeps_conn_res c : keeps same_balance (conn_res c).
Proof. unfold conn_res. apply (keeps_bind _); [apply keeps_pread|]. intros []; intros w; simpl; reflexivity. Qed.

Lemma keeps_on {A} c (m : M world A) : keeps same_balance (on c m).
Proof. apply (keeps_bind _); [apply keeps_conn_res|]. intros. apply keeps_on_conn. Qed.

(** Steps on the heaps of the pool's own objects. *)
Lemma keeps_heap {A} (a : pworld -> A) (f : pworld -> pworld) :
  (forall w, p_trace (f w) = p_trace w) -> (forall w, p_conns (f w) = p_conns w) ->
  (forall w, p_tasks (f w) = p_tasks w) ->
  keeps same_balance (fun w => Ok (a w) (f w)).
Proof. intros E1 E2 E3 w. by apply same_parts. Qed.
End Accounts.

#[export] Hint Resolve keeps_pread keeps_value_of keeps_store keeps_on_conn keeps_conn_res keeps_on : keeps.
#[export] Existing Instance same_balance_preorder.

Section Operations.
Context `{PgTypes} `{PgConn} `{!PgDecoders} `{Puddle}.
Context (pg_ConnectConfig : context -> PgConfig -> error + net) (fuel : nat).

(** [moves d m]: when [m] returns [a], the balances have changed by [d a]. *)
Definition moves {A} (d : A -> nat -> Z) (m : M pworld A) : Prop :=
  forall w a w', m w = Ok a w' -> gain w w' (d a).

(** Nothing is left over when [m] returns. *)
Abbreviation settles m := (moves (fun _ _ => 0) m).

Lemma moves_keeps {A} (m : M pworld A) : keeps same_balance m -> settles m.
Proof. intros Hk w a w' E r. rewrite (keeps_Ok _ _ _ _ _ Hk E r). lia. Qed.

Lemma moves_bind {A B} (d : A -> nat -> Z) (e : B -> nat -> Z) (m : M pworld A) (k : A -> M pworld B) :
  moves d m -> (forall a, moves (fun b r => e b r - d a r) (k a)) -> moves e (bind m k).
Proof.
  intros Hm Hk w b w' E r. inv_ok E. rewrite (Hk _ _ _ _ E r), (Hm _ _ _ Hm0 r). lia.
Qed.

Lemma moves_ext {A} (d e : A -> nat -> Z) m : moves d m -> (forall a r, d a r = e a r) -> moves e m.
Proof. intros Hm Hde w a w' E r. rewrite <- Hde. by apply Hm. Qed.

Lemma moves_ret {A} (a : A) (d : A -> nat -> Z) : (forall r, d a r = 0) -> moves d (ret a).
Proof. intros Hd w a' w' E r. injection E as <- <-. rewrite Hd. lia. Qed.

Lemma moves_took res : moves (fun _ => one res) (took res).
Proof.
  intros w [] w' E r. injection E as <-. unfold balance, takes, gives, holders, waiting, one. simpl.
  rewrite !count_app, !count_one. simpl.
  destruct (decide (res = r)); repeat case_bool_decide; subst; try done; lia.
Qed.

Lemma moves_give q res :
  (forall r, gave_event r (Asked q) = bool_decide (res = r)) -> moves (fun _ r => - one res r) (ask q).
Proof.
  intros Hq w a w' E r. injection E as <- <-.
  unfold balance, takes, gives, holders, waiting, one. simpl.
  rewrite !count_app, !count_one, Hq. simpl.
  destruct (decide (res = r)); repeat case_bool_decide; subst; try done; lia.
Qed.

Lemma moves_spawn_destruct res : settles (spawn (TDestruct res)).
Proof. apply moves_keeps, keeps_spawn. done. Qed.

Lemma moves_destruct_when b res : settles (when b (spawn (TDestruct res))).
Proof. destruct b; [apply moves_spawn_destruct|by apply moves_ret]. Qed.

Lemma moves_Release_res res : moves (fun _ r => - one res r) (res_Release res).
Proof.
  eapply moves_bind; [by apply moves_give|]. intros b. simpl.
  eapply moves_ext; [apply moves_destruct_when|]. intros; simpl; lia.
Qed.

Lemma moves_ReleaseUnused_res res : moves (fun _ r => - one res r) (res_ReleaseUnused res).
Proof.
  eapply moves_bind; [by apply moves_give|]. intros b. simpl.
  eapply moves_ext; [apply moves_destruct_when|]. intros; simpl; lia.
Qed.

Lemma moves_Destroy_res res : moves (fun _ r => - one res r) (res_Destroy res).
Proof.
  eapply moves_bind; [by apply moves_give|]. intros b. simpl.
  eapply moves_ext; [apply moves_spawn_destruct|]. intros; simpl; lia.
Qed.

Lemma keeps_construct ctx : keeps same_balance (construct pg_ConnectConfig ctx).
Proof. unfold construct. keeps_tac. Qed.

Lemma keeps_CreateResource ctx : keeps same_balance (CreateResource pg_ConnectConfig ctx).
Proof.
  unfold CreateResource.
  apply (keeps_bind _); [by apply keeps_ask_other|]. intros [e|res]; [apply (keeps_ret _)|].
  apply (keeps_bind _); [apply keeps_construct|]. intros [e|v].
  - apply (keeps_bind _); [by apply keeps_ask_other|]. intros _. apply (keeps_ret _).
  - apply (keeps_bind _); [apply keeps_store|]. intros _.
    apply (keeps_bind _); [by apply keeps_ask_other|]. intros [e|]; [|apply (keeps_ret _)].
    apply (keeps_bind _); [by apply keeps_spawn|]. intros _. apply (keeps_ret _).
Qed.

Lemma moves_puddle_Acquire ctx :
  moves (fun a r => match a with inl _ => 0 | inr res => one res r end) (puddle_Acquire pg_ConnectConfig ctx).
Proof.
  eapply moves_bind; [by apply moves_keeps, keeps_ask_other|]. intros [e|[res []]]; simpl.
  - by apply moves_ret.
  - eapply moves_bind; [apply moves_keeps, keeps_construct|]. intros [e|v]; simpl.
    + eapply moves_bind; [by apply moves_keeps, keeps_ask_other|]. intros a. by apply moves_ret.
    + eapply moves_bind; [apply moves_keeps, keeps_store|]. intros a.
      eapply moves_bind; [by apply moves_keeps, keeps_ask_other|]. intros b.
      eapply moves_bind; [apply moves_took|]. intros c. apply moves_ret. intros r. lia.
  - eapply moves_bind; [apply moves_took|]. intros c. apply moves_ret. intros r. lia.
Qed.

(** ** Acquiring *)

Lemma moves_getConn res : moves (fun _ r => - one res r) (getConn res).
Proof.
  intros w a w' E r. unfold getConn in E. destruct (p_values w !! res); [|done]. injection E as <- <-.
  unfold balance, takes, gives, holders, waiting, one. simpl.
  rewrite !count_app, !count_one. destruct (decide (res = r)); repeat case_bool_decide; try congruence; lia.
Qed.

Lemma keeps_acceptable ctx res : keeps same_balance (acceptable ctx res).
Proof. unfold acceptable. keeps_tac. Qed.

Lemma moves_loop {A B} n (body : A -> M pworld (A + B)) (e : B -> nat -> Z) a :
  (forall a, moves (fun x r => match x with inl _ => 0 | inr b => e b r end) (body a)) ->
  moves e (loop n body a).
Proof.
  intros Hb. revert a. induction n as [|n IH]; intros a; [by intros w b w' E|]. cbn [loop].
  eapply moves_bind; [apply Hb|]. intros [a'|b]; simpl.
  - eapply moves_ext; [apply IH|]. intros; simpl; lia.
  - apply moves_ret. intros; lia.
Qed.

Lemma settles_Acquire ctx : settles (Acquire pg_ConnectConfig fuel ctx).
Proof.
  apply moves_loop. intros _. eapply moves_bind; [apply moves_puddle_Acquire|]. intros [e|res]; simpl.
  - by apply moves_ret.
  - eapply moves_bind; [apply moves_keeps, keeps_acceptable|]. intros []; simpl.
    + eapply moves_bind; [apply moves_getConn|]. intros c. apply moves_ret. intros; simpl; lia.
    + eapply moves_bind; [apply moves_Destroy_res|]. intros c. apply moves_ret. intros; simpl; lia.
Qed.

(** ** Releasing *)

(** The connections that must not be used again: they are closed, a request is
    not finished, a transaction is open, or the connection is older than the
    pool allows. *)
Definition too_old (w : pworld) (res : nat) : Prop :=
  MaxConnLifetime (p_config w) < time_Sub (Now (p_puddle w)) (CreationTime (p_puddle w) res).

Definition spent (w : pworld) (res : nat) (n : net) : Prop :=
  pg_IsClosed n = true \/ pg_IsBusy n = true \/ TxStatus n <> "I"%char \/ too_old w res.

#[export] Instance too_old_dec w res : Decision (too_old w res).
Proof. unfold too_old. apply _. Defined.

(** What becomes of the resource: destroyed, put back, or left to the goroutine
    of [AfterRelease]. *)
Definition destroyed (res : nat) (w w' : pworld) : Prop :=
  p_trace w' = p_trace w ++ [Asked (PDestroy res)] /\ p_tasks w' = p_tasks w ++ [TDestruct res].
Definition put_in_pool (res : nat) (w w' : pworld) : Prop :=
  p_trace w' = p_trace w ++ [Asked (PRelease res)]
  /\ exists l, p_tasks w' = p_tasks w ++ l /\ (l = [] \/ l = [TDestruct res]).
Definition left_to_hook (res : nat) (w w' : pworld) : Prop :=
  p_trace w' = p_trace w /\ p_tasks w' = p_tasks w ++ [TAfterRelease res].

Definition returned (res : nat) (n : net) (w w' : pworld) : Prop :=
  (spent w res n -> destroyed res w w')
  /\ (~ spent w res n -> AfterRelease (p_config w) = None -> put_in_pool res w w')
  /\ (~ spent w res n -> AfterRelease (p_config w) <> None -> left_to_hook res w w').

Lemma spent_test w res n : unusable n || expired w res = true <-> spent w res n.
Proof.
  unfold unusable, expired, spent, too_old. rewrite !orb_true_iff, negb_true_iff, bool_decide_eq_false, Z.ltb_lt.
  tauto.
Qed.

Lemma returned_cases res n w w' :
  returned res n w w' -> destroyed res w w' \/ put_in_pool res w w' \/ left_to_hook res w w'.
Proof.
  intros (Hs & Hp & Hl). destruct (unusable n || expired w res) eqn:E; [by left; apply Hs, spent_test|].
  assert (~ spent w res n) as Hn by (intros Hsp%spent_test; congruence).
  destruct (AfterRelease (p_config w)) eqn:Ea; [|by right; left; apply Hp]. right; right. by apply Hl.
Qed.

Lemma Release_holding c res v w :
  p_conns w !! c = Some (Some res) -> p_values w !! res = Some v ->
  exists w', Release c w = Ok tt w' /\ p_conns w' = <[c := None]> (p_conns w)
    /\ p_values w' = p_values w /\ returned res (outside (cr_conn v)) w w'.
Proof.
  intros Hc Hv. unfold Release, bind, pread, value_of, modify, gets. rewrite Hc, Hv. cbv beta iota.
  change (expired (set_conns _ w) res) with (expired w res).
  pose proof (spent_test w res (outside (cr_conn v))) as Hsp. destruct (_ || _).
  { eexists. split_and!; [reflexivity..|]. by split; [|split; intros Hn; destruct Hn; apply Hsp]. }
  assert (~ spent w res (outside (cr_conn v))) as Hn by (intros Hs; by apply Hsp in Hs).
  change (p_config (set_conns _ w)) with (p_config w). unfold returned.
  destruct (AfterRelease (p_config w)).
  { eexists. split_and!; [reflexivity..|done|done|done]. }
  unfold res_Release, bind, ask, when. simpl. destruct (fst _).
  - eexists. split_and!; [reflexivity..|done| |done]. intros _ _. split; [done|]. exists [TDestruct res]. auto.
  - eexists. split_and!; [reflexivity..|done| |done]. intros _ _. split; [done|]. exists []. rewrite app_nil_r. auto.
Qed.

Lemma returned_balance c res n w w' :
  p_conns w !! c = Some (Some res) -> p_conns w' = <[c := None]> (p_conns w) ->
  returned res n w w' -> same_balance w w'.
Proof.
  intros Hc Hc' Hr%returned_cases r. unfold balance, takes, gives, holders, waiting. rewrite Hc', (count_insert _ _ _ _ _ Hc).
  rewrite !count_one.
  destruct Hr as [[-> ->]|[[-> (l & -> & [-> | ->])]|[-> ->]]];
    rewrite ?app_nil_r, ?count_app, ?count_one; simpl; repeat case_bool_decide; try congruence; lia.
Qed.

Lemma keeps_Release c : keeps same_balance (Release c).
Proof.
  intros w. destruct (p_conns w !! c) as [[res|]|] eqn:Hc.
  - destruct (p_values w !! res) as [v|] eqn:Hv.
    + destruct (Release_holding c res v w Hc Hv) as (w' & -> & Hc' & _ & Hr).
      by eapply returned_balance.
    + unfold Release, bind, pread, value_of. rewrite Hc, Hv. simpl. reflexivity.
  - unfold Release, bind, pread. rewrite Hc. simpl. reflexivity.
  - unfold Release, bind, pread. rewrite Hc. simpl. reflexivity.
Qed.

#[local] Hint Resolve keeps_Release keeps_construct keeps_CreateResource keeps_acceptable : keeps.
#[local] Hint Extern 1 (keeps same_balance (modify _)) =>
  (apply keeps_modify; intros; by apply same_parts) : keeps.
#[local] Hint Extern 1 (keeps same_balance (fun _ => Ok _ _)) =>
  (intros ?; by apply same_parts) : keeps.
#[local] Hint Extern 1 (keeps same_balance (spawn _)) => (by apply keeps_spawn) : keeps.

(** ** What is done with an acquired connection *)

Lemma defer_Ok {A} (zero : A) (g : A -> M pworld A) (m : M pworld A) w a w' :
  defer zero g m w = Ok a w' -> exists b w1, m w = Ok b w1 /\ g b w1 = Ok a w'.
Proof. unfold defer. repeat case_match; intros; simplify_eq; eauto. Qed.

Lemma settles_with_conn {A} ctx failed (zero : A) f :
  (forall c, settles (f c)) -> settles (with_conn pg_ConnectConfig fuel ctx failed zero f).
Proof.
  intros Hf. eapply moves_bind; [apply settles_Acquire|]. intros [e|c]; simpl; [by apply moves_ret|].
  intros w a w' (b & w1 & E1 & E2)%defer_Ok r. inv_ok E2. injection E2 as <- <-.
  rewrite (keeps_Ok _ _ _ _ _ (keeps_Release c) Hm r), (Hf c _ _ _ E1 r). lia.
Qed.

Lemma settles_acquired {A} ctx (k : error + nat -> M pworld A) :
  (forall x, keeps same_balance (k x)) -> settles (bind (Acquire pg_ConnectConfig fuel ctx) k).
Proof.
  intros Hk. eapply moves_bind; [apply settles_Acquire|]. intros a.
  eapply moves_ext; [apply moves_keeps, Hk|]. intros; simpl; lia.
Qed.

Lemma keeps_getPoolRow c r : keeps same_balance (getPoolRow c r).
Proof. unfold getPoolRow. keeps_tac. Qed.
Lemma keeps_getPoolRows c r : keeps same_balance (getPoolRows c r).
Proof. unfold getPoolRows. keeps_tac. Qed.
Lemma keeps_release_opt c : keeps same_balance (release_opt c).
Proof. unfold release_opt. keeps_tac. Qed.
#[local] Hint Resolve keeps_getPoolRow keeps_getPoolRows keeps_release_opt : keeps.

Lemma keeps_poolRows_Close p : keeps same_balance (poolRows_Close p).
Proof. unfold poolRows_Close. keeps_tac. Qed.
#[local] Hint Resolve keeps_poolRows_Close : keeps.

Lemma keeps_end_tx f p : keeps same_balance (end_tx f p).
Proof. unfold end_tx. keeps_tac. Qed.

(** ** All idle resources *)

Fixpoint units (l : list nat) (r : nat) : Z :=
  match l with
  | [] => 0
  | res :: l' => one res r + units l' r
  end.

Lemma moves_took_all l : moves (fun _ => units l) (took_all l).
Proof.
  induction l as [|res l IH]; [by apply moves_ret|]. eapply moves_bind; [apply moves_took|]. intros [].
  eapply moves_ext; [apply IH|]. intros; simpl; lia.
Qed.

Lemma moves_AcquireAllIdle_puddle : moves units puddle_AcquireAllIdle.
Proof.
  eapply moves_bind; [by apply moves_keeps, keeps_ask_other|]. intros l.
  eapply moves_bind; [apply moves_took_all|]. intros []. apply moves_ret. intros; simpl; lia.
Qed.

Lemma moves_acquire_each ctx l : moves (fun _ r => - units l r) (acquire_each ctx l).
Proof.
  induction l as [|res l IH]; [by apply moves_ret|]. cbn [acquire_each].
  eapply moves_bind; [apply moves_keeps, keeps_acceptable|]. intros []; simpl.
  - eapply moves_bind; [apply moves_getConn|]. intros c. eapply moves_bind; [apply IH|]. intros cs.
    apply moves_ret. intros; simpl; lia.
  - eapply moves_bind; [apply moves_Destroy_res|]. intros u.
    eapply moves_ext; [apply IH|]. intros; simpl; lia.
Qed.

Lemma settles_AcquireAllIdle ctx : settles (AcquireAllIdle ctx).
Proof.
  eapply moves_bind; [apply moves_AcquireAllIdle_puddle|]. intros l.
  eapply moves_ext; [apply moves_acquire_each|]. intros; simpl; lia.
Qed.

Lemma moves_check_one now cfg created idle res :
  moves (fun _ r => - one res r)
    (if MaxConnLifetime cfg <? time_Sub now created then res_Destroy res
     else if MaxConnIdleTime cfg <? idle then res_Destroy res else res_ReleaseUnused res).
Proof. repeat case_match; auto using moves_Destroy_res, moves_ReleaseUnused_res. Qed.

Lemma moves_check_each now l : moves (fun _ r => - units l r) (check_each now l).
Proof.
  induction l as [|res l IH]; [by apply moves_ret|]. cbn [check_each].
  eapply moves_bind; [apply moves_keeps; keeps_tac|]. intros cfg.
  eapply moves_bind; [apply moves_keeps; keeps_tac|]. intros created.
  eapply moves_bind; [apply moves_keeps; keeps_tac|]. intros idle.
  eapply moves_bind; [apply moves_check_one|]. intros u.
  eapply moves_ext; [apply IH|]. intros; simpl; lia.
Qed.

Lemma settles_checkIdle : settles checkIdleConnsHealth.
Proof.
  eapply moves_bind; [apply moves_AcquireAllIdle_puddle|]. intros l.
  eapply moves_bind; [apply moves_keeps; keeps_tac|]. intros now.
  eapply moves_ext; [apply moves_check_each|]. intros; simpl; lia.
Qed.

(** ** Goroutines, opening and closing *)

Definition task_gain (t : task) (r : nat) : Z :=
  match t with TAfterRelease res => one res r | _ => 0 end.

Lemma moves_run_task t : moves (fun _ r => - task_gain t r) (run_task pg_ConnectConfig t).
Proof.
  destruct t as [res|res| |]; cbn [run_task].
  - eapply moves_bind; [apply moves_keeps; keeps_tac|]. intros cfg.
    destruct (AfterRelease cfg); [|by intros w a w' E].
    eapply moves_bind; [apply moves_keeps; keeps_tac|]. intros []; simpl.
    + eapply moves_ext; [apply moves_Release_res|]. intros; simpl; lia.
    + eapply moves_ext; [apply moves_Destroy_res|]. intros; simpl; lia.
  - apply moves_keeps. unfold destruct_value. keeps_tac.
  - apply moves_keeps. keeps_tac.
  - apply moves_keeps. keeps_tac.
Qed.

Lemma settles_run_goroutine i : settles (run_goroutine pg_ConnectConfig i).
Proof.
  intros w a w' E r. inv_ok E. unfold pread in Hm. destruct (p_tasks w !! i) as [t|] eqn:Ht; [|done].
  injection Hm as <- <-. inv_ok E. injection Hm as <- <-. rewrite (moves_run_task _ _ _ _ E r).
  unfold balance, takes, gives, holders, waiting. simpl. rewrite (count_delete _ _ _ _ Ht), count_one.
  destruct t; unfold task_gain, one; simpl; repeat case_bool_decide; try congruence; lia.
Qed.

Lemma keeps_spawn_destructs l : keeps same_balance (spawn_destructs l).
Proof. induction l; simpl; keeps_tac. Qed.

Lemma keeps_Close_pool : keeps same_balance Pool_Close.
Proof.
  unfold Pool_Close. apply (keeps_bind _); [keeps_tac|]. intros []; [keeps_tac|].
  apply (keeps_bind _); [keeps_tac|]. intros _. apply (keeps_bind _); [by apply keeps_ask_other|].
  intros l. apply keeps_spawn_destructs.
Qed.

Lemma keeps_create_each n ctx e : keeps same_balance (create_each pg_ConnectConfig n ctx e).
Proof. revert ctx e. induction n; intros; simpl; keeps_tac. Qed.

Lemma keeps_checkMinConns : keeps same_balance checkMinConns.
Proof.
  unfold checkMinConns. apply (keeps_bind _); [keeps_tac|]. intros cfg.
  apply (keeps_bind _); [keeps_tac|]. intros total.
  induction (Z.to_nat _); simpl; keeps_tac.
Qed.
#[local] Hint Resolve keeps_Close_pool keeps_create_each keeps_checkMinConns : keeps.

Lemma settles_ConnectConfig ctx : settles (ConnectConfig pg_ConnectConfig ctx).
Proof.
  eapply moves_bind; [apply moves_keeps; keeps_tac|]. intros cfg. destruct (negb _); [by intros w a w' E|].
  eapply moves_bind; [apply moves_keeps; keeps_tac|]. intros u. simpl.
  destruct (LazyConnect cfg); [by apply moves_ret|].
  eapply moves_bind; [apply moves_keeps; unfold createIdleResources; keeps_tac|]. intros [e|]; simpl.
  { apply moves_keeps. keeps_tac. }
  eapply moves_bind; [apply moves_puddle_Acquire|]. intros [e|res]; simpl.
  - apply moves_keeps. keeps_tac.
  - eapply moves_bind; [apply moves_Release_res|]. intros v. apply moves_ret. intros; simpl; lia.
Qed.

(** ** Runs of a program that uses the pool

    [OUse] and [OTxUse] stand for any method of an acquired connection and of a
    transaction, [OGoroutine] for a step of the scheduler. *)

Inductive pool_op :=
| OConnect (ctx : context)
| OAcquire (ctx : context)
| OAcquireAllIdle (ctx : context)
| OAcquireFunc (ctx : context) (f : M world (option error))
| ORelease (c : nat)
| OUse (c : nat) (m : M world unit)
| OExec (ctx : context) (sql : gostring) (args : list goval)
| OQuery (ctx : context) (sql : gostring) (args : list goval)
| OQueryRow (ctx : context) (sql : gostring) (args : list goval)
| OQueryFunc (ctx : context) (sql : gostring) (args scans : list goval) (f : nat -> M world (option error))
| OPing (ctx : context)
| OBeginTx (ctx : context) (o : TxOptions)
| OBeginTxFunc (ctx : context) (o : TxOptions) (f : Tx -> M world (option error))
| OCopyFrom (ctx : context) (tableName columnNames : list gostring) (rows : list (list goval))
| OSendBatch (ctx : context) (b : nat)
| ORowsNext (r : PoolRowsI)
| ORowsScan (r : PoolRowsI) (dest : list goval)
| ORowsValues (r : PoolRowsI)
| ORowsClose (r : PoolRowsI)
| ORowScan (r : PoolRowI) (dest : list goval)
| OBatchExec (b : PoolBatchI)
| OBatchQuery (b : PoolBatchI)
| OBatchQueryRow (b : PoolBatchI)
| OBatchQueryFunc (b : PoolBatchI) (scans : list goval) (f : nat -> M world (option error))
| OBatchClose (b : PoolBatchI)
| OTxUse (t : nat) (m : nat -> M world unit)
| OCommit (ctx : context) (t : nat)
| ORollback (ctx : context) (t : nat)
| OHealthTick
| OClose
| OGoroutine (i : nat).

Definition ignore {A} (m : M pworld A) : M pworld unit := let* _ := m in ret tt.

Definition run_op (o : pool_op) : M pworld unit :=
  match o with
  | OConnect ctx => ignore (ConnectConfig pg_ConnectConfig ctx)
  | OAcquire ctx => ignore (Acquire pg_ConnectConfig fuel ctx)
  | OAcquireAllIdle ctx => ignore (AcquireAllIdle ctx)
  | OAcquireFunc ctx f => ignore (AcquireFunc pg_ConnectConfig fuel ctx (fun c => on c f))
  | ORelease c => Release c
  | OUse c m => on c m
  | OExec ctx sql args => ignore (Pool_Exec pg_ConnectConfig fuel ctx sql args)
  | OQuery ctx sql args => ignore (Pool_Query pg_ConnectConfig fuel ctx sql args)
  | OQueryRow ctx sql args => ignore (Pool_QueryRow pg_ConnectConfig fuel ctx sql args)
  | OQueryFunc ctx sql args scans f => ignore (Pool_QueryFunc pg_ConnectConfig fuel ctx sql args scans f)
  | OPing ctx => ignore (Pool_Ping pg_ConnectConfig fuel ctx)
  | OBeginTx ctx o => ignore (Pool_BeginTx pg_ConnectConfig fuel ctx o)
  | OBeginTxFunc ctx o f => ignore (Pool_BeginTxFunc pg_ConnectConfig fuel ctx o f)
  | OCopyFrom ctx t cols rows => ignore (Pool_CopyFrom pg_ConnectConfig fuel ctx t cols (CopyFromRows rows))
  | OSendBatch ctx b => ignore (Pool_SendBatch pg_ConnectConfig fuel ctx b)
  | ORowsNext r => ignore (Rows_Next r)
  | ORowsScan r dest => ignore (Rows_Scan r dest)
  | ORowsValues r => ignore (Rows_Values r)
  | ORowsClose r => Rows_Close r
  | ORowScan r dest => ignore (Row_Scan r dest)
  | OBatchExec b => ignore (Batch_Exec b)
  | OBatchQuery b => ignore (Batch_Query b)
  | OBatchQueryRow b => ignore (Batch_QueryRow b)
  | OBatchQueryFunc b scans f => ignore (Batch_QueryFunc fuel b scans f)
  | OBatchClose b => ignore (Batch_Close b)
  | OTxUse t m => on_tx t m
  | OCommit ctx t => ignore (ptx_Commit fuel ctx t)
  | ORollback ctx t => ignore (ptx_Rollback fuel ctx t)
  | OHealthTick => ignore health_tick
  | OClose => Pool_Close
  | OGoroutine i => run_goroutine pg_ConnectConfig i
  end.

(** The operations that return are the steps: a state that a recovered panic
    leaves is not one of them. *)
Definition pool_step (w w' : pworld) : Prop := exists o, run_op o w = Ok tt w'.

Lemma settles_ignore {A} (m : M pworld A) : settles m -> settles (ignore m).
Proof. intros Hm. eapply moves_bind; [apply Hm|]. intros a. apply moves_ret. intros; simpl; lia. Qed.

Lemma settles_on {A} c (m : M world A) : settles (on c m).
Proof. apply moves_keeps. keeps_tac. Qed.

Lemma settles_health_tick : settles health_tick.
Proof.
  eapply moves_bind; [apply moves_keeps; keeps_tac|]. intros []; simpl; [by apply moves_ret|].
  eapply moves_bind; [apply settles_checkIdle|]. intros u. simpl. apply moves_keeps. keeps_tac.
Qed.

Lemma settles_run_op o : settles (run_op o).
Proof.
  destruct o; cbn [run_op]; try apply settles_ignore;
    try (apply settles_with_conn; intros; apply settles_on);
    auto using settles_ConnectConfig, settles_Acquire, settles_AcquireAllIdle, settles_on,
      settles_health_tick, settles_run_goroutine;
    try (apply settles_acquired; keeps_tac);
    try (apply moves_keeps; first [apply keeps_end_tx
      | unfold Rows_Next, poolRows_Next, Rows_Scan, poolRows_Scan, Rows_Values, poolRows_Values, Rows_Close,
          Row_Scan, poolRow_Scan, Batch_Exec, pbr_Exec, Batch_Query, pbr_Query, Batch_QueryRow, pbr_QueryRow,
          Batch_QueryFunc, pbr_QueryFunc, Batch_Close, pbr_Close, on_tx; keeps_tac]).
Qed.

Lemma run_accounted w w' : rtc pool_step w w' -> same_balance w w'.
Proof.
  induction 1 as [w|w1 w2 w3 [o E] _ IH]; [reflexivity|]. etrans; [|done].
  intros r. rewrite (settles_run_op o _ _ _ E r). lia.
Qed.

Lemma new_pool_balance cfg s bs res : balance (new_pool cfg s bs) res = 0.
Proof. done. Qed.

Lemma count_none {A} p (l : list A) : (forall x, x ∈ l -> p x = false) -> count p l = 0.
Proof.
  intros Hp. induction l as [|x l IH]; [done|]. rewrite count_cons, count_one, Hp, IH; [done| |left].
  intros y Hy. apply Hp. by right.
Qed.

(** C8. However a program uses the pool, and in whatever order its goroutines
    run, every resource that was taken from puddle has been given back exactly
    once, or is held by one connection that is not released, or waits for its
    [AfterRelease] callback.  When nobody holds it and no callback is pending,
    it has been given back as often as it was taken. *)
Theorem resources_accounted cfg s bs w res :
  rtc pool_step (new_pool cfg s bs) w ->
  takes w res = gives w res + holders w res + waiting w res
  /\ ((forall c, p_conns w !! c <> Some (Some res)) -> TAfterRelease res ∉ p_tasks w ->
      takes w res = gives w res).
Proof.
  intros Hw%run_accounted. specialize (Hw res). rewrite new_pool_balance in Hw. unfold balance in Hw.
  split; [lia|]. intros Hc Ht.
  assert (holders w res = 0) as Hh.
  { apply count_none. intros x [i Hx]%list_elem_of_lookup. apply bool_decide_eq_false. intros ->. by eapply Hc. }
  assert (waiting w res = 0) as Hwait.
  { apply count_none. intros [] Hx; try done. simpl. apply bool_decide_eq_false. by intros ->. }
  lia.
Qed.

(** ** Statistics *)

(** The resource an event, a connection or a goroutine is about. *)
Definition took_key (e : pevent) : option nat := match e with Took r => Some r | Asked _ => None end.
Definition gave_key (e : pevent) : option nat :=
  match e with
  | Asked (PRelease r) | Asked (PReleaseUnused r) | Asked (PDestroy r) => Some r
  | _ => None
  end.
Definition waiting_key (t : task) : option nat := match t with TAfterRelease r => Some r | _ => None end.

Definition count_some {A} (key : A -> option nat) (l : list A) : Z :=
  count (fun x => match key x with Some _ => true | None => false end) l.

Fixpoint sum_upto (n : nat) (f : nat -> Z) : Z := match n with O => 0 | S k => sum_upto k f + f k end.

Lemma sum_upto_ext n f g : (forall i, f i = g i) -> sum_upto n f = sum_upto n g.
Proof. intros E. induction n as [|n IH]; simpl; [done|]. by rewrite IH, E. Qed.

Lemma sum_upto_add n f g : sum_upto n (fun i => f i + g i) = sum_upto n f + sum_upto n g.
Proof. induction n as [|n IH]; simpl; [done|]. rewrite IH. lia. Qed.

Lemma sum_upto_point n (k : option nat) :
  (forall r, k = Some r -> (r < n)%nat) ->
  sum_upto n (fun i => if bool_decide (k = Some i) then 1 else 0) = match k with Some _ => 1 | None => 0 end.
Proof.
  destruct k as [r|]; intros Hr.
  - specialize (Hr r eq_refl). induction n as [|n IH]; simpl; [lia|]. destruct (decide (r = n)) as [->|Hn].
    + rewrite bool_decide_eq_true_2 by done. assert (forall m, (m <= n)%nat ->
        sum_upto m (fun i => if bool_decide (Some n = Some i) then 1 else 0) = 0) as ->; [|lia|lia].
      intros m. induction m as [|m IHm]; simpl; intros Hm; [done|]. rewrite IHm by lia.
      rewrite bool_decide_eq_false_2; [done|]. intros [= E]. lia.
    + rewrite IH by lia. rewrite bool_decide_eq_false_2 by congruence. lia.
  - clear Hr. induction n as [|n IH]; cbn [sum_upto]; [done|]. rewrite IH. by rewrite bool_decide_eq_false_2.
Qed.

Lemma sum_count {A} (key : A -> option nat) n l :
  Forall (fun x => forall r, key x = Some r -> (r < n)%nat) l ->
  sum_upto n (fun i => count (fun x => bool_decide (key x = Some i)) l) = count_some key l.
Proof.
  unfold count_some. induction 1 as [|x l Hx _ IH]; [clear; induction n; simpl; [done|]; unfold count in *; simpl in *; lia|].
  rewrite (count_cons _ x l), count_one, <- IH.
  erewrite sum_upto_ext; [|intros i; by rewrite (count_cons _ x l), count_one].
  rewrite sum_upto_add, sum_upto_point by done. by destruct (key x).
Qed.

Lemma keys_bounded {A} (key : A -> option nat) l :
  exists n, forall m, (n <= m)%nat -> Forall (fun x => forall r, key x = Some r -> (r < m)%nat) l.
Proof.
  induction l as [|x l [n IH]]; [exists O; by constructor|].
  exists (Nat.max n (match key x with Some r => S r | None => O end)). intros m Hm. constructor.
  - intros r Hr. rewrite Hr in Hm. lia.
  - apply IH. lia.
Qed.

(** The resources taken are those given back, held by a connection or in the
    hands of [AfterRelease]. *)
Lemma accounted_total w :
  accounted w ->
  count_some took_key (p_trace w) - count_some gave_key (p_trace w)
  = count_some id (p_conns w) + count_some waiting_key (p_tasks w).
Proof.
  intros Ha. destruct (keys_bounded took_key (p_trace w)) as [n1 B1], (keys_bounded gave_key (p_trace w)) as [n2 B2],
    (keys_bounded id (p_conns w)) as [n3 B3], (keys_bounded waiting_key (p_tasks w)) as [n4 B4].
  set (n := (n1 + n2 + n3 + n4)%nat).
  rewrite <- (sum_count took_key n), <- (sum_count gave_key n), <- (sum_count id n), <- (sum_count waiting_key n)
    by (first [apply B1|apply B2|apply B3|apply B4]; unfold n; lia).
  assert (forall f g h k, (forall i, f i = g i + h i + k i) ->
    sum_upto n f - sum_upto n g = sum_upto n h + sum_upto n k) as Hsum.
  { intros f g h k E. rewrite (sum_upto_ext n _ _ E), !sum_upto_add. lia. }
  apply Hsum. intros i. specialize (Ha i). unfold balance, takes, gives, holders, waiting in Ha.
  assert (forall A (p q : A -> bool) l, (forall x, p x = q x) -> count p l = count q l) as Hext.
  { intros A p q l E. unfold count. f_equal. f_equal. apply List.filter_ext, E. }
  rewrite (Hext _ (fun x => bool_decide (took_key x = Some i)) (took_event i)),
    (Hext _ (fun x => bool_decide (gave_key x = Some i)) (gave_event i)),
    (Hext _ (fun x => bool_decide (waiting_key x = Some i)) (waiting_task i)); [unfold id; lia|..];
    intros []; simpl; repeat case_match; try done; apply bool_decide_ext; split; congruence.
Qed.

(** [AcquiredConns] is the number of connections that are not released and of
    those in the hands of [AfterRelease], if puddle reports the number of its
    resources that were taken and not given back. *)
Theorem AcquiredConns_counts puddle_stat cfg s bs w :
  rtc pool_step (new_pool cfg s bs) w ->
  ps_AcquiredResources (puddle_stat (p_puddle w)) = count_some took_key (p_trace w) - count_some gave_key (p_trace w) ->
  exists st, Pool_Stat puddle_stat w = Ok st w
    /\ AcquiredConns st = count_some id (p_conns w) + count_some waiting_key (p_tasks w).
Proof.
  intros Hw%run_accounted Hs. eexists. split; [reflexivity|]. unfold AcquiredConns. simpl. rewrite Hs.
  apply accounted_total. intros res. by rewrite (Hw res), new_pool_balance.
Qed.

(** ** Releasing once *)

Lemma Release_released c w : p_conns w !! c = Some None -> Release c w = Ok tt w.
Proof. intros Hc. unfold Release, bind, pread. by rewrite Hc. Qed.

Lemma Release_Ok c w u w' : Release c w = Ok u w' -> p_conns w' !! c = Some None.
Proof.
  intros E. destruct (p_conns w !! c) as [[res|]|] eqn:Hc.
  - destruct (p_values w !! res) as [v|] eqn:Hv.
    + destruct (Release_holding c res v w Hc Hv) as (w2 & E2 & Hc' & _). rewrite E in E2.
      injection E2 as _ ->. rewrite Hc'. apply list_lookup_insert_eq. by eapply lookup_lt_Some.
    + unfold Release, bind, pread, value_of in E. by rewrite Hc, Hv in E.
  - rewrite Release_released in E by done. by injection E as _ <-.
  - unfold Release, bind, pread in E. by rewrite Hc in E.
Qed.

(** C25. Releasing a connection returns and gives its resource back: it is
    destroyed when the connection is closed, busy, not outside of a transaction
    or older than the pool's [MaxConnLifetime]; otherwise it is put back, or left
    to the goroutine of [AfterRelease] when the pool has one.  Releasing the
    connection again does nothing. *)
Theorem Release_once c res v w :
  p_conns w !! c = Some (Some res) -> p_values w !! res = Some v ->
  exists w', Release c w = Ok tt w' /\ returned res (outside (cr_conn v)) w w'
    /\ p_conns w' = <[c := None]> (p_conns w) /\ Release c w' = Ok tt w'.
Proof.
  intros Hc Hv. destruct (Release_holding c res v w Hc Hv) as (w' & E & Hc' & _ & Hr).
  exists w'. split_and!; [done|done|done|]. by eapply Release_released, Release_Ok.
Qed.

(** ** Borrowed connections *)

Lemma Acquire_holds ctx w c w1 :
  Acquire pg_ConnectConfig fuel ctx w = Ok (inr c) w1 ->
  exists res v, p_conns w1 !! c = Some (Some res) /\ p_values w1 !! res = Some v.
Proof.
  unfold Acquire. revert w. generalize fuel at 1. intros n.
  induction n as [|n IH]; intros w E; [done|]. cbn [loop] in E. inv_ok E. destruct a as [[]|b]; [exact (IH _ E)|].
  injection E as -> <-. inv_ok Hm. destruct a as [e|res]; [by injection Hm|]. inv_ok Hm.
  destruct a; [|by inv_ok Hm]. inv_ok Hm. injection Hm as -> <-. unfold getConn in Hm2.
  destruct (p_values s1 !! res) as [v|] eqn:Hv; [|done]. injection Hm2 as <- <-. simpl.
  exists res. eexists. rewrite list_lookup_middle by done. split; [done|apply lookup_insert_eq].
Qed.

(** A call of a method keeps the connection where it is. *)
Lemma on_holds {A} c (m : M world A) res v w :
  p_conns w !! c = Some (Some res) -> p_values w !! res = Some v ->
  match on c m w with
  | Ok _ w' | Panicked _ w' => p_conns w' = p_conns w /\ is_Some (p_values w' !! res)
  | OutOfFuel => True
  end.
Proof.
  intros Hc Hv. unfold on, conn_res, bind, pread. rewrite Hc. simpl. unfold on_conn. rewrite Hv.
  destruct (m _); simpl; rewrite ?lookup_insert_eq; eauto.
Qed.

Definition gives_back {A} (ctx : context) (w : pworld) (m : M pworld A) : Prop :=
  forall c w1, Acquire pg_ConnectConfig fuel ctx w = Ok (inr c) w1 ->
  match m w with
  | Ok _ w' | Panicked _ w' => p_conns w' !! c = Some None /\ same_balance w w'
  | OutOfFuel => True
  end.

Lemma with_conn_gives_back {A} ctx (failed : error -> A) zero (m : M world A) w :
  gives_back ctx w (with_conn pg_ConnectConfig fuel ctx failed zero (fun c => on c m)).
Proof.
  intros c w1 E. unfold with_conn, bind. rewrite E. pose proof (settles_Acquire ctx _ _ _ E) as HA.
  destruct (Acquire_holds _ _ _ _ E) as (res & v & Hc & Hv).
  pose proof (on_holds c m res v w1 Hc Hv) as Ho. pose proof (keeps_on c m w1) as Hk.
  unfold defer. destruct (on c m w1) as [a w2|msg w2|]; [| |done]; destruct Ho as [Hc2 [v2 Hv2]];
    rewrite <- Hc2 in Hc; destruct (Release_holding c res v2 w2 Hc Hv2) as (w3 & E3 & _);
    pose proof (keeps_Ok _ _ _ _ _ (keeps_Release c) E3) as HR; apply Release_Ok in E3 as Hc3;
    rewrite E3; simpl; (split; [done|]); intros r; rewrite (HR r), (Hk r), (HA r); lia.
Qed.

(** C12. The operations that borrow a connection for one call return it: once a
    connection is acquired it is released when the call returns, with or
    without an error, and when it panics, and nothing is left over. *)
Theorem borrowed_connections_return ctx w sql args scans f o g cols tab (rows : list (list goval)) :
  gives_back ctx w (Pool_Exec pg_ConnectConfig fuel ctx sql args)
  /\ gives_back ctx w (Pool_QueryFunc pg_ConnectConfig fuel ctx sql args scans f)
  /\ gives_back ctx w (Pool_Ping pg_ConnectConfig fuel ctx)
  /\ gives_back ctx w (Pool_BeginTxFunc pg_ConnectConfig fuel ctx o g)
  /\ gives_back ctx w (Pool_CopyFrom pg_ConnectConfig fuel ctx tab cols (CopyFromRows rows)).
Proof. split_and!; apply with_conn_gives_back. Qed.

(** ** Objects that hold a connection *)

Definition same_objects (w w' : pworld) : Prop :=
  p_rowss w' = p_rowss w /\ p_rows w' = p_rows w /\ p_brs w' = p_brs w /\ p_txs w' = p_txs w.

#[local] Instance same_objects_preorder : PreOrder same_objects.
Proof.
  split; [by repeat split|]. intros w1 w2 w3 (A1 & A2 & A3 & A4) (B1 & B2 & B3 & B4).
  repeat split; by etrans.
Qed.

Lemma objects_on_conn {A} res (m : M world A) : keeps same_objects (on_conn res m).
Proof.
  intros w. unfold on_conn. destruct (p_values w !! res); [|simpl; reflexivity].
  destruct (m _); [by repeat split|by repeat split|done].
Qed.

Lemma objects_Release c : keeps same_objects (Release c).
Proof.
  intros w. unfold Release, bind, pread, value_of, modify, gets.
  destruct (p_conns w !! c) as [[res|]|]; [|simpl; reflexivity..].
  destruct (p_values w !! res) as [v|]; [|simpl; reflexivity].
  destruct (_ || _); [by repeat split|]. destruct (AfterRelease _); [by repeat split|].
  unfold res_Release, bind, ask, when. destruct (fst _); by repeat split.
Qed.

(** The common shape: a call on the connection, and the release of [o]. *)
Lemma release_after {A B} home (m : M world A) o c (k : A -> M pworld B) w b w' :
  o = Some c -> (let* a := on_conn home m in release_opt o ;;; k a) w = Ok b w' ->
  exists a w1, k a w1 = Ok b w' /\ p_conns w1 !! c = Some None /\ same_objects w w1.
Proof.
  intros -> E. inv_ok E. inv_ok E. exists a, s0. split_and!; [done|by eapply Release_Ok|].
  etrans; [exact (keeps_Ok _ _ _ _ _ (objects_on_conn home m) Hm)|].
  exact (keeps_Ok _ _ _ _ _ (objects_Release c) Hm0).
Qed.

Lemma end_tx_releases finish p c w x e w' :
  p_txs w !! p = Some x -> ptx_c x = Some c -> end_tx finish p w = Ok e w' ->
  p_conns w' !! c = Some None /\ option_map ptx_c (p_txs w' !! p) = Some None.
Proof.
  intros Hx Hc E. unfold end_tx, bind at 1, pread in E. rewrite Hx in E.
  apply (release_after _ _ _ c) in E as (a & w1 & E & Hr & (_ & _ & _ & Ht)); [|done].
  injection E as <- <-. split; [done|]. simpl. rewrite Ht, list_lookup_insert_eq; [done|by eapply lookup_lt_Some].
Qed.

(** Closing a result set or the results of a batch, ending a transaction and
    scanning a single row release the connection the object holds; after that
    the first three hold none. *)
Theorem closing_releases p c w :
  (forall x w', p_rowss w !! p = Some x -> pr_c x = Some c -> poolRows_Close p w = Ok tt w' ->
     p_conns w' !! c = Some None /\ option_map pr_c (p_rowss w' !! p) = Some None)
  /\ (forall x e w', p_brs w !! p = Some x -> pbr_c x = Some c -> pbr_Close p w = Ok e w' ->
     p_conns w' !! c = Some None /\ option_map pbr_c (p_brs w' !! p) = Some None)
  /\ (forall ctx x e w', p_txs w !! p = Some x -> ptx_c x = Some c ->
     ptx_Commit fuel ctx p w = Ok e w' \/ ptx_Rollback fuel ctx p w = Ok e w' ->
     p_conns w' !! c = Some None /\ option_map ptx_c (p_txs w' !! p) = Some None)
  /\ (forall x dest r w', p_rows w !! p = Some x -> prow_c x = Some c -> poolRow_Scan p dest w = Ok r w' ->
     p_conns w' !! c = Some None).
Proof.
  split_and!.
  - intros x w' Hx Hc E. unfold poolRows_Close, bind at 1, pread in E. rewrite Hx in E.
    apply (release_after _ _ _ c) in E as (a & w1 & E & Hr & (Ho & _)); [|done].
    injection E as <-. split; [done|]. simpl. rewrite Ho, list_lookup_insert_eq; [done|by eapply lookup_lt_Some].
  - intros x e w' Hx Hc E. unfold pbr_Close, bind at 1, pread in E. rewrite Hx in E.
    apply (release_after _ _ _ c) in E as (a & w1 & E & Hr & (_ & _ & Ho & _)); [|done].
    injection E as <- <-. split; [done|]. simpl.
    rewrite Ho, list_lookup_insert_eq; [done|by eapply lookup_lt_Some].
  - intros ctx x e w' Hx Hc [E|E]; by eapply end_tx_releases.
  - intros x dest r w' Hx Hc E. unfold poolRow_Scan, bind at 1, pread in E. rewrite Hx in E.
    apply (release_after _ _ _ c) in E as (a & w1 & E & Hr & _); [|done]. by injection E as _ <-.
Qed.

(** A connection that puddle gets back, or that [AfterRelease] is asked about. *)
Definition handed_back (res : nat) (w w' : pworld) : Prop :=
  p_trace w' = p_trace w ++ [Asked (PDestroy res)] \/ p_trace w' = p_trace w ++ [Asked (PRelease res)]
  \/ (p_trace w' = p_trace w /\ TAfterRelease res ∈ p_tasks w').

Lemma returned_handed_back res n w w' : returned res n w w' -> handed_back res w w'.
Proof.
  unfold handed_back. intros [[E _]|[[E _]|[E ->]]]%returned_cases; [by left|by right; left|].
  right; right. split; [done|]. set_solver.
Qed.

(** What [Pool.Query] returns is held: the connection is acquired, and it has
    the result set. *)
Lemma Pool_Query_holds ctx sql args w p w1 :
  Pool_Query pg_ConnectConfig fuel ctx sql args w = Ok (PoolRows p, None) w1 ->
  exists c res v r x, p_rowss w1 !! p = Some (mkPoolRows res r (Some c))
    /\ p_conns w1 !! c = Some (Some res) /\ p_values w1 !! res = Some v /\ rws (cr_conn v) !! r = Some x.
Proof.
  intros E. unfold Pool_Query in E. inv_ok E. destruct a as [e|c]; [done|].
  destruct (Acquire_holds _ _ _ _ Hm) as (res & v & Hc & Hv). inv_ok E. destruct a as [r [e|]]; [by inv_ok E|].
  unfold pconn_Query, on, conn_res, bind, pread in Hm0. rewrite Hc in Hm0. simpl in Hm0.
  unfold on_conn in Hm0. rewrite Hv in Hm0.
  destruct (Conn_Query fuel ctx sql args _) as [[r' err] cw|? ?|] eqn:Eq; [|done|done].
  injection Hm0 as -> -> <-. apply Query_result_ok in Eq as [_ (x & Hx & _)].
  inv_ok E. injection E as -> <-. unfold getPoolRows, conn_res, bind, pread in Hm0. simpl in Hm0.
  rewrite Hc in Hm0. simpl in Hm0. unfold value_of in Hm0. simpl in Hm0. rewrite lookup_insert_eq in Hm0.
  injection Hm0 as <- <-. simpl. eexists c, res, _, r, x.
  rewrite list_lookup_middle by done. rewrite lookup_insert_eq. done.
Qed.

(** C23. The connection of a query comes back: closing the rows that [Pool.Query]
    returned returns, releases the connection the query acquired, and hands its
    resource back to puddle, or to [AfterRelease] first. *)
Theorem query_connection_returns ctx sql args w p w1 :
  Pool_Query pg_ConnectConfig fuel ctx sql args w = Ok (PoolRows p, None) w1 ->
  exists c res w2, p_conns w1 !! c = Some (Some res) /\ poolRows_Close p w1 = Ok tt w2
    /\ p_conns w2 = <[c := None]> (p_conns w1) /\ handed_back res w1 w2.
Proof.
  intros E. destruct (Pool_Query_holds _ _ _ _ _ _ E) as (c & res & v & r & x & Hp & Hc & Hv & Hx).
  assert (wp (rows_Close r) (set_batches (p_batches w1) (cr_conn v)) (fun _ _ => True)) as Hwp
    by by apply (wp_rows_Close _ _ x).
  unfold poolRows_Close, bind at 1, pread. rewrite Hp. cbn [pr_home pr_r pr_c release_opt].
  unfold bind, on_conn. rewrite Hv. unfold wp in Hwp. destruct (rows_Close r _) as [[] cw|? ?|]; [|done|done].
  destruct (Release_holding c res (with_world cw v) (put_back res v cw w1)) as (w3 & E3 & Hc3 & _ & Hr);
    [done|apply lookup_insert_eq|].
  rewrite E3. exists c, res. eexists. split_and!; [done|reflexivity|done|].
  by apply returned_handed_back in Hr.
Qed.
End Operations.

(** ** The configuration *)

Lemma parse_uint_nonneg max n s v : 0 <= n -> parse_uint_go max n s = inr v -> 0 <= v.
Proof.
  revert n. induction s as [|c s IH]; simpl; intros n Hn E; [by simplify_eq|].
  destruct (is_digit (code c)) eqn:D; [|done]. unfold is_digit, in_range in D.
  destruct (_ <? _); [done|]. eapply IH; [|done]. lia.
Qed.

Lemma ParseInt_lt s w n : 0 < w -> ParseInt s w = inr n -> n < 2 ^ (w - 1).
Proof.
  intros Hw. pose proof (Z.pow_pos_nonneg 2 (w - 1) ltac:(lia) ltac:(lia)) as P. unfold ParseInt.
  destruct (match s with [] => _ | _ => _ end) as [neg t].
  destruct (ParseUint t w) as [|un] eqn:U; [done|].
  assert (0 <= un).
  { unfold ParseUint in U. destruct t; [done|]. by eapply parse_uint_nonneg. }
  destruct neg; case_match eqn:B; intros; simplify_eq; [lia|]. by apply Z.leb_gt in B.
Qed.

Section Configuration.
Context `{PgConn}.

Definition pool_options : list gostring :=
  [str "pool_max_conns"; str "pool_min_conns"; str "pool_max_conn_lifetime";
   str "pool_max_conn_idle_time"; str "pool_health_check_period"].

Lemma parse_max_conns_ok ncpu m n m' :
  parse_max_conns ncpu m = inr (n, m') -> m' = delete (str "pool_max_conns") m /\ 1 <= n < 2 ^ 31.
Proof.
  unfold parse_max_conns. destruct (m !! _) as [s|] eqn:E.
  - destruct (ParseInt s 32) as [|k] eqn:I; [done|]. apply ParseInt_lt in I; [|done].
    destruct (k <? 1) eqn:B; [done|]. apply Z.ltb_ge in B. intros [= <- <-]. split; [done|].
    unfold int32. rewrite wrap_s_id; [lia|done|]. unfold in_s. lia.
  - intros [= <- <-]. split; [by rewrite delete_id|].
    pose proof (wrap_s_range 32 ncpu ltac:(done)) as R. unfold in_s in R. unfold defaultMaxConns, int32.
    destruct (4 <? _) eqn:B; lia.
Qed.

Lemma parse_min_conns_ok m n m' :
  parse_min_conns m = inr (n, m') -> m' = delete (str "pool_min_conns") m /\ - 2 ^ 31 <= n < 2 ^ 31.
Proof.
  unfold parse_min_conns. destruct (m !! _) as [s|] eqn:E.
  - destruct (ParseInt s 32) as [|k]; [done|]. intros [= <- <-]. split; [done|].
    apply (wrap_s_range 32 k). done.
  - intros [= <- <-]. split; [by rewrite delete_id|]. done.
Qed.

Lemma parse_duration_ok key d m n m' :
  minDuration <= d <= maxDuration ->
  parse_duration key d m = inr (n, m') -> m' = delete key m /\ minDuration <= n <= maxDuration.
Proof.
  intros Hd. unfold parse_duration. destruct (m !! _) as [s|] eqn:E.
  - destruct (ParseDuration s) as [|k] eqn:P; [done|]. intros [= <- <-]. split; [done|].
    by apply ParseDuration_range in P.
  - intros [= <- <-]. split; [by rewrite delete_id|done].
Qed.

(** C40. A parsed pool configuration allows at least one connection, its numbers
    fit their types, and the pool's own options are removed from the parameters
    sent to the server, the others being those of the connection's
    configuration. *)
Theorem pool_ParseConfig_sound pg_Parse ncpu s cfg :
  Pool_ParseConfig pg_Parse ncpu s = inr cfg ->
  exists cc, ParseConfig pg_Parse s = inr cc
  /\ pc_createdByParseConfig cfg = true
  /\ 1 <= MaxConns cfg < 2 ^ 31 /\ - 2 ^ 31 <= MinConns cfg < 2 ^ 31
  /\ minDuration <= MaxConnLifetime cfg <= maxDuration
  /\ minDuration <= MaxConnIdleTime cfg <= maxDuration
  /\ minDuration <= HealthCheckPeriod cfg <= maxDuration
  /\ (forall k, RuntimeParams (Config (pc_ConnConfig cfg)) !! k
        = if decide (k ∈ pool_options) then None else RuntimeParams (Config cc) !! k).
Proof.
  unfold Pool_ParseConfig. destruct (ParseConfig pg_Parse s) as [e|cc]; [done|].
  destruct (parse_max_conns _ _) as [e|[n m1]] eqn:E1; [done|]. apply parse_max_conns_ok in E1 as [-> R1].
  destruct (parse_min_conns _) as [e|[k m2]] eqn:E2; [done|]. apply parse_min_conns_ok in E2 as [-> R2].
  destruct (parse_duration _ _ _) as [e|[l m3]] eqn:E3; [done|]. apply parse_duration_ok in E3 as [-> R3]; [|done].
  destruct (parse_duration _ _ _) as [e|[i m4]] eqn:E4; [done|]. apply parse_duration_ok in E4 as [-> R4]; [|done].
  destruct (parse_duration _ _ _) as [e|[h m5]] eqn:E5; [done|]. apply parse_duration_ok in E5 as [-> R5]; [|done].
  intros [= <-]. exists cc. do 7 (split; [done|]). intros key. cbn [pc_ConnConfig with_params Config with_RuntimeParams RuntimeParams].
  unfold pool_options. destruct (decide _) as [Hk|Hk]; rewrite !elem_of_cons, elem_of_nil in Hk.
  - destruct Hk as [E|[E|[E|[E|[E|[]]]]]]; subst key;
      repeat first [apply lookup_delete_eq | rewrite lookup_delete_ne by done].
  - rewrite !lookup_delete_ne by (intros E; apply Hk; subst key; auto 6). done.
Qed.

(** Opening a pool whose minimum is negative, which [ParseConfig] accepts,
    panics, and so does the health check whose period is not positive. *)
Theorem bad_pool_settings_panic `{Puddle} dial ctx (w : pworld) :
  pc_createdByParseConfig (p_config w) = true ->
  (LazyConnect (p_config w) = false -> MinConns (p_config w) < 0 ->
   exists w', ConnectConfig dial ctx w = Panicked makechan_size w')
  /\ (HealthCheckPeriod (p_config w) <= 0 ->
      run_task dial THealthCheck w = Panicked non_positive_interval w).
Proof.
  intros Hp. split.
  - intros Hl Hm. unfold ConnectConfig, bind, gets. rewrite Hp, Hl. simpl. unfold createIdleResources.
    apply Z.ltb_lt in Hm. rewrite Hm. by eexists.
  - intros Hh. unfold run_task, bind, gets. apply Z.leb_le in Hh. by rewrite Hh.
Qed.
End Configuration.

(** ** A small puddle *)

Module ToyPuddle.

Record pool := mkToyPool { idle : list nat; next : nat; clock : Z }.

Definition answer_pool (r : prequest) (s : pool) : preply r * pool :=
  match r with
  | PAcquire _ =>
      match idle s with
      | res :: l => (inr (res, false), mkToyPool l (next s) (clock s))
      | [] => (inr (next s, true), mkToyPool [] (S (next s)) (clock s))
      end
  | PCreate _ => (inr (next s), mkToyPool (idle s) (S (next s)) (clock s))
  | PConstructed _ _ => (None, s)
  | PAcquireAllIdle => (idle s, mkToyPool [] (next s) (clock s))
  | PRelease res => (false, mkToyPool (idle s ++ [res]) (next s) (clock s))
  | PReleaseUnused res => (false, mkToyPool (idle s ++ [res]) (next s) (clock s))
  | PDestroy _ => (tt, s)
  | PClose => (idle s, mkToyPool [] (next s) (clock s))
  end.

#[export] Instance puddle : Puddle := {|
  pst := pool;
  Now := clock;
  CreationTime := fun _ _ => 0;
  IdleDuration := fun _ _ => 0;
  TotalResources := fun s => Z.of_nat (next s);
  pserve := answer_pool
|}.

End ToyPuddle.

#[local] Existing Instance Sample.types.
#[local] Existing Instance Toy.pgconn.
#[local] Existing Instance Toy.decoders.
#[local] Existing Instance ToyPuddle.puddle.

Definition toy_dial (_ : context) (_ : PgConfig) : error + @net Toy.pgconn := inr Toy.idle.

Definition toy_pool : pworld :=
  new_pool (mkPoolConfig (Toy.configuration false) None None None None Hour Hour 4 0 Minute false true)
    (ToyPuddle.mkToyPool [] 0 0) [].

(** One connection was acquired. *)
Definition toy_acquired : pworld := final (Acquire toy_dial 3 Background) toy_pool.

Lemma toy_acquires : pool_step toy_dial 3 toy_pool toy_acquired.
Proof.
  exists (OAcquire Background). cbn [run_op]. unfold ignore.
  assert (Acquire toy_dial 3 Background toy_pool = Ok (inr 0%nat) toy_acquired) as E by runs.
  rewrite (bind_eq _ _ _ _ _ E). reflexivity.
Qed.

Lemma resources_accounted_witness :
  rtc (pool_step toy_dial 3) toy_pool toy_acquired
  /\ takes toy_acquired 0 = gives toy_acquired 0 + holders toy_acquired 0 + waiting toy_acquired 0.
Proof.
  split; [exact (rtc_once _ _ toy_acquires)|].
  exact (proj1 (resources_accounted toy_dial 3 _ _ _ _ 0 (rtc_once _ _ toy_acquires))).
Defined.

(** The resources of the small puddle that are not idle; none is destroyed. *)
Definition toy_stat (s : pst) : puddle_Stat :=
  let total := Z.of_nat (ToyPuddle.next s) in
  let idle := Z.of_nat (length (ToyPuddle.idle s)) in
  mkPuddleStat total 0 (total - idle) 0 0 total idle 4 total.

Lemma AcquiredConns_counts_witness :
  exists st, Pool_Stat toy_stat toy_acquired = Ok st toy_acquired /\ AcquiredConns st = 1.
Proof.
  destruct (AcquiredConns_counts toy_dial 3 toy_stat _ _ _ toy_acquired (rtc_once _ _ toy_acquires) ltac:(evaluates))
    as (st & E & A).
  exists st. split; [exact E|]. rewrite A. evaluates.
Defined.

Lemma Release_once_witness :
  exists w', Release 0 toy_acquired = Ok tt w' /\ Release 0 w' = Ok tt w' /\ put_in_pool 0 toy_acquired w'.
Proof.
  assert (exists v, p_values toy_acquired !! 0%nat = Some v) as [v Hv] by (apply some_by_test; evaluates).
  destruct (Release_once 0 0 v toy_acquired) as (w' & E & (_ & Hp & _) & _ & E2); [evaluates|exact Hv|].
  exists w'. split; [exact E|]. split; [exact E2|]. apply Hp; [|evaluates].
  assert (option_map (fun v => unusable (outside (cr_conn v)) || expired toy_acquired 0) (p_values toy_acquired !! 0%nat)
    = Some false) as Hu by evaluates.
  rewrite Hv in Hu. injection Hu as Hu. intros Hs%spent_test. congruence.
Defined.

(** A query that is not read yet. *)
Definition toy_queried : pworld := final (Pool_Query toy_dial 3 Background (str "select n") []) toy_pool.

Lemma query_connection_returns_witness :
  exists c res w2, poolRows_Close 0 toy_queried = Ok tt w2 /\ handed_back res toy_queried w2
    /\ p_conns w2 = <[c := None]> (p_conns toy_queried).
Proof.
  destruct (query_connection_returns toy_dial 3 Background (str "select n") [] toy_pool 0 toy_queried)
    as (c & res & w2 & _ & E & Hc & Hb); [runs|].
  exists c, res, w2. split; [exact E|]. split; [exact Hb|exact Hc].
Defined.

Definition toy_parser (_ : gostring) : error + PgConfig :=
  inr (mkPgConfig [] 5432 [] []
    (<[str "pool_max_conns" := str "10"]> (<[str "search_path" := str "s"]> ∅)) false).

Lemma pool_ParseConfig_sound_witness :
  exists cfg, Pool_ParseConfig toy_parser 8 [] = inr cfg /\ 1 <= MaxConns cfg < 2 ^ 31.
Proof.
  destruct (inr_by_test (Pool_ParseConfig toy_parser 8 []) ltac:(evaluates)) as [cfg E].
  exists cfg. split; [exact E|].
  destruct (pool_ParseConfig_sound toy_parser 8 [] cfg E) as (cc & _ & _ & R & _). exact R.
Defined.

(** A query on the pool, read to its end, leaves nothing behind. *)
Example toy_query_returns :
  match Pool_Query toy_dial 3 Background (str "select n") [] toy_pool with
  | Ok (r, None) w1 =>
      match (Rows_Next r ;;; Rows_Next r ;;; Rows_Next r) w1 with
      | Ok false w2 => (holders w1 0, holders w2 0, takes w2 0, gives w2 0) = (1, 0, 1, 1)
      | _ => False
      end
  | _ => False
  end.
Proof. vm_compute. reflexivity. Qed.
