(* ===== verification/PoolStart.v ===== *)
(** The idle resources of a new pool (pgxpool/pool.go, [createIdleResources]):
    its goroutines and the loop that receives their errors, interleaved.
    [Pool.createIdleResources] is the schedule that runs them one after the
    other. *)

From S2P Require Import Prelude GoStd GoVal GoDuration Effects Values PgConn Logger World Toy Rows Config Conn Batch.
From S2P Require Import CopyFrom Tx Pool PoolSpec.

Local Open Scope Z_scope.

Section PoolStart.
Context `{PgTypes} `{PgConn} `{!PgDecoders} `{Puddle}.
Context (pg_ConnectConfig : context -> PgConfig -> error + net) (parent : context).

(** ** States *)

(** A goroutine before [CreateResource] and one whose resource is being
    constructed; one that has sent its error has ended. *)
Inductive creator :=
| Starting
| Constructing (res : nat).

(** The channel [errs] holds what is sent and not received; [received] are the
    errors received so far, in order. *)
Record starting := mkStarting {
  st_pool : pworld;
  st_creators : list creator;
  st_errs : list (option error);
  st_received : list (option error);
  firstError : option error
}.

Definition start_idle (n : nat) (w : pworld) : starting := mkStarting w (repeat Starting n) [] [] None.

(** The context, which the first error cancels. *)
Definition create_ctx (first : option error) : context :=
  match first with None => parent | Some _ => WithCancelled parent end.

(** [if err != nil && firstError == nil { cancel(); firstError = err }] *)
Definition note_error (err first : option error) : option error :=
  match first with None => err | Some _ => first end.

(** What [CreateResource] does with the place puddle has made. *)
Definition finish_create (ctx : context) (res : nat) : M pworld (option error) :=
  let* v := construct pg_ConnectConfig ctx in
  match v with
  | inl e => ask (PConstructed res (Some e)) ;;; ret (Some e)
  | inr v =>
      store res v ;;;
      let* refused := ask (PConstructed res None) in
      match refused with
      | Some e => spawn (TDestruct res) ;;; ret (Some e)
      | None => ret None
      end
  end.

Inductive start_step : starting -> starting -> Prop :=
| start_refused w cs i es got first e w' :
    cs !! i = Some Starting -> ask (PCreate (create_ctx first)) w = Ok (inl e) w' ->
    start_step (mkStarting w cs es got first) (mkStarting w' (delete i cs) (es ++ [Some e]) got first)
| start_places w cs i es got first res w' :
    cs !! i = Some Starting -> ask (PCreate (create_ctx first)) w = Ok (inr res) w' ->
    start_step (mkStarting w cs es got first) (mkStarting w' (<[i := Constructing res]> cs) es got first)
| start_constructs w cs i es got first res err w' :
    cs !! i = Some (Constructing res) -> finish_create (create_ctx first) res w = Ok err w' ->
    start_step (mkStarting w cs es got first) (mkStarting w' (delete i cs) (es ++ [err]) got first)
| start_receives w cs es got first err :
    start_step (mkStarting w cs (err :: es) got first) (mkStarting w cs es (got ++ [err]) (note_error err first)).

Definition all_received (s : starting) : Prop := st_creators s = [] /\ st_errs s = [].

(** ** Invariants *)

Lemma CreateResource_steps ctx w :
  CreateResource pg_ConnectConfig ctx w =
  (let* r := ask (PCreate ctx) in
   match r with inl e => ret (Some e) | inr res => finish_create ctx res end) w.
Proof. done. Qed.

Lemma keeps_finish_create ctx res : keeps same_balance (finish_create ctx res).
Proof.
  unfold finish_create. apply (keeps_bind _); [apply keeps_construct|]. intros [e|v].
  - apply (keeps_bind _); [by apply keeps_ask_other|]. intros _. apply (keeps_ret _).
  - apply (keeps_bind _); [apply keeps_store|]. intros _.
    apply (keeps_bind _); [by apply keeps_ask_other|]. intros [e|]; [|apply (keeps_ret _)].
    apply (keeps_bind _); [by apply keeps_spawn|]. intros _. apply (keeps_ret _).
Qed.

(** The steps that are left. *)
Definition creator_steps (c : creator) : nat := match c with Starting => 3 | Constructing _ => 2 end.
Definition steps_left (s : starting) : nat := (sum_list_with creator_steps (st_creators s) + length (st_errs s))%nat.

(** The first error that was received. *)
Definition first_of (got : list (option error)) : option error := head (omap id got).

Record start_inv (n : nat) (w0 : pworld) (s : starting) : Prop := {
  inv_count : (length (st_creators s) + length (st_errs s) + length (st_received s) = n)%nat;
  inv_first : firstError s = first_of (st_received s);
  inv_balance : same_balance w0 (st_pool s)
}.

Lemma first_of_snoc got err : first_of (got ++ [err]) = note_error err (first_of got).
Proof.
  unfold first_of, note_error. induction got as [|[e|] got IH]; simpl; [by destruct err|done|exact IH].
Qed.

Lemma sum_delete cs i c :
  cs !! i = Some c -> (sum_list_with creator_steps cs = creator_steps c + sum_list_with creator_steps (delete i cs))%nat.
Proof.
  revert i. induction cs as [|c' cs IH]; intros [|i] E; simplify_eq/=; [done|]. rewrite (IH i E). lia.
Qed.

Lemma sum_insert cs i c c' :
  cs !! i = Some c ->
  (sum_list_with creator_steps (<[i := c']> cs) + creator_steps c = creator_steps c' + sum_list_with creator_steps cs)%nat.
Proof.
  revert i. induction cs as [|c1 cs IH]; intros [|i] E; simplify_eq/=; [lia|]. specialize (IH i E). lia.
Qed.

Lemma start_step_inv n w0 s s' :
  start_step s s' -> start_inv n w0 s -> start_inv n w0 s' /\ (steps_left s' < steps_left s)%nat.
Proof.
  intros Hs [Hc Hf Hb]. destruct Hs as [w cs i es got first e w' Hi E|w cs i es got first res w' Hi E
    |w cs i es got first res err w' Hi E|w cs es got first err]; unfold steps_left; simpl in *.
  - pose proof (sum_delete _ _ _ Hi) as Hsum. pose proof (length_delete cs i ltac:(eauto)) as Hl.
    apply lookup_lt_Some in Hi. rewrite length_app. simpl in *. split; [|lia].
    split; simpl; rewrite ?length_app; simpl; [lia|done|].
    etrans; [exact Hb|]. exact (keeps_Ok _ _ _ _ _ (keeps_ask_other (PCreate _) (fun _ => eq_refl)) E).
  - pose proof (sum_insert _ _ _ (Constructing res) Hi) as Hsum. simpl in Hsum. split; [|lia].
    split; simpl; rewrite ?length_insert; [lia|done|].
    etrans; [exact Hb|]. exact (keeps_Ok _ _ _ _ _ (keeps_ask_other (PCreate _) (fun _ => eq_refl)) E).
  - pose proof (sum_delete _ _ _ Hi) as Hsum. pose proof (length_delete cs i ltac:(eauto)) as Hl.
    apply lookup_lt_Some in Hi. rewrite length_app. simpl in *. split; [|lia].
    split; simpl; rewrite ?length_app; simpl; [lia|done|].
    etrans; [exact Hb|]. exact (keeps_Ok _ _ _ _ _ (keeps_finish_create _ _) E).
  - split; [|lia]. split; simpl; rewrite ?length_app; simpl; [lia| |done]. by rewrite first_of_snoc, Hf.
Qed.

Lemma start_steps_inv n w0 m s s' :
  nsteps start_step m s s' -> start_inv n w0 s -> start_inv n w0 s' /\ (m + steps_left s' <= steps_left s)%nat.
Proof.
  induction 1 as [|m s1 s2 s3 Hs _ IH]; intros Hi; [split; [done|lia]|].
  destruct (start_step_inv _ _ _ _ Hs Hi) as [Hi2 Hl]. destruct (IH Hi2). split; [done|lia].
Qed.

Lemma start_idle_inv n w0 : start_inv n w0 (start_idle n w0).
Proof. split; simpl; [rewrite repeat_length; lia|done|by intros r]. Qed.

Lemma start_idle_steps n w0 : steps_left (start_idle n w0) = (3 * n)%nat.
Proof. unfold steps_left. simpl. induction n as [|n IH]; simpl in *; lia. Qed.

(** A state from which no step is possible. *)
Lemma start_stuck s :
  (forall s', ~ start_step s s') ->
  all_received s \/ exists i res, st_creators s !! i = Some (Constructing res)
    /\ forall err w', finish_create (create_ctx (firstError s)) res (st_pool s) <> Ok err w'.
Proof.
  destruct s as [w cs es got first]. intros Hstuck. destruct es as [|err es]; [|by edestruct Hstuck; apply start_receives].
  destruct cs as [|[|res] cs]; [by left| |].
  - destruct (ask (PCreate (create_ctx first)) w) as [[e|res] w'|msg w'|] eqn:E; try done.
    + edestruct Hstuck. by apply (start_refused _ _ 0).
    + edestruct Hstuck. by apply (start_places _ _ 0 _ _ _ res w').
  - right. exists 0%nat, res. split; [done|]. intros err w' E. edestruct Hstuck. by apply (start_constructs _ _ 0 _ _ _ res err w').
Qed.

Lemma first_of_none got : first_of got = None <-> Forall (fun e => e = None) got.
Proof.
  unfold first_of. induction got as [|[e|] got IH]; simpl; rewrite ?Forall_cons.
  - by split.
  - by split; [|intros [? _]].
  - rewrite IH. by split; [|intros [_ ?]].
Qed.

(** C22. Starting a pool with [n] idle connections: however its goroutines and
    the loop that receives their errors interleave, at most [3 n] steps happen,
    nothing that is taken from puddle is lost, and it stops only when all [n]
    errors were received, unless constructing a connection panics.  The error
    it returns is then the first one received, and none is returned exactly
    when every resource was created. *)
Theorem idle_resources_any_schedule n w m s :
  nsteps start_step m (start_idle n w) s ->
  (m <= 3 * n)%nat /\ same_balance w (st_pool s)
  /\ ((forall s', ~ start_step s s') ->
      all_received s \/ exists i res, st_creators s !! i = Some (Constructing res)
        /\ forall err w', finish_create (create_ctx (firstError s)) res (st_pool s) <> Ok err w')
  /\ (all_received s ->
      length (st_received s) = n /\ firstError s = first_of (st_received s)
      /\ (firstError s = None <-> Forall (fun e => e = None) (st_received s))).
Proof.
  intros Hn. destruct (start_steps_inv _ _ _ _ _ Hn (start_idle_inv n w)) as [[Hc Hf Hb] Hl].
  rewrite start_idle_steps in Hl. split; [lia|]. split; [done|]. split; [apply start_stuck|].
  intros [Ec Ee]. rewrite Ec, Ee in Hc. split; [simpl in Hc; lia|]. split; [done|]. rewrite Hf. apply first_of_none.
Qed.

(** ** The sequential schedule *)

Lemma create_each_runs n first got w r w' :
  create_each pg_ConnectConfig n (create_ctx first) first w = Ok r w' ->
  exists got', rtc start_step (mkStarting w (repeat Starting n) [] got first) (mkStarting w' [] [] got' r).
Proof.
  revert first got w. induction n as [|n IH]; intros first got w E; cbn [create_each repeat] in *.
  { injection E as -> ->. by exists got. }
  inv_ok E. rename a into err, s into w1.
  assert (rtc start_step (mkStarting w (Starting :: repeat Starting n) [] got first)
    (mkStarting w1 (repeat Starting n) [err] got first)) as Hrun.
  { rewrite CreateResource_steps in Hm. inv_ok Hm. destruct a as [e|res].
    - injection Hm as <- <-. apply rtc_once.
      exact (start_refused w (Starting :: repeat Starting n) 0 [] got first e s eq_refl Hm0).
    - eapply rtc_l; [exact (start_places w (Starting :: repeat Starting n) 0 [] got first res s eq_refl Hm0)|].
      apply rtc_once.
      exact (start_constructs s (Constructing res :: repeat Starting n) 0 [] got first res err w1 eq_refl Hm). }
  assert (create_each pg_ConnectConfig n (create_ctx (note_error err first)) (note_error err first) w1 = Ok r w') as E1.
  { unfold note_error. destruct first as [e0|], err as [e1|]; exact E. }
  destruct (IH _ (got ++ [err]) _ E1) as [got' Hr]. exists got'. etrans; [exact Hrun|].
  eapply rtc_l; [apply start_receives|]. done.
Qed.

(** The definition the pool is opened with is one of the schedules. *)
Theorem createIdleResources_schedule n w r w' :
  createIdleResources pg_ConnectConfig parent (Z.of_nat n) w = Ok r w' ->
  exists got, rtc start_step (start_idle n w) (mkStarting w' [] [] got r).
Proof.
  unfold createIdleResources. destruct (Z.ltb_spec (Z.of_nat n) 0); [lia|]. rewrite Nat2Z.id.
  apply (create_each_runs n None []).
Qed.
End PoolStart.

(** ** The hypotheses can hold *)

#[local] Existing Instance Sample.types.
#[local] Existing Instance Toy.pgconn.
#[local] Existing Instance Toy.decoders.
#[local] Existing Instance ToyPuddle.puddle.

Lemma idle_resources_any_schedule_witness :
  exists m s, nsteps (start_step toy_dial Background) m (start_idle 2 toy_pool) s
    /\ firstError s = None /\ (m <= 6)%nat /\ Forall (fun e => e = None) (st_received s).
Proof.
  assert (createIdleResources toy_dial Background (Z.of_nat 2) toy_pool
    = Ok None (final (createIdleResources toy_dial Background (Z.of_nat 2)) toy_pool)) as E by runs.
  destruct (createIdleResources_schedule _ _ _ _ _ _ E) as [got R].
  apply rtc_nsteps in R as [m Hm].
  destruct (idle_resources_any_schedule toy_dial Background 2 toy_pool m _ Hm) as (Hle & _ & _ & Hend).
  eexists m, _. split; [exact Hm|]. split; [reflexivity|]. split; [exact Hle|].
  apply Hend; [split; reflexivity|reflexivity].
Defined.
