(* ===== verification/PoolTx.v ===== *)
(** Transactions on the pool: [Pool.BeginTxFunc] on connections to a server with
    PostgreSQL's transactions has the effect of the nested transactions of the
    function it is given, and the connection goes back to the pool. *)

From S2P Require Import Prelude GoStd GoVal GoDuration Effects Values PgConn Logger World Toy Rows Config Conn Batch.
From S2P Require Import ConnSpec CopyFrom Tx Nested Pool PoolSpec.

Local Open Scope Z_scope.

Section PoolTx.
Context `{PgTypes} `{PgConn} `{!PgDecoders} `{Puddle} {D : Type} (apply : statements D).
Context (pg_ConnectConfig : context -> PgConfig -> error + net) (fuel : nat) (ctx : context).
Context {Trans : PgTransactions apply ctx}.
Hypothesis enough : (3 <= fuel)%nat.

Lemma idle_batches d l w : idle apply ctx d w -> idle apply ctx d (set_batches l w).
Proof. done. Qed.

(** The connection is released and its resource given back: to be used again,
    unless it is too old. *)
Definition given_back (c res : nat) (w1 : pworld) (d : D) (w' : pworld) : Prop :=
  p_conns w' !! c = Some None
  /\ (exists v, p_values w' !! res = Some v /\ idle apply ctx d (cr_conn v))
  /\ (AfterRelease (p_config w1) = None ->
      p_trace w' = p_trace w1 ++ [Asked (if decide (too_old w1 res) then PDestroy res else PRelease res)]).

Lemma release_idle c res v d w1 w :
  p_conns w !! c = Some (Some res) -> p_values w !! res = Some v -> idle apply ctx d (cr_conn v) ->
  p_trace w = p_trace w1 -> p_config w = p_config w1 -> p_puddle w = p_puddle w1 ->
  exists w', Release c w = Ok tt w' /\ given_back c res w1 d w'.
Proof.
  intros Hc Hv Hi Et Ec Ep. destruct (Release_holding c res v w Hc Hv) as (w' & E & Hc' & Hv' & Hr).
  exists w'. split; [done|]. split; [|split].
  - rewrite Hc'. apply list_lookup_insert_eq. by eapply lookup_lt_Some.
  - exists v. by rewrite Hv'.
  - intros Ha. destruct (idle_usable apply ctx d _ Hi) as (U1 & U2 & U3). destruct Hr as (Hs & Hp & _).
    assert (too_old w res <-> too_old w1 res) as Ho by (unfold too_old; by rewrite Ec, Ep).
    unfold spent in Hs, Hp. rewrite U1, U2, U3, Ho in Hs, Hp. rewrite <- Et.
    destruct (decide (too_old w1 res)) as [Hd|Hd]; [apply Hs; auto|].
    apply Hp; [|by rewrite Ec]. by intros [?|[?|[?|?]]].
Qed.

(** C9. Transactions on the pool: a function given to [Pool.BeginTxFunc], with
    transactions nested in it to any depth, has the effect of its meaning on the
    database of the connection that is acquired, whether it returns an error or
    panics.  The connection is released and, as it is outside of a transaction
    and neither closed nor busy, its resource is given back to be used again,
    unless it is too old or [AfterRelease] decides. *)
Theorem pool_transactions o body d w c w1 res v :
  writing o -> Acquire pg_ConnectConfig fuel ctx w = Ok (inr c) w1 ->
  p_conns w1 !! c = Some (Some res) -> p_values w1 !! res = Some v -> idle apply ctx d (cr_conn v) ->
  forallb (plain parse) body = true -> begins_all body < 2 ^ 63 ->
  ends (mean_top apply body d) (Pool_BeginTxFunc pg_ConnectConfig fuel ctx o (run_body fuel ctx body) w)
    (given_back c res w1).
Proof.
  intros Ho E Hc Hv Hi Hpl Hb.
  pose proof (nested_ends apply fuel ctx enough o body d _ Ho (idle_batches d (p_batches w1) _ Hi) Hpl Hb) as N.
  unfold Pool_BeginTxFunc, with_conn, bind. rewrite E. unfold defer, pconn_BeginTxFunc, on, conn_res, bind, pread.
  rewrite Hc. simpl. unfold on_conn. rewrite Hv.
  destruct (mean_top apply body d) as [a d'|msg d'|], (BeginTxFunc _ _ _ _ _) as [a' cw|msg' cw|]; try done;
    destruct N as [<- Hi'];
    (destruct (release_idle c res (with_world cw v) d' w1 (put_back res v cw w1)) as (w3 & E3 & Hg);
      [done|apply lookup_insert_eq|done..|]); rewrite E3; by split.
Qed.
End PoolTx.

(** ** On a database *)

#[local] Existing Instance Sample.types.
#[local] Existing Instance Ledger.decoders.
#[local] Existing Instance ToyPuddle.puddle.
#[local] Hint Extern 0 PgConn => exact (PgServer.pgconn Ledger.apply) : typeclass_instances.
#[local] Existing Instance PgServer.transactions.

Definition ledger_dial (_ : context) (_ : PgConfig) : error + net :=
  inr (PgServer.mkServer (Postgres.Idle []) true false None []).

Definition ledger_pool : pworld :=
  new_pool (mkPoolConfig (Toy.configuration false) None None None None Hour Hour 4 0 Minute false true)
    (ToyPuddle.mkToyPool [] 0 0) [].

Definition ledger_acquired : pworld := final (Acquire ledger_dial 3 Background) ledger_pool.

Lemma ledger_connection v : p_values ledger_acquired !! 0%nat = Some v -> idle Ledger.apply Background [] (cr_conn v).
Proof.
  intros E.
  assert (option_map (fun v => (pg Ledger.apply Background (cr_conn v), preparedStatements (conn (cr_conn v)),
    PgServer.open (outside (cr_conn v)), PgServer.pending (outside (cr_conn v)))) (p_values ledger_acquired !! 0%nat)
    = Some (Postgres.Idle [], ∅, true, false)) as F by evaluates.
  rewrite E in F. injection F as F1 F2 F3 F4. by repeat split.
Qed.

Lemma pool_transactions_witness :
  let w' := final (Pool_BeginTxFunc ledger_dial 3 Background emptyTxOptions (run_body 3 Background Ledger.program)) ledger_pool in
  given_back Ledger.apply Background 0 0 ledger_acquired [str "four"; str "two"; str "one"] w'.
Proof.
  intros w'. assert (exists v, p_values ledger_acquired !! 0%nat = Some v) as [v Hv] by (apply some_by_test; evaluates).
  pose proof (pool_transactions Ledger.apply ledger_dial 3 Background ltac:(lia) emptyTxOptions Ledger.program [] ledger_pool 0
    ledger_acquired 0 v (writing_by_test emptyTxOptions ltac:(evaluates)) ltac:(runs) ltac:(evaluates) Hv (ledger_connection v Hv) eq_refl eq_refl) as N.
  assert (mean_top Ledger.apply Ledger.program [] = Ok None [str "four"; str "two"; str "one"]) as E by evaluates.
  rewrite E in N. apply ends_final in N as [_ N]. exact N.
Defined.
