(* ===== verification/PoolHealth.v ===== *)
(** The health check of the pool (pgxpool/pool.go): which idle connections a
    round destroys, which ones it puts back, and how many it has made. *)

From S2P Require Import Prelude GoStd GoVal GoDuration Effects Values PgConn Logger World Toy Rows Config Conn Batch.
From S2P Require Import ConnSpec CopyFrom Tx Pool PoolSpec.

Local Open Scope Z_scope.

(** ** The clock of puddle *)

(** The resource a request gives back. *)
Definition given (r : prequest) : option nat :=
  match r with
  | PRelease res | PReleaseUnused res | PDestroy res => Some res
  | _ => None
  end.

(** Giving back one resource leaves the creation time of the others alone, and
    they have been idle no shorter afterwards; no idle resource is handed out
    twice. *)
Class PuddleClock `{Puddle} := {
  creation_kept r res res' s : given r = Some res -> res' <> res ->
    CreationTime (pserve r s).2 res' = CreationTime s res';
  idle_grows r res res' s : given r = Some res -> res' <> res ->
    IdleDuration s res' <= IdleDuration (pserve r s).2 res';
  idle_once s : NoDup (pserve PAcquireAllIdle s).1
}.

Section Health.
Context `{PgTypes} `{PgConn} `{!PgDecoders} `{Puddle}.

(** ** What a round decides *)

(** Too old at the time [now], or idle for too long. *)
Definition too_old (cfg : PoolConfig) (now : Z) (s : pst) (res : nat) : bool :=
  MaxConnLifetime cfg <? time_Sub now (CreationTime s res).
Definition too_idle (cfg : PoolConfig) (s : pst) (res : nat) : bool := MaxConnIdleTime cfg <? IdleDuration s res.

(** A resource is put back or destroyed; which of the two, the code decides from
    what puddle says when it comes to the resource, while the others are given
    back. *)
Definition give_step (s s' : pst) : Prop := exists r res, given r = Some res /\ s' = (pserve r s).2.

Definition verdict (cfg : PoolConfig) (now : Z) (s : pst) (res : nat) (g : prequest) : Prop :=
  (too_old cfg now s res || too_idle cfg s res = true -> g = PDestroy res)
  /\ (g = PReleaseUnused res \/
      g = PDestroy res /\ (too_old cfg now s res = true \/ exists s', rtc give_step s s' /\ too_idle cfg s' res = true)).

(** What is left of the pool when nothing but puddle and the goroutines change. *)
Definition same_pool (w w' : pworld) : Prop :=
  p_config w' = p_config w /\ p_conns w' = p_conns w /\ p_values w' = p_values w /\ p_closed w' = p_closed w.

#[local] Instance same_pool_preorder : PreOrder same_pool.
Proof. split; [done|]. intros a b c (?&?&?&?) (?&?&?&?). repeat split; congruence. Qed.

(** A round of the loop: one request, and a goroutine when the connection is to
    be closed. *)
Definition gave (g : prequest) (res : nat) (w w' : pworld) : Prop :=
  given g = Some res /\ p_trace w' = p_trace w ++ [Asked g] /\ p_puddle w' = (pserve g (p_puddle w)).2
  /\ (p_tasks w' = p_tasks w \/ p_tasks w' = p_tasks w ++ [TDestruct res]) /\ same_pool w w'.

Lemma res_Destroy_gives res w : exists w', res_Destroy res w = Ok tt w' /\ gave (PDestroy res) res w w'.
Proof. eexists. split; [done|]. repeat split. by right. Qed.

Lemma res_ReleaseUnused_gives res w : exists w', res_ReleaseUnused res w = Ok tt w' /\ gave (PReleaseUnused res) res w w'.
Proof.
  unfold res_ReleaseUnused, bind, ask, when. destruct ((pserve (PReleaseUnused res) (p_puddle w)).1 : bool);
    (eexists; split; [done|]; repeat split); [by right|by left].
Qed.

Lemma check_one now res l w :
  exists g w1, check_each now (res :: l) w = check_each now l w1 /\ gave g res w w1
    /\ g = if too_old (p_config w) now (p_puddle w) res || too_idle (p_config w) (p_puddle w) res
           then PDestroy res else PReleaseUnused res.
Proof.
  cbn [check_each]. unfold bind, gets, too_old, too_idle.
  destruct (res_Destroy_gives res w) as (wd & Ed & Hd). destruct (res_ReleaseUnused_gives res w) as (wr & Er & Hr).
  destruct (MaxConnLifetime _ <? _); [|destruct (MaxConnIdleTime _ <? _)]; cbn [orb]; rewrite ?Ed, ?Er;
    [exists (PDestroy res), wd|exists (PDestroy res), wd|exists (PReleaseUnused res), wr]; (split; [reflexivity|]); done.
Qed.

(** ** The loop *)

Context {Clock : PuddleClock}.

(** Verdicts at a later time, for a resource that was not given back. *)
Lemma verdict_later cfg now s r res res' g :
  given r = Some res -> res' <> res -> verdict cfg now (pserve r s).2 res' g -> verdict cfg now s res' g.
Proof.
  intros Hr Hne [V1 V2]. assert (too_old cfg now (pserve r s).2 res' = too_old cfg now s res') as Eo.
  { unfold too_old. by rewrite (creation_kept r res). }
  rewrite Eo in V1, V2. split.
  - intros Hs. apply V1. apply orb_true_iff in Hs as [->|Hs]; [done|].
    unfold too_idle in *. apply orb_true_iff. right. apply Z.ltb_lt in Hs. apply Z.ltb_lt.
    pose proof (idle_grows r res res' s Hr Hne). lia.
  - destruct V2 as [V2|[-> [V2|(s' & Hs & V2)]]]; [by left|right..]; (split; [done|]); [by left|right].
    exists s'. split; [|done]. eapply rtc_l; [|done]. by exists r, res.
Qed.

Lemma check_each_verdicts now l w :
  NoDup l ->
  exists gs w', check_each now l w = Ok tt w' /\ p_trace w' = p_trace w ++ map Asked gs
    /\ Forall2 (verdict (p_config w) now (p_puddle w)) l gs
    /\ (exists ds, p_tasks w' = p_tasks w ++ map TDestruct ds) /\ same_pool w w'.
Proof.
  revert w. induction l as [|res l IH]; intros w Hnd.
  { exists [], w. rewrite !app_nil_r. split_and!; [done|done|constructor|exists []; by rewrite app_nil_r|done]. }
  apply NoDup_cons in Hnd as [Hni Hnd].
  destruct (check_one now res l w) as (g & w1 & E & (Hg & Ht & Hp & Htk & Hs) & Eg).
  destruct (IH w1 Hnd) as (gs & w' & E' & Ht' & HF & (ds & Hds) & Hs').
  exists (g :: gs), w'. rewrite E. split; [done|]. split; [by rewrite Ht', Ht, <- app_assoc|]. split; [|split].
  - constructor.
    + split; [by intros Hv; rewrite Hv in Eg|]. destruct (too_old _ _ _ _) eqn:Eo; simpl in Eg; [by eauto|].
      destruct (too_idle _ _ _) eqn:Ei; [right; split; [done|]; right; by exists (p_puddle w)|by left].
    + destruct Hs as [Ec _]. rewrite Ec, Hp in HF. eapply Forall2_impl_in; [exact HF|].
      intros res' g' Hin. apply (verdict_later _ _ _ _ res); [done|]. by intros ->.
  - destruct Htk as [Htk|Htk]; rewrite Htk in Hds; [by exists ds|exists (res :: ds)].
    by rewrite Hds, <- app_assoc.
  - by etrans.
Qed.

(** ** A round *)

Lemma took_all_run l w :
  exists w', took_all l w = Ok tt w' /\ p_trace w' = p_trace w ++ map Took l /\ p_puddle w' = p_puddle w
    /\ p_tasks w' = p_tasks w /\ same_pool w w'.
Proof.
  revert w. induction l as [|res l IH]; intros w.
  { exists w. rewrite app_nil_r. by repeat split. }
  destruct (IH (add_event (Took res) w)) as (w' & E & Ht & Hp & Hk & Hs). exists w'. cbn [took_all].
  rewrite (bind_eq _ _ _ tt (add_event (Took res) w)) by done. split; [done|].
  rewrite Ht. simpl. split; [by rewrite <- app_assoc|done].
Qed.

Lemma spawn_creates_run n w :
  exists w', spawn_creates n w = Ok tt w' /\ p_tasks w' = p_tasks w ++ repeat TCreate n
    /\ p_trace w' = p_trace w /\ p_puddle w' = p_puddle w /\ same_pool w w'.
Proof.
  revert w. induction n as [|n IH]; intros w.
  { exists w. rewrite app_nil_r. by repeat split. }
  destruct (IH (set_tasks (p_tasks w ++ [TCreate]) w)) as (w' & E & Hk & Hs). exists w'. cbn [spawn_creates].
  rewrite (bind_eq _ _ _ tt (set_tasks (p_tasks w ++ [TCreate]) w)) by done. split; [done|].
  rewrite Hk. simpl. split; [by rewrite <- app_assoc|done].
Qed.

(** The idle resources, and puddle after it has handed them out. *)
Definition idle_resources (w : pworld) : list nat := (pserve PAcquireAllIdle (p_puddle w)).1.
Definition idle_taken (w : pworld) : pst := (pserve PAcquireAllIdle (p_puddle w)).2.

Lemma checkIdle_verdicts w :
  exists gs w', checkIdleConnsHealth w = Ok tt w'
    /\ p_trace w' = p_trace w ++ Asked PAcquireAllIdle :: map Took (idle_resources w) ++ map Asked gs
    /\ Forall2 (verdict (p_config w) (Now (idle_taken w)) (idle_taken w)) (idle_resources w) gs
    /\ (exists ds, p_tasks w' = p_tasks w ++ map TDestruct ds) /\ same_pool w w'.
Proof.
  set (w1 := set_puddle (idle_taken w) (add_event (Asked PAcquireAllIdle) w)).
  destruct (took_all_run (idle_resources w) w1) as (w2 & E2 & Ht2 & Hp2 & Hk2 & Hs2).
  destruct (check_each_verdicts (Now (p_puddle w2)) (idle_resources w) w2 (idle_once _))
    as (gs & w' & E & Ht & HF & (ds & Hds) & Hs).
  exists gs, w'. unfold checkIdleConnsHealth, puddle_AcquireAllIdle.
  rewrite (bind_eq _ _ _ (idle_resources w) w2).
  2:{ rewrite (bind_eq _ _ _ (idle_resources w) w1) by done. unfold bind. by rewrite E2. }
  split; [exact E|]. rewrite Hp2, (proj1 Hs2) in HF. split; [|split; [exact HF|]].
  - rewrite Ht, Ht2. simpl. by rewrite <- !app_assoc.
  - split; [exists ds; by rewrite Hds, Hk2|]. by etrans.
Qed.

(** C26. A round of the health check of an open pool takes every idle connection
    once and gives it back: those too old or idle for too long are destroyed, and
    no other one is; the rest are put back unused.  Then as many connections are
    begun as the pool has less than [MinConns].  The connections in use are left
    alone, and a closed pool ends the checks. *)
Theorem health_tick_spec w :
  0 <= MinConns (p_config w) < 2 ^ 31 -> (forall s, 0 <= TotalResources s < 2 ^ 31) ->
  exists w', health_tick w = Ok (negb (p_closed w)) w' /\ same_pool w w' /\
  if p_closed w then w' = w
  else exists gs ds,
    p_trace w' = p_trace w ++ Asked PAcquireAllIdle :: map Took (idle_resources w) ++ map Asked gs
    /\ Forall2 (verdict (p_config w) (Now (idle_taken w)) (idle_taken w)) (idle_resources w) gs
    /\ p_tasks w' = p_tasks w ++ map TDestruct ds
         ++ repeat TCreate (Z.to_nat (MinConns (p_config w) - TotalResources (p_puddle w'))).
Proof.
  intros Hmin Htot. unfold health_tick. unfold bind at 1, gets. destruct (p_closed w) eqn:Hc; [by exists w|].
  destruct (checkIdle_verdicts w) as (gs & w1 & E1 & Ht1 & HF & (ds & Hds) & Hs1).
  destruct (spawn_creates_run (Z.to_nat (int32 (MinConns (p_config w1) - TotalResources (p_puddle w1)))) w1)
    as (w' & E2 & Hk & Ht2 & Hp2 & Hs2).
  assert (checkMinConns w1 = Ok tt w') as E3 by exact E2.
  exists w'. unfold bind. rewrite E1, E3. split; [done|]. split; [by etrans|]. exists gs, ds.
  split; [by rewrite Ht2|]. split; [done|]. rewrite Hk, Hds, Hp2, <- app_assoc, (proj1 Hs1).
  specialize (Htot (p_puddle w1)).
  by assert (int32 (MinConns (p_config w) - TotalResources (p_puddle w1))
    = MinConns (p_config w) - TotalResources (p_puddle w1)) as -> by (apply wrap_s_id; unfold in_s; lia).
Qed.
End Health.

(** ** A round on a pool of three connections *)

(** The age and the idle time of every resource, and those that are idle. *)
Module ClockPuddle.
Record pool := mkClockPool { idle : list nat; ages : list (Z * Z) }.

Definition answer_pool (r : prequest) (s : pool) : preply r * pool :=
  match r with
  | PAcquire _ => (inl (errors_New "busy"), s)
  | PCreate _ => (inl (errors_New "busy"), s)
  | PConstructed _ _ => (None, s)
  | PAcquireAllIdle => (remove_dups (idle s), mkClockPool [] (ages s))
  | PRelease res => (false, mkClockPool (idle s ++ [res]) (ages s))
  | PReleaseUnused res => (false, mkClockPool (idle s ++ [res]) (ages s))
  | PDestroy _ => (tt, s)
  | PClose => (idle s, mkClockPool [] (ages s))
  end.

Definition puddle : Puddle := {|
  pst := pool;
  Now := fun _ => 0;
  CreationTime := fun s res => - (ages s !!! res).1;
  IdleDuration := fun s res => (ages s !!! res).2;
  TotalResources := fun s => Z.min (Z.of_nat (length (idle s))) 100;
  pserve := answer_pool
|}.

#[export] Instance clock : @PuddleClock puddle.
Proof.
  split; [by intros [] *|intros [] *; by intros|]. intros s. apply NoDup_remove_dups.
Defined.
End ClockPuddle.

#[local] Existing Instance Sample.types.
#[local] Existing Instance Toy.pgconn.
#[local] Existing Instance Toy.decoders.
#[local] Existing Instance ClockPuddle.puddle.
#[local] Existing Instance ClockPuddle.clock.

(** The first connection is too old, the second has been idle for too long. *)
Definition three_idle : pworld :=
  new_pool (mkPoolConfig (Toy.configuration false) None None None None Hour Minute 4 3 Minute false true)
    (ClockPuddle.mkClockPool [0; 1; 2]%nat [(2 * Hour, Second); (Minute, 2 * Minute); (Minute, Second)]) [].

Lemma health_tick_spec_witness :
  let w' := final health_tick three_idle in
  p_trace w' = Asked PAcquireAllIdle :: map Took [0; 1; 2]%nat
    ++ map Asked [PDestroy 0; PDestroy 1; PReleaseUnused 2]
  /\ p_tasks w' = map TDestruct [0; 1]%nat ++ [TCreate; TCreate]
  /\ exists w', health_tick three_idle = Ok true w' /\ same_pool three_idle w' /\ exists gs ds,
    p_trace w' = p_trace three_idle ++ Asked PAcquireAllIdle :: map Took (idle_resources three_idle) ++ map Asked gs
    /\ Forall2 (verdict (p_config three_idle) (Now (idle_taken three_idle)) (idle_taken three_idle))
         (idle_resources three_idle) gs
    /\ p_tasks w' = p_tasks three_idle ++ map TDestruct ds
         ++ repeat TCreate (Z.to_nat (MinConns (p_config three_idle) - TotalResources (p_puddle w'))).
Proof.
  split_and!; [evaluates|evaluates|].
  apply (health_tick_spec three_idle); [simpl; lia|]. intros s. simpl. lia.
Defined.
