(* ===== verification/SqlDriver.v ===== *)
(** The driver for database/sql (stdlib/sql.go): connections, statements,
    transactions and rows on top of a pgx connection, the registry of
    configurations, and the borrowing of connections from a [sql.DB]. *)

From S2P Require Import Prelude GoStd GoVal GoDuration Effects Values PgConn Logger World Toy Rows Config Conn Batch.
From S2P Require Import CopyFrom Tx.

Local Open Scope Z_scope.

(** ** Types of PostgreSQL *)

Definition BoolOID : Z := 16.
Definition ByteaOID : Z := 17.
Definition Int8OID : Z := 20.
Definition Int2OID : Z := 21.
Definition Int4OID : Z := 23.
Definition TextOID : Z := 25.
Definition OIDOID : Z := 26.
Definition XIDOID : Z := 28.
Definition CIDOID : Z := 29.
Definition JSONOID : Z := 114.
Definition Float4OID : Z := 700.
Definition Float8OID : Z := 701.
Definition BPCharArrayOID : Z := 1014.
Definition VarcharOID : Z := 1043.
Definition DateOID : Z := 1082.
Definition TimestampOID : Z := 1114.
Definition TimestamptzOID : Z := 1184.
Definition NumericOID : Z := 1700.
Definition JSONBOID : Z := 3802.

(** The types that are read in the binary format; a missing entry is the zero
    value, the text format. *)
Definition databaseSQLResultFormats : gmap Z Z :=
  list_to_map (map (fun oid => (oid, 1))
    [BoolOID; ByteaOID; CIDOID; DateOID; Float4OID; Float8OID; Int2OID; Int4OID; Int8OID; OIDOID;
     TimestampOID; TimestamptzOID; XIDOID]).

(** ** RandomizeHostOrderFunc *)

(** The fields of [pgx.ConnConfig] the hook looks at; a TLS configuration is
    its identity. *)
Record FallbackConfig := mkFallback { fb_Host : gostring; fb_Port : Z; fb_TLSConfig : Z }.
Record hosts := mkHosts { primary : FallbackConfig; Fallbacks : list FallbackConfig }.

Definition swap {A} (i j : nat) (l : list A) : list A :=
  match l !! i, l !! j with
  | Some x, Some y => <[j := x]> (<[i := y]> l)
  | _, _ => l
  end.

(** [rand.Shuffle]: from the last index down to 1, a swap with an index drawn
    among those up to it. *)
Fixpoint Shuffle {A} (draw : nat -> nat) (i : nat) (l : list A) : list A :=
  match i with
  | O => l
  | S k => Shuffle draw k (swap i (draw i mod S i) l)
  end.

Definition RandomizeHostOrderFunc (draw : nat -> nat) (c : hosts) : hosts :=
  match Fallbacks c with
  | [] => c
  | _ :: _ =>
      let newFallbacks := Shuffle draw (length (Fallbacks c)) (primary c :: Fallbacks c) in
      match last newFallbacks with
      | Some newPrimary => mkHosts newPrimary (take (length newFallbacks - 1) newFallbacks)
      | None => c
      end
  end.

(** ** The registry of configurations *)

Record Driver := mkDriver { configs : gmap gostring ConnConfig; sequence : Z }.

Definition registered_name (n : Z) : gostring := str "registeredConnConfig" ++ FormatInt n.

Definition registerConnConfig (c : ConnConfig) (d : Driver) : gostring * Driver :=
  let connStr := registered_name (sequence d) in
  (connStr, mkDriver (<[connStr := c]> (configs d)) (int64 (sequence d + 1))).

Definition unregisterConnConfig (connStr : gostring) (d : Driver) : Driver :=
  mkDriver (delete connStr (configs d)) (sequence d).

Section SqlDriver.
Context `{PgTypes} `{PgConn} `{!PgDecoders}.

(** pgconn's parser, dialler and [SafeToRetry]. *)
Context (pg_ParseConfig : gostring -> error + PgConfig).
Context (pg_ConnectConfig : context -> PgConfig -> error + net).
Context (SafeToRetry : error -> bool).
(** [ctx.Value]: the text of the value under ["appID"], and whether the context
    is the one of [AcquireConn].  The context is never nil. *)
Context (appID : context -> option gostring) (isFakeTx : context -> bool).
(** The fuel of the loops of the connection. *)
Context (fuel : nat).

(** ** State *)

(** How a column is turned into a [driver.Value]: the scanned variable itself,
    converted to a wider type, or its [Value] method. *)
Inductive value_kind := KDirect | KFloat64 | KInt64of | KValue.

Record rowValueFunc := mkValueFunc { vf_kind : value_kind; vf_plan : plan; vf_oid : Z; vf_format : Z; vf_dst : goval }.

Record sqlRows := mkSqlRows {
  r_rows : nat;
  valueFuncs : option (list rowValueFunc);
  skipNext : bool;
  skipNextMore : bool;
  columnNames : option (list gostring)
}.

(** A [stdlib.Conn]: [sc_given] is whether it was handed out through the
    context of [AcquireConn]. *)
Record sqlConn := mkSqlConn {
  sc_conn : world;
  psCount : Z;
  resetSessionFunc : context -> M world (option error);
  sc_rowss : list sqlRows;
  sc_given : bool
}.

Definition with_pgx (w : world) (c : sqlConn) : sqlConn :=
  mkSqlConn w (psCount c) (resetSessionFunc c) (sc_rowss c) (sc_given c).
Definition with_psCount (n : Z) (c : sqlConn) : sqlConn :=
  mkSqlConn (sc_conn c) n (resetSessionFunc c) (sc_rowss c) (sc_given c).
Definition with_rowss (l : list sqlRows) (c : sqlConn) : sqlConn :=
  mkSqlConn (sc_conn c) (psCount c) (resetSessionFunc c) l (sc_given c).
Definition with_given (c : sqlConn) : sqlConn :=
  mkSqlConn (sc_conn c) (psCount c) (resetSessionFunc c) (sc_rowss c) true.

(** A method of the pgx connection. *)
Definition on_pgx {A} (m : M world A) : M sqlConn A := fun c =>
  match m (sc_conn c) with
  | Ok a w => Ok a (with_pgx w c)
  | Panicked msg w => Panicked msg (with_pgx w c)
  | OutOfFuel => OutOfFuel
  end.

Definition read_sql_rows (r : nat) : M sqlConn sqlRows := fun c =>
  match sc_rowss c !! r with
  | Some x => Ok x c
  | None => Panicked nil_dereference c
  end.
Definition write_sql_rows (r : nat) (x : sqlRows) : M sqlConn unit :=
  modify (fun c => with_rowss (<[r := x]> (sc_rowss c)) c).

(** ** Connecting *)

(** The hooks of [OpenDB]: they default to functions that do nothing. *)
Record connector := mkConnector {
  co_ConnConfig : ConnConfig;
  co_BeforeConnect : context -> ConnConfig -> option error * ConnConfig;
  co_AfterConnect : context -> M world (option error);
  co_ResetSession : context -> M world (option error)
}.

Inductive OptionOpenDB :=
| OptionBeforeConnect (f : context -> ConnConfig -> option error * ConnConfig)
| OptionAfterConnect (f : context -> M world (option error))
| OptionResetSession (f : context -> M world (option error)).

Definition apply_option (c : connector) (o : OptionOpenDB) : connector :=
  match o with
  | OptionBeforeConnect f => mkConnector (co_ConnConfig c) f (co_AfterConnect c) (co_ResetSession c)
  | OptionAfterConnect f => mkConnector (co_ConnConfig c) (co_BeforeConnect c) f (co_ResetSession c)
  | OptionResetSession f => mkConnector (co_ConnConfig c) (co_BeforeConnect c) (co_AfterConnect c) f
  end.

(** The connector that [OpenDB] gives to [sql.OpenDB]. *)
Definition OpenDB (config : ConnConfig) (opts : list OptionOpenDB) : connector :=
  fold_left apply_option opts
    (mkConnector config (fun _ cc => (None, cc)) (fun _ => ret None) (fun _ => ret None)).

(** A connection that [AfterConnect] refuses is dropped: it is the last
    component of the result. *)
Definition connector_Connect (c : connector) (ctx : context) : comp ((error + sqlConn) * option world) :=
  match co_BeforeConnect c ctx (co_ConnConfig c) with
  | (Some e, _) => Done (inl e, None)
  | (None, connConfig) =>
      let? '(_, r) := of_outcome (connect pg_ConnectConfig ctx connConfig) in
      match r with
      | inl e => Done (inl e, None)
      | inr w =>
          match co_AfterConnect c ctx w with
          | Ok (Some e) w' => Done (inl e, Some w')
          | Ok None w' => Done (inr (mkSqlConn w' 0 (co_ResetSession c) [] false), None)
          | Panicked msg _ => Crash msg
          | OutOfFuel => NoFuel
          end
      end
  end.

(** The configuration a name stands for: a registered one, or a parsed one. *)
Definition config_for (d : Driver) (name : gostring) : error + ConnConfig :=
  match configs d !! name with
  | Some c => inr c
  | None => ParseConfig pg_ParseConfig name
  end.

Definition driverConnector_Connect (d : Driver) (name : gostring) (ctx : context) : comp (error + sqlConn) :=
  match config_for d name with
  | inl e => Done (inl e)
  | inr connConfig =>
      let? '(_, r) := of_outcome (connect pg_ConnectConfig ctx connConfig) in
      match r with
      | inl e => Done (inl e)
      | inr w => Done (inr (mkSqlConn w 0 (fun _ => ret None) [] false))
      end
  end.

Definition Driver_Open (d : Driver) (name : gostring) : comp (error + sqlConn) :=
  driverConnector_Connect d name (WithTimeout Background (60 * Second)).

(** ** Conn *)

(** [if c.conn.IsClosed() { return driver.ErrBadConn }] *)
Definition unless_closed {A} (bad : A) (m : M sqlConn A) : M sqlConn A :=
  let* closed := on_pgx IsClosed in
  if closed then ret bad else m.

Definition statement_name (n : Z) : gostring := str "pgx_" ++ FormatInt n.

Definition PrepareContext (ctx : context) (query : gostring) : M sqlConn (error + StatementDescription) :=
  unless_closed (inl ErrBadConn)
    (let* n := gets psCount in
     modify (with_psCount (int64 (n + 1))) ;;;
     on_pgx (Conn_Prepare ctx (statement_name n) query)).

Definition Sql_Prepare (query : gostring) : M sqlConn (error + StatementDescription) :=
  PrepareContext Background query.

Definition Sql_Close : M sqlConn (option error) :=
  on_pgx (Conn_Close (WithTimeout Background (5 * Second))).

(** [driver.TxOptions] *)
Record driverTxOptions := mkDriverTxOptions { Isolation : Z; dto_ReadOnly : bool }.

(** The levels of database/sql. *)
Definition LevelDefault : Z := 0.
Definition LevelReadUncommitted : Z := 1.
Definition LevelReadCommitted : Z := 2.
Definition LevelRepeatableRead : Z := 4.
Definition LevelSnapshot : Z := 5.
Definition LevelSerializable : Z := 6.

Definition iso_level (level : Z) : option gostring :=
  if level =? LevelDefault then Some []
  else if level =? LevelReadUncommitted then Some ReadUncommitted
  else if level =? LevelReadCommitted then Some ReadCommitted
  else if (level =? LevelRepeatableRead) || (level =? LevelSnapshot) then Some RepeatableRead
  else if level =? LevelSerializable then Some Serializable
  else None.

Inductive driverTx := WrapTx (ctx : context) (t : nat) | FakeTx.

Definition Sql_BeginTx (ctx : context) (opts : driverTxOptions) : M sqlConn (error + driverTx) :=
  unless_closed (inl ErrBadConn)
    (if isFakeTx ctx then modify with_given ;;; ret (inr FakeTx)
     else
       match iso_level (Isolation opts) with
       | None => ret (inl (ErrorString (str "unsupported isolation: " ++ FormatInt (Isolation opts))))
       | Some iso =>
           let access := if dto_ReadOnly opts then ReadOnly else [] in
           let* r := on_pgx (BeginTx fuel ctx (mkTxOptions iso access [])) in
           match r with
           | inl e => ret (inl e)
           | inr t => ret (inr (WrapTx ctx t))
           end
       end).

Definition Sql_Begin : M sqlConn (error + driverTx) := Sql_BeginTx Background (mkDriverTxOptions 0 false).

Definition driverTx_Commit (t : driverTx) : M sqlConn (option error) :=
  match t with
  | WrapTx ctx t => on_pgx (tx_Commit fuel ctx t)
  | FakeTx => ret None
  end.

Definition driverTx_Rollback (t : driverTx) : M sqlConn (option error) :=
  match t with
  | WrapTx ctx t => on_pgx (tx_Rollback fuel ctx t)
  | FakeTx => ret None
  end.

(** [namedValueToInterface] and [valueToInterface] keep the values. *)
Definition namedValueToInterface (args : list goval) : list goval :=
  map (fun v => if is_nil v then VNil else v) args.

Definition valueToInterface (args : list goval) : list goval :=
  map (fun v => if is_nil v then VNil else v) args.

(** ** Exec, and the schema of the context *)

Definition set_schema_prefix : gostring := str "set schema ".

Definition schema_injection (app : gostring) : gostring := str "set schema '" ++ app ++ str "';".

(** The result of [ExecContext]: the rows affected, and the error. *)
Definition execResult : Type := option Z * option error.

(** [exec] is the method [ExecContext], which calls this function. *)
Definition CheckSetSchemaCtx (exec : context -> gostring -> list goval -> M sqlConn execResult)
    (query : gostring) (ctx : context) : M sqlConn (option error) :=
  if HasPrefix query set_schema_prefix then
    match appID ctx with
    | None => ret None
    | Some app =>
        let* '(_, err) := exec ctx (schema_injection app) [] in
        match err with
        | Some e => if SafeToRetry e then ret (Some ErrBadConn) else ret (Some e)
        | None => ret None
        end
    end
  else ret None.

(** [depth] bounds the mutual recursion of the two functions. *)
Fixpoint ExecContext (depth : nat) (ctx : context) (query : gostring) (args : list goval)
  : M sqlConn execResult :=
  match depth with
  | O => out_of_fuel
  | S d =>
      unless_closed (None, Some ErrBadConn)
        (let* err := CheckSetSchemaCtx (ExecContext d) query ctx in
         match err with
         | Some e => ret (None, Some e)
         | None =>
             let* '(tag, err) := on_pgx (Conn_Exec fuel ctx query (namedValueToInterface args)) in
             match err with
             | Some e => if SafeToRetry e then ret (None, Some ErrBadConn) else ret (Some (RowsAffected tag), err)
             | None => ret (Some (RowsAffected tag), None)
             end
         end)
  end.

(** ** Query *)

Definition new_sql_rows (x : sqlRows) : M sqlConn nat := fun c =>
  Ok (length (sc_rowss c)) (with_rowss (sc_rowss c ++ [x]) c).

(** The first row is read before the result set is returned. *)
Definition QueryContext (depth : nat) (ctx : context) (query : gostring) (args : list goval)
  : M sqlConn (error + nat) :=
  unless_closed (inl ErrBadConn)
    (let* err := CheckSetSchemaCtx (ExecContext depth) query ctx in
     match err with
     | Some e => ret (inl e)
     | None =>
         let* '(p, err) := on_pgx (Conn_Query fuel ctx query
                             (VResultFormatsByOID (Some databaseSQLResultFormats) :: namedValueToInterface args)) in
         match err with
         | Some e => if SafeToRetry e then ret (inl ErrBadConn) else ret (inl e)
         | None =>
             let* more := on_pgx (rows_Next p) in
             let* err := on_pgx (rows_Err p) in
             match err with
             | Some e => on_pgx (rows_Close p) ;;; ret (inl e)
             | None => let* r := new_sql_rows (mkSqlRows p None true more None) in ret (inr r)
             end
         end
     end).

(** ** Other methods of Conn, and Stmt *)

Definition Sql_Ping (ctx : context) : M sqlConn (option error) :=
  unless_closed (Some ErrBadConn)
    (let* err := on_pgx (Ping fuel ctx) in
     match err with
     | Some _ => Sql_Close ;;; ret (Some ErrBadConn)
     | None => ret None
     end).

Definition CheckNamedValue (_ : goval) : option error := None.

Definition ResetSession (ctx : context) : M sqlConn (option error) :=
  unless_closed (Some ErrBadConn)
    (let* f := gets resetSessionFunc in on_pgx (f ctx)).

Definition Stmt_Close (sd : StatementDescription) : M sqlConn (option error) :=
  on_pgx (Deallocate (WithTimeout Background (5 * Second)) (sd_Name sd)).

Definition Stmt_NumInput (sd : StatementDescription) : nat := length (ParamOIDs sd).

Definition Stmt_Exec (sd : StatementDescription) (args : list goval) : error :=
  errors_New "Stmt.Exec deprecated and not implemented".
Definition Stmt_Query (sd : StatementDescription) (args : list goval) : error :=
  errors_New "Stmt.Query deprecated and not implemented".

Definition Stmt_ExecContext (depth : nat) (sd : StatementDescription) (ctx : context) (args : list goval)
  : M sqlConn execResult := ExecContext depth ctx (sd_Name sd) args.
Definition Stmt_QueryContext (depth : nat) (sd : StatementDescription) (ctx : context) (args : list goval)
  : M sqlConn (error + nat) := QueryContext depth ctx (sd_Name sd) args.

(** ** Rows: descriptions of the columns *)

Definition sql_fields (r : nat) : M sqlConn (list FieldDescription) :=
  let* x := read_sql_rows r in on_pgx (rows_FieldDescriptions (r_rows x)).

Definition Columns (r : nat) : M sqlConn (list gostring) :=
  let* x := read_sql_rows r in
  match columnNames x with
  | Some names => ret names
  | None =>
      let* fields := sql_fields r in
      let names := map fd_Name fields in
      write_sql_rows r (mkSqlRows (r_rows x) (valueFuncs x) (skipNext x) (skipNextMore x) (Some names)) ;;;
      ret names
  end.

Definition sql_field (r : nat) (index : Z) : M sqlConn FieldDescription :=
  let* fields := sql_fields r in lift (of_outcome (go_index fields index)).

(** [strings.ToUpper] of an ASCII name. *)
Definition upper (c : ascii) : ascii := if in_range 97 122 (code c) then byte_of (code c - 32) else c.

(** [dt_Name] is the name of a registered type. *)
Definition ColumnTypeDatabaseTypeName (dt_Name : DataType -> gostring) (r : nat) (index : Z) : M sqlConn gostring :=
  let* fd := sql_field r index in
  match DataTypeForOID (DataTypeOID fd) with
  | Some dt => ret (map upper (dt_Name dt))
  | None => ret (FormatInt (DataTypeOID fd))
  end.

Definition varHeaderSize : Z := 4.

(** [TypeModifier] is an [int32]. *)
Definition column_length (fd : FieldDescription) : Z * bool :=
  if (DataTypeOID fd =? TextOID) || (DataTypeOID fd =? ByteaOID) then (MaxInt64, true)
  else if (DataTypeOID fd =? VarcharOID) || (DataTypeOID fd =? BPCharArrayOID)
  then (int32 (TypeModifier fd - varHeaderSize), true)
  else (0, false).

Definition ColumnTypeLength (r : nat) (index : Z) : M sqlConn (Z * bool) :=
  let* fd := sql_field r index in ret (column_length fd).

Definition precision_scale (fd : FieldDescription) : Z * Z * bool :=
  if DataTypeOID fd =? NumericOID then
    let mod_ := int32 (TypeModifier fd - varHeaderSize) in
    (Z.land (Z.shiftr mod_ 16) 65535, Z.land mod_ 65535, true)
  else (0, 0, false).

Definition ColumnTypePrecisionScale (r : nat) (index : Z) : M sqlConn (Z * Z * bool) :=
  let* fd := sql_field r index in ret (precision_scale fd).

(** The Go type, by its name. *)
Definition scan_type (oid : Z) : gostring :=
  if oid =? Float8OID then str "float64"
  else if oid =? Float4OID then str "float32"
  else if oid =? Int8OID then str "int64"
  else if oid =? Int4OID then str "int32"
  else if oid =? Int2OID then str "int16"
  else if oid =? BoolOID then str "bool"
  else if oid =? NumericOID then str "float64"
  else if (oid =? DateOID) || (oid =? TimestampOID) || (oid =? TimestamptzOID) then str "time.Time"
  else if oid =? ByteaOID then str "[]uint8"
  else str "string".

Definition ColumnTypeScanType (r : nat) (index : Z) : M sqlConn gostring :=
  let* fd := sql_field r index in ret (scan_type (DataTypeOID fd)).

(** ** Rows: reading *)

Definition sql_rows_Close (r : nat) : M sqlConn (option error) :=
  let* x := read_sql_rows r in
  on_pgx (rows_Close (r_rows x)) ;;;
  on_pgx (rows_Err (r_rows x)).

(** The variable a column is scanned into, and what is done with it. *)
Definition column_variable (oid : Z) : value_kind * goval :=
  let zero_struct (ty : string) := VPtr (str ty) (VExt (str ty) 0) in
  if oid =? BoolOID then (KDirect, VPtr (str "bool") (VBool None false))
  else if oid =? ByteaOID then (KDirect, VPtr (str "[]uint8") (VBytes None []))
  else if oid =? CIDOID then (KValue, zero_struct "pgtype.CID")
  else if oid =? DateOID then (KValue, zero_struct "pgtype.Date")
  else if oid =? Float4OID then (KFloat64, VPtr (str "float32") (VFloat32 None (SpecFloat.S754_zero false)))
  else if oid =? Float8OID then (KDirect, VPtr (str "float64") (VFloat64 None (SpecFloat.S754_zero false)))
  else if oid =? Int2OID then (KInt64of, VPtr (str "int16") (VInt KInt16 None 0))
  else if oid =? Int4OID then (KInt64of, VPtr (str "int32") (VInt KInt32 None 0))
  else if oid =? Int8OID then (KDirect, VPtr (str "int64") (VInt KInt64 None 0))
  else if oid =? JSONOID then (KValue, zero_struct "pgtype.JSON")
  else if oid =? JSONBOID then (KValue, zero_struct "pgtype.JSONB")
  else if oid =? OIDOID then (KValue, zero_struct "pgtype.OIDValue")
  else if oid =? TimestampOID then (KValue, zero_struct "pgtype.Timestamp")
  else if oid =? TimestamptzOID then (KValue, zero_struct "pgtype.Timestamptz")
  else if oid =? XIDOID then (KValue, zero_struct "pgtype.XID")
  else (KDirect, VPtr (str "string") (VString None [])).

Fixpoint make_value_funcs (fds : list FieldDescription) : M world (list rowValueFunc) :=
  match fds with
  | [] => ret []
  | fd :: fds' =>
      let '(kind, dst) := column_variable (DataTypeOID fd) in
      let* p := call (RPlanScan (DataTypeOID fd) (Format fd) dst) in
      let* rest := make_value_funcs fds' in
      ret (mkValueFunc kind p (DataTypeOID fd) (Format fd) dst :: rest)
  end.

Definition missing_Value : gostring := str "missing method Value".

(** The value returned for the scanned variable [d]. *)
Definition driver_value (kind : value_kind) (d : goval) : comp (error + goval) :=
  match kind with
  | KDirect => Done (inr d)
  | KFloat64 => Done (inr match d with VFloat32 _ f => VFloat64 None (float64_of_float32 f) | _ => d end)
  | KInt64of => Done (inr match d with VInt _ _ z => VInt KInt64 None z | _ => d end)
  | KValue =>
      match as_Valuer d with
      | Some r => Done r
      | None => Crash missing_Value
      end
  end.

Definition run_value_func (f : rowValueFunc) (src : gostring) : M world (error + goval) :=
  let* r := call (RScanInto (vf_plan f) (vf_oid f) (vf_format f) (Some src) (vf_dst f)) in
  match r with
  | inl e => ret (inl e)
  | inr d => lift (driver_value (vf_kind f) d)
  end.

Definition convert_failed (i : nat) (e : error) : error :=
  FormatError (str "convert field " ++ FormatInt (Z.of_nat i) ++ str " failed: ") e.

(** [dest] is written up to the column that fails; its own entry, which
    nobody reads after an error, is left as it was. *)
Fixpoint convert_row (i : nat) (fs : list rowValueFunc) (vs : list (option gostring)) (dest : list goval)
  : M world (option error * list goval) :=
  match vs with
  | [] => ret (None, dest)
  | v :: vs' =>
      if (length dest <=? i)%nat then panic index_out_of_range
      else match v with
      | None => convert_row (S i) fs vs' (<[i := VNil]> dest)
      | Some src =>
          match fs !! i with
          | None => panic index_out_of_range
          | Some f =>
              let* r := run_value_func f src in
              match r with
              | inl e => ret (Some (convert_failed i e), dest)
              | inr a => convert_row (S i) fs vs' (<[i := a]> dest)
              end
          end
      end
  end.

Definition ensure_value_funcs (r : nat) : M sqlConn (list rowValueFunc) :=
  let* fds := sql_fields r in
  let* x := read_sql_rows r in
  match valueFuncs x with
  | Some fs => ret fs
  | None =>
      let* fs := on_pgx (make_value_funcs fds) in
      write_sql_rows r (mkSqlRows (r_rows x) (Some fs) (skipNext x) (skipNextMore x) (columnNames x)) ;;;
      ret fs
  end.

(** The row that [QueryContext] read is not read again. *)
Definition advance_row (r : nat) : M sqlConn bool :=
  let* x := read_sql_rows r in
  if skipNext x then
    write_sql_rows r (mkSqlRows (r_rows x) (valueFuncs x) false (skipNextMore x) (columnNames x)) ;;;
    ret (skipNextMore x)
  else on_pgx (rows_Next (r_rows x)).

Definition sql_rows_Next (r : nat) (dest : list goval) : M sqlConn (option error * list goval) :=
  let* fs := ensure_value_funcs r in
  let* more := advance_row r in
  let* x := read_sql_rows r in
  if more then
    let* vs := on_pgx (rows_RawValues (r_rows x)) in
    on_pgx (convert_row 0 fs vs dest)
  else
    let* err := on_pgx (rows_Err (r_rows x)) in
    match err with
    | None => ret (Some EOF, dest)
    | Some _ => ret (err, dest)
    end.

End SqlDriver.

(** ** AcquireConn and ReleaseConn *)

(** The connections of a [sql.DB] are numbered, and so are its transactions.
    [db] is the rest of the state of the [sql.DB]. *)
Section Borrowing.
Context `{PgConn} {db : Type}.

Record dbState := mkDb { db_rest : db; pgx_conns : gmap nat world; fakeTxConns : gmap nat nat }.

(** [db.BeginTx] with the context that carries the address of [conn]: the
    transaction, and the connection its driver stored there, if it is pgx.  The
    [sql.DB] may open a connection for it. *)
Context (db_BeginTx : db -> gmap nat world -> (error + (nat * option nat)) * db * gmap nat world).
(** [tx.Rollback] returns the connection to the [sql.DB], which may close it. *)
Context (db_Rollback : nat -> db -> gmap nat world -> option error * db * gmap nat world).

Definition rollback_tx (tx : nat) : M dbState (option error) := fun s =>
  let '(e, d, conns) := db_Rollback tx (db_rest s) (pgx_conns s) in Ok e (mkDb d conns (fakeTxConns s)).

Definition AcquireConn : M dbState (error + nat) := fun s =>
  let '(r, d, conns) := db_BeginTx (db_rest s) (pgx_conns s) in
  let s1 := mkDb d conns (fakeTxConns s) in
  match r with
  | inl e => Ok (inl e) s1
  | inr (tx, None) => (rollback_tx tx ;;; ret (inl ErrNotPgx)) s1
  | inr (tx, Some c) => Ok (inr c) (mkDb d conns (<[c := tx]> (fakeTxConns s)))
  end.

Definition not_acquired : error := errors_New "can't release conn that is not acquired".

(** A connection that is busy or inside a transaction is closed first. *)
Definition close_unless_idle (c : nat) : M dbState unit := fun s =>
  match pgx_conns s !! c with
  | None => Panicked nil_dereference s
  | Some w =>
      if pg_IsBusy (outside w) || negb (bool_decide (TxStatus (outside w) = "I"%char)) then
        match Conn_Close (WithTimeout Background Second) w with
        | Ok _ w' => Ok tt (mkDb (db_rest s) (<[c := w']> (pgx_conns s)) (fakeTxConns s))
        | Panicked msg w' => Panicked msg (mkDb (db_rest s) (<[c := w']> (pgx_conns s)) (fakeTxConns s))
        | OutOfFuel => OutOfFuel
        end
      else Ok tt s
  end.

Definition ReleaseConn (c : nat) : M dbState (option error) :=
  close_unless_idle c ;;;
  let* tx := gets (fun s => fakeTxConns s !! c) in
  match tx with
  | Some tx =>
      modify (fun s => mkDb (db_rest s) (pgx_conns s) (delete c (fakeTxConns s))) ;;;
      rollback_tx tx
  | None => ret (Some not_acquired)
  end.

End Borrowing.
