(* ===== verification/SqlSpec.v ===== *)
(** Properties of the driver for database/sql. *)

From S2P Require Import Prelude GoStd GoVal GoDuration Effects Values PgConn Logger World Toy Rows Config Conn ConnSpec.
From S2P Require Import Batch CopyFrom Tx SqlDriver.

Local Open Scope Z_scope.

(** ** The order of the hosts *)

Lemma swap_perm {A} i j (l : list A) : swap i j l ≡ₚ l.
Proof.
  unfold swap. destruct (l !! i) eqn:Hi, (l !! j) eqn:Hj; try done. by apply Permutation_insert_swap.
Qed.

Lemma Shuffle_perm {A} draw i (l : list A) : Shuffle draw i l ≡ₚ l.
Proof. revert l. induction i as [|i IH]; intros l; [done|]. cbn [Shuffle]. by rewrite IH, swap_perm. Qed.

Lemma swap_lookup_ne {A} i j k (l : list A) : k <> i -> k <> j -> swap i j l !! k = l !! k.
Proof.
  intros Hi Hj. unfold swap. destruct (l !! i), (l !! j); try done.
  by rewrite !list_lookup_insert_ne by congruence.
Qed.

Lemma swap_lookup {A} i j (l : list A) :
  (i < length l)%nat -> (j < length l)%nat -> swap i j l !! i = l !! j.
Proof.
  intros [x Hi]%lookup_lt_is_Some_2 [y Hj]%lookup_lt_is_Some_2. unfold swap. rewrite Hi, Hj.
  destruct (decide (i = j)) as [<-|Hij].
  - simplify_eq. rewrite list_lookup_insert_eq; [done|]. rewrite length_insert. by eapply lookup_lt_Some.
  - rewrite list_lookup_insert_ne by done. apply list_lookup_insert_eq. by eapply lookup_lt_Some.
Qed.

(** The rounds that are left do not touch the indices above. *)
Lemma Shuffle_above {A} draw i k (l : list A) : (i < k)%nat -> Shuffle draw i l !! k = l !! k.
Proof.
  revert l. induction i as [|i IH]; intros l Hk; [done|]. cbn [Shuffle]. rewrite IH by lia.
  pose proof (Nat.mod_upper_bound (draw (S i)) (S (S i)) ltac:(done)). apply swap_lookup_ne; lia.
Qed.

Lemma Shuffle_top {A} draw i (l : list A) :
  length l = S i -> Shuffle draw i l !! i = l !! (draw i mod S i)%nat.
Proof.
  intros Hl. destruct i as [|i].
  { simpl. by replace (draw 0%nat mod 1)%nat with 0%nat by (by rewrite Nat.mod_1_r). }
  cbn [Shuffle]. rewrite Shuffle_above by lia.
  pose proof (Nat.mod_upper_bound (draw (S i)) (S (S i)) ltac:(done)). apply swap_lookup; lia.
Qed.

Lemma Randomize_spec draw c :
  Fallbacks c <> [] ->
  let l := Shuffle draw (length (Fallbacks c)) (primary c :: Fallbacks c) in
  exists h, l = Fallbacks (RandomizeHostOrderFunc draw c) ++ [h]
    /\ primary (RandomizeHostOrderFunc draw c) = h
    /\ (primary c :: Fallbacks c) !! (draw (length (Fallbacks c)) mod S (length (Fallbacks c)))%nat = Some h.
Proof.
  intros Hf l. unfold RandomizeHostOrderFunc. destruct (Fallbacks c) as [|f fs] eqn:E; [done|].
  set (n := length (f :: fs)) in *. fold l.
  assert (length l = S n) as Hl by (unfold l; by rewrite Shuffle_perm).
  destruct (last l) as [h|] eqn:Hlast; [|apply last_None in Hlast; by rewrite Hlast in Hl].
  exists h. apply last_Some in Hlast as [l' El]. simpl.
  assert (length l' = n) as Hl' by (rewrite El, length_app in Hl; simpl in Hl; lia).
  split; [|split; [done|]].
  - rewrite El at 2 3. rewrite length_app. simpl. rewrite Nat.add_sub, take_app_length. done.
  - unfold l in El. transitivity (Shuffle draw n (primary c :: f :: fs) !! n).
    { symmetry. by apply Shuffle_top. }
    rewrite El, lookup_app_r, Hl', Nat.sub_diag by lia. done.
Qed.

Lemma Randomize_single draw c : Fallbacks c = [] -> RandomizeHostOrderFunc draw c = c.
Proof. unfold RandomizeHostOrderFunc. by intros ->. Qed.

(** Randomizing the order of the hosts loses and invents none, whatever is
    drawn, and each of the hosts is made the first one by some draw. *)
Theorem RandomizeHostOrder_permutes c :
  (forall draw, let r := RandomizeHostOrderFunc draw c in
     primary r :: Fallbacks r ≡ₚ primary c :: Fallbacks c)
  /\ (forall h, h ∈ primary c :: Fallbacks c -> exists draw, primary (RandomizeHostOrderFunc draw c) = h).
Proof.
  split.
  - intros draw r. destruct (decide (Fallbacks c = [])) as [E|Hf].
    { unfold r. by rewrite Randomize_single. }
    destruct (Randomize_spec draw c Hf) as (h & E & Hh & _). fold r in E, Hh. rewrite Hh.
    rewrite <- (Shuffle_perm draw (length (Fallbacks c)) (primary c :: Fallbacks c)), E. apply Permutation_cons_append.
  - intros h [i Hi]%list_elem_of_lookup. exists (fun _ => i).
    destruct (decide (Fallbacks c = [])) as [E|Hf].
    + rewrite Randomize_single by done. rewrite E in Hi. destruct i; [by injection Hi|done].
    + destruct (Randomize_spec (fun _ => i) c Hf) as (h' & _ & -> & Hh).
      rewrite Nat.mod_small in Hh by (apply lookup_lt_Some in Hi; simpl in Hi; lia). congruence.
Qed.

(** ** The registry *)

(** The names that are registered have numbers below the counter. *)
Definition driver_ok (d : Driver) : Prop :=
  0 <= sequence d < 2 ^ 63 - 1
  /\ forall k, is_Some (configs d !! k) -> exists n, 0 <= n < sequence d /\ k = registered_name n.

Lemma registered_name_inj a b : registered_name a = registered_name b -> a = b.
Proof. intros E%app_inv_head. by apply FormatInt_inj. Qed.

(** A registered configuration is the one that is used for the name it was
    registered under; registering replaces none of the others, and
    unregistering gives back the registry there was.  The new registry is again
    one, as long as the counter does not wrap around. *)
Theorem register_roundtrip pg_Parse c d :
  driver_ok d ->
  let '(name, d') := registerConnConfig c d in
  configs d !! name = None
  /\ config_for pg_Parse d' name = inr c
  /\ (forall other, other <> name -> config_for pg_Parse d' other = config_for pg_Parse d other)
  /\ configs (unregisterConnConfig name d') = configs d
  /\ (sequence d < 2 ^ 63 - 2 -> driver_ok d').
Proof.
  intros [Hs Hk]. simpl. unfold config_for. simpl.
  assert (configs d !! registered_name (sequence d) = None) as Hn.
  { destruct (configs d !! _) eqn:E; [|done]. destruct (Hk _ (mk_is_Some _ _ E)) as (n & Hn & En).
    apply registered_name_inj in En. lia. }
  split; [done|]. split; [by rewrite lookup_insert_eq|]. split; [|split].
  - intros other Ho. by rewrite lookup_insert_ne by congruence.
  - rewrite delete_insert_eq. by apply delete_id.
  - intros Hlt. unfold driver_ok. simpl. unfold int64. rewrite wrap_s_id by (unfold in_s; lia).
    split; [lia|]. intros k [x Hx]. destruct (decide (k = registered_name (sequence d))) as [->|Hne].
    + exists (sequence d). split; [lia|done].
    + rewrite lookup_insert_ne in Hx by congruence. destruct (Hk k (mk_is_Some _ _ Hx)) as (n & Hn' & ->).
      exists n. split; [lia|done].
Qed.

(** ** Numeric columns *)

Lemma int32_sub a b : int32 (int32 a - b) = int32 (a - b).
Proof.
  unfold int32, wrap_s. f_equal. change (32 - 1) with 31.
  replace ((a + 2 ^ 31) mod 2 ^ 32 - 2 ^ 31 - b + 2 ^ 31) with ((a + 2 ^ 31) mod 2 ^ 32 - b) by lia.
  rewrite Zminus_mod_idemp_l. f_equal. lia.
Qed.

Lemma lor_halves p s : 0 <= p -> 0 <= s < 2 ^ 16 -> Z.lor (Z.shiftl p 16) s = p * 65536 + s.
Proof.
  intros Hp Hs. pose proof (Z.add_lor_land (Z.shiftl p 16) s) as E.
  assert (Z.land (Z.shiftl p 16) s = 0) as L.
  2: { rewrite L in E. pose proof (Z.shiftl_mul_pow2 p 16 ltac:(lia)). lia. }
  apply Z.bits_inj'. intros n Hn. rewrite Z.land_spec, Z.bits_0, Z.shiftl_spec by done.
  destruct (Z.ltb_spec n 16).
  - by rewrite Z.testbit_neg_r by lia.
  - rewrite <- (Z.mod_small s (2 ^ 16)) by done. by rewrite Z.mod_pow2_bits_high, andb_false_r by lia.
Qed.

(** The precision and scale of a numeric column are read back from the type
    modifier PostgreSQL makes of them. *)
Theorem precision_scale_roundtrip fd p s :
  DataTypeOID fd = NumericOID -> 0 <= p < 2 ^ 15 -> 0 <= s < 2 ^ 16 ->
  TypeModifier fd = int32 (Z.lor (Z.shiftl p 16) s + varHeaderSize) ->
  precision_scale fd = (p, s, true).
Proof.
  intros Ho Hp Hs Ht. unfold precision_scale. rewrite Ho, Ht, int32_sub, Z.add_simpl_r, lor_halves by lia.
  simpl (_ =? _). cbv iota zeta. unfold int32. rewrite wrap_s_id by (unfold in_s; lia).
  change 65535 with (Z.ones 16). rewrite !Z.land_ones, Z.shiftr_div_pow2 by lia.
  change (2 ^ 16) with 65536 in *. rewrite Z.div_add_l, Z.div_small, Z.add_0_r by lia.
  rewrite (Z.mod_small p) by lia. rewrite Z.add_comm, Z.mod_add, Z.mod_small by lia. done.
Qed.

Section Driver.
Context `{PgTypes} `{PgConn} `{!PgDecoders}.
Context (SafeToRetry : error -> bool) (appID : context -> option gostring) (isFakeTx : context -> bool).
Context (fuel : nat).

(** ** Closed connections *)

Lemma with_pgx_same c : with_pgx (sc_conn c) c = c.
Proof. by destruct c. Qed.

Lemma unless_closed_run {A} (bad : A) m c :
  unless_closed bad m c = if pg_IsClosed (outside (sc_conn c)) then Ok bad c else m c.
Proof.
  unfold unless_closed, bind, on_pgx, IsClosed, observe, gets. simpl. rewrite with_pgx_same.
  by destruct (pg_IsClosed _).
Qed.

(** On a closed connection every operation returns [driver.ErrBadConn], by
    which database/sql takes another one, and does nothing. *)
Theorem closed_is_bad c :
  pg_IsClosed (outside (sc_conn c)) = true ->
  (forall ctx q, PrepareContext ctx q c = Ok (inl ErrBadConn) c)
  /\ (forall ctx o, Sql_BeginTx isFakeTx fuel ctx o c = Ok (inl ErrBadConn) c)
  /\ (forall depth ctx q args, ExecContext SafeToRetry appID fuel (S depth) ctx q args c
        = Ok (None, Some ErrBadConn) c)
  /\ (forall depth ctx q args, QueryContext SafeToRetry appID fuel depth ctx q args c
        = Ok (inl ErrBadConn) c)
  /\ (forall ctx, Sql_Ping fuel ctx c = Ok (Some ErrBadConn) c)
  /\ (forall ctx, ResetSession ctx c = Ok (Some ErrBadConn) c).
Proof.
  intros Hc. split_and!; intros; first [cbn [ExecContext]; rewrite unless_closed_run | idtac];
    unfold PrepareContext, Sql_BeginTx, QueryContext, Sql_Ping, ResetSession;
    rewrite ?unless_closed_run, Hc; reflexivity.
Qed.

(** ** The schema of the context *)

(** The statement that sets the schema is itself one that has its schema set
    first. *)
Lemma schema_again app : HasPrefix (schema_injection app) set_schema_prefix = true.
Proof. apply (HasPrefix_app set_schema_prefix (str "'" ++ app ++ str "';")). Qed.

Lemma set_schema_diverges depth ctx q args app c :
  appID ctx = Some app -> pg_IsClosed (outside (sc_conn c)) = false ->
  HasPrefix q set_schema_prefix = true ->
  ExecContext SafeToRetry appID fuel depth ctx q args c = OutOfFuel.
Proof.
  intros Ha Hc. revert q args. induction depth as [|d IH]; intros q args Hq; [done|].
  cbn [ExecContext]. rewrite unless_closed_run, Hc. unfold CheckSetSchemaCtx, bind. rewrite Hq, Ha.
  by rewrite IH by apply schema_again.
Qed.

(** C27. With an ["appID"] in the context a statement that begins with "set
    schema " never returns on an open connection: whatever bound is put on the
    recursion of [ExecContext] and [CheckSetSchemaCtx], it is exceeded, and
    nothing is sent to the server on the way. *)
Theorem set_schema_never_returns ctx rest args app c :
  appID ctx = Some app -> pg_IsClosed (outside (sc_conn c)) = false ->
  forall depth,
    ExecContext SafeToRetry appID fuel depth ctx (set_schema_prefix ++ rest) args c = OutOfFuel
    /\ QueryContext SafeToRetry appID fuel depth ctx (set_schema_prefix ++ rest) args c = OutOfFuel.
Proof.
  intros Ha Hc depth. split.
  - apply (set_schema_diverges depth ctx _ args app c Ha Hc). apply HasPrefix_app.
  - unfold QueryContext. rewrite unless_closed_run, Hc. unfold CheckSetSchemaCtx, bind.
    rewrite HasPrefix_app, Ha.
    by rewrite (set_schema_diverges depth ctx _ [] app c Ha Hc (schema_again app)).
Qed.

(** The part of the pgx connection in a result. *)
Definition pgx_result {A} (r : result sqlConn A) : result world A :=
  match r with
  | Ok a c => Ok a (sc_conn c)
  | Panicked msg c => Panicked msg (sc_conn c)
  | OutOfFuel => OutOfFuel
  end.

Lemma namedValue_same args : namedValueToInterface args = args.
Proof. unfold namedValueToInterface. rewrite <- (map_id args) at 2. apply map_ext. by intros []. Qed.

Lemma no_schema_set exec ctx q c :
  HasPrefix q set_schema_prefix = false \/ appID ctx = None ->
  CheckSetSchemaCtx SafeToRetry appID exec q ctx c = Ok None c.
Proof. unfold CheckSetSchemaCtx. intros [-> | ->]; [done|]. by destruct (HasPrefix q _). Qed.

(** ** Reading rows *)

(** What a client of database/sql reads: the rows that [Next] gives until it
    returns an error, and that error, which is [io.EOF] after the last row. *)
Fixpoint read_sql (n : nat) (r : nat) (dest : list goval) : M sqlConn (list (list goval) * error) :=
  match n with
  | O => out_of_fuel
  | S k =>
      let* '(err, row) := sql_rows_Next r dest in
      match err with
      | Some e => ret ([], e)
      | None => let* '(rows, e) := read_sql k r dest in ret (row :: rows, e)
      end
  end.

(** The loop over the result set of pgx, whose [Next] has just returned
    [more]. *)
Fixpoint read_from (n : nat) (p : nat) (fs : list rowValueFunc) (more : bool) (dest : list goval)
  : M world (list (list goval) * error) :=
  match n with
  | O => out_of_fuel
  | S k =>
      if more then
        let* vs := rows_RawValues p in
        let* '(err, row) := convert_row 0 fs vs dest in
        match err with
        | Some e => ret ([], e)
        | None =>
            let* more := rows_Next p in
            let* '(rows, e) := read_from k p fs more dest in ret (row :: rows, e)
        end
      else let* err := rows_Err p in ret ([], default EOF err)
  end.

Definition query_sql (depth n : nat) (ctx : context) (q : gostring) (args dest : list goval)
  : M sqlConn (error + list (list goval) * error) :=
  let* r := QueryContext SafeToRetry appID fuel depth ctx q args in
  match r with
  | inl e => ret (inl e)
  | inr r => let* x := read_sql n r dest in ret (inr x)
  end.

(** The same with pgx alone: the query, the functions that convert its
    columns, made once, and the loop. *)
Definition query_pgx (n : nat) (ctx : context) (q : gostring) (args dest : list goval)
  : M world (error + list (list goval) * error) :=
  let* closed := IsClosed in
  if closed then ret (inl ErrBadConn)
  else
    let* '(p, err) := Conn_Query fuel ctx q (VResultFormatsByOID (Some databaseSQLResultFormats) :: args) in
    match err with
    | Some e => ret (inl (if SafeToRetry e then ErrBadConn else e))
    | None =>
        let* more := rows_Next p in
        let* err := rows_Err p in
        match err with
        | Some e => rows_Close p ;;; ret (inl e)
        | None =>
            let* fds := rows_FieldDescriptions p in
            let* fs := make_value_funcs fds in
            let* x := read_from n p fs more dest in ret (inr x)
        end
    end.

Lemma quiet_convert_row i fs vs dest : keeps quiet (convert_row i fs vs dest).
Proof.
  revert i dest. induction vs as [|[src|] vs IH]; intros i dest; cbn [convert_row]; unfold run_value_func; keeps_tac.
Qed.

Lemma quiet_make_value_funcs fds : keeps quiet (make_value_funcs fds).
Proof.
  induction fds as [|fd fds IH]; cbn [make_value_funcs]; [keeps_tac|].
  destruct (column_variable _). keeps_tac.
Qed.

(** [on_pgx] runs the program of pgx and leaves the rest alone. *)
Lemma on_pgx_run {A} (m : M world A) c :
  on_pgx m c = match m (sc_conn c) with
               | Ok a w => Ok a (with_pgx w c)
               | Panicked msg w => Panicked msg (with_pgx w c)
               | OutOfFuel => OutOfFuel
               end.
Proof. done. Qed.

(** The rest of [Next] once it is known whether there is a row. *)
Definition sql_row (r : nat) (fs : list rowValueFunc) (more : bool) (dest : list goval)
  : M sqlConn (option error * list goval) :=
  let* x := read_sql_rows r in
  if more then let* vs := on_pgx (rows_RawValues (r_rows x)) in on_pgx (convert_row 0 fs vs dest)
  else
    let* err := on_pgx (rows_Err (r_rows x)) in
    match err with
    | None => ret (Some EOF, dest)
    | Some _ => ret (err, dest)
    end.

Definition read_row (n r : nat) (fs : list rowValueFunc) (more : bool) (dest : list goval)
  : M sqlConn (list (list goval) * error) :=
  let* '(err, row) := sql_row r fs more dest in
  match err with
  | Some e => ret ([], e)
  | None => let* '(rows, e) := read_sql n r dest in ret (row :: rows, e)
  end.

(** A result set of database/sql in use: the functions of its columns are made
    and the row read in advance is used up. *)
Definition reading (r p : nat) (fs : list rowValueFunc) (c : sqlConn) : Prop :=
  (exists more names, sc_rowss c !! r = Some (mkSqlRows p (Some fs) false more names))
  /\ (exists x, rws (sc_conn c) !! p = Some x /\ rows_wf x /\ resultReader x <> None).

Lemma reading_moved r p fs c x x' w' :
  reading r p fs c -> rws (sc_conn c) !! p = Some x -> moved p x (sc_conn c) x' w' -> rows_wf x' ->
  reading r p fs (with_pgx w' c).
Proof.
  intros [Hr (x0 & Hx & _ & Hn)] Hw M1 Hwf. split; [done|]. exists x'.
  split; [by eapply moved_lookup|]. split; [done|].
  destruct M1 as (_ & _ & _ & _ & _ & -> & _). congruence.
Qed.

Lemma reading_quiet r p fs c w' : reading r p fs c -> quiet (sc_conn c) w' -> reading r p fs (with_pgx w' c).
Proof. intros [Hr Hx] [E _]. split; [done|]. simpl. by rewrite E. Qed.

Lemma reading_Next r p fs c :
  reading r p fs c ->
  exists more w', rows_Next p (sc_conn c) = Ok more w' /\ reading r p fs (with_pgx w' c).
Proof.
  intros Hc. destruct (id Hc) as [_ (x & Hx & Hwf & _)].
  assert (wp (rows_Next p) (sc_conn c) (fun _ w' => reading r p fs (with_pgx w' c))) as Hwp.
  { apply (wp_rows_Next _ _ x); [done|done|]. intros b x' w' M1 Hwf' _ _. by eapply reading_moved. }
  unfold wp in Hwp. destruct (rows_Next p (sc_conn c)); [eauto|done|done].
Qed.

(** When the functions are there, [Next] advances and gives the row. *)
Lemma Next_reading n r p fs dest c :
  reading r p fs c ->
  read_sql (S n) r dest c = bind (on_pgx (rows_Next p)) (fun more => read_row n r fs more dest) c.
Proof.
  intros [(more & names & Hr) (x & Hx & _ & Hn)]. unfold read_row. cbn [read_sql].
  unfold sql_rows_Next, ensure_value_funcs, advance_row, sql_fields, sql_row, bind, read_sql_rows.
  rewrite Hr. cbn [r_rows]. unfold on_pgx at 1, rows_FieldDescriptions, bind, read_rows, read_at. rewrite Hx.
  destruct (resultReader x) as [rr|]; [|done]. unfold observe, gets. simpl. rewrite with_pgx_same, Hr. simpl. rewrite ?Hr. simpl.
  destruct (on_pgx (rows_Next p) c); reflexivity.
Qed.

Lemma read_row_from n r p fs more dest c :
  (forall c, reading r p fs c ->
     pgx_result (read_sql n r dest c) = bind (rows_Next p) (fun more => read_from n p fs more dest) (sc_conn c)) ->
  reading r p fs c ->
  pgx_result (read_row n r fs more dest c) = read_from (S n) p fs more dest (sc_conn c).
Proof.
  intros IH Hc. destruct (id Hc) as [(more0 & names & Hr) (x & Hx & _)].
  assert (read_sql_rows r c = Ok (mkSqlRows p (Some fs) false more0 names) c) as Hread
    by (unfold read_sql_rows; by rewrite Hr).
  assert (read_rows p (sc_conn c) = Ok x (sc_conn c)) as Hrows by (by apply read_at_run).
  unfold read_row, sql_row, rows_RawValues, rows_Err, bind. rewrite Hread. cbn [r_rows read_from].
  destruct more; unfold rows_RawValues, rows_Err, bind, on_pgx; rewrite Hrows; simpl; rewrite with_pgx_same.
  - pose proof (quiet_convert_row 0 fs (values x) dest (sc_conn c)) as Hq.
    destruct (convert_row 0 fs (values x) dest (sc_conn c)) as [[[e|] row] w|msg w|]; simpl; try done.
    apply (reading_quiet _ _ _ _ _ Hc) in Hq. specialize (IH _ Hq). simpl in IH. unfold bind in IH.
    destruct (read_sql n r dest _) as [[? ?] ?|? ?|]; simpl in *;
      destruct (rows_Next p w) as [more' w1|? ?|]; try done;
      destruct (read_from n p fs more' dest w1) as [[? ?] ?|? ?|]; simplify_eq/=; done.
  - by destruct (rows_err x).
Qed.

Lemma read_sql_from n r p fs dest c :
  reading r p fs c ->
  pgx_result (read_sql n r dest c) = bind (rows_Next p) (fun more => read_from n p fs more dest) (sc_conn c).
Proof.
  revert c. induction n as [|n IH]; intros c Hc; destruct (reading_Next _ _ _ _ Hc) as (more & w' & E & Hc').
  - unfold bind. by rewrite E.
  - rewrite (Next_reading n r p fs dest c Hc). unfold bind, on_pgx. rewrite E.
    by apply (read_row_from n r p fs more dest (with_pgx w' c)).
Qed.

(** A result set [QueryContext] has just returned, over the rows [x] of pgx. *)
Definition fresh_rows (r p : nat) (more : bool) (c : sqlConn) : Prop :=
  sc_rowss c !! r = Some (mkSqlRows p None true more None)
  /\ exists x, rws (sc_conn c) !! p = Some x /\ rows_wf x.

Lemma read_fresh n r p more dest c :
  fresh_rows r p more c ->
  pgx_result (read_sql (S n) r dest c)
  = (let* fds := rows_FieldDescriptions p in
     let* fs := make_value_funcs fds in read_from (S n) p fs more dest) (sc_conn c).
Proof.
  intros [Hr (x & Hx & Hwf)]. cbn [read_sql].
  assert (read_rows p (sc_conn c) = Ok x (sc_conn c)) as Hrows by (by apply read_at_run).
  unfold sql_rows_Next, ensure_value_funcs, sql_fields, bind, read_sql_rows. rewrite Hr. cbn [r_rows].
  rewrite on_pgx_run. unfold rows_FieldDescriptions, bind. rewrite Hrows.
  destruct (resultReader x) as [rr|] eqn:Hrr; [|done]. unfold observe, gets. cbv beta iota.
  rewrite with_pgx_same, Hr. cbn [valueFuncs]. rewrite on_pgx_run.
  pose proof (quiet_make_value_funcs (rr_FieldDescriptions (outside (sc_conn c)) rr) (sc_conn c)) as Hq.
  destruct (make_value_funcs _ (sc_conn c)) as [fs w|msg w|]; [|done|done].
  rewrite <- (read_row_from n r p fs more dest (with_rowss (<[r := mkSqlRows p (Some fs) false more None]> (sc_rowss c)) (with_pgx w c))).
  3: { split; [do 2 eexists; simpl; by rewrite list_lookup_insert_eq by by eapply lookup_lt_Some|].
       exists x. simpl. destruct Hq as [-> _]. by rewrite Hrr. }
  2: { intros c' Hc'. by apply read_sql_from. }
  f_equal. unfold read_row, sql_row, advance_row, bind, write_sql_rows, modify, read_sql_rows. simpl.
  assert (r < length (sc_rowss c))%nat as Hlen by by eapply lookup_lt_Some.
  rewrite !list_lookup_insert_eq by done. simpl.
  rewrite list_insert_insert_eq, !list_lookup_insert_eq by done. reflexivity.
Qed.

(** The query of database/sql, when the context sets no schema, is the one of
    pgx, and the result set it returns is fresh. *)
Lemma QueryContext_run depth ctx q args c :
  HasPrefix q set_schema_prefix = false \/ appID ctx = None -> pg_IsClosed (outside (sc_conn c)) = false ->
  QueryContext SafeToRetry appID fuel depth ctx q args c
  = (let* '(p, err) := on_pgx (Conn_Query fuel ctx q (VResultFormatsByOID (Some databaseSQLResultFormats) :: args)) in
     match err with
     | Some e => if SafeToRetry e then ret (inl ErrBadConn) else ret (inl e)
     | None =>
         let* more := on_pgx (rows_Next p) in
         let* err := on_pgx (rows_Err p) in
         match err with
         | Some e => on_pgx (rows_Close p) ;;; ret (inl e)
         | None => let* r := new_sql_rows (mkSqlRows p None true more None) in ret (inr r)
         end
     end) c.
Proof.
  intros Hq Hc. unfold QueryContext. rewrite unless_closed_run, Hc. rewrite namedValue_same.
  assert (CheckSetSchemaCtx SafeToRetry appID (ExecContext SafeToRetry appID fuel depth) q ctx c = Ok None c) as E.
  { by apply no_schema_set. }
  by rewrite (bind_eq _ _ _ _ _ E).
Qed.

(** C11. Reading a query to its end through database/sql gives the rows, the
    final error and the traffic with the server that reading the result set of
    pgx in a plain loop gives, although [QueryContext] reads the first row in
    advance: no row is lost and none is read twice. *)
Theorem rows_read_equivalent depth n ctx q args dest c :
  HasPrefix q set_schema_prefix = false \/ appID ctx = None ->
  pgx_result (query_sql depth (S n) ctx q args dest c) = query_pgx (S n) ctx q args dest (sc_conn c).
Proof.
  intros Hq. remember (S n) as m eqn:Em. unfold query_sql, query_pgx, IsClosed, observe, gets, bind.
  destruct (pg_IsClosed (outside (sc_conn c))) eqn:Hc.
  { unfold QueryContext. by rewrite unless_closed_run, Hc. }
  rewrite QueryContext_run by done. unfold bind. rewrite on_pgx_run.
  destruct (Conn_Query fuel ctx q _ (sc_conn c)) as [[p [e|]] w|msg w|] eqn:Eq; [by destruct (SafeToRetry e)| |done|done].
  apply Query_result_ok in Eq as [_ (x & Hx & He & Hwf & _)].
  assert (wp (rows_Next p) w (fun _ w' => exists x, rws w' !! p = Some x /\ rows_wf x)) as Hwp.
  { apply (wp_rows_Next _ _ x); [done|done|]. intros b x' w' M1 Hwf' _ _. exists x'.
    split; [by eapply moved_lookup|done]. }
  unfold bind, on_pgx. cbn [sc_conn with_pgx]. unfold wp in Hwp.
  destruct (rows_Next p w) as [more w1|? ?|]; [|done|done]. destruct Hwp as (x1 & Hx1 & Hwf1).
  unfold rows_Err, bind. simpl. rewrite (read_at_run rws p w1 x1 Hx1 : read_rows p w1 = _). simpl.
  destruct (rows_err x1) as [e|]; simpl.
  { by destruct (rows_Close p w1). }
  set (c1 := with_rowss _ _).
  assert (fresh_rows (length (sc_rowss c)) p more c1) as Hf.
  { split; simpl; [by apply list_lookup_middle|eauto]. }
  pose proof (read_fresh n (length (sc_rowss c)) p more dest c1 Hf) as E.
  rewrite <- Em in E. change (sc_conn c1) with w1 in E. unfold bind in E.
  clear Em. destruct (read_sql m _ dest c1); destruct (rows_FieldDescriptions p w1) as [fds w2|? ?|]; simplify_eq/=; try done;
    destruct (make_value_funcs fds w2) as [fs w3|? ?|]; simplify_eq/=; try done;
    destruct (read_from m p fs more dest w3); by simplify_eq/=.
Qed.
End Driver.

(** ** Connections that are refused *)

(** When [AfterConnect] refuses a connection nobody closes it: it is left as
    the hook left it. *)
Lemma refused_connection_left_open `{PgConn} pg_ConnectConfig c ctx cfg ev w e w' :
  co_BeforeConnect c ctx (co_ConnConfig c) = (None, cfg) ->
  connect pg_ConnectConfig ctx cfg = Ret (ev, inr w) ->
  co_AfterConnect c ctx w = Ok (Some e) w' ->
  connector_Connect pg_ConnectConfig c ctx = Done (inl e, Some w').
Proof. unfold connector_Connect. intros -> -> E. simpl. by rewrite E. Qed.

(** ** Borrowed connections *)

Section Borrowing.
Context `{PgConnLaws} {db : Type}.
Context (db_BeginTx : db -> gmap nat world -> (error + (nat * option nat)) * db * gmap nat world).
Context (db_Rollback : nat -> db -> gmap nat world -> option error * db * gmap nat world).
(** The object of a connection stays where it is, also when the [sql.DB] closes
    the connection. *)
Hypothesis conns_stay : forall tx d m c, is_Some (m !! c) -> is_Some ((db_Rollback tx d m).2 !! c).

(** The connection after [close_unless_idle]. *)
Lemma close_unless_idle_run c (s : @dbState _ db) w :
  pgx_conns s !! c = Some w ->
  exists w', close_unless_idle c s = Ok tt (mkDb (db_rest s) (<[c := w']> (pgx_conns s)) (fakeTxConns s))
    /\ (pg_IsBusy (outside w) = false -> TxStatus (outside w) = "I"%char -> w' = w)
    /\ (pg_IsBusy (outside w) = true \/ TxStatus (outside w) <> "I"%char -> pg_IsClosed (outside w') = true).
Proof.
  intros Hc. unfold close_unless_idle. rewrite Hc.
  destruct (Close_ends (WithTimeout Background Second) w) as (e & w' & -> & Hcl).
  destruct (pg_IsBusy (outside w)); simpl; [by exists w'|].
  case_bool_decide as Hi; simpl; [|by exists w'].
  exists w. split; [|split; [done|by intros []]]. rewrite insert_id by done. by destruct s.
Qed.

(** C28. Releasing an acquired connection rolls back exactly the transaction that
    acquiring it began, forgets the connection, and closes it first when it is
    busy or was left inside a transaction; it is not closed otherwise.
    Releasing it once more rolls back nothing and returns an error. *)
Theorem acquire_release (s : @dbState _ db) c s1 w :
  AcquireConn db_BeginTx db_Rollback s = Ok (inr c) s1 -> pgx_conns s1 !! c = Some w ->
  exists tx d conns e d2 conns2 w2,
    db_BeginTx (db_rest s) (pgx_conns s) = (inr (tx, Some c), d, conns)
    /\ db_Rollback tx d (<[c := w2]> conns) = (e, d2, conns2)
    /\ ReleaseConn db_Rollback c s1 = Ok e (mkDb d2 conns2 (delete c (fakeTxConns s)))
    /\ (pg_IsBusy (outside w) = false -> TxStatus (outside w) = "I"%char -> w2 = w)
    /\ (pg_IsBusy (outside w) = true \/ TxStatus (outside w) <> "I"%char -> pg_IsClosed (outside w2) = true)
    /\ exists w3, ReleaseConn db_Rollback c (mkDb d2 conns2 (delete c (fakeTxConns s)))
         = Ok (Some not_acquired) (mkDb d2 (<[c := w3]> conns2) (delete c (fakeTxConns s))).
Proof.
  unfold AcquireConn. destruct (db_BeginTx (db_rest s) (pgx_conns s)) as [[[e|[tx [c'|]]] d] conns] eqn:Eb; try done.
  2: { unfold rollback_tx, bind. simpl. by destruct (db_Rollback tx d conns) as [[] ]. }
  intros [= -> <-] Hc. simpl in Hc.
  destruct (close_unless_idle_run c (mkDb d conns (<[c := tx]> (fakeTxConns s))) w Hc) as (w2 & E2 & Hi & Hb).
  destruct (db_Rollback tx d (<[c := w2]> conns)) as [[e d2] conns2] eqn:Er.
  exists tx, d, conns, e, d2, conns2, w2. do 2 (split; [done|]). split; [|split; [done|split; [done|]]].
  - unfold ReleaseConn. rewrite (bind_eq _ _ _ _ _ E2). unfold bind, gets. simpl.
    rewrite lookup_insert_eq. unfold rollback_tx, modify. simpl. by rewrite Er, delete_insert_eq.
  - destruct (conns_stay tx d (<[c := w2]> conns) c) as [w' Hw']; [by rewrite lookup_insert_eq|].
    rewrite Er in Hw'.
    destruct (close_unless_idle_run c (mkDb d2 conns2 (delete c (fakeTxConns s))) w' Hw') as (w3 & E3 & _).
    exists w3. unfold ReleaseConn. rewrite (bind_eq _ _ _ _ _ E3). unfold bind, gets. simpl. by rewrite lookup_delete_eq.
Qed.
End Borrowing.

(** ** The hypotheses can hold *)

Definition toy_driver : Driver := snd (registerConnConfig (Toy.configuration true) (mkDriver ∅ 0)).

Lemma register_roundtrip_witness :
  let '(name, d') := registerConnConfig (Toy.configuration false) toy_driver in
  name = str "registeredConnConfig1" /\ configs toy_driver !! name = None
  /\ config_for (fun _ => inl EOF) d' name = inr (Toy.configuration false).
Proof.
  split; [reflexivity|].
  assert (driver_ok toy_driver) as Hd.
  { split; [by vm_compute|]. intros k [x Hx]. exists 0. split; [by vm_compute|].
    unfold toy_driver in Hx. simpl in Hx. apply lookup_singleton_Some in Hx as [<- _]. reflexivity. }
  destruct (register_roundtrip (fun _ => inl EOF) (Toy.configuration false) toy_driver Hd) as (H1 & H2 & _).
  split; [exact H1|exact H2].
Defined.

Definition toy_numeric : FieldDescription := mkFieldDescription (str "n") 1700 (-1) 655366 0.

Lemma precision_scale_roundtrip_witness : precision_scale toy_numeric = (10, 2, true).
Proof. apply (precision_scale_roundtrip toy_numeric 10 2); by vm_compute. Defined.

#[local] Existing Instance Sample.types.
#[local] Existing Instance Toy.pgconn.
#[local] Existing Instance Toy.decoders.
#[local] Existing Instance Toy.pgconn_laws.

Definition toy_sql (w : world) : sqlConn := mkSqlConn w 0 (fun _ => ret None) [] false.
Definition toy_closed : sqlConn :=
  toy_sql (mkWorld (Toy.connection false None) (Toy.set_closed Toy.idle) [] [] [] [] [] []).
Definition toy_open : sqlConn := toy_sql (Toy.start_world false).

Definition retryable (e : error) : bool := bool_decide (e = EOF).
Definition toy_app (c : context) : option gostring := if bool_decide (c = Background) then Some (str "app7") else None.

Lemma closed_is_bad_witness :
  PrepareContext Background (str "select n") toy_closed = Ok (inl ErrBadConn) toy_closed
  /\ Sql_Ping 100 Background toy_closed = Ok (Some ErrBadConn) toy_closed.
Proof.
  destruct (closed_is_bad retryable toy_app (fun _ => false) 100 toy_closed) as (H1 & _ & _ & _ & H2 & _);
    [reflexivity|]. split; [apply H1|apply H2].
Defined.

Lemma set_schema_never_returns_witness :
  ExecContext retryable toy_app 100 1000 Background (str "set schema 'a'") [] toy_open = OutOfFuel.
Proof.
  apply (set_schema_never_returns retryable toy_app 100 Background (str "'a'") [] (str "app7") toy_open);
    reflexivity.
Defined.

Lemma rows_read_equivalent_witness :
  pgx_result (query_sql retryable toy_app 100 3 10 Background (str "select n") [] [VNil] toy_open)
  = query_pgx retryable 100 10 Background (str "select n") [] [VNil] (Toy.start_world false).
Proof.
  apply (rows_read_equivalent retryable toy_app 100 3 9 Background (str "select n") [] [VNil] toy_open).
  left. reflexivity.
Defined.

(** Both read the two rows of the table. *)
Example toy_rows_read :
  match query_sql retryable toy_app 100 3 10 Background (str "select n") [] [VNil] toy_open with
  | Ok (inr (rows, e)) _ => rows = [[VInt KInt64 None 7]; [VInt KInt64 None 8]] /\ e = EOF
  | _ => False
  end.
Proof. vm_compute. split; reflexivity. Qed.

(** A [sql.DB] that opens a connection for the transaction; its transactions
    are numbered. *)
Definition toy_BeginTx (n : nat) (conns : gmap nat world) : (error + (nat * option nat)) * nat * gmap nat world :=
  (inr (n, Some 0%nat), S n, <[0%nat := Toy.start_world false]> conns).
Definition toy_Rollback (tx n : nat) (conns : gmap nat world) : option error * nat * gmap nat world := (None, n, conns).
Definition toy_db : dbState := mkDb 5%nat ∅ ∅.
Definition toy_acquired_db : dbState :=
  match AcquireConn toy_BeginTx toy_Rollback toy_db with Ok _ s => s | _ => toy_db end.

Lemma acquire_release_witness :
  exists w2, ReleaseConn toy_Rollback 0 toy_acquired_db
    = Ok None (mkDb 6%nat (<[0%nat := w2]> (<[0%nat := Toy.start_world false]> ∅)) (delete 0%nat ∅)).
Proof.
  destruct (acquire_release toy_BeginTx toy_Rollback (fun _ _ _ _ H => H) toy_db 0 toy_acquired_db
    (Toy.start_world false)) as (tx & d & conns & e & d2 & conns2 & w2 & H1 & H2 & H3 & _); [reflexivity|reflexivity|].
  exists w2. injection H1 as <- <- <-. injection H2 as <- <- <-. exact H3.
Defined.

(** ** A statement without a result *)

(** A server that answers a simple query with no result at all, as PostgreSQL
    does for an empty one. *)
Definition silent : PgConn := {|
  net := Toy.server;
  pg_IsClosed := Toy.closed;
  pg_IsBusy := fun _ => false;
  PID := fun _ => 42;
  TxStatus := Toy.status;
  ParameterStatus := @ParameterStatus Toy.pgconn;
  ResultReader := fun _ _ => Rr 0;
  rr_FieldDescriptions := fun _ _ => [];
  rr_Values := fun _ _ => [];
  cache_Mode := @cache_Mode Toy.pgconn;
  cache_Cap := @cache_Cap Toy.pgconn;
  RowsAffected := @RowsAffected Toy.pgconn;
  serve := fun r s => match r with RNextResult _ => (false, [], s) | r => Toy.answer_to r s end
|}.

(** [Query] then returns rows and no error, and asking these rows for their
    columns, which is what database/sql does first, panics. *)
Lemma empty_query_columns_panic :
  let w := @mkWorld silent (Toy.connection true None) Toy.idle [] [] [] [] [] [] in
  let w' := final (@Conn_Query _ silent 100 Background (str ";") []) w in
  @Conn_Query _ silent 100 Background (str ";") [] w = Ok (0%nat, None) w'
  /\ rows_FieldDescriptions 0 w' = Panicked nil_dereference w'.
Proof.
  intros w w'. split; [runs|]. unfold rows_FieldDescriptions, bind, read_rows, read_at.
  assert (exists x, rws w' !! 0%nat = Some x) as [x Hx] by (apply some_by_test; evaluates).
  assert (option_map resultReader (rws w' !! 0%nat) = Some None) as E by evaluates.
  rewrite Hx in E |- *. injection E as E. by rewrite E.
Qed.
