(* ===== verification/SqlTx.v ===== *)
(** Transactions through database/sql (stdlib/sql.go): what a program does with
    the driver's [BeginTx], [ExecContext], [Commit] and [Rollback], on a server
    with PostgreSQL's transactions, happens wholly or not at all. *)

From S2P Require Import Prelude GoStd GoVal GoDuration Effects Values PgConn Logger World Toy Rows Config Conn Batch.
From S2P Require Import ConnSpec CopyFrom Tx Nested SqlDriver SqlSpec.

Local Open Scope Z_scope.

(** ** Programs *)

(** A statement, and whether the program goes on after its error. *)
Record sql_stmt := mkStmt { st_text : gostring; st_go_on : bool }.

Section Program.
Context `{PgTypes} `{PgConn} `{!PgDecoders}.
Context (SafeToRetry : error -> bool) (appID : context -> option gostring) (isFakeTx : context -> bool).
Context (fuel depth : nat) (ctx : context).

Fixpoint sql_body (l : list sql_stmt) : M sqlConn (option error) :=
  match l with
  | [] => ret None
  | s :: l' =>
      let* '(_, err) := ExecContext SafeToRetry appID fuel depth ctx (st_text s) [] in
      match skip_error (st_go_on s) err with
      | Some e => ret (Some e)
      | None => sql_body l'
      end
  end.

(** What [sql.Tx] asks of the driver: the transaction is rolled back after an
    error and committed otherwise. *)
Definition sql_transaction (o : driverTxOptions) (l : list sql_stmt) : M sqlConn (option error) :=
  let* r := Sql_BeginTx isFakeTx fuel ctx o in
  match r with
  | inl e => ret (Some e)
  | inr t =>
      let* err := sql_body l in
      match err with
      | Some e => let* _ := driverTx_Rollback fuel t in ret (Some e)
      | None => driverTx_Commit fuel t
      end
  end.
End Program.

(** ** What they mean *)

Section Meaning.
Context {D : Type} (apply : statements D) (SafeToRetry : error -> bool).

(** The error of a statement that did not reach the server asks database/sql
    for another connection. *)
Definition driver_error (e : error) : error := if SafeToRetry e then ErrBadConn else e.

Fixpoint mean_body (l : list sql_stmt) : M (@db D) (option error) :=
  match l with
  | [] => ret None
  | s :: l' =>
      let* err := mean_exec apply (st_text s) in
      match skip_error (st_go_on s) (driver_error <$> err) with
      | Some e => ret (Some e)
      | None => mean_body l'
      end
  end.

Definition mean_transaction (l : list sql_stmt) (d : D) : option error * D :=
  match mean_body l (d, false) with
  | Ok None (d', failed) => mean_commit apply d d' failed
  | Ok (Some e) _ => (Some e, d)
  | Panicked _ _ | OutOfFuel => (None, d)
  end.
End Meaning.

(** ** The driver on the server *)

Section Refinement.
Context `{PgTypes} `{PgConn} `{!PgDecoders} {D : Type} (apply : statements D).
Context (SafeToRetry : error -> bool) (appID : context -> option gostring) (isFakeTx : context -> bool).
Context (fuel depth : nat) (ctx : context) {Trans : PgTransactions apply ctx}.
Hypothesis enough : (3 <= fuel)%nat.

(** A single statement that is neither transaction control nor one for which
    the schema is set. *)
Definition ordinary (s : sql_stmt) : Prop :=
  plain parse (AExec (st_text s) (st_go_on s)) = true
  /\ (HasPrefix (st_text s) set_schema_prefix = false \/ appID ctx = None).

(** A statement in the transaction [t]. *)
Lemma ExecContext_inside s t num base saves d f c :
  ordinary s -> inside apply ctx t num base saves (d, f) (sc_conn c) ->
  exists r e d' f' c', mean_exec apply (st_text s) (d, f) = Ok e (d', f')
    /\ ExecContext SafeToRetry appID fuel (S depth) ctx (st_text s) [] c = Ok (r, driver_error SafeToRetry <$> e) c'
    /\ inside apply ctx t num base saves (d', f') (sc_conn c').
Proof.
  intros [Hpl Hs] Hi. simpl in Hpl. destruct (parse (st_text s)) as [[| | | | | |text]|] eqn:Hp; try done.
  pose proof (parse_other _ _ Hp) as ->.
  assert (exists e tg d' f', Postgres.run_stmt apply (Postgres.SOther (st_text s)) (Postgres.InTx base d saves f)
    = (e, tg, Postgres.InTx base d' saves f') /\ mean_exec apply (st_text s) (d, f) = Ok e (d', f'))
    as (e & tg & d' & f' & E & Em).
  { simpl. destruct f; [eauto 7|]. destruct (apply (st_text s) d); eauto 7. }
  destruct (exec_inside apply fuel ctx enough _ _ _ _ _ _ _ _ _ _ _ _ _ _ Hp Hi E) as (tag & w' & Ex & Hi' & _).
  destruct Hi as (_ & (_ & Hu) & _). destruct (usable_status _ Hu) as (Hc & _ & _).
  exists (if from_option SafeToRetry false e then None else Some (RowsAffected tag)), e, d', f', (with_pgx w' c).
  split; [exact Em|]. split; [|exact Hi'].
  cbn [ExecContext]. rewrite unless_closed_run, Hc, (bind_eq _ _ _ _ _ (no_schema_set _ _ _ _ _ _ Hs)).
  unfold bind, on_pgx. rewrite namedValue_same, Ex. unfold driver_error.
  destruct e as [e|]; [|done]. cbn. by destruct (SafeToRetry e).
Qed.

Lemma sql_body_inside l t num base saves d f c :
  Forall ordinary l -> inside apply ctx t num base saves (d, f) (sc_conn c) ->
  exists err d' f' c', mean_body apply SafeToRetry l (d, f) = Ok err (d', f')
    /\ sql_body SafeToRetry appID fuel (S depth) ctx l c = Ok err c'
    /\ inside apply ctx t num base saves (d', f') (sc_conn c').
Proof.
  intros Hl. revert d f c. induction Hl as [|s l Hs _ IH]; intros d f c Hi.
  { by exists None, d, f, c. }
  destruct (ExecContext_inside s t num base saves d f c Hs Hi) as (r & e & d' & f' & c' & Em & Ex & Hi').
  cbn [mean_body sql_body]. rewrite (bind_eq _ _ _ _ _ Em), (bind_eq _ _ _ _ _ Ex).
  destruct (skip_error _ _) as [e'|]; [by exists (Some e'), d', f', c'|by apply IH].
Qed.

(** The options of database/sql that the driver takes, read-only transactions
    left out. *)
Definition supported (o : driverTxOptions) : Prop :=
  iso_level (Isolation o) <> None /\ dto_ReadOnly o = false.

Lemma supported_writing o : supported o ->
  exists iso, iso_level (Isolation o) = Some iso /\ writing (mkTxOptions iso (if dto_ReadOnly o then ReadOnly else []) []).
Proof.
  intros [Hi ->]. destruct (iso_level (Isolation o)) as [iso|] eqn:E; [|done]. exists iso. split; [done|].
  revert E. unfold iso_level. repeat case_match; intros [= <-]; by apply writing_by_test.
Qed.

Lemma Sql_BeginTx_idle o d c :
  isFakeTx ctx = false -> supported o -> idle apply ctx d (sc_conn c) ->
  exists t c', Sql_BeginTx isFakeTx fuel ctx o c = Ok (inr (WrapTx ctx t)) c'
    /\ inside apply ctx t 0 d [] (d, false) (sc_conn c').
Proof.
  intros Hf (iso & Hiso & Hw)%supported_writing Hi. destruct (idle_usable apply ctx d _ Hi) as (Hc & _ & _).
  destruct (BeginTx_idle apply fuel ctx enough _ d _ Hw Hi) as (t & w' & E & Hin).
  exists t, (with_pgx w' c). split; [|done]. unfold Sql_BeginTx. rewrite unless_closed_run, Hc, Hf, Hiso.
  unfold bind, on_pgx. by rewrite E.
Qed.

(** C10. A transaction through database/sql is atomic: on a server with
    PostgreSQL's transactions, the statements of a program that begins one with
    any isolation level the driver supports take effect together or not at all,
    as its meaning says.  They are undone when one of them fails and the program
    stops there, and also when it goes on and commits, of which [Commit] tells,
    or when the server refuses the commit.
    Afterwards the connection is outside of any transaction and can be used
    again. *)
Theorem sql_transactions o l d c :
  isFakeTx ctx = false -> supported o -> Forall ordinary l -> idle apply ctx d (sc_conn c) ->
  exists c', sql_transaction SafeToRetry appID isFakeTx fuel (S depth) ctx o l c
      = Ok (mean_transaction apply SafeToRetry l d).1 c'
    /\ idle apply ctx (mean_transaction apply SafeToRetry l d).2 (sc_conn c').
Proof.
  intros Hf Ho Hl Hi. destruct (Sql_BeginTx_idle o d c Hf Ho Hi) as (t & c1 & E1 & Hi1).
  destruct (sql_body_inside l t 0 d [] d false c1 Hl Hi1) as (err & d' & f' & c2 & Em & E2 & Hi2).
  unfold sql_transaction, mean_transaction. rewrite (bind_eq _ _ _ _ _ E1), (bind_eq _ _ _ _ _ E2), Em.
  destruct err as [e|].
  - destruct (tx_Rollback_inside apply fuel ctx enough t 0 d [] (d', f') _ Hi2) as (w3 & E3 & Hi3 & _).
    exists (with_pgx w3 c2). split; [|done]. unfold driverTx_Rollback, bind, on_pgx. by rewrite E3.
  - destruct (tx_Commit_inside apply fuel ctx enough t 0 d [] d' f' _ Hi2) as (w3 & E3 & Hi3 & _).
    exists (with_pgx w3 c2). unfold driverTx_Commit, on_pgx. by rewrite E3.
Qed.
End Refinement.

(** ** On a database *)

#[local] Existing Instance Sample.types.
#[local] Existing Instance Ledger.decoders.
#[local] Hint Extern 0 PgConn => exact (PgServer.pgconn Ledger.apply) : typeclass_instances.
#[local] Existing Instance PgServer.transactions.

Definition sql_ledger : sqlConn := mkSqlConn (Ledger.start [str "zero"]) 0 (fun _ => ret None) [] false.

(** The second statement fails, and the program goes on and commits. *)
Definition careless : list sql_stmt :=
  [mkStmt (str "one") false; mkStmt (str "bad") true].

Lemma sql_transactions_witness :
  let o := mkDriverTxOptions LevelSerializable false in
  let run l := sql_transaction (fun _ => false) (fun _ => None) (fun _ => false) 3 1 Background o l sql_ledger in
  (exists c', run [mkStmt (str "one") false; mkStmt (str "two") false] = Ok None c'
     /\ idle Ledger.apply Background [str "two"; str "one"; str "zero"] (sc_conn c'))
  /\ (exists c', run careless = Ok (Some ErrTxCommitRollback) c'
     /\ idle Ledger.apply Background [str "zero"] (sc_conn c'))
  /\ exists c', run [mkStmt (str "deferred") false] = Ok (Some (Toy.failed (str "commit"))) c'
     /\ idle Ledger.apply Background [str "zero"] (sc_conn c').
Proof.
  intros o run.
  assert (forall l, forallb (fun s => plain (Nested.parse (ctx := Background)) (AExec (st_text s) (st_go_on s))) l = true ->
    exists c', run l = Ok (mean_transaction Ledger.apply (fun _ => false) l [str "zero"]).1 c'
    /\ idle Ledger.apply Background (mean_transaction Ledger.apply (fun _ => false) l [str "zero"]).2 (sc_conn c')) as Hrun.
  { intros l Hl. apply (sql_transactions Ledger.apply (fun _ => false) (fun _ => None) (fun _ => false) 3 0 Background).
    - lia.
    - done.
    - by split.
    - apply Forall_forall. intros s Hs. split; [|by right]. rewrite List.forallb_forall in Hl. by apply Hl, list_elem_of_In.
    - by repeat split. }
  split; [exact (Hrun [mkStmt (str "one") false; mkStmt (str "two") false] eq_refl)|].
  split; [exact (Hrun careless eq_refl)|exact (Hrun [mkStmt (str "deferred") false] eq_refl)].
Defined.
