(* ===== verification/Examples.v ===== *)
(** The example programs (examples): the task list, the chat and the URL
    shortener, over the connection and the pool.

    What a program prints and the code it exits with are values; [os.Exit] runs
    no deferred call.  A handler's calls of its [http.ResponseWriter] are a
    list. *)

From S2P Require Import Prelude GoStd GoVal GoDuration Effects Values PgConn Logger World Toy Rows Config Conn Batch.
From S2P Require Import ConnSpec CopyFrom Tx Pool PoolSpec.

Local Open Scope Z_scope.

(** ** Processes *)

(** A line of the standard output, one of the standard error, which may end with
    a printed error, and a critical message of log15. *)
Inductive output :=
| Stdout (line : gostring)
| Stderr (line : gostring) (err : option error)
| Crit (msg : gostring) (err : error).

Record process (S : Type) := mkProcess { inner : S; printed : list output }.
Arguments mkProcess {S} inner printed.
Arguments inner {S} p.
Arguments printed {S} p.

(** The driver's part of a process. *)
Definition within {S A} (m : M S A) : M (process S) A := fun p =>
  match m (inner p) with
  | Ok a s => Ok a (mkProcess s (printed p))
  | Panicked msg s => Panicked msg (mkProcess s (printed p))
  | OutOfFuel => OutOfFuel
  end.

Definition print {S} (o : output) : M (process S) unit := modify (fun p => mkProcess (inner p) (printed p ++ [o])).

(** The message of a failure, and the exit. *)
Definition exit_with {S} (line : string) (e : error) : M (process S) Z := print (Stderr (str line) (Some e)) ;;; ret 1.

Definition int_of (v : option goval) : Z := match v with Some (VInt _ _ z) => z | _ => 0 end.
Definition string_of (v : option goval) : gostring := match v with Some (VString _ s) => s | _ => [] end.

(** ** The task list (examples/todo) *)

Section Todo.
Context `{PgTypes} `{PgConn} `{!PgDecoders}.
Context (pg_ParseConfig : gostring -> error + PgConfig) (pg_ConnectConfig : context -> PgConfig -> error + net).
Context (fuel : nat).

Definition int32_dest : goval := VPtr (str "int32") (VInt KInt32 None 0).
Definition string_dest : goval := VPtr (str "string") (VString None []).

Definition task_line (stored : list (option goval)) : gostring :=
  FormatInt (int_of (default None (stored !! 0%nat))) ++ str ". " ++ string_of (default None (stored !! 1%nat)).

(** The loop of [listTasks]: a task is printed, or the result set has ended. *)
Definition list_next (p : nat) (_ : unit) : M (process world) (unit + option error) :=
  let* more := within (rows_Next p) in
  if more then
    let* '(err, stored) := within (rows_Scan p [int32_dest; string_dest]) in
    match err with
    | Some _ => ret (inr err)
    | None => print (Stdout (task_line stored)) ;;; ret (inl tt)
    end
  else let* err := within (rows_Err p) in ret (inr err).

Definition listTasks : M (process world) (option error) :=
  let* '(p, _) := within (Conn_Query fuel Background (str "select * from tasks") []) in
  loop fuel (list_next p) tt.

Definition addTask (description : gostring) : M (process world) (option error) :=
  let* '(_, err) := within (Conn_Exec fuel Background (str "insert into tasks(description) values($1)")
                              [VString None description]) in
  ret err.

Definition updateTask (itemNum : Z) (description : gostring) : M (process world) (option error) :=
  let* '(_, err) := within (Conn_Exec fuel Background (str "update tasks set description=$1 where id=$2")
                              [VString None description; VInt KInt32 None itemNum]) in
  ret err.

Definition removeTask (itemNum : Z) : M (process world) (option error) :=
  let* '(_, err) := within (Conn_Exec fuel Background (str "delete from tasks where id=$1")
                              [VInt KInt32 None itemNum]) in
  ret err.

Definition help_lines : list gostring :=
  [str "Todo pgx demo"; []; str "Usage:"; []; str "  todo list"; str "  todo add task";
   str "  todo update task_num item"; str "  todo remove task_num"; []; str "Example:"; [];
   str "  todo add 'Learn Go'"; str "  todo list"].

Definition printHelp : M (process world) unit :=
  modify (fun p => mkProcess (inner p) (printed p ++ map Stdout help_lines)).

(** [os.Args[i]] *)
Definition arg (args : list gostring) (i : nat) : M (process world) gostring :=
  match args !! i with Some a => ret a | None => panic index_out_of_range end.

Definition exit_on (line : string) (err : option error) : M (process world) Z :=
  match err with Some e => exit_with line e | None => ret 0 end.

Definition task_number (s : gostring) (k : Z -> M (process world) Z) : M (process world) Z :=
  match ParseInt s 32 with
  | inl e => exit_with "Unable convert task_num into int32: " (NumErr (str "ParseInt") s e)
  | inr n => k (int32 n)
  end.

Definition todo_command (args : list gostring) : M (process world) Z :=
  if (length args =? 1)%nat then printHelp ;;; ret 0
  else
    let* cmd := arg args 1 in
    if bool_decide (cmd = str "list") then
      let* err := listTasks in exit_on "Unable to list tasks: " err
    else if bool_decide (cmd = str "add") then
      let* description := arg args 2 in
      let* err := addTask description in exit_on "Unable to add task: " err
    else if bool_decide (cmd = str "update") then
      let* s := arg args 2 in
      task_number s (fun n =>
        let* description := arg args 3 in
        let* err := updateTask n description in exit_on "Unable to update task: " err)
    else if bool_decide (cmd = str "remove") then
      let* s := arg args 2 in
      task_number s (fun n => let* err := removeTask n in exit_on "Unable to remove task: " err)
    else print (Stderr (str "Invalid command") None) ;;; printHelp ;;; ret 1.

(** What the process has printed and the code it exits with. *)
Definition todo_main (DATABASE_URL : gostring) (args : list gostring) : comp (list output * Z) :=
  let? '(_, c) := of_outcome (Connect pg_ParseConfig pg_ConnectConfig Background DATABASE_URL) in
  match c with
  | inl e => Done ([Stderr (str "Unable to connection to database: ") (Some e)], 1)
  | inr w =>
      match todo_command args (mkProcess w []) with
      | Ok code p => Done (printed p, code)
      | Panicked msg _ => Crash msg
      | OutOfFuel => NoFuel
      end
  end.

(** ** Theorems on the task list *)

Lemma within_Ok {S A} (m : M S A) p a p' :
  within m p = Ok a p' -> exists s, m (inner p) = Ok a s /\ p' = mkProcess s (printed p).
Proof. unfold within. destruct (m (inner p)); intros [= -> <-]; eauto. Qed.

(** A scan keeps the result set in order, and closes it when it fails. *)
Definition scanned_to (p : nat) (e : option error) (w : world) : Prop :=
  exists x, rws w !! p = Some x /\ rows_wf x /\ (e <> None -> rows_closed x = true).

Lemma fatal_scanned p w x e w' :
  rws w !! p = Some x -> rows_wf x -> rows_fatal p (Some e) w = Ok tt w' -> scanned_to p (Some e) w'.
Proof.
  intros Hx Hwf E.
  assert (wp (rows_fatal p (Some e)) w (fun _ w' => scanned_to p (Some e) w')) as Hwp.
  { apply (wp_rows_fatal _ _ x); [done|apply Hwf|]. intros x' w1 Mv C _ _ _. exists x'.
    split; [by eapply moved_lookup|]. split; [by apply closed_wf|done]. }
  unfold wp in Hwp. by rewrite E in Hwp.
Qed.

Lemma quiet_plan_scans fds dest : keeps quiet (plan_scans fds dest).
Proof. revert dest. induction fds as [|fd fds IH]; intros [|dst dest]; cbn [plan_scans]; keeps_tac. Qed.
Lemma quiet_scan_columns i fds ps vs dest acc : keeps quiet (scan_columns i fds ps vs dest acc).
Proof.
  revert i fds ps vs acc. induction dest as [|dst dest IH]; intros i [|fd fds] ps [|v vs] acc;
    cbn [scan_columns]; keeps_tac.
Qed.

Lemma Scan_scanned p w x dest e stored w' :
  rws w !! p = Some x -> rows_wf x -> rows_Scan p dest w = Ok (e, stored) w' -> scanned_to p e w'.
Proof.
  intros Hx Hwf E. unfold rows_Scan in E. inv_ok E.
  assert (s = w) as ->.
  { unfold rows_FieldDescriptions in Hm. inv_ok Hm. apply read_at_Ok in Hm0 as [_ ->].
    by destruct (resultReader _); [injection Hm|]. }
  inv_ok E. apply read_at_Ok in Hm0 as [Ha ->]. rewrite Hx in Ha. injection Ha as <-.
  destruct (negb _). { inv_ok E. destruct a0. injection E as <- _ <-. by eapply fatal_scanned. }
  destruct (negb _). { inv_ok E. destruct a0. injection E as <- _ <-. by eapply fatal_scanned. }
  inv_ok E.
  assert (exists x', rws s !! p = Some x' /\ rows_wf x') as (x' & Hx' & Hwf').
  { destruct (scanPlans x); [injection Hm0 as _ <-; eauto|]. inv_ok Hm0.
    apply (keeps_Ok _ _ _ _ _ (quiet_plan_scans _ _)) in Hm1 as [Hq _]. inv_ok Hm0. injection Hm0 as _ <-.
    unfold update_rows in Hm1. inv_ok Hm1. apply read_at_Ok in Hm0 as [Ha ->]. rewrite Hq, Hx in Ha.
    injection Ha as <-. injection Hm1 as _ <-. simpl. rewrite Hq.
    rewrite list_lookup_insert_eq by by eapply lookup_lt_Some. eauto. }
  inv_ok E. destruct a1 as [e1 st1]. apply (keeps_Ok _ _ _ _ _ (quiet_scan_columns _ _ _ _ _ _)) in Hm1 as [Hq _].
  rewrite <- Hq in Hx'. destruct e1 as [e1|].
  - inv_ok E. destruct a1. injection E as <- _ <-. by eapply fatal_scanned.
  - injection E as <- _ <-. by exists x'.
Qed.

Lemma list_next_rows p s x r s' :
  rws (inner s) !! p = Some x -> rows_wf x -> list_next p tt s = Ok r s' ->
  exists x', rws (inner s') !! p = Some x' /\ rows_wf x' /\ (forall e, r = inr e -> rows_closed x' = true).
Proof.
  intros Hx Hwf E. unfold list_next in E. inv_ok E. apply within_Ok in Hm as (w1 & Hn & ->).
  assert (wp (rows_Next p) (inner s) (fun b w => exists x1, rws w !! p = Some x1 /\ rows_wf x1
    /\ rows_closed x1 = negb b)) as Hwp.
  { apply (wp_rows_Next _ _ x); [done..|]. intros b x1 w Mv Hw1 C _. exists x1.
    split; [by eapply moved_lookup|done]. }
  unfold wp in Hwp. rewrite Hn in Hwp. destruct Hwp as (x1 & Hx1 & Hwf1 & C1). destruct a; simpl in C1.
  - inv_ok E. destruct a as [e stored]. apply within_Ok in Hm as (w2 & Hs & ->).
    destruct (Scan_scanned _ _ _ _ _ _ _ Hx1 Hwf1 Hs) as (x2 & Hx2 & Hwf2 & C2).
    exists x2. destruct e as [e|]; [injection E as <- <-|inv_ok E; injection E as <- <-; injection Hm as _ <-].
    + split; [done|]. split; [done|]. intros _ _. by apply C2.
    + split; [done|]. split; [done|]. by intros e [=].
  - inv_ok E. apply within_Ok in Hm as (w2 & He & ->). injection E as <- <-.
    unfold rows_Err in He. inv_ok He. apply read_at_Ok in Hm as [_ ->]. injection He as _ <-.
    exists x1. split; [done|]. split; [done|]. by intros _ _.
Qed.

Lemma list_loop_rows n p s x err s' :
  rws (inner s) !! p = Some x -> rows_wf x -> loop n (list_next p) tt s = Ok err s' ->
  exists x', rws (inner s') !! p = Some x' /\ rows_closed x' = true.
Proof.
  revert s x. induction n as [|n IH]; intros s x Hx Hwf E; [done|]. cbn [loop] in E. inv_ok E.
  destruct (list_next_rows _ _ _ _ _ Hx Hwf Hm) as (x1 & Hx1 & Hwf1 & C1). destruct a as [[]|e].
  - by eapply IH.
  - injection E as _ <-. exists x1. split; [done|]. by eapply C1.
Qed.

(** Listing the tasks leaves the connection's result set closed, whether it
    ended, failed, or had a row that could not be scanned. *)
Theorem listTasks_closes s err s' :
  listTasks s = Ok err s' ->
  exists x, rws (inner s') !! length (rws (inner s)) = Some x /\ rows_closed x = true.
Proof.
  intros E. unfold listTasks in E. inv_ok E. destruct a as [p qerr]. apply within_Ok in Hm as (w1 & Hq & ->).
  apply Query_result_ok in Hq as (-> & x & Hx & _ & Hwf & _). by eapply list_loop_rows in E.
Qed.

Lemma ParseInt_ge s w n : 0 < w -> ParseInt s w = inr n -> - 2 ^ (w - 1) <= n.
Proof.
  intros Hw. assert (0 < 2 ^ (w - 1)) by (apply Z.pow_pos_nonneg; lia). unfold ParseInt, ParseUint.
  destruct (match s with [] => _ | _ => _ end) as [neg s1]. destruct s1 as [|c s1]; [done|].
  destruct (parse_uint_go (2 ^ w - 1) 0 (c :: s1)) as [e|v] eqn:E; [done|].
  apply parse_uint_nonneg in E; [|lia]. destruct neg.
  - destruct (Z.ltb_spec (2 ^ (w - 1)) v); [done|]. intros [= <-]. lia.
  - destruct (Z.leb_spec (2 ^ (w - 1)) v); [done|]. intros [= <-]. lia.
Qed.

(** The number of a task: what is not the text of an int32 ends the program
    before the database is asked, the conversion to int32 loses nothing, and a
    number is read back from its printed form. *)
Theorem task_numbers s k p :
  match ParseInt s 32 with
  | inl _ => exists e, task_number s k p = Ok 1 (mkProcess (inner p) (printed p ++ [e]))
  | inr n => in_s 32 n /\ task_number s k p = k n p
  end
  /\ forall n, in_s 32 n -> task_number (FormatInt n) k p = k n p.
Proof.
  assert (forall n, in_s 32 n -> int32 n = n) as Hid by (intros n Hn; by apply (wrap_s_id 32)).
  split.
  - unfold task_number. destruct (ParseInt s 32) as [e|n] eqn:E; [by eexists|].
    assert (in_s 32 n) as Hn by (split; [by eapply ParseInt_ge|by eapply ParseInt_lt]).
    by rewrite Hid.
  - intros n Hn. unfold task_number. rewrite ParseInt_FormatInt by done. by rewrite Hid.
Qed.
End Todo.

(** ** The URL shortener (examples/url_shortener) *)

(** The calls of an [http.ResponseWriter]; [Redirect], [NotFound] and [Error]
    are those of package http. *)
Inductive http_call :=
| Redirect (url : gostring) (code : Z)
| NotFound
| HttpError (msg : gostring) (code : Z)
| AddHeader (key value : gostring)
| WriteHeader (code : Z).

(** The status a call writes. *)
Definition status_of (c : http_call) : option Z :=
  match c with
  | Redirect _ code | HttpError _ code | WriteHeader code => Some code
  | NotFound => Some 404
  | AddHeader _ _ => None
  end.

(** A request; [Body] is what reading it to its end gives. *)
Record Request := mkRequest { Method : gostring; Path : gostring; Body : error + gostring }.

Section Pooled.
Context `{PgTypes} `{PgConn} `{!PgDecoders} `{Puddle}.
Context (pg_ParseConfig : gostring -> error + PgConfig) (pg_ConnectConfig : context -> PgConfig -> error + net).
Context (fuel : nat).

Definition internal_error : list http_call := [HttpError (str "Internal server error") 500].

Definition getUrlHandler (req : Request) : M pworld (list http_call) :=
  let* row := Pool_QueryRow pg_ConnectConfig fuel Background
                (str "select url from shortened_urls where id=$1") [VString None (Path req)] in
  let* '(err, stored) := Row_Scan row [string_dest] in
  ret match err with
      | None => [Redirect (string_of (default None (stored !! 0%nat))) 303]
      | Some ErrNoRows => [NotFound]
      | Some _ => internal_error
      end.

Definition upsert : gostring :=
  str "insert into shortened_urls(id, url) values ($1, $2)" ++ [ascii_of_nat 10; ascii_of_nat 9]
  ++ str "on conflict (id) do update set url=excluded.url".

Definition exec_status (sql : gostring) (args : list goval) : M pworld (list http_call) :=
  let* '(_, err) := Pool_Exec pg_ConnectConfig fuel Background sql args in
  ret match err with None => [WriteHeader 200] | Some _ => internal_error end.

Definition putUrlHandler (req : Request) : M pworld (list http_call) :=
  match Body req with
  | inl _ => ret internal_error
  | inr url => exec_status upsert [VString None (Path req); VString None url]
  end.

Definition deleteUrlHandler (req : Request) : M pworld (list http_call) :=
  exec_status (str "delete from shortened_urls where id=$1") [VString None (Path req)].

Definition urlHandler (req : Request) : M pworld (list http_call) :=
  if bool_decide (Method req = str "GET") then getUrlHandler req
  else if bool_decide (Method req = str "PUT") then putUrlHandler req
  else if bool_decide (Method req = str "DELETE") then deleteUrlHandler req
  else ret [AddHeader (str "Allow") (str "GET, PUT, DELETE"); WriteHeader 405].

(** ** The chat (examples/chat) *)

(** A line of the standard input: [None] goes on, [Some] exits. *)
Definition chat_line (msg : gostring) : M (process pworld) (option Z) :=
  if bool_decide (msg = str "exit") then ret (Some 0)
  else
    let* '(_, err) := within (Pool_Exec pg_ConnectConfig fuel Background
                                (str "select pg_notify('chat', $1)") [VString None msg]) in
    match err with
    | Some e => let* code := exit_with "Error sending notification:" e in ret (Some code)
    | None => ret None
    end.

(** The end of the standard input, with the error of the scanner. *)
Definition chat_end (scan_err : option error) : M (process pworld) Z :=
  match scan_err with
  | Some e => exit_with "Error scanning from stdin:" e
  | None => ret 0
  end.

Definition notification_line (n : Notification) : gostring :=
  str "PID: " ++ FormatInt (PID_ n) ++ str " Channel: " ++ Channel n ++ str " Payload: " ++ Payload n.

(** One round of the loop of [listen]: [None] goes on, [Some] exits. *)
Definition listen_round (c : nat) : M (process pworld) (option Z) :=
  let* '(n, err) := within (on c (WaitForNotification Background)) in
  match err, n with
  | Some e, _ => let* code := exit_with "Error waiting for notification:" e in ret (Some code)
  | None, None => panic nil_dereference
  | None, Some n => print (Stdout (notification_line n)) ;;; ret None
  end.

(** The start of [listen]: an exit, or the connection it listens on. *)
Definition listen_start : M (process pworld) (Z + nat) :=
  let* r := within (Acquire pg_ConnectConfig fuel Background) in
  match r with
  | inl e => let* code := exit_with "Error acquiring connection:" e in ret (inl code)
  | inr c =>
      let* '(_, err) := within (pconn_Exec fuel Background c (str "listen chat") []) in
      match err with
      | Some e => let* code := exit_with "Error listening to chat channel:" e in ret (inl code)
      | None => ret (inr c)
      end
  end.

(** The process: the lines still to be read, the connection of the goroutine
    that listens, and the exit code. *)
Record chat := mkChat {
  chat_process : process pworld;
  chat_input : list gostring;
  chat_listener : option nat;
  chat_exit : option Z
}.

(** A step of [main] or of [listen]; nothing happens after an exit. *)
Inductive chat_step (scan_err : option error) : chat -> chat -> Prop :=
| chat_reads p msg input l r p' :
    chat_line msg p = Ok r p' ->
    chat_step scan_err (mkChat p (msg :: input) l None) (mkChat p' input l r)
| chat_ends p l code p' :
    chat_end scan_err p = Ok code p' ->
    chat_step scan_err (mkChat p [] l None) (mkChat p' [] l (Some code))
| chat_refused p input code p' :
    listen_start p = Ok (inl code) p' ->
    chat_step scan_err (mkChat p input None None) (mkChat p' input None (Some code))
| chat_listens p input c p' :
    listen_start p = Ok (inr c) p' ->
    chat_step scan_err (mkChat p input None None) (mkChat p' input (Some c) None)
| chat_hears p input c r p' :
    listen_round c p = Ok r p' ->
    chat_step scan_err (mkChat p input (Some c) None) (mkChat p' input (Some c) r).

(** ** Starting *)

(** The programs with a pool stop when it cannot be made; the connected pool
    is the initial state of what follows. *)
Definition pool_start (parse_failed connect_failed : error -> output) (cfg : error + PoolConfig) (st : pst)
  : comp (list output * Z + pworld) :=
  match cfg with
  | inl e => Done (inl ([parse_failed e], 1))
  | inr cfg =>
      match ConnectConfig pg_ConnectConfig Background (new_pool cfg st []) with
      | Ok None w => Done (inr w)
      | Ok (Some e) _ => Done (inl ([connect_failed e], 1))
      | Panicked msg _ => Crash msg
      | OutOfFuel => NoFuel
      end
  end.

Definition chat_main (NumCPU : Z) (DATABASE_URL : gostring) (input : list gostring) (st : pst)
  : comp (list output * Z + chat) :=
  let failed e := Stderr (str "Unable to connect to database:") (Some e) in
  let? r := pool_start failed failed (Pool_ParseConfig pg_ParseConfig NumCPU DATABASE_URL) st in
  Done match r with
       | inl x => inl x
       | inr w => inr (mkChat (mkProcess w (map Stdout
           [str "Type a message and press enter."; [];
            str "This message should appear in any other chat instances connected to the same";
            str "database."; []; str "Type " ++ [ascii_of_nat 34] ++ str "exit" ++ [ascii_of_nat 34] ++ str " to quit."]))
           input None None)
       end.

Definition with_logger (cfg : PoolConfig) : PoolConfig :=
  let c := pc_ConnConfig cfg in
  mkPoolConfig
    (mkConnConfig (World.Config c) true (cc_LogLevel c) (connString c) (BuildStatementCache c)
       (PreferSimpleProtocol c) (createdByParseConfig c))
    (BeforeConnect cfg) (AfterConnect cfg) (BeforeAcquire cfg) (AfterRelease cfg) (MaxConnLifetime cfg)
    (MaxConnIdleTime cfg) (MaxConns cfg) (MinConns cfg) (HealthCheckPeriod cfg) (LazyConnect cfg)
    (pc_createdByParseConfig cfg).

(** The pool whose requests [urlHandler] answers. *)
Definition shortener_main (NumCPU : Z) (DATABASE_URL : gostring) (st : pst) : comp (list output * Z + pworld) :=
  pool_start (Crit (str "Unable to parse DATABASE_URL")) (Crit (str "Unable to create connection pool"))
    match Pool_ParseConfig pg_ParseConfig NumCPU DATABASE_URL with
    | inl e => inl e
    | inr cfg => inr (with_logger cfg)
    end st.

(** ** Connections that are held *)

(** All connections handed out since are released. *)
Definition unheld (w w' : pworld) : Prop := exists l, p_conns w' = p_conns w ++ l /\ Forall (fun c => c = None) l.

#[local] Instance unheld_preorder : PreOrder unheld.
Proof.
  split; [intros w; exists []; by rewrite app_nil_r|].
  intros w1 w2 w3 (l1 & E1 & F1) (l2 & E2 & F2). exists (l1 ++ l2). rewrite E2, E1, app_assoc.
  split; [done|by apply Forall_app].
Qed.

Definition same_conns (w w' : pworld) : Prop := p_conns w' = p_conns w.
#[local] Instance same_conns_preorder : PreOrder same_conns.
Proof. split; [done|]. unfold same_conns. intros w1 w2 w3 E1 E2. congruence. Qed.

Lemma conns_ask r : keeps same_conns (ask r).
Proof. by intros w. Qed.
Lemma conns_modify f : (forall w, p_conns (f w) = p_conns w) -> keeps same_conns (modify f).
Proof. intros Hf w. apply Hf. Qed.
Lemma conns_value res : keeps same_conns (value_of res).
Proof. intros w. unfold value_of. by destruct (p_values w !! res). Qed.
Lemma conns_on_conn {A} res (m : M world A) : keeps same_conns (on_conn res m).
Proof. intros w. unfold on_conn. destruct (p_values w !! res); [|done]. by destruct (m _). Qed.
#[local] Hint Resolve conns_value conns_on_conn : keeps.
#[local] Hint Extern 1 (keeps same_conns (ask _)) => (apply conns_ask) : keeps.
#[local] Hint Extern 1 (keeps same_conns (took _)) => (by apply conns_modify) : keeps.
#[local] Hint Extern 1 (keeps same_conns (store _ _)) => (by apply conns_modify) : keeps.
#[local] Hint Extern 1 (keeps same_conns (spawn _)) => (by apply conns_modify) : keeps.

Lemma conns_puddle_Acquire ctx : keeps same_conns (puddle_Acquire pg_ConnectConfig ctx).
Proof. unfold puddle_Acquire, construct. keeps_tac. Qed.
Lemma conns_acceptable ctx res : keeps same_conns (acceptable ctx res).
Proof. unfold acceptable. keeps_tac. Qed.
Lemma conns_Destroy res : keeps same_conns (res_Destroy res).
Proof. unfold res_Destroy. keeps_tac. Qed.

(** However [Acquire] ends, it has handed out the connection it returns, if it
    returns one, and no other. *)
Lemma Acquire_conns ctx w :
  match Acquire pg_ConnectConfig fuel ctx w with
  | Ok (inr c) w' => c = length (p_conns w) /\ exists res v, p_conns w' = p_conns w ++ [Some res]
                       /\ p_values w' !! res = Some v
  | Ok (inl _) w' | Panicked _ w' => p_conns w' = p_conns w
  | OutOfFuel => True
  end.
Proof.
  unfold Acquire. revert w. generalize fuel at 1. intros n. induction n as [|n IH]; intros w; [done|].
  cbn [loop]. unfold bind. pose proof (conns_puddle_Acquire ctx w) as Hk1. unfold same_conns in Hk1.
  destruct (puddle_Acquire pg_ConnectConfig ctx w) as [[e|res] w1|msg w1|]; [done| |done|done].
  pose proof (conns_acceptable ctx res w1) as Hk2. unfold same_conns in Hk2.
  destruct (acceptable ctx res w1) as [[] w2|msg w2|]; [| |congruence|done].
  - unfold getConn. destruct (p_values w2 !! res) as [v|] eqn:Hv; [|congruence].
    simpl. rewrite Hk2, Hk1. split; [done|]. exists res. eexists. split; [done|apply lookup_insert_eq].
  - pose proof (conns_Destroy res w2) as Hk3. unfold same_conns in Hk3.
    destruct (res_Destroy res w2) as [u w3|msg w3|]; [|congruence|done]. simpl.
    assert (p_conns w3 = p_conns w) as Ew by congruence. specialize (IH w3). unfold bind in IH. by rewrite Ew in IH.
Qed.

Lemma Release_last w l res v :
  p_conns w = l ++ [Some res] -> p_values w !! res = Some v ->
  exists w', Release (length l) w = Ok tt w' /\ p_conns w' = l ++ [None].
Proof.
  intros Hc Hv. destruct (Release_holding (length l) res v w) as (w' & E & Hc' & _).
  - by rewrite Hc, lookup_app_r, Nat.sub_diag.
  - done.
  - exists w'. split; [done|]. rewrite Hc', Hc, insert_app_r_alt, Nat.sub_diag by done. done.
Qed.

Lemma unheld_with_conn {A} ctx (failed : error -> A) zero (m : M world A) :
  keeps unheld (with_conn pg_ConnectConfig fuel ctx failed zero (fun c => on c m)).
Proof.
  intros w. unfold with_conn, bind. pose proof (Acquire_conns ctx w) as HA.
  assert (forall w', p_conns w' = p_conns w -> unheld w w') as Hsame.
  { intros w' E. exists []. by rewrite E, app_nil_r. }
  destruct (Acquire pg_ConnectConfig fuel ctx w) as [[e|c] w1|msg w1|]; [by apply Hsame| |by apply Hsame|done].
  destruct HA as (-> & res & v & Hc & Hv).
  assert (p_conns w1 !! length (p_conns w) = Some (Some res)) as Hl by by rewrite Hc, lookup_app_r, Nat.sub_diag.
  pose proof (on_holds _ m res v w1 Hl Hv) as Ho. unfold defer.
  destruct (on (length (p_conns w)) m w1) as [a w2|msg w2|]; [| |done]; destruct Ho as [Hc2 [v2 Hv2]];
    rewrite <- Hc2 in Hc; destruct (Release_last _ _ _ _ Hc Hv2) as (w3 & E3 & Hc3); rewrite E3; simpl;
    exists [None]; (split; [done|by repeat constructor]).
Qed.

(** ** Theorems on the URL shortener *)

(** A row of the pool that holds the connection handed out last. *)
Lemma QueryRow_holds ctx sql args w row w1 :
  Pool_QueryRow pg_ConnectConfig fuel ctx sql args w = Ok row w1 ->
  match row with
  | ErrRow _ => p_conns w1 = p_conns w
  | PoolRow p => exists res r, p_rows w1 !! p = Some (mkPoolRow res r (Some (length (p_conns w))))
                   /\ p_conns w1 = p_conns w ++ [Some res]
  end.
Proof.
  intros E. unfold Pool_QueryRow in E. inv_ok E. pose proof (Acquire_conns ctx w) as HA. rewrite Hm in HA.
  destruct a as [e|c]; [by injection E as <- <-|]. destruct HA as (-> & res & v & Hc & Hv). inv_ok E. inv_ok E.
  injection E as <- <-.
  assert (p_conns s !! length (p_conns w) = Some (Some res)) as Hl by by rewrite Hc, lookup_app_r, Nat.sub_diag.
  pose proof (on_holds _ (Conn_QueryRow fuel ctx sql args) res v s Hl Hv) as Ho. unfold pconn_QueryRow in Hm0.
  rewrite Hm0 in Ho. destruct Ho as [Hc2 [v2 Hv2]]. rewrite <- Hc2 in Hc, Hl.
  unfold getPoolRow, conn_res, bind, pread in Hm1. rewrite Hl in Hm1. simpl in Hm1. unfold value_of in Hm1.
  rewrite Hv2 in Hm1. injection Hm1 as <- <-. simpl. exists res, a. by rewrite list_lookup_middle.
Qed.

Lemma Row_Scan_unheld ctx sql args w row w1 dest r w2 :
  Pool_QueryRow pg_ConnectConfig fuel ctx sql args w = Ok row w1 -> Row_Scan row dest w1 = Ok r w2 -> unheld w w2.
Proof.
  intros Hq Hs. apply QueryRow_holds in Hq. destruct row as [e|p]; simpl in Hs.
  { injection Hs as _ <-. exists []. by rewrite Hq, app_nil_r. }
  destruct Hq as (res & r' & Hp & Hc). unfold poolRow_Scan, bind at 1, pread in Hs. rewrite Hp in Hs.
  cbn [prow_home prow_r prow_c release_opt] in Hs. inv_ok Hs. inv_ok Hs. injection Hs as _ <-.
  pose proof (keeps_Ok _ _ _ _ _ (conns_on_conn _ _) Hm) as Hk. unfold same_conns in Hk. rewrite Hc in Hk.
  assert (is_Some (p_values s !! res)) as [v Hv].
  { unfold on_conn in Hm. destruct (p_values w1 !! res) as [v|]; [|done].
    destruct (row_Scan _ _ _); [|done..]. injection Hm as _ <-. simpl. rewrite lookup_insert_eq. by eexists. }
  destruct (Release_last _ _ _ _ Hk Hv) as (w3 & E3 & Hc3). rewrite E3 in Hm0. injection Hm0 as _ <-.
  exists [None]. split; [done|by repeat constructor].
Qed.

Abbreviation settles m := (moves (fun _ _ => 0) m).

Lemma settles_exec_status sql args : settles (exec_status sql args).
Proof.
  eapply moves_bind; [apply settles_with_conn; intros; apply moves_keeps, keeps_on|].
  intros [tag err]. by apply moves_ret.
Qed.

Lemma settles_getUrl req : settles (getUrlHandler req).
Proof.
  eapply moves_bind.
  - apply settles_acquired. intros [e|c]; [apply (keeps_ret _)|]. apply (keeps_bind _); [apply keeps_on|].
    intros r. apply (keeps_bind _); [apply keeps_getPoolRow|]. intros p. apply (keeps_ret _).
  - intros row. apply moves_bind with (d := fun _ _ => 0); [|intros [err stored]; by apply moves_ret].
    apply moves_keeps. destruct row as [e|p]; [apply (keeps_ret _)|]. simpl. unfold poolRow_Scan.
    apply (keeps_bind _); [apply keeps_pread|]. intros x. apply (keeps_bind _); [apply keeps_on_conn|].
    intros a. apply (keeps_bind _); [apply keeps_release_opt|]. intros u. apply (keeps_ret _).
Qed.

Lemma settles_Ok {A} (m : M pworld A) w a w' : settles m -> m w = Ok a w' -> same_balance w w'.
Proof. intros Hm E r. rewrite (Hm _ _ _ E r). lia. Qed.

(** C24. The URL shortener gives back the connections it uses: once a request is
    answered, every connection the pool handed out for it is released and
    nothing is left over, and the answer has exactly one status.  A handler
    that changes the database releases its connection also when it panics. *)
Theorem shortener_gives_back req w :
  match urlHandler req w with
  | Ok resp w' => unheld w w' /\ same_balance w w' /\ exists code, omap status_of resp = [code]
  | Panicked _ w' => Method req <> str "GET" -> unheld w w'
  | OutOfFuel => True
  end.
Proof.
  assert (forall sql args, match exec_status sql args w with
    | Ok resp w' => unheld w w' /\ same_balance w w' /\ exists code, omap status_of resp = [code]
    | Panicked _ w' => Method req <> str "GET" -> unheld w w' | OutOfFuel => True end) as Hexec.
  { intros sql args. destruct (exec_status sql args w) as [resp w'|msg w'|] eqn:E; [| |done].
    - split; [|split; [exact (settles_Ok _ _ _ _ (settles_exec_status _ _) E)|]]; unfold exec_status in E; inv_ok E;
        destruct a as [tag err]; injection E as <- <-.
      + exact (keeps_Ok _ _ _ _ _ (unheld_with_conn _ _ _ _) Hm).
      + destruct err; eauto.
    - intros _. unfold exec_status, bind in E. pose proof (unheld_with_conn Background (fun e => ([], Some e)) ([], None)
        (Conn_Exec fuel Background sql args) w) as Hk. unfold Pool_Exec, pconn_Exec in E.
      destruct (with_conn _ _ _ _ _ _ w) as [[tag err] w1|msg1 w1|]; [done| |done]. by injection E as _ <-. }
  unfold urlHandler. case_bool_decide as Hg; [|case_bool_decide; [|case_bool_decide]].
  - destruct (getUrlHandler req w) as [resp w'|msg w'|] eqn:E; [|done|done].
    split; [|split; [exact (settles_Ok _ _ _ _ (settles_getUrl req) E)|]]; unfold getUrlHandler in E; inv_ok E; inv_ok E;
      destruct a0 as [err stored]; injection E as <- <-.
    + by eapply Row_Scan_unheld.
    + destruct err as [[]|]; simpl; eauto.
  - unfold putUrlHandler. destruct (Body req); [|apply Hexec]. split; [reflexivity|]. split; [by intros r|]. simpl. eauto.
  - apply Hexec.
  - split; [reflexivity|]. split; [by intros r|]. simpl. eauto.
Qed.

(** ** Theorems on the chat *)

Lemma conns_CreateResource ctx : keeps same_conns (CreateResource pg_ConnectConfig ctx).
Proof. unfold CreateResource, construct. keeps_tac. Qed.
Lemma conns_create_each n ctx e : keeps same_conns (create_each pg_ConnectConfig n ctx e).
Proof.
  revert ctx e. induction n as [|n IH]; intros ctx e; cbn [create_each]; [apply (keeps_ret _)|].
  apply (keeps_bind _); [apply conns_CreateResource|]. intros [e1|]; destruct e; apply IH.
Qed.
Lemma conns_spawn_destructs l : keeps same_conns (spawn_destructs l).
Proof. induction l; cbn [spawn_destructs]; keeps_tac. Qed.
#[local] Hint Resolve conns_create_each conns_spawn_destructs conns_puddle_Acquire : keeps.
#[local] Hint Extern 1 (keeps same_conns (modify _)) => (by apply conns_modify) : keeps.

Lemma conns_ConnectConfig ctx : keeps same_conns (ConnectConfig pg_ConnectConfig ctx).
Proof. unfold ConnectConfig, createIdleResources, Pool_Close, res_Release. keeps_tac. Qed.

(** While the process runs, the connection of the goroutine that listens is the
    one that is held. *)
Definition listener_holds (s : chat) : Prop :=
  let conns := p_conns (inner (chat_process s)) in
  (forall c, chat_listener s = Some c -> exists res, conns !! c = Some (Some res))
  /\ (chat_exit s = None -> forall c res, conns !! c = Some (Some res) -> chat_listener s = Some c).

Lemma unheld_held w w' c res :
  unheld w w' -> p_conns w' !! c = Some (Some res) <-> p_conns w !! c = Some (Some res).
Proof.
  intros (l & -> & Hl). split; intros Hc.
  - apply lookup_app_Some in Hc as [Hc|[_ Hc]]; [done|]. eapply Forall_lookup_1 in Hl; [|done]. done.
  - by apply lookup_app_l_Some.
Qed.

Lemma chat_line_unheld msg p r p' : chat_line msg p = Ok r p' -> unheld (inner p) (inner p').
Proof.
  unfold chat_line. case_bool_decide; [intros [= _ <-]; reflexivity|]. intros E. inv_ok E.
  apply within_Ok in Hm as (w1 & Hm & ->). apply (keeps_Ok _ _ _ _ _ (unheld_with_conn _ _ _ _)) in Hm.
  destruct a as [tag [e|]]; [|by injection E as _ <-]. inv_ok E. injection E as _ <-. inv_ok Hm0.
  injection Hm0 as _ <-. injection Hm1 as _ <-. done.
Qed.

Lemma conns_on {A} c (m : M world A) : keeps same_conns (on c m).
Proof.
  apply (keeps_bind _); [|intros; apply conns_on_conn]. intros w. unfold conn_res, bind, pread.
  by destruct (p_conns w !! c) as [[]|].
Qed.

Lemma exit_inner {S} line e (p : process S) a p' : exit_with line e p = Ok a p' -> inner p' = inner p.
Proof. intros E. inv_ok E. injection E as _ <-. by injection Hm as _ <-. Qed.

Lemma listen_start_conns p c p' :
  listen_start p = Ok (inr c) p' ->
  c = length (p_conns (inner p)) /\ exists res, p_conns (inner p') = p_conns (inner p) ++ [Some res].
Proof.
  intros E. unfold listen_start in E. inv_ok E. apply within_Ok in Hm as (w1 & Hm & ->).
  pose proof (Acquire_conns Background (inner p)) as HA. rewrite Hm in HA. destruct a as [e|c']; [by inv_ok E|].
  destruct HA as (-> & res & v & Hc & _). inv_ok E. apply within_Ok in Hm0 as (w2 & Hm2 & ->).
  apply (keeps_Ok _ _ _ _ _ (conns_on _ _)) in Hm2. destruct a as [tag [e|]]; [by inv_ok E|].
  injection E as <- <-. split; [done|]. exists res. unfold same_conns in Hm2. simpl in *. congruence.
Qed.

Lemma listen_round_conns c p r p' :
  listen_round c p = Ok r p' -> p_conns (inner p') = p_conns (inner p).
Proof.
  intros E. unfold listen_round in E. inv_ok E. apply within_Ok in Hm as (w1 & Hm & ->).
  apply (keeps_Ok _ _ _ _ _ (conns_on _ _)) in Hm. destruct a as [[n|] [e|]]; [| | |done]; inv_ok E; injection E as _ <-.
  - apply exit_inner in Hm0. by rewrite Hm0.
  - by injection Hm0 as _ <-.
  - apply exit_inner in Hm0. by rewrite Hm0.
Qed.

Lemma chat_step_holds scan_err s s' : chat_step scan_err s s' -> listener_holds s -> listener_holds s'.
Proof.
  intros Hs [H1' H2']. destruct Hs as [p msg input l r p' E|p l code p' E|p input code p' E|p input c p' E|p input c r p' E];
    simpl in H1', H2'; split; simpl; try done.
  - intros c Hc. destruct (H1' c Hc) as [res Hr]. exists res. by apply (unheld_held _ _ _ _ (chat_line_unheld _ _ _ _ E)).
  - intros _ c res Hc. apply (unheld_held _ _ _ _ (chat_line_unheld _ _ _ _ E)) in Hc. by apply (H2' eq_refl c res).
  - intros c Hc. assert (inner p' = inner p) as ->; [|by apply H1'].
    unfold chat_end in E. destruct scan_err; [by eapply exit_inner|]. by injection E as _ <-.
  - intros c' [= <-]. apply listen_start_conns in E as (-> & res & ->). exists res.
    by rewrite lookup_app_r, Nat.sub_diag.
  - intros _ c' res Hc. apply listen_start_conns in E as (-> & res' & E). rewrite E in Hc.
    apply lookup_app_Some in Hc as [Hc|[Hle Hc]]; [by specialize (H2' eq_refl _ _ Hc)|].
    apply list_lookup_singleton_Some in Hc as [Hc _]. f_equal. lia.
  - intros c' [= <-]. rewrite (listen_round_conns _ _ _ _ E). by apply H1'.
  - intros _ c' res. rewrite (listen_round_conns _ _ _ _ E). by apply H2'.
Qed.

(** In every state of the chat, the goroutine that listens holds its connection
    for good, and until the process exits no other connection of the pool is
    held between two steps. *)
Theorem chat_holds_listener NumCPU url input st scan_err s0 s :
  chat_main NumCPU url input st = Done (inr s0) -> rtc (chat_step scan_err) s0 s -> listener_holds s.
Proof.
  intros E. assert (listener_holds s0) as H0'.
  { unfold chat_main, pool_start in E. destruct (Pool_ParseConfig pg_ParseConfig NumCPU url) as [e|cfg]; [done|].
    destruct (ConnectConfig _ _ _) as [[e|] w|msg w|] eqn:Ec; try done. injection E as <-.
    apply (keeps_Ok _ _ _ _ _ (conns_ConnectConfig _)) in Ec. split; simpl; [done|]. intros _ c res.
    by rewrite Ec. }
  clear E. induction 1 as [|s1 s2 s3 Hs _ IH]; [done|]. apply IH. by eapply chat_step_holds.
Qed.
End Pooled.
